(* ===== verification/_CoqProject ===== *)
-Q . S2P
Prelude.v
Errors.v
Protocol.v
Text.v
Banner.v
Config.v
SendQueue.v
Slot.v
FlowControl.v
ChannelTable.v
Wire.v
Connection.v
ConnSteps.v
Demux.v
Desync.v
Accept.v
Handshake.v
Dialogue.v
Outbound.v
Destination.v
Session.v
RecvBuf.v
ShellV2.v
ShellFrames.v
Sync.v
SyncStreams.v
SyncDevice.v
Task.v
Split.v
SplitCalls.v
SplitInv.v
SplitSteps.v
SplitParts.v
SplitSafe.v
SplitSystem.v
Protobuf.v
TrackApp.v
Reverse.v
LogFormat.v
Logcat.v
Services.v
Keys.v
Uri.v
Spake2.v
Pairing.v
Tls.v
Usb.v
TlsHalves.v
KeyStore.v
Ffi.v
Tcp.v
BlockOn.v
CThreads.v
Cert.v
FfiConnect.v
