(* ===== verification/Prelude.v ===== *)
(** * libadb

    A verification of libadb, a host-side implementation of the Android Debug
    Bridge protocol in Rust.  This file also holds what every other file shares.

    ** The program

    A connection to a device is one byte stream, over TCP, TLS or USB, that
    carries packets: a header of 24 bytes and a payload.  After a handshake
    (CNXN, AUTH, or STLS and then TLS) channels are opened over it with OPEN,
    acknowledged with OKAY, written to with WRTE and closed with CLSE, from
    either side.  A device grants credit for what may be sent on a channel, one
    packet at a time or in bytes where both sides support delayed
    acknowledgements.  Services run on channels: shells, file transfer, logs,
    reverse forwards, process lists.  A connection can be split into a reader
    and writers that different tasks hold.  A device is paired with once, over a
    connection of its own, before it accepts a host's key.

    The files follow src/libadb/src, lowest layer first:

<<
    Prelude       machine integers, slices, results, the program monad
    Errors        error.rs, and the errors of the services
    Protocol      base/protocol/*, base/ids.rs, encode_header of base/wire.rs
    Text          UTF-8, splitting and searching, of the standard library
    Banner        base/protocol/features.rs, base/connection/banner.rs,
                  base/device_banner.rs
    Config        base/connection/config.rs, base/negotiated.rs
    SendQueue     base/send_queue.rs
    Slot          base/slot.rs; FlowControl puts a slot and a device together
    ChannelTable  base/channel_table.rs
    Wire          base/wire.rs
    Connection    base/connection.rs, base/incoming.rs; ConnSteps, Demux,
                  Desync and Outbound prove what its calls do
    Accept        base/connection/accept.rs
    Handshake     base/connection/handshake.rs, base/connection/tls.rs,
                  base/auth.rs; Dialogue has the reference conversation
    Destination   base/destination.rs, base/decimal.rs
    Session       base/session.rs: what services are written against
    RecvBuf       base/recv_buf.rs, the whole-stream reads of base/channel.rs
    ShellV2       shell/v2.rs, shell/v2/decoder.rs; ShellFrames has the proofs
    Sync          sync.rs, sync/format.rs; SyncStreams relates the operations
                  to byte streams and SyncDevice has the device's end
    Task          concurrency: tasks, their steps and drops
    Split         split/shared.rs; SplitCalls the calls of split/writer.rs,
                  split/reader.rs and split/accept.rs; SplitInv, SplitSteps,
                  SplitParts and SplitSafe prove each call safe, SplitSystem
                  any number of them together
    Protobuf      base/protobuf.rs; TrackApp track_app.rs
    Reverse       reverse.rs
    LogFormat     logcat/format.rs; Logcat logcat.rs
    Services      exec.rs, shell/v1.rs, abb.rs, cmd.rs
    Keys          keys/pubkey.rs, keys/record.rs, the public half of keys.rs
    KeyStore      keys/store.rs, the loading and exporting of keys.rs
    Uri           transport/uri.rs
    Spake2        pairing/spake2.rs; Pairing the rest of pairing/*
    Tls           transport/tls/session.rs, maybe_tls.rs and error.rs;
                  TlsHalves halves.rs
    Usb           transport/usb.rs, nusb.rs, rusb.rs, common.rs and any.rs
    Ffi           src/libadb-ffi/src: error.rs, channel.rs, feature.rs, slice.rs,
                  macros.rs, and the calls of reverse.rs and shell.rs
    Tcp           transport/tcp.rs and transport/runtime.rs
    BlockOn       the executor of libadb-ffi's block_on.rs
    CThreads      the calls of libadb-ffi's channel.rs and incoming.rs by threads
                  that share a handle, with the rest of block_on.rs
    Cert          keys/cert.rs, tls/identity.rs and tls/config.rs
    FfiConnect    libadb-ffi's auth.rs, keys.rs, pairing.rs, transport.rs and
                  connection.rs
>>

    ** How it is modelled

    A call is a [prog]: it takes the state it borrows and returns its outcome
    and the state it leaves.  The outcome is a value, an error, a panic, or
    [Dropped]: every call of the library is a future, and where it waits on the
    transport its caller may drop it.  So a theorem about a call's outcome and
    state also says what is left when it is cancelled.  Guards that act on drop
    ([ArmedWrite], [Incoming], the guards of the split connection) act on every
    way out.  Integers are [Z], kept at their width where the source wraps,
    saturates or checks; [usize] has 64 bits.

    What the library only calls is an interface, with its documentation as laws:
    the transport ([Transport], [TransportLaws] of Wire), the authenticator and
    the start of TLS (Handshake), base64 (Keys), the curve and SHA-512 (Spake2),
    the RSA crate and the file system (KeyStore, the latter as a model),
    HKDF, the cipher and the session's exporter (Pairing), rustls's engine
    ([Engine], [EngineLaws] of Tls), libusb, nusb and blocking tasks (Usb), the
    sockets of the operating system and the threads of a runtime (Tcp), X.509 and
    the configuration of rustls (Cert).  The transports of the library are
    instances: a blocking socket ([blocking_tcp_laws]), a TLS session over any
    transport ([maybe_tls_laws]), the union of TCP and USB
    ([common_transport_laws]), so that what is shown of a connection holds over
    them.  Sessions are an
    interface of the library itself: Session has the class and its laws, shows
    that a connection satisfies them, and the services are proved against the
    laws alone.  Witnesses run the theorems on concrete instances: a scripted
    transport, sessions over lists of replies.

    Loops that end by themselves are fixpoints.  Those that read until the
    device has said enough take fuel, and the theorems say how much suffices:
    more than the bytes still to arrive for the receive loops of a connection
    and the handshake, more than the reads left for the streams of services, a
    round more than there are bytes for [write_all] and the protobuf decoders,
    a call more than there are signals for a blocking socket,
    [rounds_due] for a log entry and more rounds than entries for a dump, [due]
    for a TLS session.
    [NoFuel] is an outcome of its own, so that running out is never mistaken for
    returning.  Calls on a split connection are safe for every fuel.

    On a split connection a call is a task, a tree of atomic steps on the shared
    state with waiting points between them (Task).  A critical section under the
    synchronous lock is one step; the write half's asynchronous lock is a flag
    and waiting for it is a waiting point; [event_listener]'s events are
    counters.  At every waiting point any other task may step and the task
    itself may be dropped.  A ghost log records what was owed, paid, sent, read
    and decided.  The model lets more happen than the code does: several reads
    of the reader half at once, and reads interrupted at any time.  The halves of
    a TLS session, key directories and what threads share through the C interface,
    a shell session or a whole connection, are modelled in the same way.  The
    executor that a C thread sleeps in is a transition system of its own, in the
    atomic operations of its waker (BlockOn).

    ** What is shown

    Of the wire: [decode_exact], [send_pkt_contract], [recv_pkt_or_stream]; of
    channels: [flow_control_no_overflow], [flow_control_stream],
    [handles_never_alias], [send_queue_simulation], [config_rx_limits]; of a
    connection: [reads_demultiplex], [write_channel_delivers],
    [desync_is_final], [verdicts_keep_requests]; of the handshake:
    [handshake_follows_protocol], a refinement of a reference conversation,
    [handshake_disclosure], [upgrade_drops_plaintext]; of a split connection:
    the theorems of SplitSystem, over every interleaving and every drop; of the
    services: that what a call returns is what the reference reading of the
    device's byte stream says, however the transport cuts it
    ([collect_exact], [decoder_delivers], [recv_pulls], [send_pushes],
    [entries_streamed], [snapshots_read], [reverse_calls]), and that the device
    gets what was meant ([cmd_arguments_arrive], [pushes_read_back]); of formats:
    round trips and exactness ([log_entries_read_back], [decode_is_fold],
    [addresses_read_exactly], [public_key_struct], [record_corruption_found]); of
    pairing: [keys_agree], [pairing_completes], [pairing_conversation]; of TLS:
    [tls_stream], [tls_records_once], [start_tls_contract], and
    [halves_keep_streams] over every interleaving of the two halves; of USB:
    [scan_selects], [writes_are_transfers]; of key directories: [identity_kept],
    over every interleaving of threads and processes, and [exports_read_back] of
    keys; of the C interface:
    [channel_ids_cross], [c_frames], [frames_arrive_whole]; of its threads:
    [c_threads] and [c_requests_kept], over every interleaving of the calls on one
    handle, and [wakes_not_lost] of their executor; of its keys:
    [key_handle_accepted]; of sockets: [signals_unseen],
    [dialled_without_delay]; of what a host presents: [certificate_profile],
    [certificate_dates], [profile_presents].  [local_ids_wrap] and
    [has_feature_scan_differs] show two places where the code and its
    documentation part, and [addresses_read_exactly] has a third.

    ** What is not modelled

    Display texts and logging.  RSA, X.509, PEM, DER and rustls, which third
    parties implement: their interfaces are what the theorems assume.  The
    sockets of tokio and smol, which adapters make transports.  That a split
    connection's tasks are never stuck waiting for one another is shown for reads
    of an ended connection only ([split_ended_reads]).  Of the C interface, a
    handle that is null or not valid, the functions that free one and the texts of
    the last error; on Windows, the modes of key files; the examples, which print
    what the library returns; the test support of base/mock.rs. *)

From Stdlib Require Import ZArith Lia.
From Stdlib Require Export Strings.Byte.
From Stdlib Require Strings.String.
Export String.StringSyntax ByteSyntaxNotations.
From stdpp Require Export base list numbers option sets.
Open Scope Z_scope.

(** ** Bytes and machine integers *)

Abbreviation bytes := (list byte).

#[export] Instance byte_eq_decision : EqDecision byte := Byte.byte_eq_dec.

(** The unsigned value of a byte. *)
Definition u8 (b : byte) : Z := Z.of_N (Byte.to_N b).

(** [z as u8]: truncation to the low eight bits. *)
Definition b8 (z : Z) : byte :=
  default x00 (Byte.of_N (Z.to_N (z mod 256))).

(** A byte-string literal, Rust's [b"..."]. *)
Definition bs (s : String.string) : bytes := String.list_byte_of_string s.
Arguments bs s%_string_scope.

Definition U16_MAX : Z := 2 ^ 16 - 1.
Definition U32_MAX : Z := 2 ^ 32 - 1.
Definition I32_MAX : Z := 2 ^ 31 - 1.
Definition I32_MIN : Z := - 2 ^ 31.
(** [usize] is modelled at 64 bits. *)
Definition USIZE_MAX : Z := 2 ^ 64 - 1.

Definition is_u32 (z : Z) : Prop := 0 <= z < 2 ^ 32.

(** [z as u32], also what a wrapping 32-bit operation keeps of [z]. *)
Definition wrap_u32 (z : Z) : Z := z mod 2 ^ 32.

(** [a.saturating_add(b)] on [usize]. *)
Definition usize_saturating_add (a b : Z) : Z := Z.min (a + b) USIZE_MAX.

(** [a.saturating_sub(b)] on any unsigned type. *)
Definition saturating_sub (a b : Z) : Z := Z.max 0 (a - b).

(** [a.checked_add(b)] on [usize]. *)
Definition usize_checked_add (a b : Z) : option Z :=
  if a + b <=? USIZE_MAX then Some (a + b) else None.

(** [z as i64] for a [u64]. *)
Definition as_i64 (z : Z) : Z := if z <? 2 ^ 63 then z else z - 2 ^ 64.

(** ** Slices: lists indexed by [Z] *)

Section Slices.
Context {A : Type}.
Implicit Types l : list A.

Definition len l : Z := Z.of_nat (length l).

(** [l[..n]] clipped to the list; the models that slice check the bound
    themselves where the source would panic. *)
Fixpoint ztake (n : Z) l : list A :=
  match l with
  | [] => []
  | x :: l' => if n <=? 0 then [] else x :: ztake (n - 1) l'
  end.

(** [l[n..]], clipped likewise. *)
Fixpoint zdrop (n : Z) l : list A :=
  match l with
  | [] => []
  | x :: l' => if n <=? 0 then l else zdrop (n - 1) l'
  end.

(** [l[i..j]]. *)
Definition zslice (i j : Z) l : list A := ztake (j - i) (zdrop i l).

(** [l[off..off + src.len()].copy_from_slice(src)]. *)
Definition zsplice (off : Z) (src l : list A) : list A :=
  ztake off l ++ src ++ zdrop (off + len src) l.

Fixpoint znth (i : Z) l : option A :=
  match l with
  | [] => None
  | x :: l' => if i =? 0 then Some x else znth (i - 1) l'
  end.

Lemma ztake_take n l : ztake n l = take (Z.to_nat n) l.
Proof.
  revert n. induction l as [|x l IH]; intros n; simpl.
  - by rewrite take_nil.
  - destruct (Z.leb_spec n 0).
    + by replace (Z.to_nat n) with 0%nat by lia.
    + replace (Z.to_nat n) with (S (Z.to_nat (n - 1))) by lia. simpl. by rewrite IH.
Qed.

Lemma zdrop_drop n l : zdrop n l = drop (Z.to_nat n) l.
Proof.
  revert n. induction l as [|x l IH]; intros n; simpl.
  - by rewrite drop_nil.
  - destruct (Z.leb_spec n 0).
    + by replace (Z.to_nat n) with 0%nat by lia.
    + replace (Z.to_nat n) with (S (Z.to_nat (n - 1))) by lia. simpl. by rewrite IH.
Qed.

Lemma len_nonneg l : 0 <= len l.
Proof. unfold len. lia. Qed.

Lemma len_nil : len (@nil A) = 0.
Proof. done. Qed.

Lemma len_cons x l : len (x :: l) = len l + 1.
Proof. unfold len. simpl. lia. Qed.

Lemma len_app l1 l2 : len (l1 ++ l2) = len l1 + len l2.
Proof. unfold len. rewrite length_app. lia. Qed.

Lemma len_0_nil l : len l = 0 → l = [].
Proof. unfold len. destruct l; simpl; [done|lia]. Qed.

Lemma len_ztake n l : len (ztake n l) = Z.min (Z.max 0 n) (len l).
Proof. unfold len. rewrite ztake_take, length_take. lia. Qed.

Lemma len_zdrop n l : len (zdrop n l) = Z.max 0 (len l - Z.max 0 n).
Proof. unfold len. rewrite zdrop_drop, length_drop. lia. Qed.

Lemma ztake_zdrop n l : ztake n l ++ zdrop n l = l.
Proof. rewrite ztake_take, zdrop_drop. apply take_drop. Qed.

Lemma ztake_all n l : len l <= n → ztake n l = l.
Proof. unfold len. intros. rewrite ztake_take, take_ge; [done|lia]. Qed.

Lemma ztake_nonpos n l : n <= 0 → ztake n l = [].
Proof. intros. rewrite ztake_take. by replace (Z.to_nat n) with 0%nat by lia. Qed.

Lemma zdrop_nonpos n l : n <= 0 → zdrop n l = l.
Proof. intros. rewrite zdrop_drop. by replace (Z.to_nat n) with 0%nat by lia. Qed.

Lemma zdrop_all n l : len l <= n → zdrop n l = [].
Proof. unfold len. intros. rewrite zdrop_drop, drop_ge; [done|lia]. Qed.

Lemma ztake_app_le n l1 l2 : n <= len l1 → ztake n (l1 ++ l2) = ztake n l1.
Proof. unfold len. intros. rewrite !ztake_take, take_app_le; [done|lia]. Qed.

Lemma ztake_app_ge n l1 l2 :
  len l1 <= n → ztake n (l1 ++ l2) = l1 ++ ztake (n - len l1) l2.
Proof.
  unfold len. intros. rewrite !ztake_take, take_app_ge by lia.
  f_equal. f_equal. lia.
Qed.

Lemma ztake_app_len l1 l2 n : n = len l1 → ztake n (l1 ++ l2) = l1.
Proof. intros ->. rewrite ztake_app_le by lia. apply ztake_all. lia. Qed.

Lemma zdrop_app_le n l1 l2 : n <= len l1 → zdrop n (l1 ++ l2) = zdrop n l1 ++ l2.
Proof. unfold len. intros. rewrite !zdrop_drop, drop_app_le; [done|lia]. Qed.

Lemma zdrop_app_ge n l1 l2 : len l1 <= n → zdrop n (l1 ++ l2) = zdrop (n - len l1) l2.
Proof.
  unfold len. intros. rewrite !zdrop_drop, drop_app_ge by lia. f_equal. lia.
Qed.

Lemma zdrop_app_len l1 l2 n : n = len l1 → zdrop n (l1 ++ l2) = l2.
Proof. intros ->. rewrite zdrop_app_ge by lia. apply zdrop_nonpos. lia. Qed.

Lemma zdrop_zdrop a b l : 0 <= a → 0 <= b → zdrop a (zdrop b l) = zdrop (b + a) l.
Proof. intros. rewrite !zdrop_drop, drop_drop. f_equal. lia. Qed.

Lemma ztake_ztake a b l : ztake a (ztake b l) = ztake (Z.min a b) l.
Proof. rewrite !ztake_take, take_take. f_equal. lia. Qed.
End Slices.
Arguments len : simpl never.
Arguments ztake : simpl never.
Arguments zdrop : simpl never.

(** Length bookkeeping: [zlen] rewrites every length in sight and calls
    [lia]. *)
Create Rewrite HintDb zlen.
#[export] Hint Rewrite @len_nil @len_cons @len_app @len_ztake @len_zdrop : zlen.

Ltac zlen_facts :=
  repeat match goal with
  | |- context [len ?l] =>
      lazymatch goal with
      | _ : 0 <= len l |- _ => fail
      | _ => pose proof (len_nonneg l)
      end
  | _ : context [len ?l] |- _ =>
      lazymatch goal with
      | _ : 0 <= len l |- _ => fail
      | _ => pose proof (len_nonneg l)
      end
  end.

Ltac zlen := autorewrite with zlen in *; zlen_facts; lia.

(** ** Byte values *)

Lemma u8_range b : 0 <= u8 b < 256.
Proof. unfold u8. pose proof (Byte.to_N_bounded b). lia. Qed.

Lemma u8_inj b1 b2 : u8 b1 = u8 b2 → b1 = b2.
Proof.
  unfold u8. intros H%N2Z.inj.
  pose proof (Byte.of_to_N b1) as H1. pose proof (Byte.of_to_N b2) as H2.
  rewrite H in H1. congruence.
Qed.

Lemma u8_b8 z : u8 (b8 z) = z mod 256.
Proof.
  unfold u8, b8. pose proof (Z.mod_pos_bound z 256 ltac:(lia)) as Hb.
  destruct (Byte.of_N (Z.to_N (z mod 256))) as [b|] eqn:E; simpl.
  - apply Byte.to_of_N in E. rewrite E. lia.
  - apply Byte.of_N_None_iff in E. lia.
Qed.

Lemma b8_u8 b : b8 (u8 b) = b.
Proof. apply u8_inj. rewrite u8_b8. apply Z.mod_small, u8_range. Qed.

(** ** Little- and big-endian integers *)

(** [n.to_le_bytes()] for an integer of [w] bytes. *)
Fixpoint le_bytes (w : nat) (z : Z) : bytes :=
  match w with
  | O => []
  | S w => b8 z :: le_bytes w (z / 256)
  end.

(** [from_le_bytes]. *)
Fixpoint le_val (l : bytes) : Z :=
  match l with
  | [] => 0
  | b :: l => u8 b + 256 * le_val l
  end.

Definition u32_le (z : Z) : bytes := le_bytes 4 z.
Definition u64_le (z : Z) : bytes := le_bytes 8 z.
Definition u32_be (z : Z) : bytes := rev (le_bytes 4 z).
Definition be_val (l : bytes) : Z := le_val (rev l).

Lemma len_le_bytes w z : len (le_bytes w z) = Z.of_nat w.
Proof. revert z. induction w as [|w IH]; intros z; simpl; [done|]. rewrite len_cons, IH. lia. Qed.

Lemma len_u32_le z : len (u32_le z) = 4.
Proof. apply len_le_bytes. Qed.

Lemma len_u64_le z : len (u64_le z) = 8.
Proof. apply len_le_bytes. Qed.

Lemma len_rev {A} (l : list A) : len (rev l) = len l.
Proof. unfold len. by rewrite length_rev. Qed.

Lemma len_u32_be z : len (u32_be z) = 4.
Proof. unfold u32_be. rewrite len_rev. apply len_le_bytes. Qed.

#[export] Hint Rewrite len_le_bytes len_u32_le len_u64_le len_u32_be @len_rev : zlen.

Lemma le_val_bound l : 0 <= le_val l < 256 ^ len l.
Proof.
  induction l as [|b l IH]; simpl; [done|].
  rewrite len_cons, Z.pow_add_r by (zlen_facts; lia).
  pose proof (u8_range b). lia.
Qed.

Lemma le_val_le_bytes w z : le_val (le_bytes w z) = z mod 256 ^ Z.of_nat w.
Proof.
  revert z. induction w as [|w IH]; intros z; cbn [le_bytes le_val].
  - by rewrite Z.mod_1_r.
  - rewrite IH, u8_b8, Nat2Z.inj_succ, Z.pow_succ_r by lia.
    rewrite (Z.rem_mul_r z 256) by lia. lia.
Qed.

Lemma le_bytes_le_val l : le_bytes (length l) (le_val l) = l.
Proof.
  induction l as [|b l IH]; simpl; [done|].
  pose proof (u8_range b) as Hb. f_equal.
  - apply u8_inj. rewrite u8_b8, Z.mul_comm, Z.mod_add by lia.
    by apply Z.mod_small.
  - replace ((u8 b + 256 * le_val l) / 256) with (le_val l); [done|].
    rewrite Z.mul_comm, Z.div_add by lia. rewrite Z.div_small by lia. lia.
Qed.

Lemma le_val_u32_le z : is_u32 z → le_val (u32_le z) = z.
Proof.
  intros. unfold u32_le. rewrite le_val_le_bytes. apply Z.mod_small. exact H.
Qed.

Lemma u32_le_val l : len l = 4 → u32_le (le_val l) = l.
Proof.
  intros H. unfold u32_le. replace 4%nat with (length l) by (unfold len in H; lia).
  apply le_bytes_le_val.
Qed.

Lemma le_val_is_u32 l : len l = 4 → is_u32 (le_val l).
Proof. intros H. pose proof (le_val_bound l) as Hb. rewrite H in Hb. exact Hb. Qed.

Lemma be_val_u32_be z : is_u32 z → be_val (u32_be z) = z.
Proof. intros. unfold be_val, u32_be. rewrite rev_involutive. by apply le_val_u32_le. Qed.

#[global] Opaque u32_le u64_le u32_be.

(** ** Fallible code *)

(** Rust's [Result<A, E>]. *)
Inductive result (E A : Type) : Type :=
| Ok (a : A)
| Err (e : E).
Arguments Ok {E A} a.
Arguments Err {E A} e.

#[export] Instance result_eq_decision {E A} `{EqDecision E, EqDecision A} :
  EqDecision (result E A).
Proof. solve_decision. Defined.

(** The [?] operator and [Ok]. *)
#[export] Instance result_ret {E} : MRet (result E) := @Ok E.
#[export] Instance result_bind {E} : MBind (result E) := λ A B k r,
  match r with Ok a => k a | Err e => Err e end.

Definition map_err {E F A} (f : E → F) (r : result E A) : result F A :=
  match r with Ok a => Ok a | Err e => Err (f e) end.

Definition ok_or {E A} (e : E) (o : option A) : result E A :=
  match o with Some a => Ok a | None => Err e end.

Definition is_ok {E A} (r : result E A) : bool :=
  match r with Ok _ => true | Err _ => false end.

(** A chain of [?] that came through had every step come through. *)
Lemma bind_ok {E A B} (r : result E A) (f : A → result E B) b :
  r ≫= f = Ok b → ∃ a, r = Ok a ∧ f a = Ok b.
Proof. destruct r as [a|e]; [by eauto|done]. Qed.

Lemma map_err_ok {E F A} (f : E → F) (r : result E A) a : map_err f r = Ok a → r = Ok a.
Proof. by destruct r; intros [= <-]. Qed.

Lemma ok_or_ok {E A} (e : E) (o : option A) a : ok_or e o = Ok a → o = Some a.
Proof. by destruct o; intros [= <-]. Qed.

Ltac step_ok H a Ha :=
  apply bind_ok in H as (a & Ha & H); first [apply map_err_ok in Ha | apply ok_or_ok in Ha | idtac].

(** What an asynchronous call ends as: it returns a value or an error, its
    caller drops it while it waits, or it panics.  [NoFuel] marks a model
    that was given too few iterations; the termination theorems exclude
    it. *)
Inductive outcome (E A : Type) : Type :=
| Ret (a : A)
| Fail (e : E)
| Dropped
| Panicked
| NoFuel.
Arguments Ret {E A} a.
Arguments Fail {E A} e.
Arguments Dropped {E A}.
Arguments Panicked {E A}.
Arguments NoFuel {E A}.

Definition outcome_map {E A F B} (f : A → B) (g : E → F) (o : outcome E A) : outcome F B :=
  match o with
  | Ret a => Ret (f a) | Fail e => Fail (g e)
  | Dropped => Dropped | Panicked => Panicked | NoFuel => NoFuel
  end.

(** An outcome other than [Ret], at another value type. *)
Definition outcome_bind {E A B} (o : outcome E A) (k : A → outcome E B) : outcome E B :=
  match o with
  | Ret a => k a | Fail e => Fail e
  | Dropped => Dropped | Panicked => Panicked | NoFuel => NoFuel
  end.

(** Stateful code: state passing with an outcome. *)
Definition prog (S E A : Type) : Type := S → outcome E A * S.

#[export] Instance prog_ret {S E} : MRet (prog S E) := λ A a s, (Ret a, s).
#[export] Instance prog_bind {S E} : MBind (prog S E) := λ A B k m s,
  match m s with
  | (Ret a, s') => k a s'
  | (Fail e, s') => (Fail e, s')
  | (Dropped, s') => (Dropped, s')
  | (Panicked, s') => (Panicked, s')
  | (NoFuel, s') => (NoFuel, s')
  end.

Definition fail {S E A} (e : E) : prog S E A := λ s, (Fail e, s).
Definition panic {S E A} : prog S E A := λ s, (Panicked, s).
Definition out_of_fuel {S E A} : prog S E A := λ s, (NoFuel, s).
Definition get {S E} : prog S E S := λ s, (Ret s, s).
Definition gets {S E A} (f : S → A) : prog S E A := λ s, (Ret (f s), s).
Definition modify {S E} (f : S → S) : prog S E unit := λ s, (Ret tt, f s).

(** [?] on a [Result] inside stateful code. *)
Definition lift {S E A} (r : result E A) : prog S E A := λ s,
  match r with Ok a => (Ret a, s) | Err e => (Fail e, s) end.

(** Run [m] and hand its outcome on as a value: [let r = m.await;].  A
    dropped or panicking call does not return here. *)
Definition catch {S E A} (m : prog S E A) : prog S E (result E A) := λ s,
  match m s with
  | (Ret a, s') => (Ret (Ok a), s')
  | (Fail e, s') => (Ret (Err e), s')
  | (Dropped, s') => (Dropped, s')
  | (Panicked, s') => (Panicked, s')
  | (NoFuel, s') => (NoFuel, s')
  end.

(** A part of the state updated by a pure function that returns a value. *)
Definition state {S E A} (f : S → A * S) : prog S E A := λ s,
  let '(a, s') := f s in (Ret a, s').

(** Run a program on a component of the state, seen through a lens. *)
Definition zoom {S S' E A} (getter : S → S') (setter : S' → S → S)
    (m : prog S' E A) : prog S E A := λ s,
  let '(o, s') := m (getter s) in (o, setter s' s).

(** ** Reasoning about stateful code *)

(** [wp m Q s]: running [m] from [s] ends in an outcome and a state that
    satisfy [Q]. *)
Definition wp {S E A} (m : prog S E A) (Q : outcome E A → S → Prop) (s : S) : Prop :=
  Q (fst (m s)) (snd (m s)).

Section WeakestPrecondition.
Context {S E A B : Type}.
Implicit Types m : prog S E A.
Implicit Types Q : outcome E A → S → Prop.

Lemma wp_mono m Q Q' s :
  wp m Q s → (∀ o s', Q o s' → Q' o s') → wp m Q' s.
Proof. unfold wp. eauto. Qed.

Lemma wp_eq m Q s o s' : m s = (o, s') → Q o s' → wp m Q s.
Proof. unfold wp. by intros ->. Qed.

Lemma wp_bind m (k : A → prog S E B) (Q : outcome E B → S → Prop) s :
  wp m (λ o s', match o with
                | Ret a => wp (k a) Q s'
                | Fail e => Q (Fail e) s'
                | Dropped => Q Dropped s'
                | Panicked => Q Panicked s'
                | NoFuel => Q NoFuel s'
                end) s →
  wp (m ≫= k) Q s.
Proof.
  unfold wp, mbind, prog_bind. destruct (m s) as [[] s']; simpl; auto.
Qed.

Lemma wp_ret a Q s : Q (Ret a) s → wp (mret a) Q s.
Proof. done. Qed.

Lemma wp_fail e Q s : Q (Fail e) s → wp (fail e) Q s.
Proof. done. Qed.

Lemma wp_lift r Q s :
  match r with Ok a => Q (Ret a) s | Err e => Q (Fail e) s end → wp (lift r) Q s.
Proof. unfold wp, lift. by destruct r. Qed.

Lemma wp_gets (f : S → A) Q s : Q (Ret (f s)) s → wp (gets f) Q s.
Proof. done. Qed.

Lemma wp_state f Q s : Q (Ret (fst (f s))) (snd (f s)) → wp (state f) Q s.
Proof. unfold wp, state. by destruct (f s). Qed.

Lemma wp_catch m (Q : outcome E (result E A) → S → Prop) s :
  wp m (λ o s', match o with
                | Ret a => Q (Ret (Ok a)) s'
                | Fail e => Q (Ret (Err e)) s'
                | Dropped => Q Dropped s'
                | Panicked => Q Panicked s'
                | NoFuel => Q NoFuel s'
                end) s →
  wp (catch m) Q s.
Proof. unfold wp, catch. destruct (m s) as [[] s']; simpl; auto. Qed.

Lemma wp_zoom {S'} (g : S' → S) (p : S → S' → S') m (Q : outcome E A → S' → Prop) s :
  wp m (λ o s', Q o (p s' s)) (g s) → wp (zoom g p m) Q s.
Proof. unfold wp, zoom. by destruct (m (g s)). Qed.
End WeakestPrecondition.

Lemma prog_bind_assoc {S E A B C} (m : prog S E A) (f : A → prog S E B) (g : B → prog S E C) s :
  ((m ≫= f) ≫= g) s = (m ≫= (λ a, f a ≫= g)) s.
Proof. unfold mbind, prog_bind. by destruct (m s) as [[] ?]. Qed.

Lemma wp_assoc {S E A B C} (m : prog S E A) (f : A → prog S E B) (g : B → prog S E C) Q s :
  wp ((m ≫= f) ≫= g) Q s → wp (m ≫= (λ a, f a ≫= g)) Q s.
Proof. unfold wp. by rewrite prog_bind_assoc. Qed.

Lemma wp_modify {S E} (f : S → S) (Q : outcome E unit → S → Prop) s :
  Q (Ret tt) (f s) → wp (modify f) Q s.
Proof. done. Qed.

(** [steps R m]: every run of [m], however it ends, takes the state along
    [R].  With [R] a preorder the programs that step along it compose. *)
Definition steps {S E A} (R : S → S → Prop) (m : prog S E A) : Prop :=
  ∀ s, R s (snd (m s)).

Create HintDb steps.

Section Steps.
Context {S E : Type} (R : S → S → Prop) `{!PreOrder R}.

Lemma steps_ret {A} (a : A) : steps R (mret a : prog S E A).
Proof. intros s. simpl. reflexivity. Qed.

Lemma steps_fail {A} (e : E) : steps R (fail e : prog S E A).
Proof. intros s. simpl. reflexivity. Qed.

Lemma steps_panic {A} : steps R (panic : prog S E A).
Proof. intros s. simpl. reflexivity. Qed.

Lemma steps_out_of_fuel {A} : steps R (out_of_fuel : prog S E A).
Proof. intros s. simpl. reflexivity. Qed.

Lemma steps_gets {A} (f : S → A) : steps R (gets f : prog S E A).
Proof. intros s. simpl. reflexivity. Qed.

Lemma steps_lift {A} (r : result E A) : steps R (lift r : prog S E A).
Proof. intros s. unfold lift. destruct r; simpl; reflexivity. Qed.

Lemma steps_bind {A B} (m : prog S E A) (k : A → prog S E B) :
  steps R m → (∀ a, steps R (k a)) → steps R (m ≫= k).
Proof.
  intros Hm Hk s. unfold mbind, prog_bind. specialize (Hm s).
  destruct (m s) as [[a| | | |] s'] eqn:E1; simpl in *; [|done..].
  etrans; [done|]. apply Hk.
Qed.

Lemma steps_catch {A} (m : prog S E A) : steps R m → steps R (catch m).
Proof.
  intros Hm s. specialize (Hm s). unfold catch.
  by destruct (m s) as [[] ?].
Qed.

Lemma steps_modify (f : S → S) : (∀ s, R s (f s)) → steps R (modify f : prog S E unit).
Proof. intros Hf s. apply Hf. Qed.

Lemma steps_state {A} (f : S → A * S) :
  (∀ s, R s (snd (f s))) → steps R (state f : prog S E A).
Proof. intros Hf s. unfold state. specialize (Hf s). by destruct (f s). Qed.
End Steps.

(** A run's postcondition together with what it steps along. *)
Lemma wp_steps {S E A} (R : S → S → Prop) (m : prog S E A) Q s :
  steps R m → wp m Q s → wp m (λ o s', Q o s' ∧ R s s') s.
Proof. intros Hm Hq. split; [exact Hq|apply Hm]. Qed.

#[export] Hint Resolve steps_ret steps_fail steps_panic steps_out_of_fuel steps_gets
  steps_lift steps_catch : steps.
#[export] Hint Extern 0 (PreOrder _) => typeclasses eauto : steps.

Ltac steps_auto := intros; eauto with steps.

(** Step through a bind. *)
Ltac sbind := apply steps_bind; [typeclasses eauto|..].

#[export] Hint Extern 3 (steps _ (_ ≫= _)) => sbind; [|intros ?] : steps.

(** ** Tactics *)

(** Case analysis on the scrutinee of a [match] or [if], keeping the
    equation. *)
Ltac case_match_eqn :=
  match goal with
  | |- context [match ?x with _ => _ end] => destruct x eqn:?
  | H : context [match ?x with _ => _ end] |- _ => destruct x eqn:?
  end.

(** Boolean comparisons and connectives in hypotheses, as propositions. *)
Ltac bool_facts :=
  repeat match goal with
  | H : (_ && _)%bool = true |- _ => apply andb_prop in H; destruct H
  | H : (_ || _)%bool = false |- _ => apply orb_false_elim in H; destruct H
  | H : negb _ = true |- _ => apply negb_true_iff in H
  | H : negb _ = false |- _ => apply negb_false_iff in H
  | H : (_ =? _) = true |- _ => apply Z.eqb_eq in H
  | H : (_ =? _) = false |- _ => apply Z.eqb_neq in H
  | H : (_ <=? _) = true |- _ => apply Z.leb_le in H
  | H : (_ <=? _) = false |- _ => apply Z.leb_gt in H
  | H : (_ <? _) = true |- _ => apply Z.ltb_lt in H
  | H : (_ <? _) = false |- _ => apply Z.ltb_ge in H
  | H : bool_decide _ = true |- _ => apply bool_decide_eq_true in H
  | H : bool_decide _ = false |- _ => apply bool_decide_eq_false in H
  end.

(** Split the comparisons of the goal. *)
Ltac case_cmp :=
  repeat match goal with
  | |- context [?a =? ?b] => destruct (Z.eqb_spec a b)
  | |- context [?a <=? ?b] => destruct (Z.leb_spec a b)
  | |- context [?a <? ?b] => destruct (Z.ltb_spec a b)
  end.

(** Split the comparisons of the hypotheses too. *)
Ltac case_cmp_all :=
  case_cmp;
  try (match goal with
  | _ : context [?a =? ?b] |- _ => destruct (Z.eqb_spec a b)
  | _ : context [?a <=? ?b] |- _ => destruct (Z.leb_spec a b)
  | _ : context [?a <? ?b] |- _ => destruct (Z.ltb_spec a b)
  end; case_cmp_all).

(** Reduce the binds of [result] and [option] on known arguments. *)
Ltac bind_simpl := cbn [mbind result_bind option_bind mret result_ret] in *.
