(* ===== verification/Errors.v ===== *)
(** * Protocol vocabulary and errors

    The command and feature enumerations of [libadb/src/base/protocol/] and
    the error types of [libadb/src/error.rs] with the service errors it
    re-exports.  [Error E] is parameterized, as in the source, over the
    transport's I/O error [E]. *)

From S2P Require Import Prelude.

(** [Command] of [command.rs]. *)
Module Command.
Inductive Command : Type :=
| Sync | Connect | Open | Ready | Close | Write | Auth | StartTls.

#[global] Instance command_eq_decision : EqDecision Command.
Proof. solve_decision. Defined.
End Command.
Abbreviation Command := Command.Command.

(** [Feature] of [features.rs], in the macro's order. *)
Module Feature.
Inductive Feature : Type :=
| Abb | AbbExec | Apex | AppInfo | Cmd | DelayedAck | DevicetrackerProtoFormat
| Devraw | FixedPushMkdir | FixedPushSymlinkTimestamp | LsV2 | OpenscreenMdns
| RemountShell | SendrecvV2 | SendrecvV2Brotli | SendrecvV2DryRunSend
| SendrecvV2Lz4 | SendrecvV2Zstd | ShellV2 | StatV2 | TrackApp.

#[global] Instance feature_eq_decision : EqDecision Feature.
Proof. solve_decision. Defined.
End Feature.
Abbreviation Feature := Feature.Feature.

(** [ProtocolError] of [error.rs]. *)
Module ProtocolError.
Inductive ProtocolError : Type :=
| InvalidCommand (code : Z)
| InvalidMagic
| InvalidChecksum
| PayloadTooLarge
| UnexpectedCommand (c : Command)
| ShortReadyPayload
| InvalidAuthToken (length : Z)
| ShortExitPayload
| UnexpectedShellFrame (id : Z)
| InvalidDestination
| UnknownFeature
| InvalidBannerUtf8
| InvalidBannerPrefix
| InvalidBannerKeyValue
| TooManyBannerProperties
| TlsRequired
| DataAfterStls.

#[global] Instance protocol_error_eq_decision : EqDecision ProtocolError.
Proof. solve_decision. Defined.
End ProtocolError.
Abbreviation ProtocolError := ProtocolError.ProtocolError.

(** [AuthError] of [error.rs]; [SignFailed] carries the text the
    authenticator's error renders to. *)
Module AuthError.
Inductive AuthError : Type :=
| Rejected
| SignFailed (why : bytes)
| KeyNotTrusted
| TlsKeyNotTrusted
| TlsClosedBeforeConnect.

#[global] Instance auth_error_eq_decision : EqDecision AuthError.
Proof. solve_decision. Defined.
End AuthError.
Abbreviation AuthError := AuthError.AuthError.

(** [SyncError] of [sync/error.rs]; flags are their 32-bit value. *)
Module SyncError.
Inductive SyncError : Type :=
| Failed (msg : bytes)
| UnexpectedId (id : bytes)
| RemoteErrno (errno : Z)
| InvalidFlags (flags : Z)
| InvalidPath.

#[global] Instance sync_error_eq_decision : EqDecision SyncError.
Proof. solve_decision. Defined.
End SyncError.
Abbreviation SyncError := SyncError.SyncError.

(** [ReverseError] of [reverse.rs]. *)
Module ReverseError.
Inductive ReverseError : Type :=
| Failed (msg : bytes)
| UnexpectedReply.

#[global] Instance reverse_error_eq_decision : EqDecision ReverseError.
Proof. solve_decision. Defined.
End ReverseError.
Abbreviation ReverseError := ReverseError.ReverseError.

(** [LogcatError] of [logcat/format.rs]. *)
Module LogcatError.
Inductive LogcatError : Type :=
| InvalidHeader
| Exited (code : Z) (stderr : bytes)
| ClosedWithoutExit
| TruncatedEntry.

#[global] Instance logcat_error_eq_decision : EqDecision LogcatError.
Proof. solve_decision. Defined.
End LogcatError.
Abbreviation LogcatError := LogcatError.LogcatError.

(** [DecodeError] of [base/protobuf.rs]. *)
Module DecodeError.
Inductive DecodeError : Type :=
| InvalidLengthPrefix
| InvalidProtobuf
| InvalidUtf8.

#[global] Instance decode_error_eq_decision : EqDecision DecodeError.
Proof. solve_decision. Defined.
End DecodeError.
Abbreviation DecodeError := DecodeError.DecodeError.

(** [Error<E>] of [error.rs]. *)
Module Error.
Inductive Error (E : Type) : Type :=
| Io (e : E)
| Protocol (e : ProtocolError)
| Auth (e : AuthError)
| Sync (e : SyncError)
| Reverse (e : ReverseError)
| ChannelClosed
| NoFreeChannels
| UnexpectedEof
| ReceiveBufferFull
| ChannelRxOverflow
| Logcat (e : LogcatError)
| Decode (e : DecodeError)
| MissingFeature (f : Feature)
| Desynchronized
| Disconnected.
Arguments Io {E} e.
Arguments Protocol {E} e.
Arguments Auth {E} e.
Arguments Sync {E} e.
Arguments Reverse {E} e.
Arguments ChannelClosed {E}.
Arguments NoFreeChannels {E}.
Arguments UnexpectedEof {E}.
Arguments ReceiveBufferFull {E}.
Arguments ChannelRxOverflow {E}.
Arguments Logcat {E} e.
Arguments Decode {E} e.
Arguments MissingFeature {E} f.
Arguments Desynchronized {E}.
Arguments Disconnected {E}.

#[global] Instance error_eq_decision {E} `{EqDecision E} : EqDecision (Error E).
Proof. solve_decision. Defined.
End Error.
Abbreviation Error := Error.Error.
