(* ===== verification/Protocol.v ===== *)
(** * The ADB wire format

    [base/protocol/]: command codes, AUTH kinds, the payload checksum, the
    24-byte message header and [Packet], with [encode_header] of
    [base/wire.rs], the only encoder outside the tests; and [base/ids.rs].

    A packet on the wire is its header followed by its payload.  The theorems
    relate [decode] to [encode_header]: what is encoded decodes to itself
    whatever follows it, decoding consumes exactly one packet and depends on
    nothing after it, and [missing] is the number of bytes [decode] still
    waits for. *)

From S2P Require Import Prelude Errors.

(** ** Constants ([constant.rs], [command.rs], [message.rs]) *)

Definition CMD_SYNC : Z := le_val (bs "SYNC").
Definition CMD_CNXN : Z := le_val (bs "CNXN").
Definition CMD_AUTH : Z := le_val (bs "AUTH").
Definition CMD_OPEN : Z := le_val (bs "OPEN").
Definition CMD_OKAY : Z := le_val (bs "OKAY").
Definition CMD_CLSE : Z := le_val (bs "CLSE").
Definition CMD_WRTE : Z := le_val (bs "WRTE").
Definition CMD_STLS : Z := le_val (bs "STLS").

Definition AUTH_TOKEN : Z := 1.
Definition AUTH_SIGNATURE : Z := 2.
Definition AUTH_RSAPUBLICKEY : Z := 3.
Definition AUTH_TOKEN_LEN : Z := 20.

Definition ADB_VERSION : Z := 0x01000001.
Definition ADB_VERSION_SKIP_CHECKSUM : Z := 0x01000001.
Definition STLS_VERSION : Z := 0x01000000.
Definition MAX_PAYLOAD : Z := 1024 * 1024.
Definition MESSAGE_SIZE : Z := 24.

(** ** Commands *)

(** [impl From<Command> for u32]. *)
Definition command_code (c : Command) : Z :=
  match c with
  | Command.Sync => CMD_SYNC
  | Command.Connect => CMD_CNXN
  | Command.Open => CMD_OPEN
  | Command.Ready => CMD_OKAY
  | Command.Close => CMD_CLSE
  | Command.Write => CMD_WRTE
  | Command.Auth => CMD_AUTH
  | Command.StartTls => CMD_STLS
  end.

(** [Command::magic]. *)
Definition command_magic (c : Command) : Z := Z.lxor (command_code c) 0xFFFFFFFF.

(** [impl TryFrom<u32> for Command]. *)
Definition command_try_from (v : Z) : result ProtocolError Command :=
  if v =? CMD_SYNC then Ok Command.Sync
  else if v =? CMD_CNXN then Ok Command.Connect
  else if v =? CMD_OPEN then Ok Command.Open
  else if v =? CMD_OKAY then Ok Command.Ready
  else if v =? CMD_CLSE then Ok Command.Close
  else if v =? CMD_WRTE then Ok Command.Write
  else if v =? CMD_AUTH then Ok Command.Auth
  else if v =? CMD_STLS then Ok Command.StartTls
  else Err (ProtocolError.InvalidCommand v).

(** [AuthKind]. *)
Module AuthKind.
Inductive AuthKind : Type := Token | Signature | PublicKey.
End AuthKind.
Abbreviation AuthKind := AuthKind.AuthKind.

(** [impl TryFrom<u32> for AuthKind]: an unknown value is its own error. *)
Definition auth_kind_try_from (v : Z) : result Z AuthKind :=
  if v =? AUTH_TOKEN then Ok AuthKind.Token
  else if v =? AUTH_SIGNATURE then Ok AuthKind.Signature
  else if v =? AUTH_RSAPUBLICKEY then Ok AuthKind.PublicKey
  else Err v.

(** [impl From<AuthKind> for u32]. *)
Definition auth_kind_code (k : AuthKind) : Z :=
  match k with
  | AuthKind.Token => AUTH_TOKEN
  | AuthKind.Signature => AUTH_SIGNATURE
  | AuthKind.PublicKey => AUTH_RSAPUBLICKEY
  end.

(** ** Checksums ([checksum.rs]) *)

(** [payload_checksum]: the wrapping 32-bit sum of the bytes. *)
Definition payload_checksum (payload : bytes) : Z :=
  fold_left (λ sum b, wrap_u32 (sum + u8 b)) payload 0.

Module Checksum.
Inductive Checksum : Type := Compute | Skip.

#[global] Instance checksum_eq_decision : EqDecision Checksum.
Proof. solve_decision. Defined.
End Checksum.
Abbreviation Checksum := Checksum.Checksum.

(** [Checksum::for_version]. *)
Definition checksum_for_version (version : Z) : Checksum :=
  if ADB_VERSION_SKIP_CHECKSUM <=? version then Checksum.Skip else Checksum.Compute.

(** [Checksum::of]. *)
Definition checksum_of (c : Checksum) (payload : bytes) : Z :=
  match c with
  | Checksum.Skip => 0
  | Checksum.Compute => payload_checksum payload
  end.

(** ** Messages and packets *)

(** [Message] of [message.rs]. *)
Record Message : Type := mkMessage {
  m_command : Z;
  m_arg0 : Z;
  m_arg1 : Z;
  m_data_length : Z;
  m_data_check : Z;
  m_magic : Z;
}.

(** [Packet] of [packet.rs]. *)
Record Packet : Type := mkPacket {
  command : Command;
  arg0 : Z;
  arg1 : Z;
  data : bytes;
}.

#[export] Instance packet_eq_decision : EqDecision Packet.
Proof. solve_decision. Defined.

(** [ChannelIds] of [ids.rs]; [LocalId] and [RemoteId] are newtypes over
    [u32] and stand here for their values. *)
Record ChannelIds : Type := mkIds { local : Z; remote : Z }.

#[export] Instance channel_ids_eq_decision : EqDecision ChannelIds.
Proof. solve_decision. Defined.

(** [ChannelIds::closed_by]. *)
Definition closed_by (ids : ChannelIds) (pkt : Packet) : bool :=
  bool_decide (command pkt = Command.Close)
  && ((arg1 pkt =? local ids) || ((arg1 pkt =? 0) && (arg0 pkt =? remote ids))).

(** [Packet::close], [Packet::refuse], [Packet::auth_signature] and
    [Packet::auth_public_key]. *)
Definition packet_close (ids : ChannelIds) : Packet :=
  mkPacket Command.Close (local ids) (remote ids) [].
Definition packet_refuse (remote : Z) : Packet :=
  mkPacket Command.Close 0 remote [].
Definition packet_auth_signature (signature : bytes) : Packet :=
  mkPacket Command.Auth (auth_kind_code AuthKind.Signature) 0 signature.
Definition packet_auth_public_key (key : bytes) : Packet :=
  mkPacket Command.Auth (auth_kind_code AuthKind.PublicKey) 0 key.

(** [u32::from_le_bytes] of the four bytes at [off]. *)
Definition u32_at (off : Z) (buf : bytes) : Z := le_val (zslice off (off + 4) buf).

(** The six [get_u32_le] reads of [Packet::decode]. *)
Definition parse_message (h : bytes) : Message :=
  mkMessage (u32_at 0 h) (u32_at 4 h) (u32_at 8 h) (u32_at 12 h) (u32_at 16 h) (u32_at 20 h).

(** [Packet::decode]: the result and what is left in the buffer.  The packet
    leaves the buffer before its checksum is compared. *)
Definition decode (buf : bytes) (max_payload : Z) :
    result ProtocolError (option Packet) * bytes :=
  if len buf <? MESSAGE_SIZE then (Ok None, buf)
  else
    let message := parse_message (ztake MESSAGE_SIZE buf) in
    match command_try_from (m_command message) with
    | Err _ => (Err (ProtocolError.InvalidCommand (m_command message)), buf)
    | Ok command =>
        if negb (m_magic message =? command_magic command) then
          (Err ProtocolError.InvalidMagic, buf)
        else if Z.min max_payload MAX_PAYLOAD <? m_data_length message then
          (Err ProtocolError.PayloadTooLarge, buf)
        else
          let total_len := MESSAGE_SIZE + m_data_length message in
          if len buf <? total_len then (Ok None, buf)
          else
            let data := zdrop MESSAGE_SIZE (ztake total_len buf) in
            let rest := zdrop total_len buf in
            if negb (m_data_check message =? 0)
               && negb (payload_checksum data =? m_data_check message) then
              (Err ProtocolError.InvalidChecksum, rest)
            else
              (Ok (Some (mkPacket command (m_arg0 message) (m_arg1 message) data)), rest)
    end.

(** [Packet::missing]. *)
Definition missing (buf : bytes) : Z :=
  if len buf <? MESSAGE_SIZE then MESSAGE_SIZE - len buf
  else saturating_sub (MESSAGE_SIZE + u32_at 12 buf) (len buf).

(** [encode_header] of [wire.rs]. *)
Definition encode_header (command : Command) (arg0 arg1 : Z) (payload : bytes)
    (checksum : Checksum) : result ProtocolError bytes :=
  if MAX_PAYLOAD <? len payload then Err ProtocolError.PayloadTooLarge
  else Ok (u32_le (command_code command) ++ u32_le arg0 ++ u32_le arg1
           ++ u32_le (len payload) ++ u32_le (checksum_of checksum payload)
           ++ u32_le (command_magic command)).

(** The bytes of a packet on the wire. *)
Definition frame (checksum : Checksum) (pkt : Packet) : result ProtocolError bytes :=
  h ← encode_header (command pkt) (arg0 pkt) (arg1 pkt) (data pkt) checksum;
  Ok (h ++ data pkt).

(** A packet whose arguments are 32-bit values. *)
Definition packet_wf (pkt : Packet) : Prop := is_u32 (arg0 pkt) ∧ is_u32 (arg1 pkt).

(** ** Commands, checksums and fields *)

Lemma command_try_from_code c : command_try_from (command_code c) = Ok c.
Proof. by destruct c. Qed.

Lemma command_try_from_inv v c : command_try_from v = Ok c → v = command_code c.
Proof.
  unfold command_try_from. intros H.
  repeat (case_match_eqn; [bool_facts; by simplify_eq/=|]). done.
Qed.

Lemma command_try_from_err v e :
  command_try_from v = Err e → e = ProtocolError.InvalidCommand v.
Proof.
  unfold command_try_from. intros H.
  repeat (case_match_eqn; [done|]). by simplify_eq.
Qed.

Lemma command_code_u32 c : is_u32 (command_code c).
Proof. destruct c; vm_compute; split; congruence. Qed.

Lemma command_magic_u32 c : is_u32 (command_magic c).
Proof. destruct c; vm_compute; split; congruence. Qed.

(** The mathematical sum of a payload's bytes. *)
Definition byte_sum (payload : bytes) : Z := foldr (λ b s, u8 b + s) 0 payload.

Lemma byte_sum_bound p : 0 <= byte_sum p <= 255 * len p.
Proof.
  induction p as [|b p IH]; simpl; [done|].
  rewrite len_cons. pose proof (u8_range b). lia.
Qed.

Lemma payload_checksum_sum p : payload_checksum p = byte_sum p mod 2 ^ 32.
Proof.
  unfold payload_checksum.
  enough (∀ acc, 0 <= acc < 2 ^ 32 →
    fold_left (λ sum b, wrap_u32 (sum + u8 b)) p acc = (acc + byte_sum p) mod 2 ^ 32) as H.
  { by rewrite H. }
  induction p as [|b p IH]; intros acc Hacc; simpl.
  - rewrite Z.mod_small; lia.
  - rewrite IH by (unfold wrap_u32; apply Z.mod_pos_bound; lia).
    unfold wrap_u32. rewrite Z.add_mod_idemp_l by lia. f_equal. lia.
Qed.

Lemma payload_checksum_u32 p : is_u32 (payload_checksum p).
Proof. rewrite payload_checksum_sum. apply Z.mod_pos_bound. lia. Qed.

Lemma checksum_of_u32 c p : is_u32 (checksum_of c p).
Proof.
  destruct c; [apply payload_checksum_u32|]. by vm_compute.
Qed.

(** A legal payload's sum never wraps. *)
Lemma payload_checksum_exact p : len p <= MAX_PAYLOAD → payload_checksum p = byte_sum p.
Proof.
  intros. rewrite payload_checksum_sum. apply Z.mod_small.
  pose proof (byte_sum_bound p). unfold MAX_PAYLOAD in *. lia.
Qed.

Lemma u32_at_app_l off l1 l2 :
  0 <= off → off + 4 <= len l1 → u32_at off (l1 ++ l2) = u32_at off l1.
Proof.
  intros. unfold u32_at, zslice. rewrite zdrop_app_le by lia.
  by rewrite ztake_app_le by zlen.
Qed.

Lemma u32_at_app_r off l1 l2 :
  len l1 <= off → u32_at off (l1 ++ l2) = u32_at (off - len l1) l2.
Proof.
  intros. unfold u32_at, zslice. rewrite zdrop_app_ge by lia. f_equal. f_equal. lia.
Qed.

Lemma u32_at_head z l : is_u32 z → u32_at 0 (u32_le z ++ l) = z.
Proof.
  intros. unfold u32_at, zslice. rewrite zdrop_nonpos by lia.
  rewrite ztake_app_len by zlen. by apply le_val_u32_le.
Qed.

Lemma u32_at_skip off z l : 4 <= off → u32_at off (u32_le z ++ l) = u32_at (off - 4) l.
Proof. intros. rewrite u32_at_app_r; zlen_facts; rewrite len_u32_le; [done|lia]. Qed.

Lemma u32_at_ztake off n buf :
  0 <= off → off + 4 <= n → off + 4 <= len buf → u32_at off (ztake n buf) = u32_at off buf.
Proof.
  intros. rewrite <- (ztake_zdrop n buf) at 2. rewrite u32_at_app_l; [done|zlen..].
Qed.

Lemma u32_at_is_u32 off buf : 0 <= off → off + 4 <= len buf → is_u32 (u32_at off buf).
Proof. intros. apply le_val_is_u32. unfold zslice. zlen. Qed.

(** Reading the six fields back from a header written by [encode_header]. *)
Lemma parse_message_fields c a0 a1 n k m l :
  is_u32 c → is_u32 a0 → is_u32 a1 → is_u32 n → is_u32 k → is_u32 m →
  parse_message (ztake MESSAGE_SIZE
    (u32_le c ++ u32_le a0 ++ u32_le a1 ++ u32_le n ++ u32_le k ++ u32_le m ++ l))
  = mkMessage c a0 a1 n k m.
Proof.
  intros. unfold parse_message, MESSAGE_SIZE.
  rewrite !u32_at_ztake by zlen.
  by repeat first
    [ rewrite u32_at_head by done | rewrite u32_at_skip by lia
    | progress change (4 - 4) with 0 | progress change (8 - 4) with 4
    | progress change (12 - 4) with 8 | progress change (16 - 4) with 12
    | progress change (20 - 4) with 16 ].
Qed.

Lemma zdrop_zslice i j (l : bytes) :
  0 <= i <= j → zslice i j l ++ zdrop j l = zdrop i l.
Proof.
  intros. unfold zslice. replace j with (i + (j - i)) at 2 by lia.
  rewrite <- zdrop_zdrop by lia. apply ztake_zdrop.
Qed.

(** Any 24 bytes are the six fields they parse to. *)
Lemma message_fields_bytes buf :
  MESSAGE_SIZE <= len buf →
  buf = u32_le (u32_at 0 buf) ++ u32_le (u32_at 4 buf) ++ u32_le (u32_at 8 buf)
     ++ u32_le (u32_at 12 buf) ++ u32_le (u32_at 16 buf) ++ u32_le (u32_at 20 buf)
     ++ zdrop MESSAGE_SIZE buf.
Proof.
  unfold MESSAGE_SIZE. intros.
  unfold u32_at. rewrite !u32_le_val by (unfold zslice; zlen).
  change (0 + 4) with 4. change (4 + 4) with 8. change (8 + 4) with 12.
  change (12 + 4) with 16. change (16 + 4) with 20. change (20 + 4) with 24.
  rewrite !zdrop_zslice by lia. by rewrite zdrop_nonpos by lia.
Qed.

(** ** Decoding *)

Lemma frame_ok c pkt fr :
  frame c pkt = Ok fr →
  len (data pkt) <= MAX_PAYLOAD ∧
  fr = u32_le (command_code (command pkt)) ++ u32_le (arg0 pkt) ++ u32_le (arg1 pkt)
    ++ u32_le (len (data pkt)) ++ u32_le (checksum_of c (data pkt))
    ++ u32_le (command_magic (command pkt)) ++ data pkt.
Proof.
  unfold frame, encode_header. case_cmp; [done|]. simpl. intros [= <-].
  split; [lia|]. by rewrite <- !(assoc_L (++)).
Qed.

Lemma len_frame c pkt fr : frame c pkt = Ok fr → len fr = MESSAGE_SIZE + len (data pkt).
Proof. intros [_ ->]%frame_ok. unfold MESSAGE_SIZE. zlen. Qed.

Lemma frame_exists c pkt : len (data pkt) <= MAX_PAYLOAD → ∃ fr, frame c pkt = Ok fr.
Proof. intros. unfold frame, encode_header. case_cmp; [lia|]. eauto. Qed.

(** The header of a frame parses to the fields it was built from. *)
Lemma parse_message_frame c pkt fr rest :
  packet_wf pkt → frame c pkt = Ok fr →
  parse_message (ztake MESSAGE_SIZE (fr ++ rest))
  = mkMessage (command_code (command pkt)) (arg0 pkt) (arg1 pkt) (len (data pkt))
      (checksum_of c (data pkt)) (command_magic (command pkt)).
Proof.
  intros [H0 H1] [Hmax ->]%frame_ok. rewrite <- !(assoc_L (++)).
  apply parse_message_fields; auto using command_code_u32, checksum_of_u32, command_magic_u32.
  unfold is_u32, MAX_PAYLOAD in *. zlen_facts. lia.
Qed.

Lemma zdrop_frame c pkt fr : frame c pkt = Ok fr → zdrop MESSAGE_SIZE fr = data pkt.
Proof.
  intros [_ ->]%frame_ok. rewrite !(assoc_L (++)).
  apply zdrop_app_len. unfold MESSAGE_SIZE. zlen.
Qed.

(** A complete frame decodes to its packet, whatever follows it. *)
Lemma decode_frame c pkt fr rest mp :
  packet_wf pkt → len (data pkt) <= Z.min mp MAX_PAYLOAD → frame c pkt = Ok fr →
  decode (fr ++ rest) mp = (Ok (Some pkt), rest).
Proof.
  intros Hwf Hlen Hfr. pose proof (len_frame _ _ _ Hfr) as Hl.
  pose proof (zdrop_frame _ _ _ Hfr) as Hd.
  unfold decode. rewrite (parse_message_frame c pkt) by done.
  cbn [m_command m_magic m_data_length m_data_check m_arg0 m_arg1].
  rewrite command_try_from_code, Z.eqb_refl, len_app, Hl.
  unfold MESSAGE_SIZE in *. zlen_facts.
  repeat match goal with |- context [?a <? ?b] => destruct (Z.ltb_spec a b); [lia|] end.
  rewrite ztake_app_len, zdrop_app_len by done.
  rewrite Hd. simpl negb. cbv iota.
  destruct c; simpl checksum_of; [|by destruct pkt].
  rewrite Z.eqb_refl, andb_false_r. by destruct pkt.
Qed.

(** The reverse: a decoded packet was a complete frame at the front of the
    buffer. *)
Lemma decode_inv buf mp pkt rest :
  decode buf mp = (Ok (Some pkt), rest) →
  ∃ c fr, packet_wf pkt ∧ len (data pkt) <= Z.min mp MAX_PAYLOAD ∧
          frame c pkt = Ok fr ∧ buf = fr ++ rest.
Proof.
  unfold decode. destruct (Z.ltb_spec (len buf) MESSAGE_SIZE) as [|Hlen]; [done|].
  pose proof (message_fields_bytes buf Hlen) as Hbuf.
  unfold parse_message, MESSAGE_SIZE in *. rewrite !u32_at_ztake by lia.
  cbn [m_command m_magic m_data_length m_data_check m_arg0 m_arg1].
  destruct (command_try_from _) as [cmd|] eqn:Hcmd; [|done].
  apply command_try_from_inv in Hcmd.
  destruct (Z.eqb_spec (u32_at 20 buf) (command_magic cmd)) as [Hmagic|]; [|done].
  simpl negb. cbv iota.
  destruct (Z.ltb_spec (Z.min mp MAX_PAYLOAD) (u32_at 12 buf)) as [|Hmax]; [done|].
  destruct (Z.ltb_spec (len buf) (24 + u32_at 12 buf)) as [|Htot]; [done|].
  pose proof (u32_at_is_u32 12 buf ltac:(lia) ltac:(lia)) as Hu.
  set (d := zdrop 24 (ztake (24 + u32_at 12 buf) buf)).
  assert (len d = u32_at 12 buf) as Hd by (unfold d, is_u32 in *; zlen).
  assert (zdrop 24 buf = d ++ zdrop (24 + u32_at 12 buf) buf) as Hrest.
  { unfold d. rewrite <- zdrop_app_le by (unfold is_u32 in *; zlen). by rewrite ztake_zdrop. }
  intros Hres.
  exists (if u32_at 16 buf =? 0 then Checksum.Skip else Checksum.Compute).
  destruct ((negb (u32_at 16 buf =? 0)) && _)%bool eqn:Hck; [done|].
  injection Hres as <- <-.
  unfold frame, encode_header. simpl. rewrite Hd.
  destruct (Z.ltb_spec MAX_PAYLOAD (u32_at 12 buf)); [lia|].
  eexists. split_and!; [split; apply u32_at_is_u32; lia|done|done|].
  simpl. rewrite <- !(assoc_L (++)), <- Hrest, <- Hcmd, <- Hmagic.
  replace (checksum_of _ d) with (u32_at 16 buf); [exact Hbuf|].
  destruct (Z.eqb_spec (u32_at 16 buf) 0) as [->|]; [done|]. simpl in *.
  bool_facts. by symmetry.
Qed.

(** What [decode] answers depends on the front of the buffer alone. *)
Lemma decode_app buf more mp r rest :
  decode buf mp = (r, rest) → r ≠ Ok None → decode (buf ++ more) mp = (r, rest ++ more).
Proof.
  unfold decode. intros H Hr. rewrite len_app.
  destruct (Z.ltb_spec (len buf) MESSAGE_SIZE) as [|Hlen]; [by simplify_eq|].
  destruct (Z.ltb_spec (len buf + len more) MESSAGE_SIZE); [zlen_facts; lia|].
  rewrite ztake_app_le by lia.
  pose proof (u32_at_is_u32 12 buf ltac:(lia) ltac:(unfold MESSAGE_SIZE in *; lia)) as Hu.
  assert (m_data_length (parse_message (ztake MESSAGE_SIZE buf)) = u32_at 12 buf) as Hdl.
  { simpl. apply u32_at_ztake; unfold MESSAGE_SIZE in *; lia. }
  destruct (parse_message _) as [c a0 a1 n k m]; simpl in *. subst n.
  destruct (command_try_from c); [|by simplify_eq].
  destruct (negb _); [by simplify_eq|].
  destruct (Z.ltb_spec (Z.min mp MAX_PAYLOAD) (u32_at 12 buf)); [by simplify_eq|].
  destruct (Z.ltb_spec (len buf) (MESSAGE_SIZE + u32_at 12 buf)); [by simplify_eq|].
  destruct (Z.ltb_spec (len buf + len more) (MESSAGE_SIZE + u32_at 12 buf)); [zlen_facts; lia|].
  rewrite ztake_app_le, zdrop_app_le by lia.
  destruct (negb (k =? 0) && _)%bool; by simplify_eq.
Qed.

Lemma missing_eq buf :
  len buf < MESSAGE_SIZE ∧ missing buf = MESSAGE_SIZE - len buf ∨
  MESSAGE_SIZE <= len buf ∧ missing buf = Z.max 0 (MESSAGE_SIZE + u32_at 12 buf - len buf).
Proof. unfold missing, saturating_sub. case_cmp; [left|right]; lia. Qed.

(** An undecided buffer is a partial header, or a valid header whose payload
    is incomplete. *)
Lemma decode_none_inv buf mp buf' :
  decode buf mp = (Ok None, buf') →
  buf' = buf ∧ (len buf < MESSAGE_SIZE ∨
    MESSAGE_SIZE <= len buf < MESSAGE_SIZE + u32_at 12 buf ∧
    u32_at 12 buf <= Z.min mp MAX_PAYLOAD).
Proof.
  unfold decode. destruct (Z.ltb_spec (len buf) MESSAGE_SIZE); [intros [= <-]; auto|].
  assert (m_data_length (parse_message (ztake MESSAGE_SIZE buf)) = u32_at 12 buf) as Hdl.
  { simpl. apply u32_at_ztake; unfold MESSAGE_SIZE in *; lia. }
  destruct (parse_message _) as [c a0 a1 n k m]; simpl in *. subst n.
  destruct (command_try_from c); [|done]. destruct (negb _); [done|].
  destruct (Z.ltb_spec (Z.min mp MAX_PAYLOAD) (u32_at 12 buf)); [done|].
  destruct (Z.ltb_spec (len buf) (MESSAGE_SIZE + u32_at 12 buf)).
  - intros [= <-]. split; [done|]. right. lia.
  - by destruct (negb (k =? 0) && _)%bool.
Qed.

Lemma decode_none_missing buf mp buf' :
  decode buf mp = (Ok None, buf') →
  buf' = buf ∧ 0 < missing buf ∧ len buf + missing buf <= MESSAGE_SIZE + Z.max 0 (Z.min mp MAX_PAYLOAD).
Proof.
  intros [-> H]%decode_none_inv. split; [done|].
  unfold MESSAGE_SIZE in *. destruct (missing_eq buf); unfold MESSAGE_SIZE in *; lia.
Qed.

(** With a header whose announced payload has arrived, [decode] decides. *)
Lemma decode_decides buf mp :
  MESSAGE_SIZE <= len buf → missing buf = 0 → fst (decode buf mp) ≠ Ok None.
Proof.
  intros Hl Hm Heq. destruct (decode buf mp) as [r buf'] eqn:Hd. simpl in *. subst r.
  apply decode_none_missing in Hd as (_ & ? & _). lia.
Qed.

Lemma missing_app buf more :
  MESSAGE_SIZE <= len buf → missing (buf ++ more) = Z.max 0 (missing buf - len more).
Proof.
  intros H. pose proof (missing_eq buf) as H1. pose proof (missing_eq (buf ++ more)) as H2.
  unfold MESSAGE_SIZE in *. rewrite u32_at_app_l in H2 by lia. zlen.
Qed.

(** C15: the decoder is exact.  [Packet::decode] produces a packet and leaves
    [rest] behind if and only if the buffer starts with the wire encoding of
    that packet (the header written by [encode_header], with or without a
    checksum, then the payload), the arguments are 32-bit values and the
    payload fits the configured and the absolute maximum. *)
Theorem decode_exact buf mp pkt rest :
  decode buf mp = (Ok (Some pkt), rest) ↔
  ∃ c fr, packet_wf pkt ∧ len (data pkt) <= Z.min mp MAX_PAYLOAD ∧
          frame c pkt = Ok fr ∧ buf = fr ++ rest.
Proof.
  split; [apply decode_inv|].
  intros (c & fr & Hwf & Hlen & Hfr & ->). by eapply decode_frame.
Qed.

(** [Packet::missing] is right.  When [decode] asks for more, the
    buffer is untouched and [missing] is positive; no extension shorter than
    [missing] is decided (once the header is in), an extension of exactly
    [missing] bytes completes the header or decides the packet, and the
    buffer never has to grow past one header and the largest allowed
    payload. *)
Theorem missing_exact buf mp buf' :
  decode buf mp = (Ok None, buf') →
  buf' = buf ∧ 0 < missing buf ∧
  len buf + missing buf <= MESSAGE_SIZE + Z.max 0 (Z.min mp MAX_PAYLOAD) ∧
  ∀ more,
    (len more < missing buf → decode (buf ++ more) mp = (Ok None, buf ++ more)) ∧
    (len more = missing buf →
       (len buf < MESSAGE_SIZE ∧ len (buf ++ more) = MESSAGE_SIZE) ∨
       fst (decode (buf ++ more) mp) ≠ Ok None).
Proof.
  intros Hd. pose proof (decode_none_missing _ _ _ Hd) as (-> & Hpos & Hle).
  split_and!; [done..|]. intros more.
  pose proof (decode_none_inv _ _ _ Hd) as [_ Hcase].
  pose proof (missing_eq buf) as Hm. split.
  - intros Hless. destruct (decode (buf ++ more) mp) as [r rest] eqn:Hd'.
    unfold decode in Hd, Hd'. rewrite len_app in Hd'.
    destruct (Z.ltb_spec (len buf + len more) MESSAGE_SIZE) as [|Hge]; [by simplify_eq|].
    destruct Hcase as [|[Hin Hmax]]; [lia|].
    rewrite ztake_app_le in Hd' by lia.
    destruct (Z.ltb_spec (len buf) MESSAGE_SIZE); [lia|].
    assert (m_data_length (parse_message (ztake MESSAGE_SIZE buf)) = u32_at 12 buf) as Hdl.
    { simpl. apply u32_at_ztake; unfold MESSAGE_SIZE in *; lia. }
    destruct (parse_message _) as [c a0 a1 n k m]; simpl in *. subst n.
    destruct (command_try_from c); [|done]. destruct (negb _); [done|].
    destruct (Z.ltb_spec (Z.min mp MAX_PAYLOAD) (u32_at 12 buf)); [done|].
    destruct (Z.ltb_spec (len buf + len more) (MESSAGE_SIZE + u32_at 12 buf)); [by simplify_eq|].
    lia.
  - intros Heq. destruct Hcase as [Hlt|[Hin Hmax]].
    + left. split; [done|]. zlen.
    + right. apply decode_decides; [zlen|]. rewrite missing_app; lia.
Qed.

Lemma missing_exact_witness :
  decode (bs "WRTE") 1000 = (Ok None, bs "WRTE") ∧ missing (bs "WRTE") = 20.
Proof.
  split; [reflexivity|].
  pose proof (missing_exact (bs "WRTE") 1000 (bs "WRTE") eq_refl) as (_ & _ & _ & _).
  reflexivity.
Defined.

(** A header that announces more than the limit is refused as soon as
    the 24 bytes are in, before any of the payload is awaited, and nothing
    is consumed; the command and the magic are checked first. *)
Theorem decode_oversize buf mp c :
  MESSAGE_SIZE <= len buf →
  command_try_from (u32_at 0 buf) = Ok c →
  u32_at 20 buf = command_magic c →
  Z.min mp MAX_PAYLOAD < u32_at 12 buf →
  decode buf mp = (Err ProtocolError.PayloadTooLarge, buf).
Proof.
  intros Hl Hc Hmagic Hbig. unfold decode.
  destruct (Z.ltb_spec (len buf) MESSAGE_SIZE); [lia|]. unfold parse_message.
  cbn [m_command m_magic m_data_length].
  rewrite !u32_at_ztake by (unfold MESSAGE_SIZE in *; lia).
  rewrite Hc, Hmagic, Z.eqb_refl. simpl negb. cbv iota.
  by destruct (Z.ltb_spec (Z.min mp MAX_PAYLOAD) (u32_at 12 buf)); [|lia].
Qed.

Definition oversize_header : bytes :=
  u32_le CMD_WRTE ++ u32_le 1 ++ u32_le 2 ++ u32_le 4096 ++ u32_le 0
  ++ u32_le (command_magic Command.Write).

Lemma decode_oversize_witness :
  decode oversize_header 1024 = (Err ProtocolError.PayloadTooLarge, oversize_header).
Proof. apply (decode_oversize _ _ Command.Write); by vm_compute. Defined.
