(* ===== verification/Text.v ===== *)
(** * Text and slices of the Rust standard library

    What the sources use of [core::str] and [core::slice]: UTF-8
    validation, splitting, searching, and number parsing.  Strings are their
    UTF-8 bytes; every separator the sources split on is ASCII. *)

From S2P Require Import Prelude.

(** ** UTF-8 ([core::str::from_utf8]) *)

Definition in_range (lo hi : Z) (b : byte) : bool := (lo <=? u8 b) && (u8 b <=? hi).

Definition is_cont (b : byte) : bool := in_range 0x80 0xBF b.

(** Well-formed UTF-8, by the table of the Unicode standard that Rust's
    validator implements: no overlong forms, no surrogates, nothing past
    U+10FFFF. *)
Fixpoint from_utf8 (l : bytes) : bool :=
  match l with
  | [] => true
  | b0 :: l1 =>
      if u8 b0 <? 0x80 then from_utf8 l1
      else match l1 with
      | [] => false
      | b1 :: l2 =>
          if in_range 0xC2 0xDF b0 then is_cont b1 && from_utf8 l2
          else match l2 with
          | [] => false
          | b2 :: l3 =>
              if in_range 0xE0 0xEF b0 then
                (if u8 b0 =? 0xE0 then in_range 0xA0 0xBF b1
                 else if u8 b0 =? 0xED then in_range 0x80 0x9F b1
                 else is_cont b1)
                && is_cont b2 && from_utf8 l3
              else match l3 with
              | [] => false
              | b3 :: l4 =>
                  in_range 0xF0 0xF4 b0
                  && (if u8 b0 =? 0xF0 then in_range 0x90 0xBF b1
                      else if u8 b0 =? 0xF4 then in_range 0x80 0x8F b1
                      else is_cont b1)
                  && is_cont b2 && is_cont b3 && from_utf8 l4
              end
          end
      end
  end.

(** ** Splitting *)

(** [slice.split(p)] and [str.split(c)]: at least one piece, separators
    dropped. *)
Fixpoint split (p : byte → bool) (l : bytes) : list bytes :=
  match l with
  | [] => [[]]
  | b :: l =>
      if p b then [] :: split p l
      else match split p l with
           | [] => [[b]]
           | piece :: rest => (b :: piece) :: rest
           end
  end.

(** The byte predicate [|b| b == c]. *)
Definition eqb (c : byte) (b : byte) : bool := bool_decide (b = c).

(** [str.split_once(c)]. *)
Fixpoint split_once (c : byte) (l : bytes) : option (bytes * bytes) :=
  match l with
  | [] => None
  | b :: l =>
      if eqb c b then Some ([], l)
      else '(x, y) ← split_once c l; Some (b :: x, y)
  end.

(** [str.rsplit_once(c)]. *)
Fixpoint rsplit_once (c : byte) (l : bytes) : option (bytes * bytes) :=
  match l with
  | [] => None
  | b :: l =>
      match rsplit_once c l with
      | Some (x, y) => Some (b :: x, y)
      | None => if eqb c b then Some ([], l) else None
      end
  end.

(** [l.strip_prefix(p)]. *)
Fixpoint strip_prefix (p l : bytes) : option bytes :=
  match p, l with
  | [], _ => Some l
  | _, [] => None
  | a :: p, b :: l => if bool_decide (a = b) then strip_prefix p l else None
  end.

Definition starts_with (p l : bytes) : bool := bool_decide (is_Some (strip_prefix p l)).

(** [str.split_once(pat)] for a string pattern. *)
Fixpoint split_once_str (pat l : bytes) : option (bytes * bytes) :=
  match strip_prefix pat l with
  | Some rest => Some ([], rest)
  | None =>
      match l with
      | [] => None
      | b :: l => '(x, y) ← split_once_str pat l; Some (b :: x, y)
      end
  end.

(** [haystack.windows(needle.len()).position(|w| w == needle)], for a
    needle that is not empty; what follows the match is what the callers
    take. *)
Definition find_after (needle haystack : bytes) : option bytes :=
  snd <$> split_once_str needle haystack.

Definition contains (c : byte) (l : bytes) : bool := existsb (eqb c) l.

(** Pieces joined with a separator: the inverse of [split]. *)
Fixpoint join (c : byte) (ls : list bytes) : bytes :=
  match ls with
  | [] => []
  | [l] => l
  | l :: ls => l ++ c :: join c ls
  end.

(** ** Lemmas *)

Lemma eqb_true c b : eqb c b = true ↔ b = c.
Proof. unfold eqb. apply bool_decide_eq_true. Qed.

Lemma eqb_false c b : eqb c b = false ↔ b ≠ c.
Proof. unfold eqb. apply bool_decide_eq_false. Qed.

Lemma contains_true c l : contains c l = true ↔ c ∈ l.
Proof.
  unfold contains. rewrite existsb_exists. setoid_rewrite <- list_elem_of_In.
  split; [intros (x & ? & ->%eqb_true); done|]. intros. exists c. split; [done|]. by apply eqb_true.
Qed.

Lemma contains_false c l : contains c l = false ↔ c ∉ l.
Proof. rewrite <- contains_true. destruct (contains c l); naive_solver. Qed.

Lemma split_nonempty p l : split p l ≠ [].
Proof. destruct l as [|b l]; simpl; [done|]. destruct (p b); [done|]. by destruct (split p l). Qed.

Lemma split_app p l b r :
  Forall (λ x, p x = false) l → p b = true → split p (l ++ b :: r) = l :: split p r.
Proof.
  intros Hl Hb. induction Hl as [|x l Hx Hl IH]; simpl.
  - by rewrite Hb.
  - by rewrite Hx, IH.
Qed.

Lemma split_none p l : Forall (λ x, p x = false) l → split p l = [l].
Proof. induction 1 as [|x l Hx Hl IH]; simpl; [done|]. by rewrite Hx, IH. Qed.

Lemma split_join p c ls :
  p c = true → ls ≠ [] → Forall (Forall (λ x, p x = false)) ls → split p (join c ls) = ls.
Proof.
  intros Hc Hne Hls. induction Hls as [|l ls Hl Hls IH]; [done|].
  destruct ls as [|l' ls]; simpl.
  - by apply split_none.
  - rewrite split_app by done. f_equal. by apply IH.
Qed.

(** Every piece is free of separators. *)
Lemma split_pieces p l : Forall (Forall (λ x, p x = false)) (split p l).
Proof.
  induction l as [|b l IH]; simpl; [repeat constructor|].
  destruct (p b) eqn:Hb; [by constructor|].
  destruct (split p l) as [|piece rest] eqn:Hs; [by apply split_nonempty in Hs|].
  inversion IH; subst. constructor; [|done]. by constructor.
Qed.

Lemma join_split c l : join c (split (eqb c) l) = l.
Proof.
  induction l as [|b l IH]; simpl; [done|].
  pose proof (split_nonempty (eqb c) l) as Hne.
  destruct (eqb c b) eqn:Hb.
  - apply eqb_true in Hb as ->.
    destruct (split (eqb c) l) as [|q qs]; [done|]. simpl in *. by rewrite IH.
  - destruct (split (eqb c) l) as [|q [|q' qs]]; simpl in *; [done|by subst..].
Qed.

Lemma split_once_some c l x y : split_once c l = Some (x, y) ↔ l = x ++ c :: y ∧ c ∉ x.
Proof.
  revert x y. induction l as [|b l IH]; intros x y; simpl.
  - split; [done|]. intros [H _]. by destruct x.
  - destruct (eqb c b) eqn:Hb.
    + apply eqb_true in Hb as ->. split.
      * intros [= <- <-]. split; [done|]. apply not_elem_of_nil.
      * intros [H Hx]. destruct x as [|x0 x]; simplify_eq/=; [done|]. set_solver.
    + apply eqb_false in Hb. split.
      * intros ([x' y'] & [-> Hc]%IH & [= <- <-])%bind_Some. split; [done|]. set_solver.
      * intros [H Hx]. destruct x as [|x0 x]; simplify_eq/=.
        destruct (IH x y) as [_ ->]; [done|]. set_solver.
Qed.

Lemma split_once_none c l : split_once c l = None ↔ c ∉ l.
Proof.
  induction l as [|b l IH]; simpl; [set_solver|].
  destruct (eqb c b) eqn:Hb; [apply eqb_true in Hb|apply eqb_false in Hb].
  - subst. set_solver.
  - destruct (split_once c l) as [[]|]; simpl; set_solver.
Qed.

Lemma strip_prefix_some p l r : strip_prefix p l = Some r ↔ l = p ++ r.
Proof.
  revert l. induction p as [|a p IH]; intros l; simpl.
  - naive_solver.
  - destruct l as [|b l]; [naive_solver|].
    case_bool_decide; subst; [rewrite IH|]; naive_solver.
Qed.

Lemma strip_prefix_app p r : strip_prefix p (p ++ r) = Some r.
Proof. by apply strip_prefix_some. Qed.

(** ** UTF-8 and ASCII separators *)

Lemma from_utf8_ascii_split x c y :
  u8 c < 0x80 → from_utf8 (x ++ c :: y) = true → from_utf8 x = true ∧ from_utf8 y = true.
Proof.
  intros Hc. remember (length x) as n eqn:Hn. revert x Hn.
  induction n as [n IH] using lt_wf_ind. intros x Hn H.
  assert (∀ lo hi, 0x80 <= lo → in_range lo hi c = false) as Hnr.
  { intros lo hi Hlo. unfold in_range. destruct (Z.leb_spec lo (u8 c)); [lia|done]. }
  destruct x as [|b0 x1]; simpl in H |- *.
  { destruct (Z.ltb_spec (u8 c) 128); [done|lia]. }
  assert (∀ x', (length x' < n)%nat → from_utf8 (x' ++ c :: y) = true →
    from_utf8 x' = true ∧ from_utf8 y = true) as Hrec by (intros; by eapply IH).
  simpl in Hn. destruct (u8 b0 <? 128); [apply Hrec; [lia|done]|].
  destruct x1 as [|b1 x2]; simpl in H |- *.
  { exfalso. unfold is_cont in H. rewrite !Hnr in H by lia.
    repeat case_match_eqn; bool_facts; congruence. }
  destruct (in_range 194 223 b0).
  { apply andb_true_iff in H as [-> H]. simpl. apply Hrec; [simpl in *; lia|done]. }
  destruct x2 as [|b2 x3]; simpl in H |- *.
  { exfalso. unfold is_cont in H. rewrite !(Hnr 128 191) in H by lia.
    repeat case_match_eqn; bool_facts; congruence. }
  destruct (in_range 224 239 b0).
  { rewrite !andb_true_iff in H |- *. destruct H as [[-> ->] H].
    destruct (Hrec x3) as [-> ->]; [simpl in *; lia|done..]. }
  destruct x3 as [|b3 x4]; simpl in H |- *.
  { exfalso. unfold is_cont in H. rewrite (Hnr 128 191) in H by lia.
    bool_facts; congruence. }
  rewrite !andb_true_iff in H |- *. destruct H as [[[[-> ->] ->] ->] H].
  destruct (Hrec x4) as [-> ->]; [simpl in *; lia|done..].
Qed.

Lemma from_utf8_split c l :
  u8 c < 0x80 → from_utf8 l = true → Forall (λ p, from_utf8 p = true) (split (eqb c) l).
Proof.
  intros Hc H. rewrite <- (join_split c l) in H.
  induction (split (eqb c) l) as [|p ps IH]; [constructor|].
  destruct ps as [|q qs]; simpl in H; [by constructor|].
  apply from_utf8_ascii_split in H as [? ?]; [|done]. constructor; auto.
Qed.
