(* ===== verification/Banner.v ===== *)
(** * Features and banners

    [base/protocol/features.rs], [base/connection/banner.rs] and
    [base/device_banner.rs]: the feature names, the byte-wise [has_feature]
    scan the handshake negotiates with, the banner the host sends, and the
    parser of the device's banner.

    A [&str] inside the banner is modelled with its position
    ([str]), because [DeviceBanner] keeps ranges into the raw bytes and not
    the strings.  The theorems state the parse against a reference reading of
    the text ([banner_text]): which banners parse, what every accessor
    returns, and that no accessor slices out of range or cuts a character. *)

From S2P Require Import Prelude Errors Protocol Text.

(** ** Features *)

(** [Feature::wire_name]. *)
Definition wire_name (f : Feature) : bytes :=
  match f with
  | Feature.Abb => bs "abb"
  | Feature.AbbExec => bs "abb_exec"
  | Feature.Apex => bs "apex"
  | Feature.AppInfo => bs "app_info"
  | Feature.Cmd => bs "cmd"
  | Feature.DelayedAck => bs "delayed_ack"
  | Feature.DevicetrackerProtoFormat => bs "devicetracker_proto_format"
  | Feature.Devraw => bs "devraw"
  | Feature.FixedPushMkdir => bs "fixed_push_mkdir"
  | Feature.FixedPushSymlinkTimestamp => bs "fixed_push_symlink_timestamp"
  | Feature.LsV2 => bs "ls_v2"
  | Feature.OpenscreenMdns => bs "openscreen_mdns"
  | Feature.RemountShell => bs "remount_shell"
  | Feature.SendrecvV2 => bs "sendrecv_v2"
  | Feature.SendrecvV2Brotli => bs "sendrecv_v2_brotli"
  | Feature.SendrecvV2DryRunSend => bs "sendrecv_v2_dry_run_send"
  | Feature.SendrecvV2Lz4 => bs "sendrecv_v2_lz4"
  | Feature.SendrecvV2Zstd => bs "sendrecv_v2_zstd"
  | Feature.ShellV2 => bs "shell_v2"
  | Feature.StatV2 => bs "stat_v2"
  | Feature.TrackApp => bs "track_app"
  end.

Definition all_features : list Feature :=
  [Feature.Abb; Feature.AbbExec; Feature.Apex; Feature.AppInfo; Feature.Cmd;
   Feature.DelayedAck; Feature.DevicetrackerProtoFormat; Feature.Devraw;
   Feature.FixedPushMkdir; Feature.FixedPushSymlinkTimestamp; Feature.LsV2;
   Feature.OpenscreenMdns; Feature.RemountShell; Feature.SendrecvV2;
   Feature.SendrecvV2Brotli; Feature.SendrecvV2DryRunSend; Feature.SendrecvV2Lz4;
   Feature.SendrecvV2Zstd; Feature.ShellV2; Feature.StatV2; Feature.TrackApp].

(** [impl TryFrom<&str> for Feature]: the arms of the macro, in order. *)
Definition feature_try_from (text : bytes) : result ProtocolError Feature :=
  ok_or ProtocolError.UnknownFeature
    (find (λ f, bool_decide (text = wire_name f)) all_features).

Definition DEFAULT_HOST_FEATURES : list Feature :=
  [Feature.ShellV2; Feature.Cmd; Feature.Abb; Feature.AbbExec; Feature.DelayedAck;
   Feature.TrackApp; Feature.AppInfo; Feature.StatV2; Feature.LsV2; Feature.SendrecvV2].

Definition INITIAL_DELAYED_ACK_BYTES : Z := 32 * 1024 * 1024.

Definition DELAYED_ACK : bytes := bs "delayed_ack".

(** [has_feature] of [features.rs]. *)
Definition has_feature (banner feature : bytes) : bool :=
  match find_after (bs "features=") banner with
  | None => false
  | Some rest =>
      existsb (λ f, bool_decide (f = feature))
        (split (λ b, eqb ","%byte b || eqb ";"%byte b) rest)
  end.

(** ** The host's banner *)

Module HostBanner.
Inductive HostBanner : Type :=
| Features (features : list Feature)
| Raw (raw : bytes).
End HostBanner.
Abbreviation HostBanner := HostBanner.HostBanner.

(** [HostBanner::default]. *)
Definition host_banner_default : HostBanner := HostBanner.Features DEFAULT_HOST_FEATURES.

(** The loop of [to_bytes]: a comma before every name but the first. *)
Fixpoint push_names (i : Z) (features : list Feature) : bytes :=
  match features with
  | [] => []
  | f :: fs => (if 0 <? i then [","%byte] else []) ++ wire_name f ++ push_names (i + 1) fs
  end.

(** [HostBanner::to_bytes]. *)
Definition host_banner_to_bytes (b : HostBanner) : bytes :=
  match b with
  | HostBanner.Features features => bs "host::features=" ++ push_names 0 features
  | HostBanner.Raw raw => raw
  end.

(** ** The device's banner *)

Module DeviceState.
Inductive DeviceState : Type :=
| Device | Recovery | Sideload | Rescue | Bootloader | Host | Other.
End DeviceState.
Abbreviation DeviceState := DeviceState.DeviceState.

(** [DeviceState::named]. *)
Definition device_state_named (state : bytes) : DeviceState :=
  if bool_decide (state = bs "device") then DeviceState.Device
  else if bool_decide (state = bs "recovery") then DeviceState.Recovery
  else if bool_decide (state = bs "sideload") then DeviceState.Sideload
  else if bool_decide (state = bs "rescue") then DeviceState.Rescue
  else if bool_decide (state = bs "bootloader") then DeviceState.Bootloader
  else if bool_decide (state = bs "host") then DeviceState.Host
  else DeviceState.Other.

(** A [Range<usize>]. *)
Abbreviation range := (Z * Z)%type.

(** [DeviceBanner]. *)
Record DeviceBanner : Type := mkBanner {
  b_raw : bytes;
  b_state : range;
  b_serial : range;
  b_properties : list (range * range);
  b_features : list Feature;
}.

(** A [&str] with its offset in the string it was cut from. *)
Record str : Type := mkStr { s_pos : Z; s_text : bytes }.

(** [range_of]: the pointer difference is the offset. *)
Definition range_of (s : str) : range := (s_pos s, s_pos s + len (s_text s)).

Definition str_split_once (c : byte) (s : str) : option (str * str) :=
  '(x, y) ← split_once c (s_text s);
  Some (mkStr (s_pos s) x, mkStr (s_pos s + len x + 1) y).

Fixpoint with_offsets (off : Z) (pieces : list bytes) : list str :=
  match pieces with
  | [] => []
  | p :: ps => mkStr off p :: with_offsets (off + len p + 1) ps
  end.

Definition str_split (c : byte) (s : str) : list str :=
  with_offsets (s_pos s) (split (eqb c) (s_text s)).

(** The inner loop over one [features=] value. *)
Definition add_feature (features : list Feature) (f : bytes) : list Feature :=
  match feature_try_from f with
  | Ok feature =>
      if existsb (λ g, bool_decide (g = feature)) features then features
      else features ++ [feature]
  | Err _ => features
  end.

(** The loop over the parts of the payload. *)
Fixpoint parse_parts (max_properties : Z) (properties : list (range * range))
    (features : list Feature) (parts : list str) :
    result ProtocolError (list (range * range) * list Feature) :=
  match parts with
  | [] => Ok (properties, features)
  | part :: parts =>
      if bool_decide (s_text part = []) then parse_parts max_properties properties features parts
      else
        '(key, value) ← ok_or ProtocolError.InvalidBannerKeyValue (str_split_once "="%byte part);
        if bool_decide (s_text key = bs "features") then
          parse_parts max_properties properties
            (fold_left add_feature (split (eqb ","%byte) (s_text value)) features) parts
        else if len properties =? max_properties then
          Err ProtocolError.TooManyBannerProperties
        else
          parse_parts max_properties (properties ++ [(range_of key, range_of value)])
            features parts
  end.

(** [DeviceBanner::from_bytes], through [parse_inner]. *)
Definition banner_from_bytes (raw : bytes) (max_properties : Z) : result ProtocolError DeviceBanner :=
  if negb (from_utf8 raw) then Err ProtocolError.InvalidBannerUtf8
  else
    '(state, rest) ← ok_or ProtocolError.InvalidBannerPrefix
                       (str_split_once ":"%byte (mkStr 0 raw));
    '(serial, payload) ← ok_or ProtocolError.InvalidBannerPrefix
                           (str_split_once ":"%byte rest);
    '(properties, features) ← parse_parts max_properties [] [] (str_split ";"%byte payload);
    Ok (mkBanner raw (range_of state) (range_of serial) properties features).

(** [str_at]: [None] where the slice or the [expect] would panic. *)
Definition str_at (b : DeviceBanner) (r : range) : option bytes :=
  let '(i, j) := r in
  if (0 <=? i) && (i <=? j) && (j <=? len (b_raw b)) && from_utf8 (zslice i j (b_raw b))
  then Some (zslice i j (b_raw b))
  else None.

Definition state_str (b : DeviceBanner) : option bytes := str_at b (b_state b).
Definition banner_state (b : DeviceBanner) : option DeviceState := device_state_named <$> state_str b.
Definition banner_serial (b : DeviceBanner) : option bytes := str_at b (b_serial b).

(** [DeviceBanner::properties]. *)
Definition banner_properties (b : DeviceBanner) : option (list (bytes * bytes)) :=
  mapM (λ kv : range * range, k ← str_at b kv.1; v ← str_at b kv.2; Some (k, v))
    (b_properties b).

(** The [find_map] of [DeviceBanner::property]; the outer option is a
    panic. *)
Fixpoint find_property (b : DeviceBanner) (key : bytes) (kvs : list (range * range)) :
    option (option bytes) :=
  match kvs with
  | [] => Some None
  | (k, v) :: kvs =>
      k' ← str_at b k;
      if bool_decide (k' = key) then Some <$> str_at b v else find_property b key kvs
  end.

Definition banner_property (b : DeviceBanner) (key : bytes) : option (option bytes) :=
  find_property b key (b_properties b).

Definition product_name (b : DeviceBanner) := banner_property b (bs "ro.product.name").
Definition product_model (b : DeviceBanner) := banner_property b (bs "ro.product.model").
Definition product_device (b : DeviceBanner) := banner_property b (bs "ro.product.device").

(** [DeviceBanner::has_feature]. *)
Definition banner_has_feature (b : DeviceBanner) (feature : Feature) : bool :=
  existsb (λ f, bool_decide (f = feature)) (b_features b).

(** ** Feature names *)

Lemma all_features_elem f : f ∈ all_features.
Proof. destruct f; unfold all_features; set_solver. Qed.

Lemma wire_name_inj f g : wire_name f = wire_name g → f = g.
Proof. destruct f, g; vm_compute; congruence. Qed.

#[export] Instance wire_name_Inj : Inj (=) (=) wire_name := wire_name_inj.

Lemma feature_try_from_ok text f : feature_try_from text = Ok f ↔ text = wire_name f.
Proof.
  unfold feature_try_from. split.
  - destruct (find _ _) as [g|] eqn:Hf; simpl; [|done]. intros [= ->].
    apply find_some in Hf as [_ Hf]. by bool_facts.
  - intros ->. destruct (find _ _) as [g|] eqn:Hf; simpl.
    + apply find_some in Hf as [_ Hf]. bool_facts. f_equal. by apply wire_name_inj.
    + eapply find_none in Hf; [|apply list_elem_of_In, (all_features_elem f)].
      bool_facts. done.
Qed.

(** No name holds a separator of the banner's grammar. *)
Lemma wire_name_plain f :
  Forall (λ b, eqb ","%byte b || eqb ";"%byte b = false) (wire_name f).
Proof. destruct f; repeat constructor. Qed.

Lemma push_names_join i fs :
  0 <= i →
  push_names i fs = match fs with
                    | [] => []
                    | _ => (if 0 <? i then [","%byte] else []) ++ join ","%byte (wire_name <$> fs)
                    end.
Proof.
  revert i. induction fs as [|f fs IH]; intros i Hi; [done|].
  cbn [push_names]. rewrite IH by lia. destruct fs as [|g fs]; [by rewrite app_nil_r|].
  cbn [fmap list_fmap join]. f_equal. f_equal.
  destruct (Z.ltb_spec 0 (i + 1)); [done|lia].
Qed.

(** the host's banner advertises to the handshake's scan exactly the
    features it was built from: [has_feature] on the bytes of
    [HostBanner::Features(fs)] is membership in [fs]. *)
Theorem host_banner_features fs f :
  has_feature (host_banner_to_bytes (HostBanner.Features fs)) (wire_name f) = true ↔ f ∈ fs.
Proof.
  unfold has_feature. cbn [host_banner_to_bytes].
  change (find_after _ _) with (Some (push_names 0 fs)). simpl.
  rewrite push_names_join by done. destruct fs as [|g fs].
  - destruct f; vm_compute; split; intros H; (congruence || inversion H).
  - cbn [Z.ltb Z.compare app]. rewrite split_join; [|done|done|].
    + rewrite existsb_exists. setoid_rewrite <- list_elem_of_In.
      setoid_rewrite bool_decide_eq_true. setoid_rewrite list_elem_of_fmap.
      split; [intros (x & (h & -> & Hh) & Heq); by apply wire_name_inj in Heq as <-|].
      intros Hf. exists (wire_name f). eauto.
    + rewrite Forall_fmap. apply Forall_forall. intros. apply wire_name_plain.
Qed.

(** ** Positions *)

(** [s] is cut from [raw] at its position. *)
Definition cut_from (raw : bytes) (s : str) : Prop :=
  ∃ pre post, raw = pre ++ s_text s ++ post ∧ len pre = s_pos s ∧ from_utf8 (s_text s) = true.

Lemma str_at_cut raw s st se ps fs :
  cut_from raw s → str_at (mkBanner raw st se ps fs) (range_of s) = Some (s_text s).
Proof.
  intros (pre & post & -> & Hp & Hu). unfold str_at, range_of. cbn [b_raw].
  replace (zslice _ _ _) with (s_text s).
  - rewrite Hu. autorewrite with zlen. zlen_facts. case_cmp; try lia. done.
  - unfold zslice. rewrite zdrop_app_len by done. rewrite ztake_app_len; [done|lia].
Qed.

Lemma cut_from_split_once raw c s x y :
  u8 c < 0x80 → cut_from raw s → str_split_once c s = Some (x, y) →
  cut_from raw x ∧ cut_from raw y.
Proof.
  intros Hc (pre & post & -> & Hp & Hu).
  intros ([x' y'] & [Hs Hx]%split_once_some & [= <- <-])%bind_Some.
  rewrite Hs in Hu. apply from_utf8_ascii_split in Hu as [Hu1 Hu2]; [|done].
  unfold cut_from. simpl. rewrite Hs. split.
  - exists pre, (c :: y' ++ post). split; [|done]. by rewrite <- !app_assoc.
  - exists (pre ++ x' ++ [c]), post. split; [by rewrite <- !app_assoc|].
    split; [zlen|done].
Qed.

Lemma cut_from_offsets raw c pieces off pre post :
  raw = pre ++ join c pieces ++ post → len pre = off →
  Forall (λ p, from_utf8 p = true) pieces → Forall (cut_from raw) (with_offsets off pieces).
Proof.
  intros Hraw Hoff Hu. revert off pre Hraw Hoff.
  induction Hu as [|p ps Hp Hps IH]; intros off pre Hraw Hoff; [constructor|].
  cbn [with_offsets]. constructor.
  - destruct ps as [|q qs]; simpl in Hraw; [by exists pre, post|].
    exists pre, (c :: join c (q :: qs) ++ post).
    split; [|done]. simpl. by rewrite Hraw, <- !app_assoc.
  - destruct ps as [|q qs]; [constructor|].
    apply (IH _ (pre ++ p ++ [c])); [|zlen].
    rewrite Hraw. cbn [join]. by rewrite <- !app_assoc.
Qed.

Lemma cut_from_split raw c s :
  u8 c < 0x80 → cut_from raw s → Forall (cut_from raw) (str_split c s).
Proof.
  intros Hc (pre & post & Hraw & Hp & Hu). unfold str_split.
  apply (cut_from_offsets _ c _ _ pre post); [|done|by apply from_utf8_split].
  by rewrite join_split.
Qed.

Lemma with_offsets_text off pieces : s_text <$> with_offsets off pieces = pieces.
Proof. revert off. induction pieces as [|p ps IH]; intros off; simpl; [done|]. by rewrite IH. Qed.

(** ** The reference reading of a banner *)

(** The [key=value] entries of the payload; [None] when one has no [=]. *)
Definition entries_of (parts : list bytes) : option (list (bytes * bytes)) :=
  mapM (split_once "="%byte) (filter (λ p, p ≠ []) parts).

(** State, serial and entries of a banner's text. *)
Definition banner_text (raw : bytes) : option (bytes * bytes * list (bytes * bytes)) :=
  '(st, rest) ← split_once ":"%byte raw;
  '(se, payload) ← split_once ":"%byte rest;
  es ← entries_of (split (eqb ";"%byte) payload);
  Some (st, se, es).

Definition is_property (e : bytes * bytes) : Prop := e.1 ≠ bs "features".

#[export] Instance is_property_dec e : Decision (is_property e).
Proof. unfold is_property. apply _. Defined.

(** The features an entry adds. *)
Definition add_entry (fs : list Feature) (e : bytes * bytes) : list Feature :=
  if decide (is_property e) then fs
  else fold_left add_feature (split (eqb ","%byte) e.2) fs.

Lemma add_entry_property fs e : is_property e → add_entry fs e = fs.
Proof. intros. unfold add_entry. by rewrite decide_True. Qed.

Lemma add_entry_features fs k v :
  k = bs "features" → add_entry fs (k, v) = fold_left add_feature (split (eqb ","%byte) v) fs.
Proof.
  intros ->. unfold add_entry, is_property. rewrite decide_False; [done|]. simpl. naive_solver.
Qed.

#[global] Opaque add_entry.

(** A pair of ranges that reads back as an entry, in any banner over [raw]. *)
Definition reads (raw : bytes) (kv : range * range) (e : bytes * bytes) : Prop :=
  ∀ st se ps fs, str_at (mkBanner raw st se ps fs) kv.1 = Some e.1
               ∧ str_at (mkBanner raw st se ps fs) kv.2 = Some e.2.

Lemma str_split_once_text c s x y :
  str_split_once c s = Some (x, y) → split_once c (s_text s) = Some (s_text x, s_text y).
Proof. intros ([x' y'] & -> & [= <- <-])%bind_Some. done. Qed.

Lemma str_split_once_none c s : str_split_once c s = None ↔ split_once c (s_text s) = None.
Proof. unfold str_split_once. by destruct (split_once c (s_text s)) as [[]|]. Qed.

Lemma entries_of_cons p parts :
  entries_of (p :: parts) =
  if bool_decide (p = []) then entries_of parts
  else e ← split_once "="%byte p; es ← entries_of parts; Some (e :: es).
Proof.
  unfold entries_of. rewrite filter_cons. case_bool_decide; subst.
  - by rewrite decide_False by auto.
  - by rewrite decide_True by done.
Qed.

Lemma parse_parts_ok raw max ps fs parts ps' fs' :
  Forall (cut_from raw) parts → parse_parts max ps fs parts = Ok (ps', fs') →
  ∃ es qs, entries_of (s_text <$> parts) = Some es ∧ fs' = fold_left add_entry es fs ∧
    ps' = ps ++ qs ∧ Forall2 (reads raw) qs (filter is_property es).
Proof.
  intros Hcut. revert ps fs. induction Hcut as [|part parts Hp Hparts IH]; intros ps fs H.
  { simpl in H. simplify_eq. exists [], []. rewrite app_nil_r. repeat constructor. }
  cbn [parse_parts fmap list_fmap] in *. rewrite entries_of_cons.
  case_bool_decide as Hnil; [by apply IH|].
  destruct (str_split_once _ part) as [[key value]|] eqn:Hs; [|done].
  destruct (cut_from_split_once raw "="%byte part key value) as [Hk Hv]; [by vm_compute|done..|].
  apply str_split_once_text in Hs. rewrite Hs. simpl in *.
  case_bool_decide as Hf; [|destruct (len ps =? max); [done|]];
    apply IH in H as (es & qs & -> & -> & -> & HF).
  - exists ((s_text key, s_text value) :: es), qs. simpl. split; [done|].
    rewrite filter_cons_False by (unfold is_property; auto).
    by rewrite add_entry_features.
  - exists ((s_text key, s_text value) :: es), ((range_of key, range_of value) :: qs).
    simpl. split; [done|]. rewrite filter_cons_True by done.
    rewrite add_entry_property by done. split; [done|].
    split; [by rewrite <- app_assoc|]. constructor; [|done].
    intros st se ps' fs''. split; by apply str_at_cut.
Qed.

Lemma parse_parts_accepts max ps fs parts :
  len ps <= max →
  is_ok (parse_parts max ps fs parts) = true ↔
  ∃ es, entries_of (s_text <$> parts) = Some es ∧ len ps + len (filter is_property es) <= max.
Proof.
  revert ps fs. induction parts as [|part parts IH]; intros ps fs Hle.
  { simpl. split; [|done]. exists []. split; [done|]. zlen. }
  cbn [parse_parts fmap list_fmap]. rewrite entries_of_cons.
  case_bool_decide as Hnil; [by apply IH|].
  destruct (str_split_once _ part) as [[key value]|] eqn:Hs.
  2: { apply str_split_once_none in Hs. rewrite Hs. simpl. naive_solver. }
  apply str_split_once_text in Hs. rewrite Hs. simpl.
  case_bool_decide as Hf.
  - rewrite IH by done. split; intros (es & Hes & Hlen).
    + exists ((s_text key, s_text value) :: es). rewrite Hes. simpl. split; [done|].
      by rewrite filter_cons_False by (unfold is_property; auto).
    + apply bind_Some in Hes as (es' & Hes' & [= <-]). exists es'. split; [done|].
      by rewrite filter_cons_False in Hlen by (unfold is_property; auto).
  - destruct (Z.eqb_spec (len ps) max) as [Heq|Hneq]; simpl.
    + split; [done|]. intros (es & (es' & Hes' & [= <-])%bind_Some & Hlen).
      rewrite filter_cons_True in Hlen by done. zlen.
    + rewrite IH by zlen. split; intros (es & Hes & Hlen).
      * exists ((s_text key, s_text value) :: es). rewrite Hes. simpl. split; [done|].
        rewrite filter_cons_True by done. zlen.
      * apply bind_Some in Hes as (es' & Hes' & [= <-]). exists es'. split; [done|].
        rewrite filter_cons_True in Hlen by done. zlen.
Qed.

Lemma add_feature_spec fs text f :
  f ∈ add_feature fs text ↔ f ∈ fs ∨ text = wire_name f.
Proof.
  unfold add_feature. destruct (feature_try_from text) as [g|e] eqn:Hg.
  - apply feature_try_from_ok in Hg as ->.
    destruct (existsb _ fs) eqn:Hex.
    + apply existsb_exists in Hex as (h & Hh & ?). bool_facts. subst.
      apply list_elem_of_In in Hh. split; [auto|]. intros [?|?%wire_name_inj]; by subst.
    + rewrite elem_of_app, list_elem_of_singleton. split; intros [?|?]; subst; auto.
      right. by apply wire_name_inj.
  - split; [auto|]. intros [?|Hw]; [done|]. apply feature_try_from_ok in Hw. congruence.
Qed.

Lemma add_feature_NoDup fs text : NoDup fs → NoDup (add_feature fs text).
Proof.
  intros Hnd. unfold add_feature. destruct (feature_try_from text) as [g|e]; [|done].
  destruct (existsb _ fs) eqn:Hex; [done|]. apply NoDup_app. split; [done|].
  split; [|apply NoDup_singleton]. intros h Hh. rewrite list_elem_of_singleton. intros ->.
  apply not_true_iff_false in Hex. apply Hex, existsb_exists. exists g.
  split; [by apply list_elem_of_In|]. by apply bool_decide_eq_true.
Qed.

Lemma add_features_spec names fs f :
  f ∈ fold_left add_feature names fs ↔ f ∈ fs ∨ wire_name f ∈ names.
Proof.
  revert fs. induction names as [|n names IH]; intros fs; simpl; [set_solver|].
  rewrite IH, add_feature_spec, elem_of_cons. naive_solver.
Qed.

Lemma add_features_NoDup names fs : NoDup fs → NoDup (fold_left add_feature names fs).
Proof.
  revert fs. induction names as [|n names IH]; intros fs Hnd; simpl; [done|].
  by apply IH, add_feature_NoDup.
Qed.

Lemma add_entries_spec es fs f :
  f ∈ fold_left add_entry es fs ↔
  f ∈ fs ∨ ∃ v, (bs "features", v) ∈ es ∧ wire_name f ∈ split (eqb ","%byte) v.
Proof.
  revert fs. induction es as [|[k w] es IH]; intros fs; cbn [fold_left].
  { set_solver. }
  rewrite IH. setoid_rewrite elem_of_cons.
  destruct (decide (is_property (k, w))) as [Hp|Hk].
  - rewrite add_entry_property by done. unfold is_property in Hp. naive_solver.
  - assert (k = bs "features") as -> by (by apply dec_stable).
    rewrite add_entry_features by done. rewrite add_features_spec. naive_solver.
Qed.

Lemma add_entries_NoDup es fs : NoDup fs → NoDup (fold_left add_entry es fs).
Proof.
  revert fs. induction es as [|[k w] es IH]; intros fs Hnd; cbn [fold_left]; [done|].
  apply IH. destruct (decide (is_property (k, w))) as [Hp|Hk].
  - by rewrite add_entry_property.
  - rewrite add_entry_features by (by apply dec_stable). by apply add_features_NoDup.
Qed.

Section Views.
Context (raw : bytes) (st se : range) (ps : list (range * range)) (fs : list Feature).
Abbreviation b := (mkBanner raw st se ps fs).

Lemma reads_properties qs es :
  Forall2 (reads raw) qs es →
  mapM (λ kv : range * range, k ← str_at b kv.1; v ← str_at b kv.2; Some (k, v)) qs = Some es.
Proof.
  induction 1 as [|kv [k v] qs es H _ IH]; [done|]. cbn [mapM]. rewrite IH.
  destruct (H st se ps fs) as [-> ->]. done.
Qed.

Lemma reads_find qs es key :
  Forall2 (reads raw) qs es →
  find_property b key qs = Some (snd <$> find (λ e, bool_decide (e.1 = key)) es).
Proof.
  induction 1 as [|[r1 r2] [k v] qs es H _ IH]; [done|]. cbn [find_property find].
  destruct (H st se ps fs) as [H1 H2]. simpl in H1, H2. rewrite H1, H2. simpl.
  by case_bool_decide.
Qed.
End Views.

Lemma banner_from_bytes_inv raw max b :
  banner_from_bytes raw max = Ok b →
  ∃ state rest serial payload, from_utf8 raw = true ∧
    str_split_once ":"%byte (mkStr 0 raw) = Some (state, rest) ∧
    str_split_once ":"%byte rest = Some (serial, payload) ∧
    parse_parts max [] [] (str_split ";"%byte payload) = Ok (b_properties b, b_features b) ∧
    b = mkBanner raw (range_of state) (range_of serial) (b_properties b) (b_features b).
Proof.
  unfold banner_from_bytes. destruct (from_utf8 raw); [|done]. simpl.
  destruct (str_split_once _ (mkStr 0 raw)) as [[state rest]|]; [|done]. simpl.
  destruct (str_split_once _ rest) as [[serial payload]|] eqn:Hr; [|done]. simpl.
  destruct (parse_parts _ _ _ _) as [[ps fs]|] eqn:Hp; [|done]. intros [= <-].
  by exists state, rest, serial, payload.
Qed.

(** what [DeviceBanner] shows is what the banner says.  When
    [from_bytes] accepts [raw], the banner's text splits into a state, a
    serial and entries, and every accessor returns a value (no range is out
    of bounds, no range cuts a character): the state and the serial; the
    entries other than [features], in order and with repeats; for a key the
    first value with it; and the features are exactly the known ones some
    [features] entry names, each once. *)
Theorem banner_views raw max b :
  banner_from_bytes raw max = Ok b →
  ∃ st se es, banner_text raw = Some (st, se, es) ∧ b_raw b = raw ∧
    state_str b = Some st ∧ banner_serial b = Some se ∧
    banner_properties b = Some (filter is_property es) ∧
    (∀ key, banner_property b key
      = Some (snd <$> find (λ e, bool_decide (e.1 = key)) (filter is_property es))) ∧
    NoDup (b_features b) ∧
    ∀ f, banner_has_feature b f = true ↔
      ∃ v, (bs "features", v) ∈ es ∧ wire_name f ∈ split (eqb ","%byte) v.
Proof.
  intros (state & rest & serial & payload & Hu & Hs & Hr & Hp & Hb)%banner_from_bytes_inv.
  assert (cut_from raw (mkStr 0 raw)) as H0.
  { exists [], []. simpl. rewrite app_nil_r. done. }
  destruct (cut_from_split_once _ ":"%byte _ _ _ ltac:(by vm_compute) H0 Hs) as [Hc1 Hc2].
  destruct (cut_from_split_once _ ":"%byte _ _ _ ltac:(by vm_compute) Hc2 Hr) as [Hc3 Hc4].
  apply (parse_parts_ok raw) in Hp as (es & qs & Hes & Hfs & Hps & HF);
    [|apply cut_from_split; [by vm_compute|done]].
  unfold str_split in Hes. rewrite with_offsets_text in Hes. simpl in Hps.
  apply str_split_once_text in Hs, Hr. rewrite Hb. simpl in Hs.
  exists (s_text state), (s_text serial), es. rewrite Hps, Hfs.
  split; [unfold banner_text; rewrite Hs; simpl; rewrite Hr; simpl; by rewrite Hes|].
  split; [done|]. split; [by apply str_at_cut|]. split; [by apply str_at_cut|].
  split; [by apply reads_properties|]. split; [intros key; by apply reads_find|].
  split; [apply add_entries_NoDup; constructor|].
  intros f. unfold banner_has_feature. cbn [b_features]. rewrite existsb_exists.
  setoid_rewrite <- list_elem_of_In. setoid_rewrite bool_decide_eq_true.
  transitivity (f ∈ fold_left add_entry es []); [naive_solver|].
  rewrite add_entries_spec. set_solver.
Qed.

(** [from_bytes] accepts exactly the banners it documents: UTF-8, with
    the [<state>:<serial>:] prefix, every non-empty entry with an [=], and
    at most [max_properties] entries other than [features]. *)
Theorem banner_accepts raw max :
  0 <= max →
  is_ok (banner_from_bytes raw max) = true ↔
  from_utf8 raw = true ∧ ∃ st se es, banner_text raw = Some (st, se, es) ∧
    len (filter is_property es) <= max.
Proof.
  intros Hmax. unfold banner_from_bytes, banner_text.
  destruct (from_utf8 raw); [|naive_solver]. simpl.
  destruct (str_split_once _ (mkStr 0 raw)) as [[state rest]|] eqn:Hs.
  2: { apply str_split_once_none in Hs. simpl in *. rewrite Hs. simpl. naive_solver. }
  apply str_split_once_text in Hs. simpl in Hs. rewrite Hs. simpl.
  destruct (str_split_once _ rest) as [[serial payload]|] eqn:Hr.
  2: { apply str_split_once_none in Hr. simpl in *. rewrite Hr. simpl. naive_solver. }
  apply str_split_once_text in Hr. rewrite Hr. simpl.
  transitivity (is_ok (parse_parts max [] [] (str_split ";"%byte payload)) = true).
  { by destruct (parse_parts _ _ _ _) as [[]|]. }
  rewrite parse_parts_accepts by done. unfold str_split. rewrite with_offsets_text.
  split.
  - intros (es & -> & Hle). split; [done|]. exists (s_text state), (s_text serial), es.
    split; [done|]. exact Hle.
  - intros (_ & st & se & es & (es' & -> & [= <- <- <-])%bind_Some & Hle). exists es'.
    split; [done|]. exact Hle.
Qed.

(** A banner with two [features] entries and a repeated property. *)
Definition sample_banner : bytes :=
  bs "device::ro.product.name=p;features=shell_v2,cmd,what;k=v;k=w;features=cmd,abb".

Lemma banner_views_witness :
  ∃ b st se es, banner_from_bytes sample_banner 3 = Ok b ∧
    banner_text sample_banner = Some (st, se, es) ∧ state_str b = Some st ∧
    banner_properties b = Some (filter is_property es).
Proof.
  destruct (banner_from_bytes sample_banner 3) as [b|e] eqn:Hb; [|by vm_compute in Hb].
  destruct (banner_views _ _ _ Hb) as (st & se & es & ? & ? & ? & ? & ? & _).
  exists b, st, se, es. auto.
Defined.

Lemma banner_accepts_witness :
  is_ok (banner_from_bytes sample_banner 2) = false ∧
  ~ ∃ st se es, banner_text sample_banner = Some (st, se, es) ∧
    len (filter is_property es) <= 2.
Proof.
  split; [by vm_compute|]. intros H.
  assert (is_ok (banner_from_bytes sample_banner 2) = true) as Hok; [|by vm_compute in Hok].
  apply (banner_accepts sample_banner 2); [lia|]. split; [by vm_compute|exact H].
Defined.

(** the handshake's scan and the banner's parser disagree where the text
    [features=] first occurs inside another entry, and where an entry after
    the features holds a comma. *)
Lemma has_feature_scan_differs :
  let hidden := bs "device::ro.features=x;features=delayed_ack" in
  let forged := bs "device::features=cmd;x=1,delayed_ack" in
  has_feature hidden DELAYED_ACK = false ∧
  (∃ b, banner_from_bytes hidden 8 = Ok b ∧ banner_has_feature b Feature.DelayedAck = true) ∧
  has_feature forged DELAYED_ACK = true ∧
  (∃ b, banner_from_bytes forged 8 = Ok b ∧ banner_has_feature b Feature.DelayedAck = false).
Proof.
  cbv zeta. split; [by vm_compute|]. split; [by eexists; split; vm_compute|].
  split; [by vm_compute|]. by eexists; split; vm_compute.
Qed.
