(* ===== verification/Config.v ===== *)
(** * Connection limits and what the handshake negotiates

    [base/connection/config.rs] and [base/negotiated.rs].

    [built c] says that [c] comes from a preset and the [with_*] builders, the
    only way to make a [ConnectionConfig].  The derived receive limits are
    what flow control rests on: the file proves that the subtraction and the
    [as u32] in them lose nothing, and the bounds [Slot] and [FlowControl]
    use. *)

From S2P Require Import Prelude Errors Protocol Banner.

(** ** [ConnectionConfig] *)

Definition MIN_MAX_PAYLOAD : Z := 1024.
Definition DEFAULT_MAX_CHANNELS : Z := 32.
Definition MAX_CHANNELS : Z := Z.shiftl 1 16.
Definition DEFAULT_MAX_BANNER_PROPERTIES : Z := 64.

Record ConnectionConfig : Type := mkConfig {
  max_payload : Z;            (* u32 *)
  initial_ack_bytes : Z;      (* u32 *)
  max_rx_per_channel : Z;     (* usize *)
  max_channels : Z;           (* usize *)
  max_banner_properties : Z;  (* usize *)
}.

(** [ConnectionConfig::new] and [ConnectionConfig::embedded]. *)
Definition config_new : ConnectionConfig :=
  mkConfig MAX_PAYLOAD INITIAL_DELAYED_ACK_BYTES USIZE_MAX DEFAULT_MAX_CHANNELS
    DEFAULT_MAX_BANNER_PROPERTIES.

Definition config_embedded : ConnectionConfig :=
  mkConfig (8 * 1024) (32 * 1024) (64 * 1024) DEFAULT_MAX_CHANNELS
    DEFAULT_MAX_BANNER_PROPERTIES.

Definition with_max_payload (bytes : Z) (c : ConnectionConfig) : ConnectionConfig :=
  mkConfig
    (if MAX_PAYLOAD <? bytes then MAX_PAYLOAD
     else if bytes <? MIN_MAX_PAYLOAD then MIN_MAX_PAYLOAD
     else bytes)
    (initial_ack_bytes c) (max_rx_per_channel c) (max_channels c) (max_banner_properties c).

Definition with_initial_ack_bytes (bytes : Z) (c : ConnectionConfig) : ConnectionConfig :=
  mkConfig (max_payload c) bytes (max_rx_per_channel c) (max_channels c)
    (max_banner_properties c).

Definition with_max_rx_per_channel (bytes : Z) (c : ConnectionConfig) : ConnectionConfig :=
  mkConfig (max_payload c) (initial_ack_bytes c) bytes (max_channels c)
    (max_banner_properties c).

Definition with_max_channels (n : Z) (c : ConnectionConfig) : ConnectionConfig :=
  mkConfig (max_payload c) (initial_ack_bytes c) (max_rx_per_channel c)
    (if MAX_CHANNELS <? n then MAX_CHANNELS else if n =? 0 then 1 else n)
    (max_banner_properties c).

Definition with_max_banner_properties (n : Z) (c : ConnectionConfig) : ConnectionConfig :=
  mkConfig (max_payload c) (initial_ack_bytes c) (max_rx_per_channel c) (max_channels c) n.

Definition rx_cap (c : ConnectionConfig) : Z :=
  if max_rx_per_channel c <? max_payload c then max_payload c else max_rx_per_channel c.

Definition rx_ceiling (c : ConnectionConfig) : Z := rx_cap c - max_payload c + 1.

Definition rx_watermark (c : ConnectionConfig) : Z :=
  let want := if max_payload c <? initial_ack_bytes c then initial_ack_bytes c
              else max_payload c in
  let ceiling := rx_ceiling c in
  if ceiling <? want then ceiling else want.

Definition advertised_ack_bytes (c : ConnectionConfig) : Z :=
  let ceiling := rx_ceiling c in
  if ceiling <? initial_ack_bytes c then wrap_u32 ceiling else initial_ack_bytes c.

(** Configurations a caller can make. *)
Inductive built : ConnectionConfig → Prop :=
| built_new : built config_new
| built_embedded : built config_embedded
| built_max_payload c n : built c → is_u32 n → built (with_max_payload n c)
| built_initial_ack_bytes c n : built c → is_u32 n → built (with_initial_ack_bytes n c)
| built_max_rx c n : built c → 0 <= n <= USIZE_MAX → built (with_max_rx_per_channel n c)
| built_max_channels c n : built c → 0 <= n <= USIZE_MAX → built (with_max_channels n c)
| built_max_banner_properties c n :
    built c → 0 <= n <= USIZE_MAX → built (with_max_banner_properties n c).

(** ** [Negotiated] *)

Module AckMode.
Inductive AckMode : Type := Classic | Delayed.

#[global] Instance ack_mode_eq_decision : EqDecision AckMode.
Proof. solve_decision. Defined.
End AckMode.
Abbreviation AckMode := AckMode.AckMode.

Record RxPolicy : Type := mkPolicy {
  p_ack : AckMode;
  p_rx_cap : Z;
  p_watermark : Z;
}.

Record Negotiated : Type := mkNegotiated {
  n_max_payload : Z;
  n_protocol_version : Z;
  n_config : ConnectionConfig;
  n_delayed_ack : bool;
  n_device_banner : DeviceBanner;
}.

(** [Negotiated::new]. *)
Definition negotiated_new (host_banner : bytes) (cnxn : Packet) (config : ConnectionConfig) :
    result ProtocolError Negotiated :=
  let delayed_ack := has_feature host_banner DELAYED_ACK && has_feature (data cnxn) DELAYED_ACK in
  device_banner ← banner_from_bytes (data cnxn) (max_banner_properties config);
  Ok (mkNegotiated (Z.min (arg1 cnxn) MAX_PAYLOAD) (Z.min (arg0 cnxn) ADB_VERSION)
        config delayed_ack device_banner).

Definition ack_mode (n : Negotiated) : AckMode :=
  if n_delayed_ack n then AckMode.Delayed else AckMode.Classic.

Definition rx_policy (n : Negotiated) : RxPolicy :=
  mkPolicy (ack_mode n) (rx_cap (n_config n)) (rx_watermark (n_config n)).

Definition checksum (n : Negotiated) : Checksum := checksum_for_version (n_protocol_version n).

Definition advertised_credit (n : Negotiated) : option Z :=
  if n_delayed_ack n then Some (advertised_ack_bytes (n_config n)) else None.

Definition advertises (n : Negotiated) (feature : Feature) : bool :=
  banner_has_feature (n_device_banner n) feature.

Definition require_feature {E} (n : Negotiated) (feature : Feature) : result (Error E) unit :=
  if advertises n feature then Ok tt else Err (Error.MissingFeature feature).

(** ** Bounds *)

(** What the builders keep. *)
Record config_wf (c : ConnectionConfig) : Prop := {
  wf_max_payload : MIN_MAX_PAYLOAD <= max_payload c <= MAX_PAYLOAD;
  wf_initial_ack_bytes : is_u32 (initial_ack_bytes c);
  wf_max_rx : 0 <= max_rx_per_channel c <= USIZE_MAX;
  wf_max_channels : 1 <= max_channels c <= MAX_CHANNELS;
  wf_max_banner_properties : 0 <= max_banner_properties c <= USIZE_MAX;
}.

Lemma built_wf c : built c → config_wf c.
Proof.
  induction 1 as [| |c n _ [] ?|c n _ [] ?|c n _ [] ?|c n _ [] ?|c n _ [] ?].
  1-2: split; vm_compute; split; congruence.
  all: split; simpl; try done.
  - case_cmp; unfold MIN_MAX_PAYLOAD, MAX_PAYLOAD in *; lia.
  - case_cmp; [by vm_compute|lia..].
Qed.

Ltac config_facts c H :=
  let H1 := fresh in let H2 := fresh in let H3 := fresh in
  destruct H as [H1 H2 H3 _ _]; unfold is_u32, MIN_MAX_PAYLOAD, MAX_PAYLOAD, USIZE_MAX in *.

(** The policy of a well-formed configuration, as [Slot] relies on it: one
    legal packet always fits, also on top of anything below the watermark. *)
Record policy_wf (mp : Z) (p : RxPolicy) : Prop := {
  pw_payload : 1 <= mp <= p_rx_cap p;
  pw_cap : p_rx_cap p <= USIZE_MAX;
  pw_watermark : 1 <= p_watermark p <= p_rx_cap p - mp + 1;
}.

Lemma rx_policy_wf n : config_wf (n_config n) → policy_wf (max_payload (n_config n)) (rx_policy n).
Proof.
  destruct n as [? ? c ? ?]. simpl. intros H. config_facts c H.
  split; simpl; unfold rx_watermark, rx_ceiling, rx_cap; case_cmp; unfold USIZE_MAX; lia.
Qed.

(** for every configuration the builders can make, the receive limits
    are computed without underflow, overflow or truncation ([rx_ceiling] is
    in [1, usize::MAX] with a subtraction that does not go below zero, and
    [ceiling as u32] keeps the value), one legal packet always fits the cap,
    and a full packet on top of what the watermark or the advertised credit
    admits still fits. *)
Theorem config_rx_limits c :
  built c →
  MIN_MAX_PAYLOAD <= max_payload c <= MAX_PAYLOAD ∧ 1 <= max_channels c <= MAX_CHANNELS ∧
  max_payload c <= rx_cap c <= USIZE_MAX ∧
  0 <= rx_cap c - max_payload c ∧ 1 <= rx_ceiling c <= USIZE_MAX ∧
  1 <= rx_watermark c ∧ rx_watermark c - 1 + max_payload c <= rx_cap c ∧
  is_u32 (advertised_ack_bytes c) ∧
  advertised_ack_bytes c = Z.min (initial_ack_bytes c) (rx_ceiling c) ∧
  advertised_ack_bytes c - 1 + max_payload c <= rx_cap c.
Proof.
  intros H%built_wf. destruct (wf_max_channels _ H). config_facts c H.
  unfold rx_watermark, advertised_ack_bytes, rx_ceiling, rx_cap, wrap_u32.
  case_cmp; rewrite ?Z.mod_small by lia; repeat split; try lia;
    unfold MIN_MAX_PAYLOAD, MAX_PAYLOAD, USIZE_MAX, is_u32; lia.
Qed.

Lemma config_rx_limits_witness :
  let c := with_max_rx_per_channel 10000 (with_max_payload 4096 config_embedded) in
  built c ∧ rx_watermark c - 1 + max_payload c <= rx_cap c.
Proof.
  cbv zeta.
  assert (built (with_max_rx_per_channel 10000 (with_max_payload 4096 config_embedded))) as Hb.
  { apply built_max_rx; [apply built_max_payload; [apply built_embedded|]|];
    vm_compute; split; congruence. }
  split; [exact Hb|]. by destruct (config_rx_limits _ Hb) as (_ & _ & _ & _ & _ & _ & ? & _).
Defined.
