(* ===== verification/SendQueue.v ===== *)
(** * The queue of writers waiting for credit ([base/send_queue.rs])

    Writers on a split connection take a place in line.  The code keeps a
    half-open range of places and the set of places given up inside it;
    [refines] relates that to the list of waiting places, oldest first, and
    the theorem shows every operation implements the list operation it stands
    for.  Places and the counter are unbounded here; in the source they are
    64 bits wide and only grow with the writes a channel queues. *)

From stdpp Require Import gmap sorting.
From S2P Require Import Prelude.

Record SendQueue : Type := mkQueue {
  q_head : Z;
  q_tail : Z;
  q_gone : gset Z;
  q_sending : Z;
}.

Definition queue_default : SendQueue := mkQueue 0 0 ∅ 0.

Definition enqueue (q : SendQueue) : Z * SendQueue :=
  let place := q_tail q in
  (place, mkQueue (q_head q) (q_tail q + 1) (q_gone q) (q_sending q)).

Definition turn (q : SendQueue) : Z := q_head q.

Definition is_empty (q : SendQueue) : bool := q_head q =? q_tail q.

Definition is_sending (q : SendQueue) : bool := 0 <? q_sending q.

(** [while self.gone.remove(&self.head) { self.head += 1 }]: each round takes
    an element out of the set, so its size bounds the rounds. *)
Fixpoint skip_gone (fuel : nat) (h : Z) (g : gset Z) : Z * gset Z :=
  match fuel with
  | O => (h, g)
  | S fuel => if bool_decide (h ∈ g) then skip_gone fuel (h + 1) (g ∖ {[h]}) else (h, g)
  end.

Definition advance (q : SendQueue) : SendQueue :=
  let '(h, g) := skip_gone (size (q_gone q)) (q_head q + 1) (q_gone q) in
  mkQueue h (q_tail q) g (q_sending q).

Definition serve (q : SendQueue) : SendQueue :=
  advance (mkQueue (q_head q) (q_tail q) (q_gone q) (q_sending q + 1)).

(** [None] where [sending -= 1] would underflow. *)
Definition finish (q : SendQueue) : option SendQueue :=
  if q_sending q <=? 0 then None
  else Some (mkQueue (q_head q) (q_tail q) (q_gone q) (q_sending q - 1)).

(** [while self.tail > self.head && self.gone.remove(&(self.tail - 1))]. *)
Fixpoint reclaim (fuel : nat) (h t : Z) (g : gset Z) : Z * gset Z :=
  match fuel with
  | O => (t, g)
  | S fuel =>
      if (h <? t) && bool_decide (t - 1 ∈ g) then reclaim fuel h (t - 1) (g ∖ {[t - 1]})
      else (t, g)
  end.

Definition leave (q : SendQueue) (place : Z) : bool * SendQueue :=
  if place =? q_head q then (true, advance q)
  else if place + 1 =? q_tail q then
    let '(t, g) := reclaim (size (q_gone q)) (q_head q) place (q_gone q) in
    (false, mkQueue (q_head q) t g (q_sending q))
  else if q_head q <? place then
    (false, mkQueue (q_head q) (q_tail q) (q_gone q ∪ {[place]}) (q_sending q))
  else (false, q).

(** ** The list of waiting writers *)

(** A place given up lies strictly inside the range: its ends are waiting. *)
Definition queue_wf (q : SendQueue) : Prop :=
  q_head q <= q_tail q ∧ 0 <= q_sending q ∧ ∀ g, g ∈ q_gone q → q_head q < g < q_tail q - 1.

Record refines (q : SendQueue) (ws : list Z) : Prop := {
  r_wf : queue_wf q;
  r_sorted : StronglySorted Z.lt ws;
  r_elem : ∀ p, p ∈ ws ↔ q_head q <= p < q_tail q ∧ p ∉ q_gone q;
}.

(** Abstract queue: the waiting places and the writers sending. *)
Definition pop_place (p : Z) (ws : list Z) : list Z := filter (λ x, x ≠ p) ws.

Lemma skip_gone_spec fuel h g h' g' :
  (size g <= fuel)%nat → skip_gone fuel h g = (h', g') →
  h <= h' ∧ h' ∉ g' ∧ (∀ x, h <= x < h' → x ∈ g) ∧ (∀ x, x ∈ g' ↔ x ∈ g ∧ ~ (h <= x < h')).
Proof.
  revert h g. induction fuel as [|fuel IH]; intros h g Hsz; simpl.
  { intros [= <- <-]. assert (g ≡ ∅) as Hg by (apply size_empty_iff; lia).
    repeat split; try lia; set_solver. }
  case_bool_decide as Hin.
  - intros H. apply IH in H as (Hle & Hni & Hgap & Hrest).
    2: { rewrite size_difference by set_solver. rewrite size_singleton. lia. }
    split; [lia|]. split; [done|]. split.
    + intros x Hx. destruct (decide (x = h)) as [->|]; [done|].
      assert (x ∈ g ∖ {[h]}) by (apply Hgap; lia). set_solver.
    + intros x. rewrite Hrest, elem_of_difference, elem_of_singleton.
      split; [intros [[? ?] ?]; split; [done|lia]|].
      intros [? ?]. split; [split; [done|]|]; lia.
  - intros [= <- <-]. split; [lia|]. split; [done|]. split; [lia|].
    intros x. split; [intros; split; [done|lia]|tauto].
Qed.

Lemma reclaim_spec fuel h t g t' g' :
  (size g <= fuel)%nat → h < t → (∀ x, x ∈ g → h < x < t) → reclaim fuel h t g = (t', g') →
  h < t' <= t ∧ (∀ x, t' <= x < t → x ∈ g) ∧ (∀ x, x ∈ g' ↔ x ∈ g ∧ x < t') ∧ t' - 1 ∉ g'.
Proof.
  revert t g. induction fuel as [|fuel IH]; intros t g Hsz Hlt Hg; simpl.
  { intros [= <- <-]. assert (g ≡ ∅) as He by (apply size_empty_iff; lia).
    repeat split; try lia; set_solver. }
  destruct ((h <? t) && bool_decide (t - 1 ∈ g)) eqn:Hc.
  - bool_facts. assert (h < t - 1) by (by apply Hg).
    intros H'. apply IH in H' as (Hle & Hgap & Hrest & Hni).
    2: { rewrite size_difference by set_solver. rewrite size_singleton. lia. }
    2: lia.
    2: { intros x [? ?%not_elem_of_singleton]%elem_of_difference.
         specialize (Hg x ltac:(done)). lia. }
    split; [lia|]. split.
    { intros x Hx. destruct (decide (x = t - 1)) as [->|]; [done|].
      assert (x ∈ g ∖ {[t - 1]}) by (apply Hgap; lia). set_solver. }
    split; [|done]. intros x. rewrite Hrest, elem_of_difference, elem_of_singleton.
    split; [tauto|]. intros [? ?]. split; [split; [done|]|done]. intros ->. lia.
  - intros [= <- <-]. split; [lia|]. split; [lia|]. split.
    + intros x. split; [intros Hx; split; [done|]; by apply Hg|tauto].
    + apply andb_false_iff in Hc as [?|?]; bool_facts; [lia|done].
Qed.

Lemma advance_spec q :
  queue_wf q → q_head q < q_tail q →
  queue_wf (advance q) ∧ q_tail (advance q) = q_tail q ∧ q_sending (advance q) = q_sending q ∧
  ∀ p, q_head (advance q) <= p < q_tail q ∧ p ∉ q_gone (advance q) ↔
       q_head q < p < q_tail q ∧ p ∉ q_gone q.
Proof.
  intros (Hle & Hs & Hg) Hlt. unfold advance.
  destruct (skip_gone _ _ _) as [h g] eqn:E.
  apply skip_gone_spec in E as (H1 & H2 & H3 & H4); [|done].
  assert (h <= q_tail q) as Hh.
  { destruct (decide (h <= q_tail q)) as [|Hn]; [done|].
    assert (h - 1 ∈ q_gone q) as Hin by (apply H3; lia). apply Hg in Hin. lia. }
  unfold queue_wf. simpl. repeat split; try done.
  - destruct (decide (g0 = h)) as [->|]; [done|]. apply H4 in H as [? ?].
    specialize (Hg g0 ltac:(done)). lia.
  - apply H4 in H as [? ?]. specialize (Hg g0 ltac:(done)). lia.
  - lia.
  - lia.
  - intros Hin. apply H, H4. split; [done|]. lia.
  - destruct (decide (p < h)); [|lia]. destruct H as [Hp Hn]. exfalso. apply Hn, H3. lia.
  - lia.
  - intros [Hin _]%H4. tauto.
Qed.

Lemma sorted_pop p ws : StronglySorted Z.lt ws → StronglySorted Z.lt (pop_place p ws).
Proof.
  unfold pop_place. induction 1 as [|x ws Hws IH Hx]; [constructor|].
  destruct (decide (x ≠ p)); [rewrite filter_cons_True|rewrite filter_cons_False]; try done.
  constructor; [done|]. apply Forall_forall. intros y [_ Hy]%list_elem_of_filter.
  by eapply Forall_forall in Hx.
Qed.

Lemma refines_head q p ws : refines q (p :: ws) → p = q_head q ∧ q_head q < q_tail q.
Proof.
  intros [(Hle & Hs & Hg) Hsort He].
  assert (q_head q <= p < q_tail q) as Hp by (apply He; set_solver).
  split; [|lia]. assert (q_head q ∈ p :: ws) as Hin.
  { apply He. split; [lia|]. intros H. apply Hg in H. lia. }
  apply elem_of_cons in Hin as [|Hin]; [done|].
  inversion Hsort as [|? ? _ Hall]; subst. eapply Forall_forall in Hall; [|done]. lia.
Qed.

Lemma refines_nil q : refines q [] → q_head q = q_tail q.
Proof.
  intros [(Hle & Hs & Hg) _ He]. destruct (decide (q_head q = q_tail q)) as [|Hne]; [done|].
  assert (q_head q ∈ []) as Hin; [|by apply not_elem_of_nil in Hin].
  apply He. split; [lia|]. intros H. apply Hg in H. lia.
Qed.

Lemma refines_default : refines queue_default [].
Proof.
  split; [|constructor|].
  - repeat split; try done; set_solver.
  - intros p. simpl. split; [set_solver|lia].
Qed.

Lemma enqueue_refines q ws :
  refines q ws → refines (snd (enqueue q)) (ws ++ [fst (enqueue q)]).
Proof.
  intros [(Hle & Hs & Hg) Hsort He]. split; simpl.
  - repeat split; simpl; try lia; try done; apply Hg in H; lia.
  - apply StronglySorted_app_2; [|done|repeat constructor].
    intros x1 x2 Hx1%He ->%list_elem_of_singleton. lia.
  - intros p. rewrite elem_of_app, He, list_elem_of_singleton. split.
    + intros [?| ->]; [split; [lia|tauto]|]. split; [lia|]. intros H%Hg. lia.
    + intros [? ?]. destruct (decide (p = q_tail q)); [auto|left; split; [lia|done]].
Qed.

(** Dropping the head, whether it is served or leaves. *)
Lemma advance_refines q p ws : refines q (p :: ws) → refines (advance q) ws.
Proof.
  intros Hr. destruct (refines_head _ _ _ Hr) as [-> Hlt]. destruct Hr as [Hwf Hsort He].
  destruct (advance_spec q Hwf Hlt) as (Hwf' & Ht & _ & Hel).
  inversion Hsort as [|? ? Hs Hall]; subst. split; [done|done|].
  intros x. rewrite Ht, Hel. split.
  - intros Hx. assert (x ∈ q_head q :: ws) as Hx' by set_solver.
    apply He in Hx' as [??]. eapply Forall_forall in Hall; [|done]. split; [lia|done].
  - intros [? ?]. assert (x ∈ q_head q :: ws) as Hx by (apply He; split; [lia|done]).
    apply elem_of_cons in Hx as [->|]; [lia|done].
Qed.

Lemma serve_refines q p ws :
  refines q (p :: ws) → refines (serve q) ws ∧ q_sending (serve q) = q_sending q + 1.
Proof.
  intros [(Hle & Hs & Hg) Hsort He]. unfold serve.
  assert (refines (mkQueue (q_head q) (q_tail q) (q_gone q) (q_sending q + 1)) (p :: ws)) as Hr.
  { split; [|done|done]. repeat split; simpl; try lia; by apply Hg. }
  split; [by eapply advance_refines|].
  destruct (refines_head _ _ _ Hr) as [_ Hlt]. by destruct (advance_spec _ (r_wf _ _ Hr) Hlt) as (_ & _ & ? & _).
Qed.

Lemma pop_not_elem p ws : p ∉ ws → pop_place p ws = ws.
Proof.
  unfold pop_place. induction ws as [|x ws IH]; [done|]. rewrite not_elem_of_cons.
  intros [? ?]. rewrite filter_cons_True by auto. by rewrite IH.
Qed.

Lemma pop_head p ws : StronglySorted Z.lt (p :: ws) → pop_place p (p :: ws) = ws.
Proof.
  inversion 1 as [|? ? _ Hall]; subst. unfold pop_place. rewrite filter_cons_False by auto.
  apply pop_not_elem. intros Hin. eapply Forall_forall in Hall; [|done]. lia.
Qed.

Lemma leave_refines q ws p :
  refines q ws → p ∈ ws →
  refines (snd (leave q p)) (pop_place p ws) ∧
  fst (leave q p) = bool_decide (list.head ws = Some p) ∧
  q_sending (snd (leave q p)) = q_sending q.
Proof.
  intros Hr Hp. destruct ws as [|w ws]; [by apply not_elem_of_nil in Hp|].
  pose proof (refines_head _ _ _ Hr) as [-> Hlt]. pose proof Hr as [(Hle & Hs & Hg) Hsort He].
  apply He in Hp as [Hp Hng]. unfold leave. cbn [list.head].
  destruct (Z.eqb_spec p (q_head q)) as [->|Hne]; simpl.
  { split; [|split].
    - rewrite pop_head by done. by eapply advance_refines.
    - by rewrite bool_decide_true.
    - by destruct (advance_spec q (r_wf _ _ Hr) Hlt) as (_ & _ & ? & _). }
  rewrite bool_decide_false by congruence.
  destruct (Z.eqb_spec (p + 1) (q_tail q)) as [Heq|Hneq].
  - destruct (reclaim _ _ _ _) as [t g] eqn:E. simpl.
    apply reclaim_spec in E as (Ht & Hgap & Hrest & Hlast); [|done|lia|].
    2: { intros x Hx%Hg. lia. }
    split; [|done]. split.
    + unfold queue_wf. simpl. split; [lia|]. split; [done|].
      intros x Hx. destruct (decide (x = t - 1)) as [->|]; [done|].
      apply Hrest in Hx as [Hx ?]. apply Hg in Hx. lia.
    + by apply sorted_pop.
    + intros x. unfold pop_place. rewrite list_elem_of_filter, He. simpl.
      rewrite Hrest. split.
      * intros (? & ? & Hn). destruct (decide (x < t)); [split; [lia|tauto]|].
        exfalso. apply Hn, Hgap. lia.
      * intros (? & Hn). split; [lia|]. split; [lia|]. intros Hx. apply Hn. split; [done|lia].
  - destruct (Z.ltb_spec (q_head q) p); [|lia]. simpl. split; [|done]. split.
    + unfold queue_wf. simpl. split; [lia|]. split; [done|].
      intros x [Hx%Hg| ->%elem_of_singleton]%elem_of_union; lia.
    + by apply sorted_pop.
    + intros x. unfold pop_place. rewrite list_elem_of_filter, He. simpl. set_solver by lia.
Qed.

(** C18: the range-with-holes representation implements a plain queue of
    waiting writers.  From a queue that stands for the list [ws] (oldest
    first), [enqueue] appends a place no waiting writer holds; [is_empty] says
    whether [ws] is empty and [turn] is its first place; [serve] drops the
    first and counts a sender; [leave] takes a waiting place out wherever it
    stands and reports whether it was first; [finish] uncounts a sender; and
    each result stands for the list it should. *)
Theorem send_queue_simulation q ws :
  refines q ws →
  (refines (snd (enqueue q)) (ws ++ [fst (enqueue q)]) ∧ fst (enqueue q) ∉ ws) ∧
  (is_empty q = true ↔ ws = []) ∧
  (∀ p ws', ws = p :: ws' →
     turn q = p ∧ refines (serve q) ws' ∧ q_sending (serve q) = q_sending q + 1) ∧
  (∀ p, p ∈ ws →
     refines (snd (leave q p)) (pop_place p ws) ∧ q_sending (snd (leave q p)) = q_sending q ∧
     fst (leave q p) = bool_decide (list.head ws = Some p)) ∧
  (0 < q_sending q → ∃ q', finish q = Some q' ∧ refines q' ws ∧ q_sending q' = q_sending q - 1).
Proof.
  intros Hr. split; [split; [by apply enqueue_refines|]|].
  { intros Hin%(r_elem _ _ Hr). simpl in Hin. lia. }
  split.
  { unfold is_empty. destruct ws as [|p ws].
    - rewrite (refines_nil _ Hr), Z.eqb_refl. done.
    - destruct (refines_head _ _ _ Hr). destruct (Z.eqb_spec (q_head q) (q_tail q)); [lia|done]. }
  split.
  { intros p ws' ->. destruct (refines_head _ _ _ Hr) as [-> _]. split; [done|].
    by eapply serve_refines. }
  split.
  { intros p Hp. destruct (leave_refines _ _ _ Hr Hp) as (? & ? & ?). done. }
  intros Hs. unfold finish. destruct (Z.leb_spec (q_sending q) 0); [lia|].
  eexists. split; [done|]. split; [|done]. destruct Hr as [(? & ? & ?) ? ?].
  split; [|done|done]. repeat split; simpl; try lia; naive_solver.
Qed.

(** Three writers queue, the middle one leaves, the head is served. *)
Lemma send_queue_simulation_witness :
  let q := snd (enqueue (snd (enqueue (snd (enqueue queue_default))))) in
  refines q [0; 1; 2] ∧ refines (snd (leave q 1)) [0; 2] ∧ fst (leave q 1) = false ∧
  turn (serve (snd (leave q 1))) = 2.
Proof.
  cbv zeta.
  pose proof (enqueue_refines _ _ (enqueue_refines _ _ (enqueue_refines _ _ refines_default))) as Hr.
  split; [exact Hr|].
  destruct (send_queue_simulation _ _ Hr) as (_ & _ & _ & Hl & _).
  destruct (Hl 1) as (H1 & _ & _); [set_solver|]. split; [exact H1|].
  split; [by vm_compute|by vm_compute].
Defined.
