(* ===== verification/Slot.v ===== *)
(** * One channel's state ([base/slot.rs])

    [ChannelSlot] with every operation: opening and accepting, the receive
    buffer with its settle-then-take protocol, acknowledgement decisions in
    both flow-control modes, send credit and faults.  Mutating methods return
    the new slot.

    [slot_wf] is what the operations keep: the settled prefix lies inside the
    buffer, what is held unsettled stays within the cap, and with delayed
    acknowledgement an open slot owes exactly what it holds. *)

From S2P Require Import Prelude Errors Protocol Config SendQueue.

(** ** Data *)

(** [PendingAck]. *)
Record PendingAck : Type := mkAck { ack_ids : ChannelIds; ack_len_of : Z }.

Module AckDecision.
Inductive AckDecision : Type := Now (ack : PendingAck) | Hold.
End AckDecision.
Abbreviation AckDecision := AckDecision.AckDecision.

Module ChannelFault.
Inductive ChannelFault : Type := RxOverflow | Protocol (e : ProtocolError).
End ChannelFault.
Abbreviation ChannelFault := ChannelFault.ChannelFault.

(** [ChannelFault::error]. *)
Definition fault_error {E} (f : ChannelFault) : Error E :=
  match f with
  | ChannelFault.RxOverflow => Error.ChannelRxOverflow
  | ChannelFault.Protocol e => Error.Protocol e
  end.

Module ChannelState.
Inductive ChannelState : Type := Opening | Open | Closed.

#[global] Instance channel_state_eq_decision : EqDecision ChannelState.
Proof. solve_decision. Defined.
End ChannelState.
Abbreviation ChannelState := ChannelState.ChannelState.

(** [RxOverflow] of [error.rs]. *)
Inductive RxOverflow : Type := rx_overflow.

Record ChannelSlot : Type := mkSlot {
  sl_local : Z;
  sl_remote : option Z;
  sl_state : ChannelState;
  sl_policy : RxPolicy;
  sl_rx_buf : bytes;
  sl_wrte_acked : bool;
  sl_send_budget : Z;
  sl_unacked : Z;
  sl_settled : Z;
  sl_send_queue : SendQueue;
  sl_failed : option ChannelFault;
}.

(** Assignments to single fields. *)
Definition set_remote v s := mkSlot (sl_local s) v (sl_state s) (sl_policy s) (sl_rx_buf s)
  (sl_wrte_acked s) (sl_send_budget s) (sl_unacked s) (sl_settled s) (sl_send_queue s) (sl_failed s).
Definition set_state v s := mkSlot (sl_local s) (sl_remote s) v (sl_policy s) (sl_rx_buf s)
  (sl_wrte_acked s) (sl_send_budget s) (sl_unacked s) (sl_settled s) (sl_send_queue s) (sl_failed s).
Definition set_rx_buf v s := mkSlot (sl_local s) (sl_remote s) (sl_state s) (sl_policy s) v
  (sl_wrte_acked s) (sl_send_budget s) (sl_unacked s) (sl_settled s) (sl_send_queue s) (sl_failed s).
Definition set_wrte_acked v s := mkSlot (sl_local s) (sl_remote s) (sl_state s) (sl_policy s)
  (sl_rx_buf s) v (sl_send_budget s) (sl_unacked s) (sl_settled s) (sl_send_queue s) (sl_failed s).
Definition set_send_budget v s := mkSlot (sl_local s) (sl_remote s) (sl_state s) (sl_policy s)
  (sl_rx_buf s) (sl_wrte_acked s) v (sl_unacked s) (sl_settled s) (sl_send_queue s) (sl_failed s).
Definition set_unacked v s := mkSlot (sl_local s) (sl_remote s) (sl_state s) (sl_policy s)
  (sl_rx_buf s) (sl_wrte_acked s) (sl_send_budget s) v (sl_settled s) (sl_send_queue s) (sl_failed s).
Definition set_settled v s := mkSlot (sl_local s) (sl_remote s) (sl_state s) (sl_policy s)
  (sl_rx_buf s) (sl_wrte_acked s) (sl_send_budget s) (sl_unacked s) v (sl_send_queue s) (sl_failed s).
Definition set_send_queue v s := mkSlot (sl_local s) (sl_remote s) (sl_state s) (sl_policy s)
  (sl_rx_buf s) (sl_wrte_acked s) (sl_send_budget s) (sl_unacked s) (sl_settled s) v (sl_failed s).
Definition set_failed v s := mkSlot (sl_local s) (sl_remote s) (sl_state s) (sl_policy s)
  (sl_rx_buf s) (sl_wrte_acked s) (sl_send_budget s) (sl_unacked s) (sl_settled s) (sl_send_queue s) v.

Definition is_delayed (s : ChannelSlot) : bool :=
  bool_decide (p_ack (sl_policy s) = AckMode.Delayed).

(** ** Operations *)

(** [parse_ready_credit]. *)
Definition parse_ready_credit (payload : bytes) : result ProtocolError Z :=
  if 4 <=? len payload then Ok (u32_at 0 payload) else Err ProtocolError.ShortReadyPayload.

(** [ChannelSlot::opening]. *)
Definition slot_opening (local : Z) (policy : RxPolicy) : ChannelSlot :=
  mkSlot local None ChannelState.Opening policy [] true 0 0 0 queue_default None.

(** [ChannelSlot::accepted]. *)
Definition slot_accepted (ids : ChannelIds) (credit : Z) (policy : RxPolicy) : ChannelSlot :=
  let slot := set_state ChannelState.Open
                (set_remote (Some (remote ids)) (slot_opening (local ids) policy)) in
  if is_delayed slot then set_send_budget credit slot else slot.

Definition is_failed (s : ChannelSlot) : bool := bool_decide (is_Some (sl_failed s)).

(** [ChannelSlot::ids]. *)
Definition slot_ids (s : ChannelSlot) : option ChannelIds :=
  r ← sl_remote s; Some (mkIds (sl_local s) r).

Definition is_closed (s : ChannelSlot) : bool := bool_decide (sl_state s = ChannelState.Closed).

Definition closed_error {E} (s : ChannelSlot) : Error E :=
  match sl_failed s with
  | None => Error.ChannelClosed
  | Some f => fault_error f
  end.

Definition accept_open_ready (remote : Z) (payload : bytes) (s : ChannelSlot) :
    result ProtocolError ChannelSlot :=
  s ← (if is_delayed s
       then credit ← parse_ready_credit payload; Ok (set_send_budget credit s)
       else Ok s);
  Ok (set_state ChannelState.Open (set_remote (Some remote) s)).

Definition apply_ready (payload : bytes) (s : ChannelSlot) : result ProtocolError ChannelSlot :=
  match p_ack (sl_policy s) with
  | AckMode.Delayed =>
      credit ← parse_ready_credit payload; Ok (set_send_budget (sl_send_budget s + credit) s)
  | AckMode.Classic => Ok (set_wrte_acked true s)
  end.

Definition held (s : ChannelSlot) : Z := len (sl_rx_buf s) - sl_settled s.

Definition push_rx (payload : bytes) (s : ChannelSlot) : result RxOverflow ChannelSlot :=
  if p_rx_cap (sl_policy s) <? usize_saturating_add (held s) (len payload) then Err rx_overflow
  else Ok (set_rx_buf (sl_rx_buf s ++ payload) s).

(** [ChannelSlot::ack]. *)
Definition slot_ack (s : ChannelSlot) (n : Z) : option PendingAck :=
  ids ← slot_ids s; Some (mkAck ids n).

Definition apply_write (payload : bytes) (s : ChannelSlot) :
    result RxOverflow (AckDecision * ChannelSlot) :=
  s ← push_rx payload s;
  let s := set_unacked (usize_saturating_add (sl_unacked s) (len payload)) s in
  if negb (is_delayed s) && (held s <? p_watermark (sl_policy s)) then
    match slot_ack s (len payload) with
    | Some ack => Ok (AckDecision.Now ack, set_unacked 0 s)
    | None => Ok (AckDecision.Hold, s)
    end
  else Ok (AckDecision.Hold, s).

Definition deliver (taken : Z) (s : ChannelSlot) : option PendingAck * ChannelSlot :=
  if is_delayed s then
    (match slot_ack s taken with
     | Some ack => if 0 <? ack_len_of ack then Some ack else None
     | None => None
     end, s)
  else if p_watermark (sl_policy s) <=? len (sl_rx_buf s) then (None, s)
  else match slot_ack s (sl_unacked s) with
       | None => (None, s)
       | Some ack => (Some ack, set_unacked 0 s)
       end.

Definition ack_len (s : ChannelSlot) (n remaining : Z) : option Z :=
  if sl_unacked s =? 0 then None
  else match p_ack (sl_policy s) with
       | AckMode.Delayed =>
           let l := Z.min n (sl_unacked s) in if 0 <? l then Some l else None
       | AckMode.Classic =>
           if remaining <? p_watermark (sl_policy s) then Some (sl_unacked s) else None
       end.

Definition has_data (s : ChannelSlot) : bool :=
  bool_decide (is_Some (sl_remote s)) && negb (bool_decide (sl_rx_buf s = [])).

Definition settle_take (want : Z) (s : ChannelSlot) : option PendingAck * ChannelSlot :=
  match slot_ids s with
  | None => (None, s)
  | Some ids =>
      if negb (sl_settled s =? 0) then (None, s)
      else
        let n := Z.min want (len (sl_rx_buf s)) in
        match ack_len s n (len (sl_rx_buf s) - n) with
        | None => (None, s)
        | Some l => (Some (mkAck ids l), set_settled n (set_unacked (sl_unacked s - l) s))
        end
  end.

(** [ChannelSlot::take_buffered] into a buffer of [want] bytes: the bytes
    taken. *)
Definition slot_take_buffered {E} (want : Z) (s : ChannelSlot) :
    result (Error E) (option bytes) * ChannelSlot :=
  if negb (has_data s) then
    (if is_closed s then Err (closed_error s) else Ok None, s)
  else
    let ready := if sl_settled s =? 0 then len (sl_rx_buf s) else sl_settled s in
    let n := Z.min want ready in
    (Ok (Some (ztake n (sl_rx_buf s))),
     set_settled (sl_settled s - Z.min n (sl_settled s)) (set_rx_buf (zdrop n (sl_rx_buf s)) s)).

Definition apply_close (s : ChannelSlot) : ChannelSlot :=
  set_unacked 0 (set_state ChannelState.Closed s).

Definition budget (s : ChannelSlot) : option Z :=
  match p_ack (sl_policy s) with
  | AckMode.Delayed => if 0 <? sl_send_budget s then Some (sl_send_budget s) else None
  | AckMode.Classic => if sl_wrte_acked s then Some USIZE_MAX else None
  end.

Definition spend (n : Z) (s : ChannelSlot) : ChannelSlot :=
  match p_ack (sl_policy s) with
  | AckMode.Delayed => set_send_budget (sl_send_budget s - n) s
  | AckMode.Classic => set_wrte_acked false s
  end.

Definition take_acks (want : Z) (s : ChannelSlot) : bool :=
  if negb (has_data s) || (0 <? sl_settled s) then false
  else
    let n := Z.min want (len (sl_rx_buf s)) in
    bool_decide (is_Some (ack_len s n (len (sl_rx_buf s) - n))).

Definition try_reserve_send (want : Z) (s : ChannelSlot) : option Z * ChannelSlot :=
  match budget s with
  | None => (None, s)
  | Some b => let n := Z.min b want in (Some n, spend n s)
  end.

Definition refund (n : Z) (s : ChannelSlot) : ChannelSlot :=
  match p_ack (sl_policy s) with
  | AckMode.Delayed => set_send_budget (sl_send_budget s + n) s
  | AckMode.Classic => set_wrte_acked true s
  end.

(** [ChannelSlot::fail]. *)
Definition slot_fail (fault : ChannelFault) (s : ChannelSlot) : ChannelSlot :=
  set_unacked 0 (set_state ChannelState.Closed (set_failed (Some fault) s)).

(** ** The invariant *)

Record slot_wf (s : ChannelSlot) : Prop := {
  sw_settled : 0 <= sl_settled s <= len (sl_rx_buf s);
  sw_cap : held s <= p_rx_cap (sl_policy s) <= USIZE_MAX;
  sw_watermark : 1 <= p_watermark (sl_policy s) <= p_rx_cap (sl_policy s);
  sw_unacked : 0 <= sl_unacked s <= USIZE_MAX;
  sw_open : sl_state s = ChannelState.Open → is_Some (sl_remote s);
  sw_opening : sl_state s = ChannelState.Opening → sl_remote s = None;
  (** Delayed: what is owed is what is held. *)
  sw_delayed : is_delayed s = true → is_closed s = false → sl_unacked s = held s;
  (** Classic: nothing is owed only below the watermark. *)
  sw_classic : is_delayed s = false → is_closed s = false → sl_unacked s = 0 →
               held s < p_watermark (sl_policy s);
}.

Lemma usize_saturating_add_small a b :
  a + b <= USIZE_MAX → usize_saturating_add a b = a + b.
Proof. unfold usize_saturating_add. lia. Qed.

Lemma is_delayed_true s : is_delayed s = true ↔ p_ack (sl_policy s) = AckMode.Delayed.
Proof. unfold is_delayed. apply bool_decide_eq_true. Qed.

Lemma is_delayed_false s : is_delayed s = false ↔ p_ack (sl_policy s) = AckMode.Classic.
Proof.
  unfold is_delayed. rewrite bool_decide_eq_false. by destruct (p_ack (sl_policy s)).
Qed.

Lemma slot_ids_some s ids :
  slot_ids s = Some ids ↔ sl_remote s = Some (remote ids) ∧ sl_local s = local ids.
Proof.
  unfold slot_ids. destruct ids as [l r]. destruct (sl_remote s); simpl; naive_solver.
Qed.

Lemma slot_ids_none s : slot_ids s = None ↔ sl_remote s = None.
Proof. unfold slot_ids. by destruct (sl_remote s). Qed.

(** A slot under assignment: unfold the setters and reduce the fields. *)
Ltac slot_simpl :=
  unfold set_remote, set_state, set_rx_buf, set_wrte_acked, set_send_budget, set_unacked,
    set_settled, set_send_queue, set_failed, held, is_delayed, is_closed, has_data, slot_ids in *;
  cbn [sl_local sl_remote sl_state sl_policy sl_rx_buf sl_wrte_acked sl_send_budget
       sl_unacked sl_settled sl_send_queue sl_failed] in *.

Lemma slot_opening_wf local mp p : policy_wf mp p → slot_wf (slot_opening local p).
Proof.
  intros [H1 H2 H3]. unfold slot_opening.
  split; slot_simpl; intros; solve [done|zlen].
Qed.

Lemma slot_accepted_wf ids credit mp p : policy_wf mp p → slot_wf (slot_accepted ids credit p).
Proof.
  intros [H1 H2 H3]. unfold slot_accepted, slot_opening.
  destruct (is_delayed _); split; slot_simpl; intros; solve [done|zlen|eauto].
Qed.

(** *** Receiving *)

(** The buffer grown by the payload is addressable, as any allocation is. *)
Definition addressable (payload : bytes) (s : ChannelSlot) : Prop :=
  len (sl_rx_buf s) + len payload <= USIZE_MAX.

(** What [apply_write] does, on every branch. *)
Lemma apply_write_spec payload s :
  slot_wf s → addressable payload s →
  match apply_write payload s with
  | Err _ => p_rx_cap (sl_policy s) < held s + len payload
  | Ok (d, s') =>
      held s + len payload <= p_rx_cap (sl_policy s) ∧ slot_wf s' ∧
      sl_rx_buf s' = sl_rx_buf s ++ payload ∧ sl_settled s' = sl_settled s ∧
      sl_policy s' = sl_policy s ∧ sl_state s' = sl_state s ∧ sl_remote s' = sl_remote s ∧
      sl_local s' = sl_local s ∧
      match d with
      | AckDecision.Now ack =>
          is_delayed s = false ∧ held s' < p_watermark (sl_policy s) ∧ sl_unacked s' = 0 ∧
          slot_ids s = Some (ack_ids ack) ∧ ack_len_of ack = len payload
      | AckDecision.Hold =>
          is_delayed s = true ∨ sl_remote s = None ∨ p_watermark (sl_policy s) <= held s'
      end
  end.
Proof.
  intros [H1 H2 Hw H3 H4 H4' H5 H6] Ha. unfold apply_write, push_rx, addressable in *.
  pose proof (len_nonneg payload).
  destruct (Z.ltb_spec (p_rx_cap (sl_policy s)) (usize_saturating_add (held s) (len payload)))
    as [Hlt|Hle].
  { bind_simpl. unfold usize_saturating_add in *. lia. }
  assert (held s + len payload <= p_rx_cap (sl_policy s)) as Hfit.
  { revert Hle. unfold usize_saturating_add. destruct H2. unfold held in *. lia. }
  bind_simpl. cbv zeta. destruct (is_delayed s) eqn:Hd; slot_simpl; rewrite Hd; simpl.
  - specialize (H5 eq_refl). split; [done|]. split; [|by auto 9].
    split; slot_simpl; rewrite ?len_app; try done; try lia.
    + unfold usize_saturating_add, USIZE_MAX. lia.
    + intros _ Hc. specialize (H5 Hc). rewrite usize_saturating_add_small; lia.
    + congruence.
  - rewrite len_app. destruct (Z.ltb_spec (len (sl_rx_buf s) + len payload - sl_settled s)
      (p_watermark (sl_policy s))) as [Hwm|Hwm]; unfold slot_ack; slot_simpl.
    + destruct (sl_remote s) as [r|] eqn:Hr; simpl.
      * split; [done|]. split; [|rewrite len_app; by auto 9].
        split; slot_simpl; rewrite ?len_app; try done; try lia. congruence.
      * split; [done|]. split; [|by auto 9].
        split; slot_simpl; rewrite ?len_app; try done; try lia.
        -- unfold usize_saturating_add, USIZE_MAX. lia.
        -- congruence.
    + split; [done|]. split; [|rewrite len_app; by auto 9].
      split; slot_simpl; rewrite ?len_app; try done; try lia.
      * unfold usize_saturating_add, USIZE_MAX. lia.
      * congruence.
      * intros _ Hc. specialize (H6 eq_refl Hc).
        unfold usize_saturating_add, USIZE_MAX in *. lia.
Qed.

(** *** Reading *)

Lemma ack_len_spec s n remaining l :
  slot_wf s → ack_len s n remaining = Some l →
  0 < l <= sl_unacked s ∧
  (is_delayed s = true → l = Z.min n (sl_unacked s)) ∧
  (is_delayed s = false → l = sl_unacked s ∧ remaining < p_watermark (sl_policy s)).
Proof.
  intros Hwf. pose proof (sw_unacked _ Hwf). unfold ack_len.
  destruct (Z.eqb_spec (sl_unacked s) 0); [done|].
  destruct (is_delayed s) eqn:Hd.
  - apply is_delayed_true in Hd as ->. case_cmp; [|done]. intros [= <-]. repeat split; done || lia.
  - apply is_delayed_false in Hd as ->. case_cmp; [|done]. intros [= <-]. repeat split; done || lia.
Qed.

Lemma settle_take_spec want s :
  slot_wf s → 0 <= want →
  let '(o, s') := settle_take want s in
  slot_wf s' ∧ sl_rx_buf s' = sl_rx_buf s ∧ sl_policy s' = sl_policy s ∧
  sl_state s' = sl_state s ∧ sl_remote s' = sl_remote s ∧ sl_local s' = sl_local s ∧
  match o with
  | None => s' = s
  | Some ack =>
      let n := Z.min want (len (sl_rx_buf s)) in
      slot_ids s = Some (ack_ids ack) ∧ sl_settled s = 0 ∧ sl_settled s' = n ∧
      ack_len_of ack = sl_unacked s - sl_unacked s' ∧ 0 < ack_len_of ack ∧
      (is_delayed s = true → ack_len_of ack = Z.min n (sl_unacked s)) ∧
      (is_delayed s = false → sl_unacked s' = 0 ∧ held s' < p_watermark (sl_policy s))
  end.
Proof.
  intros Hwf Hwant. unfold settle_take.
  destruct (slot_ids s) as [ids|] eqn:Hids; [|done].
  destruct (Z.eqb_spec (sl_settled s) 0) as [H0|]; simpl; [|done].
  destruct (ack_len _ _ _) as [l|] eqn:Hl; [|done].
  apply ack_len_spec in Hl as (Hpos & Hdel & Hcla); [|done].
  pose proof Hwf as [H1 H2 Hw H3 H4 H4' H5 H6].
  slot_simpl. zlen_facts. split.
  { split; slot_simpl; try done; try lia.
    - intros Hd Hc. rewrite (Hdel Hd). rewrite (H5 Hd Hc) in *. lia.
    - intros Hd Hc _. destruct (Hcla Hd). lia. }
  cbn [ack_ids ack_len_of]. do 8 (split; [done|]). split; [lia|]. split; [lia|].
  split; [done|]. intros Hd. destruct (Hcla Hd). lia.
Qed.

(** Taking is safe where the bytes taken were settled, or are not owed. *)
Definition may_take (want : Z) (s : ChannelSlot) : Prop :=
  is_delayed s = true → is_closed s = false → has_data s = true →
  0 < sl_settled s ∨ want = 0.

Lemma settle_take_may_take want s :
  slot_wf s → 0 <= want → may_take want (snd (settle_take want s)).
Proof.
  intros Hwf Hwant. pose proof (settle_take_spec want s Hwf Hwant) as Hs.
  unfold settle_take in *. destruct (slot_ids s) as [ids|] eqn:Hids.
  2: { intros _ _ H. apply slot_ids_none in Hids. unfold has_data in H. simpl in H. by rewrite Hids in H. }
  destruct (Z.eqb_spec (sl_settled s) 0) as [H0|]; simpl in *.
  2: { intros _ _ _. left. pose proof (sw_settled _ Hwf). lia. }
  intros Hd Hc Hh. unfold ack_len in *. revert Hd Hc Hh.
  destruct (Z.eqb_spec (sl_unacked s) 0) as [Hz|Hz]; simpl; intros Hd Hc Hh.
  { pose proof (sw_delayed _ Hwf Hd Hc) as Hheld. unfold held, has_data in *.
    assert (sl_rx_buf s = []) as Hn by (apply len_0_nil; lia).
    rewrite Hn in Hh. by rewrite andb_false_r in Hh. }
  destruct (p_ack (sl_policy s)) eqn:Hp.
  { exfalso. apply is_delayed_true in Hd. revert Hd. destruct (_ <? _); simpl; congruence. }
  revert Hd Hc Hh. case_cmp; simpl; intros Hd Hc Hh.
  - left. lia.
  - right. pose proof (sw_delayed _ Hwf Hd Hc). pose proof (sw_unacked _ Hwf).
    unfold held in *. lia.
Qed.

Lemma slot_take_buffered_spec {E} want s :
  slot_wf s → 0 <= want → may_take want s →
  let '(r, s') := slot_take_buffered (E := E) want s in
  slot_wf s' ∧ sl_policy s' = sl_policy s ∧ sl_state s' = sl_state s ∧
  sl_remote s' = sl_remote s ∧ sl_local s' = sl_local s ∧ sl_unacked s' = sl_unacked s ∧
  (is_delayed s = true → is_closed s = false → held s' = held s) ∧ held s' <= held s ∧
  match r with
  | Ok (Some b) => has_data s = true ∧ sl_rx_buf s = b ++ sl_rx_buf s' ∧ len b <= want ∧
                   (0 < want → 0 < len b)
  | Ok None => has_data s = false ∧ is_closed s = false ∧ s' = s
  | Err e => has_data s = false ∧ is_closed s = true ∧ e = closed_error s ∧ s' = s
  end.
Proof.
  intros Hwf Hwant Hmay. unfold slot_take_buffered.
  destruct (has_data s) eqn:Hh; simpl.
  2: { destruct (is_closed s) eqn:Hc; naive_solver lia. }
  set (ready := if sl_settled s =? 0 then len (sl_rx_buf s) else sl_settled s).
  set (n := Z.min want ready). pose proof Hwf as [H1 H2 Hw H3 H4 H4' H5 H6].
  assert (0 < len (sl_rx_buf s)) as Hlen.
  { unfold has_data in Hh. bool_facts. destruct (sl_rx_buf s); [done|zlen]. }
  assert (0 <= n <= len (sl_rx_buf s) ∧ 0 < ready) as [Hn Hready].
  { unfold n, ready. destruct (Z.eqb_spec (sl_settled s) 0); lia. }
  assert (sl_settled s = 0 ∨ n <= sl_settled s) as Hset.
  { unfold n, ready. destruct (Z.eqb_spec (sl_settled s) 0); lia. }
  assert (is_delayed s = true → is_closed s = false → n <= sl_settled s) as Hd.
  { intros Hd Hc. destruct (Hmay Hd Hc Hh); unfold n, ready;
      destruct (Z.eqb_spec (sl_settled s) 0); lia. }
  clearbody ready. slot_simpl. autorewrite with zlen. split.
  { split; slot_simpl; autorewrite with zlen; try done; try lia.
    - intros Hd' Hc. specialize (H5 Hd' Hc). specialize (Hd Hd' Hc). lia.
    - intros Hd' Hc Hz. specialize (H6 Hd' Hc Hz). lia. }
  do 5 (split; [done|]). split; [intros Hd' Hc; specialize (Hd Hd' Hc); lia|].
  split; [lia|]. split; [done|]. split; [by rewrite ztake_zdrop|]. lia.
Qed.

(** *** The other operations keep the invariant *)

Lemma apply_close_wf s : slot_wf s → slot_wf (apply_close s).
Proof. intros []. unfold apply_close. split; slot_simpl; try done; unfold USIZE_MAX; lia. Qed.

Lemma slot_fail_wf f s : slot_wf s → slot_wf (slot_fail f s).
Proof. intros []. unfold slot_fail. split; slot_simpl; try done; unfold USIZE_MAX; lia. Qed.

Lemma set_send_budget_wf b s : slot_wf s → slot_wf (set_send_budget b s).
Proof. intros []. split; slot_simpl; done. Qed.

Lemma set_wrte_acked_wf b s : slot_wf s → slot_wf (set_wrte_acked b s).
Proof. intros []. split; slot_simpl; done. Qed.

Lemma spend_wf n s : slot_wf s → slot_wf (spend n s).
Proof. unfold spend. destruct (p_ack _); auto using set_send_budget_wf, set_wrte_acked_wf. Qed.

Lemma refund_wf n s : slot_wf s → slot_wf (refund n s).
Proof. unfold refund. destruct (p_ack _); auto using set_send_budget_wf, set_wrte_acked_wf. Qed.

Lemma apply_ready_wf payload s s' : slot_wf s → apply_ready payload s = Ok s' → slot_wf s'.
Proof.
  unfold apply_ready. intros Hwf. destruct (p_ack _).
  - intros [= <-]. by apply set_wrte_acked_wf.
  - destruct (parse_ready_credit payload); [|done]. intros [= <-]. by apply set_send_budget_wf.
Qed.

Lemma accept_open_ready_wf r payload s s' :
  slot_wf s → sl_state s = ChannelState.Opening →
  accept_open_ready r payload s = Ok s' → slot_wf s' ∧ sl_remote s' = Some r.
Proof.
  unfold accept_open_ready. intros Hwf Hop. destruct (is_delayed s).
  1: destruct (parse_ready_credit payload); [|done].
  all: intros [= <-]; split; [|done]; destruct Hwf; split; slot_simpl; rewrite ?Hop in *;
    eauto; try done.
Qed.

(** [deliver] on a channel whose buffer is empty, as the direct path of a
    read calls it. *)
Lemma deliver_spec taken s :
  slot_wf s → sl_rx_buf s = [] → is_Some (sl_remote s) → 0 <= taken →
  let '(o, s') := deliver taken s in
  slot_wf s' ∧ sl_rx_buf s' = [] ∧ sl_settled s' = sl_settled s ∧ sl_policy s' = sl_policy s ∧
  sl_state s' = sl_state s ∧ sl_remote s' = sl_remote s ∧ sl_local s' = sl_local s ∧
  (is_delayed s = true → s' = s ∧
     from_option ack_len_of 0 o = taken ∧ (is_Some o ↔ 0 < taken)) ∧
  (is_delayed s = false → sl_unacked s' = 0 ∧ is_Some o ∧ from_option ack_len_of 0 o = sl_unacked s).
Proof.
  intros Hwf Hrx [r Hr] Ht. unfold deliver, slot_ack, slot_ids. rewrite Hr, Hrx. bind_simpl.
  pose proof Hwf as [H1 H2 Hw H3 H4 H4' H5 H6]. rewrite Hrx in *.
  destruct (is_delayed s) eqn:Hd.
  - cbn [ack_len_of]. split; [done|]. do 6 (split; [done|]).
    split; [|done]. intros _. split; [done|].
    destruct (Z.ltb_spec 0 taken); simpl; split; try lia; split; try done; try lia.
  - rewrite (@len_nil byte). destruct (Z.leb_spec (p_watermark (sl_policy s)) 0); [lia|].
    split; [|slot_simpl; naive_solver].
    split; slot_simpl; rewrite ?Hrx; try done; try lia; [|congruence|].
    + rewrite Hrx in H2. lia.
    + rewrite (@len_nil byte) in *. lia.
Qed.
