(* ===== verification/FlowControl.v ===== *)
(** * Flow control between the device and one channel

    The receive side of [base/slot.rs] run against a device that honours the
    protocol.  A state holds the host's slot, the credit the device believes
    it has, the WRTE packets and OKAYs in flight in either direction, and the
    bytes written and read so far.  Steps: the device writes while it has
    credit (a full packet on its last byte of credit, or one packet per OKAY
    without delayed acknowledgement); the host buffers a packet
    ([apply_write]), hands it straight to a reader ([deliver]), reads
    ([settle_take] then [take_buffered]) or abandons a read between the two;
    the device receives an OKAY.

    The theorems: no packet ever overflows the receive cap, no byte is lost,
    repeated or reordered, and once everything has drained the device has its
    whole window back. *)

From S2P Require Import Prelude Errors Protocol Banner Config SendQueue Slot.

Record sys : Type := mkSys {
  slot : ChannelSlot;
  credit : Z;
  wrtes : list bytes;
  okays : list Z;
  sent : bytes;
  got : bytes;
}.

(** The credit an OKAY for [n] bytes carries ([send_okay_to] truncates to 32
    bits), as the device applies it: added with delayed acknowledgement, one
    packet without. *)
Definition apply_okay (mode : AckMode) (n credit : Z) : Z :=
  match mode with
  | AckMode.Delayed => credit + wrap_u32 n
  | AckMode.Classic => 1
  end.

Definition after_write (mode : AckMode) (n credit : Z) : Z :=
  match mode with
  | AckMode.Delayed => credit - n
  | AckMode.Classic => 0
  end.

Definition acks_of (o : option PendingAck) : list Z :=
  match o with Some ack => [ack_len_of ack] | None => [] end.

Definition acks_of_decision (d : AckDecision) : list Z :=
  match d with AckDecision.Now ack => [ack_len_of ack] | AckDecision.Hold => [] end.

Definition mode (σ : sys) : AckMode := p_ack (sl_policy (slot σ)).

(** Bytes a call of [take_buffered] handed over. *)
Definition taken {E} (r : result (Error E) (option bytes)) : bytes :=
  match r with Ok (Some b) => b | _ => [] end.

Inductive step (mp : Z) : sys → sys → Prop :=
| dev_write σ p :
    0 < credit σ → len p <= mp →
    step mp σ (mkSys (slot σ) (after_write (mode σ) (len p) (credit σ)) (wrtes σ ++ [p])
                 (okays σ) (sent σ ++ p) (got σ))
| host_buffer σ p ps d s' :
    wrtes σ = p :: ps → apply_write p (slot σ) = Ok (d, s') →
    step mp σ (mkSys s' (credit σ) ps (okays σ ++ acks_of_decision d) (sent σ) (got σ))
| host_deliver σ p ps o s' :
    wrtes σ = p :: ps → sl_rx_buf (slot σ) = [] → deliver (len p) (slot σ) = (o, s') →
    step mp σ (mkSys s' (credit σ) ps (okays σ ++ acks_of o) (sent σ) (got σ ++ p))
| host_read σ want o s' r s'' :
    0 <= want → settle_take want (slot σ) = (o, s') →
    slot_take_buffered (E := unit) want s' = (r, s'') →
    step mp σ (mkSys s'' (credit σ) (wrtes σ) (okays σ ++ acks_of o) (sent σ) (got σ ++ taken r))
| host_read_dropped σ want o s' :
    0 <= want → settle_take want (slot σ) = (o, s') →
    step mp σ (mkSys s' (credit σ) (wrtes σ) (okays σ ++ acks_of o) (sent σ) (got σ))
| dev_okay σ n ns :
    okays σ = n :: ns →
    step mp σ (mkSys (slot σ) (apply_okay (mode σ) n (credit σ)) (wrtes σ) ns (sent σ) (got σ)).

(** A channel the device has just accepted or opened: the slot is fresh, the
    device holds the advertised credit, or may send one packet. *)
Definition initial (n : Negotiated) (ids : ChannelIds) (send_credit : Z) : sys :=
  mkSys (slot_accepted ids send_credit (rx_policy n))
    (match advertised_credit n with Some c => c | None => 1 end) [] [] [] [].

Inductive reachable (n : Negotiated) : sys → Prop :=
| reach_initial ids send_credit : reachable n (initial n ids send_credit)
| reach_step σ σ' : reachable n σ → step (max_payload (n_config n)) σ σ' → reachable n σ'.

(** ** The invariant *)

Definition zsum (l : list Z) : Z := foldr Z.add 0 l.

Lemma zsum_app l1 l2 : zsum (l1 ++ l2) = zsum l1 + zsum l2.
Proof. induction l1 as [|x l1 IH]; simpl; [done|]. unfold zsum in *. simpl. lia. Qed.

Lemma zsum_nonneg l : Forall (λ n, 0 <= n) l → 0 <= zsum l.
Proof. induction 1; simpl; unfold zsum in *; simpl; lia. Qed.

(** Bytes in flight towards the host. *)
Definition in_flight (σ : sys) : Z := len (concat (wrtes σ)).

(** One packet is owed an OKAY. *)
Definition owed (s : ChannelSlot) : Z := if sl_unacked s =? 0 then 0 else 1.

Section Window.
Context (mp A : Z) (pol : RxPolicy).

(** The most a channel can hold: a full packet on top of what is let in. *)
Definition limit : Z :=
  match p_ack pol with
  | AckMode.Delayed => A - 1 + mp
  | AckMode.Classic => p_watermark pol - 1 + mp
  end.

(** Delayed acknowledgement: credit is conserved. *)
Definition delayed_inv (σ : sys) : Prop :=
  Forall (λ n, 0 <= n <= limit) (okays σ) ∧
  let total := credit σ + in_flight σ + held (slot σ) + zsum (okays σ) in
  total <= A ∧ (limit < 2 ^ 32 → total = A).

(** One packet at a time: a single token is in the device's hands, in a
    packet, owed by the host, or in an OKAY. *)
Definition classic_inv (σ : sys) : Prop :=
  0 <= credit σ ∧ credit σ + len (wrtes σ) + owed (slot σ) + len (okays σ) = 1 ∧
  (sl_unacked (slot σ) = 0 ↔ held (slot σ) < p_watermark pol).

Record inv (σ : sys) : Prop := {
  i_wf : slot_wf (slot σ);
  i_open : sl_state (slot σ) = ChannelState.Open;
  i_pol : sl_policy (slot σ) = pol;
  i_stream : sent σ = got σ ++ sl_rx_buf (slot σ) ++ concat (wrtes σ);
  i_packets : Forall (λ p, len p <= mp) (wrtes σ);
  i_settled : sl_settled (slot σ) <= limit;
  i_fits : held (slot σ) + in_flight σ <= limit;
  i_mode : match p_ack pol with
           | AckMode.Delayed => delayed_inv σ
           | AckMode.Classic => classic_inv σ
           end;
}.

Context (Hpol : policy_wf mp pol) (HA : 0 <= A) (Hcap : A - 1 + mp <= p_rx_cap pol)
        (Hsmall : 2 * limit <= USIZE_MAX).

Lemma limit_cap : 0 <= limit <= p_rx_cap pol.
Proof. destruct Hpol. unfold limit. destruct (p_ack pol); lia. Qed.

Lemma inv_remote σ : inv σ → is_Some (sl_remote (slot σ)).
Proof. intros H. apply (sw_open _ (i_wf _ H)), (i_open _ H). Qed.

Lemma inv_closed σ : inv σ → is_closed (slot σ) = false.
Proof. intros H. unfold is_closed. by rewrite (i_open _ H). Qed.

Lemma inv_dev_write σ p :
  inv σ → 0 < credit σ → len p <= mp →
  inv (mkSys (slot σ) (after_write (mode σ) (len p) (credit σ)) (wrtes σ ++ [p])
        (okays σ) (sent σ ++ p) (got σ)).
Proof.
  intros H Hc Hp. pose proof (i_mode _ H) as Hm. unfold mode. rewrite (i_pol _ H).
  assert (in_flight (mkSys (slot σ) (after_write (p_ack pol) (len p) (credit σ)) (wrtes σ ++ [p])
    (okays σ) (sent σ ++ p) (got σ)) = in_flight σ + len p) as Hfl.
  { unfold in_flight. simpl. rewrite concat_app, len_app. simpl. by rewrite app_nil_r. }
  destruct H as [H1 H2 H3 H4 H5 H6 H7 _]. split; simpl; try done.
  - rewrite H4, concat_app. simpl. by rewrite app_nil_r, <- !app_assoc.
  - apply Forall_app. auto.
  - rewrite Hfl. unfold limit. destruct (p_ack pol).
    + destruct Hm as (Hc0 & Htok & Hiff).
      assert (len (wrtes σ) = 0 ∧ owed (slot σ) = 0) as [Hw Ho].
      { unfold owed in *. destruct (_ =? _); zlen. }
      apply len_0_nil in Hw. unfold in_flight. rewrite Hw. simpl. rewrite (@len_nil byte).
      unfold owed in Ho. destruct (Z.eqb_spec (sl_unacked (slot σ)) 0) as [Hu|]; [|lia].
      apply Hiff in Hu. lia.
    + destruct Hm as (Hok & Hle & _).
      assert (0 <= zsum (okays σ)).
      { apply zsum_nonneg. eapply Forall_impl; [done|]. simpl. lia. }
      lia.
  - destruct (p_ack pol).
    + destruct Hm as (Hc0 & Htok & Hiff). unfold classic_inv. simpl. split; [lia|].
      split; [|done]. unfold owed in *. destruct (_ =? _); zlen.
    + destruct Hm as (Hok & Hle & Heq). unfold delayed_inv. rewrite Hfl. simpl.
      split; [done|]. lia.
Qed.

(** A buffered packet always fits. *)
Lemma inv_fits σ p ps :
  inv σ → wrtes σ = p :: ps →
  addressable p (slot σ) ∧ held (slot σ) + len p <= p_rx_cap pol ∧
  in_flight σ = len p + len (concat ps).
Proof.
  intros H Hw. destruct H as [H1 H2 H3 H4 H5 H6 H7 _]. pose proof limit_cap.
  unfold in_flight, addressable, held in *. rewrite Hw in *. simpl in *. rewrite len_app in *.
  pose proof (sw_settled _ H1). pose proof (len_nonneg (concat ps)). lia.
Qed.

Lemma inv_host_buffer σ p ps d s' :
  inv σ → wrtes σ = p :: ps → apply_write p (slot σ) = Ok (d, s') →
  inv (mkSys s' (credit σ) ps (okays σ ++ acks_of_decision d) (sent σ) (got σ)).
Proof.
  intros H Hw Ha. destruct (inv_fits _ _ _ H Hw) as (Hadr & _ & Hfl).
  pose proof (inv_remote _ H) as [r Hr]. pose proof (i_mode _ H) as Hm.
  pose proof (apply_write_spec p _ (i_wf _ H) Hadr) as Hs. rewrite Ha in Hs.
  destruct Hs as (Hle & Hwf & Hrx & Hset & Hpo & Hst & Hre & _ & Hd).
  destruct H as [H1 H2 H3 H4 H5 H6 H7 _].
  assert (held s' = held (slot σ) + len p) as Hheld.
  { unfold held. rewrite Hrx, Hset, len_app. lia. }
  pose proof (len_nonneg p). split; simpl; try congruence.
  - rewrite H4, Hw, Hrx. simpl. by rewrite <- !app_assoc.
  - rewrite Hw in H5. by inversion H5.
  - unfold in_flight in *. simpl. lia.
  - rewrite H3 in *. destruct (p_ack pol) eqn:Hp.
    + assert (is_delayed (slot σ) = false) as Hcl by (apply is_delayed_false; congruence).
      destruct Hm as (Hc0 & Htok & Hiff). rewrite Hw, len_cons in Htok.
      unfold classic_inv, owed in *. simpl. rewrite len_app.
      destruct (Z.eqb_spec (sl_unacked (slot σ)) 0) as [Hu|Hu]; [|zlen].
      destruct d as [ack|]; simpl.
      * destruct Hd as (_ & Hlt & -> & _). rewrite Z.eqb_refl. repeat split; try lia; zlen.
      * destruct Hd as [?|[?|Hge]]; [congruence..|].
        assert (sl_unacked s' ≠ 0) as Hne.
        { intros Hz. pose proof (sw_classic _ Hwf) as Hc. unfold is_delayed, is_closed in Hc.
          rewrite Hpo, Hst, H2, Hp in Hc. simpl in Hc. specialize (Hc eq_refl eq_refl Hz). lia. }
        rewrite (proj2 (Z.eqb_neq _ _) Hne). repeat split; try done; try lia. zlen.
    + assert (is_delayed (slot σ) = true) as Hcl by (apply is_delayed_true; congruence).
      destruct d as [ack|]; [destruct Hd; congruence|].
      destruct Hm as (Hok & Htot & Heq). unfold delayed_inv, in_flight in *. simpl.
      rewrite app_nil_r. split; [done|]. lia.
Qed.

Lemma inv_host_deliver σ p ps o s' :
  inv σ → wrtes σ = p :: ps → sl_rx_buf (slot σ) = [] → deliver (len p) (slot σ) = (o, s') →
  inv (mkSys s' (credit σ) ps (okays σ ++ acks_of o) (sent σ) (got σ ++ p)).
Proof.
  intros H Hw Hrx Hdel. destruct (inv_fits _ _ _ H Hw) as (_ & _ & Hfl).
  pose proof (inv_remote _ H) as Hr. pose proof (i_mode _ H) as Hm. pose proof limit_cap.
  pose proof (deliver_spec (len p) _ (i_wf _ H) Hrx Hr (len_nonneg p)) as Hs. rewrite Hdel in Hs.
  destruct Hs as (Hwf & Hrx' & Hset & Hpo & Hst & _ & _ & Hd & Hc).
  destruct H as [H1 H2 H3 H4 H5 H6 H7 _].
  assert (held (slot σ) = 0 ∧ held s' = 0) as [Hh Hh'].
  { pose proof (sw_settled _ H1) as Hs. unfold held. rewrite Hset, Hrx', Hrx in *.
    rewrite (@len_nil byte) in *. lia. }
  pose proof (len_nonneg (concat ps)). pose proof (len_nonneg p).
  split; simpl; try congruence.
  - rewrite H4, Hw, Hrx, Hrx'. simpl. by rewrite <- app_assoc.
  - rewrite Hw in H5. by inversion H5.
  - unfold in_flight in *. simpl. lia.
  - destruct (p_ack pol) eqn:Hp.
    + destruct (Hc ltac:(apply is_delayed_false; congruence)) as (Hz & [ack ->] & _).
      destruct Hm as (Hc0 & Htok & Hiff). rewrite Hw, len_cons in Htok.
      unfold classic_inv, owed in *. simpl. rewrite Hz, len_app. simpl.
      destruct Hpol. destruct (_ =? 0); repeat split; try lia; zlen.
    + destruct (Hd ltac:(apply is_delayed_true; congruence)) as (-> & Hlen & Hsome).
      destruct Hm as (Hok & Htot & Heq). unfold delayed_inv, in_flight in *. simpl.
      rewrite zsum_app. destruct o as [ack|]; simpl in *.
      * split; [apply Forall_app; split; [done|]; repeat constructor; lia|]. lia.
      * rewrite app_nil_r. split; [done|]. lia.
Qed.

(** Settling moves bytes from held to acknowledged. *)
Lemma inv_settle σ want o s' :
  inv σ → 0 <= want → settle_take want (slot σ) = (o, s') →
  inv (mkSys s' (credit σ) (wrtes σ) (okays σ ++ acks_of o) (sent σ) (got σ)).
Proof.
  intros H Hwant Hsettle. pose proof (i_mode _ H) as Hm. pose proof (inv_closed _ H) as Hcl.
  pose proof (settle_take_spec want _ (i_wf _ H) Hwant) as Hs. rewrite Hsettle in Hs.
  destruct Hs as (Hwf & Hrx & Hpo & Hst & _ & _ & Ho).
  destruct o as [ack|]; simpl.
  2: { subst s'. rewrite app_nil_r. by destruct H. }
  destruct Ho as (_ & Hs0 & Hset & Hack & Hpos & Hd & Hc).
  destruct H as [H1 H2 H3 H4 H5 H6 H7 _].
  assert (held s' = held (slot σ) - sl_settled s') as Hheld.
  { unfold held. rewrite Hrx, Hs0. lia. }
  pose proof (sw_settled _ Hwf). pose proof (len_nonneg (concat (wrtes σ))).
  split; simpl; try congruence.
  - unfold in_flight, held in *. rewrite Hset. lia.
  - unfold in_flight in *. simpl. lia.
  - destruct (p_ack pol) eqn:Hp.
    + destruct (Hc ltac:(apply is_delayed_false; congruence)) as (Hz & Hlt).
      destruct Hm as (Hc0 & Htok & Hiff). unfold classic_inv, owed in *. simpl.
      rewrite Hz, len_app in *. simpl. rewrite H3 in *.
      destruct (Z.eqb_spec (sl_unacked (slot σ)) 0); [lia|].
      repeat split; try lia. zlen.
    + assert (is_delayed (slot σ) = true) as Hdel by (apply is_delayed_true; congruence).
      pose proof (sw_delayed _ H1 Hdel Hcl) as Hun. specialize (Hd Hdel).
      assert (ack_len_of ack = sl_settled s').
      { rewrite Hd, Hset, Hun. unfold held. lia. }
      destruct Hm as (Hok & Htot & Heq). unfold delayed_inv, in_flight in *. simpl.
      rewrite zsum_app. simpl. split; [apply Forall_app; split; [done|]|lia].
      repeat constructor; [lia|]. unfold held in *. lia.
Qed.

(** Without delayed acknowledgement a read that owes an OKAY and settles
    nothing leaves at least the watermark behind. *)
Definition keeps_owed (want : Z) (s : ChannelSlot) : Prop :=
  is_delayed s = false → sl_unacked s ≠ 0 → sl_settled s = 0 →
  p_watermark (sl_policy s) <= len (sl_rx_buf s) - Z.min want (len (sl_rx_buf s)).

Lemma settle_keeps_owed want s :
  slot_wf s → 0 <= want → is_Some (sl_remote s) → keeps_owed want (snd (settle_take want s)).
Proof.
  intros Hwf Hwant [r Hr]. pose proof (settle_take_spec want s Hwf Hwant) as Hs.
  destruct (settle_take want s) as [o s'] eqn:E. cbn [snd].
  destruct Hs as (_ & _ & Hpo & _ & _ & _ & Ho). intros Hd Hu Hz.
  destruct o as [ack|].
  { destruct Ho as (_ & _ & _ & _ & _ & _ & Hc). unfold is_delayed in *. rewrite Hpo in Hd.
    by destruct (Hc Hd). }
  subst s'. unfold settle_take, slot_ids in E. rewrite Hr in E. simpl in E. rewrite Hz in E.
  simpl in E. unfold ack_len in E. apply is_delayed_false in Hd.
  rewrite (proj2 (Z.eqb_neq _ _) Hu), Hd in E.
  destruct (Z.ltb_spec (len (sl_rx_buf s) - Z.min want (len (sl_rx_buf s)))
    (p_watermark (sl_policy s))); [done|lia].
Qed.

Lemma inv_take σ want r s' :
  inv σ → 0 <= want → may_take want (slot σ) → keeps_owed want (slot σ) →
  slot_take_buffered (E := unit) want (slot σ) = (r, s') →
  inv (mkSys s' (credit σ) (wrtes σ) (okays σ) (sent σ) (got σ ++ taken r)).
Proof.
  intros H Hwant Hmay Hkeep Htake. pose proof (i_mode _ H) as Hm. pose proof (inv_closed _ H) as Hcl.
  pose proof (slot_take_buffered_spec (E := unit) want _ (i_wf _ H) Hwant Hmay) as Hs.
  rewrite Htake in Hs. destruct Hs as (Hwf & Hpo & Hst & _ & _ & Hun & Hd & Hle & Hr).
  destruct r as [[b|]|e]; [|destruct Hr as (_ & _ & ->); rewrite app_nil_r; by destruct H|].
  2: { destruct Hr as (_ & Hc & _). congruence. }
  destruct Hr as (Hhas & Hrx & _). destruct H as [H1 H2 H3 H4 H5 H6 H7 _].
  split; simpl; try congruence.
  - rewrite H4, Hrx. by rewrite <- !app_assoc.
  - unfold slot_take_buffered in Htake. rewrite Hhas in Htake. simpl in Htake.
    injection Htake as _ <-. pose proof (sw_settled _ H1). slot_simpl.
    destruct (Z.eqb_spec (sl_settled (slot σ)) 0); lia.
  - unfold in_flight in *. simpl. lia.
  - destruct (p_ack pol) eqn:Hp.
    + destruct Hm as (Hc0 & Htok & Hiff). unfold classic_inv, owed in *. simpl.
      rewrite Hun. split; [done|]. split; [done|]. split; [intros Hz%Hiff; lia|].
      intros Hlt. destruct (decide (sl_unacked (slot σ) = 0)) as [|Hne]; [done|].
      assert (is_delayed (slot σ) = false) as Hcla by (apply is_delayed_false; congruence).
      specialize (Hkeep Hcla Hne). rewrite H3 in Hkeep.
      unfold slot_take_buffered in Htake. rewrite Hhas in Htake. simpl in Htake.
      injection Htake as _ <-. pose proof (sw_settled _ H1). revert Hlt. slot_simpl.
      rewrite len_zdrop. destruct (Z.eqb_spec (sl_settled (slot σ)) 0) as [Hz|Hz].
      * specialize (Hkeep Hz). lia.
      * rewrite Hiff in Hne. lia.
    + rewrite <- (Hd ltac:(apply is_delayed_true; congruence) Hcl) in *.
      destruct Hm as (Hok & Htot & Heq). unfold delayed_inv, in_flight in *. simpl.
      rewrite (Hd ltac:(apply is_delayed_true; congruence) Hcl). done.
Qed.

Lemma inv_okay σ n ns :
  inv σ → okays σ = n :: ns →
  inv (mkSys (slot σ) (apply_okay (mode σ) n (credit σ)) (wrtes σ) ns (sent σ) (got σ)).
Proof.
  intros H Hok. pose proof (i_mode _ H) as Hm. unfold mode. rewrite (i_pol _ H).
  destruct H as [H1 H2 H3 H4 H5 H6 H7 _]. split; simpl; try done.
  destruct (p_ack pol).
  - destruct Hm as (Hc0 & Htok & Hiff). rewrite Hok, len_cons in Htok.
    unfold classic_inv, owed in *. simpl. split; [lia|]. split; [|done].
    destruct (_ =? 0); zlen.
  - destruct Hm as (Hoks & Htot & Heq). unfold delayed_inv, in_flight in *. simpl in *.
    rewrite Hok in *. inversion Hoks as [|? ? Hn Hns]; subst. simpl in *.
    split; [done|]. unfold wrap_u32. split.
    + pose proof (Z.mod_le n (2 ^ 32) ltac:(lia) ltac:(lia)). lia.
    + intros Hl. rewrite Z.mod_small by lia. lia.
Qed.

Lemma inv_step σ σ' : inv σ → step mp σ σ' → inv σ'.
Proof.
  intros H Hstep. destruct Hstep.
  - by apply inv_dev_write.
  - by eapply inv_host_buffer.
  - by eapply inv_host_deliver.
  - pose proof (inv_settle _ _ _ _ H H0 H1) as H'.
    pose proof (settle_take_may_take want _ (i_wf _ H) H0) as Hmay.
    pose proof (settle_keeps_owed want _ (i_wf _ H) H0 (inv_remote _ H)) as Hkeep.
    rewrite H1 in Hmay, Hkeep. simpl in Hmay, Hkeep.
    exact (inv_take _ want r s'' H' H0 Hmay Hkeep H2).
  - by eapply inv_settle.
  - by apply inv_okay.
Qed.
End Window.


(** ** Reachable states *)

Section Reachable.
Context (n : Negotiated) (Hbuilt : built (n_config n)).

Abbreviation mp := (max_payload (n_config n)).
Abbreviation A := (advertised_ack_bytes (n_config n)).

Lemma advertised_bounds :
  0 <= A < 2 ^ 32 ∧ A - 1 + mp <= rx_cap (n_config n) ∧ 1 <= mp <= MAX_PAYLOAD ∧
  rx_watermark (n_config n) <= 2 ^ 32.
Proof.
  pose proof (built_wf _ Hbuilt) as H. config_facts (n_config n) H.
  unfold advertised_ack_bytes, rx_watermark, rx_ceiling, rx_cap, wrap_u32, MAX_PAYLOAD.
  case_cmp_all; rewrite ?Z.mod_small by lia; repeat split; lia.
Qed.

Lemma limit_small : 2 * limit mp A (rx_policy n) <= USIZE_MAX.
Proof.
  pose proof advertised_bounds as (? & ? & ? & ?). unfold limit, USIZE_MAX, MAX_PAYLOAD in *.
  destruct (p_ack _); simpl; lia.
Qed.

Lemma rx_policy_built : policy_wf mp (rx_policy n).
Proof. by apply rx_policy_wf, built_wf. Qed.

Lemma initial_inv ids c : inv mp A (rx_policy n) (initial n ids c).
Proof.
  pose proof rx_policy_built as Hp. pose proof advertised_bounds as (? & ? & ? & ?).
  assert (0 <= limit mp A (rx_policy n)) as Hl.
  { destruct Hp. unfold limit. destruct (p_ack _); lia. }
  pose proof (slot_accepted_wf ids c _ _ Hp) as Hwf.
  unfold initial, slot_accepted, slot_opening in *.
  assert (p_ack (rx_policy n) = if n_delayed_ack n then AckMode.Delayed else AckMode.Classic)
    as Hack by done.
  unfold advertised_credit. destruct Hp as [_ _ Hw].
  destruct (n_delayed_ack n); slot_simpl; rewrite Hack in *; simpl in *;
    (split; [done|..]; unfold held, in_flight; simpl; try done; rewrite Hack).
  - unfold delayed_inv, in_flight, held. simpl. rewrite (@len_nil byte). split; [done|]. lia.
  - unfold classic_inv, owed, held. simpl. rewrite (@len_nil byte). repeat split; lia || zlen.
Qed.

Lemma reachable_inv σ : reachable n σ → inv mp A (rx_policy n) σ.
Proof.
  induction 1 as [ids c|σ σ' _ IH Hs]; [apply initial_inv|].
  pose proof advertised_bounds as (? & ? & _).
  apply (inv_step mp A (rx_policy n)) with σ; [apply rx_policy_built|lia|done|apply limit_small|done..].
Qed.
End Reachable.

(** C2: a device that honours flow control never overflows a channel.
    Whatever the interleaving of writes, buffering, direct deliveries, reads,
    abandoned reads and acknowledgements, in either mode and for every
    configuration the builders make, the packet that arrives next is
    accepted by [apply_write] (so [ChannelRxOverflow] never comes up), and
    the unread bytes stay within the cap. *)
Theorem flow_control_no_overflow n σ p ps :
  built (n_config n) → reachable n σ → wrtes σ = p :: ps →
  (∃ d s', apply_write p (slot σ) = Ok (d, s')) ∧
  held (slot σ) + len p <= rx_cap (n_config n).
Proof.
  intros Hb Hr%reachable_inv Hw; [|done]. pose proof (advertised_bounds n Hb) as (? & ? & _).
  destruct (inv_fits _ (advertised_ack_bytes (n_config n)) _ (rx_policy_built n Hb)
    ltac:(lia) ltac:(done) (limit_small n Hb) _ _ _ Hr Hw) as (Ha & Hfit & _).
  split; [|exact Hfit]. pose proof (apply_write_spec p _ (i_wf _ _ _ _ Hr) Ha) as Hs.
  destruct (apply_write p (slot σ)) as [[d s']|e]; [eauto|].
  rewrite (i_pol _ _ _ _ Hr) in Hs. simpl in *. lia.
Qed.

(** a channel delivers the device's byte stream: what was read, then what
    is buffered, then what is in flight is exactly what the device wrote, in
    order, with nothing lost or repeated; abandoned reads included. *)
Theorem flow_control_stream n σ :
  built (n_config n) → reachable n σ →
  sent σ = got σ ++ sl_rx_buf (slot σ) ++ concat (wrtes σ).
Proof. intros Hb Hr%reachable_inv; [|done]. exact (i_stream _ _ _ _ Hr). Qed.

(** flow control does not stall.  Once no packet and no OKAY is in flight
    and everything received has been read, the device has its whole window
    back: the advertised credit with delayed acknowledgement (for windows an
    OKAY's 32 bits can name), and otherwise the right to send its next
    packet. *)
Theorem flow_control_window_reopens n σ :
  built (n_config n) → reachable n σ →
  wrtes σ = [] → okays σ = [] → sl_rx_buf (slot σ) = [] →
  if n_delayed_ack n
  then advertised_ack_bytes (n_config n) - 1 + max_payload (n_config n) < 2 ^ 32 →
       credit σ = advertised_ack_bytes (n_config n)
  else credit σ = 1.
Proof.
  intros Hb Hr%reachable_inv Hw Ho Hrx; [|done].
  assert (held (slot σ) = 0) as Hh.
  { pose proof (sw_settled _ (i_wf _ _ _ _ Hr)) as Hs. unfold held. rewrite Hrx in *.
    rewrite (@len_nil byte) in *. lia. }
  pose proof (i_mode _ _ _ _ Hr) as Hm. pose proof (rx_policy_built n Hb) as [_ _ Hwm].
  revert Hm. unfold rx_policy, ack_mode, limit in *. simpl in *.
  destruct (n_delayed_ack n); simpl.
  - intros (_ & _ & Heq) Hlt. unfold limit, in_flight in Heq. simpl in Heq.
    rewrite Hw, Ho, Hh in Heq. specialize (Heq Hlt). simpl in Heq.
    rewrite (@len_nil byte) in Heq. lia.
  - intros (_ & Htok & Hiff). rewrite Hw, Ho in Htok. simpl in *.
    unfold owed in Htok. destruct (Z.eqb_spec (sl_unacked (slot σ)) 0) as [|Hne]; [zlen|].
    rewrite Hiff in Hne. lia.
Qed.

(** *** A run: the device writes three bytes and the host reads them *)

Definition sample_negotiated (delayed : bool) : Negotiated :=
  mkNegotiated 4096 ADB_VERSION config_embedded delayed (mkBanner [] (0, 0) (0, 0) [] []).

Definition sample_start (delayed : bool) : sys :=
  initial (sample_negotiated delayed) (mkIds 1 7) 100.

Definition sample_written (delayed : bool) : sys :=
  mkSys (slot (sample_start delayed))
    (after_write (mode (sample_start delayed)) 3 (credit (sample_start delayed)))
    [bs "abc"] [] (bs "abc") [].

Lemma sample_written_reachable delayed :
  reachable (sample_negotiated delayed) (sample_written delayed).
Proof.
  eapply reach_step; [apply (reach_initial _ (mkIds 1 7) 100)|].
  apply (dev_write _ (sample_start delayed) (bs "abc")); destruct delayed; by vm_compute.
Qed.

Lemma flow_control_no_overflow_witness :
  built (n_config (sample_negotiated true)) ∧
  held (slot (sample_written true)) + 3 <= rx_cap config_embedded.
Proof.
  assert (built (n_config (sample_negotiated true))) as Hb by apply built_embedded.
  split; [exact Hb|].
  destruct (flow_control_no_overflow (sample_negotiated true) (sample_written true) (bs "abc") []
    Hb (sample_written_reachable true) eq_refl) as [_ H]. exact H.
Defined.

Lemma flow_control_stream_witness :
  sent (sample_written false)
  = got (sample_written false) ++ sl_rx_buf (slot (sample_written false))
      ++ concat (wrtes (sample_written false)).
Proof.
  apply (flow_control_stream (sample_negotiated false)).
  - apply built_embedded.
  - apply sample_written_reachable.
Defined.

(** The packet handed straight to a reader, and its OKAY received. *)
Definition sample_delivered (delayed : bool) : sys :=
  let σ := sample_written delayed in
  mkSys (snd (deliver 3 (slot σ))) (credit σ) [] (acks_of (fst (deliver 3 (slot σ))))
    (bs "abc") (bs "abc").

Definition sample_drained (delayed : bool) : sys :=
  let σ := sample_delivered delayed in
  mkSys (slot σ) (apply_okay (mode σ) (zsum (okays σ)) (credit σ)) [] [] (bs "abc") (bs "abc").

Lemma sample_drained_reachable delayed :
  reachable (sample_negotiated delayed) (sample_drained delayed).
Proof.
  eapply reach_step; [eapply reach_step; [apply sample_written_reachable|]|].
  - apply (host_deliver _ (sample_written delayed) (bs "abc") []
      (fst (deliver 3 (slot (sample_written delayed))))
      (snd (deliver 3 (slot (sample_written delayed))))); by destruct delayed.
  - apply (dev_okay _ (sample_delivered delayed) (zsum (okays (sample_delivered delayed))) []).
    by destruct delayed.
Qed.

Lemma flow_control_window_reopens_witness :
  credit (sample_drained true) = advertised_ack_bytes config_embedded.
Proof.
  apply (flow_control_window_reopens (sample_negotiated true) (sample_drained true)
    built_embedded (sample_drained_reachable true) eq_refl eq_refl eq_refl).
  by vm_compute.
Defined.
