(* ===== verification/ChannelTable.v ===== *)
(** * The channel table ([base/channel_table.rs])

    A fixed array of slots, the next local id to hand out, and [dispatch],
    which routes every packet that arrives after the handshake.

    [fill]'s [debug_assert] and its array index are failures of the model
    ([None]).  The theorems: a packet touches at most the slot it names, by
    local id or, for a CLSE without one, by remote id; handles are unique and a
    freed handle never resolves again while fewer than [2^32 - 1] ids have
    been handed out; filling never meets an occupied slot. *)

From S2P Require Import Prelude Errors Protocol Config SendQueue Slot.

(** [ChannelId] of [channel.rs]. *)
Record ChannelId : Type := mkChannelId { ch_slot : nat; ch_local : Z }.

#[export] Instance channel_id_eq_decision : EqDecision ChannelId.
Proof. solve_decision. Defined.

(** [NoFreeChannels] of [error.rs]. *)
Inductive NoFreeChannels : Type := no_free_channels.

Module DispatchOutcome.
Inductive DispatchOutcome : Type :=
| AckWrite (idx : nat) (ack : PendingAck)
| CreditGranted (idx : nat)
| SlotClosed (idx : nat)
| DataBuffered (idx : nat)
| IncomingOpen (remote credit : Z) (destination : bytes)
| CancelPendingOpen (remote : Z)
| StrayReady (ids : ChannelIds)
| ChannelFault (idx : nat) (ids : ChannelIds) (opening : bool) (fault : ChannelFault)
| Unmatched.
End DispatchOutcome.
Abbreviation DispatchOutcome := DispatchOutcome.DispatchOutcome.

Record ChannelTable : Type := mkTable {
  t_slots : list (option ChannelSlot);
  t_next_local_id : Z;
  t_policy : RxPolicy;
}.

Definition set_slots (slots : list (option ChannelSlot)) (t : ChannelTable) : ChannelTable :=
  mkTable slots (t_next_local_id t) (t_policy t).

(** ** Operations *)

Definition table_new (n : nat) (policy : RxPolicy) : ChannelTable :=
  mkTable (replicate n None) 1 policy.

Definition table_len (t : ChannelTable) : Z := len (t_slots t).

(** [position(Option::is_none)]. *)
Fixpoint position_none (slots : list (option ChannelSlot)) : option nat :=
  match slots with
  | [] => None
  | None :: _ => Some 0%nat
  | Some _ :: slots => S <$> position_none slots
  end.

Definition allocate (t : ChannelTable) : result NoFreeChannels ChannelId * ChannelTable :=
  match position_none (t_slots t) with
  | None => (Err no_free_channels, t)
  | Some slot =>
      let local := t_next_local_id t in
      (Ok (mkChannelId slot local),
       mkTable (t_slots t) (Z.max (wrap_u32 (local + 1)) 1) (t_policy t))
  end.

Definition fill (ch : ChannelId) (slot : ChannelSlot) (t : ChannelTable) : option ChannelTable :=
  match t_slots t !! ch_slot ch with
  | Some None => Some (set_slots (<[ch_slot ch := Some slot]> (t_slots t)) t)
  | _ => None
  end.

Definition insert_opening (ch : ChannelId) (t : ChannelTable) : option ChannelTable :=
  fill ch (slot_opening (ch_local ch) (t_policy t)) t.

Definition insert_accepted (ch : ChannelId) (remote credit : Z) (t : ChannelTable) :
    option ChannelTable :=
  fill ch (slot_accepted (mkIds (ch_local ch) remote) credit (t_policy t)) t.

(** [get], and the read half of [get_mut]. *)
Definition table_get (ch : ChannelId) (t : ChannelTable) : option ChannelSlot :=
  match t_slots t !! ch_slot ch with
  | Some (Some s) => if sl_local s =? ch_local ch then Some s else None
  | _ => None
  end.

(** A write through [get_mut]: [s] replaces the slot that [ch] resolves to. *)
Definition table_put (ch : ChannelId) (s : ChannelSlot) (t : ChannelTable) : ChannelTable :=
  set_slots (<[ch_slot ch := Some s]> (t_slots t)) t.

Definition table_ids {E} (ch : ChannelId) (t : ChannelTable) : result (Error E) ChannelIds :=
  ok_or Error.ChannelClosed (table_get ch t ≫= slot_ids).

Definition free (ch : ChannelId) (t : ChannelTable) : option ChannelSlot * ChannelTable :=
  match table_get ch t with
  | None => (None, t)
  | Some s => (Some s, set_slots (<[ch_slot ch := None]> (t_slots t)) t)
  end.

(** Position of the slot whose channel is [remote]'s. *)
Fixpoint position_remote (remote : Z) (slots : list (option ChannelSlot)) :
    option (nat * ChannelSlot) :=
  match slots with
  | [] => None
  | o :: slots =>
      let next := '(i, s) ← position_remote remote slots; Some (S i, s) in
      match o with
      | Some s => match slot_ids s with
                  | Some ids => if Protocol.remote ids =? remote then Some (0%nat, s) else next
                  | None => next
                  end
      | None => next
      end
  end.

Definition close_remote (remote : Z) (t : ChannelTable) : option nat * ChannelTable :=
  if remote =? 0 then (None, t)
  else match position_remote remote (t_slots t) with
       | None => (None, t)
       | Some (idx, s) => (Some idx, set_slots (<[idx := Some (apply_close s)]> (t_slots t)) t)
       end.

(** [fault]. *)
Definition fault_of (idx : nat) (slot : ChannelSlot) (remote : Z) (fault : ChannelFault) :
    DispatchOutcome :=
  DispatchOutcome.ChannelFault idx (mkIds (sl_local slot) remote)
    (bool_decide (sl_state slot = ChannelState.Opening)) fault.

(** One round of [dispatch]'s loop on an occupied slot: [None] goes on to the
    next slot. *)
Definition dispatch_slot (idx : nat) (pkt : Packet) (slot : ChannelSlot) :
    option (DispatchOutcome * ChannelSlot) :=
  let remote := arg0 pkt in
  let ours := arg1 pkt =? sl_local slot in
  match command pkt with
  | Command.Write =>
      if ours && is_failed slot then Some (DispatchOutcome.Unmatched, slot)
      else if ours then
        Some match apply_write (data pkt) slot with
             | Ok (AckDecision.Now ack, slot') => (DispatchOutcome.AckWrite idx ack, slot')
             | Ok (AckDecision.Hold, slot') => (DispatchOutcome.DataBuffered idx, slot')
             | Err _ => (fault_of idx slot remote ChannelFault.RxOverflow, slot)
             end
      else None
  | Command.Ready =>
      if ours && is_failed slot then Some (DispatchOutcome.Unmatched, slot)
      else if ours then
        let granted := if bool_decide (sl_state slot = ChannelState.Opening)
                       then accept_open_ready remote (data pkt) slot
                       else apply_ready (data pkt) slot in
        Some match granted with
             | Ok slot' => (DispatchOutcome.CreditGranted idx, slot')
             | Err e => (fault_of idx slot remote (ChannelFault.Protocol e), slot)
             end
      else None
  | Command.Close =>
      if ours then Some (DispatchOutcome.SlotClosed idx, apply_close slot) else None
  | _ => None
  end.

Fixpoint dispatch_loop (idx : nat) (pkt : Packet) (slots : list (option ChannelSlot)) :
    option (DispatchOutcome * list (option ChannelSlot)) :=
  match slots with
  | [] => None
  | o :: slots =>
      match o ≫= dispatch_slot idx pkt with
      | Some (out, s') => Some (out, Some s' :: slots)
      | None => '(out, slots') ← dispatch_loop (S idx) pkt slots; Some (out, o :: slots')
      end
  end.

Definition dispatch (pkt : Packet) (t : ChannelTable) : DispatchOutcome * ChannelTable :=
  match command pkt with
  | Command.Connect | Command.Auth | Command.StartTls => (DispatchOutcome.Unmatched, t)
  | Command.Open => (DispatchOutcome.IncomingOpen (arg0 pkt) (arg1 pkt) (data pkt), t)
  | _ =>
      let remote := arg0 pkt in
      if bool_decide (command pkt = Command.Close) && (arg1 pkt =? 0) then
        match close_remote remote t with
        | (Some idx, t') => (DispatchOutcome.SlotClosed idx, t')
        | (None, t') => (DispatchOutcome.CancelPendingOpen remote, t')
        end
      else match dispatch_loop 0 pkt (t_slots t) with
           | Some (out, slots') => (out, set_slots slots' t)
           | None =>
               if bool_decide (command pkt = Command.Ready)
                  && negb (arg0 pkt =? 0) && negb (arg1 pkt =? 0) then
                 (DispatchOutcome.StrayReady (mkIds (arg1 pkt) remote), t)
               else (DispatchOutcome.Unmatched, t)
           end
  end.

(** ** Routing *)

(** The commands a slot answers to. *)
Definition for_channel (pkt : Packet) : Prop :=
  command pkt = Command.Write ∨ command pkt = Command.Ready ∨ command pkt = Command.Close.

Lemma apply_write_local p s d s' : apply_write p s = Ok (d, s') → sl_local s' = sl_local s.
Proof.
  unfold apply_write, push_rx. destruct (_ <? _); bind_simpl; [done|]. cbv zeta.
  destruct (negb _ && _); [|by intros [= <- <-]].
  destruct (slot_ack _ _); by intros [= <- <-].
Qed.

Lemma apply_ready_local p s s' : apply_ready p s = Ok s' → sl_local s' = sl_local s.
Proof.
  unfold apply_ready. destruct (p_ack _); [by intros [= <-]|].
  destruct (parse_ready_credit p); [by intros [= <-]|done].
Qed.

Lemma accept_open_ready_local r p s s' :
  accept_open_ready r p s = Ok s' → sl_local s' = sl_local s.
Proof.
  unfold accept_open_ready. destruct (is_delayed s); [|by intros [= <-]].
  destruct (parse_ready_credit p); [by intros [= <-]|done].
Qed.

Lemma dispatch_slot_some idx pkt s out s' :
  dispatch_slot idx pkt s = Some (out, s') →
  arg1 pkt = sl_local s ∧ sl_local s' = sl_local s ∧ for_channel pkt.
Proof.
  unfold dispatch_slot, for_channel. intros H.
  destruct (command pkt); try done;
    destruct (Z.eqb_spec (arg1 pkt) (sl_local s)) as [Heq|]; simpl in H; try done;
    (split; [done|]); (split; [|auto]).
  - destruct (is_failed s); [by simplify_eq|].
    destruct (bool_decide _).
    + destruct (accept_open_ready _ _ _) eqn:Ha; simplify_eq; [|done].
      by eapply accept_open_ready_local.
    + destruct (apply_ready _ _) eqn:Ha; simplify_eq; [|done]. by eapply apply_ready_local.
  - by simplify_eq.
  - destruct (is_failed s); [by simplify_eq|].
    destruct (apply_write _ _) as [[[] ?]|] eqn:Ha; simplify_eq; [..|done];
      by eapply apply_write_local.
Qed.

Lemma dispatch_slot_ours idx pkt s :
  for_channel pkt → arg1 pkt = sl_local s → is_Some (dispatch_slot idx pkt s).
Proof.
  unfold dispatch_slot. intros Hf ->. rewrite Z.eqb_refl. simpl.
  destruct Hf as [->|[->| ->]]; repeat case_match; eauto.
Qed.

Lemma dispatch_loop_some idx pkt slots out slots' :
  dispatch_loop idx pkt slots = Some (out, slots') →
  ∃ i s s', slots !! i = Some (Some s) ∧ dispatch_slot (idx + i) pkt s = Some (out, s') ∧
    slots' = <[i := Some s']> slots.
Proof.
  revert idx slots'. induction slots as [|o slots IH]; intros idx slots'; simpl; [done|].
  destruct (o ≫= dispatch_slot idx pkt) as [[out' s']|] eqn:Ho.
  - intros [= <- <-]. apply bind_Some in Ho as (s & -> & Hs).
    exists 0%nat, s, s'. rewrite Nat.add_0_r. done.
  - intros ([out' sl'] & Hl & [= -> <-])%bind_Some.
    apply IH in Hl as (i & s & s' & Hi & Hs & ->).
    exists (S i), s, s'. rewrite Nat.add_succ_r. done.
Qed.

Lemma dispatch_loop_none idx pkt slots :
  dispatch_loop idx pkt slots = None →
  ∀ i s, slots !! i = Some (Some s) → dispatch_slot (idx + i) pkt s = None.
Proof.
  revert idx. induction slots as [|o slots IH]; intros idx; simpl; [done|].
  destruct (o ≫= dispatch_slot idx pkt) as [[out' s']|] eqn:Ho; [done|].
  destruct (dispatch_loop (S idx) pkt slots) as [[]|] eqn:Hl; [done|]. intros _ [|i] s Hi.
  - simpl in Hi. simplify_eq. by rewrite Nat.add_0_r.
  - rewrite Nat.add_succ_r. by eapply (IH (S idx)).
Qed.

Lemma position_remote_some r slots i s :
  position_remote r slots = Some (i, s) →
  slots !! i = Some (Some s) ∧ sl_remote s = Some r.
Proof.
  revert i. induction slots as [|o slots IH]; intros i; simpl; [done|].
  assert (∀ i, ('(i, s) ← position_remote r slots; Some (S i, s)) = Some (i, s) →
    (o :: slots) !! i = Some (Some s) ∧ sl_remote s = Some r) as Hnext.
  { intros j ([i' s'] & Hl & [= <- ->])%bind_Some. by apply IH in Hl. }
  destruct o as [s0|]; [|apply Hnext].
  destruct (slot_ids s0) as [ids|] eqn:Hids; [|apply Hnext].
  destruct (Z.eqb_spec (remote ids) r) as [<-|]; [|apply Hnext].
  intros [= <- <-]. apply slot_ids_some in Hids as [? _]. done.
Qed.

Lemma close_remote_spec r t o t' :
  close_remote r t = (o, t') →
  (o = None ∧ t' = t) ∨
  ∃ idx s, o = Some idx ∧ r ≠ 0 ∧ t_slots t !! idx = Some (Some s) ∧ sl_remote s = Some r ∧
    t' = set_slots (<[idx := Some (apply_close s)]> (t_slots t)) t.
Proof.
  unfold close_remote. destruct (Z.eqb_spec r 0); [intros [= <- <-]; auto|].
  destruct (position_remote r (t_slots t)) as [[i s]|] eqn:Hp; [|intros [= <- <-]; auto].
  intros [= <- <-]. apply position_remote_some in Hp as [? ?]. right. naive_solver.
Qed.

(** Every change [dispatch] makes is one slot replaced by one with the same
    local id. *)
Lemma dispatch_spec pkt t out t' :
  dispatch pkt t = (out, t') →
  t' = t ∨
  ∃ i s s', t_slots t !! i = Some (Some s) ∧ sl_local s' = sl_local s ∧
    t' = set_slots (<[i := Some s']> (t_slots t)) t ∧
    ((for_channel pkt ∧ arg1 pkt = sl_local s ∧ dispatch_slot i pkt s = Some (out, s')) ∨
     (command pkt = Command.Close ∧ arg1 pkt = 0 ∧ arg0 pkt ≠ 0 ∧
      sl_remote s = Some (arg0 pkt) ∧ s' = apply_close s ∧ out = DispatchOutcome.SlotClosed i)).
Proof.
  unfold dispatch. intros H.
  assert (∀ x, dispatch_loop 0 pkt (t_slots t) = Some x →
    (let '(o, sl) := x in (o, set_slots sl t)) = (out, t') → ∃ i s s',
      t_slots t !! i = Some (Some s) ∧ sl_local s' = sl_local s ∧
      t' = set_slots (<[i := Some s']> (t_slots t)) t ∧ for_channel pkt ∧ arg1 pkt = sl_local s ∧
      dispatch_slot i pkt s = Some (out, s')) as Hloop.
  { intros [o sl] (i & s & s' & Hi & Hs & ->)%dispatch_loop_some [= -> <-]. simpl in Hs.
    pose proof (dispatch_slot_some _ _ _ _ _ Hs) as (? & ? & ?). naive_solver. }
  destruct (bool_decide (command pkt = Command.Close) && (arg1 pkt =? 0)) eqn:Hc.
  - bool_facts. rewrite H0 in H.
    destruct (close_remote (arg0 pkt) t) as [o t''] eqn:Hcr.
    apply close_remote_spec in Hcr as [[-> ->]|(i & s & -> & ? & ? & ? & ->)]; simplify_eq; [auto|].
    right. exists i, s, (apply_close s). naive_solver.
  - destruct (command pkt) eqn:Hcmd; simplify_eq; auto;
      destruct (dispatch_loop 0 pkt (t_slots t)) as [x|] eqn:Hl;
      try (destruct x; right; destruct (Hloop _ eq_refl H) as (i & s & s' & ?); naive_solver);
      destruct (_ && _) in H; simplify_eq; auto.
Qed.

(** No two occupied slots share a local id. *)
Definition unique_locals (t : ChannelTable) : Prop :=
  ∀ i j s1 s2, t_slots t !! i = Some (Some s1) → t_slots t !! j = Some (Some s2) →
    sl_local s1 = sl_local s2 → i = j.

(** a packet reaches no channel but its own.  [dispatch] changes at most
    one slot, and only the one the packet names: by local id, or, for a CLSE
    that carries none, by the remote id it was opened with.  The ids handed
    out and the other slots stay as they were. *)
Theorem dispatch_isolation pkt t :
  let t' := snd (dispatch pkt t) in
  t_next_local_id t' = t_next_local_id t ∧ t_policy t' = t_policy t ∧
  length (t_slots t') = length (t_slots t) ∧
  ∀ i, t_slots t' !! i ≠ t_slots t !! i →
    ∃ s s', t_slots t !! i = Some (Some s) ∧ t_slots t' !! i = Some (Some s') ∧
      sl_local s' = sl_local s ∧ (∀ j, j ≠ i → t_slots t' !! j = t_slots t !! j) ∧
      (arg1 pkt = sl_local s ∨
       command pkt = Command.Close ∧ arg1 pkt = 0 ∧ sl_remote s = Some (arg0 pkt)).
Proof.
  destruct (dispatch pkt t) as [out t'] eqn:Hd. cbn [snd].
  apply dispatch_spec in Hd as [->|(k & s & s' & Hk & Hl & -> & Hwhy)]; [done|].
  simpl. do 2 (split; [done|]). split; [by rewrite length_insert|].
  intros i Hi. destruct (decide (i = k)) as [->|Hne].
  2: { by rewrite list_lookup_insert_ne in Hi. }
  exists s, s'. split; [done|].
  split; [apply list_lookup_insert_eq; by eapply lookup_lt_Some|].
  split; [done|]. split; [intros j Hj; by rewrite list_lookup_insert_ne|]. naive_solver.
Qed.

(** A packet for a live channel is acted on by that channel, wherever its
    slot is: with distinct local ids, [dispatch] of a WRTE, OKAY or CLSE that
    carries a channel's local id is that slot's own step, and its outcome. *)
Theorem dispatch_routes pkt t i s :
  unique_locals t → t_slots t !! i = Some (Some s) → for_channel pkt →
  arg1 pkt = sl_local s → arg1 pkt ≠ 0 →
  ∃ out s', dispatch_slot i pkt s = Some (out, s') ∧
    dispatch pkt t = (out, set_slots (<[i := Some s']> (t_slots t)) t).
Proof.
  intros Hu Hi Hf Ha Hnz.
  destruct (dispatch_slot_ours i pkt s Hf Ha) as [[out s'] Hs]. exists out, s'. split; [done|].
  assert (dispatch_loop 0 pkt (t_slots t) = Some (out, <[i := Some s']> (t_slots t))) as Hl.
  { destruct (dispatch_loop 0 pkt (t_slots t)) as [[o sl]|] eqn:Hl.
    - apply dispatch_loop_some in Hl as (j & s2 & s2' & Hj & Hs2 & ->). simpl in Hs2.
      pose proof (dispatch_slot_some _ _ _ _ _ Hs2) as (Ha2 & _).
      assert (i = j) as <- by (eapply Hu; [done|done|congruence]). simplify_eq. done.
    - pose proof (dispatch_loop_none _ _ _ Hl i s Hi) as Hn. simpl in Hn. congruence. }
  unfold dispatch. rewrite (proj2 (Z.eqb_neq _ _) Hnz), andb_false_r, Hl.
  by destruct Hf as [->|[->| ->]].
Qed.

(** ** Handles *)

(** What surrounds the table: the handle [allocate] returned and not yet
    filled, the handles given up, and how many were handed out.  A handle is
    filled or dropped before the next is allocated: the calls in between hold
    the connection, or the table's lock. *)
Record tstate : Type := mkT {
  tab : ChannelTable;
  pending : option ChannelId;
  dead : list ChannelId;
  count : Z;
}.

Inductive tstep : tstate → tstate → Prop :=
| ts_allocate t d k ch t' :
    allocate t = (Ok ch, t') → tstep (mkT t None d k) (mkT t' (Some ch) d (k + 1))
| ts_drop t ch d k :
    tstep (mkT t (Some ch) d k) (mkT t None (ch :: d) k)
| ts_insert_opening t ch d k t' :
    insert_opening ch t = Some t' → tstep (mkT t (Some ch) d k) (mkT t' None d k)
| ts_insert_accepted t ch remote credit d k t' :
    insert_accepted ch remote credit t = Some t' →
    tstep (mkT t (Some ch) d k) (mkT t' None d k)
| ts_free t p ch s d k t' :
    free ch t = (Some s, t') → tstep (mkT t p d k) (mkT t' p (ch :: d) k)
| ts_dispatch t p pkt d k :
    tstep (mkT t p d k) (mkT (snd (dispatch pkt t)) p d k)
| ts_update t p ch s s' d k :
    table_get ch t = Some s → sl_local s' = sl_local s →
    tstep (mkT t p d k) (mkT (table_put ch s' t) p d k).

Inductive treachable (n : nat) (pol : RxPolicy) : tstate → Prop :=
| tr_new : treachable n pol (mkT (table_new n pol) None [] 0)
| tr_step st st' : treachable n pol st → tstep st st' → treachable n pol st'.

Record tinv (st : tstate) : Prop := {
  ti_count : 0 <= count st;
  ti_next : count st < 2 ^ 32 - 1 → t_next_local_id (tab st) = count st + 1;
  ti_range : count st < 2 ^ 32 → ∀ i s, t_slots (tab st) !! i = Some (Some s) →
             1 <= sl_local s <= count st;
  ti_unique : count st < 2 ^ 32 → unique_locals (tab st);
  ti_pending : ∀ ch, pending st = Some ch →
     t_slots (tab st) !! ch_slot ch = Some None ∧
     (count st < 2 ^ 32 → 1 <= ch_local ch <= count st ∧
      (∀ i s, t_slots (tab st) !! i = Some (Some s) → sl_local s ≠ ch_local ch) ∧
      ∀ ch', ch' ∈ dead st → ch_local ch' ≠ ch_local ch);
  ti_dead : count st < 2 ^ 32 → ∀ ch, ch ∈ dead st →
     1 <= ch_local ch <= count st ∧
     ∀ i s, t_slots (tab st) !! i = Some (Some s) → sl_local s ≠ ch_local ch;
}.

Lemma position_none_some slots i : position_none slots = Some i → slots !! i = Some None.
Proof.
  revert i. induction slots as [|[s|] slots IH]; intros i; simpl; [done| |by intros [= <-]].
  intros (j & Hj & ->)%fmap_Some. by apply IH.
Qed.

Lemma table_get_some ch t s :
  table_get ch t = Some s ↔ t_slots t !! ch_slot ch = Some (Some s) ∧ sl_local s = ch_local ch.
Proof.
  unfold table_get. destruct (t_slots t !! ch_slot ch) as [[s0|]|]; [|naive_solver..].
  destruct (Z.eqb_spec (sl_local s0) (ch_local ch)); naive_solver.
Qed.

Lemma fill_some ch s t t' :
  fill ch s t = Some t' ↔ t_slots t !! ch_slot ch = Some None ∧
                          t' = set_slots (<[ch_slot ch := Some s]> (t_slots t)) t.
Proof. unfold fill. destruct (t_slots t !! ch_slot ch) as [[]|]; naive_solver. Qed.

(** Replacing one occupied slot by another with the same local id. *)
Lemma tinv_update t p d k i s s' :
  tinv (mkT t p d k) → t_slots t !! i = Some (Some s) → sl_local s' = sl_local s →
  tinv (mkT (set_slots (<[i := Some s']> (t_slots t)) t) p d k).
Proof.
  intros H Hi Hloc.
  assert (∀ j s2, <[i := Some s']> (t_slots t) !! j = Some (Some s2) →
    ∃ s1, t_slots t !! j = Some (Some s1) ∧ sl_local s1 = sl_local s2) as Hback.
  { intros j s2. destruct (decide (j = i)) as [->|Hne].
    - rewrite list_lookup_insert_eq by (by eapply lookup_lt_Some). intros [= <-]. eauto.
    - rewrite list_lookup_insert_ne by done. eauto. }
  destruct H as [H1 H2 H3 H4 H5 H6]. simpl in *. split; simpl; try done.
  - intros Hk j s2 (s1 & Hj & <-)%Hback. eauto.
  - intros Hk j1 j2 s1 s2 (s1' & Hj1 & <-)%Hback (s2' & Hj2 & <-)%Hback. by apply (H4 Hk).
  - intros ch Hch. destruct (H5 ch Hch) as [Hnone Hrest]. split.
    + rewrite list_lookup_insert_ne; [done|]. intros ->. congruence.
    + intros Hk. destruct (Hrest Hk) as (? & Hr & ?). split; [done|]. split; [|done].
      intros j s2 (s1 & Hj & <-)%Hback. eauto.
  - intros Hk ch Hch. destruct (H6 Hk ch Hch) as [? Hr]. split; [done|].
    intros j s2 (s1 & Hj & <-)%Hback. eauto.
Qed.

(** Filling the slot reserved for the pending handle. *)
Lemma tinv_fill t ch s d k :
  tinv (mkT t (Some ch) d k) → sl_local s = ch_local ch →
  tinv (mkT (set_slots (<[ch_slot ch := Some s]> (t_slots t)) t) None d k).
Proof.
  intros H Hloc. destruct H as [H1 H2 H3 H4 H5 H6]. simpl in *.
  destruct (H5 ch eq_refl) as [Hnone Hrest].
  assert (∀ j s2, <[ch_slot ch := Some s]> (t_slots t) !! j = Some (Some s2) →
    (j = ch_slot ch ∧ s2 = s) ∨ (j ≠ ch_slot ch ∧ t_slots t !! j = Some (Some s2))) as Hback.
  { intros j s2. destruct (decide (j = ch_slot ch)) as [->|Hne].
    - rewrite list_lookup_insert_eq by (by eapply lookup_lt_Some). intros [= <-]. auto.
    - rewrite list_lookup_insert_ne by done. auto. }
  split; simpl; try done.
  - intros Hk j s2 [[-> ->]|[_ Hj]]%Hback; [|eauto]. rewrite Hloc. by apply Hrest.
  - intros Hk j1 j2 s1 s2 [[-> ->]|[? Hj1]]%Hback [[-> ->]|[? Hj2]]%Hback Heq; [done|..];
      destruct (Hrest Hk) as (_ & Hr & _).
    + destruct (Hr _ _ Hj2). congruence.
    + destruct (Hr _ _ Hj1). congruence.
    + by eapply (H4 Hk).
  - intros Hk ch' Hch'. destruct (H6 Hk ch' Hch') as [? Hr]. split; [done|].
    destruct (Hrest Hk) as (_ & _ & Hd).
    intros j s2 [[-> ->]|[? Hj]]%Hback; [|eauto]. rewrite Hloc. intros Heq. by eapply Hd.
Qed.

Lemma tinv_allocate t d k ch t' :
  tinv (mkT t None d k) → allocate t = (Ok ch, t') → tinv (mkT t' (Some ch) d (k + 1)).
Proof.
  intros [H1 H2 H3 H4 _ H6]. unfold allocate. simpl in *.
  destruct (position_none (t_slots t)) as [slot|] eqn:Hp; [|done]. intros [= <- <-].
  apply position_none_some in Hp. split; simpl.
  - lia.
  - intros Hk. rewrite H2 by lia. unfold wrap_u32. rewrite Z.mod_small by lia. lia.
  - intros Hk i s Hi. specialize (H3 ltac:(lia) i s Hi). lia.
  - intros Hk. apply H4. lia.
  - intros ch [= <-]. simpl. split; [done|]. intros Hk. rewrite H2 by lia. split; [lia|].
    split; [intros i s Hi; specialize (H3 ltac:(lia) i s Hi); lia|].
    intros ch' Hch'. destruct (H6 ltac:(lia) ch' Hch'). lia.
  - intros Hk ch Hch. destruct (H6 ltac:(lia) ch Hch). split; [lia|done].
Qed.

Lemma tinv_free t p ch s d k t' :
  tinv (mkT t p d k) → free ch t = (Some s, t') → tinv (mkT t' p (ch :: d) k).
Proof.
  intros [H1 H2 H3 H4 H5 H6]. unfold free. simpl in *.
  destruct (table_get ch t) as [s0|] eqn:Hg; [|done]. intros [= <- <-].
  apply table_get_some in Hg as [Hi Hloc].
  assert (∀ j s2, <[ch_slot ch := None]> (t_slots t) !! j = Some (Some s2) →
    j ≠ ch_slot ch ∧ t_slots t !! j = Some (Some s2)) as Hback.
  { intros j s2. destruct (decide (j = ch_slot ch)) as [->|Hne].
    - by rewrite list_lookup_insert_eq by (by eapply lookup_lt_Some).
    - rewrite list_lookup_insert_ne by done. auto. }
  split; simpl; try done.
  - intros Hk j s2 [_ Hj]%Hback. eauto.
  - intros Hk j1 j2 s1 s2 [_ Hj1]%Hback [_ Hj2]%Hback. by apply (H4 Hk).
  - intros ch' Hch'. destruct (H5 ch' Hch') as [Hnone Hrest]. split.
    + rewrite list_lookup_insert_ne; [done|]. congruence.
    + intros Hk. destruct (Hrest Hk) as (? & Hr & Hd). split; [done|]. split.
      * intros j s2 [_ Hj]%Hback. eauto.
      * intros ch2 [->|Hin]%elem_of_cons; [|eauto]. rewrite <- Hloc. eauto.
  - intros Hk ch2 [->|Hin]%elem_of_cons.
    + rewrite <- Hloc. split; [eauto|]. intros j s2 [Hne Hj]%Hback Heq.
      apply Hne. by eapply (H4 Hk).
    + destruct (H6 Hk ch2 Hin) as [? Hr]. split; [done|]. intros j s2 [_ Hj]%Hback. eauto.
Qed.

Lemma tinv_step st st' : tinv st → tstep st st' → tinv st'.
Proof.
  intros H Hstep. destruct Hstep as [t d k ch t' Ha|t ch d k|t ch d k t' Hi
    |t ch r c d k t' Hi|t p ch s d k t' Hf|t p pkt d k|t p ch s s' d k Hg Hl].
  - by eapply tinv_allocate.
  - destruct H as [H1 H2 H3 H4 H5 H6]. simpl in *. destruct (H5 ch eq_refl) as [_ Hr].
    split; simpl; try done. intros Hk ch' [->|Hin]%elem_of_cons; [|by eauto].
    destruct (Hr Hk) as (? & ? & _). done.
  - apply fill_some in Hi as [_ ->]. by apply tinv_fill.
  - apply fill_some in Hi as [_ ->]. apply tinv_fill; [done|].
    unfold slot_accepted. by destruct (is_delayed _).
  - by eapply tinv_free.
  - destruct (dispatch pkt t) as [out t'] eqn:Hd. cbn [snd].
    apply dispatch_spec in Hd as [->|(i & s & s' & Hi & Hl & -> & _)]; [done|].
    by eapply tinv_update.
  - apply table_get_some in Hg as [Hi _]. by eapply tinv_update.
Qed.

Lemma treachable_inv n pol st : treachable n pol st → tinv st.
Proof.
  induction 1 as [|st st' _ IH Hs]; [|by eapply tinv_step].
  assert (∀ i s, replicate n (@None ChannelSlot) !! i ≠ Some (Some s)) as Hr.
  { intros i s [Heq _]%lookup_replicate. done. }
  split; simpl; try done; try (intros; exfalso; by eapply Hr); try set_solver.
  intros _ i j s1 s2 Hi. exfalso. by eapply Hr.
Qed.

(** C17: handles do not alias.  Over any sequence of allocations, insertions,
    frees, dispatched packets and slot updates that hands out fewer than
    [2^32] local ids: no two live channels share an id, a handle given up or
    freed resolves to nothing however its slot is reused, and the handle just
    allocated is free to fill, so that [fill] meets neither a bad index nor
    its [debug_assert]. *)
Theorem handles_never_alias n pol st :
  treachable n pol st → count st < 2 ^ 32 →
  unique_locals (tab st) ∧
  (∀ ch, ch ∈ dead st → table_get ch (tab st) = None) ∧
  ∀ ch, pending st = Some ch →
    is_Some (insert_opening ch (tab st)) ∧
    ∀ remote credit, is_Some (insert_accepted ch remote credit (tab st)).
Proof.
  intros Hr%treachable_inv Hk. destruct Hr as [_ _ _ H4 H5 H6].
  split; [by apply H4|]. split.
  - intros ch Hch. destruct (table_get ch (tab st)) as [s|] eqn:Hg; [|done].
    apply table_get_some in Hg as [Hi Hl]. destruct (H6 Hk ch Hch) as [_ Hn].
    by destruct (Hn _ _ Hi).
  - intros ch Hch. destruct (H5 ch Hch) as [Hnone _].
    split; [|intros r c]; eexists; by apply fill_some.
Qed.

(** A channel opened, freed, and its slot reused by a second channel. *)
Definition reuse_run (pol : RxPolicy) : tstate :=
  mkT (mkTable [Some (slot_opening 2 pol)] 3 pol) None [mkChannelId 0 1] 2.

Lemma reuse_run_reachable pol : treachable 1 pol (reuse_run pol).
Proof.
  eapply tr_step; [eapply tr_step; [eapply tr_step; [eapply tr_step; [eapply tr_step;
    [apply tr_new|]|]|]|]|].
  - by eapply (ts_allocate _ _ _ (mkChannelId 0 1)).
  - by eapply ts_insert_opening.
  - by eapply (ts_free _ _ (mkChannelId 0 1)).
  - by eapply (ts_allocate _ _ _ (mkChannelId 0 2)).
  - by eapply ts_insert_opening.
Qed.

Lemma handles_never_alias_witness :
  let pol := mkPolicy AckMode.Classic 4096 1 in
  table_get (mkChannelId 0 2) (tab (reuse_run pol)) = Some (slot_opening 2 pol) ∧
  table_get (mkChannelId 0 1) (tab (reuse_run pol)) = None.
Proof.
  cbv zeta. split; [done|].
  destruct (handles_never_alias 1 _ _ (reuse_run_reachable (mkPolicy AckMode.Classic 4096 1)))
    as (_ & Hd & _); [by vm_compute|]. apply Hd. by left.
Defined.

Lemma dispatch_routes_witness :
  let pol := mkPolicy AckMode.Classic 4096 10 in
  let s := slot_accepted (mkIds 2 9) 0 pol in
  let t := mkTable [Some (slot_opening 1 pol); None; Some s] 3 pol in
  let pkt := mkPacket Command.Write 9 2 (bs "hi") in
  ∃ out s', dispatch_slot 2 pkt s = Some (out, s') ∧
    dispatch pkt t = (out, set_slots (<[2%nat := Some s']> (t_slots t)) t).
Proof.
  cbv zeta. apply dispatch_routes; [|done|by left|done|done].
  intros [|[|[|i]]] [|[|[|j]]] s1 s2 H1 H2; simpl in *; simplify_eq; done.
Defined.

(** past [2^32 - 1] ids the counter wraps: the table then hands out an id a
    closed channel had, and the old handle resolves to the new channel. *)
Lemma local_ids_wrap pol :
  let t0 := mkTable [None] U32_MAX pol in
  ∃ ch1 t1 t2 t3 s ch2 t4 t5,
    allocate t0 = (Ok ch1, t1) ∧ insert_opening ch1 t1 = Some t2 ∧ free ch1 t2 = (Some s, t3) ∧
    allocate t3 = (Ok ch2, t4) ∧ insert_opening ch2 t4 = Some t5 ∧
    ch2 = mkChannelId 0 1 ∧ is_Some (table_get (mkChannelId 0 1) t5).
Proof.
  do 8 eexists. repeat split; try reflexivity. eexists. reflexivity.
Qed.
