(* ===== verification/Wire.v ===== *)
(** * Packets over a transport ([base/wire.rs])

    The transport is [embedded_io_async]'s [Read + Write], an interface the
    library does not implement here: the class [Transport] has its calls, and
    [TransportLaws] what their documentation promises (no call returns more
    than the buffer it was given; bytes arrive and leave in order).  A call
    completes with a value, completes with an error, or its caller drops it
    while it waits ([IoDropped]).

    [wire] is what the functions of [wire.rs] borrow: the transport, the
    receive buffer and the desync flag.  [ArmedWrite] sets the flag when it is
    dropped armed, which is how a send that is abandoned or fails ends
    ([send_frame]).  [Staged] is the committed buffer and the length of the
    zeroed room behind it; dropping it cuts the room off, so the buffer field
    always holds the committed bytes. *)

From S2P Require Import Prelude Errors Protocol Config SendQueue Slot.

(** ** Transports *)

Inductive io (E A : Type) : Type :=
| IoOk (a : A)
| IoErr (e : E)
| IoDropped.
Arguments IoOk {E A} a.
Arguments IoErr {E A} e.
Arguments IoDropped {E A}.

(** The [embedded_io::ErrorKind]s the library tells apart. *)
Inductive GoneKind : Type := ConnectionReset | ConnectionAborted | BrokenPipe | NotConnected.

Class Transport (T IoE : Type) : Type := {
  (** [read] into a buffer of the given length: the bytes read. *)
  t_read : Z → T → io IoE bytes * T;
  (** [write]: how many bytes of the buffer were taken. *)
  t_write : bytes → T → io IoE Z * T;
  t_flush : T → io IoE unit * T;
  (** A read that was polled and dropped. *)
  t_cancel : T → T;
  (** [ReadCancelSafety::read_cancel_safe]: dropping a read loses nothing. *)
  read_cancel_safe : bool;
  (** [e.kind()], where it is one of [GoneKind]. *)
  t_kind : IoE → option GoneKind;
}.

(** What a transport promises, in terms of the bytes still to arrive and the
    bytes that have left. *)
Class TransportLaws (T IoE : Type) `{Transport T IoE} : Type := {
  incoming : T → bytes;
  outgoing : T → bytes;
  t_read_ok n t b t' : t_read n t = (IoOk b, t') →
    len b <= Z.max 0 n ∧ incoming t = b ++ incoming t' ∧ outgoing t' = outgoing t;
  t_read_err n t e t' : t_read n t = (IoErr e, t') →
    incoming t' = incoming t ∧ outgoing t' = outgoing t;
  t_read_dropped n t t' : t_read n t = (IoDropped, t') →
    (read_cancel_safe = true → incoming t' = incoming t) ∧ outgoing t' = outgoing t;
  t_write_ok b t n t' : t_write b t = (IoOk n, t') →
    0 <= n <= len b ∧ outgoing t' = outgoing t ++ ztake n b ∧ incoming t' = incoming t;
  (** A write that fails or is dropped may have sent part of the buffer. *)
  t_write_other b t r t' : t_write b t = (r, t') → (∀ n, r ≠ IoOk n) →
    incoming t' = incoming t ∧ ∃ n, outgoing t' = outgoing t ++ ztake n b;
  t_flush_any t r t' : t_flush t = (r, t') → incoming t' = incoming t ∧ outgoing t' = outgoing t;
  t_cancel_any t : (read_cancel_safe = true → incoming (t_cancel t) = incoming t) ∧
    outgoing (t_cancel t) = outgoing t;
}.

(** [Received]. *)
Inductive Received (I : Type) : Type :=
| RPacket (pkt : Packet)
| RInterrupted (val : I).
Arguments RPacket {I} pkt.
Arguments RInterrupted {I} val.

Record wire (T : Type) : Type := mkWire {
  w_transport : T;
  w_recv_buf : bytes;
  w_desync : bool;
}.
Arguments mkWire {T}.
Arguments w_transport {T}.
Arguments w_recv_buf {T}.
Arguments w_desync {T}.

Section Wire.
Context {T IoE : Type} `{Transport T IoE}.

Abbreviation wprog := (prog (wire T) (Error IoE)).

Definition set_transport (t : T) (w : wire T) : wire T := mkWire t (w_recv_buf w) (w_desync w).
Definition set_recv_buf (b : bytes) (w : wire T) : wire T := mkWire (w_transport w) b (w_desync w).
Definition set_desync (d : bool) (w : wire T) : wire T := mkWire (w_transport w) (w_recv_buf w) d.

(** [.await] on a transport call: a dropped call drops the caller. *)
Definition await {A} (call : T → io IoE A * T) : wprog A := λ w,
  match call (w_transport w) with
  | (IoOk a, t) => (Ret a, set_transport t w)
  | (IoErr e, t) => (Fail (Error.Io e), set_transport t w)
  | (IoDropped, t) => (Dropped, set_transport t w)
  end.

(** [connection_gone]. *)
Definition connection_gone (e : Error IoE) : bool :=
  match e with
  | Error.Io e => match t_kind e with Some _ => true | None => false end
  | _ => false
  end.

(** [ends_connection]. *)
Definition ends_connection (e : Error IoE) : bool :=
  match e with
  | Error.UnexpectedEof => true
  | Error.Protocol e => negb (bool_decide (e = ProtocolError.InvalidChecksum))
  | e => connection_gone e
  end.

(** ** Sending *)

(** [DesyncFlag::check]. *)
Definition desync_check : wprog unit := λ w,
  if w_desync w then (Fail Error.Desynchronized, w) else (Ret tt, w).

(** [write_all]: every round that goes on takes at least a byte, so one round
    more than there are bytes is enough. *)
Fixpoint write_rounds (fuel : nat) (buf : bytes) : wprog unit :=
  match fuel with
  | O => out_of_fuel
  | S fuel =>
      match buf with
      | [] => mret tt
      | _ =>
          n ← await (t_write buf);
          if n =? 0 then fail Error.UnexpectedEof else write_rounds fuel (zdrop n buf)
      end
  end.

Definition write_all (buf : bytes) : wprog unit := write_rounds (S (length buf)) buf.

Definition write_frame (header payload : bytes) : wprog unit :=
  write_all header ≫= λ _,
  (if bool_decide (payload = []) then mret tt else write_all payload) ≫= λ _,
  await t_flush.

(** [send_frame]: the armed flag is dropped on every way out, and sets the
    flag unless the frame went out or the connection is gone. *)
Definition send_frame (header payload : bytes) : wprog unit := λ w,
  match write_frame header payload w with
  | (Ret tt, w') => (Ret tt, w')
  | (Fail e, w') => (Fail e, if connection_gone e then w' else set_desync true w')
  | (o, w') => (o, set_desync true w')
  end.

Definition send_pkt (pkt : Packet) (checksum : Checksum) : wprog unit :=
  desync_check ≫= λ _,
  header ← lift (map_err Error.Protocol
    (encode_header (command pkt) (arg0 pkt) (arg1 pkt) (data pkt) checksum));
  send_frame header (data pkt).

Definition send_raw (command : Command) (ids : ChannelIds) (payload : bytes)
    (checksum : Checksum) : wprog unit :=
  desync_check ≫= λ _,
  header ← lift (map_err Error.Protocol
    (encode_header command (local ids) (remote ids) payload checksum));
  send_frame header payload.

Definition send_open (local credit : Z) (destination : bytes) (checksum : Checksum) :
    wprog unit :=
  desync_check ≫= λ _,
  header ← lift (map_err Error.Protocol
    (encode_header Command.Open local credit destination checksum));
  send_frame header destination.

Definition send_okay_to (ack : PendingAck) (mode : AckMode) (checksum : Checksum) : wprog unit :=
  let credit := u32_le (wrap_u32 (ack_len_of ack)) in
  let payload := match mode with AckMode.Delayed => credit | AckMode.Classic => [] end in
  send_raw Command.Ready (ack_ids ack) payload checksum.

(** ** Receiving *)

Definition MIN_READ : Z := 4096.

Definition read_limit (buf : bytes) : Z :=
  if len buf <? MESSAGE_SIZE then MIN_READ else missing buf.

(** [Staged::new]'s room, [Staged::room] and [Staged::wants_more], on the
    committed bytes and the length of the spare room. *)
Definition staged_new (committed : bytes) : Z := read_limit committed.
Definition staged_room (committed : bytes) (spare : Z) : Z := Z.min (read_limit committed) spare.
Definition wants_more (committed : bytes) (spare : Z) : bool :=
  negb (missing committed =? 0) && (missing committed <=? spare).

(** [Packet::decode] on the receive buffer. *)
Definition decode_buf (max_payload : Z) : wprog (option Packet) := λ w,
  match decode (w_recv_buf w) max_payload with
  | (Ok o, rest) => (Ret o, set_recv_buf rest w)
  | (Err e, rest) => (Fail (Error.Protocol e), set_recv_buf rest w)
  end.

Section Receive.
(** The interrupt: a future of type [F] that yields an [I]; [poll] polls it
    for the length of one read. *)
Context {F I : Type} (poll : F → option I * F).

(** The loops of [recv_pkt_or] after a [decode] that wanted more: a read, then
    another while the packet fits the staged room, then [decode] again.
    [fuel] bounds the reads. *)
Fixpoint recv_rounds (fuel : nat) (max_payload : Z) (race : bool) (f : F) (spare : Z) :
    wprog (Received I * F) :=
  match fuel with
  | O => out_of_fuel
  | S fuel =>
      match poll f with
      | (Some val, f) => λ w,
          (Ret (RInterrupted val, f),
           if race then set_transport (t_cancel (w_transport w)) w else w)
      | (None, f) =>
          buf ← gets w_recv_buf;
          b ← await (t_read (staged_room buf spare));
          if bool_decide (b = []) then fail Error.UnexpectedEof
          else
            let committed := buf ++ b in
            let spare := spare - len b in
            modify (set_recv_buf committed) ≫= λ _,
            if wants_more committed spare then recv_rounds fuel max_payload race f spare
            else
              o ← decode_buf max_payload;
              match o with
              | Some pkt => mret (RPacket pkt, f)
              | None => recv_rounds fuel max_payload race f (staged_new committed)
              end
      end
  end.

Definition recv_pkt_or (fuel : nat) (max_payload : Z) (race : bool) (f : F) :
    wprog (Received I * F) :=
  o ← decode_buf max_payload;
  match o with
  | Some pkt => mret (RPacket pkt, f)
  | None =>
      buf ← gets w_recv_buf;
      recv_rounds fuel max_payload race f (staged_new buf)
  end.
End Receive.

(** The reads one packet takes at most: what is buffered and staged never
    exceeds a header, a legal payload and one minimal read. *)
Definition recv_fuel : nat := Z.to_nat (MESSAGE_SIZE + MAX_PAYLOAD + MIN_READ + 1).

(** [recv_pkt]: the interrupt is [pending()]. *)
Definition recv_pkt (max_payload : Z) : wprog Packet :=
  r ← recv_pkt_or (I := Empty_set) (λ f : unit, (None, f)) recv_fuel max_payload true tt;
  match fst r with
  | RPacket pkt => mret pkt
  | RInterrupted never => match (never : Empty_set) with end
  end.
End Wire.
Arguments recv_fuel : simpl never.

(** ** What a send does *)

Lemma wp_await {T IoE A} (call : T → io IoE A * T) (Q : outcome (Error IoE) A → wire T → Prop) w :
  match call (w_transport w) with
  | (IoOk a, t) => Q (Ret a) (set_transport t w)
  | (IoErr e, t) => Q (Fail (Error.Io e)) (set_transport t w)
  | (IoDropped, t) => Q Dropped (set_transport t w)
  end → wp (await call) Q w.
Proof. unfold wp, await. by destruct (call (w_transport w)) as [[] t]. Qed.

Section Sending.
Context {T IoE : Type} `{TransportLaws T IoE}.
Implicit Types w : wire T.

(** [new] is [old] with a part of [buf] appended. *)
Definition appends_part (buf old new : bytes) : Prop := ∃ p s, buf = p ++ s ∧ new = old ++ p.

Lemma appends_part_ztake n buf old : appends_part buf old (old ++ ztake n buf).
Proof. exists (ztake n buf), (zdrop n buf). by rewrite ztake_zdrop. Qed.

Lemma appends_part_none buf old : appends_part buf old old.
Proof. exists [], buf. by rewrite app_nil_r. Qed.

Lemma appends_part_app p buf old new :
  appends_part buf (old ++ p) new → appends_part (p ++ buf) old new.
Proof.
  intros (q & s & -> & ->). exists (p ++ q), s. by rewrite <- !app_assoc.
Qed.

Lemma appends_part_l buf rest old new :
  appends_part buf old new → appends_part (buf ++ rest) old new.
Proof. intros (q & s & -> & ->). exists q, (s ++ rest). by rewrite <- app_assoc. Qed.

(** The errors a transport call can end in. *)
Definition io_error (e : Error IoE) : Prop := e = Error.UnexpectedEof ∨ ∃ x, e = Error.Io x.

(** Running to outcome [o] from [w] to [w'] wrote [buf] or, unless it
    returned, a part of it, and touched nothing else. *)
Definition wrote (buf : bytes) w (o : outcome (Error IoE) unit) w' : Prop :=
  w_recv_buf w' = w_recv_buf w ∧ w_desync w' = w_desync w ∧
  incoming (w_transport w') = incoming (w_transport w) ∧
  appends_part buf (outgoing (w_transport w)) (outgoing (w_transport w')) ∧
  match o with
  | Ret _ => outgoing (w_transport w') = outgoing (w_transport w) ++ buf
  | Fail e => io_error e
  | Dropped => True
  | Panicked | NoFuel => False
  end.

Lemma write_rounds_wrote fuel buf w :
  (length buf < fuel)%nat → wp (write_rounds fuel buf) (wrote buf w) w.
Proof.
  revert buf w. induction fuel as [|fuel IH]; intros buf w Hf; [lia|]. simpl.
  destruct buf as [|b buf']; [|set (buf := b :: buf') in *].
  { unfold wp, wrote. simpl. rewrite app_nil_r. repeat split; auto using appends_part_none. }
  apply wp_bind, wp_await.
  destruct (t_write buf (w_transport w)) as [r t'] eqn:Hw.
  destruct r as [n|e|].
  - destruct (t_write_ok _ _ _ _ Hw) as (Hn & Hout & Hin).
    destruct (Z.eqb_spec n 0) as [->|Hnz].
    + unfold wp, wrote. simpl. rewrite Hout, Hin. repeat split; try done.
      * rewrite ztake_nonpos, app_nil_r by lia. apply appends_part_none.
      * by left.
    + assert (length (zdrop n buf) < length buf)%nat as Hlt.
      { rewrite zdrop_drop, length_drop. unfold buf at 1. simpl. lia. }
      eapply wp_mono; [apply (IH (zdrop n buf) (set_transport t' w)); lia|].
      intros o w' (H1 & H2' & H3 & H4 & H5). simpl in *. rewrite Hout, Hin in *.
      unfold wrote. repeat split; try done.
      * rewrite <- (ztake_zdrop n buf). by apply appends_part_app.
      * destruct o; try done. by rewrite H5, <- app_assoc, ztake_zdrop.
  - destruct (t_write_other _ _ _ _ Hw) as (Hin & n & Hout); [done|].
    unfold wrote. simpl. rewrite Hin, Hout. repeat split; auto using appends_part_ztake.
    right. eauto.
  - destruct (t_write_other _ _ _ _ Hw) as (Hin & n & Hout); [done|].
    unfold wrote. simpl. rewrite Hin, Hout. repeat split; auto using appends_part_ztake.
Qed.

Lemma write_all_wrote buf w : wp (write_all buf) (wrote buf w) w.
Proof. apply write_rounds_wrote. lia. Qed.

Lemma wrote_then buf rest w w' o' w'' :
  wrote buf w (Ret tt) w' → wrote rest w' o' w'' → wrote (buf ++ rest) w o' w''.
Proof.
  intros (A1 & A2 & A3 & _ & A5) (B1 & B2 & B3 & B4 & B5). unfold wrote.
  rewrite A1, A2, A3, A5 in *. repeat split; try done.
  - by apply appends_part_app.
  - destruct o'; try done. by rewrite B5, app_assoc.
Qed.

Lemma wrote_stop buf rest w o w' :
  wrote buf w o w' → (∀ x, o ≠ Ret x) → wrote (buf ++ rest) w o w'.
Proof.
  intros (A1 & A2 & A3 & A4 & A5) Hne. unfold wrote. repeat split; auto using appends_part_l.
  destruct o as [[]| | | |]; try done. by destruct (Hne tt).
Qed.

Lemma flush_wrote w : wp (await t_flush) (wrote [] w) w.
Proof.
  apply wp_await. destruct (t_flush (w_transport w)) as [r t'] eqn:Hf.
  apply t_flush_any in Hf as [Hin Hout]. unfold wrote.
  destruct r; simpl; rewrite Hin, Hout, ?app_nil_r;
    repeat split; auto using appends_part_none. right. eauto.
Qed.

(** Sequencing two writers. *)
Lemma wrote_bind buf rest (m1 m2 : prog (wire T) (Error IoE) unit) w :
  wp m1 (wrote buf w) w → (∀ w', wp m2 (wrote rest w') w') →
  wp (m1 ≫= λ _, m2) (wrote (buf ++ rest) w) w.
Proof.
  intros H1 H2. apply wp_bind. eapply wp_mono; [exact H1|]. intros o w' Hw.
  destruct o as [[]|e| | |]; try (by eapply wrote_stop).
  eapply wp_mono; [apply H2|]. intros o' w'' Hw'. by eapply wrote_then.
Qed.

Lemma write_frame_wrote header payload w :
  wp (write_frame header payload) (wrote (header ++ payload) w) w.
Proof.
  unfold write_frame. apply wrote_bind; [apply write_all_wrote|]. intros w'.
  apply (wp_mono _ (wrote (payload ++ []) w')); [|intros o w''; by rewrite app_nil_r].
  apply wrote_bind; [|apply flush_wrote].
  case_bool_decide as Hp; [|apply write_all_wrote]. subst. unfold wp, wrote. simpl.
  rewrite app_nil_r. repeat split; auto using appends_part_none.
Qed.

(** The contract of every send: with the flag set nothing is written and the
    call fails; a frame that cannot be encoded is refused before a byte goes
    out; otherwise the whole frame goes out, or part of it and the flag is set
    unless the connection itself is gone. *)
Definition send_contract (f : result ProtocolError bytes) w
    (o : outcome (Error IoE) unit) w' : Prop :=
  if w_desync w then o = Fail Error.Desynchronized ∧ w' = w
  else match f with
  | Err e => o = Fail (Error.Protocol e) ∧ w' = w
  | Ok buf =>
      w_recv_buf w' = w_recv_buf w ∧
      incoming (w_transport w') = incoming (w_transport w) ∧
      appends_part buf (outgoing (w_transport w)) (outgoing (w_transport w')) ∧
      match o with
      | Ret _ => outgoing (w_transport w') = outgoing (w_transport w) ++ buf ∧
                 w_desync w' = false
      | Fail e => io_error e ∧ w_desync w' = negb (connection_gone e)
      | Dropped => w_desync w' = true
      | Panicked | NoFuel => False
      end
  end.

Lemma send_pkt_spec pkt checksum w :
  wp (send_pkt pkt checksum) (send_contract (frame checksum pkt) w) w.
Proof.
  unfold send_pkt, frame, send_contract. apply wp_bind. unfold wp at 1, desync_check.
  destruct (w_desync w) eqn:Hd; simpl; [done|]. apply wp_bind, wp_lift.
  destruct (encode_header _ _ _ _ _) as [h|e]; simpl; [|done].
  pose proof (write_frame_wrote h (data pkt) w) as Hw. unfold wp, send_frame in *.
  destruct (write_frame h (data pkt) w) as [o w']. simpl in Hw.
  destruct Hw as (H1 & H2 & H3 & H4 & H5).
  destruct o as [[]|e| | |]; simpl; try done.
  - repeat split; try done. congruence.
  - destruct (connection_gone e) eqn:Hg; simpl; repeat split; try done. congruence.
Qed.

(** The other senders are [send_pkt] of the packet they spell out. *)
Lemma send_raw_pkt c ids payload k :
  send_raw (T := T) (IoE := IoE) c ids payload k
  = send_pkt (mkPacket c (local ids) (remote ids) payload) k.
Proof. reflexivity. Qed.

Lemma send_open_pkt l credit destination k :
  send_open (T := T) (IoE := IoE) l credit destination k
  = send_pkt (mkPacket Command.Open l credit destination) k.
Proof. reflexivity. Qed.
End Sending.

(** ** What a receive does *)

Section Receiving.
Context {T IoE : Type} `{TransportLaws T IoE}.
Implicit Types w : wire T.

(** The byte stream from the device: what is buffered, then what is to come. *)
Definition stream w : bytes := w_recv_buf w ++ incoming (w_transport w).

(** The buffer's bound: a header, a legal payload and one minimal read. *)
Definition recv_bound (mp : Z) : Z := MESSAGE_SIZE + Z.max 0 (Z.min mp MAX_PAYLOAD) + MIN_READ.

(** What an outcome of [recv_pkt_or] says of the stream.  [safe]: dropping a
    read of this transport loses nothing. *)
Definition received {F I} (mp : Z) (race : bool) w (o : outcome (Error IoE) (Received I * F)) w' :
    Prop :=
  w_desync w' = w_desync w ∧ outgoing (w_transport w') = outgoing (w_transport w) ∧
  len (w_recv_buf w') <= Z.max (len (w_recv_buf w)) (recv_bound mp) ∧
  match o with
  | Ret (RPacket pkt, _) => decode (stream w) mp = (Ok (Some pkt), stream w')
  | Ret (RInterrupted _, _) =>
      (race = true → read_cancel_safe = true) → stream w' = stream w
  | Fail (Error.Protocol e) => decode (stream w) mp = (Err e, stream w')
  | Fail e => io_error e ∧ stream w' = stream w
  | Dropped => read_cancel_safe = true → stream w' = stream w
  | Panicked | NoFuel => False
  end.

Lemma received_mono {F I} mp race w1 w2 (o : outcome (Error IoE) (Received I * F)) w' :
  w_desync w1 = w_desync w2 → outgoing (w_transport w1) = outgoing (w_transport w2) →
  len (w_recv_buf w1) <= Z.max (len (w_recv_buf w2)) (recv_bound mp) → stream w1 = stream w2 →
  received mp race w1 o w' → received mp race w2 o w'.
Proof.
  intros Hd Ho Hb Hs (H1 & H2' & H3 & H4). unfold received.
  rewrite <- Hd, <- Ho, <- Hs. split; [done|]. split; [done|]. split; [lia|done].
Qed.

Lemma decode_len buf mp r rest : decode buf mp = (r, rest) → len rest <= len buf.
Proof.
  unfold decode. intros Hd. pose proof (len_nonneg buf).
  repeat case_match_eqn; simplify_eq; rewrite ?len_zdrop; lia.
Qed.

(** [decode] on the buffer, when it decides, is [decode] on the stream. *)
Lemma decode_buf_spec mp w :
  wp (decode_buf (IoE := IoE) mp) (λ o w',
    w_desync w' = w_desync w ∧ w_transport w' = w_transport w ∧
    len (w_recv_buf w') <= len (w_recv_buf w) ∧
    match o with
    | Ret (Some pkt) => decode (stream w) mp = (Ok (Some pkt), stream w')
    | Ret None => w' = w ∧ decode (w_recv_buf w) mp = (Ok None, w_recv_buf w)
    | Fail (Error.Protocol e) => decode (stream w) mp = (Err e, stream w')
    | _ => False
    end) w.
Proof.
  unfold wp, decode_buf. destruct (decode (w_recv_buf w) mp) as [r rest] eqn:Hd.
  pose proof (decode_len _ _ _ _ Hd) as Hl.
  destruct r as [[pkt|]|e]; simpl; do 3 (split; [done|]); unfold stream; simpl.
  - by apply decode_app.
  - destruct (decode_none_inv _ _ _ Hd) as [-> _]. by destruct w.
  - by apply decode_app.
Qed.

Lemma read_limit_pos buf mp : decode buf mp = (Ok None, buf) → 1 <= read_limit buf.
Proof.
  intros Hd. unfold read_limit. case_cmp; [by vm_compute|].
  destruct (decode_none_missing _ _ _ Hd) as (_ & ? & _). lia.
Qed.

Lemma read_limit_bound buf mp :
  decode buf mp = (Ok None, buf) → len buf + read_limit buf <= recv_bound mp.
Proof.
  intros Hd. destruct (decode_none_missing _ _ _ Hd) as (_ & ? & ?).
  unfold read_limit, recv_bound. case_cmp; unfold MIN_READ in *; lia.
Qed.

Section Rounds.
Context {F I : Type} (poll : F → option I * F).

Lemma recv_rounds_spec fuel mp race f spare w :
  1 <= staged_room (w_recv_buf w) spare →
  len (w_recv_buf w) + spare <= recv_bound mp →
  recv_bound mp - len (w_recv_buf w) < Z.of_nat fuel →
  wp (recv_rounds poll fuel mp race f spare) (received mp race w) w.
Proof.
  revert f spare w. induction fuel as [|fuel IH]; intros f spare w Hroom Hbound Hfuel.
  { unfold staged_room in Hroom. lia. }
  simpl. destruct (poll f) as [[val|] f'].
  { unfold wp, received. simpl. destruct (t_cancel_any (w_transport w)) as [Hc1 Hc2].
    destruct race; simpl; (split; [done|]); (split; [done|]); (split; [lia|]); [|done].
    intros Hsafe. unfold stream. simpl. by rewrite Hc1 by auto. }
  apply wp_bind, wp_gets, wp_bind, wp_await.
  set (buf := w_recv_buf w) in *.
  destruct (t_read (staged_room buf spare) (w_transport w)) as [r t'] eqn:Hr.
  destruct r as [b|e|].
  - destruct (t_read_ok _ _ _ _ Hr) as (Hlen & Hin & Hout).
    case_bool_decide as Hb.
    { subst b. unfold wp, received, stream. simpl. simpl in Hin. rewrite Hin.
      split; [done|]. split; [done|]. split; [lia|]. split; [by left|done]. }
    assert (0 < len b) as Hpos by (destruct b; [done|zlen]).
    apply wp_bind, wp_modify.
    set (w1 := set_recv_buf (buf ++ b) (set_transport t' w)).
    assert (w_desync w1 = w_desync w ∧ outgoing (w_transport w1) = outgoing (w_transport w) ∧
      len (w_recv_buf w1) = len buf + len b ∧ stream w1 = stream w) as (E1 & E2 & E3 & E4).
    { unfold stream, w1. simpl. rewrite Hin, <- app_assoc, len_app. done. }
    assert (len b <= spare) by (unfold staged_room in Hlen; lia).
    assert (∀ spare', 1 <= staged_room (buf ++ b) spare' →
      len (buf ++ b) + spare' <= recv_bound mp →
      wp (recv_rounds poll fuel mp race f' spare') (received mp race w) w1) as Hrec.
    { intros spare' Hr' Hb'. eapply wp_mono; [apply IH; simpl; [done..|]|].
      - rewrite len_app. lia.
      - intros o w'. apply received_mono; [done|done|rewrite E3; lia|done]. }
    destruct (wants_more (buf ++ b) (spare - len b)) eqn:Hwm.
    + apply Hrec; [|rewrite len_app; lia]. unfold wants_more in Hwm. bool_facts.
      unfold staged_room, read_limit. pose proof (missing_eq (buf ++ b)).
      case_cmp; unfold MIN_READ; lia.
    + apply wp_bind. eapply wp_mono; [apply decode_buf_spec|].
      intros o w' (D1 & D2 & D3 & D4). rewrite E3 in D3.
      assert (w_desync w' = w_desync w ∧ outgoing (w_transport w') = outgoing (w_transport w) ∧
        len (w_recv_buf w') <= Z.max (len buf) (recv_bound mp)) as HH.
      { rewrite D1, D2. split; [done|]. split; [done|]. lia. }
      destruct o as [[pkt|]|[]| | |]; try done; simpl.
      * unfold wp, received. simpl. rewrite <- E4. naive_solver.
      * destruct D4 as [-> Hd]. apply Hrec.
        -- unfold staged_room, staged_new. pose proof (read_limit_pos _ _ Hd). simpl in *. lia.
        -- apply (read_limit_bound _ _ Hd).
      * unfold received. rewrite <- E4. naive_solver.
  - destruct (t_read_err _ _ _ _ Hr) as [Hin Hout].
    unfold received, stream. simpl. rewrite Hin, Hout. do 2 (split; [done|]).
    split; [lia|]. split; [right; eauto|done].
  - destruct (t_read_dropped _ _ _ Hr) as [Hin Hout].
    unfold received, stream. simpl. rewrite Hout. do 2 (split; [done|]).
    split; [lia|]. intros Hs. by rewrite Hin.
Qed.

Lemma recv_pkt_or_spec fuel mp race f w :
  recv_bound mp < Z.of_nat fuel →
  wp (recv_pkt_or poll fuel mp race f) (received mp race w) w.
Proof.
  intros Hfuel. unfold recv_pkt_or. apply wp_bind.
  eapply wp_mono; [apply decode_buf_spec|]. intros o w' (D1 & D2 & D3 & D4).
  assert (w_desync w' = w_desync w ∧ outgoing (w_transport w') = outgoing (w_transport w) ∧
    len (w_recv_buf w') <= Z.max (len (w_recv_buf w)) (recv_bound mp)) as HH.
  { rewrite D1, D2. split; [done|]. split; [done|]. lia. }
  destruct o as [[pkt|]|[]| | |]; try done; simpl.
  - unfold wp, received. simpl. naive_solver.
  - destruct D4 as [-> Hd]. apply wp_bind, wp_gets. apply recv_rounds_spec.
    + unfold staged_room, staged_new. pose proof (read_limit_pos _ _ Hd). lia.
    + apply (read_limit_bound _ _ Hd).
    + pose proof (len_nonneg (w_recv_buf w)). lia.
  - unfold received. naive_solver.
Qed.
End Rounds.
End Receiving.

(** ** A scripted transport

    Delivers a fixed stream and records what is written, in chunks, failures
    and drops that a plan dictates: a transport that satisfies the laws. *)
Module Script.
Inductive error : Type := Reset | Other.

Record script : Type := mkScript {
  s_in : bytes;
  s_out : bytes;
  s_plan : list (io error Z);
}.

(** The next event; past the plan, calls take all they can. *)
Definition next (t : script) : io error Z :=
  match s_plan t with [] => IoOk USIZE_MAX | e :: _ => e end.

Definition read (n : Z) (t : script) : io error bytes * script :=
  match next t with
  | IoOk k => let m := Z.min n (Z.max 1 k) in
              (IoOk (ztake m (s_in t)), mkScript (zdrop m (s_in t)) (s_out t) (tl (s_plan t)))
  | IoErr e => (IoErr e, mkScript (s_in t) (s_out t) (tl (s_plan t)))
  | IoDropped => (IoDropped, mkScript (s_in t) (s_out t) (tl (s_plan t)))
  end.

(** A dropped write has sent three bytes. *)
Definition write (b : bytes) (t : script) : io error Z * script :=
  match next t with
  | IoOk k => let m := Z.min (len b) (Z.max 0 k) in
              (IoOk m, mkScript (s_in t) (s_out t ++ ztake m b) (tl (s_plan t)))
  | IoErr e => (IoErr e, mkScript (s_in t) (s_out t) (tl (s_plan t)))
  | IoDropped => (IoDropped, mkScript (s_in t) (s_out t ++ ztake 3 b) (tl (s_plan t)))
  end.

Definition flush (t : script) : io error unit * script := (IoOk tt, t).

#[global] Instance script_transport : Transport script error := {
  t_read := read;
  t_write := write;
  t_flush := flush;
  t_cancel t := t;
  read_cancel_safe := true;
  t_kind e := match e with Reset => Some ConnectionReset | Other => None end;
}.

#[global] Instance script_laws : TransportLaws script error.
Proof.
  refine (Build_TransportLaws _ _ _ s_in s_out _ _ _ _ _ _ _); cbn.
  - unfold read. intros n t b t'. destruct (next t); [|done..]. intros [= <- <-]. simpl.
    rewrite ztake_zdrop, len_ztake. split; [lia|done].
  - unfold read. intros n t e t'. destruct (next t); [done| |done]. by intros [= <- <-].
  - unfold read. intros n t t'. destruct (next t); [done..|]. by intros [= <-].
  - unfold write. intros b t n t'. destruct (next t); [|done..]. intros [= <- <-]. simpl.
    pose proof (len_nonneg b). split; [lia|done].
  - unfold write. intros b t r t' Hw Hne.
    destruct (next t); simplify_eq/=; [by destruct (Hne (Z.min (len b) (Z.max 0 a)))|..].
    + split; [done|]. exists 0. by rewrite ztake_nonpos, app_nil_r by lia.
    + eauto.
  - intros t r t'. unfold flush. by intros [= _ <-].
  - done.
Defined.
End Script.

(** ** The theorems *)


Lemma recv_fuel_enough mp : recv_bound mp < Z.of_nat recv_fuel.
Proof.
  unfold recv_fuel, recv_bound, MESSAGE_SIZE, MIN_READ, MAX_PAYLOAD.
  rewrite Z2Nat.id by lia. lia.
Qed.

(** C16: receiving depends on the byte stream only, not on how the transport
    chops it up, and loses nothing.  [recv_pkt_or], run with the library's
    bound on reads, always ends: with the packet that [decode] finds at the
    head of the stream (what is buffered followed by what is to come), leaving
    exactly the rest; with the error [decode] has for that stream; or with an
    I/O error, an interrupt or a drop, leaving the stream as it was, so that
    the next call picks up where this one left off (an interrupted or dropped
    read, where the transport's reads can be dropped).  It writes nothing, and
    buffers at most a header, a legal payload and one minimal read. *)
Theorem recv_pkt_or_stream {T IoE} `{TransportLaws T IoE} {F I} (poll : F → option I * F)
    (mp : Z) (race : bool) (f : F) (w : wire T) :
  let '(o, w') := recv_pkt_or poll recv_fuel mp race f w in received mp race w o w'.
Proof.
  pose proof (recv_pkt_or_spec poll recv_fuel mp race f w (recv_fuel_enough mp)) as Hs.
  unfold wp in Hs. by destruct (recv_pkt_or poll recv_fuel mp race f w).
Qed.

(** [recv_pkt]: the same without an interrupt. *)
Definition received_pkt {T IoE} `{TransportLaws T IoE} (mp : Z) (w : wire T)
    (o : outcome (Error IoE) Packet) (w' : wire T) : Prop :=
  w_desync w' = w_desync w ∧ outgoing (w_transport w') = outgoing (w_transport w) ∧
  len (w_recv_buf w') <= Z.max (len (w_recv_buf w)) (recv_bound mp) ∧
  match o with
  | Ret pkt => decode (stream w) mp = (Ok (Some pkt), stream w')
  | Fail (Error.Protocol e) => decode (stream w) mp = (Err e, stream w')
  | Fail e => io_error e ∧ stream w' = stream w
  | Dropped => read_cancel_safe = true → stream w' = stream w
  | Panicked | NoFuel => False
  end.

Lemma recv_pkt_spec {T IoE} `{TransportLaws T IoE} mp (w : wire T) :
  wp (recv_pkt mp) (received_pkt mp w) w.
Proof.
  unfold recv_pkt. apply wp_bind.
  eapply wp_mono; [apply recv_pkt_or_spec, recv_fuel_enough|].
  intros o w' (H1 & H2' & H3 & H4). unfold received_pkt.
  destruct o as [[[pkt|[]] []]|e| | |]; done.
Qed.

(** A stream that arrives in small chunks. *)
Definition two_packets : bytes :=
  match frame Checksum.Skip (mkPacket Command.Write 7 1 (bs "hello")),
        frame Checksum.Compute (mkPacket Command.Ready 7 1 []) with
  | Ok a, Ok b => a ++ b
  | _, _ => []
  end.

Definition chunked : wire Script.script :=
  mkWire (Script.mkScript two_packets [] [IoOk 1; IoOk 22; IoOk 3; IoOk 1; IoOk 9]) [] false.

Definition no_interrupt (f : unit) : option Empty_set * unit := (None, f).

Lemma recv_pkt_or_stream_witness :
  let '(o, w') := recv_pkt_or no_interrupt recv_fuel 4096 true tt chunked in
  received 4096 true chunked o w' ∧
  o = Ret (RPacket (mkPacket Command.Write 7 1 (bs "hello")), tt).
Proof.
  pose proof (recv_pkt_or_stream no_interrupt 4096 true tt chunked) as Hr.
  assert (fst (recv_pkt_or no_interrupt recv_fuel 4096 true tt chunked)
    = Ret (RPacket (mkPacket Command.Write 7 1 (bs "hello")), tt)) as Ho by (by vm_compute).
  destruct (recv_pkt_or no_interrupt recv_fuel 4096 true tt chunked) as [o w'].
  split; [exact Hr|exact Ho].
Defined.

