(* ===== verification/Connection.v ===== *)
(** * A connection ([base/connection.rs], [base/incoming.rs])

    [conn] is [Connection]: the wire (transport, receive buffer, desync flag),
    the channel table, what was negotiated and the queue of channels the
    device wants to open.  The calls are state-passing programs; where one
    waits for packets it takes a bound on how many it handles ([fuel]).

    A read of [want] bytes returns the bytes themselves. *)

From S2P Require Import Prelude Errors Protocol Banner Config SendQueue Slot ChannelTable Wire.

(** ** Incoming requests *)

(** [PendingOpen]. *)
Record PendingOpen : Type := mkPending {
  po_remote : Z;
  po_credit : Z;
  po_destination : bytes;
}.

(** [IncomingQueue]. *)
Abbreviation IncomingQueue := (list PendingOpen).

Definition push_back (p : PendingOpen) (q : IncomingQueue) : IncomingQueue := q ++ [p].
Definition push_front (p : PendingOpen) (q : IncomingQueue) : IncomingQueue := p :: q.
Definition pop_front (q : IncomingQueue) : option PendingOpen * IncomingQueue :=
  match q with [] => (None, []) | p :: q => (Some p, q) end.
Definition withdraw (remote : Z) (q : IncomingQueue) : IncomingQueue :=
  filter (λ p, po_remote p ≠ remote) q.

(** ** The connection *)

Record conn (T : Type) : Type := mkConn {
  c_wire : wire T;
  c_table : ChannelTable;
  c_negotiated : Negotiated;
  c_incoming : IncomingQueue;
}.
Arguments mkConn {T}.
Arguments c_wire {T}.
Arguments c_table {T}.
Arguments c_negotiated {T}.
Arguments c_incoming {T}.

Definition set_wire {T} (w : wire T) (c : conn T) : conn T :=
  mkConn w (c_table c) (c_negotiated c) (c_incoming c).
Definition set_table {T} (t : ChannelTable) (c : conn T) : conn T :=
  mkConn (c_wire c) t (c_negotiated c) (c_incoming c).
Definition set_incoming {T} (q : IncomingQueue) (c : conn T) : conn T :=
  mkConn (c_wire c) (c_table c) (c_negotiated c) q.

(** [SelectResult]; [Data] carries the bytes. *)
Inductive SelectResult (I : Type) : Type :=
| SData (b : bytes)
| SInterrupted (val : I).
Arguments SData {I} b.
Arguments SInterrupted {I} val.

Section Connection.
Context {T IoE : Type} `{Transport T IoE}.

Abbreviation cprog := (prog (conn T) (Error IoE)).

Definition on_wire {A} (m : prog (wire T) (Error IoE) A) : cprog A := zoom c_wire set_wire m.

Definition checksum_mode : cprog Checksum := gets (λ c, checksum (c_negotiated c)).

(** [recv_pkt] with the connection's limit. *)
Definition conn_recv : cprog Packet :=
  mp ← gets (λ c, max_payload (n_config (c_negotiated c)));
  on_wire (recv_pkt mp).

Definition conn_send (pkt : Packet) : cprog unit :=
  k ← checksum_mode; on_wire (send_pkt pkt k).

(** [Connection::send_okay]. *)
Definition send_okay (ack : PendingAck) : cprog unit :=
  mode ← gets (λ c, ack_mode (c_negotiated c));
  k ← checksum_mode;
  on_wire (send_okay_to ack mode k).

(** [slot_mut]: a step on the slot [ch] resolves to. *)
Definition with_slot {A} (ch : ChannelId) (f : ChannelSlot → A * ChannelSlot) : cprog A := λ c,
  match table_get ch (c_table c) with
  | None => (Fail Error.ChannelClosed, c)
  | Some s => let '(a, s') := f s in (Ret a, set_table (table_put ch s' (c_table c)) c)
  end.

(** [if let Some(slot) = self.table.get_mut(ch)]: a step where there is a
    slot. *)
Definition if_slot (ch : ChannelId) (f : ChannelSlot → ChannelSlot) : cprog unit := λ c,
  match table_get ch (c_table c) with
  | None => (Ret tt, c)
  | Some s => (Ret tt, set_table (table_put ch (f s) (c_table c)) c)
  end.

(** [Connection::act_on]. *)
Definition act_on (pkt : Packet) : cprog unit :=
  out ← state (λ c, let '(out, t) := dispatch pkt (c_table c) in (out, set_table t c));
  match out with
  | DispatchOutcome.AckWrite _ ack => send_okay ack
  | DispatchOutcome.IncomingOpen remote credit destination =>
      c ← get;
      if table_len (c_table c) <=? len (c_incoming c) then conn_send (packet_refuse remote)
      else modify (λ c, set_incoming (push_back (mkPending remote credit destination)
                                        (c_incoming c)) c)
  | DispatchOutcome.CancelPendingOpen remote =>
      modify (λ c, set_incoming (withdraw remote (c_incoming c)) c)
  | DispatchOutcome.StrayReady ids => conn_send (packet_close ids)
  | DispatchOutcome.ChannelFault _ _ _ fault => fail (fault_error fault)
  | _ => mret tt
  end.

(** [Connection::dispatch]: a connection that is gone is not an error here. *)
Definition conn_dispatch (pkt : Packet) : cprog unit :=
  r ← catch (act_on pkt);
  match r with
  | Err e => if connection_gone e then mret tt else fail e
  | Ok _ => mret tt
  end.

(** [Connection::take_buffered]: the OKAY's failure is not the read's. *)
Definition conn_take_buffered (ch : ChannelId) (want : Z) : cprog (option bytes) :=
  c ← get;
  (if negb (match table_get ch (c_table c) with Some s => has_data s | None => false end)
   then on_wire desync_check else mret tt) ≫= λ _,
  ack ← with_slot ch (settle_take want);
  match ack with
  | Some ack => catch (send_okay ack) ≫= λ _, mret tt
  | None => mret tt
  end ≫= λ _,
  r ← with_slot ch (slot_take_buffered want);
  lift r.

(** ** Reading *)

Section Read.
Context {F I : Type} (poll : F → option I * F).

(** The loop of [recv_data]. *)
Fixpoint recv_data_loop (fuel : nat) (ch : ChannelId) (ids : ChannelIds) (want : Z) (race : bool)
    (f : F) : cprog (SelectResult I) :=
  match fuel with
  | O => out_of_fuel
  | S fuel =>
      mp ← gets (λ c, max_payload (n_config (c_negotiated c)));
      rf ← on_wire (recv_pkt_or poll recv_fuel mp race f);
      match fst rf with
      | RInterrupted val => mret (SInterrupted val)
      | RPacket pkt =>
          let f := snd rf in
          if bool_decide (command pkt = Command.Write) && (arg1 pkt =? local ids)
             && (len (data pkt) <=? want) then
            ack ← state (λ c, match table_get ch (c_table c) with
                              | None => (None, c)
                              | Some s => let '(ack, s') := deliver (len (data pkt)) s in
                                          (ack, set_table (table_put ch s' (c_table c)) c)
                              end);
            match ack with
            | Some ack => catch (send_okay ack) ≫= λ _, mret tt
            | None => mret tt
            end ≫= λ _,
            mret (SData (data pkt))
          else if closed_by ids pkt then
            if_slot ch apply_close ≫= λ _, fail Error.ChannelClosed
          else
            dispatched ← catch (conn_dispatch pkt);
            taken ← catch (conn_take_buffered ch want);
            match taken, dispatched with
            | Ok (Some b), _ => mret (SData b)
            | _, Err e => fail e
            | Err e, _ => fail e
            | Ok None, Ok _ => recv_data_loop fuel ch ids want race f
            end
      end
  end.

(** [Connection::recv_data]. *)
Definition recv_data (fuel : nat) (ch : ChannelId) (want : Z) (race : bool) (f : F) :
    cprog (SelectResult I) :=
  b ← conn_take_buffered ch want;
  match b with
  | Some b => mret (SData b)
  | None =>
      c ← get;
      ids ← lift (table_ids ch (c_table c));
      recv_data_loop fuel ch ids want race f
  end.

(** [Connection::select_channel]. *)
Definition select_channel (fuel : nat) (ch : ChannelId) (want : Z) (f : F) :
    cprog (SelectResult I) :=
  recv_data fuel ch want read_cancel_safe f.
End Read.

(** [Connection::read_channel]. *)
Definition read_channel (fuel : nat) (ch : ChannelId) (want : Z) : cprog bytes :=
  r ← recv_data (I := Empty_set) (λ f : unit, (None, f)) fuel ch want true tt;
  match r with
  | SData b => mret b
  | SInterrupted never => match (never : Empty_set) with end
  end.

(** ** Writing *)

(** [Connection::wait_ack]. *)
Fixpoint wait_ack (fuel : nat) (ch : ChannelId) : cprog unit :=
  match fuel with
  | O => out_of_fuel
  | S fuel =>
      with_slot ch (λ s, ((is_closed s, budget s), s)) ≫= λ x : bool * option Z,
      let '(closed, b) := x in
      if closed then fail Error.ChannelClosed
      else match b with
      | Some _ => mret tt
      | None =>
          c ← get;
          ids ← lift (table_ids ch (c_table c));
          pkt ← conn_recv;
          if bool_decide (command pkt = Command.Ready) && (arg1 pkt =? local ids) then
            r ← state (λ c, match table_get ch (c_table c) with
                            | None => (Ok tt, c)
                            | Some s => match apply_ready (data pkt) s with
                                        | Ok s' => (Ok tt, set_table (table_put ch s' (c_table c)) c)
                                        | Err e => (Err (Error.Protocol e), c)
                                        end
                            end);
            lift r ≫= λ _, wait_ack fuel ch
          else if closed_by ids pkt then
            if_slot ch apply_close ≫= λ _, fail Error.ChannelClosed
          else conn_dispatch pkt ≫= λ _, wait_ack fuel ch
      end
  end.

(** The loop of [write_channel] over what is left of the data.  The
    [debug_assert] is the panic. *)
Fixpoint write_loop (rounds fuel : nat) (ch : ChannelId) (max : Z) (k : Checksum)
    (data : bytes) : cprog unit :=
  match rounds with
  | O => out_of_fuel
  | S rounds =>
      match data with
      | [] => mret tt
      | _ =>
          wait_ack fuel ch ≫= λ _,
          b ← with_slot ch (λ s, (default 0 (budget s), s));
          let n := Z.min (Z.min (len data) max) b in
          if n <=? 0 then panic
          else
            c ← get;
            ids ← lift (table_ids ch (c_table c));
            on_wire (send_raw Command.Write ids (ztake n data) k) ≫= λ _,
            with_slot ch (λ s, (tt, spend n s)) ≫= λ _,
            write_loop rounds fuel ch max k (zdrop n data)
      end
  end.

(** [Connection::write_channel]: every round sends a byte at least. *)
Definition write_channel (fuel : nat) (ch : ChannelId) (data : bytes) : cprog unit :=
  on_wire desync_check ≫= λ _,
  if bool_decide (data = []) then mret tt
  else
    max ← gets (λ c, Z.max (n_max_payload (c_negotiated c)) 1);
    k ← checksum_mode;
    write_loop (S (length data)) fuel ch max k data.

(** ** Opening and closing *)

(** [Connection::await_open_ack].  [insert_opening] panics on an occupied
    slot. *)
Fixpoint await_open_ack (fuel : nat) (ch : ChannelId) : cprog ChannelId :=
  match fuel with
  | O => out_of_fuel
  | S fuel =>
      pkt ← conn_recv;
      if bool_decide (command pkt = Command.Ready) && (arg1 pkt =? ch_local ch) then
        let remote := arg0 pkt in
        state (λ c, match insert_opening ch (c_table c) with
                    | Some t => (true, set_table t c)
                    | None => (false, c)
                    end) ≫= λ inserted : bool,
        if negb inserted then panic
        else
          r ← with_slot ch (λ s, match accept_open_ready remote (data pkt) s with
                                 | Ok s' => (Ok tt, s')
                                 | Err e => (Err e, s)
                                 end);
          match r with
          | Ok _ => mret ch
          | Err e =>
              modify (λ c, set_table (snd (free ch (c_table c))) c) ≫= λ _,
              conn_send (packet_close (mkIds (ch_local ch) remote)) ≫= λ _,
              fail (Error.Protocol e)
          end
      else if bool_decide (command pkt = Command.Close) && (arg1 pkt =? ch_local ch) then
        fail Error.ChannelClosed
      else conn_dispatch pkt ≫= λ _, await_open_ack fuel ch
  end.

(** [Connection::open_channel]. *)
Definition open_channel (fuel : nat) (destination : bytes) : cprog ChannelId :=
  on_wire desync_check ≫= λ _,
  r ← state (λ c, let '(r, t) := allocate (c_table c) in (r, set_table t c));
  ch ← lift (map_err (λ _, Error.NoFreeChannels) r);
  credit ← gets (λ c, default 0 (advertised_credit (c_negotiated c)));
  k ← checksum_mode;
  on_wire (send_open (ch_local ch) credit destination k) ≫= λ _,
  await_open_ack fuel ch.

(** [Connection::close_channel]. *)
Definition close_channel (ch : ChannelId) : cprog unit :=
  on_wire desync_check ≫= λ _,
  c ← get;
  ids ← lift (table_ids ch (c_table c));
  modify (λ c, set_table (snd (free ch (c_table c))) c) ≫= λ _,
  conn_send (packet_close ids).

(** ** Accepting *)

(** [Connection::accept_incoming] up to the request it hands over. *)
Fixpoint accept_loop (fuel : nat) : cprog PendingOpen :=
  match fuel with
  | O => out_of_fuel
  | S fuel =>
      p ← state (λ c, let '(p, q) := pop_front (c_incoming c) in (p, set_incoming q c));
      match p with
      | Some p => mret p
      | None => pkt ← conn_recv; conn_dispatch pkt ≫= λ _, accept_loop fuel
      end
  end.

Definition accept_incoming (fuel : nat) : cprog PendingOpen :=
  on_wire desync_check ≫= λ _, accept_loop fuel.

(** [Connection::try_accept_incoming]. *)
Definition try_accept_incoming (c : conn T) : option PendingOpen * conn T :=
  let '(p, q) := pop_front (c_incoming c) in (p, set_incoming q c).
End Connection.
