(* ===== verification/ConnSteps.v ===== *)
(** * What every call of a connection keeps

    [LocalRel R] and [ConnRel R] list the elementary changes the calls of
    [Connection] make: sends, packets dispatched, slots updated, handles allocated,
    filled and freed, the incoming queue changed, and, in [ConnRel], receives.
    A preorder on connection states that allows each of them is kept by every
    call, however it ends ([steps]).  [Desync] and [Demux] each use it. *)

From S2P Require Import Prelude Errors Protocol Banner Config SendQueue Slot ChannelTable Wire.
From S2P Require Import Connection.

Class LocalRel {T IoE} `{Transport T IoE} (R : conn T → conn T → Prop) : Prop := {
  cr_preorder :: PreOrder R;
  cr_send pkt k : steps R (on_wire (send_pkt pkt k) : prog (conn T) (Error IoE) unit);
  cr_put c ch s s' :
    table_get ch (c_table c) = Some s → sl_local s' = sl_local s →
    R c (set_table (table_put ch s' (c_table c)) c);
  cr_dispatch c pkt : R c (set_table (snd (dispatch pkt (c_table c))) c);
  cr_allocate c : R c (set_table (snd (allocate (c_table c))) c);
  cr_insert c ch t : insert_opening ch (c_table c) = Some t → R c (set_table t c);
  cr_insert_accepted c ch r k t :
    insert_accepted ch r k (c_table c) = Some t → R c (set_table t c);
  cr_free c ch : R c (set_table (snd (free ch (c_table c))) c);
  cr_incoming c q : R c (set_incoming q c);
}.

Class ConnRel {T IoE} `{Transport T IoE} (R : conn T → conn T → Prop) : Prop := {
  cr_local :: LocalRel (IoE := IoE) R;
  cr_recv {F I} (poll : F → option I * F) mp race f :
    steps R (on_wire (recv_pkt_or poll recv_fuel mp race f) : prog (conn T) (Error IoE) _);
}.

Section Local.
Context {T IoE : Type} `{Transport T IoE} (R : conn T → conn T → Prop)
  `{!LocalRel (IoE := IoE) R}.

Abbreviation cprog := (prog (conn T) (Error IoE)).

#[local] Instance local_preorder : PreOrder R := cr_preorder.

Lemma steps_get : steps R (get : cprog _).
Proof. intros c. simpl. reflexivity. Qed.

Lemma steps_zoom_id {A} (m : prog (wire T) (Error IoE) A) :
  (∀ w, snd (m w) = w) → steps R (on_wire m).
Proof.
  intros Hm c. unfold on_wire, zoom. specialize (Hm (c_wire c)).
  destruct (m (c_wire c)) as [o w]. simpl in *. subst. destruct c. simpl. reflexivity.
Qed.

Lemma steps_desync_check : steps R (on_wire desync_check : cprog unit).
Proof. apply steps_zoom_id. intros w. unfold desync_check. by destruct (w_desync w). Qed.

Lemma steps_conn_send pkt : steps R (conn_send pkt : cprog unit).
Proof. unfold conn_send, checksum_mode. eauto using cr_send with steps. Qed.

Lemma steps_send_okay ack : steps R (send_okay ack : cprog unit).
Proof.
  unfold send_okay, checksum_mode, send_okay_to.
  do 2 (sbind; [steps_auto|]; intros ?).
  rewrite send_raw_pkt. apply cr_send.
Qed.

Lemma steps_with_slot {A} ch (f : ChannelSlot → A * ChannelSlot) :
  (∀ s, sl_local (snd (f s)) = sl_local s) → steps R (with_slot ch f : cprog A).
Proof.
  intros Hf c. unfold with_slot. destruct (table_get ch (c_table c)) as [s|] eqn:Hg.
  - specialize (Hf s). destruct (f s) as [a s']. simpl. by eapply cr_put.
  - simpl. reflexivity.
Qed.

Lemma steps_if_slot ch f :
  (∀ s, sl_local (f s) = sl_local s) → steps R (if_slot ch f : cprog unit).
Proof.
  intros Hf c. unfold if_slot. destruct (table_get ch (c_table c)) as [s|] eqn:Hg; simpl.
  - by eapply cr_put.
  - reflexivity.
Qed.

#[local] Hint Resolve steps_get steps_desync_check steps_conn_send
  steps_send_okay : steps.

Lemma steps_act_on pkt : steps R (act_on pkt : cprog unit).
Proof.
  unfold act_on. sbind; [..].
  - apply steps_state. intros c. pose proof (cr_dispatch c pkt) as Hd.
    by destruct (dispatch pkt (c_table c)).
  - intros out. destruct out; steps_auto.
    + sbind; [steps_auto|]. intros c. case_match; steps_auto.
      apply steps_modify. intros. apply cr_incoming.
    + apply steps_modify. intros. apply cr_incoming.
Qed.

Lemma steps_conn_dispatch pkt : steps R (conn_dispatch pkt : cprog unit).
Proof.
  unfold conn_dispatch. sbind; [apply steps_catch, steps_act_on|].
  intros [|e]; [steps_auto|]. destruct (connection_gone e); steps_auto.
Qed.

(** The OKAY of a read, whose failure is ignored. *)
Lemma steps_quiet_okay (o : option PendingAck) :
  steps R (match o with
           | Some ack => catch (send_okay ack) ≫= λ _, mret tt
           | None => mret tt
           end : cprog unit).
Proof.
  destruct o; steps_auto.
Qed.

Lemma settle_take_local want s : sl_local (snd (settle_take want s)) = sl_local s.
Proof. unfold settle_take. by repeat case_match. Qed.

Lemma slot_take_buffered_local {E} want s :
  sl_local (snd (slot_take_buffered (E := E) want s)) = sl_local s.
Proof. unfold slot_take_buffered. by repeat case_match. Qed.

Lemma deliver_local n s : sl_local (snd (deliver n s)) = sl_local s.
Proof. unfold deliver. by repeat case_match. Qed.

Lemma spend_local n s : sl_local (spend n s) = sl_local s.
Proof. unfold spend. by destruct (p_ack _). Qed.

Lemma steps_take_buffered ch want : steps R (conn_take_buffered ch want : cprog _).
Proof.
  unfold conn_take_buffered. sbind; [steps_auto|]. intros c.
  sbind; [case_match; steps_auto|]. intros _.
  sbind; [apply steps_with_slot, settle_take_local|]. intros o.
  sbind; [apply steps_quiet_okay|]. intros _.
  sbind; [apply steps_with_slot, slot_take_buffered_local|].
  steps_auto.
Qed.

End Local.

Section Steps.
Context {T IoE : Type} `{Transport T IoE} (R : conn T → conn T → Prop) `{!ConnRel (IoE := IoE) R}.

Abbreviation cprog := (prog (conn T) (Error IoE)).

#[local] Instance R_preorder : PreOrder R := cr_preorder.

#[local] Hint Resolve steps_get steps_desync_check steps_conn_send steps_send_okay cr_local : steps.

Lemma steps_recv_pkt mp : steps R (on_wire (recv_pkt mp) : cprog _).
Proof.
  intros c. pose proof (cr_recv (λ f : unit, (@None Empty_set, f)) mp true tt c) as Hr.
  unfold on_wire, zoom, recv_pkt in *. unfold mbind, prog_bind.
  destruct (recv_pkt_or _ _ _ _ _ (c_wire c)) as [[[[pkt|[]] []]|e| | |] w']; exact Hr.
Qed.

Lemma steps_conn_recv : steps R (conn_recv : cprog _).
Proof. unfold conn_recv. eauto using steps_recv_pkt with steps. Qed.

#[local] Hint Resolve steps_conn_recv : steps.

Lemma steps_recv_data_loop {F I} (poll : F → option I * F) fuel ch ids want race f :
  steps R (recv_data_loop poll fuel ch ids want race f : cprog _).
Proof.
  revert f. induction fuel as [|fuel IH]; intros f; simpl; [steps_auto|].
  sbind; [steps_auto|]. intros mp.
  sbind; [apply cr_recv|]. intros [[pkt|val] f']; simpl.
  2: steps_auto.
  case_match; [|case_match].
  - sbind.
    + apply steps_state. intros c. destruct (table_get ch (c_table c)) as [s|] eqn:Hg.
      * pose proof (deliver_local (len (data pkt)) s). destruct (deliver _ s). simpl in *.
        by eapply cr_put.
      * simpl. reflexivity.
    + intros o. sbind; [apply (steps_quiet_okay R)|]. steps_auto.
  - sbind; [by apply (steps_if_slot R)|]. steps_auto.
  - sbind; [apply steps_catch, (steps_conn_dispatch R)|]. intros r.
    sbind; [apply steps_catch, (steps_take_buffered R)|]. intros r'.
    destruct r' as [[b|]|e], r as [[]|e']; steps_auto.
Qed.

Lemma steps_recv_data {F I} (poll : F → option I * F) fuel ch want race f :
  steps R (recv_data poll fuel ch want race f : cprog _).
Proof.
  unfold recv_data. sbind; [apply (steps_take_buffered R)|].
  intros [b|]; [steps_auto|]. sbind; [steps_auto|]. intros c.
  sbind; [steps_auto|]. intros ids. apply steps_recv_data_loop.
Qed.

Lemma steps_read_channel fuel ch want : steps R (read_channel fuel ch want : cprog _).
Proof.
  unfold read_channel. sbind; [apply steps_recv_data|].
  intros [b|[]]. steps_auto.
Qed.

Lemma steps_wait_ack fuel ch : steps R (wait_ack fuel ch : cprog unit).
Proof.
  induction fuel as [|fuel IH]; simpl; [steps_auto|].
  sbind; [by apply (steps_with_slot R)|]. intros [[] [b|]];
    [steps_auto..|]. sbind; [steps_auto|]. intros c.
  sbind; [steps_auto|]. intros ids.
  sbind; [steps_auto|]. intros pkt. case_match; [|case_match].
  - sbind.
    + apply steps_state. intros c'. destruct (table_get ch (c_table c')) as [s|] eqn:Hg.
      * destruct (apply_ready (data pkt) s) eqn:Ha; simpl; [|reflexivity].
        eapply cr_put; [done|]. by eapply apply_ready_local.
      * simpl. reflexivity.
    + intros r. sbind; steps_auto.
  - sbind; [by apply (steps_if_slot R)|]. steps_auto.
  - sbind; [apply (steps_conn_dispatch R)|]. steps_auto.
Qed.

Lemma steps_write_loop rounds fuel ch max k data :
  steps R (write_loop rounds fuel ch max k data : cprog unit).
Proof.
  revert data. induction rounds as [|rounds IH]; intros data; simpl; [steps_auto|].
  destruct data as [|b0 data]; [steps_auto|].
  sbind; [apply steps_wait_ack|]. intros _.
  sbind; [by apply (steps_with_slot R)|]. intros b.
  case_match; [steps_auto|]. sbind; [steps_auto|]. intros c.
  sbind; [steps_auto|]. intros ids.
  sbind; [rewrite send_raw_pkt; apply (cr_send (R:=R))|]. intros _.
  sbind; [apply (steps_with_slot R); intros; apply spend_local|].
  intros _. apply IH.
Qed.

Lemma steps_write_channel fuel ch data : steps R (write_channel fuel ch data : cprog unit).
Proof.
  unfold write_channel, checksum_mode. sbind; [steps_auto|]. intros _.
  case_match; [steps_auto|]. do 2 (sbind; [steps_auto|]; intros ?).
  apply steps_write_loop.
Qed.

Lemma steps_await_open_ack fuel ch : steps R (await_open_ack fuel ch : cprog _).
Proof.
  induction fuel as [|fuel IH]; simpl; [steps_auto|].
  sbind; [steps_auto|]. intros pkt. case_match; [|case_match].
  - sbind.
    { apply steps_state. intros c. destruct (insert_opening ch (c_table c)) eqn:Hi; simpl.
      - by eapply cr_insert.
      - reflexivity. }
    intros [|]; simpl; [|steps_auto].
    sbind; [apply (steps_with_slot R)|].
    { intros s. destruct (accept_open_ready _ _ s) eqn:Ha; simpl; [|done].
      by eapply accept_open_ready_local. }
    intros [|e]; [steps_auto|].
    sbind; [apply steps_modify; intros; apply cr_free|]. steps_auto.
  - steps_auto.
  - sbind; [apply (steps_conn_dispatch R)|]. steps_auto.
Qed.

Lemma steps_open_channel fuel destination : steps R (open_channel fuel destination : cprog _).
Proof.
  unfold open_channel, checksum_mode. sbind; [steps_auto|]. intros _.
  sbind.
  { apply steps_state. intros c. pose proof (cr_allocate c). by destruct (allocate (c_table c)). }
  intros r. do 3 (sbind; [steps_auto|]; intros ?).
  sbind; [rewrite send_open_pkt; apply (cr_send (R:=R))|]. intros _. apply steps_await_open_ack.
Qed.

Lemma steps_close_channel ch : steps R (close_channel ch : cprog unit).
Proof.
  unfold close_channel. do 3 (sbind; [steps_auto|]; intros ?).
  sbind; [apply steps_modify; intros; apply cr_free|]. steps_auto.
Qed.

Lemma steps_accept_incoming fuel : steps R (accept_incoming fuel : cprog _).
Proof.
  unfold accept_incoming. sbind; [steps_auto|]. intros _.
  induction fuel as [|fuel IH]; simpl; [steps_auto|]. sbind.
  { apply steps_state. intros c. destruct (pop_front (c_incoming c)). apply cr_incoming. }
  intros [p|]; [steps_auto|]. sbind; [steps_auto|]. intros pkt.
  sbind; [apply (steps_conn_dispatch R)|]. auto.
Qed.
End Steps.
