(* ===== verification/Demux.v ===== *)
(** * Channels share one byte stream

    The packets of a stream are what [decode] finds in it, one after another
    ([all_packets]).  Each channel's share of it is the payloads of the WRTEs
    that carry its local id.  [flows] says how a call moves bytes from the
    stream through the slots to its caller; the theorem of the file is that a
    read on one channel returns the next bytes of that channel's share and
    leaves every other channel's share where it was, however the packets are
    interleaved and however the read ends. *)

From S2P Require Import Prelude Errors Protocol Banner Config SendQueue Slot ChannelTable Wire.
From S2P Require Import Connection ConnSteps.

(** ** The packets of a stream *)

Fixpoint packets (fuel : nat) (mp : Z) (s : bytes) : list Packet :=
  match fuel with
  | O => []
  | S fuel =>
      match decode s mp with
      | (Ok (Some pkt), rest) => pkt :: packets fuel mp rest
      | _ => []
      end
  end.

Definition all_packets (mp : Z) (s : bytes) : list Packet := packets (S (length s)) mp s.

Lemma decode_shorter s mp pkt rest :
  decode s mp = (Ok (Some pkt), rest) → (length rest < length s)%nat.
Proof.
  intros (c & fr & _ & _ & Hfr & ->)%decode_inv. apply len_frame in Hfr.
  unfold len, MESSAGE_SIZE in Hfr. rewrite length_app. lia.
Qed.

Lemma packets_fuel n m mp s :
  (length s < n)%nat → (length s < m)%nat → packets n mp s = packets m mp s.
Proof.
  revert m s. induction n as [|n IH]; intros m s Hn Hm; [lia|]. destruct m as [|m]; [lia|].
  simpl. destruct (decode s mp) as [[[pkt|]|e] rest] eqn:Hd; try done.
  apply decode_shorter in Hd. f_equal. apply IH; lia.
Qed.

Lemma all_packets_cons mp s pkt rest :
  decode s mp = (Ok (Some pkt), rest) → all_packets mp s = pkt :: all_packets mp rest.
Proof.
  intros Hd. unfold all_packets. transitivity (pkt :: packets (length s) mp rest).
  - simpl. by rewrite Hd.
  - f_equal. apply decode_shorter in Hd. apply packets_fuel; lia.
Qed.

(** The bytes of [ps] for local id [l]. *)
Definition share (l : Z) (ps : list Packet) : bytes :=
  concat (data <$> filter (λ p, command p = Command.Write ∧ arg1 p = l) ps).

Lemma share_app l ps qs : share l (ps ++ qs) = share l ps ++ share l qs.
Proof. unfold share. by rewrite filter_app, fmap_app, concat_app. Qed.

Lemma share_nil l : share l [] = [].
Proof. done. Qed.

Lemma share_write l p :
  command p = Command.Write → arg1 p = l → share l [p] = data p.
Proof. intros. unfold share. rewrite filter_cons_True by done. apply app_nil_r. Qed.

Lemma share_other l p :
  ¬ (command p = Command.Write ∧ arg1 p = l) → share l [p] = [].
Proof. intros. unfold share. by rewrite filter_cons_False. Qed.

(** ** Connections *)

Section Demux.
Context {T IoE : Type} `{TransportLaws T IoE}.
Implicit Types c : conn T.
Implicit Types ch : ChannelId.

Definition mp_of c : Z := max_payload (n_config (c_negotiated c)).

(** The packets still in the stream. *)
Definition coming c : list Packet := all_packets (mp_of c) (stream (c_wire c)).

(** A slot that knows its remote id does not forget it. *)
Definition keeps_remote (s s' : ChannelSlot) : Prop :=
  is_Some (sl_remote s) → is_Some (sl_remote s').

Lemma keeps_remote_refl s : keeps_remote s s.
Proof. unfold keeps_remote. auto. Qed.

#[local] Hint Resolve keeps_remote_refl : core.

(** Live channels have distinct ids and none has failed: a connection that is
    not split never fails a channel. *)
Definition conn_ok c : Prop :=
  unique_locals (c_table c) ∧
  ∀ i s, t_slots (c_table c) !! i = Some (Some s) → sl_failed s = None.

(** From [c], with [ps] received and not yet acted on, to [c'] with [ps']:
    every channel's unread bytes are those it had, less those handed over. *)
Definition flows (ps : list Packet) c (got : ChannelId → bytes) (ps' : list Packet) c' : Prop :=
  conn_ok c → conn_ok c' ∧ c_negotiated c' = c_negotiated c ∧
  ∀ ch s, table_get ch (c_table c) = Some s →
    ∃ s', table_get ch (c_table c') = Some s' ∧ keeps_remote s s' ∧
      sl_rx_buf s ++ share (ch_local ch) (ps ++ coming c)
      = got ch ++ sl_rx_buf s' ++ share (ch_local ch) (ps' ++ coming c').

Definition nothing (ch : ChannelId) : bytes := [].
Definition only (ch : ChannelId) (b : bytes) (ch' : ChannelId) : bytes :=
  if decide (ch' = ch) then b else [].

Lemma flows_refl ps c : flows ps c nothing ps c.
Proof. intros Hok. split; [done|]. split; [done|]. intros ch s Hs. by exists s. Qed.

Lemma flows_trans ps1 c1 ps2 c2 got ps3 c3 :
  flows ps1 c1 nothing ps2 c2 → flows ps2 c2 got ps3 c3 → flows ps1 c1 got ps3 c3.
Proof.
  intros H12 H23 Hok. destruct (H12 Hok) as (Hok2 & Hn2 & Hrx2).
  destruct (H23 Hok2) as (Hok3 & Hn3 & Hrx3). split; [done|]. split; [congruence|].
  intros ch s Hs. destruct (Hrx2 _ _ Hs) as (s2 & Hs2 & Hk2 & ->).
  destruct (Hrx3 _ _ Hs2) as (s3 & Hs3 & Hk3 & Heq). exists s3. split; [done|].
  split; [unfold keeps_remote in *; auto|]. exact Heq.
Qed.

(** Changes that leave the table and the stream alone. *)
Lemma flows_same ps c c' :
  c_table c' = c_table c → c_negotiated c' = c_negotiated c →
  stream (c_wire c') = stream (c_wire c) → flows ps c nothing ps c'.
Proof.
  intros Ht Hn Hs Hok. unfold conn_ok, coming, mp_of in *. rewrite Ht, Hn, Hs.
  split; [done|]. split; [done|]. intros ch s Hg. by exists s.
Qed.

(** *** Slot updates *)

Lemma table_get_put ch s s0 t ch' :
  table_get ch t = Some s0 → sl_local s = sl_local s0 →
  table_get ch' (table_put ch s t) =
  if decide (ch' = ch) then Some s else table_get ch' t.
Proof.
  intros [Hi Hl]%table_get_some Hloc. unfold table_get, table_put. simpl.
  destruct (decide (ch_slot ch' = ch_slot ch)) as [Hs|Hs].
  - rewrite Hs, list_lookup_insert_eq by (by eapply lookup_lt_Some). rewrite Hi, Hloc, Hl.
    destruct (Z.eqb_spec (ch_local ch) (ch_local ch')) as [He|He].
    + rewrite decide_True; [done|]. destruct ch, ch'. simpl in *. congruence.
    + by rewrite decide_False by congruence.
  - rewrite list_lookup_insert_ne by done. rewrite decide_False by congruence. done.
Qed.

Lemma conn_ok_put c ch s s0 :
  conn_ok c → table_get ch (c_table c) = Some s0 →
  sl_local s = sl_local s0 → sl_failed s = sl_failed s0 →
  conn_ok (set_table (table_put ch s (c_table c)) c).
Proof.
  intros [Hu Hf] [Hi Hl]%table_get_some Hloc Hfail.
  assert (∀ j s2, t_slots (table_put ch s (c_table c)) !! j = Some (Some s2) →
    ∃ s1, t_slots (c_table c) !! j = Some (Some s1) ∧ sl_local s1 = sl_local s2 ∧
          sl_failed s1 = sl_failed s2) as Hback.
  { intros j s2. simpl. destruct (decide (j = ch_slot ch)) as [->|Hne].
    - rewrite list_lookup_insert_eq by (by eapply lookup_lt_Some). intros [= <-]. eauto.
    - rewrite list_lookup_insert_ne by done. eauto. }
  split.
  - intros i j s1 s2 (s1' & Hi1 & <- & _)%Hback (s2' & Hi2 & <- & _)%Hback. by apply Hu.
  - intros i s1 (s1' & Hi1 & _ & <-)%Hback. by eapply Hf.
Qed.

(** Two live handles with one local id are one handle. *)
Lemma same_local c ch ch' s s' :
  conn_ok c → table_get ch (c_table c) = Some s → table_get ch' (c_table c) = Some s' →
  ch_local ch = ch_local ch' → ch = ch'.
Proof.
  intros [Hu _] [Hi Hl]%table_get_some [Hi' Hl']%table_get_some Heq.
  assert (ch_slot ch = ch_slot ch') by (eapply Hu; [done|done|congruence]).
  destruct ch, ch'. simpl in *. congruence.
Qed.

(** Replacing one slot, handing [b] of its buffer to the caller. *)
Lemma flows_put c ch s s0 b :
  table_get ch (c_table c) = Some s0 → sl_local s = sl_local s0 → sl_failed s = sl_failed s0 →
  keeps_remote s0 s → sl_rx_buf s0 = b ++ sl_rx_buf s →
  flows [] c (only ch b) [] (set_table (table_put ch s (c_table c)) c).
Proof.
  intros Hg Hloc Hfail Hk Hrx Hok. split; [by eapply conn_ok_put|]. split; [done|].
  intros ch' s' Hs'. unfold only. simpl. rewrite (table_get_put _ _ _ _ _ Hg Hloc).
  destruct (decide (ch' = ch)) as [->|Hne]; simpl.
  - simplify_eq. exists s. split; [done|]. split; [done|].
    unfold coming, mp_of. simpl. by rewrite Hrx, <- app_assoc.
  - by exists s'.
Qed.

(** *** Dispatched packets *)

Definition overflowed (out : DispatchOutcome) : Prop :=
  ∃ idx ids opening, out = DispatchOutcome.ChannelFault idx ids opening ChannelFault.RxOverflow.

Lemma overflowed_dec out : overflowed out ∨ ¬ overflowed out.
Proof.
  destruct out as [| | | | | | |idx ids op [|e]|]; try (right; by intros (? & ? & ? & ?)).
  left. by do 3 eexists.
Qed.

Lemma apply_write_rx p s d s' :
  apply_write p s = Ok (d, s') → sl_rx_buf s' = sl_rx_buf s ++ p ∧ sl_failed s' = sl_failed s.
Proof.
  unfold apply_write, push_rx. destruct (_ <? _); bind_simpl; [done|]. cbv zeta.
  destruct (negb _ && _); [|by intros [= <- <-]].
  destruct (slot_ack _ _); by intros [= <- <-].
Qed.

Lemma apply_ready_rx p s s' :
  apply_ready p s = Ok s' → sl_rx_buf s' = sl_rx_buf s ∧ sl_failed s' = sl_failed s.
Proof.
  unfold apply_ready. destruct (p_ack _); [by intros [= <-]|].
  destruct (parse_ready_credit p); [by intros [= <-]|done].
Qed.

Lemma accept_open_ready_rx r p s s' :
  accept_open_ready r p s = Ok s' → sl_rx_buf s' = sl_rx_buf s ∧ sl_failed s' = sl_failed s.
Proof.
  unfold accept_open_ready. destruct (is_delayed s); [|by intros [= <-]].
  destruct (parse_ready_credit p); [by intros [= <-]|done].
Qed.

Lemma apply_write_remote p s d s' : apply_write p s = Ok (d, s') → sl_remote s' = sl_remote s.
Proof.
  unfold apply_write, push_rx. destruct (_ <? _); bind_simpl; [done|]. cbv zeta.
  destruct (negb _ && _); [|by intros [= <- <-]].
  destruct (slot_ack _ _); by intros [= <- <-].
Qed.

Lemma apply_ready_remote p s s' : apply_ready p s = Ok s' → sl_remote s' = sl_remote s.
Proof.
  unfold apply_ready. destruct (p_ack _); [by intros [= <-]|].
  destruct (parse_ready_credit p); [by intros [= <-]|done].
Qed.

Lemma accept_open_ready_remote r p s s' :
  accept_open_ready r p s = Ok s' → sl_remote s' = Some r.
Proof.
  unfold accept_open_ready. destruct (is_delayed s); [|by intros [= <-]].
  destruct (parse_ready_credit p); [by intros [= <-]|done].
Qed.

Lemma dispatch_slot_remote idx pkt s out s' :
  dispatch_slot idx pkt s = Some (out, s') → keeps_remote s s'.
Proof.
  unfold dispatch_slot, keeps_remote. intros Hd.
  destruct (command pkt); try done; (destruct (_ =? _); simpl in Hd; [|done]).
  - destruct (is_failed s); [by simplify_eq|]. destruct (bool_decide _).
    + destruct (accept_open_ready _ _ s) eqn:Hr; simplify_eq; [|done].
      rewrite (accept_open_ready_remote _ _ _ _ Hr). eauto.
    + destruct (apply_ready _ s) eqn:Hr; simplify_eq; [|done].
      by rewrite (apply_ready_remote _ _ _ Hr).
  - by simplify_eq.
  - destruct (is_failed s); [by simplify_eq|].
    destruct (apply_write _ s) as [[[] ?]|] eqn:Hw; simplify_eq; [..|done];
      by rewrite (apply_write_remote _ _ _ _ Hw).
Qed.

Lemma dispatch_slot_rx idx pkt s out s' :
  dispatch_slot idx pkt s = Some (out, s') → sl_failed s = None → ¬ overflowed out →
  sl_rx_buf s' = sl_rx_buf s ++ share (sl_local s) [pkt] ∧ sl_failed s' = sl_failed s.
Proof.
  intros Hd Hf Ho. pose proof (dispatch_slot_some _ _ _ _ _ Hd) as (Ha & _ & Hfor).
  unfold dispatch_slot, is_failed in Hd. rewrite Hf, Ha, Z.eqb_refl in Hd. simpl in Hd.
  destruct Hfor as [Hc|[Hc|Hc]]; rewrite Hc in Hd.
  - rewrite share_write by done.
    destruct (apply_write (data pkt) s) as [[[] ?]|] eqn:Hw; simplify_eq;
      [by eapply apply_write_rx..|].
    exfalso. apply Ho. by do 3 eexists.
  - rewrite share_other, app_nil_r by (intros [? _]; congruence).
    destruct (bool_decide _).
    + destruct (accept_open_ready _ _ s) eqn:Hr; simplify_eq; [|done].
      by eapply accept_open_ready_rx.
    + destruct (apply_ready _ s) eqn:Hr; simplify_eq; [|done]. by eapply apply_ready_rx.
  - simplify_eq. rewrite share_other, app_nil_r by (intros [? _]; congruence). done.
Qed.

(** Every occupied slot gains its share of the packet and nothing else. *)
Lemma dispatch_rx pkt t out t' :
  unique_locals t → (∀ i s, t_slots t !! i = Some (Some s) → sl_failed s = None) →
  dispatch pkt t = (out, t') → ¬ overflowed out →
  ∀ i s, t_slots t !! i = Some (Some s) →
    ∃ s', t_slots t' !! i = Some (Some s') ∧ sl_local s' = sl_local s ∧ keeps_remote s s' ∧
      sl_failed s' = None ∧ sl_rx_buf s' = sl_rx_buf s ++ share (sl_local s) [pkt].
Proof.
  intros Hu Hf Hd Ho i s Hi.
  destruct (decide (command pkt = Command.Write ∧ arg1 pkt = sl_local s)) as [[Hc Ha]|Hno].
  - assert (dispatch_loop 0 pkt (t_slots t) ≠ None) as Hl.
    { intros Hn. destruct (dispatch_slot_ours i pkt s) as [x Hx]; [by left|done|].
      pose proof (dispatch_loop_none _ _ _ Hn i s Hi) as Hn'. simpl in Hn'. congruence. }
    unfold dispatch in Hd. rewrite Hc in Hd. simpl in Hd.
    destruct (dispatch_loop 0 pkt (t_slots t)) as [[o sl]|] eqn:Hloop; [|done]. simplify_eq.
    apply dispatch_loop_some in Hloop as (j & s2 & s' & Hj & Hs & ->). simpl in Hs.
    pose proof (dispatch_slot_some _ _ _ _ _ Hs) as (Ha2 & Hl2 & _).
    assert (i = j) as <- by (eapply Hu; [done|done|congruence]). simplify_eq.
    destruct (dispatch_slot_rx _ _ _ _ _ Hs (Hf _ _ Hj) Ho) as [Hrx Hfl].
    exists s'. split; [simpl; apply list_lookup_insert_eq; by eapply lookup_lt_Some|].
    split; [done|]. split; [by eapply dispatch_slot_remote|]. split; [|done].
    rewrite Hfl. eauto.
  - rewrite (share_other _ _ Hno), app_nil_r.
    apply dispatch_spec in Hd as [->|(j & s2 & s' & Hj & Hl & -> & Hwhy)]; [by exists s; unfold keeps_remote; eauto 8|].
    simpl. destruct (decide (i = j)) as [->|Hne].
    2: { rewrite list_lookup_insert_ne by done. exists s. unfold keeps_remote. eauto 8. }
    simplify_eq. exists s'. split; [apply list_lookup_insert_eq; by eapply lookup_lt_Some|].
    split; [done|].
    destruct Hwhy as [(_ & Ha & Hs)|(_ & _ & _ & _ & -> & _)].
    + destruct (dispatch_slot_rx _ _ _ _ _ Hs (Hf _ _ Hj) Ho) as [Hrx Hfl].
      rewrite (share_other _ _ Hno), app_nil_r in Hrx.
      split; [by eapply dispatch_slot_remote|]. split; [|done]. rewrite Hfl. eauto.
    + split; [unfold keeps_remote; simpl; auto|]. split; [|done]. simpl. eauto.
Qed.

Lemma dispatch_slots_back pkt t out t' i s' :
  dispatch pkt t = (out, t') → t_slots t' !! i = Some (Some s') →
  ∃ s, t_slots t !! i = Some (Some s) ∧ sl_local s' = sl_local s.
Proof.
  intros [->|(j & s & s2 & Hj & Hl & -> & _)]%dispatch_spec; [by eauto|]. simpl.
  destruct (decide (i = j)) as [->|Hne].
  - rewrite list_lookup_insert_eq by (by eapply lookup_lt_Some). intros [= <-]. eauto.
  - rewrite list_lookup_insert_ne by done. eauto.
Qed.

Lemma flows_dispatch pkt c out t' :
  dispatch pkt (c_table c) = (out, t') → ¬ overflowed out →
  flows [pkt] c nothing [] (set_table t' c).
Proof.
  intros Hd Ho Hok. destruct Hok as [Hu Hf].
  pose proof (dispatch_rx _ _ _ _ Hu Hf Hd Ho) as Hrx. split; [|split; [done|]].
  - split; simpl.
    + intros i j s1 s2 Hi Hj Heq.
      destruct (dispatch_slots_back _ _ _ _ _ _ Hd Hi) as (s1' & Hi' & Hl1).
      destruct (dispatch_slots_back _ _ _ _ _ _ Hd Hj) as (s2' & Hj' & Hl2).
      eapply Hu; [done|done|congruence].
    + intros i s' Hi. destruct (dispatch_slots_back _ _ _ _ _ _ Hd Hi) as (s & Hi' & _).
      destruct (Hrx _ _ Hi') as (s2 & Hi2 & _ & _ & Hf2 & _). congruence.
  - intros ch s [Hi Hl]%table_get_some.
    destruct (Hrx _ _ Hi) as (s' & Hi' & Hl' & Hk & _ & Hr').
    exists s'. split; [|split; [done|]].
    + apply table_get_some. split; [done|congruence].
    + rewrite Hr', Hl, <- app_assoc. unfold nothing. cbn [app].
      by rewrite <- (share_app _ [pkt]).
Qed.

(** *** The calls *)

Abbreviation cprog := (prog (conn T) (Error IoE)).

Lemma wp_on_wire {A} (m : prog (wire T) (Error IoE) A) Q c :
  wp m (λ o w', Q o (set_wire w' c)) (c_wire c) → wp (on_wire m) Q c.
Proof. apply wp_zoom. Qed.

(** Neither out of fuel nor a panic. *)
Definition ends {A} (o : outcome (Error IoE) A) : Prop := o ≠ NoFuel ∧ o ≠ Panicked.

(** A send moves nothing between the stream, the slots and the caller. *)
Lemma send_flows pkt k c :
  wp (on_wire (send_pkt pkt k)) (λ o c',
    ends o ∧ c_table c' = c_table c ∧ ∀ ps, flows ps c nothing ps c') c.
Proof.
  apply wp_on_wire. eapply wp_mono; [apply send_pkt_spec|]. intros o w' Hs.
  assert (stream w' = stream (c_wire c) ∧ ends o) as [Hst He].
  { unfold send_contract, ends in *. destruct (w_desync (c_wire c)); [by destruct Hs as [-> ->]|].
    destruct (frame k pkt); [|by destruct Hs as [-> ->]].
    destruct Hs as (H1 & H2' & _ & Ho). unfold stream. rewrite H1, H2'. by destruct o. }
  split; [done|]. split; [done|]. intros ps. by apply flows_same.
Qed.

Lemma conn_send_flows pkt c :
  wp (conn_send pkt : cprog unit) (λ o c',
    ends o ∧ c_table c' = c_table c ∧ ∀ ps, flows ps c nothing ps c') c.
Proof. unfold conn_send, checksum_mode. apply wp_bind, wp_gets, send_flows. Qed.

Lemma send_okay_flows ack c :
  wp (send_okay ack : cprog unit) (λ o c',
    ends o ∧ c_table c' = c_table c ∧ ∀ ps, flows ps c nothing ps c') c.
Proof.
  unfold send_okay, checksum_mode, send_okay_to.
  apply wp_bind, wp_gets, wp_bind, wp_gets. rewrite send_raw_pkt. apply send_flows.
Qed.

(** The errors that name a packet the connection dropped. *)
Definition lossy (e : Error IoE) : Prop := e = Error.ChannelRxOverflow ∨ ∃ p, e = Error.Protocol p.

(** How a call on [ps] received packets ends: [got] is what a return hands
    over; a failure that is not lossy hands over nothing and loses nothing,
    and neither does a drop, on a transport whose reads can be dropped, unless
    it tore a packet and with it the connection. *)
Definition tracked {A} (ps : list Packet) c (got : A → ChannelId → bytes)
    (o : outcome (Error IoE) A) c' : Prop :=
  match o with
  | Ret a => flows ps c (got a) [] c'
  | Fail e => lossy e ∨ flows ps c nothing [] c'
  | Dropped =>
      read_cancel_safe = true → w_desync (c_wire c') = true ∨ flows ps c nothing [] c'
  | Panicked | NoFuel => False
  end.

Lemma tracked_trans {A} ps1 c1 ps2 c2 (got : A → ChannelId → bytes) o c3 :
  flows ps1 c1 nothing ps2 c2 → tracked ps2 c2 got o c3 → tracked ps1 c1 got o c3.
Proof.
  intros Hf. unfold tracked. destruct o; try done.
  - intros Hf'. by eapply flows_trans.
  - intros [?|Hf']; [by left|]. right. by eapply flows_trans.
  - intros Hf' Hs. destruct (Hf' Hs); [by left|]. right. by eapply flows_trans.
Qed.

Lemma sent_tracked ps c c1 o c2 :
  flows ps c nothing [] c1 →
  ends o ∧ c_table c2 = c_table c1 ∧ (∀ qs, flows qs c1 nothing qs c2) →
  tracked ps c (λ _ : unit, nothing) o c2.
Proof.
  intros Hf ((Hn & Hp) & _ & Hs). unfold tracked.
  destruct o; [|right|intros _; right|by destruct Hp|by destruct Hn]; eapply flows_trans; eauto.
Qed.

(** How acting on a packet ends: a lossy failure leaves the connection as it
    was, anything else has passed the packet on. *)
Definition acted pkt c (o : outcome (Error IoE) unit) c' : Prop :=
  match o with
  | Fail e => (lossy e ∧ c' = c) ∨ flows [pkt] c nothing [] c'
  | o => tracked [pkt] c (λ _, nothing) o c'
  end.

Lemma sent_acted pkt c c1 o c2 :
  flows [pkt] c nothing [] c1 →
  ends o ∧ c_table c2 = c_table c1 ∧ (∀ qs, flows qs c1 nothing qs c2) → acted pkt c o c2.
Proof.
  intros Hf Hs. pose proof (sent_tracked _ _ _ _ _ Hf Hs) as Ht. unfold acted.
  destruct o; [done| |done..]. right. destruct Hs as (_ & _ & Hs). eapply flows_trans; eauto.
Qed.

(** A fault leaves the table as it was. *)
Lemma dispatch_fault pkt t idx ids op f t' :
  dispatch pkt t = (DispatchOutcome.ChannelFault idx ids op f, t') → t' = t.
Proof.
  intros [->|(i & s & s' & Hi & _ & -> & Hwhy)]%dispatch_spec; [done|].
  assert (s' = s) as ->.
  { destruct Hwhy as [(_ & _ & Hs)|(_ & _ & _ & _ & _ & ?)]; [|done].
    revert Hs. unfold dispatch_slot.
    destruct (command pkt); try done; (destruct (_ =? _); simpl; [|done]).
    - destruct (is_failed s); [done|]. destruct (bool_decide _).
      + destruct (accept_open_ready _ _ s); [done|]. by intros [= _ _ _ _ <-].
      + destruct (apply_ready _ s); [done|]. by intros [= _ _ _ _ <-].
    - done.
    - destruct (is_failed s); [done|]. destruct (apply_write _ s) as [[[] ?]|]; [done..|].
      by intros [= _ _ _ _ <-]. }
  destruct t. unfold set_slots. simpl in *. by rewrite list_insert_id.
Qed.

Lemma act_on_acted pkt c : wp (act_on pkt : cprog unit) (acted pkt c) c.
Proof.
  unfold act_on. apply wp_bind, wp_state.
  destruct (dispatch pkt (c_table c)) as [out t'] eqn:Hd. cbn [fst snd].
  destruct (overflowed_dec out) as [(idx & ids & op & ->)|Ho].
  { apply dispatch_fault in Hd as ->. left. split; [by left|]. by destruct c. }
  pose proof (flows_dispatch _ _ _ _ Hd Ho) as Hf.
  destruct out as [idx ack| | | |r k d|r|ids|idx ids op [|e]|]; try done.
  - eapply wp_mono; [apply send_okay_flows|]. intros o c'. by apply sent_acted.
  - apply wp_bind. unfold wp at 1. simpl.
    destruct (_ <=? _).
    + eapply wp_mono; [apply conn_send_flows|]. intros o c'. by apply sent_acted.
    + apply wp_modify. simpl. eapply flows_trans; [exact Hf|]. by apply flows_same.
  - eapply wp_mono; [apply conn_send_flows|]. intros o c'. by apply sent_acted.
  - destruct Ho. by do 3 eexists.
  - right. exact Hf.
Qed.

Lemma conn_dispatch_acted pkt c : wp (conn_dispatch pkt : cprog unit) (acted pkt c) c.
Proof.
  unfold conn_dispatch. apply wp_bind, wp_catch. eapply wp_mono; [apply act_on_acted|].
  intros o c' Ht. destruct o as [[]|e| | |]; try done.
  destruct (connection_gone e) eqn:Hg; [|exact Ht]. simpl in Ht.
  destruct Ht as [[[->|[p ->]] _]|Hf]; [done..|]. exact Hf.
Qed.

(** *** Reading *)

(** The OKAY of a read: it returns or tears the connection. *)
Lemma quiet_okay_flows (o : option PendingAck) c :
  wp (match o with
      | Some ack => catch (send_okay ack) ≫= λ _, mret tt
      | None => mret tt
      end : cprog unit) (λ o c', c_table c' = c_table c ∧ flows [] c nothing [] c' ∧
        (o = Ret tt ∨ o = Dropped ∧ w_desync (c_wire c') = true)) c.
Proof.
  destruct o as [ack|].
  2: { split; [done|]. split; [apply flows_refl|by left]. }
  apply wp_bind, wp_catch. unfold wp.
  pose proof (send_okay_flows ack c) as Hs. unfold wp in Hs.
  destruct Hs as ((Hn & Hp) & Ht & Hf).
  assert (fst (send_okay ack c) = Dropped → w_desync (c_wire (snd (send_okay ack c))) = true) as Hd.
  { unfold send_okay, checksum_mode, send_okay_to, mbind, prog_bind, gets, on_wire, zoom.
    rewrite send_raw_pkt.
    pose proof (send_pkt_spec (mkPacket Command.Ready (local (ack_ids ack)) (remote (ack_ids ack))
      match ack_mode (c_negotiated c) with
      | AckMode.Classic => []
      | AckMode.Delayed => u32_le (wrap_u32 (ack_len_of ack))
      end) (checksum (c_negotiated c)) (c_wire c)) as Hc. unfold wp, send_contract in Hc.
    destruct (send_pkt _ _ (c_wire c)) as [o w']. simpl in *. intros ->.
    destruct (w_desync (c_wire c)); [by destruct Hc|].
    destruct (frame _ _); [by destruct Hc as (_ & _ & _ & ?)|by destruct Hc]. }
  destruct (send_okay ack c) as [o c']. simpl in *.
  destruct o as [[]|e| | |]; [..|by destruct Hp|by destruct Hn];
    (split; [done|]); (split; [apply Hf|auto]).
Qed.
(** A slot step of a live channel, as a program. *)
Lemma wp_with_slot {A} ch (f : ChannelSlot → A * ChannelSlot) Q c :
  match table_get ch (c_table c) with
  | None => Q (Fail Error.ChannelClosed) c
  | Some s => Q (Ret (fst (f s))) (set_table (table_put ch (snd (f s)) (c_table c)) c)
  end → wp (with_slot ch f : cprog A) Q c.
Proof.
  unfold wp, with_slot. destruct (table_get ch (c_table c)) as [s|]; [|done].
  by destruct (f s).
Qed.

Lemma settle_take_same want s :
  let s' := snd (settle_take want s) in
  sl_rx_buf s' = sl_rx_buf s ∧ sl_failed s' = sl_failed s ∧ sl_remote s' = sl_remote s.
Proof. unfold settle_take. by repeat case_match. Qed.

Lemma slot_take_buffered_same want s :
  let '(r, s') := slot_take_buffered (E := IoE) want s in
  sl_failed s' = sl_failed s ∧ sl_remote s' = sl_remote s ∧
  match r with
  | Ok (Some b) => sl_rx_buf s = b ++ sl_rx_buf s' ∧ has_data s = true
  | Ok None => s' = s ∧ has_data s = false
  | Err e => s' = s ∧ has_data s = false ∧ e = closed_error s
  end.
Proof.
  unfold slot_take_buffered. destruct (has_data s); simpl.
  - by rewrite ztake_zdrop.
  - by destruct (is_closed s).
Qed.

(** What [take_buffered] hands over; with nothing there, the buffer of a
    channel that knows its remote id is empty. *)
Definition took ch (o : option bytes) : ChannelId → bytes :=
  match o with Some b => only ch b | None => nothing end.

Definition drained ch c : Prop :=
  ∃ s, table_get ch (c_table c) = Some s ∧ (is_Some (sl_remote s) → sl_rx_buf s = []).

Lemma flows_weaken ps c ch ps' c' : flows ps c (only ch []) ps' c' → flows ps c nothing ps' c'.
Proof.
  intros Hf Hok. destruct (Hf Hok) as (Hok' & Hn & Hs). split; [done|]. split; [done|].
  intros ch' s Hg. destruct (Hs ch' s Hg) as (s' & ? & ? & Heq). exists s'.
  split; [done|]. split; [done|]. revert Heq. unfold only, nothing. by destruct (decide _).
Qed.

(** How [take_buffered] ends: a failure moves nothing, and only its OKAY can
    be dropped. *)
Definition taken_by ch c (o : outcome (Error IoE) (option bytes)) c' : Prop :=
  match o with
  | Ret a => flows [] c (took ch a) [] c'
  | Fail _ => flows [] c nothing [] c'
  | Dropped => w_desync (c_wire c') = true
  | Panicked | NoFuel => False
  end.

Lemma taken_tracked ch c o c' : taken_by ch c o c' → tracked [] c (took ch) o c'.
Proof. destruct o; simpl; auto. Qed.

Lemma take_tracked ch want c :
  wp (conn_take_buffered ch want : cprog _) (λ o c',
    taken_by ch c o c' ∧ (o = Ret None → drained ch c') ∧
    (∀ b, o = Ret (Some b) → ∃ s, table_get ch (c_table c) = Some s ∧ sl_rx_buf s ≠ [])) c.
Proof.
  unfold conn_take_buffered. apply wp_bind. unfold wp at 1. simpl.
  apply wp_bind.
  assert (∀ (Q : outcome (Error IoE) unit → conn T → Prop),
    Q (Ret tt) c → Q (Fail Error.Desynchronized) c →
    wp ((if negb match table_get ch (c_table c) with Some s => has_data s | None => false end
         then on_wire desync_check else mret tt) : cprog unit) Q c) as Hcheck.
  { intros Q H1 H2'. destruct (negb _); [|done]. apply wp_on_wire. unfold wp, desync_check.
    destruct c as [w t n q]. simpl in *. destruct (w_desync w) eqn:Hd; simpl; done. }
  apply Hcheck; [|by split; [apply flows_refl|]].
  apply wp_bind, wp_with_slot.
  destruct (table_get ch (c_table c)) as [s|] eqn:Hg; [|by split; [apply flows_refl|]].
  destruct (settle_take_same want s) as (Hrx & Hfl & Hre).
  pose proof (settle_take_local want s) as Hloc.
  set (c1 := set_table (table_put ch (snd (settle_take want s)) (c_table c)) c).
  assert (flows [] c nothing [] c1) as Hf1.
  { eapply flows_weaken, (flows_put c ch _ s []); try done. unfold keeps_remote. by rewrite Hre. }
  assert (table_get ch (c_table c1) = Some (snd (settle_take want s))) as Hg1.
  { unfold c1. simpl. rewrite (table_get_put _ _ _ _ _ Hg Hloc). by rewrite decide_True. }
  clearbody c1.
  apply wp_bind. eapply wp_mono; [apply quiet_okay_flows|]. intros o c2 (Ht2 & Hf2 & Hok).
  pose proof (flows_trans _ _ _ _ _ _ _ Hf1 Hf2) as Hf3. clear Hf1 Hf2.
  destruct Hok as [->|[-> Hdes]]; [|by split].
  apply wp_bind, wp_with_slot. rewrite Ht2, Hg1.
  pose proof (slot_take_buffered_same want (snd (settle_take want s))) as Htake.
  pose proof (slot_take_buffered_local (E := IoE) want (snd (settle_take want s))) as Hloc2.
  destruct (slot_take_buffered want (snd (settle_take want s))) as [r s2]. cbn [fst snd] in *.
  destruct Htake as (Hfl2 & Hre2 & Hr).
  assert (∀ b, sl_rx_buf (snd (settle_take want s)) = b ++ sl_rx_buf s2 →
    flows [] c (only ch b) [] (set_table (table_put ch s2 (c_table c2)) c2)) as Hput.
  { intros b Hb. eapply flows_trans; [exact Hf3|]. rewrite <- Ht2 in Hg1.
    eapply flows_put; try done. unfold keeps_remote. by rewrite Hre2. }
  rewrite <- Ht2 in *. apply wp_lift. destruct r as [[b|]|e].
  - destruct Hr as [Hr Hh]. split; [by apply Hput|]. split; [done|].
    intros b' _. exists s. split; [done|]. rewrite <- Hrx. unfold has_data in Hh. by bool_facts.
  - destruct Hr as [-> Hh]. split; [by eapply flows_weaken, Hput|]. split; [|done]. intros _.
    exists (snd (settle_take want s)).
    split; [simpl; rewrite (table_get_put _ _ _ _ _ Hg1 eq_refl); by rewrite decide_True|].
    intros Hrem. unfold has_data in Hh. rewrite bool_decide_true in Hh by done.
    simpl in Hh. by bool_facts.
  - destruct Hr as (-> & _ & _). by split; [eapply flows_weaken, Hput|].
Qed.

(** *** Receiving *)

(** What does not receive leaves the stream alone. *)
Definition same_stream c c' : Prop :=
  stream (c_wire c') = stream (c_wire c) ∧ c_negotiated c' = c_negotiated c.

#[export] Instance same_stream_rel : LocalRel (IoE := IoE) same_stream.
Proof.
  split; try done.
  - split; [done|]. intros c1 c2 c3 [H1 H1'] [H2' H2'']. split; congruence.
  - intros pkt k c. pose proof (send_flows pkt k c) as Hs. unfold wp, on_wire, zoom in *.
    pose proof (send_pkt_spec pkt k (c_wire c)) as Hc. unfold wp in Hc.
    destruct (send_pkt pkt k (c_wire c)) as [o w']. split; [|done]. simpl in *.
    unfold send_contract in Hc. destruct (w_desync (c_wire c)); [by destruct Hc as [_ ->]|].
    destruct (frame k pkt); [|by destruct Hc as [_ ->]].
    destruct Hc as (H1 & H2' & _). unfold stream. by rewrite H1, H2'.
Qed.

Lemma same_stream_coming c c' : same_stream c c' → coming c' = coming c.
Proof. intros [Hs Hn]. unfold coming, mp_of. by rewrite Hs, Hn. Qed.

Section Recv.
Context {F I : Type} (poll : F → option I * F).

Lemma recv_flows race f c :
  (∀ _ : I, race = true → read_cancel_safe = true) →
  wp (on_wire (recv_pkt_or poll recv_fuel (mp_of c) race f)) (λ o c',
    c_table c' = c_table c ∧ c_negotiated c' = c_negotiated c ∧
    match o with
    | Ret (RPacket pkt, _) => flows [] c nothing [pkt] c' ∧ coming c = pkt :: coming c'
    | Ret (RInterrupted _, _) => flows [] c nothing [] c' ∧ coming c' = coming c
    | Fail e => lossy e ∨ flows [] c nothing [] c'
    | Dropped => read_cancel_safe = true → flows [] c nothing [] c'
    | Panicked | NoFuel => False
    end) c.
Proof.
  intros Hrace. apply wp_on_wire.
  eapply wp_mono; [apply recv_pkt_or_spec, recv_fuel_enough|]. intros o w' (_ & _ & _ & Ho).
  split; [done|]. split; [done|].
  assert (stream w' = stream (c_wire c) → flows [] c nothing [] (set_wire w' c)) as Hsame.
  { intros Hs. by apply flows_same. }
  destruct o as [[[pkt|val] f']|e| | |]; try done; auto.
  2: { unfold coming, mp_of. simpl. rewrite Ho by auto. auto. }
  - assert (coming c = pkt :: coming (set_wire w' c)) as Hc by (by apply all_packets_cons).
    split; [|done]. intros Hok. split; [done|]. split; [done|]. intros ch s Hg. exists s.
    split; [done|]. split; [done|]. unfold nothing. simpl. by rewrite Hc.
  - destruct e; try (by left; right; eexists); right; apply Hsame; by destruct Ho.
Qed.

(** A packet handed straight to the reader of an empty channel. *)
Lemma flows_deliver c ch s s' pkt :
  table_get ch (c_table c) = Some s → sl_rx_buf s = [] → sl_rx_buf s' = [] →
  sl_local s' = sl_local s → sl_failed s' = sl_failed s → sl_remote s' = sl_remote s →
  command pkt = Command.Write → arg1 pkt = ch_local ch →
  flows [pkt] c (only ch (data pkt)) [] (set_table (table_put ch s' (c_table c)) c).
Proof.
  intros Hg Hrx Hrx' Hl Hf Hr Hc Ha Hok. split; [by eapply conn_ok_put|]. split; [done|].
  intros ch' s1 Hg1. cbn [c_table set_table].
  rewrite (table_get_put _ _ _ _ _ Hg Hl). unfold only.
  destruct (decide (ch' = ch)) as [->|Hne].
  - simplify_eq. exists s'. split; [done|]. split; [unfold keeps_remote; by rewrite Hr|].
    rewrite Hrx, Hrx', (share_app _ [pkt]), share_write by done. done.
  - exists s1. split; [done|]. split; [done|]. rewrite (share_app _ [pkt]), share_other; [done|].
    intros [_ Ha']. apply Hne. symmetry. eapply same_local; [done..|congruence].
Qed.

Lemma deliver_same n s :
  let s' := snd (deliver n s) in
  sl_rx_buf s' = sl_rx_buf s ∧ sl_failed s' = sl_failed s ∧ sl_remote s' = sl_remote s ∧
  sl_local s' = sl_local s.
Proof. unfold deliver. by repeat case_match. Qed.

Lemma flows_then ps c1 got c2 c3 :
  flows ps c1 got [] c2 → flows [] c2 nothing [] c3 → flows ps c1 got [] c3.
Proof.
  intros H12 H23 Hok. destruct (H12 Hok) as (Hok2 & Hn2 & Hs2).
  destruct (H23 Hok2) as (Hok3 & Hn3 & Hs3). split; [done|]. split; [congruence|].
  intros ch s Hg. destruct (Hs2 _ _ Hg) as (s2 & Hg2 & Hk2 & ->).
  destruct (Hs3 _ _ Hg2) as (s3 & Hg3 & Hk3 & Heq). exists s3. split; [done|].
  split; [unfold keeps_remote in *; auto|]. f_equal. exact Heq.
Qed.

(** The bytes a [recv_data] hands over. *)
Definition selected ch (r : SelectResult I) : ChannelId → bytes :=
  match r with SData b => only ch b | SInterrupted _ => nothing end.


(** A packet that is no WRTE is nobody's share. *)
Lemma flows_skip pkt c : command pkt ≠ Command.Write → flows [pkt] c nothing [] c.
Proof.
  intros Hc Hok. split; [done|]. split; [done|]. intros ch s Hg. exists s.
  split; [done|]. split; [done|]. rewrite (share_app _ [pkt]), share_other; [done|].
  by intros [? _].
Qed.

Lemma if_slot_close_flows ch c :
  wp (if_slot ch apply_close : cprog unit) (λ o c',
    o = Ret tt ∧ flows [] c nothing [] c') c.
Proof.
  unfold wp, if_slot. destruct (table_get ch (c_table c)) as [s|] eqn:Hg; simpl.
  - split; [done|]. eapply flows_weaken, (flows_put c ch _ s []); try done.
    unfold keeps_remote. by simpl.
  - split; [done|]. apply flows_refl.
Qed.

(** The direct path of the loop. *)
Lemma direct_tracked ch c s pkt :
  table_get ch (c_table c) = Some s → sl_rx_buf s = [] →
  command pkt = Command.Write → arg1 pkt = ch_local ch →
  wp (ack ← state (λ c, match table_get ch (c_table c) with
                        | None => (None, c)
                        | Some s => let '(ack, s') := deliver (len (data pkt)) s in
                                    (ack, set_table (table_put ch s' (c_table c)) c)
                        end);
      match ack with
      | Some ack => catch (send_okay ack) ≫= λ _, mret tt
      | None => mret tt
      end ≫= λ _,
      mret (SData (data pkt)) : cprog (SelectResult I))
    (tracked [pkt] c (selected ch)) c.
Proof.
  intros Hg Hrx Hc Ha. apply wp_bind, wp_state. rewrite Hg.
  destruct (deliver_same (len (data pkt)) s) as (Hrx' & Hfl & Hre & Hlo).
  destruct (deliver (len (data pkt)) s) as [ack s']. cbn [fst snd] in *.
  assert (flows [pkt] c (only ch (data pkt)) [] (set_table (table_put ch s' (c_table c)) c)) as Hf.
  { eapply flows_deliver; try done. by rewrite Hrx', Hrx. }
  apply wp_bind. eapply wp_mono; [apply quiet_okay_flows|].
  intros o c2 (_ & Hf2 & [->|[-> Hd]]).
  - by eapply flows_then.
  - intros _. by left.
Qed.

Lemma recv_data_loop_tracked fuel ch ids want race f c s :
  conn_ok c → (∀ _ : I, race = true → read_cancel_safe = true) →
  table_get ch (c_table c) = Some s → is_Some (sl_remote s) → sl_rx_buf s = [] →
  local ids = ch_local ch → (length (coming c) < fuel)%nat →
  wp (recv_data_loop poll fuel ch ids want race f : cprog _) (tracked [] c (selected ch)) c.
Proof.
  intros Hok Hrace. revert f c s Hok. induction fuel as [|fuel IH];
    intros f c s Hok Hg Hre Hrx Hids Hfuel; [lia|]. simpl.
  apply wp_bind, wp_gets, wp_bind. eapply wp_mono; [by apply recv_flows|].
  intros o c1 (Ht1 & Hn1 & Ho). rewrite <- Ht1 in Hg.
  destruct o as [[[pkt|val] f']|e| | |]; simpl in *; try done; auto; [|by destruct Ho].
  destruct Ho as [Hf1 Hcoming]. rewrite Hcoming in Hfuel. simpl in Hfuel.
  destruct (Hf1 Hok) as (Hok1 & _ & _).
  case_match eqn:Hdirect; [|case_match eqn:Hclosed].
  - bool_facts. eapply wp_mono; [eapply direct_tracked; [done|done|done|congruence]|].
    intros o c2. by apply tracked_trans.
  - apply wp_bind. eapply wp_mono; [apply if_slot_close_flows|]. intros o c2 [-> Hf2]. right.
    eapply flows_trans; [exact Hf1|]. eapply flows_trans; [|exact Hf2]. apply flows_skip.
    unfold closed_by in Hclosed. bool_facts. congruence.
  - apply wp_bind, wp_catch.
    eapply wp_mono; [apply (wp_steps same_stream), conn_dispatch_acted; apply (steps_conn_dispatch same_stream)|].
    intros o c2 (Hact & Hss2). pose proof (same_stream_coming _ _ Hss2) as Hc2.
    destruct o as [[]|e| | |]; try done.
    + apply wp_bind, wp_catch.
      eapply wp_mono; [apply (wp_steps same_stream), take_tracked; apply (steps_take_buffered same_stream)|].
      intros o c3 ((Htk & Hdr & _) & Hss3). pose proof (same_stream_coming _ _ Hss3) as Hc3.
      pose proof (flows_trans _ _ _ _ _ _ _ Hf1 Hact) as Hf2.
      destruct o as [[b|]|e| | |]; 
        try (exact (tracked_trans _ _ _ _ (took ch) _ _ Hf2 (taken_tracked _ _ _ _ Htk))).
      pose proof (flows_trans _ _ _ _ _ _ _ Hf2 Htk) as Hf3.
      destruct (Hf3 Hok) as (Hok3 & _ & Hs3). rewrite Ht1 in Hg.
      destruct (Hs3 ch s Hg) as (s3 & Hg3 & Hk3 & _).
      destruct (Hdr eq_refl) as (s3' & Hg3' & Hrx3). simplify_eq.
      eapply wp_mono; [eapply (IH f' c3 s3); eauto; rewrite Hc3, Hc2; lia|].
      intros o c4. by apply tracked_trans.
    + apply wp_bind, wp_catch. eapply wp_mono; [apply take_tracked|].
      intros o c3 (Htk & Hdr & Hsome). simpl in Hact.
      destruct Hact as [[Hl ->]|Hf2].
      * destruct o as [[b|]|e'| | |]; try done; try (by left).
        destruct (Hsome b eq_refl) as (s' & Hg' & Hne). by simplify_eq.
      * pose proof (flows_trans _ _ _ _ _ _ _ Hf1 Hf2) as Hf3.
        destruct o as [[b|]|e'| | |]; try done; [|right..|intros _; by left];
          by eapply flows_trans.
    + exact (tracked_trans _ _ _ _ (λ _ : unit, nothing) _ _ Hf1 Hact).
Qed.

Lemma recv_data_tracked fuel ch want race f c :
  conn_ok c → (∀ _ : I, race = true → read_cancel_safe = true) →
  (length (coming c) < fuel)%nat →
  wp (recv_data poll fuel ch want race f : cprog _) (tracked [] c (selected ch)) c.
Proof.
  intros Hok Hrace Hfuel. unfold recv_data. apply wp_bind.
  eapply wp_mono; [apply (wp_steps same_stream), take_tracked; apply (steps_take_buffered same_stream)|].
  intros o c1 ((Htk & Hdr & _) & Hss). pose proof (taken_tracked _ _ _ _ Htk) as Htr.
  destruct o as [[b|]|e| | |]; try done.
  destruct (Hdr eq_refl) as (s & Hg & Hrx).
  apply wp_bind. unfold wp at 1. simpl. apply wp_bind, wp_lift. unfold table_ids. rewrite Hg.
  bind_simpl. destruct (slot_ids s) as [ids|] eqn:Hids; simpl; [|by right].
  apply slot_ids_some in Hids as [Hre Hlo].
  apply table_get_some in Hg as Hg'. destruct Hg' as [_ Hl].
  destruct (Htk Hok) as (Hok1 & _ & _).
  assert (is_Some (sl_remote s)) as Hsome by (rewrite Hre; eauto).
  eapply wp_mono; [apply (recv_data_loop_tracked _ _ _ _ _ _ c1 s); auto; [congruence|]|].
  - by rewrite (same_stream_coming _ _ Hss).
  - intros o c2. by apply tracked_trans.
Qed.
End Recv.
End Demux.


(** Two channels, and a stream with a packet for each. *)
Definition sample_policy : RxPolicy := mkPolicy AckMode.Classic 65536 1024.

Definition sample_conn : conn Script.script :=
  mkConn
    (mkWire (Script.mkScript
       (match frame Checksum.Skip (mkPacket Command.Write 9 2 (bs "other")),
              frame Checksum.Skip (mkPacket Command.Write 8 1 (bs "hello")) with
        | Ok a, Ok b => a ++ b
        | _, _ => []
        end) [] [IoOk 30; IoOk 2]) [] false)
    (mkTable [Some (slot_accepted (mkIds 1 8) 0 sample_policy);
              Some (slot_accepted (mkIds 2 9) 0 sample_policy)] 3 sample_policy)
    (mkNegotiated 4096 ADB_VERSION config_embedded false (mkBanner [] (0, 0) (0, 0) [] []))
    [].

