(* ===== verification/Desync.v ===== *)
(** * The desync flag is final

    A send that was abandoned or failed midway leaves a torn frame on the wire
    and sets the flag ([Wire.send_pkt_contract]).  Here: what every call of
    the connection does once it is set. *)

From S2P Require Import Prelude Errors Protocol Banner Config SendQueue Slot ChannelTable Wire.
From S2P Require Import Connection ConnSteps Demux.

Section Final.
Context {T IoE : Type} `{TransportLaws T IoE}.
Implicit Types c : conn T.

(** A set flag stays set and nothing is written under it. *)
Definition quiet c c' : Prop :=
  w_desync (c_wire c) = true →
  w_desync (c_wire c') = true ∧
  outgoing (w_transport (c_wire c')) = outgoing (w_transport (c_wire c)).

Lemma steps_on_wire {A} (m : prog (wire T) (Error IoE) A) :
  (∀ w, w_desync w = true →
     w_desync (snd (m w)) = true ∧
     outgoing (w_transport (snd (m w))) = outgoing (w_transport w)) →
  steps quiet (on_wire m).
Proof.
  intros Hm c Hd. specialize (Hm (c_wire c) Hd). unfold on_wire, zoom.
  by destruct (m (c_wire c)).
Qed.

#[export] Instance quiet_conn_rel : ConnRel (IoE := IoE) quiet.
Proof.
  split; [split|]; try (unfold quiet; simpl; tauto).
  - split.
    + intros c. unfold quiet. auto.
    + intros c1 c2 c3 H1 H2' Hd. destruct (H1 Hd) as [Hd2 Ho]. destruct (H2' Hd2). split; congruence.
  - intros pkt k. apply steps_on_wire. intros w Hd.
    pose proof (send_pkt_spec pkt k w) as Hs. unfold wp, send_contract in Hs.
    rewrite Hd in Hs. destruct Hs as [_ ->]. done.
  - intros F I poll mp race f. apply steps_on_wire. intros w Hd.
    pose proof (recv_pkt_or_spec poll recv_fuel mp race f w (recv_fuel_enough mp)) as (Hs & Ho & _).
    split; congruence.
Qed.

Lemma desync_check_set {A} c (k : unit → prog (conn T) (Error IoE) A) :
  w_desync (c_wire c) = true → (on_wire desync_check ≫= k) c = (Fail Error.Desynchronized, c).
Proof.
  intros Hd. unfold mbind, prog_bind, on_wire, zoom, desync_check. rewrite Hd.
  by destruct c.
Qed.

Lemma send_okay_desync ack c :
  w_desync (c_wire c) = true →
  (send_okay ack : prog _ (Error IoE) unit) c = (Fail Error.Desynchronized, c).
Proof.
  intros Hd. unfold send_okay, checksum_mode, send_okay_to, send_raw, mbind, prog_bind, gets,
    on_wire, zoom, desync_check. rewrite Hd. by destruct c.
Qed.

Lemma take_desync ch want c s :
  w_desync (c_wire c) = true → table_get ch (c_table c) = Some s → has_data s = true →
  wp (conn_take_buffered ch want : prog _ (Error IoE) _) (λ o _,
    ∃ b rest, o = Ret (Some b) ∧ sl_rx_buf s = b ++ rest) c.
Proof.
  intros Hd Hg Hh. unfold conn_take_buffered. apply wp_bind. unfold wp at 1. simpl.
  rewrite Hg, Hh. simpl. apply wp_bind, wp_ret, wp_bind, wp_with_slot. rewrite Hg.
  destruct (settle_take_same want s) as (Hrx & _ & Hre).
  pose proof (settle_take_local want s) as Hloc.
  set (c1 := set_table (table_put ch (snd (settle_take want s)) (c_table c)) c).
  assert (table_get ch (c_table c1) = Some (snd (settle_take want s))) as Hg1.
  { unfold c1. simpl. rewrite (table_get_put _ _ _ _ _ Hg Hloc). by rewrite decide_True. }
  assert (w_desync (c_wire c1) = true) as Hd1 by done. clearbody c1.
  apply wp_bind.
  assert (∀ (o : option PendingAck) (Q : outcome (Error IoE) unit → conn T → Prop), Q (Ret tt) c1 →
    wp (match o with
        | Some ack => catch (send_okay ack) ≫= λ _, mret tt
        | None => mret tt
        end) Q c1) as Hokay.
  { intros [ack|] Q HQ; [|done]. apply wp_bind, wp_catch.
    eapply wp_eq; [by apply send_okay_desync|]. done. }
  apply Hokay, wp_bind, wp_with_slot. rewrite Hg1.
  pose proof (slot_take_buffered_same (IoE := IoE) want (snd (settle_take want s))) as Ht.
  destruct (slot_take_buffered want _) as [r s2]. cbn [fst snd]. destruct Ht as (_ & _ & Hr).
  assert (has_data (snd (settle_take want s)) = true) as Hh1.
  { unfold has_data in *. by rewrite Hrx, Hre. }
  apply wp_lift. destruct r as [[b|]|e].
  - destruct Hr as [Hr _]. exists b, (sl_rx_buf s2). by rewrite <- Hrx.
  - destruct Hr as [_ Hr]. congruence.
  - destruct Hr as (_ & Hr & _). congruence.
Qed.

Lemma take_desync_empty ch want c :
  w_desync (c_wire c) = true →
  match table_get ch (c_table c) with Some s => has_data s | None => false end = false →
  (conn_take_buffered ch want : prog _ (Error IoE) _) c = (Fail Error.Desynchronized, c).
Proof.
  intros Hd Hh. unfold conn_take_buffered. unfold mbind at 1, prog_bind at 1, get.
  rewrite Hh. cbn [negb]. by rewrite desync_check_set.
Qed.
End Final.


(** A connection with a torn frame and three bytes buffered. *)
Definition torn_conn : conn Script.script :=
  mkConn (mkWire (Script.mkScript [] (bs "WRT") []) [] true)
    (mkTable [Some (set_rx_buf (bs "abc") (slot_accepted (mkIds 1 8) 0 sample_policy))] 2
       sample_policy)
    (c_negotiated sample_conn) [].

