(* ===== verification/Accept.v ===== *)
(** * Deciding on an incoming channel ([base/connection/accept.rs])

    [Incoming] borrows the connection with the request it popped from the
    queue and the slot reserved for it.  However [accept] or [reject] ends,
    the value is dropped, and [Drop] releases the slot and puts an undecided
    request back ([decide_with]). *)

From S2P Require Import Prelude Errors Protocol Banner Config SendQueue Slot ChannelTable Wire.
From S2P Require Import Connection ConnSteps Demux.

(** [Incoming]. *)
Record Incoming (T : Type) : Type := mkIncoming {
  i_conn : conn T;
  i_pending : option PendingOpen;
  i_reserved : option ChannelId;
}.
Arguments mkIncoming {T}.
Arguments i_conn {T}.
Arguments i_pending {T}.
Arguments i_reserved {T}.

Definition set_conn {T} (c : conn T) (i : Incoming T) : Incoming T :=
  mkIncoming c (i_pending i) (i_reserved i).
Definition set_pending {T} (p : option PendingOpen) (i : Incoming T) : Incoming T :=
  mkIncoming (i_conn i) p (i_reserved i).
Definition set_reserved {T} (r : option ChannelId) (i : Incoming T) : Incoming T :=
  mkIncoming (i_conn i) (i_pending i) r.

Section Accept.
Context {T IoE : Type} `{Transport T IoE}.

Abbreviation iprog := (prog (Incoming T) (Error IoE)).

Definition on_conn {A} (m : prog (conn T) (Error IoE) A) : iprog A := zoom i_conn set_conn m.

(** [Incoming::destination]; [None] is the [expect]. *)
Definition destination (i : Incoming T) : option bytes := po_destination <$> i_pending i.

(** [Incoming::answer]. *)
Definition answer (verdict : Packet) : iprog unit :=
  sent ← catch (on_conn (conn_send verdict));
  match sent with
  | Ok _ => modify (set_pending None)
  | Err e => (if connection_gone e then modify (set_pending None) else mret tt) ≫= λ _, fail e
  end.

(** [Incoming::accept] before the drop. *)
Definition accept_body : iprog ChannelId :=
  pending ← gets i_pending;
  match pending with
  | None => panic
  | Some p =>
      r ← on_conn (state (λ c, let '(r, t) := allocate (c_table c) in (r, set_table t c)));
      match r with
      | Err _ => answer (packet_refuse (po_remote p)) ≫= λ _, fail Error.NoFreeChannels
      | Ok ch =>
          on_conn (state (λ c, match insert_accepted ch (po_remote p) (po_credit p) (c_table c) with
                               | Some t => (true, set_table t c)
                               | None => (false, c)
                               end)) ≫= λ inserted : bool,
          if negb inserted then panic
          else
            modify (set_reserved (Some ch)) ≫= λ _,
            payload ← gets (λ i, match advertised_credit (c_negotiated (i_conn i)) with
                                 | Some credit => u32_le credit
                                 | None => []
                                 end);
            answer (mkPacket Command.Ready (ch_local ch) (po_remote p) payload) ≫= λ _,
            modify (set_reserved None) ≫= λ _,
            mret ch
      end
  end.

(** [Incoming::reject] before the drop. *)
Definition reject_body : iprog unit :=
  pending ← gets i_pending;
  match pending with
  | None => panic
  | Some p => answer (packet_refuse (po_remote p))
  end.

(** [Drop for Incoming]. *)
Definition drop_incoming (i : Incoming T) : conn T :=
  let c := i_conn i in
  let c := match i_reserved i with
           | Some ch => set_table (snd (free ch (c_table c))) c
           | None => c
           end in
  match i_pending i with
  | Some p => set_incoming (push_front p (c_incoming c)) c
  | None => c
  end.

(** A verdict on the request [p]: run it, then drop the [Incoming]. *)
Definition decide_with {A} (body : iprog A) (p : PendingOpen) : prog (conn T) (Error IoE) A := λ c,
  let '(o, i) := body (mkIncoming c (Some p) None) in (o, drop_incoming i).

Definition accept (p : PendingOpen) : prog (conn T) (Error IoE) ChannelId :=
  decide_with accept_body p.

Definition reject (p : PendingOpen) : prog (conn T) (Error IoE) unit := decide_with reject_body p.
End Accept.

(** ** A verdict never loses the request *)

Section Verdict.
Context {T IoE : Type} `{TransportLaws T IoE}.
Implicit Types c : conn T.

(** The failures that used the request up: the connection is gone, or every
    slot was taken and the refusal went out. *)
Definition consumed (e : Error IoE) : bool :=
  connection_gone e || match e with Error.NoFreeChannels => true | _ => false end.

(** What became of the request and the verdict's frame [fr]. *)
Definition answered (fr : bytes) (p : PendingOpen) c (o : outcome (Error IoE) unit)
    (i : Incoming T) : Prop :=
  c_table (i_conn i) = c_table c ∧ c_incoming (i_conn i) = c_incoming c ∧
  c_negotiated (i_conn i) = c_negotiated c ∧
  match o with
  | Ret _ =>
      outgoing (w_transport (c_wire (i_conn i))) = outgoing (w_transport (c_wire c)) ++ fr ∧
      i_pending i = None
  | Fail e => consumed e = connection_gone e ∧
              i_pending i = if connection_gone e then None else Some p
  | Dropped => i_pending i = Some p ∧ w_desync (c_wire (i_conn i)) = true
  | Panicked | NoFuel => False
  end.

Lemma answer_spec verdict fr p c r :
  frame (checksum (c_negotiated c)) verdict = Ok fr →
  wp (answer verdict) (λ o i, answered fr p c o i ∧ i_reserved i = r) (mkIncoming c (Some p) r).
Proof.
  intros Hfr. unfold answer, on_conn. apply wp_bind, wp_catch, wp_zoom.
  unfold conn_send, checksum_mode. apply wp_bind, wp_gets, wp_on_wire.
  eapply wp_mono; [apply send_pkt_spec|]. intros o w' Hs. unfold send_contract in Hs.
  simpl in *. rewrite Hfr in Hs.
  destruct (w_desync (c_wire c)).
  { destruct Hs as [-> ->]. by destruct c. }
  destruct Hs as (Hb & Hin & Hpart & Ho). destruct o as [[]|e| | |]; try done.
  - destruct Ho as [Hout Hd]. by unfold wp, answered.
  - assert (consumed e = connection_gone e) as Hc.
    { destruct Ho as [[->|[x ->]] _]; [done|]. unfold consumed. apply orb_false_r. }
    unfold wp, answered. simpl. by destruct (connection_gone e) eqn:Hg; simpl; rewrite ?Hc, ?Hg.
Qed.

(** A verdict that did not go through: no slot is held, and the request is at
    the head of the queue again unless it was used up. *)
Definition undecided {A} p c (o : outcome (Error IoE) A) c' : Prop :=
  t_slots (c_table c') = t_slots (c_table c) ∧ c_negotiated c' = c_negotiated c ∧
  match o with
  | Ret _ => False
  | Fail e => c_incoming c' = if consumed e then c_incoming c else p :: c_incoming c
  | Dropped => c_incoming c' = p :: c_incoming c ∧ w_desync (c_wire c') = true
  | Panicked | NoFuel => False
  end.

Lemma refuse_frame k remote : ∃ fr, frame k (packet_refuse remote) = Ok fr.
Proof. unfold frame, packet_refuse, encode_header. simpl. eauto. Qed.

Lemma reject_spec p c :
  wp (reject p : prog _ (Error IoE) _) (λ o c',
    match o with
    | Ret _ => c_table c' = c_table c ∧ c_incoming c' = c_incoming c ∧
        ∃ fr, frame (checksum (c_negotiated c)) (packet_refuse (po_remote p)) = Ok fr ∧
          outgoing (w_transport (c_wire c')) = outgoing (w_transport (c_wire c)) ++ fr
    | o => undecided p c o c'
    end) c.
Proof.
  destruct (refuse_frame (checksum (c_negotiated c)) (po_remote p)) as [fr Hfr].
  pose proof (answer_spec (packet_refuse (po_remote p)) fr p c None Hfr) as Ha.
  unfold wp, reject, decide_with, reject_body, mbind, prog_bind, gets in *. simpl.
  destruct (answer _ _) as [o i]. simpl in Ha. destruct Ha as ((Ht & Hq & Hn & Ho) & Hr).
  unfold drop_incoming. rewrite Hr. destruct o as [[]|e| | |]; simpl; try done.
  - destruct Ho as [Hout ->]. eauto 6.
  - destruct Ho as [Hc Ho]. unfold undecided. rewrite Ho, Hc.
    destruct (connection_gone e); simpl; rewrite Ht; [done|]. by rewrite Hq.
  - destruct Ho as [-> Hd]. unfold undecided. simpl. rewrite Ht. by rewrite Hq.
Qed.

(** Allocating, filling and freeing a slot leaves the slots as they were. *)
Lemma free_filled ch s t :
  t_slots t !! ch_slot ch = Some None → sl_local s = ch_local ch →
  t_slots (snd (free ch (set_slots (<[ch_slot ch := Some s]> (t_slots t)) t))) = t_slots t.
Proof.
  intros Hn Hl. assert (ch_slot ch < length (t_slots t))%nat by (by eapply lookup_lt_Some).
  unfold free, table_get. simpl. rewrite list_lookup_insert_eq by done.
  rewrite Hl, Z.eqb_refl. simpl. rewrite list_insert_insert_eq. by apply list_insert_id.
Qed.

Lemma slot_accepted_local ids k pol : sl_local (slot_accepted ids k pol) = local ids.
Proof. unfold slot_accepted. by destruct (is_delayed _). Qed.

(** [accept] with no slot free. *)
Lemma accept_full p c :
  position_none (t_slots (c_table c)) = None →
  wp (accept p : prog _ (Error IoE) _) (undecided p c) c.
Proof.
  intros Hp. destruct (refuse_frame (checksum (c_negotiated c)) (po_remote p)) as [fr Hfr].
  assert (allocate (c_table c) = (Err no_free_channels, c_table c)) as Ha.
  { unfold allocate. by rewrite Hp. }
  pose proof (answer_spec (packet_refuse (po_remote p)) fr p c None Hfr) as Hans.
  unfold wp, accept, decide_with, accept_body, mbind, prog_bind, gets, on_conn, zoom, state in *.
  cbn [i_pending i_conn]. rewrite Ha.
  replace (set_conn _ _) with (mkIncoming c (Some p) None) by (by destruct c).
  destruct (answer _ _) as [o i]. simpl in Hans. destruct Hans as ((Ht & Hq & Hn & Ho) & Hr).
  destruct o as [[]|e| | |]; try done; unfold undecided, drop_incoming; simpl; rewrite Hr.
  - destruct Ho as [_ ->]. by rewrite Ht.
  - destruct Ho as [Hc Ho]. rewrite Ho, Hc.
    destruct (connection_gone e); simpl; rewrite Ht; [done|]. by rewrite Hq.
  - destruct Ho as [-> Hd]. simpl. rewrite Ht. by rewrite Hq.
Qed.

(** [accept] into the free slot [i]. *)
Lemma accept_free p c n :
  position_none (t_slots (c_table c)) = Some n →
  let ch := mkChannelId n (t_next_local_id (c_table c)) in
  let s := slot_accepted (mkIds (ch_local ch) (po_remote p)) (po_credit p) (t_policy (c_table c)) in
  let ready := mkPacket Command.Ready (ch_local ch) (po_remote p)
                 match advertised_credit (c_negotiated c) with
                 | Some credit => u32_le credit
                 | None => []
                 end in
  wp (accept p : prog _ (Error IoE) _) (λ o c',
    match o with
    | Ret ch' => ch' = ch ∧ c_incoming c' = c_incoming c ∧
        t_slots (c_table c') = <[n := Some s]> (t_slots (c_table c)) ∧
        ∃ fr, frame (checksum (c_negotiated c)) ready = Ok fr ∧
          outgoing (w_transport (c_wire c')) = outgoing (w_transport (c_wire c)) ++ fr
    | o => undecided p c o c'
    end) c.
Proof.
  intros Hp ch s ready. pose proof (position_none_some _ _ Hp) as Hn.
  assert (∃ fr, frame (checksum (c_negotiated c)) ready = Ok fr) as [fr Hfr].
  { apply frame_exists. unfold ready, MAX_PAYLOAD. simpl.
    destruct (advertised_credit _); rewrite ?len_u32_le, ?(@len_nil byte); lia. }
  set (t1 := mkTable (t_slots (c_table c)) (Z.max (wrap_u32 (t_next_local_id (c_table c) + 1)) 1)
    (t_policy (c_table c))).
  assert (allocate (c_table c) = (Ok ch, t1)) as Ha.
  { unfold allocate. by rewrite Hp. }
  set (t2 := set_slots (<[n := Some s]> (t_slots t1)) t1).
  assert (insert_accepted ch (po_remote p) (po_credit p) t1 = Some t2) as Hi.
  { unfold insert_accepted, fill. simpl. by rewrite Hn. }
  pose proof (answer_spec ready fr p (set_table t2 c) (Some ch) Hfr) as Hans.
  unfold wp, accept, decide_with, accept_body, mbind, prog_bind, gets, on_conn, zoom, state in *.
  cbn [i_pending i_conn c_table set_table]. rewrite Ha. cbn [set_conn i_conn set_table c_table].
  change (c_table (set_table t1 c)) with t1. rewrite Hi. cbn [negb].
  unfold modify. cbn [set_conn set_reserved set_table i_conn i_pending i_reserved c_negotiated c_wire c_incoming].
  change (mkConn (c_wire c) t2 (c_negotiated c) (c_incoming c)) with (set_table t2 c).
  destruct (answer _ _) as [o i]. simpl in Hans. destruct Hans as ((Ht & Hq & Hne & Ho) & Hr).
  assert (t_slots (snd (free ch (c_table (i_conn i)))) = t_slots (c_table c)) as Hfree.
  { rewrite Ht. simpl. apply (free_filled ch s t1 Hn), slot_accepted_local. }
  destruct o as [[]|e| | |]; try done; unfold undecided, drop_incoming; simpl.
  - destruct Ho as [Hout ->]. simpl. rewrite Ht. eauto 8.
  - destruct Ho as [Hc Ho]. rewrite Hr, Ho, Hc.
    destruct (connection_gone e); simpl; rewrite ?Hfree, ?Hq; done.
  - destruct Ho as [-> Hd]. rewrite Hr. simpl. by rewrite Hfree, Hq.
Qed.
End Verdict.


