(* ===== verification/Handshake.v ===== *)
(** * The handshake ([base/connection/handshake.rs], [tls.rs], [base/auth.rs])

    [Authenticator] is the interface a caller's key implements: signing (which
    may fail with a text, or be dropped), the public key, and whether to offer
    it.  [StartTls] is the interface of a transport that can start TLS.

    [Handshake::recv] loops over the stale packets of an earlier connection; its
    fuel bounds how many it skips.  What the handshake says and when is
    specified and proved in [Dialogue]. *)

From S2P Require Import Prelude Errors Protocol Banner Config SendQueue Slot ChannelTable Wire.
From S2P Require Import Connection ConnSteps Demux.

Class Authenticator (A : Type) : Type := {
  (** [sign]: an error is the text it renders to. *)
  sign : bytes → A → io bytes bytes * A;
  public_key : A → bytes;
  offer_public_key : A → bool;
}.

Class StartTls (T IoE : Type) : Type := {
  start_tls : T → io IoE unit * T;
  is_key_rejected : IoE → bool;
}.

(** [Verdict]. *)
Module Verdict.
Inductive Verdict : Type := Connected (cnxn : Packet) | StartTls (offer : Packet).
End Verdict.
Abbreviation Verdict := Verdict.Verdict.

(** [Verdict::of]. *)
Definition verdict_of (pkt : Packet) : result Packet Verdict :=
  match command pkt with
  | Command.Connect => Ok (Verdict.Connected pkt)
  | Command.StartTls => Ok (Verdict.StartTls pkt)
  | _ => Err pkt
  end.

Record Handshake (T A : Type) : Type := mkHandshake {
  h_wire : wire T;
  h_auth : A;
  h_banner : bytes;
  h_config : ConnectionConfig;
}.
Arguments mkHandshake {T A}.
Arguments h_wire {T A}.
Arguments h_auth {T A}.
Arguments h_banner {T A}.
Arguments h_config {T A}.

(** [Handshake::new]. *)
Definition handshake_new {T A} (transport : T) (auth : A) (banner : HostBanner)
    (config : ConnectionConfig) : Handshake T A :=
  mkHandshake (mkWire transport [] false) auth (host_banner_to_bytes banner) config.

Section Handshake.
Context {T IoE A : Type} `{Transport T IoE} `{Authenticator A}.

Abbreviation hprog := (prog (Handshake T A) (Error IoE)).

Definition h_set_wire (w : wire T) (h : Handshake T A) : Handshake T A :=
  mkHandshake w (h_auth h) (h_banner h) (h_config h).
Definition h_set_auth (a : A) (h : Handshake T A) : Handshake T A :=
  mkHandshake (h_wire h) a (h_banner h) (h_config h).

Definition h_on_wire {B} (m : prog (wire T) (Error IoE) B) : hprog B := zoom h_wire h_set_wire m.

(** [Handshake::send]. *)
Definition h_send (pkt : Packet) : hprog unit := h_on_wire (send_pkt pkt Checksum.Compute).

(** [Handshake::recv]: channel packets left over from an earlier connection
    are skipped. *)
Fixpoint h_recv (fuel : nat) : hprog Packet :=
  match fuel with
  | O => out_of_fuel
  | S fuel =>
      mp ← gets (λ h, max_payload (h_config h));
      pkt ← h_on_wire (recv_pkt mp);
      match command pkt with
      | Command.Connect | Command.Auth | Command.StartTls => mret pkt
      | Command.Close | Command.Ready | Command.Write | Command.Open => h_recv fuel
      | other => fail (Error.Protocol (ProtocolError.UnexpectedCommand other))
      end
  end.

(** [self.auth.sign(&token).await], its error mapped. *)
Definition h_sign (token : bytes) : hprog bytes := λ h,
  match sign token (h_auth h) with
  | (IoOk s, a) => (Ret s, h_set_auth a h)
  | (IoErr why, a) => (Fail (Error.Auth (AuthError.SignFailed why)), h_set_auth a h)
  | (IoDropped, a) => (Dropped, h_set_auth a h)
  end.

(** [(command, AuthKind::try_from(arg0))] is [(Auth, Ok(Token))]. *)
Definition is_token (pkt : Packet) : bool :=
  bool_decide (command pkt = Command.Auth)
  && match auth_kind_try_from (arg0 pkt) with Ok AuthKind.Token => true | _ => false end.

(** [Handshake::do_auth]. *)
Definition do_auth (fuel : nat) (token : bytes) : hprog Verdict :=
  if negb (len token =? AUTH_TOKEN_LEN) then
    fail (Error.Protocol (ProtocolError.InvalidAuthToken (len token)))
  else
    signature ← h_sign token;
    h_send (packet_auth_signature signature) ≫= λ _,
    pkt ← h_recv fuel;
    match verdict_of pkt with
    | Ok verdict => mret verdict
    | Err resp =>
        if negb (is_token resp) then fail (Error.Auth AuthError.Rejected)
        else
          gets (λ h, offer_public_key (h_auth h)) ≫= λ offered : bool,
          if negb offered then fail (Error.Auth AuthError.KeyNotTrusted)
          else
            pubkey ← gets (λ h, public_key (h_auth h));
            h_send (packet_auth_public_key pubkey) ≫= λ _,
            pkt ← h_recv fuel;
            match verdict_of pkt with
            | Ok verdict => mret verdict
            | Err _ => fail (Error.Auth AuthError.Rejected)
            end
    end.

(** The host's CNXN. *)
Definition hello (h : Handshake T A) : Packet :=
  mkPacket Command.Connect ADB_VERSION (max_payload (h_config h)) (h_banner h).

(** [Handshake::open]. *)
Definition h_open (fuel : nat) : hprog Verdict :=
  pkt ← gets hello;
  h_send pkt ≫= λ _,
  pkt ← h_recv fuel;
  match verdict_of pkt with
  | Ok verdict => mret verdict
  | Err pkt =>
      if is_token pkt then do_auth fuel (data pkt)
      else fail (Error.Protocol (ProtocolError.UnexpectedCommand (command pkt)))
  end.

(** [Handshake::assemble]. *)
Definition assemble (h : Handshake T A) (cnxn : Packet) : result (Error IoE) (conn T) :=
  negotiated ← map_err Error.Protocol (negotiated_new (h_banner h) cnxn (h_config h));
  Ok (mkConn (h_wire h)
        (table_new (Z.to_nat (max_channels (n_config negotiated))) (rx_policy negotiated))
        negotiated []).

(** [Connection::connect]: the connection, or how it failed. *)
Definition connect (fuel : nat) (transport : T) (auth : A) (banner : HostBanner)
    (config : ConnectionConfig) : outcome (Error IoE) (conn T) :=
  let '(o, h) := h_open fuel (handshake_new transport auth banner config) in
  outcome_bind o (λ v,
    match v with
    | Verdict.Connected cnxn =>
        match assemble h cnxn with Ok c => Ret c | Err e => Fail e end
    | Verdict.StartTls _ => Fail (Error.Protocol ProtocolError.TlsRequired)
    end).

(** ** TLS *)

Section Tls.
Context `{StartTls T IoE}.

Definition classify_tls_error (e : IoE) : Error IoE :=
  if is_key_rejected e then Error.Auth AuthError.TlsKeyNotTrusted else Error.Io e.

Definition classify_before_cnxn (h : Handshake T A) (e : Error IoE) : Error IoE :=
  match e with
  | Error.UnexpectedEof =>
      if bool_decide (w_recv_buf (h_wire h) = []) then Error.Auth AuthError.TlsClosedBeforeConnect
      else e
  | Error.Io e => classify_tls_error e
  | other => other
  end.

(** [.await.map_err(|e| self.classify_before_cnxn(e))]. *)
Definition classified {B} (m : hprog B) : hprog B := λ h,
  match m h with
  | (Fail e, h') => (Fail (classify_before_cnxn h' e), h')
  | r => r
  end.

(** [Handshake::upgrade]. *)
Definition upgrade (fuel : nat) (offer : Packet) : hprog Packet :=
  h ← get;
  if negb (bool_decide (w_recv_buf (h_wire h) = [])) then
    fail (Error.Protocol ProtocolError.DataAfterStls)
  else
    h_send (mkPacket Command.StartTls STLS_VERSION 0 []) ≫= λ _,
    h_on_wire (await start_tls) ≫= λ _,
    pkt ← classified (h_recv fuel);
    if bool_decide (command pkt = Command.Connect) then mret pkt
    else if is_token pkt then
      verdict ← classified (do_auth fuel (data pkt));
      match verdict with
      | Verdict.Connected cnxn => mret cnxn
      | Verdict.StartTls _ =>
          fail (Error.Protocol (ProtocolError.UnexpectedCommand Command.StartTls))
      end
    else fail (Error.Protocol (ProtocolError.UnexpectedCommand (command pkt))).

(** [Connection::connect_tls]. *)
Definition connect_tls (fuel : nat) (transport : T) (auth : A) (banner : HostBanner)
    (config : ConnectionConfig) : outcome (Error IoE) (conn T) :=
  let '(o, h) :=
    (verdict ← h_open fuel;
     match verdict with
     | Verdict.Connected cnxn => mret cnxn
     | Verdict.StartTls offer => upgrade fuel offer
     end) (handshake_new transport auth banner config) in
  outcome_bind o (λ cnxn, match assemble h cnxn with Ok c => Ret c | Err e => Fail e end).
End Tls.
End Handshake.
