(* ===== verification/Dialogue.v ===== *)
(** * What the handshake says, and when

    [react] is the protocol: how the host answers a packet at each stage of the
    handshake.  [Exchange] is every conversation it allows.  [Handshake::open]
    spells that loop out by hand, in two functions with early returns, over a
    byte stream that may break at any point; the theorem of the file is that it
    follows [Exchange] however the run ends. *)

From S2P Require Import Prelude Errors Protocol Banner Config SendQueue Slot ChannelTable Wire.
From S2P Require Import Connection ConnSteps Demux Handshake.

(** What was last sent. *)
Inductive stage : Type := Greeted | Signed | Offered.

(** How the host answers a packet. *)
Inductive reaction (IoE : Type) : Type :=
| Decide (v : Verdict)
| Refuse (e : Error IoE)
| Reply (q : Packet) (st : stage)
| GiveUp.
Arguments Decide {IoE} v.
Arguments Refuse {IoE} e.
Arguments Reply {IoE} q st.
Arguments GiveUp {IoE}.

(** Packets of channels, which an earlier connection may have left behind. *)
Definition stale (p : Packet) : bool :=
  match command p with
  | Command.Close | Command.Ready | Command.Write | Command.Open => true
  | _ => false
  end.

Section Dialogue.
Context {T IoE A : Type} `{TransportLaws T IoE} `{Authenticator A}.
Implicit Types h : Handshake T A.

Definition react (st : stage) (p : Packet) (a : A) : reaction IoE * A :=
  match command p, st with
  | Command.Connect, _ => (Decide (Verdict.Connected p), a)
  | Command.StartTls, _ => (Decide (Verdict.StartTls p), a)
  | Command.Auth, Greeted =>
      if negb (is_token p) then
        (Refuse (Error.Protocol (ProtocolError.UnexpectedCommand Command.Auth)), a)
      else if negb (len (data p) =? 20) then
        (Refuse (Error.Protocol (ProtocolError.InvalidAuthToken (len (data p)))), a)
      else match sign (data p) a with
           | (IoOk s, a) => (Reply (packet_auth_signature s) Signed, a)
           | (IoErr why, a) => (Refuse (Error.Auth (AuthError.SignFailed why)), a)
           | (IoDropped, a) => (GiveUp, a)
           end
  | Command.Auth, Signed =>
      if negb (is_token p) then (Refuse (Error.Auth AuthError.Rejected), a)
      else if offer_public_key a then (Reply (packet_auth_public_key (public_key a)) Offered, a)
      else (Refuse (Error.Auth AuthError.KeyNotTrusted), a)
  | Command.Auth, Offered => (Refuse (Error.Auth AuthError.Rejected), a)
  | other, _ => (Refuse (Error.Protocol (ProtocolError.UnexpectedCommand other)), a)
  end.

(** [Exchange hi a0 st a got sent]: from the greeting [hi] (none inside TLS), having
    received [got] and sent [sent], the host is at [st] and its key at [a]. *)
Inductive Exchange (hi : list Packet) (a0 : A) : stage → A → list Packet → list Packet → Prop :=
| Exchange_greet : Exchange hi a0 Greeted a0 [] hi
| Exchange_reply st a got sent p q st' a' :
    Exchange hi a0 st a got sent → react st p a = (Reply q st', a') →
    Exchange hi a0 st' a' (got ++ [p]) (sent ++ [q]).

(** ** Over the wire *)

(** Decoding [ps] one after another leads from [s] to [s']. *)
Inductive reads (mp : Z) : list Packet → bytes → bytes → Prop :=
| reads_nil s : reads mp [] s s
| reads_cons p ps s s1 s' :
    decode s mp = (Ok (Some p), s1) → reads mp ps s1 s' → reads mp (p :: ps) s s'.

(** The packets [got], and stale ones between them, lie between [s] and [s']. *)
Definition heard (mp : Z) (got : list Packet) (s s' : bytes) : Prop :=
  ∃ all, filter (λ p, stale p = false) all = got ∧ reads mp all s s'.

(** The frames of [sent], checksummed, were appended to [out]. *)
Definition said (sent : list Packet) (out out' : bytes) : Prop :=
  ∃ fs, Forall2 (λ p f, frame Checksum.Compute p = Ok f) sent fs ∧ out' = out ++ concat fs.

(** A send of [q] that did not succeed. *)
Definition torn {B} (q : Packet) (out out' : bytes) (o : outcome (Error IoE) B) : Prop :=
  match frame Checksum.Compute q with
  | Err pe => o = Fail (Error.Protocol pe) ∧ out' = out
  | Ok f => appends_part f out out' ∧ (o = Dropped ∨ ∃ e, o = Fail e ∧ io_error e)
  end.

(** A receive at [s] that did not succeed. *)
Definition silent {B} (mp : Z) (s : bytes) (o : outcome (Error IoE) B) : Prop :=
  o = Dropped ∨ (∃ e, o = Fail e ∧ io_error e) ∨
  ∃ pe rest, o = Fail (Error.Protocol pe) ∧ decode s mp = (Err pe, rest).

(** How a run of the handshake from [h0] can end: with a verdict or a refusal
    that [react] calls for, everything said and heard accounted for; or broken
    off, in a send, in a receive or in the signer. *)
Inductive concluded (hi : list Packet) (h0 h : Handshake T A) : outcome (Error IoE) Verdict → Prop :=
| concluded_verdict st a got sent p v :
    Exchange hi (h_auth h0) st a got sent → react st p a = (Decide v, h_auth h) →
    heard (max_payload (h_config h0)) (got ++ [p]) (stream (h_wire h0)) (stream (h_wire h)) →
    said sent (outgoing (w_transport (h_wire h0))) (outgoing (w_transport (h_wire h))) →
    h_banner h = h_banner h0 → h_config h = h_config h0 → w_desync (h_wire h) = false →
    concluded hi h0 h (Ret v)
| concluded_refusal st a got sent p e :
    Exchange hi (h_auth h0) st a got sent → react st p a = (Refuse e, h_auth h) →
    heard (max_payload (h_config h0)) (got ++ [p]) (stream (h_wire h0)) (stream (h_wire h)) →
    said sent (outgoing (w_transport (h_wire h0))) (outgoing (w_transport (h_wire h))) →
    concluded hi h0 h (Fail e)
| concluded_sending st a got sent q s mid o :
    Exchange hi (h_auth h0) st a got (sent ++ [q]) →
    heard (max_payload (h_config h0)) got (stream (h_wire h0)) s →
    said sent (outgoing (w_transport (h_wire h0))) mid →
    torn q mid (outgoing (w_transport (h_wire h))) o → concluded hi h0 h o
| concluded_hearing st a got sent s o :
    Exchange hi (h_auth h0) st a got sent →
    heard (max_payload (h_config h0)) got (stream (h_wire h0)) s →
    said sent (outgoing (w_transport (h_wire h0))) (outgoing (w_transport (h_wire h))) →
    silent (max_payload (h_config h0)) s o → concluded hi h0 h o
| concluded_signing st a got sent p :
    Exchange hi (h_auth h0) st a got sent → react st p a = (GiveUp, h_auth h) →
    heard (max_payload (h_config h0)) (got ++ [p]) (stream (h_wire h0)) (stream (h_wire h)) →
    said sent (outgoing (w_transport (h_wire h0))) (outgoing (w_transport (h_wire h))) →
    concluded hi h0 h Dropped.

(** ** Helpers *)

Lemma reads_app mp ps qs s s1 s2 : reads mp ps s s1 → reads mp qs s1 s2 → reads mp (ps ++ qs) s s2.
Proof. induction 1; simpl; eauto using reads. Qed.

Lemma reads_shorter mp ps s s' : reads mp ps s s' → (length s' <= length s)%nat.
Proof. induction 1 as [|p ps s s1 s' Hd]; [done|]. apply decode_shorter in Hd. lia. Qed.

Lemma heard_nil mp s : heard mp [] s s.
Proof. exists []. split; [done|constructor]. Qed.

Lemma heard_app mp got got' s s1 s2 :
  heard mp got s s1 → heard mp got' s1 s2 → heard mp (got ++ got') s s2.
Proof.
  intros (all & <- & Hr) (all' & <- & Hr'). exists (all ++ all').
  split; [apply filter_app|]. by eapply reads_app.
Qed.

Lemma heard_one mp p s s' :
  decode s mp = (Ok (Some p), s') → heard mp (if stale p then [] else [p]) s s'.
Proof.
  intros Hd. exists [p]. split; [|by eapply reads_cons, reads_nil].
  destruct (stale p) eqn:Hs; [rewrite filter_cons_False|rewrite filter_cons_True];
    (done || congruence).
Qed.

Lemma heard_shorter mp got s s' : heard mp got s s' → (length s' <= length s)%nat.
Proof. intros (all & _ & Hr). by eapply reads_shorter. Qed.

Lemma heard_prefix mp got p s s' :
  heard mp (got ++ [p]) s s' → ∃ s1, heard mp got s s1.
Proof.
  intros (all & Hf & Hr). revert got Hf. induction Hr as [s|q qs s s1 s' Hd Hr IH]; intros got Hf.
  { by destruct got. }
  destruct got as [|g got]; [eauto using heard_nil|]. pose proof (heard_one _ _ _ _ Hd) as Hone.
  destruct (stale q) eqn:Hs.
  - rewrite filter_cons_False in Hf by congruence. destruct (IH _ Hf) as [s2 Hh].
    exists s2. by apply (heard_app _ [] _ _ s1).
  - rewrite filter_cons_True in Hf by done. injection Hf as -> Hf. destruct (IH _ Hf) as [s2 Hh].
    exists s2. by apply (heard_app _ [g] _ _ s1).
Qed.

Lemma said_nil out : said [] out out.
Proof. exists []. split; [constructor|]. by rewrite app_nil_r. Qed.

Lemma said_snoc sent q f out mid :
  said sent out mid → frame Checksum.Compute q = Ok f → said (sent ++ [q]) out (mid ++ f).
Proof.
  intros (fs & Hfs & ->) Hf. exists (fs ++ [f]). split.
  - apply Forall2_app; [done|]. by repeat constructor.
  - rewrite concat_app. simpl. by rewrite app_nil_r, app_assoc.
Qed.

(** An outcome other than a return, at the type of verdicts. *)
Definition stopped {B} (P : outcome (Error IoE) Verdict → Prop) (o : outcome (Error IoE) B) :
    Prop :=
  match o with Fail e => P (Fail e) | Dropped => P Dropped | _ => False end.

(** What neither sending nor receiving touches. *)
Definition same_host h h' : Prop :=
  h_auth h' = h_auth h ∧ h_banner h' = h_banner h ∧ h_config h' = h_config h.

Lemma h_send_spec q h :
  w_desync (h_wire h) = false →
  wp (h_send q) (λ o h', same_host h h' ∧ stream (h_wire h') = stream (h_wire h) ∧
    w_recv_buf (h_wire h') = w_recv_buf (h_wire h) ∧
    let out := outgoing (w_transport (h_wire h)) in
    let out' := outgoing (w_transport (h_wire h')) in
    match o with
    | Ret _ => w_desync (h_wire h') = false ∧
               ∃ f, frame Checksum.Compute q = Ok f ∧ out' = out ++ f
    | o => stopped (torn q out out') o
    end) h.
Proof.
  intros Hd. unfold h_send, h_on_wire. apply wp_zoom.
  eapply wp_mono; [apply send_pkt_spec|]. intros o w'. unfold send_contract. rewrite Hd.
  intros Hs. split; [done|]. simpl.
  destruct (frame Checksum.Compute q) as [f|pe] eqn:Hf; [|destruct Hs as [-> ->]].
  - destruct Hs as (Hb & Hin & Hpart & Ho). split; [unfold stream; congruence|].
    split; [done|]. unfold torn. destruct o as [[]|e| | |]; try done; simpl; rewrite ?Hf.
    + destruct Ho as [Ho Hd']. eauto.
    + destruct Ho as [Ho _]. eauto.
    + eauto.
  - do 2 (split; [done|]). simpl. unfold torn. by rewrite Hf.
Qed.

(** What a receive from [h] ends in. *)
Definition recv_post h (o : outcome (Error IoE) Packet) h' : Prop :=
  let mp := max_payload (h_config h) in
  same_host h h' ∧ w_desync (h_wire h') = w_desync (h_wire h) ∧
  outgoing (w_transport (h_wire h')) = outgoing (w_transport (h_wire h)) ∧
  match o with
  | Ret p => heard mp [p] (stream (h_wire h)) (stream (h_wire h')) ∧ stale p = false ∧
             command p ≠ Command.Sync
  | o => stopped (λ o,
      (∃ s, heard mp [] (stream (h_wire h)) s ∧ silent mp s o) ∨
      (∃ p, command p = Command.Sync ∧
         o = Fail (Error.Protocol (ProtocolError.UnexpectedCommand Command.Sync)) ∧
         heard mp [p] (stream (h_wire h)) (stream (h_wire h')))) o
  end.

Lemma recv_post_skip h h1 o h2 :
  same_host h h1 → w_desync (h_wire h1) = w_desync (h_wire h) →
  outgoing (w_transport (h_wire h1)) = outgoing (w_transport (h_wire h)) →
  heard (max_payload (h_config h)) [] (stream (h_wire h)) (stream (h_wire h1)) →
  recv_post h1 o h2 → recv_post h o h2.
Proof.
  intros (A1 & A2 & A3) Hd Ho Hh ((B1 & B2 & B3) & Hd' & Ho' & Hpost). unfold recv_post, same_host.
  rewrite A3 in Hpost. repeat split; try congruence.
  assert (∀ got s, heard (max_payload (h_config h)) got (stream (h_wire h1)) s →
    heard (max_payload (h_config h)) got (stream (h_wire h)) s) as Hskip
    by (intros got s; by apply (heard_app _ [])).
  destruct o; simpl in *; naive_solver.
Qed.

(** [Handshake::recv] finds the next packet that is not stale. *)
Lemma h_recv_spec fuel h :
  (length (stream (h_wire h)) < fuel)%nat → wp (h_recv fuel) (recv_post h) h.
Proof.
  revert h. induction fuel as [|fuel IH]; intros h Hf; [lia|]. simpl.
  apply wp_bind, wp_gets, wp_bind. unfold h_on_wire. apply wp_zoom.
  eapply wp_mono; [apply recv_pkt_spec|]. intros o w' (R1 & R2 & _ & R4).
  set (h' := h_set_wire w' h). assert (same_host h h') as Hsame by done.
  destruct o as [p|e| | |]; try done; simpl.
  - pose proof (heard_one _ _ _ _ R4) as Hone.
    destruct (stale p) eqn:Hst.
    + replace (wp _ _ _) with
        (wp (h_recv fuel) (recv_post h) h') by (unfold stale in Hst; by destruct (command p)).
      eapply wp_mono; [apply (IH h')|].
      { apply decode_shorter in R4. simpl. lia. }
      intros o h'' Hpost. by eapply recv_post_skip.
    + unfold stale in Hst.
      destruct (command p) eqn:Hc; try done; do 3 (split; [done|]); simpl.
      * right. eauto.
      * unfold stale. by rewrite Hc.
      * unfold stale. by rewrite Hc.
      * unfold stale. by rewrite Hc.
  - do 3 (split; [done|]). left. exists (stream (h_wire h)). split; [apply heard_nil|].
    right. destruct e; naive_solver.
  - do 3 (split; [done|]). left. exists (stream (h_wire h)). split; [apply heard_nil|]. by left.
Qed.

(** The conversation stands at [st], [got] and [sent]; what has crossed the
    wire is [ears] and [mouth]. *)
Record talk (hi : list Packet) (h0 h : Handshake T A) (st : stage) (got sent ears mouth : list Packet) : Prop := {
  talk_exchange : Exchange hi (h_auth h0) st (h_auth h) got sent;
  talk_heard :
    heard (max_payload (h_config h0)) ears (stream (h_wire h0)) (stream (h_wire h));
  talk_said :
    said mouth (outgoing (w_transport (h_wire h0))) (outgoing (w_transport (h_wire h)));
  talk_banner : h_banner h = h_banner h0;
  talk_config : h_config h = h_config h0;
  talk_desync : w_desync (h_wire h) = false;
}.

Lemma send_step hi h0 h st got sent q :
  talk hi h0 h st got (sent ++ [q]) got sent →
  wp (h_send q) (λ o h', match o with
    | Ret _ => talk hi h0 h' st got (sent ++ [q]) got (sent ++ [q])
    | o => stopped (concluded hi h0 h') o
    end) h.
Proof.
  intros [Hx Hh Hs Hb Hc Hd]. eapply wp_mono; [by apply h_send_spec|].
  intros o h' ((Ha & Hb' & Hc') & Hst & _ & Ho). simpl in Ho.
  destruct o as [[]|e| | |]; try done; simpl in *.
  - destruct Ho as (Hd' & f & Hf & Hout). split; try congruence.
    rewrite Hout. by apply said_snoc.
  - by eapply concluded_sending.
  - by eapply concluded_sending.
Qed.

Lemma recv_step fuel hi h0 h st got sent :
  talk hi h0 h st got sent got sent → (length (stream (h_wire h0)) < fuel)%nat →
  wp (h_recv fuel) (λ o h', match o with
    | Ret p => talk hi h0 h' st got sent (got ++ [p]) sent ∧ stale p = false ∧
               command p ≠ Command.Sync
    | o => stopped (concluded hi h0 h') o
    end) h.
Proof.
  intros [Hx Hh Hs Hb Hc Hd] Hf. pose proof (heard_shorter _ _ _ _ Hh).
  eapply wp_mono; [apply h_recv_spec; lia|].
  intros o h' ((Ha & Hb' & Hc') & Hd' & Ho & Hp). rewrite Hc in Hp.
  assert (said sent (outgoing (w_transport (h_wire h0))) (outgoing (w_transport (h_wire h'))))
    as Hs' by congruence.
  assert (∀ o, (∃ s, heard (max_payload (h_config h0)) [] (stream (h_wire h)) s ∧
      silent (max_payload (h_config h0)) s o) ∨
    (∃ p, command p = Command.Sync ∧
      o = Fail (Error.Protocol (ProtocolError.UnexpectedCommand Command.Sync)) ∧
      heard (max_payload (h_config h0)) [p] (stream (h_wire h)) (stream (h_wire h'))) →
    concluded hi h0 h' o) as Hstop.
  { intros o' [(s & Hs0 & Hsil)|(p & Hsync & -> & Hp')].
    - eapply concluded_hearing; [done| |done|done].
      rewrite <- (app_nil_r got). by eapply heard_app.
    - eapply (concluded_refusal hi h0 h' st (h_auth h) got sent p); [done| | |done].
      + unfold react. rewrite Hsync, Ha. done.
      + by eapply heard_app. }
  destruct o as [p|e| | |]; try done; simpl in *; [|by auto..].
  destruct Hp as (Hp & Hst & Hne). split; [|done]. split; try congruence.
  by eapply heard_app.
Qed.

(** The conversation goes on: the reply is what [react] says. *)
Lemma talk_reply hi h0 h st got sent p q st' a' :
  talk hi h0 h st got sent (got ++ [p]) sent → react st p (h_auth h) = (Reply q st', a') →
  talk hi h0 (h_set_auth a' h) st' (got ++ [p]) (sent ++ [q]) (got ++ [p]) sent.
Proof.
  intros [Hx Hh Hs Hb Hc Hd] Hr. split; try done. by eapply Exchange_reply.
Qed.

(** The conversation is over. *)
Lemma talk_decide hi h0 h st got sent p v :
  talk hi h0 h st got sent (got ++ [p]) sent → react st p (h_auth h) = (Decide v, h_auth h) →
  concluded hi h0 h (Ret v).
Proof. intros [Hx Hh Hs Hb Hc Hd] Hr. by eapply concluded_verdict. Qed.

Lemma talk_refuse hi h0 h st got sent p e a' :
  talk hi h0 h st got sent (got ++ [p]) sent → react st p (h_auth h) = (Refuse e, a') →
  concluded hi h0 (h_set_auth a' h) (Fail e).
Proof. intros [Hx Hh Hs Hb Hc Hd] Hr. by eapply concluded_refusal. Qed.

Lemma h_set_auth_id h : h_set_auth (h_auth h) h = h.
Proof. by destruct h. Qed.

(** A verdict ends every stage. *)
Lemma react_verdict st p a v : verdict_of p = Ok v → react st p a = (Decide v, a).
Proof. unfold verdict_of, react. destruct (command p), st; by intros [= <-]. Qed.

(** What is neither stale, nor a verdict, nor SYNC, is AUTH. *)
Lemma not_verdict p q :
  verdict_of p = Err q → stale p = false → command p ≠ Command.Sync →
  q = p ∧ command p = Command.Auth.
Proof. unfold verdict_of, stale. destruct (command p); naive_solver. Qed.

Lemma do_auth_spec fuel hi h0 h sent p :
  talk hi h0 h Greeted [] sent [p] sent → (length (stream (h_wire h0)) < fuel)%nat →
  command p = Command.Auth → is_token p = true →
  wp (do_auth fuel (data p)) (λ o h', concluded hi h0 h' o) h.
Proof.
  intros Ht Hf Hc Htok. unfold do_auth.
  assert (react Greeted p (h_auth h) =
    if negb (len (data p) =? 20) then
      (Refuse (Error.Protocol (ProtocolError.InvalidAuthToken (len (data p)))), h_auth h)
    else match sign (data p) (h_auth h) with
         | (IoOk s, a) => (Reply (packet_auth_signature s) Signed, a)
         | (IoErr why, a) => (Refuse (Error.Auth (AuthError.SignFailed why)), a)
         | (IoDropped, a) => (GiveUp, a)
         end) as Hr by (unfold react; by rewrite Hc, Htok).
  unfold AUTH_TOKEN_LEN. destruct (negb _).
  { apply wp_fail. rewrite <- (h_set_auth_id h). by eapply (talk_refuse _ _ _ _ []). }
  apply wp_bind. unfold wp at 1, h_sign.
  destruct (sign (data p) (h_auth h)) as [[s|why|] a']; simpl.
  2: by eapply (talk_refuse _ _ _ _ []).
  2: { destruct Ht. by eapply (concluded_signing _ _ _ _ _ []). }
  pose proof (talk_reply _ _ _ _ [] _ _ _ _ _ Ht Hr) as Ht1. clear Ht Hr.
  apply wp_bind. eapply wp_mono; [by apply send_step|]. intros [[]|e| | |] h1 Ht2; try done.
  apply wp_bind. eapply wp_mono; [by apply recv_step|]. intros [q|e| | |] h2 Ht3; try done.
  destruct Ht3 as (Ht3 & Hst & Hsync).
  destruct (verdict_of q) as [v|q'] eqn:Hv; [by eapply talk_decide, react_verdict|].
  destruct (not_verdict _ _ Hv Hst Hsync) as [-> Hq].
  assert (react Signed q (h_auth h2) =
    if negb (is_token q) then (Refuse (Error.Auth AuthError.Rejected), h_auth h2)
    else if offer_public_key (h_auth h2)
    then (Reply (packet_auth_public_key (public_key (h_auth h2))) Offered, h_auth h2)
    else (Refuse (Error.Auth AuthError.KeyNotTrusted), h_auth h2)) as Hr
    by (unfold react; by rewrite Hq).
  destruct (negb (is_token q)).
  { apply wp_fail. rewrite <- (h_set_auth_id h2). by eapply talk_refuse. }
  apply wp_bind, wp_gets. destruct (offer_public_key (h_auth h2)); simpl.
  2: { apply wp_fail. rewrite <- (h_set_auth_id h2). by eapply talk_refuse. }
  apply wp_bind, wp_gets. pose proof (talk_reply _ _ _ _ _ _ _ _ _ _ Ht3 Hr) as Ht4.
  rewrite h_set_auth_id in Ht4. clear Hr Ht3.
  apply wp_bind. eapply wp_mono; [by apply send_step|]. intros [[]|e| | |] h3 Ht5; try done.
  apply wp_bind. eapply wp_mono; [by apply recv_step|]. intros [r|e| | |] h4 Ht6; try done.
  destruct Ht6 as (Ht6 & Hst' & Hsync').
  destruct (verdict_of r) as [v|r'] eqn:Hv'; [by eapply talk_decide, react_verdict|].
  destruct (not_verdict _ _ Hv' Hst' Hsync') as [-> Hr].
  apply wp_fail. rewrite <- (h_set_auth_id h4). eapply talk_refuse; [done|].
  unfold react. by rewrite Hr.
Qed.

(** The greeting, and the first answer. *)
Lemma h_open_spec fuel h0 :
  (length (stream (h_wire h0)) < fuel)%nat → w_desync (h_wire h0) = false →
  wp (h_open fuel) (λ o h', concluded [hello h0] h0 h' o) h0.
Proof.
  intros Hf Hd. unfold h_open. apply wp_bind, wp_gets, wp_bind.
  assert (talk [hello h0] h0 h0 Greeted [] ([] ++ [hello h0]) [] []) as Ht
    by (split; auto using heard_nil, said_nil; apply Exchange_greet).
  eapply wp_mono; [by apply send_step|]. intros [[]|e| | |] h1 Ht1; try done.
  apply wp_bind. eapply wp_mono; [by apply recv_step|]. intros [p|e| | |] h2 Ht2; try done.
  destruct Ht2 as (Ht2 & Hst & Hsync).
  destruct (verdict_of p) as [v|p'] eqn:Hv; [by eapply talk_decide, react_verdict|].
  destruct (not_verdict _ _ Hv Hst Hsync) as [-> Hp].
  destruct (is_token p) eqn:Htok; [by eapply do_auth_spec|].
  apply wp_fail. rewrite <- (h_set_auth_id h2). eapply talk_refuse; [done|].
  unfold react. by rewrite Hp, Htok.
Qed.

(** ** What leaves the host *)

(** The conversations, spelled out: the greeting; a signature of the device's
    first token; the public key, once a second token shows that the signature
    was not taken and the key may be offered. *)
Inductive disclosed (hi : Packet) (a0 : A) : list Packet → list Packet → Prop :=
| disclosed_greeting : disclosed hi a0 [] [hi]
| disclosed_signature p s a1 :
    is_token p = true → len (data p) = 20 → sign (data p) a0 = (IoOk s, a1) →
    disclosed hi a0 [p] [hi; packet_auth_signature s]
| disclosed_key p s a1 q :
    is_token p = true → len (data p) = 20 → sign (data p) a0 = (IoOk s, a1) →
    is_token q = true → offer_public_key a1 = true →
    disclosed hi a0 [p; q]
      [hi; packet_auth_signature s; packet_auth_public_key (public_key a1)].

Lemma react_reply st p a q st' a' :
  react st p a = (Reply q st', a') →
  is_token p = true ∧
  ((st = Greeted ∧ st' = Signed ∧ len (data p) = 20 ∧
    ∃ s, q = packet_auth_signature s ∧ sign (data p) a = (IoOk s, a')) ∨
   (st = Signed ∧ st' = Offered ∧ offer_public_key a = true ∧ a' = a ∧
    q = packet_auth_public_key (public_key a))).
Proof.
  unfold react. intros Hr. destruct (command p), st; try done.
  - destruct (is_token p); simpl in Hr; [|done]. split; [done|]. left.
    destruct (Z.eqb_spec (len (data p)) 20); simpl in Hr; [|done].
    destruct (sign (data p) a) as [[s| |] a1]; simplify_eq. eauto 8.
  - destruct (is_token p); simpl in Hr; [|done]. split; [done|]. right.
    by destruct (offer_public_key a); simplify_eq.
Qed.

Lemma exchange_disclosed hi a0 st a got sent :
  Exchange [hi] a0 st a got sent → disclosed hi a0 got sent.
Proof.
  intros Hx. destruct Hx as [|st a got sent p q st' a' Hx Hr]; [constructor|].
  apply react_reply in Hr as (Hp & [(-> & -> & Hl & s & -> & Hs)|(-> & -> & Ho & -> & ->)]).
  - inversion Hx as [|? ? ? ? ? ? ? ? _ Hr]; subst; [by eapply disclosed_signature|].
    apply react_reply in Hr. naive_solver.
  - inversion Hx as [|st1 a1 got1 sent1 p1 q1 st2 a2 Hx1 Hr1]; subst.
    apply react_reply in Hr1 as (Hp1 & [(-> & _ & Hl1 & s & -> & Hs)|(_ & ? & _)]); [|done].
    inversion Hx1 as [|? ? ? ? ? ? ? ? _ Hr2]; subst.
    + by eapply disclosed_key.
    + apply react_reply in Hr2. naive_solver.
Qed.

(** All of [sent] went out, or all but its last packet and a part of that. *)
Definition said_upto (sent : list Packet) (out out' : bytes) : Prop :=
  said sent out out' ∨
  ∃ before q mid, sent = before ++ [q] ∧ said before out mid ∧
    (out' = mid ∨ ∃ f, frame Checksum.Compute q = Ok f ∧ appends_part f mid out').

(** ** The connection *)

Lemma assemble_ok h cnxn c :
  assemble (IoE := IoE) h cnxn = Ok c →
  negotiated_new (h_banner h) cnxn (h_config h) = Ok (c_negotiated c) ∧
  c_table c = table_new (Z.to_nat (max_channels (h_config h))) (rx_policy (c_negotiated c)) ∧
  c_wire c = h_wire h ∧ c_incoming c = [].
Proof.
  unfold assemble. destruct (negotiated_new _ _ _) as [n|e] eqn:Hn; bind_simpl; [|done].
  intros [= <-]. simpl. unfold negotiated_new in Hn.
  destruct (banner_from_bytes _ _); bind_simpl; [|done]. by simplify_eq.
Qed.

Lemma conn_ok_new (c : conn T) n pol : c_table c = table_new n pol → conn_ok c.
Proof.
  intros Ht. assert (∀ i s, t_slots (c_table c) !! i ≠ Some (Some s)) as Hnone.
  { rewrite Ht. intros i s. simpl. intros [? _]%lookup_replicate. done. }
  split.
  - intros i j s1 s2 Hi. by destruct (Hnone i s1).
  - intros i s Hi. by destruct (Hnone i s).
Qed.

(** A connection made at the end of the conversation [got] and [sent] and the
    device's [cnxn]. *)
Record connected (h0 : Handshake T A) (c : conn T) (got sent : list Packet) (cnxn : Packet) :
    Prop := {
  connected_command : command cnxn = Command.Connect;
  connected_disclosed : disclosed (hello h0) (h_auth h0) got sent;
  connected_heard : heard (max_payload (h_config h0)) (got ++ [cnxn])
    (stream (h_wire h0)) (stream (c_wire c));
  connected_said : said sent (outgoing (w_transport (h_wire h0)))
    (outgoing (w_transport (c_wire c)));
  connected_negotiated :
    negotiated_new (h_banner h0) cnxn (h_config h0) = Ok (c_negotiated c);
  connected_table : c_table c =
    table_new (Z.to_nat (max_channels (h_config h0))) (rx_policy (c_negotiated c));
  connected_ok : conn_ok c;
  connected_desync : w_desync (c_wire c) = false;
  connected_incoming : c_incoming c = [];
}.
End Dialogue.

Section Theorems.
Context {T IoE A : Type} `{TransportLaws T IoE} `{Authenticator A}.

(** C14: the handshake follows the protocol.  Over every transport and with
    every key, and with fuel for the bytes that can arrive, [Handshake::open]
    ends, and ends as the reference says: in the verdict or the refusal
    [react] calls for, having sent the frames the conversation contains and
    nothing else, and consumed exactly the packets heard (stale channel packets
    between them skipped); or broken off while sending, receiving or signing
    at some point of such a conversation. *)
Theorem handshake_follows_protocol (fuel : nat) (transport : T) (auth : A) (banner : HostBanner)
    (config : ConnectionConfig) :
  (length (Wire.incoming transport) < fuel)%nat →
  let h0 := handshake_new transport auth banner config in
  let '(o, h) := h_open (IoE := IoE) fuel h0 in concluded [hello h0] h0 h o.
Proof.
  intros Hf h0. pose proof (h_open_spec (IoE := IoE) fuel h0 Hf eq_refl) as Ho.
  unfold wp in Ho. by destruct (h_open fuel h0).
Qed.

(** what a handshake discloses.  However [Handshake::open] ends, what has
    left the host is a prefix of: its greeting, then a signature of one
    20-byte token the device sent, then the public key; the signature only
    after that token, and the public key only after a second token and if the
    authenticator agrees to offer it. *)
Theorem handshake_disclosure (fuel : nat) (transport : T) (auth : A) (banner : HostBanner)
    (config : ConnectionConfig) :
  (length (Wire.incoming transport) < fuel)%nat →
  let h0 := handshake_new transport auth banner config in
  let '(_, h) := h_open (IoE := IoE) fuel h0 in
  ∃ got sent s, disclosed (hello h0) auth got sent ∧
    heard (max_payload config) got (Wire.incoming transport) s ∧
    said_upto sent (outgoing transport) (outgoing (w_transport (h_wire h))).
Proof.
  intros Hf h0. pose proof (h_open_spec (IoE := IoE) fuel h0 Hf eq_refl) as Ho.
  unfold wp in Ho. destruct (h_open fuel h0) as [o h]. simpl in Ho.
  assert (∀ got p s, heard (max_payload config) (got ++ [p]) (Wire.incoming transport) s →
    ∃ s', heard (max_payload config) got (Wire.incoming transport) s') as Hpre.
  { intros got p s Hh. by eapply heard_prefix. }
  unfold said_upto. destruct Ho as [? ? ? ? ? ? Hx _ Hh Hs|? ? ? ? ? ? Hx _ Hh Hs
    |? ? ? ? q ? mid o Hx Hh Hs Ht|? ? ? ? ? ? Hx Hh Hs _|? ? ? ? ? Hx _ Hh Hs];
    pose proof (exchange_disclosed _ _ _ _ _ _ Hx); try destruct (Hpre _ _ _ Hh) as [s' Hh'];
    eauto 10.
  exists got, (sent ++ [q]), s. split; [done|]. split; [done|]. right. unfold torn in Ht.
  exists sent, q, mid. destruct (frame Checksum.Compute q); naive_solver.
Qed.

Lemma concluded_connected (hi : list Packet) (h0 h : Handshake T A) cnxn :
  concluded (IoE := IoE) hi h0 h (Ret (Verdict.Connected cnxn)) →
  command cnxn = Command.Connect ∧ h_banner h = h_banner h0 ∧ h_config h = h_config h0 ∧
  w_desync (h_wire h) = false ∧
  ∃ st a got sent, Exchange (IoE := IoE) hi (h_auth h0) st a got sent ∧
    heard (max_payload (h_config h0)) (got ++ [cnxn]) (stream (h_wire h0)) (stream (h_wire h)) ∧
    said sent (outgoing (w_transport (h_wire h0))) (outgoing (w_transport (h_wire h))).
Proof.
  inversion 1 as [st a got sent p v Hx Hr Hh Hs Hb Hc Hd| |? ? ? ? q ? ? ? ? ? ? Ht
    |? ? ? ? ? ? ? ? ? Hsil|]; subst.
  - assert (p = cnxn ∧ command p = Command.Connect) as [-> Hp].
    { unfold react in Hr. destruct (command p) eqn:Hp; try (by simplify_eq).
      all: repeat case_match; simplify_eq. }
    eauto 15.
  - unfold torn in Ht. destruct (frame Checksum.Compute q); naive_solver.
  - unfold silent in Hsil. naive_solver.
Qed.

Lemma concluded_ends (hi : list Packet) (h0 h : Handshake T A) o :
  concluded (IoE := IoE) hi h0 h o → o ≠ NoFuel ∧ o ≠ Panicked.
Proof.
  inversion 1 as [| |? ? ? ? q ? ? ? ? ? ? Ht|? ? ? ? ? ? ? ? ? Hsil|]; subst; try done.
  - unfold torn in Ht. destruct (frame Checksum.Compute q); naive_solver.
  - unfold silent in Hsil. naive_solver.
Qed.

(** [Connection::connect] always ends, and a connection it returns is the
    one the handshake agreed on: its last packet was the device's CNXN, the
    limits are those [Negotiated::new] computes from the two banners and that
    packet, the channel table is empty and of the configured size, the stream
    is in sync, and not a byte behind the CNXN has been lost or consumed. *)
Theorem connect_connects (fuel : nat) (transport : T) (auth : A) (banner : HostBanner)
    (config : ConnectionConfig) :
  (length (Wire.incoming transport) < fuel)%nat →
  match connect (IoE := IoE) fuel transport auth banner config with
  | Ret c => ∃ got sent cnxn,
      connected (IoE := IoE) (handshake_new transport auth banner config) c got sent cnxn
  | NoFuel | Panicked => False
  | _ => True
  end.
Proof.
  intros Hf. unfold connect. set (h0 := handshake_new transport auth banner config).
  pose proof (h_open_spec (IoE := IoE) fuel h0 Hf eq_refl) as Ho. unfold wp in Ho.
  destruct (h_open fuel h0) as [o h]. simpl in Ho.
  destruct o as [[cnxn|offer]|e| | |]; simpl; try done.
  2: by destruct (concluded_ends _ _ _ _ Ho).
  2: by destruct (concluded_ends _ _ _ _ Ho).
  destruct (assemble h cnxn) as [c|e] eqn:Hc; [|done].
  apply assemble_ok in Hc as (Hn & Ht & Hw & Hi).
  apply concluded_connected in Ho as (Hp & Hb & Hcf & Hd & st & a & got & sent & Hx & Hh & Hs).
  rewrite Hb, Hcf in *. exists got, sent, cnxn. split; try congruence.
  - by eapply exchange_disclosed.
  - by eapply conn_ok_new.
Qed.

Section Tls.
Context `{StartTls T IoE}.

Lemma wp_classified {B} (m : prog (Handshake T A) (Error IoE) B) Q h :
  wp m (λ o h', match o with
    | Fail e => Q (Fail (classify_before_cnxn h' e)) h'
    | o => Q o h'
    end) h → wp (classified m) Q h.
Proof. unfold wp, classified. by destruct (m h) as [[] h']. Qed.

(** Inside TLS: a CNXN, or AUTH all over again. *)
Definition tls_post (h2 : Handshake T A) (o : outcome (Error IoE) Packet) (h' : Handshake T A) :
    Prop :=
  match o with
  | Ret cnxn => command cnxn = Command.Connect ∧ ∃ got,
      heard (max_payload (h_config h2)) (got ++ [cnxn]) (stream (h_wire h2)) (stream (h_wire h'))
  | NoFuel | Panicked => False
  | _ => True
  end.

Lemma inside_tls fuel h2 :
  (length (stream (h_wire h2)) < fuel)%nat → w_desync (h_wire h2) = false →
  wp (pkt ← classified (h_recv fuel);
      if bool_decide (command pkt = Command.Connect) then mret pkt
      else if is_token pkt then
        verdict ← classified (do_auth fuel (data pkt));
        match verdict with
        | Verdict.Connected cnxn => mret cnxn
        | Verdict.StartTls _ =>
            fail (Error.Protocol (ProtocolError.UnexpectedCommand Command.StartTls))
        end
      else fail (Error.Protocol (ProtocolError.UnexpectedCommand (command pkt))))
    (tls_post h2) h2.
Proof.
  intros Hf Hd. apply wp_bind, wp_classified.
  assert (talk (IoE := IoE) [] h2 h2 Greeted [] [] [] []) as Ht
    by (split; auto using heard_nil, said_nil; apply Exchange_greet).
  eapply wp_mono; [by apply (recv_step fuel [])|]. intros [p|e| | |] h3 Ht1; try done; simpl.
  destruct Ht1 as (Ht1 & Hst & Hsync).
  case_bool_decide as Hc.
  { apply wp_ret. split; [done|]. exists []. apply (talk_heard _ _ _ _ _ _ _ _ Ht1). }
  destruct (is_token p) eqn:Htok; [|done].
  assert (command p = Command.Auth) as Hp.
  { unfold is_token in Htok. by apply andb_prop in Htok as [?%bool_decide_eq_true _]. }
  apply wp_bind, wp_classified. eapply wp_mono; [by apply (do_auth_spec fuel [] h2 h3 [])|].
  intros [[cnxn|]|e| | |] h4 Hend; try done.
  - apply concluded_connected in Hend as (Hcc & _ & _ & _ & st & a & got & sent & _ & Hh & _).
    apply wp_ret. split; [done|]. by exists got.
  - by destruct (concluded_ends _ _ _ _ Hend).
  - by destruct (concluded_ends _ _ _ _ Hend).
Qed.

(** [upgrade] ended well: the CNXN came out of the TLS session. *)
Definition upgraded (h : Handshake T A) (o : outcome (Error IoE) Packet) (h' : Handshake T A) :
    Prop :=
  match o with
  | Ret cnxn => w_recv_buf (h_wire h) = [] ∧ command cnxn = Command.Connect ∧
      ∃ t1 t2 got, start_tls t1 = (IoOk tt, t2) ∧
        said [mkPacket Command.StartTls 0x01000000 0 []]
          (outgoing (w_transport (h_wire h))) (outgoing t1) ∧
        heard (max_payload (h_config h)) (got ++ [cnxn]) (Wire.incoming t2) (stream (h_wire h'))
  | NoFuel | Panicked => False
  | _ => True
  end.

Lemma upgrade_spec fuel offer h :
  (∀ t t', start_tls t = (IoOk tt, t') → (length (Wire.incoming t') < fuel)%nat) →
  w_desync (h_wire h) = false → w_recv_buf (h_wire h) = [] →
  wp (upgrade fuel offer) (upgraded h) h.
Proof.
  intros Hf Hd Hb. unfold upgrade. apply wp_bind. unfold wp at 1. simpl.
  rewrite bool_decide_true by done. simpl.
  apply wp_bind. eapply wp_mono; [by apply h_send_spec|].
  intros [[]|e| | |] h1 ((_ & _ & Hcf) & _ & Hbuf & Hsent); try done.
  apply wp_bind. unfold h_on_wire. apply wp_zoom, wp_await.
  destruct (start_tls (w_transport (h_wire h1))) as [[[]|e|] t2] eqn:Htls; [|done..].
  destruct Hsent as (Hd1 & f & Hfr & Hout).
  set (h2 := h_set_wire (set_transport t2 (h_wire h1)) h1).
  assert (stream (h_wire h2) = Wire.incoming t2) as Hstr
    by (unfold stream, h2; simpl; by rewrite Hbuf, Hb).
  eapply wp_mono; [apply (inside_tls fuel h2); [rewrite Hstr; eauto|done]|].
  intros [cnxn|e| | |] h3 Hpost; try done. destruct Hpost as (Hc & got & Hh).
  split; [done|]. split; [done|]. exists (w_transport (h_wire h1)), t2, got. split; [done|].
  rewrite Hstr in Hh. simpl in Hh. rewrite Hcf in Hh. split; [|done].
  rewrite Hout. by apply (said_snoc []); [apply said_nil|].
Qed.

End Tls.
End Theorems.

(** ** A sample run *)

(** A key that signs by repeating the token. *)
Record toy_key : Type := { toy_offers : bool }.

#[export] Instance toy_authenticator : Authenticator toy_key := {
  sign token k := (IoOk (token ++ token), k);
  public_key _ := bs "QAAA user@host";
  offer_public_key := toy_offers;
}.

Definition framed (p : Packet) : bytes :=
  match frame Checksum.Compute p with Ok f => f | Err _ => [] end.

Definition toy_token : Packet :=
  mkPacket Command.Auth AUTH_TOKEN 0 (bs "01234567890123456789").
Definition toy_cnxn : Packet :=
  mkPacket Command.Connect ADB_VERSION 4096 (bs "device::features=shell_v2").

(** A stale CLSE, two tokens, the CNXN and the first bytes of what follows. *)
Definition toy_device : Script.script :=
  Script.mkScript
    (framed (mkPacket Command.Close 9 1 []) ++ framed toy_token ++ framed toy_token
     ++ framed toy_cnxn ++ bs "OPEN") [] [].

Definition toy_run (offers : bool) : outcome (Error Script.error) (conn Script.script) :=
  connect 200 toy_device {| toy_offers := offers |} host_banner_default config_new.

Lemma connect_connects_witness :
  match toy_run true with
  | Ret c => stream (c_wire c) = bs "OPEN" ∧ n_max_payload (c_negotiated c) = 4096 ∧
      ∃ got sent cnxn, connected (IoE := Script.error)
        (handshake_new toy_device {| toy_offers := true |} host_banner_default config_new)
        c got sent cnxn
  | _ => False
  end.
Proof.
  assert (length (Wire.incoming toy_device) < 200)%nat as Hf by (by vm_compute; lia).
  pose proof (connect_connects (IoE := Script.error) 200 toy_device {| toy_offers := true |}
    host_banner_default config_new Hf) as Hc.
  unfold toy_run.
  assert (match connect (IoE := Script.error) 200 toy_device {| toy_offers := true |}
      host_banner_default config_new with
    | Ret c => stream (c_wire c) = bs "OPEN" ∧ n_max_payload (c_negotiated c) = 4096
    | _ => False
    end) as He by (vm_compute; repeat split).
  destruct (connect _ _ _ _ _); [|destruct He..]. destruct He as [He1 He2].
  split; [exact He1|]. split; [exact He2|exact Hc].
Defined.

Definition toy_start (offers : bool) : Handshake Script.script toy_key :=
  handshake_new toy_device {| toy_offers := offers |} host_banner_default config_new.

Lemma handshake_follows_protocol_witness :
  let '(o, h) := h_open (IoE := Script.error) 200 (toy_start false) in
  o = Fail (Error.Auth AuthError.KeyNotTrusted) ∧
  concluded [hello (toy_start false)] (toy_start false) h o.
Proof.
  assert (length (Wire.incoming toy_device) < 200)%nat as Hf by (by vm_compute; lia).
  pose proof (handshake_follows_protocol (IoE := Script.error) 200 toy_device
    {| toy_offers := false |} host_banner_default config_new Hf) as Hc.
  assert (fst (h_open (IoE := Script.error) 200 (toy_start false))
    = Fail (Error.Auth AuthError.KeyNotTrusted)) as He by (vm_compute; repeat split).
  cbv zeta in Hc. fold (toy_start false) in Hc.
  destruct (h_open 200 (toy_start false)). split; [exact He|exact Hc].
Defined.

Lemma handshake_disclosure_witness :
  let '(_, h) := h_open (IoE := Script.error) 200 (toy_start false) in
  ∃ got sent s, disclosed (hello (toy_start false)) {| toy_offers := false |} got sent ∧
    heard (max_payload config_new) got (Wire.incoming toy_device) s ∧
    said_upto sent (outgoing toy_device) (outgoing (w_transport (h_wire h))).
Proof.
  assert (length (Wire.incoming toy_device) < 200)%nat as Hf by (by vm_compute; lia).
  pose proof (handshake_disclosure (IoE := Script.error) 200 toy_device
    {| toy_offers := false |} host_banner_default config_new Hf) as Hd.
  cbv zeta in Hd. fold (toy_start false) in Hd.
  destruct (h_open 200 (toy_start false)). exact Hd.
Defined.

(** TLS on the scripted transport: the session carries a CNXN. *)
#[local] Instance toy_tls : StartTls Script.script Script.error := {
  start_tls t := (IoOk tt, Script.mkScript (framed toy_cnxn) (Script.s_out t) []);
  is_key_rejected e := match e with Script.Reset => true | Script.Other => false end;
}.

Definition toy_offer : Packet := mkPacket Command.StartTls STLS_VERSION 0 [].

