(* ===== verification/Outbound.v ===== *)
(** * What a write puts on the wire

    While [write_channel] waits for flow control it dispatches the packets of
    other channels, and so writes their OKAYs and CLSEs between its own WRTEs.
    [chatter] is that traffic; the theorem of the file is that the WRTEs
    between it carry exactly the data, in order, in pieces no larger than the
    negotiated maximum. *)

From S2P Require Import Prelude Errors Protocol Banner Config SendQueue Slot ChannelTable Wire.
From S2P Require Import Connection ConnSteps Demux.

(** What a send left on the wire: the packet's frame, or a part of it. *)
Definition whole (k : Checksum) (e : Packet * bytes) : Prop := frame k (fst e) = Ok (snd e).
Definition begun (k : Checksum) (e : Packet * bytes) : Prop :=
  ∃ rest, frame k (fst e) = Ok (snd e ++ rest).

(** The data of the WRTEs among sends. *)
Definition written (es : list (Packet * bytes)) : bytes :=
  concat (data ∘ fst <$> filter (λ e, command (fst e) = Command.Write) es).

Lemma written_app es es' : written (es ++ es') = written es ++ written es'.
Proof. unfold written. by rewrite filter_app, fmap_app, concat_app. Qed.

Lemma whole_begun k e : whole k e → begun k e.
Proof. intros Hw. exists []. by rewrite app_nil_r. Qed.

Lemma set_wire_id {T} (c : conn T) : set_wire (c_wire c) c = c.
Proof. by destruct c. Qed.

Section Outbound.
Context {T IoE : Type} `{TransportLaws T IoE}.
Implicit Types c : conn T.

Definition emits (es : list (Packet * bytes)) c c' : Prop :=
  outgoing (w_transport (c_wire c')) = outgoing (w_transport (c_wire c)) ++ concat (es.*2).

Lemma emits_nil c c' :
  outgoing (w_transport (c_wire c')) = outgoing (w_transport (c_wire c)) → emits [] c c'.
Proof. unfold emits. intros ->. by rewrite app_nil_r. Qed.

Lemma emits_app es es' c1 c2 c3 : emits es c1 c2 → emits es' c2 c3 → emits (es ++ es') c1 c3.
Proof. unfold emits. intros H12 ->. by rewrite H12, fmap_app, concat_app, app_assoc. Qed.

(** An acknowledgement or a close, or the beginning of one. *)
Definition aside (k : Checksum) (e : Packet * bytes) : Prop :=
  (command (fst e) = Command.Ready ∨ command (fst e) = Command.Close) ∧ begun k e.

(** Nothing but acknowledgements and closes was written. *)
Definition chatter c c' : Prop :=
  c_negotiated c' = c_negotiated c ∧
  ∃ es, emits es c c' ∧ Forall (aside (checksum (c_negotiated c))) es.

#[local] Instance chatter_preorder : PreOrder chatter.
Proof.
  split.
  - intros c. split; [done|]. exists []. split; [by apply emits_nil|constructor].
  - intros c1 c2 c3 [Hn (es & He & Hf)] [Hn' (es' & He' & Hf')]. split; [congruence|].
    exists (es ++ es'). split; [by eapply emits_app|].
    apply Forall_app. split; [done|]. by rewrite <- Hn.
Qed.

Lemma chatter_same c c' :
  c_negotiated c' = c_negotiated c →
  outgoing (w_transport (c_wire c')) = outgoing (w_transport (c_wire c)) → chatter c c'.
Proof. intros Hn Ho. split; [done|]. exists []. split; [by apply emits_nil|constructor]. Qed.

(** A send puts its frame, or a beginning of it, on the wire. *)
Lemma send_emits pkt k c :
  wp (on_wire (send_pkt pkt k)) (λ o c',
    c_table c' = c_table c ∧ c_negotiated c' = c_negotiated c ∧
    match o with
    | Ret _ => ∃ b, whole k (pkt, b) ∧ emits [(pkt, b)] c c'
    | Fail _ | Dropped => ∃ es, emits es c c' ∧ (es = [] ∨ ∃ b, es = [(pkt, b)] ∧ begun k (pkt, b))
    | Panicked | NoFuel => False
    end) c.
Proof.
  apply wp_on_wire. eapply wp_mono; [apply send_pkt_spec|]. intros o w' Hs.
  split; [done|]. split; [done|]. unfold send_contract in Hs.
  destruct (w_desync (c_wire c)).
  { destruct Hs as [-> ->]. exists []. split; [by apply emits_nil|by left]. }
  destruct (frame k pkt) as [f|e] eqn:Hf.
  2: { destruct Hs as [-> ->]. exists []. split; [by apply emits_nil|by left]. }
  destruct Hs as (_ & _ & (p & s & -> & Hout) & Ho).
  assert (emits [(pkt, p)] c (set_wire w' c)) as He
    by (unfold emits; simpl; by rewrite Hout, app_nil_r).
  destruct o as [[]|e| | |]; try done.
  - destruct Ho as [Ho _]. exists (p ++ s). split; [done|].
    unfold emits. simpl. by rewrite Ho, app_nil_r.
  - exists [(pkt, p)]. split; [done|]. right. exists p. split; [done|]. by exists s.
  - exists [(pkt, p)]. split; [done|]. right. exists p. split; [done|]. by exists s.
Qed.

Lemma chatter_send pkt c :
  command pkt = Command.Ready ∨ command pkt = Command.Close →
  chatter c (snd (on_wire (send_pkt (IoE := IoE) pkt (checksum (c_negotiated c))) c)).
Proof.
  intros Hc. pose proof (send_emits pkt (checksum (c_negotiated c)) c) as (_ & Hn & Ho).
  destruct (on_wire _ c) as [o c']. simpl in *. split; [done|].
  destruct o; try done.
  { destruct Ho as (b & Hw & He). exists [(pkt, b)]. split; [done|].
    apply Forall_singleton. split; [done|by apply whole_begun]. }
  all: destruct Ho as (es & He & [->|(b & -> & Hb)]); eexists; (split; [done|]);
    by rewrite ?Forall_singleton, ?Forall_nil.
Qed.

Lemma chatter_conn_send pkt :
  command pkt = Command.Ready ∨ command pkt = Command.Close →
  steps chatter (conn_send pkt : prog _ (Error IoE) _).
Proof. intros Hc c. by apply chatter_send. Qed.

Lemma chatter_send_okay ack : steps chatter (send_okay ack : prog _ (Error IoE) _).
Proof.
  intros c. unfold send_okay, checksum_mode, send_okay_to, mbind, prog_bind, gets.
  rewrite send_raw_pkt. apply chatter_send. by left.
Qed.

Lemma chatter_conn_dispatch pkt : steps chatter (conn_dispatch pkt : prog _ (Error IoE) _).
Proof.
  unfold conn_dispatch. sbind.
  - apply steps_catch. unfold act_on. sbind.
    + apply steps_state. intros c. destruct (dispatch pkt (c_table c)). by apply chatter_same.
    + intros out. destruct out; lazymatch goal with
        | |- steps _ (send_okay _) => apply chatter_send_okay
        | |- steps _ (mret _) => intros c; reflexivity
        | |- steps _ (fail _) => intros c; reflexivity
        | _ => idtac
        end.
      * sbind; [intros c; reflexivity|]. intros c. case_match.
        -- apply chatter_conn_send. by right.
        -- apply steps_modify. intros. by apply chatter_same.
      * apply steps_modify. intros. by apply chatter_same.
      * apply chatter_conn_send. by right.
  - intros [|e]; [steps_auto|]. destruct (connection_gone e); steps_auto.
Qed.

Lemma conn_recv_spec c :
  wp conn_recv (λ o c', chatter c c' ∧ c_table c' = c_table c ∧
    match o with
    | Ret pkt => coming c = pkt :: coming c'
    | Panicked | NoFuel => False
    | _ => True
    end) c.
Proof.
  unfold conn_recv. apply wp_bind, wp_gets, wp_on_wire.
  eapply wp_mono; [apply recv_pkt_spec|]. intros o w' (_ & Hout & _ & Ho).
  split; [by apply chatter_same|]. split; [done|]. destruct o; try done.
  by apply all_packets_cons.
Qed.

(** Dispatching ends and takes nothing from the stream. *)
Lemma conn_dispatch_ends pkt c :
  wp (conn_dispatch pkt : prog _ (Error IoE) _) (λ o c',
    chatter c c' ∧ coming c' = coming c ∧ o ≠ NoFuel ∧ o ≠ Panicked) c.
Proof.
  pose proof (chatter_conn_dispatch pkt c) as Hch.
  pose proof (steps_conn_dispatch (IoE := IoE) same_stream pkt c) as Hs.
  apply (same_stream_coming (IoE := IoE)) in Hs.
  pose proof (conn_dispatch_acted pkt c) as Ha. unfold wp in *.
  destruct (conn_dispatch pkt c) as [o c']. simpl in *. split; [done|]. split; [done|].
  by destruct o.
Qed.

(** [wait_ack] ended; if it returned, the channel has something to send. *)
Definition acked ch c (o : outcome (Error IoE) unit) c' : Prop :=
  chatter c c' ∧
  match o with
  | Ret _ => (length (coming c') <= length (coming c))%nat ∧
      ∃ s b, table_get ch (c_table c') = Some s ∧ budget s = Some b
  | Panicked | NoFuel => False
  | _ => True
  end.

Lemma acked_fail ch c e c' : chatter c c' → acked ch c (Fail e) c'.
Proof. by split. Qed.

Lemma wait_ack_spec fuel ch c :
  (length (coming c) < fuel)%nat → wp (wait_ack fuel ch) (acked ch c) c.
Proof.
  revert c. induction fuel as [|fuel IH]; intros c Hf; [lia|]. simpl.
  apply wp_bind, wp_with_slot. destruct (table_get ch (c_table c)) as [s|] eqn:Hg.
  2: { apply acked_fail. reflexivity. }
  simpl. set (c1 := set_table (table_put ch s (c_table c)) c).
  assert (chatter c c1) as H1 by (by apply chatter_same).
  assert (coming c1 = coming c) as Hc1 by done.
  destruct (is_closed s); [by apply acked_fail|]. destruct (budget s) as [b|] eqn:Hb.
  { split; [done|]. split; [apply Nat.le_refl|]. exists s, b. split; [|done]. unfold c1. simpl.
    by rewrite (table_get_put _ _ _ _ _ Hg), decide_True. }
  apply wp_bind. unfold wp at 1. simpl. apply wp_bind, wp_lift.
  destruct (table_ids ch (table_put ch s (c_table c))) as [ids|e]; [|by apply acked_fail].
  apply wp_bind. eapply wp_mono; [apply conn_recv_spec|].
  intros o c2 (H2' & Ht2 & Ho). assert (chatter c c2) as Hch by (by transitivity c1).
  destruct o as [pkt|e| | |]; try done. rewrite Hc1 in Ho. rewrite Ho in Hf. simpl in Hf.
  assert (∀ c3, chatter c c3 → coming c3 = coming c2 →
    wp (wait_ack fuel ch) (acked ch c) c3) as Hgo.
  { intros c3 Hch3 Hc3. eapply wp_mono; [apply IH; rewrite Hc3; lia|].
    intros o c4 [Hch4 Ho4]. split; [by transitivity c3|]. destruct o; try done.
    rewrite Hc3 in Ho4. rewrite Ho. simpl. split; [lia|]. by destruct Ho4. }
  destruct (_ && _).
  - apply wp_bind, wp_state. destruct (table_get ch (c_table c2)) as [s2|]; simpl.
    2: { apply wp_bind, wp_lift. by apply Hgo. }
    destruct (apply_ready (data pkt) s2) as [s3|e]; simpl; [|by apply acked_fail].
    apply wp_bind, wp_lift. by apply Hgo.
  - destruct (closed_by ids pkt).
    + apply wp_bind. unfold wp at 1, if_slot. destruct (table_get ch (c_table c2));
        by apply acked_fail.
    + apply wp_bind. eapply wp_mono; [apply conn_dispatch_ends|].
      intros o c3 (Hch3 & Hc3 & Hne). assert (chatter c c3) by (by transitivity c2).
      destruct o; try done; [by apply Hgo|naive_solver..].
Qed.

(** What may go out during a write on [ch]: chatter, and its own WRTEs. *)
Definition piece (k : Checksum) (ch : ChannelId) (max : Z) (e : Packet * bytes) : Prop :=
  begun k e ∧
  (command (fst e) = Command.Ready ∨ command (fst e) = Command.Close ∨
   command (fst e) = Command.Write ∧ arg0 (fst e) = ch_local ch ∧ 0 < len (data (fst e)) <= max).

(** How a write of [d] on [ch] from [c] can end. *)
Definition delivered (k : Checksum) (ch : ChannelId) (max : Z) (d : bytes) c
    (o : outcome (Error IoE) unit) c' : Prop :=
  c_negotiated c' = c_negotiated c ∧
  ∃ es rest, emits es c c' ∧ Forall (piece k ch max) es ∧ d = written es ++ rest ∧
    match o with
    | Ret _ => rest = [] ∧ Forall (λ e, command (fst e) = Command.Write → whole k e) es
    | Panicked | NoFuel => False
    | _ => True
    end.

Lemma aside_written k es : Forall (aside k) es → written es = [].
Proof.
  induction 1 as [|e es [Hc _] _ IH]; [done|]. unfold written in *.
  rewrite filter_cons_False; [done|]. destruct Hc; congruence.
Qed.

(** Chatter, then a write. *)
Lemma delivered_chatter k ch max d c c1 o c2 :
  k = checksum (c_negotiated c) → chatter c c1 → delivered k ch max d c1 o c2 →
  delivered k ch max d c o c2.
Proof.
  intros -> [Hn (es & He & Hf)] (Hn' & es' & rest & He' & Hf' & -> & Ho).
  split; [congruence|]. exists (es ++ es'), rest. split; [by eapply emits_app|].
  split. { apply Forall_app. split; [|done]. eapply Forall_impl; [exact Hf|].
    unfold aside, piece. naive_solver. }
  rewrite written_app, (aside_written _ _ Hf). split; [done|]. destruct o; try done.
  destruct Ho as [-> Hw]. split; [done|]. apply Forall_app. split; [|done].
  eapply Forall_impl; [exact Hf|]. unfold aside. intros e [[Hc|Hc] _]; congruence.
Qed.

(** Nothing went out. *)
Lemma delivered_stop k ch max d c (o : outcome (Error IoE) unit) c' :
  c_negotiated c' = c_negotiated c →
  outgoing (w_transport (c_wire c')) = outgoing (w_transport (c_wire c)) →
  match o with Fail _ | Dropped => True | _ => False end → delivered k ch max d c o c'.
Proof.
  intros Hn Ho Hstop. split; [done|]. exists [], d. split; [by apply emits_nil|].
  split; [constructor|]. by destruct o.
Qed.

(** One WRTE, then the rest of the write. *)
Lemma delivered_piece k ch max pkt b d c c1 o c2 :
  c_negotiated c1 = c_negotiated c → emits [(pkt, b)] c c1 → whole k (pkt, b) →
  command pkt = Command.Write → arg0 pkt = ch_local ch → 0 < len (data pkt) <= max →
  delivered k ch max d c1 o c2 → delivered k ch max (data pkt ++ d) c o c2.
Proof.
  intros Hn He Hw Hc Ha Hl (Hn' & es & rest & He' & Hf & -> & Ho). split; [congruence|].
  exists ((pkt, b) :: es), rest. split; [by apply (emits_app [_] _ _ c1)|].
  split. { constructor; [|done]. split; [by apply whole_begun|]. auto. }
  split. { unfold written. rewrite filter_cons_True by done. simpl. by rewrite app_assoc. }
  destruct o; try done. destruct Ho as [-> Hf']. auto.
Qed.

(** A WRTE that broke off. *)
Lemma delivered_torn k ch max pkt es d c (o : outcome (Error IoE) unit) c' :
  c_negotiated c' = c_negotiated c → emits es c c' →
  es = [] ∨ (∃ b, es = [(pkt, b)] ∧ begun k (pkt, b)) →
  command pkt = Command.Write → arg0 pkt = ch_local ch → 0 < len (data pkt) <= max →
  match o with Fail _ | Dropped => True | _ => False end →
  delivered k ch max (data pkt ++ d) c o c'.
Proof.
  intros Hn He Hes Hc Ha Hl Hstop. split; [done|].
  destruct Hes as [->|(b & -> & Hb)].
  - exists [], (data pkt ++ d). split; [done|]. split; [constructor|]. by destruct o.
  - exists [(pkt, b)], d. split; [done|]. split; [apply Forall_singleton; split; auto|].
    unfold written. rewrite filter_cons_True by done. simpl. rewrite app_nil_r.
    split; [done|]. by destruct o.
Qed.

Lemma budget_pos s b : budget s = Some b → 0 < b.
Proof.
  unfold budget. destruct (p_ack _).
  - destruct (sl_wrte_acked s); [|done]. by intros [= <-].
  - case_cmp; [|done]. by intros [= <-].
Qed.

(** One round of the loop, from the point where the budget is known. *)
Lemma write_round rounds fuel ch max n d s c :
  let k := checksum (c_negotiated c) in
  table_get ch (c_table c) = Some s → 0 < n <= max → n <= len d →
  (∀ c', coming c' = coming c → c_negotiated c' = c_negotiated c →
    wp (write_loop rounds fuel ch max k (zdrop n d)) (delivered k ch max (zdrop n d) c') c') →
  wp (c ← get;
      ids ← lift (table_ids ch (c_table c));
      on_wire (send_raw Command.Write ids (ztake n d) k) ≫= λ _,
      with_slot ch (λ s, (tt, spend n s)) ≫= λ _,
      write_loop rounds fuel ch max k (zdrop n d)) (delivered k ch max d c) c.
Proof.
  cbv zeta. intros Hg Hn Hle Hgo. apply wp_bind. unfold wp at 1. simpl. apply wp_bind, wp_lift.
  unfold table_ids. rewrite Hg. simpl.
  destruct (slot_ids s) as [ids|] eqn:Hids; [|by apply delivered_stop].
  apply slot_ids_some in Hids as [_ Hids].
  apply table_get_some in Hg as Hloc. destruct Hloc as [_ Hloc].
  simpl. rewrite send_raw_pkt. simpl. set (k := checksum (c_negotiated c)) in *.
  set (pkt := mkPacket Command.Write (local ids) (remote ids) (ztake n d)).
  assert (0 < len (data pkt) <= max) as Hl by (unfold pkt; simpl; rewrite len_ztake; lia).
  assert (∀ o c', delivered k ch max (data pkt ++ zdrop n d) c o c' → delivered k ch max d c o c')
    as Hcut by (unfold pkt; simpl; by rewrite ztake_zdrop).
  assert (arg0 pkt = ch_local ch) as Ha by (simpl; congruence).
  apply wp_bind. eapply wp_mono.
  { apply wp_steps; [apply (cr_send (R := same_stream))|apply send_emits]. }
  intros o c1 ((Ht & Hn1 & Ho) & Hs%(same_stream_coming (IoE := IoE))).
  destruct o as [[]|e| | |]; try done.
  2, 3: destruct Ho as (es & He & Hes); apply Hcut; by eapply delivered_torn.
  destruct Ho as (b & Hw & He). apply wp_bind, wp_with_slot. rewrite Ht, Hg. simpl.
  eapply wp_mono; [by apply Hgo|]. intros o c2 Hd. apply Hcut.
  eapply delivered_piece; [exact Hn1|exact He|done|done|done|done|].
  eapply delivered_chatter; [..|exact Hd]; [by rewrite Hn1|by apply chatter_same].
Qed.

Lemma write_loop_spec rounds fuel ch max d c :
  let k := checksum (c_negotiated c) in
  1 <= max → (length d < rounds)%nat → (length (coming c) < fuel)%nat →
  wp (write_loop rounds fuel ch max k d) (delivered k ch max d c) c.
Proof.
  cbv zeta. intros Hmax. revert d c. induction rounds as [|rounds IH]; intros d c Hr Hf; [lia|].
  simpl. destruct d as [|x d']; [|set (d := x :: d') in *].
  { split; [done|]. exists [], []. split; [by apply emits_nil|]. by repeat constructor. }
  apply wp_bind. eapply wp_mono; [by apply wait_ack_spec|]. intros o c1 [Hch Ho].
  pose proof (proj1 Hch) as Hn.
  destruct o as [[]|e| | |]; try done;
    [|by eapply delivered_chatter; [done|exact Hch|apply delivered_stop]..].
  destruct Ho as (Hlen & s & b & Hg & Hb). pose proof (budget_pos _ _ Hb).
  apply wp_bind, wp_with_slot. rewrite Hg. simpl. rewrite Hb. simpl.
  set (c2 := set_table (table_put ch s (c_table c1)) c1).
  assert (chatter c c2) as H2' by (by transitivity c1; [|by apply chatter_same]).
  assert (table_get ch (c_table c2) = Some s) as Hg2
    by (unfold c2; simpl; by rewrite (table_get_put _ _ _ _ _ Hg), decide_True).
  assert (0 < len d) as Hd by (unfold d; zlen).
  set (n := Z.min (Z.min (len d) max) b) in *. assert (0 < n) by lia.
  destruct (Z.leb_spec n 0) as [|_]; [lia|].
  eapply wp_mono; [|intros o c'; by apply delivered_chatter].
  rewrite <- Hn. change (c_negotiated c1) with (c_negotiated c2).
  apply (write_round _ _ _ _ _ _ s); [done|lia|lia|].
  intros c3 Hc3 Hn3. rewrite <- Hn3. apply IH.
  - rewrite zdrop_drop, length_drop. unfold d at 1. simpl. unfold d in Hr. simpl in Hr. lia.
  - rewrite Hc3. change (coming c2) with (coming c1). lia.
Qed.
(** *** Reading writes nothing else *)

Lemma chatter_get : steps chatter (get : prog (conn T) (Error IoE) _).
Proof. intros c. simpl. reflexivity. Qed.

Lemma chatter_with_slot {A} ch (f : ChannelSlot → A * ChannelSlot) :
  steps chatter (with_slot ch f : prog _ (Error IoE) A).
Proof.
  intros c. unfold with_slot. destruct (table_get ch (c_table c)) as [s|]; [|simpl; reflexivity].
  destruct (f s). by apply chatter_same.
Qed.

Lemma chatter_quiet_okay (o : option PendingAck) :
  steps chatter (match o with
                 | Some ack => catch (send_okay ack) ≫= λ _, mret tt
                 | None => mret tt
                 end : prog _ (Error IoE) unit).
Proof.
  destruct o as [ack|]; [|steps_auto]. sbind; [apply steps_catch, chatter_send_okay|steps_auto].
Qed.

Lemma chatter_take_buffered ch want : steps chatter (conn_take_buffered ch want : prog _ (Error IoE) _).
Proof.
  unfold conn_take_buffered. sbind; [apply chatter_get|]. intros c. sbind.
  { case_match; [|steps_auto]. intros c'. unfold on_wire, zoom, desync_check.
    by destruct (w_desync (c_wire c')); apply chatter_same. }
  intros _. sbind; [apply chatter_with_slot|]. intros o. sbind; [apply chatter_quiet_okay|].
  intros _. sbind; [apply chatter_with_slot|]. steps_auto.
Qed.

Lemma chatter_recv {F I} (poll : F → option I * F) mp race f :
  steps chatter (on_wire (recv_pkt_or poll recv_fuel mp race f) : prog _ (Error IoE) _).
Proof.
  intros c. pose proof (recv_pkt_or_spec poll recv_fuel mp race f (c_wire c) (recv_fuel_enough mp))
    as Hr. unfold wp, on_wire, zoom in *. destruct (recv_pkt_or _ _ _ _ _ _) as [o w'].
  destruct Hr as (_ & Hout & _). by apply chatter_same.
Qed.

Lemma chatter_recv_data_loop {F I} (poll : F → option I * F) fuel ch ids want race f :
  steps chatter (recv_data_loop poll fuel ch ids want race f : prog _ (Error IoE) _).
Proof.
  revert f. induction fuel as [|fuel IH]; intros f; simpl; [steps_auto|].
  sbind; [steps_auto|]. intros mp. sbind; [apply chatter_recv|].
  intros [[pkt|val] f']; simpl; [|steps_auto]. case_match; [|case_match].
  - sbind.
    + apply steps_state. intros c. destruct (table_get ch (c_table c)); [|simpl; reflexivity].
      destruct (deliver _ _). by apply chatter_same.
    + intros o. sbind; [apply chatter_quiet_okay|]. steps_auto.
  - sbind; [|steps_auto]. intros c. unfold if_slot.
    destruct (table_get ch (c_table c)); by apply chatter_same.
  - sbind; [apply steps_catch, chatter_conn_dispatch|]. intros r.
    sbind; [apply steps_catch, chatter_take_buffered|]. intros r'.
    destruct r' as [[b|]|e], r as [[]|e']; steps_auto.
Qed.

Lemma chatter_recv_data {F I} (poll : F → option I * F) fuel ch want race f :
  steps chatter (recv_data poll fuel ch want race f : prog _ (Error IoE) _).
Proof.
  unfold recv_data. sbind; [apply chatter_take_buffered|]. intros [b|]; [steps_auto|].
  sbind; [apply chatter_get|]. intros c. sbind; [steps_auto|]. intros ids.
  apply chatter_recv_data_loop.
Qed.

(** *** Waiting and writing move nothing to a caller *)

(** The bytes every channel has yet to read are the same, and the stream is no
    longer than it was. *)
Definition calm c c' : Prop :=
  flows [] c nothing [] c' ∧ (length (coming c') <= length (coming c))%nat.

Lemma calm_trans c1 c2 c3 : calm c1 c2 → calm c2 c3 → calm c1 c3.
Proof. intros [F1 L1] [F2 L2]. split; [by eapply flows_trans|lia]. Qed.

Lemma calm_put ch s s' c :
  table_get ch (c_table c) = Some s → sl_local s' = sl_local s → sl_failed s' = sl_failed s →
  keeps_remote s s' → sl_rx_buf s' = sl_rx_buf s →
  calm c (set_table (table_put ch s' (c_table c)) c).
Proof.
  intros Hg Hl Hf Hk Hr. split; [|apply Nat.le_refl].
  eapply flows_weaken, (flows_put c ch s' s []); done.
Qed.

Lemma calm_touch ch s c :
  table_get ch (c_table c) = Some s → calm c (set_table (table_put ch s (c_table c)) c).
Proof. intros Hg. by apply (calm_put ch s); try apply keeps_remote_refl. Qed.

(** A packet received, then acted on without a loss. *)
Lemma calm_received c c1 pkt c2 :
  coming c = pkt :: coming c1 → flows [] c nothing [pkt] c1 → flows [pkt] c1 nothing [] c2 →
  coming c2 = coming c1 → calm c c2.
Proof.
  intros Hc H1 H2' Hc2. split; [by eapply flows_trans|]. rewrite Hc2, Hc. simpl. lia.
Qed.

Lemma conn_recv_flows c :
  wp conn_recv (λ o c', match o with
    | Ret pkt => coming c = pkt :: coming c' ∧ flows [] c nothing [pkt] c'
    | _ => True
    end) c.
Proof.
  unfold conn_recv, recv_pkt. apply wp_bind, wp_gets.
  pose proof (recv_flows (λ f : unit, (@None Empty_set, f)) true tt c) as Hr.
  unfold wp, on_wire, zoom, mbind, prog_bind, mp_of in *.
  destruct (recv_pkt_or _ _ _ _ _ _) as [o w']. simpl in Hr.
  destruct o as [[[pkt|[]] f']| | | |]; try done. simpl.
  destruct Hr as (_ & _ & ? & ?); [by intros []|]. done.
Qed.

Lemma wait_ack_calm fuel ch c :
  wp (wait_ack fuel ch : prog _ (Error IoE) _) (λ o c',
    match o with Ret _ => calm c c' | _ => True end) c.
Proof.
  revert c. induction fuel as [|fuel IH]; intros c; [done|]. simpl.
  apply wp_bind, wp_with_slot. destruct (table_get ch (c_table c)) as [s|] eqn:Hg; [|done].
  simpl. set (c1 := set_table (table_put ch s (c_table c)) c).
  assert (calm c c1) as H1 by (by apply calm_touch).
  destruct (is_closed s); [done|]. destruct (budget s); [done|].
  apply wp_bind. unfold wp at 1. simpl. apply wp_bind, wp_lift.
  destruct (table_ids ch _) as [ids|e]; [|done].
  apply wp_bind. eapply wp_mono; [apply conn_recv_flows|].
  intros [pkt| | | |] c2; try done. intros [Hc2 Hf2].
  assert (∀ c3, flows [pkt] c2 nothing [] c3 → coming c3 = coming c2 →
    wp (wait_ack fuel ch) (λ o c', match o with Ret _ => calm c c' | _ => True end) c3) as Hgo.
  { intros c3 Hf3 Hc3. eapply wp_mono; [apply IH|]. intros [[]| | | |] c4; try done.
    intros H4. eapply calm_trans; [exact H1|]. eapply calm_trans; [|exact H4].
    by eapply calm_received. }
  destruct (bool_decide (command pkt = Command.Ready)) eqn:Hcmd; simpl.
  - apply bool_decide_eq_true in Hcmd.
    assert (flows [pkt] c2 nothing [] c2) as Hskip by (apply flows_skip; congruence).
    destruct (_ =? _).
    + apply wp_bind, wp_state. destruct (table_get ch (c_table c2)) as [s2|] eqn:Hg2; simpl.
      2: { apply wp_bind, wp_lift. by apply Hgo. }
      destruct (apply_ready (data pkt) s2) as [s3|e] eqn:Ha; simpl; [|done].
      apply wp_bind, wp_lift. apply Hgo; [|done]. eapply flows_trans; [exact Hskip|].
      destruct (apply_ready_rx _ _ _ Ha). pose proof (apply_ready_remote _ _ _ Ha) as Hre.
      pose proof (apply_ready_local _ _ _ Ha).
      apply (calm_put ch s2); try done. unfold keeps_remote. by rewrite Hre.
    + destruct (closed_by ids pkt); [apply wp_bind; unfold wp at 1, if_slot; by destruct (table_get ch (c_table c2))|].
      apply wp_bind. eapply wp_mono; [apply (wp_steps same_stream), conn_dispatch_acted;
        apply (steps_conn_dispatch same_stream)|].
      intros [[]| | | |] c3; try done. intros [Ha Hs%(same_stream_coming (IoE := IoE))].
      by apply Hgo.
  - destruct (closed_by ids pkt); [apply wp_bind; unfold wp at 1, if_slot; by destruct (table_get ch (c_table c2))|].
    apply wp_bind. eapply wp_mono; [apply (wp_steps same_stream), conn_dispatch_acted;
      apply (steps_conn_dispatch same_stream)|].
    intros [[]| | | |] c3; try done. intros [Ha Hs%(same_stream_coming (IoE := IoE))].
    by apply Hgo.
Qed.

Lemma spend_same n s :
  sl_rx_buf (spend n s) = sl_rx_buf s ∧ sl_failed (spend n s) = sl_failed s ∧
  sl_remote (spend n s) = sl_remote s ∧ sl_settled (spend n s) = sl_settled s.
Proof. unfold spend. by destruct (p_ack _). Qed.

Lemma write_loop_calm rounds fuel ch max k d c :
  wp (write_loop rounds fuel ch max k d : prog _ (Error IoE) _) (λ o c',
    match o with Ret _ => calm c c' | _ => True end) c.
Proof.
  revert d c. induction rounds as [|rounds IH]; intros d c; [done|]. simpl.
  assert (calm c c) as Hrefl by (split; [apply flows_refl|apply Nat.le_refl]).
  destruct d as [|x d']; [done|]. set (d := x :: d').
  apply wp_bind. eapply wp_mono; [apply wait_ack_calm|]. intros [[]| | | |] c1; try done.
  intros H1. apply wp_bind, wp_with_slot.
  destruct (table_get ch (c_table c1)) as [s|] eqn:Hg; [|done]. simpl.
  set (c2 := set_table (table_put ch s (c_table c1)) c1).
  assert (calm c c2) as H2' by (eapply calm_trans; [exact H1|by apply calm_touch]).
  destruct (_ <=? 0); [done|]. apply wp_bind. unfold wp at 1. simpl. apply wp_bind, wp_lift.
  destruct (table_ids ch _) as [ids|e]; [|done]. rewrite send_raw_pkt. apply wp_bind.
  eapply wp_mono; [apply (wp_steps same_stream), send_flows; apply (cr_send (R := same_stream))|].
  intros [[]| | | |] c3; try done.
  intros ((_ & Ht3 & Hf3) & Hs3%(same_stream_coming (IoE := IoE))).
  assert (calm c c3) as H3 by (eapply calm_trans; [exact H2'|]; split; [apply Hf3|by rewrite Hs3]).
  apply wp_bind, wp_with_slot. destruct (table_get ch (c_table c3)) as [s3|] eqn:Hg3; [|done].
  simpl. eapply wp_mono; [apply IH|]. intros [[]| | | |] c4; try done. intros H4.
  eapply calm_trans; [exact H3|]. eapply calm_trans; [|exact H4].
  destruct (spend_same (Z.min (Z.min (len d) max) (default 0 (budget s))) s3) as (? & ? & Hre & _).
  apply (calm_put ch s3); try done; [apply spend_local|]. unfold keeps_remote. by rewrite Hre.
Qed.

Lemma write_channel_calm fuel ch d c :
  wp (write_channel fuel ch d : prog _ (Error IoE) _) (λ o c',
    match o with Ret _ => calm c c' | _ => True end) c.
Proof.
  unfold write_channel. apply wp_bind, wp_on_wire. unfold wp at 1, desync_check.
  destruct (w_desync (c_wire c)); cbn [fst snd]; [done|]. rewrite set_wire_id.
  case_bool_decide; [split; [apply flows_refl|apply Nat.le_refl]|].
  apply wp_bind, wp_gets, wp_bind, wp_gets. apply write_loop_calm.
Qed.
End Outbound.

Lemma write_channel_spec {T IoE} `{TransportLaws T IoE} (fuel : nat) (ch : ChannelId)
    (d : bytes) (c : conn T) :
  (length (coming c) < fuel)%nat →
  wp (write_channel (IoE := IoE) fuel ch d)
    (delivered (checksum (c_negotiated c)) ch (Z.max (n_max_payload (c_negotiated c)) 1) d c) c.
Proof.
  intros Hf. unfold write_channel. apply wp_bind, wp_on_wire. unfold wp at 1, desync_check.
  destruct (w_desync (c_wire c)); cbn [fst snd]; rewrite set_wire_id;
    [by apply delivered_stop|].
  case_bool_decide as Hd.
  { subst d. split; [done|]. exists [], []. split; [by apply emits_nil|]. by repeat constructor. }
  apply wp_bind, wp_gets, wp_bind, wp_gets. apply write_loop_spec; lia.
Qed.


(** Seven bytes in pieces of three, with another channel's WRTE arriving
    between the OKAYs. *)
Definition write_conn : conn Script.script :=
  let fr p := match frame Checksum.Skip p with Ok f => f | Err _ => [] end in
  mkConn
    (mkWire (Script.mkScript
       (fr (mkPacket Command.Write 9 2 (bs "other")) ++ fr (mkPacket Command.Ready 8 1 [])
        ++ fr (mkPacket Command.Ready 8 1 []) ++ fr (mkPacket Command.Ready 8 1 []))
       [] [IoOk 30; IoOk 2]) [] false)
    (mkTable [Some (slot_accepted (mkIds 1 8) 0 sample_policy);
              Some (slot_accepted (mkIds 2 9) 0 sample_policy)] 3 sample_policy)
    (mkNegotiated 3 ADB_VERSION config_embedded false (mkBanner [] (0, 0) (0, 0) [] []))
    [].

