(* ===== verification/Destination.v ===== *)
(** * Service destinations ([base/destination.rs], [base/decimal.rs])

    A destination is the text an OPEN carries.  Arguments reach the device's
    shell through it, so they are quoted: [shell_words] is how a POSIX shell
    splits a command line into words, and the theorem is that it gives the
    arguments back, whatever they contain.  The functions write into a buffer
    of the caller's, which is the state of the programs here. *)

From S2P Require Import Prelude Errors Text.

Module DestinationError.
Inductive DestinationError : Type := TooLong | Nul.
End DestinationError.
Abbreviation DestinationError := DestinationError.DestinationError.

(** [impl From<DestinationError> for Error<E>]. *)
Definition destination_error {E} (e : DestinationError) : Error E :=
  match e with
  | DestinationError.TooLong => Error.ReceiveBufferFull
  | DestinationError.Nul => Error.Protocol ProtocolError.InvalidDestination
  end.

Definition NUL : byte := x00.

Abbreviation dprog := (prog bytes DestinationError).

(** [write_bytes]: the slice is in bounds, as the check says. *)
Definition write_bytes (l : Z) (src : bytes) : dprog Z := λ buf,
  match usize_checked_add l (len src) with
  | None => (Fail DestinationError.TooLong, buf)
  | Some e =>
      if len buf <? e then (Fail DestinationError.TooLong, buf)
      else (Ret e, zsplice l src buf)
  end.

(** [u8::is_ascii_alphanumeric]. *)
Definition is_ascii_alphanumeric (b : byte) : bool :=
  in_range 48 57 b || in_range 65 90 b || in_range 97 122 b.

Definition is_shell_safe (b : byte) : bool :=
  is_ascii_alphanumeric b || contains b (bs "_@%+=:,./-").

(** The loop of [write_quoted]. *)
Fixpoint quote_loop (l : Z) (arg : bytes) : dprog Z :=
  match arg with
  | [] => mret l
  | b :: arg =>
      l ← if eqb "'"%byte b then write_bytes l (bs "'\''") else write_bytes l [b];
      quote_loop l arg
  end.

Definition write_quoted (l : Z) (arg : bytes) : dprog Z :=
  if negb (bool_decide (arg = [])) && forallb is_shell_safe arg then write_bytes l arg
  else
    l ← write_bytes l (bs "'");
    l ← quote_loop l arg;
    write_bytes l (bs "'").

(** The loops of [write_destination]. *)
Fixpoint write_prefixes (l : Z) (prefixes : list bytes) : dprog Z :=
  match prefixes with
  | [] => mret l
  | p :: prefixes => l ← write_bytes l p; write_prefixes l prefixes
  end.

Fixpoint write_args (l : Z) (args : list bytes) : dprog Z :=
  match args with
  | [] => mret l
  | a :: args =>
      l ← write_bytes l (bs " ");
      l ← write_quoted l a;
      write_args l args
  end.

Definition has_nul (s : bytes) : bool := contains NUL s.

Definition write_destination (prefixes args : list bytes) : dprog Z :=
  if existsb has_nul prefixes || existsb has_nul args then fail DestinationError.Nul
  else
    l ← write_prefixes 0 prefixes;
    l ← write_args l args;
    write_bytes l [NUL].

(** [build_nul_destination]. *)
Definition build_nul_destination (service : bytes) (args : list bytes) :
    result ProtocolError bytes :=
  if has_nul service || existsb (λ a, bool_decide (a = []) || has_nul a) args then
    Err ProtocolError.InvalidDestination
  else
    let dest := service ++ concat ((λ a, a ++ [NUL]) <$> args) in
    Ok (if bool_decide (last dest = Some NUL) then dest else dest ++ [NUL]).

(** [format_u32]: the digits are written backwards from the end of the
    ten-byte buffer.  [None] is the panic of an index below zero. *)
Fixpoint format_loop (fuel : nat) (n pos : Z) (out : bytes) : option (Z * bytes) :=
  match fuel with
  | O => None
  | S fuel =>
      if n <=? 0 then Some (pos, out)
      else if pos <=? 0 then None
      else format_loop fuel (n / 10) (pos - 1) (zsplice (pos - 1) [b8 (48 + n mod 10)] out)
  end.

Definition format_u32 (n : Z) (out : bytes) : option bytes :=
  if n =? 0 then Some (zdrop 9 (zsplice 9 [b8 48] out))
  else '(pos, out) ← format_loop 12 n 10 out; Some (zdrop pos out).

(** ** What is written *)

(** An argument as it is rendered. *)
Definition quoted (arg : bytes) : bytes :=
  if negb (bool_decide (arg = [])) && forallb is_shell_safe arg then arg
  else bs "'" ++ concat ((λ b, if eqb "'"%byte b then bs "'\''" else [b]) <$> arg) ++ bs "'".

(** The whole destination. *)
Definition rendering (prefixes args : list bytes) : bytes :=
  concat prefixes ++ concat ((λ a, bs " " ++ quoted a) <$> args) ++ [NUL].

(** [m] writes [src] at its cursor, or finds no room for it. *)
Definition renders (m : Z → dprog Z) (src : bytes) : Prop :=
  ∀ l buf, 0 <= l <= len buf → len buf <= USIZE_MAX →
    if l + len src <=? len buf
    then m l buf = (Ret (l + len src), zsplice l src buf)
    else ∃ buf', m l buf = (Fail DestinationError.TooLong, buf').

Lemma len_zsplice {A} off (src l : list A) :
  0 <= off → off + len src <= len l → len (zsplice off src l) = len l.
Proof. intros. unfold zsplice. zlen. Qed.

Lemma zsplice_zsplice {A} off (s1 s2 l : list A) :
  0 <= off → off + len s1 + len s2 <= len l →
  zsplice (off + len s1) s2 (zsplice off s1 l) = zsplice off (s1 ++ s2) l.
Proof.
  intros Ho Hl. pose proof (len_nonneg s1). pose proof (len_nonneg s2). unfold zsplice.
  assert (len (ztake off l) = off) as Hlen by (rewrite len_ztake; lia).
  rewrite (ztake_app_ge _ (ztake off l)) by lia. rewrite Hlen.
  replace (off + len s1 - off) with (len s1) by lia.
  rewrite ztake_app_len by done.
  rewrite (zdrop_app_ge _ (ztake off l)) by lia. rewrite Hlen.
  rewrite zdrop_app_ge by lia. rewrite zdrop_zdrop by lia.
  rewrite len_app, <- !app_assoc. do 4 f_equal. lia.
Qed.

Lemma renders_bytes src : renders (λ l, write_bytes l src) src.
Proof.
  intros l buf Hl Hb. unfold write_bytes, usize_checked_add.
  case_cmp; simpl; try lia; try done; case_cmp; eauto; lia.
Qed.

Lemma renders_ret : renders mret [].
Proof.
  intros l buf Hl Hb. rewrite (@len_nil byte), Z.add_0_r. case_cmp; [|lia].
  unfold zsplice. rewrite (@len_nil byte), Z.add_0_r. simpl. by rewrite ztake_zdrop.
Qed.

Lemma renders_bind m1 m2 s1 s2 :
  renders m1 s1 → renders m2 s2 → renders (λ l, m1 l ≫= m2) (s1 ++ s2).
Proof.
  intros H1 H2 l buf Hl Hb. specialize (H1 l buf Hl Hb). rewrite len_app.
  pose proof (len_nonneg s1). pose proof (len_nonneg s2). unfold mbind, prog_bind.
  destruct (Z.leb_spec (l + len s1) (len buf)) as [Hle|Hle].
  - rewrite H1. pose proof (len_zsplice l s1 buf ltac:(lia) Hle) as Hz.
    specialize (H2 (l + len s1) (zsplice l s1 buf)). rewrite Hz in H2.
    specialize (H2 ltac:(lia) Hb). rewrite <- Z.add_assoc in H2.
    destruct (Z.leb_spec (l + (len s1 + len s2)) (len buf)).
    + rewrite H2, zsplice_zsplice by lia. done.
    + exact H2.
  - destruct H1 as [buf' ->]. case_cmp; [lia|]. eauto.
Qed.

Lemma renders_quote_loop arg :
  renders (λ l, quote_loop l arg)
    (concat ((λ b, if eqb "'"%byte b then bs "'\''" else [b]) <$> arg)).
Proof.
  induction arg as [|b arg IH]; [exact renders_ret|]. rewrite fmap_cons. simpl.
  apply (renders_bind (λ l, if eqb "'"%byte b then write_bytes l (bs "'\''")
                            else write_bytes l [b])); [|exact IH].
  destruct (eqb _ b); apply renders_bytes.
Qed.

Lemma renders_quoted arg : renders (λ l, write_quoted l arg) (quoted arg).
Proof.
  unfold write_quoted, quoted. destruct (_ && _); [apply renders_bytes|].
  apply (renders_bind (λ l, write_bytes l (bs "'"))); [apply renders_bytes|].
  apply (renders_bind (λ l, quote_loop l arg)); [apply renders_quote_loop|apply renders_bytes].
Qed.

Lemma renders_prefixes ps : renders (λ l, write_prefixes l ps) (concat ps).
Proof.
  induction ps as [|p ps IH]; [exact renders_ret|]. simpl.
  apply (renders_bind (λ l, write_bytes l p)); [apply renders_bytes|exact IH].
Qed.

Lemma renders_args args :
  renders (λ l, write_args l args) (concat ((λ a, bs " " ++ quoted a) <$> args)).
Proof.
  induction args as [|a args IH]; [exact renders_ret|].
  apply (renders_bind (λ l, write_bytes l (bs " ")) _ (bs " ") (quoted a ++ _));
    [apply renders_bytes|].
  apply (renders_bind (λ l, write_quoted l a)); [apply renders_quoted|exact IH].
Qed.

Lemma write_destination_spec prefixes args buf :
  len buf <= USIZE_MAX →
  existsb has_nul prefixes || existsb has_nul args = false →
  let text := rendering prefixes args in
  if len text <=? len buf
  then write_destination prefixes args buf = (Ret (len text), zsplice 0 text buf)
  else ∃ buf', write_destination prefixes args buf = (Fail DestinationError.TooLong, buf').
Proof.
  intros Hb Hn. unfold write_destination. rewrite Hn. cbv zeta.
  pose proof (renders_bind (λ l, write_prefixes l prefixes) _ _ _ (renders_prefixes prefixes)
    (renders_bind (λ l, write_args l args) _ _ _ (renders_args args) (renders_bytes [NUL])))
    as Hr.
  pose proof (len_nonneg buf). exact (Hr 0 buf ltac:(lia) Hb).
Qed.

(** ** What the shell reads *)

(** The bytes a POSIX shell does not take literally outside quotes. *)
Definition special (b : byte) : bool :=
  (u8 b <=? 32) || (127 <=? u8 b) || contains b (x22 :: bs "|&;<>()$`\'*?[]#~!{}^").

(** Word splitting: [cur] is the word being read, if any; [quote] says whether
    it is inside single quotes.  [None]: not a sequence of literal words. *)
Fixpoint shell_scan (cur : option bytes) (quote : bool) (s : bytes) : option (list bytes) :=
  let w := default [] cur in
  match s with
  | [] => if quote then None else Some (match cur with Some w => [w] | None => [] end)
  | b :: s =>
      if quote then
        if eqb "'"%byte b then shell_scan (Some w) false s
        else shell_scan (Some (w ++ [b])) true s
      else if eqb "'"%byte b then shell_scan (Some w) true s
      else if eqb " "%byte b then
        match cur with
        | Some w => (w ::.) <$> shell_scan None false s
        | None => shell_scan None false s
        end
      else if eqb "\"%byte b then
        match s with
        | [] => None
        | b :: s => shell_scan (Some (w ++ [b])) false s
        end
      else if special b then None
      else shell_scan (Some (w ++ [b])) false s
  end.

Definition shell_words (s : bytes) : option (list bytes) := shell_scan None false s.

(** A word that needs no quotes. *)
Definition plain (w : bytes) : Prop := w ≠ [] ∧ Forall (λ b, special b = false) w.

Lemma is_shell_safe_plain b : is_shell_safe b = true → special b = false.
Proof. destruct b; vm_compute; congruence. Qed.

Lemma special_not b : special b = false →
  eqb "'"%byte b = false ∧ eqb " "%byte b = false ∧ eqb "\"%byte b = false.
Proof. destruct b; vm_compute; auto; congruence. Qed.

Lemma scan_plain w cur s :
  Forall (λ b, special b = false) w →
  shell_scan cur false (w ++ s)
  = match w with [] => shell_scan cur false s
    | _ => shell_scan (Some (default [] cur ++ w)) false s end.
Proof.
  intros Hw. revert cur. induction Hw as [|b w Hb Hw IH]; intros cur; [done|].
  simpl. destruct (special_not _ Hb) as (-> & -> & ->). rewrite Hb, IH. simpl.
  destruct w; [done|]. by rewrite <- app_assoc.
Qed.

Lemma scan_quoted arg cur s :
  shell_scan (Some cur) true
    (concat ((λ b, if eqb "'"%byte b then bs "'\''" else [b]) <$> arg) ++ bs "'" ++ s)
  = shell_scan (Some (cur ++ arg)) false s.
Proof.
  revert cur. induction arg as [|b arg IH]; intros cur; [by rewrite app_nil_r|].
  rewrite fmap_cons. cbn [concat]. rewrite <- app_assoc.
  destruct (eqb "'"%byte b) eqn:Hb.
  - apply eqb_true in Hb as ->. simpl. rewrite IH. by rewrite <- app_assoc.
  - simpl. rewrite Hb. simpl in IH. rewrite IH. by rewrite <- app_assoc.
Qed.

(** An argument is read as one word. *)
Lemma scan_arg a s : shell_scan None false (quoted a ++ s) = shell_scan (Some a) false s.
Proof.
  unfold quoted. case_bool_decide as Ha; simpl.
  - subst. done.
  - destruct (forallb is_shell_safe a) eqn:Hs; simpl.
    + rewrite scan_plain; [by destruct a|]. apply Forall_forall. intros b Hb.
      apply is_shell_safe_plain. rewrite forallb_forall in Hs. by apply Hs, list_elem_of_In.
    + rewrite <- app_assoc. by rewrite (scan_quoted a []).
Qed.

Lemma scan_args w args :
  shell_scan (Some w) false (concat ((λ a, bs " " ++ quoted a) <$> args)) = Some (w :: args).
Proof.
  revert w. induction args as [|a args IH]; intros w; [done|].
  rewrite fmap_cons. cbn [concat]. rewrite <- app_assoc. simpl. by rewrite scan_arg, IH.
Qed.

(** ** The theorems *)

(** a destination is written whole or not at all.  [write_destination]
    refuses a NUL anywhere before it touches the buffer; otherwise, if the
    prefixes, the quoted arguments and the terminating NUL fit, exactly they
    are at the front of the buffer and the rest of it is as it was, and if they
    do not fit it says so. *)
Theorem write_destination_renders prefixes args buf :
  len buf <= USIZE_MAX →
  let text := rendering prefixes args in
  match write_destination prefixes args buf with
  | (Ret n, buf') => n = len text ∧ buf' = text ++ zdrop n buf ∧
      Forall (λ p, NUL ∉ p) prefixes ∧ Forall (λ a, NUL ∉ a) args
  | (Fail DestinationError.TooLong, _) => len buf < len text
  | (Fail DestinationError.Nul, buf') => buf' = buf ∧
      (Exists (λ p, NUL ∈ p) prefixes ∨ Exists (λ a, NUL ∈ a) args)
  | _ => False
  end.
Proof.
  intros Hb text.
  assert (∀ ls, existsb has_nul ls = false → Forall (λ p, NUL ∉ p) ls) as Hnone.
  { intros ls Hn. apply Forall_forall. intros p Hp Hin%contains_true.
    assert (existsb has_nul ls = true); [|congruence].
    apply existsb_exists. exists p. split; [by apply list_elem_of_In|done]. }
  assert (∀ ls, existsb has_nul ls = true → Exists (λ p, NUL ∈ p) ls) as Hsome.
  { intros ls (p & Hp%list_elem_of_In & Hn%contains_true)%existsb_exists.
    apply Exists_exists. eauto. }
  destruct (existsb has_nul prefixes || existsb has_nul args) eqn:Hn.
  - unfold write_destination. rewrite Hn. split; [done|].
    apply orb_prop in Hn as [Hn|Hn]; auto.
  - pose proof (write_destination_spec prefixes args buf Hb Hn) as Hs. cbv zeta in Hs.
    apply orb_false_iff in Hn as [Hn1 Hn2]. fold text in Hs.
    destruct (Z.leb_spec (len text) (len buf)).
    + rewrite Hs. split; [done|]. split; [|auto].
      unfold zsplice. by rewrite ztake_nonpos by lia.
    + by destruct Hs as [buf' ->].
Qed.

(** arguments survive the device's shell.  Whatever bytes the arguments
    hold (short of NUL), when [write_destination] succeeds for a service
    prefix and a command, the text between the prefix and the terminating NUL
    is a command line that a POSIX shell splits into exactly the command and
    the arguments, one word each: no argument can end its word, start another
    or be expanded. *)
Theorem arguments_survive_shell prefix command args buf n buf' :
  len buf <= USIZE_MAX → plain command →
  write_destination [prefix; command] args buf = (Ret n, buf') →
  ∃ line, ztake n buf' = prefix ++ line ++ [NUL] ∧ shell_words line = Some (command :: args).
Proof.
  intros Hb [Hne Hp] Hw.
  destruct (existsb has_nul [prefix; command] || existsb has_nul args) eqn:Hn.
  { unfold write_destination in Hw. rewrite Hn in Hw. done. }
  pose proof (write_destination_spec _ _ _ Hb Hn) as Hs. cbv zeta in Hs.
  set (text := rendering [prefix; command] args) in *.
  destruct (_ <=? _); [|destruct Hs as [? Hs]; congruence].
  rewrite Hw in Hs. injection Hs as -> ->.
  exists (command ++ concat ((λ a, bs " " ++ quoted a) <$> args)). split.
  - unfold zsplice. rewrite (ztake_nonpos 0) by lia. simpl. rewrite ztake_app_len by done.
    unfold text, rendering. simpl. by rewrite app_nil_r, <- !app_assoc.
  - unfold shell_words. rewrite scan_plain by done. destruct command; [done|]. apply scan_args.
Qed.

Lemma write_destination_renders_witness :
  let args := [bs "it's"; bs "x"] in
  let prefixes := [bs "shell,v2,raw:"; bs "cmd"] in
  let '(o, buf') := write_destination prefixes args (replicate 32 x41) in
  o = Ret 29 ∧ buf' = rendering prefixes args ++ replicate 3 x41 ∧
  rendering prefixes args = bs "shell,v2,raw:cmd 'it'\''s' x" ++ [NUL].
Proof.
  cbv zeta.
  assert (len (replicate 32 x41) <= USIZE_MAX) as Hl by (vm_compute; congruence).
  pose proof (write_destination_renders [bs "shell,v2,raw:"; bs "cmd"] [bs "it's"; bs "x"]
    (replicate 32 x41) Hl) as Hr. cbv zeta in Hr.
  assert (fst (write_destination [bs "shell,v2,raw:"; bs "cmd"] [bs "it's"; bs "x"]
    (replicate 32 x41)) = Ret 29) as Ho by (vm_compute; reflexivity).
  destruct (write_destination _ _ _) as [o buf']. cbn [fst] in Ho. subst o.
  destruct Hr as (_ & -> & _). split; [reflexivity|]. split; [|vm_compute; reflexivity].
  vm_compute. reflexivity.
Defined.

Lemma arguments_survive_shell_witness :
  ∃ line, ztake 29 (snd (write_destination [bs "shell:"; bs "cmd"] [bs "; reboot"; bs "$(id)"]
      (replicate 64 x41))) = bs "shell:" ++ line ++ [NUL] ∧
    shell_words line = Some [bs "cmd"; bs "; reboot"; bs "$(id)"].
Proof.
  apply (arguments_survive_shell (bs "shell:") (bs "cmd") [bs "; reboot"; bs "$(id)"]
    (replicate 64 x41)).
  - vm_compute. congruence.
  - split; [done|]. by repeat constructor.
  - by vm_compute.
Defined.

(** ** NUL-separated arguments *)

Lemma has_nul_false s : has_nul s = false → Forall (λ x, eqb NUL x = false) s.
Proof.
  intros Hn%contains_false. apply Forall_forall. intros x Hx. apply eqb_false. congruence.
Qed.

Lemma build_nul_ok service args dest :
  build_nul_destination service args = Ok dest →
  has_nul service = false ∧ Forall (λ a, a ≠ [] ∧ has_nul a = false) args ∧
  dest = service ++ match args with
                    | [] => [NUL]
                    | _ => concat ((λ a, a ++ [NUL]) <$> args)
                    end.
Proof.
  unfold build_nul_destination.
  destruct (has_nul service) eqn:Hs; [done|]. simpl.
  destruct (existsb _ args) eqn:Ha; [done|]. intros [= <-]. split; [done|]. split.
  - apply Forall_forall. intros a Hin. destruct (bool_decide (a = [])) eqn:He.
    + assert (existsb (λ a, bool_decide (a = []) || has_nul a) args = true); [|congruence].
      apply existsb_exists. exists a. split; [by apply list_elem_of_In|]. by rewrite He.
    + apply bool_decide_eq_false in He. split; [done|].
      destruct (has_nul a) eqn:Hn; [|done].
      assert (existsb (λ a, bool_decide (a = []) || has_nul a) args = true); [|congruence].
      apply existsb_exists. exists a. split; [by apply list_elem_of_In|].
      rewrite Hn. apply orb_true_r.
  - destruct args as [|a args].
    + simpl. rewrite app_nil_r. rewrite bool_decide_false; [done|].
      intros Hl. apply last_Some in Hl as [l' ->]. apply contains_false in Hs. set_solver.
    + destruct (exists_last (l := a :: args)) as (l & b & ->); [done|].
      rewrite fmap_app, concat_app. simpl. rewrite app_nil_r, !app_assoc, last_snoc.
      rewrite bool_decide_true by done. by destruct (l ++ [b]) eqn:E; [destruct l|].
Qed.

Lemma split_args args :
  Forall (λ a, a ≠ [] ∧ has_nul a = false) args →
  split (eqb NUL) (concat ((λ a, a ++ [NUL]) <$> args)) = args ++ [[]].
Proof.
  induction 1 as [|a args [_ Ha] _ IH]; [done|]. rewrite fmap_cons. cbn [concat].
  rewrite <- app_assoc. cbn [app]. rewrite split_app, IH; [done| |done].
  by apply has_nul_false.
Qed.

(** NUL-separated arguments come back.  [build_nul_destination] accepts a
    service and arguments exactly when none holds a NUL and no argument is
    empty; the result starts with the service and ends in a NUL, and what
    follows the service splits at its NULs into exactly the arguments. *)
Theorem nul_destination_splits service args :
  (is_ok (build_nul_destination service args) = true ↔
    has_nul service = false ∧ Forall (λ a, a ≠ [] ∧ has_nul a = false) args) ∧
  ∀ dest, build_nul_destination service args = Ok dest →
    ∃ tail, dest = service ++ tail ∧ last dest = Some NUL ∧
      split (eqb NUL) tail = (match args with [] => [[]] | _ => args end) ++ [[]].
Proof.
  split; [split|].
  - destruct (build_nul_destination service args) as [d|] eqn:Hb; [|done].
    intros _. by destruct (build_nul_ok _ _ _ Hb) as (? & ? & _).
  - intros [Hs Ha]. unfold build_nul_destination. rewrite Hs. simpl.
    destruct (existsb _ args) eqn:He; [|done]. exfalso.
    apply existsb_exists in He as (a & Hin%list_elem_of_In & Hbad).
    rewrite Forall_forall in Ha. destruct (Ha _ Hin) as [Hne Hn]. rewrite Hn in Hbad.
    by rewrite bool_decide_false in Hbad.
  - intros dest (Hs & Ha & ->)%build_nul_ok. eexists. split; [done|].
    destruct args as [|a args]; [split; [by rewrite last_snoc|done]|]. split; [|by apply split_args].
    destruct (exists_last (l := a :: args)) as (l & b & ->); [done|].
    rewrite fmap_app, concat_app. simpl. by rewrite app_nil_r, !app_assoc, last_snoc.
Qed.

(** ** Decimal numbers *)

(** The value of a digit string. *)
Definition decimal_val (ds : bytes) : Z := foldl (λ v d, 10 * v + (u8 d - 48)) 0 ds.
Definition is_digit (b : byte) : bool := in_range 48 57 b.

Lemma foldl_decimal v ds :
  foldl (λ v d, 10 * v + (u8 d - 48)) v ds = v * 10 ^ len ds + decimal_val ds.
Proof.
  revert v. unfold decimal_val. induction ds as [|d ds IH]; intros v; simpl; [zlen|].
  rewrite IH, (IH (10 * 0 + _)), len_cons, Z.pow_add_r by (pose proof (len_nonneg ds); lia). lia.
Qed.

Lemma decimal_val_cons d ds :
  decimal_val (d :: ds) = (u8 d - 48) * 10 ^ len ds + decimal_val ds.
Proof. unfold decimal_val at 1. simpl. rewrite foldl_decimal. lia. Qed.

(** The loop with [ds] already at the end of the buffer. *)
Lemma format_loop_spec fuel n pos out :
  0 <= n < 10 ^ pos → 0 <= pos → len out = 10 → pos <= 10 → (Z.to_nat pos < fuel)%nat →
  ∃ ds p out', format_loop fuel n pos out = Some (p, out') ∧ 0 <= p <= pos ∧ len out' = 10 ∧
    zdrop p out' = ds ++ zdrop pos out ∧ decimal_val ds = n ∧ Forall (λ d, is_digit d) ds ∧
    (0 < n → ∃ d ds', ds = d :: ds' ∧ d ≠ b8 48) ∧ (n = 0 → ds = []).
Proof.
  revert n pos out. induction fuel as [|fuel IH]; intros n pos out Hn Hp Hl Hle Hf; [lia|].
  simpl. destruct (Z.leb_spec n 0).
  { exists [], pos, out. assert (n = 0) by lia. subst. repeat split; try done; try lia. }
  destruct (Z.leb_spec pos 0) as [Hz|Hz]; [replace pos with 0 in Hn by lia; simpl in Hn; lia|].
  set (d := b8 (48 + n mod 10)).
  assert (u8 d = 48 + n mod 10) as Hd.
  { unfold d. rewrite u8_b8, Z.mod_small; [done|]. pose proof (Z.mod_pos_bound n 10). lia. }
  assert (10 ^ pos = 10 * 10 ^ (pos - 1)) as Hpow.
  { rewrite <- Z.pow_succ_r by lia. f_equal. lia. }
  pose proof (Z.div_mod n 10 ltac:(lia)) as Hdm. pose proof (Z.mod_pos_bound n 10 ltac:(lia)).
  pose proof (Z.div_pos n 10). assert (len [d] = 1) as Hd1 by done.
  destruct (IH (n / 10) (pos - 1) (zsplice (pos - 1) [d] out))
    as (ds & p & out' & -> & Hp' & Hl' & Hz' & Hv & Hdig & Hpos & Hzero).
  { split; [lia|]. apply Z.div_lt_upper_bound; lia. }
  { lia. }
  { rewrite len_zsplice; lia. }
  { lia. }
  { lia. }
  exists (ds ++ [d]), p, out'. split; [done|]. split; [lia|]. split; [done|].
  split. { rewrite Hz'. unfold zsplice. rewrite zdrop_app_len by (rewrite len_ztake; lia).
    rewrite Hd1. replace (pos - 1 + 1) with pos by lia. by rewrite <- app_assoc. }
  split. { unfold decimal_val in *. rewrite foldl_snoc, Hv. lia. }
  split. { apply Forall_app. split; [done|]. apply Forall_singleton. unfold is_digit, in_range.
    rewrite Hd. apply Is_true_true, andb_true_intro. split; lia. }
  split; [intros _|lia]. destruct (Z.eq_dec (n / 10) 0) as [Hq|Hq].
  - rewrite (Hzero Hq). exists d, []. split; [done|]. intros He.
    apply (f_equal u8) in He. rewrite Hd, u8_b8 in He. change (48 mod 256) with 48 in He. lia.
  - destruct Hpos as (d' & ds' & -> & Hd'); [lia|]. by exists d', (ds' ++ [d]).
Qed.

Lemma format_u32_spec n out :
  is_u32 n → len out = 10 →
  ∃ ds, format_u32 n out = Some ds ∧ decimal_val ds = n ∧ Forall (λ d, is_digit d) ds ∧
    (ds = bs "0" ∨ ∃ d ds', ds = d :: ds' ∧ d ≠ b8 48).
Proof.
  intros Hn Hl. unfold format_u32. destruct (Z.eqb_spec n 0) as [->|Hnz].
  - exists (bs "0"). split; [|split; [done|]; split; [by repeat constructor|by left]].
    f_equal. unfold zsplice. rewrite zdrop_app_len by (rewrite len_ztake; lia).
    rewrite (zdrop_all (9 + _)); [done|]. rewrite Hl. by vm_compute.
  - unfold is_u32 in Hn.
    destruct (format_loop_spec 12 n 10 out) as (ds & p & out' & -> & Hp & _ & Hz & Hv & Hd & Hpos & _);
      [lia..|].
    exists ds. simpl. rewrite Hz, zdrop_all, app_nil_r by lia. split; [done|].
    split; [done|]. split; [done|]. right. apply Hpos. lia.
Qed.

(** [format_u32] writes the decimal numeral of every 32-bit number: it
    stays inside its ten-byte buffer, and the slice it returns is digits only,
    with no leading zero (but for zero itself), and has the number's value. *)
Theorem format_u32_decimal n out :
  is_u32 n → len out = 10 →
  ∃ ds, format_u32 n out = Some ds ∧ decimal_val ds = n ∧ Forall (λ d, is_digit d) ds ∧
    (ds = bs "0" ∨ ∃ d ds', ds = d :: ds' ∧ d ≠ b8 48).
Proof. apply format_u32_spec. Qed.

Lemma format_u32_decimal_witness :
  ∃ ds, format_u32 4294967295 (replicate 10 x00) = Some ds ∧ decimal_val ds = 4294967295 ∧
    ds = bs "4294967295".
Proof.
  destruct (format_u32_decimal 4294967295 (replicate 10 x00)) as (ds & Hf & Hv & _).
  - split; [lia|]. vm_compute. reflexivity.
  - reflexivity.
  - exists ds. split; [exact Hf|]. split; [exact Hv|]. vm_compute in Hf. by injection Hf.
Defined.
