(* ===== verification/Session.v ===== *)
(** * Sessions ([base/session.rs], [Channel] of [base/channel.rs])

    [Session] is the interface the services are written against: open, read,
    write, select and close channels.  [SessionLaws] is what they rely on: a
    channel has an inbox, the bytes it has yet to hand over, reads take from
    its front and from no other channel's, and a reader runs out of them.

    [Connection] implements the interface ([conn_session]), and the theorems
    of [Demux] and [Outbound] discharge its laws ([conn_session_laws]), with
    the channel's buffer and its share of the device's stream as the inbox. *)

From S2P Require Import Prelude Errors Protocol Banner Config SendQueue Slot ChannelTable Wire.
From S2P Require Import Connection ConnSteps Demux Outbound.

Class Session (S IoE : Type) : Type := {
  s_advertises : S → Feature → bool;
  s_open_channel : bytes → prog S (Error IoE) ChannelId;
  (** Into a buffer of the given length: the bytes read. *)
  s_read_channel : ChannelId → Z → prog S (Error IoE) bytes;
  s_write_channel : ChannelId → bytes → prog S (Error IoE) unit;
  s_select_channel {F I : Type} (poll : F → option I * F) :
    ChannelId → Z → F → prog S (Error IoE) (SelectResult I);
  s_close_channel : ChannelId → prog S (Error IoE) unit;
}.

(** [Session::require_feature]. *)
Definition s_require_feature {S IoE} `{Session S IoE} (feature : Feature) :
    prog S (Error IoE) unit := λ s,
  if s_advertises s feature then (Ret tt, s) else (Fail (Error.MissingFeature feature), s).

Class SessionLaws (S IoE : Type) `{Session S IoE} : Type := {
  (** The session is in a state its calls leave it in. *)
  s_ok : S → Prop;
  (** What [ch] has yet to hand over, and a bound on the reads that takes. *)
  inbox : S → ChannelId → bytes;
  reads_left : S → ChannelId → nat;
  (** From one state to the next exactly these bytes were sent on [ch], and
      none on another channel. *)
  puts : S → ChannelId → bytes → S → Prop;
  puts_nil s ch : puts s ch [] s;
  puts_app s1 s2 s3 ch b1 b2 : puts s1 ch b1 s2 → puts s2 ch b2 s3 → puts s1 ch (b1 ++ b2) s3;
  s_read_spec ch want s : s_ok s → 0 < want →
    wp (s_read_channel ch want) (λ o s',
      puts s ch [] s' ∧
      match o with
      | Ret b => s_ok s' ∧ len b <= want ∧ inbox s ch = b ++ inbox s' ch ∧
          (reads_left s' ch < reads_left s ch)%nat ∧
          ∀ ch', ch' ≠ ch → inbox s ch' ≠ [] → inbox s' ch' = inbox s ch'
      | Panicked | NoFuel => False
      | _ => True
      end) s;
  s_select_spec {F I} (poll : F → option I * F) ch want f s : s_ok s → 0 < want →
    wp (s_select_channel poll ch want f) (λ o s',
      match o with
      | Ret (SData b) => s_ok s' ∧ len b <= want ∧ inbox s ch = b ++ inbox s' ch ∧
          (reads_left s' ch < reads_left s ch)%nat
      | Ret (SInterrupted _) => s_ok s' ∧ inbox s ch = inbox s' ch
      | Panicked | NoFuel => False
      | _ => True
      end) s;
  s_write_spec ch d s : s_ok s →
    wp (s_write_channel ch d) (λ o s',
      match o with
      | Ret _ => s_ok s' ∧ puts s ch d s' ∧ inbox s' ch = inbox s ch ∧
          (reads_left s' ch <= reads_left s ch)%nat
      | Panicked | NoFuel => False
      | _ => True
      end) s;
  s_close_ends ch s : fst (s_close_channel ch s) ≠ Panicked ∧ fst (s_close_channel ch s) ≠ NoFuel;
}.

(** ** The connection as a session *)

Section Connection.
Context {T IoE : Type} `{TransportLaws T IoE} (fuel : nat).
Implicit Types c : conn T.

#[local] Instance conn_session : Session (conn T) IoE := {
  s_advertises c feature := advertises (c_negotiated c) feature;
  s_open_channel := open_channel fuel;
  s_read_channel := read_channel fuel;
  s_write_channel := write_channel fuel;
  s_select_channel F I poll := select_channel poll fuel;
  s_close_channel := close_channel;
}.

(** *** Slots keep their settled count *)

Definition table_fine (t : ChannelTable) : Prop :=
  ∀ i s, t_slots t !! i = Some (Some s) → 0 <= sl_settled s.

Definition fine c c' : Prop := table_fine (c_table c) → table_fine (c_table c').

#[local] Instance fine_preorder : PreOrder fine.
Proof. split; unfold fine; [by intros c|intros c1 c2 c3; auto]. Qed.

Lemma fine_same c c' : c_table c' = c_table c → fine c c'.
Proof. unfold fine. by intros ->. Qed.

Lemma fine_put ch s s' c :
  table_get ch (c_table c) = Some s → (0 <= sl_settled s → 0 <= sl_settled s') →
  fine c (set_table (table_put ch s' (c_table c)) c).
Proof.
  intros [Hi _]%table_get_some Hs Hf j s2. simpl.
  destruct (decide (j = ch_slot ch)) as [->|Hne].
  - rewrite list_lookup_insert_eq by (by eapply lookup_lt_Some). intros [= <-]. eauto.
  - rewrite list_lookup_insert_ne by done. apply Hf.
Qed.

Lemma dispatch_slot_settled idx pkt s out s' :
  dispatch_slot idx pkt s = Some (out, s') → sl_settled s' = sl_settled s.
Proof.
  unfold dispatch_slot. intros Hd.
  destruct (command pkt); try done; (destruct (_ =? _); simpl in Hd; [|done]).
  - destruct (is_failed s); [by simplify_eq|]. destruct (bool_decide _).
    + destruct (accept_open_ready _ _ s) eqn:Hr; simplify_eq; [|done].
      unfold accept_open_ready in Hr. destruct (is_delayed s); [|by injection Hr as <-].
      by destruct (parse_ready_credit _); bind_simpl; simplify_eq.
    + destruct (apply_ready _ s) eqn:Hr; simplify_eq; [|done]. unfold apply_ready in Hr.
      destruct (p_ack _); [by simplify_eq|].
      by destruct (parse_ready_credit _); bind_simpl; simplify_eq.
  - by simplify_eq.
  - destruct (is_failed s); [by simplify_eq|]. unfold apply_write, push_rx in Hd.
    destruct (_ <? _); bind_simpl; [by simplify_eq|]. cbv zeta in Hd.
    repeat case_match; simplify_eq; done.
Qed.

Lemma fine_dispatch pkt c : fine c (set_table (snd (dispatch pkt (c_table c))) c).
Proof.
  destruct (dispatch pkt (c_table c)) as [out t'] eqn:Hd. simpl. intros Hf.
  apply dispatch_spec in Hd as [->|(i & s & s' & Hi & _ & -> & Hwhy)]; [done|].
  intros j s2. simpl. destruct (decide (j = i)) as [->|Hne].
  - rewrite list_lookup_insert_eq by (by eapply lookup_lt_Some). intros [= <-].
    destruct Hwhy as [(_ & _ & Hs%dispatch_slot_settled)|(_ & _ & _ & _ & -> & _)];
      [rewrite Hs|simpl]; by eapply Hf.
  - rewrite list_lookup_insert_ne by done. apply Hf.
Qed.

Lemma fine_send pkt k : steps fine (on_wire (send_pkt pkt k) : prog _ (Error IoE) _).
Proof.
  intros c. apply fine_same. unfold on_wire, zoom. by destruct (send_pkt pkt k (c_wire c)).
Qed.

Lemma fine_conn_send pkt : steps fine (conn_send pkt : prog _ (Error IoE) _).
Proof. intros c. apply fine_send. Qed.

Lemma fine_send_okay ack : steps fine (send_okay ack : prog _ (Error IoE) _).
Proof.
  intros c. unfold send_okay, checksum_mode, send_okay_to, mbind, prog_bind, gets.
  rewrite send_raw_pkt. apply fine_send.
Qed.

Lemma fine_conn_dispatch pkt : steps fine (conn_dispatch pkt : prog _ (Error IoE) _).
Proof.
  unfold conn_dispatch. sbind.
  - apply steps_catch. unfold act_on. sbind.
    + apply steps_state. intros c. pose proof (fine_dispatch pkt c) as Hd.
      by destruct (dispatch pkt (c_table c)).
    + intros out. destruct out; lazymatch goal with
        | |- steps _ (send_okay _) => apply fine_send_okay
        | |- steps _ (mret _) => intros c; reflexivity
        | |- steps _ (fail _) => intros c; reflexivity
        | _ => idtac
        end.
      * sbind; [intros c; reflexivity|]. intros c. case_match; [apply fine_conn_send|].
        apply steps_modify. intros. by apply fine_same.
      * apply steps_modify. intros. by apply fine_same.
      * apply fine_conn_send.
  - intros [|e]; [steps_auto|]. destruct (connection_gone e); steps_auto.
Qed.

(** *** Reads make progress *)

Lemma settle_take_fine want s :
  0 <= want → 0 <= sl_settled s → 0 <= sl_settled (snd (settle_take want s)).
Proof.
  intros Hw Hs. unfold settle_take. pose proof (len_nonneg (sl_rx_buf s)).
  repeat case_match; simpl; lia.
Qed.

Lemma deliver_settled n s : sl_settled (snd (deliver n s)) = sl_settled s.
Proof. unfold deliver. by repeat case_match. Qed.

Lemma slot_take_progress {E} want s :
  0 < want → 0 <= sl_settled s →
  let '(r, s') := slot_take_buffered (E := E) want s in
  0 <= sl_settled s' ∧ match r with Ok (Some b) => 0 < len b <= want | _ => True end.
Proof.
  intros Hw Hs. unfold slot_take_buffered, has_data.
  destruct (bool_decide (is_Some (sl_remote s))); simpl; [|by destruct (is_closed s)].
  case_bool_decide as Hrx; simpl; [by destruct (is_closed s)|].
  assert (0 < len (sl_rx_buf s)) by (destruct (sl_rx_buf s); [done|zlen]).
  case_cmp; simpl; rewrite len_ztake; lia.
Qed.

Lemma take_progress ch want c :
  0 < want → table_fine (c_table c) →
  wp (conn_take_buffered ch want : prog _ (Error IoE) _) (λ o c',
    table_fine (c_table c') ∧ coming c' = coming c ∧
    match o with Ret (Some b) => 0 < len b <= want | _ => True end) c.
Proof.
  intros Hw Hf. pose proof (steps_take_buffered (IoE := IoE) same_stream ch want c) as Hs.
  apply (same_stream_coming (IoE := IoE)) in Hs.
  assert (wp (conn_take_buffered ch want : prog _ (Error IoE) _) (λ o c',
    table_fine (c_table c') ∧ match o with Ret (Some b) => 0 < len b <= want | _ => True end) c)
    as Hwp; [|unfold wp in *; destruct (conn_take_buffered ch want c); naive_solver].
  clear Hs. unfold conn_take_buffered. apply wp_bind. unfold wp at 1. simpl. apply wp_bind.
  assert (∀ Q : outcome (Error IoE) unit → conn T → Prop,
    (∀ o c', c_table c' = c_table c → Q o c') →
    wp ((if negb match table_get ch (c_table c) with Some s => has_data s | None => false end
         then on_wire desync_check else mret tt) : prog _ _ unit) Q c) as Hcheck.
  { intros Q HQ. destruct (negb _); [|by apply HQ]. apply wp_on_wire. unfold wp, desync_check.
    destruct (w_desync (c_wire c)); by apply HQ. }
  apply Hcheck. intros o c1 Ht1. rewrite <- Ht1 in Hf. destruct o; try (by split).
  apply wp_bind, wp_with_slot. destruct (table_get ch (c_table c1)) as [s|] eqn:Hg; [|by split].
  apply table_get_some in Hg as Hi. destruct Hi as [Hi _]. pose proof (Hf _ _ Hi) as Hset.
  pose proof (settle_take_fine want s ltac:(lia) Hset) as Hset'.
  pose proof (settle_take_local want s) as Hloc.
  set (c2 := set_table (table_put ch (snd (settle_take want s)) (c_table c1)) c1).
  assert (table_fine (c_table c2)) as Hf2 by (by apply (fine_put ch s)).
  assert (table_get ch (c_table c2) = Some (snd (settle_take want s))) as Hg2.
  { unfold c2. simpl. rewrite (table_get_put _ _ _ _ _ Hg Hloc). by rewrite decide_True. }
  clearbody c2. apply wp_bind. eapply wp_mono; [apply quiet_okay_flows|].
  intros o c3 (Ht3 & _ & [->|[-> _]]); [|by rewrite Ht3].
  apply wp_bind, wp_with_slot. rewrite Ht3, Hg2.
  pose proof (slot_take_progress (E := IoE) want _ Hw Hset') as Hp.
  destruct (slot_take_buffered want _) as [r s2]. destruct Hp as [Hset2 Hp]. cbn [fst snd].
  apply wp_lift. assert (table_fine (table_put ch s2 (c_table c2))) as Hf4.
  { by apply (fine_put ch _ s2 c2 Hg2). }
  destruct r as [[b|]|e]; by split.
Qed.

Section Select.
Context {F I : Type} (poll : F → option I * F).

(** What a return means for the table and the stream. *)
Definition kept c (r : SelectResult I) c' want : Prop :=
  table_fine (c_table c') ∧ (length (coming c') <= length (coming c))%nat ∧
  match r with SData b => len b <= want | SInterrupted _ => True end.

Lemma recv_data_loop_progress n ch ids want race f c :
  0 < want → (∀ _ : I, race = true → read_cancel_safe = true) → table_fine (c_table c) →
  wp (recv_data_loop poll n ch ids want race f : prog _ (Error IoE) _) (λ o c',
    match o with
    | Ret r => kept c r c' want ∧ match r with
        | SData _ => (length (coming c') < length (coming c))%nat
        | SInterrupted _ => True
        end
    | _ => True
    end) c.
Proof.
  intros Hw Hrace. revert f c. induction n as [|n IH]; intros f c Hf; [done|]. simpl.
  apply wp_bind, wp_gets, wp_bind. eapply wp_mono; [by apply recv_flows|].
  intros o c1 (Ht & Hn & Ho). rewrite <- Ht in Hf.
  destruct o as [[[pkt|val] f']|e| | |]; try done; simpl.
  2: { destruct Ho as [_ Hc]. apply wp_ret. unfold kept. rewrite Hc. split_and!; done. }
  destruct Ho as [_ Hc].
  apply (wp_mono _ (λ o c', match o with Ret r => kept c1 r c' want | _ => True end)).
  2: { intros [r| | | |] c'; try done. intros (Hf' & Hl & Hr). unfold kept. rewrite Hc. simpl.
    split; [split; [done|]; split; [lia|done]|]. destruct r; [lia|done]. }
  clear c Ht Hn Hc. rename c1 into c. case_match eqn:Hdirect; [|case_match].
  - bool_facts. apply wp_bind, wp_state.
    set (c1 := snd _). assert (table_fine (c_table c1) ∧ coming c1 = coming c) as [Hf1 Hc1].
    { unfold c1. destruct (table_get ch (c_table c)) as [s|] eqn:Hg; [|done].
      pose proof (deliver_settled (len (data pkt)) s) as Hd.
      destruct (deliver _ s) as [ack s'] eqn:He. simpl in *. split; [|done].
      apply (fine_put ch s); [done|congruence|done]. }
    clearbody c1. apply wp_bind. eapply wp_mono.
    { apply (wp_steps same_stream); [apply (steps_quiet_okay same_stream)|apply quiet_okay_flows]. }
    intros o c2 ((Ht2 & _ & [->|[-> _]]) & Hs%(same_stream_coming (IoE := IoE))); [|done].
    apply wp_ret. split; [by rewrite Ht2|]. rewrite Hs, Hc1. split; [lia|done].
  - apply wp_bind. unfold wp at 1, if_slot. by destruct (table_get ch (c_table c)).
  - apply wp_bind, wp_catch. eapply wp_mono.
    { apply (wp_steps fine); [apply fine_conn_dispatch|].
      apply (wp_steps same_stream); [apply (steps_conn_dispatch same_stream)|].
      apply conn_dispatch_acted. }
    intros o c1 ((_ & Hs%(same_stream_coming (IoE := IoE))) & Hf1). specialize (Hf1 Hf).
    destruct o as [[]|e| | |]; try done;
      (apply wp_bind, wp_catch; eapply wp_mono; [by apply take_progress|]);
      intros [[b|]|e'| | |] c2 (Hf2 & Hc2 & Hb); try done.
    + apply wp_ret. unfold kept. rewrite Hc2, Hs. split_and!; [done|lia|lia].
    + eapply wp_mono; [by apply IH|]. intros [r| | | |] c3; try done.
      intros [(Hf3 & Hl3 & Hr) _]. unfold kept. rewrite Hc2, Hs in Hl3. done.
    + apply wp_ret. unfold kept. rewrite Hc2, Hs. split_and!; [done|lia|lia].
Qed.

Lemma recv_data_progress n ch want race f c :
  0 < want → (∀ _ : I, race = true → read_cancel_safe = true) → table_fine (c_table c) →
  wp (recv_data poll n ch want race f : prog _ (Error IoE) _) (λ o c',
    match o with
    | Ret r => kept c r c' want ∧ match r with
        | SData b => b ≠ [] ∨ (length (coming c') < length (coming c))%nat
        | SInterrupted _ => True
        end
    | _ => True
    end) c.
Proof.
  intros Hw Hrace Hf. unfold recv_data. apply wp_bind.
  eapply wp_mono; [by apply take_progress|].
  intros [[b|]|e| | |] c1 (Hf1 & Hc1 & Hb); try done.
  - apply wp_ret. unfold kept. rewrite Hc1. split; [split_and!; [done|lia|lia]|].
    left. intros ->. zlen.
  - apply wp_bind. unfold wp at 1. simpl. apply wp_bind, wp_lift.
    destruct (table_ids ch (c_table c1)) as [ids|e]; [|done].
    eapply wp_mono; [by apply recv_data_loop_progress|].
    intros [r| | | |] c2; try done. unfold kept. rewrite Hc1. intros [Hk Hr].
    split; [done|]. destruct r; [|done]. by right.
Qed.
End Select.

(** *** The laws *)

(** The channel's buffer, and its share of what is to come. *)
Definition conn_inbox c (ch : ChannelId) : bytes :=
  match table_get ch (c_table c) with
  | Some s => sl_rx_buf s ++ share (ch_local ch) (coming c)
  | None => []
  end.

Definition conn_fine c : Prop :=
  conn_ok c ∧ table_fine (c_table c) ∧ (length (coming c) < fuel)%nat.

Lemma recv_data_unknown {F I} (poll : F → option I * F) n ch want race f c :
  table_get ch (c_table c) = None →
  wp (recv_data poll n ch want race f : prog _ (Error IoE) _) (λ o _, ∀ r, o ≠ Ret r) c.
Proof.
  intros Hg. unfold recv_data, conn_take_buffered. apply wp_bind, wp_bind. unfold wp at 1. simpl.
  rewrite Hg. simpl. apply wp_bind, wp_on_wire. unfold wp, desync_check.
  destruct (w_desync (c_wire c)); simpl; [done|]. unfold with_slot, mbind, prog_bind. simpl.
  by rewrite Hg.
Qed.

Lemma flows_inbox ch b c c' s :
  conn_ok c → flows [] c (only ch b) [] c' → table_get ch (c_table c) = Some s →
  conn_ok c' ∧ conn_inbox c ch = b ++ conn_inbox c' ch ∧
  ∀ ch', ch' ≠ ch → conn_inbox c ch' ≠ [] → conn_inbox c' ch' = conn_inbox c ch'.
Proof.
  intros Hok Hf Hg. destruct (Hf Hok) as (Hok' & _ & Hs). split; [done|]. unfold conn_inbox.
  split.
  - destruct (Hs _ _ Hg) as (s' & Hg' & _ & Heq). rewrite Hg, Hg'. unfold only in Heq.
    by rewrite decide_True in Heq.
  - intros ch' Hne. destruct (table_get ch' (c_table c)) as [s1|] eqn:Hg1; [|done]. intros _.
    destruct (Hs _ _ Hg1) as (s1' & -> & _ & Heq). unfold only in Heq.
    by rewrite decide_False in Heq.
Qed.

(** Reading through the loop of the connection obeys the laws. *)
Lemma recv_data_laws {F I} (poll : F → option I * F) ch want race f c :
  conn_fine c → 0 < want → (∀ _ : I, race = true → read_cancel_safe = true) →
  wp (recv_data poll fuel ch want race f : prog _ (Error IoE) _) (λ o c',
    match o with
    | Ret (SData b) => conn_fine c' ∧ len b <= want ∧ conn_inbox c ch = b ++ conn_inbox c' ch ∧
        (length (conn_inbox c' ch) + length (coming c')
         < length (conn_inbox c ch) + length (coming c))%nat ∧
        ∀ ch', ch' ≠ ch → conn_inbox c ch' ≠ [] → conn_inbox c' ch' = conn_inbox c ch'
    | Ret (SInterrupted _) => conn_fine c' ∧ conn_inbox c ch = conn_inbox c' ch
    | Panicked | NoFuel => False
    | _ => True
    end) c.
Proof.
  intros (Hok & Hf & Hl) Hw Hrace.
  pose proof (recv_data_tracked poll fuel ch want race f c Hok Hrace Hl) as Htr.
  pose proof (recv_data_progress poll fuel ch want race f c Hw Hrace Hf) as Hp.
  pose proof (recv_data_unknown poll fuel ch want race f c) as Hun. unfold wp in *.
  destruct (recv_data poll fuel ch want race f c) as [o c']. simpl in *.
  destruct o as [r|e| | |]; try done. destruct Hp as [(Hf' & Hl' & Hb) Hprog].
  destruct (table_get ch (c_table c)) as [s|] eqn:Hg; [|by destruct (Hun eq_refl r)].
  destruct r as [b|val]; simpl in Htr.
  - destruct (flows_inbox _ _ _ _ _ Hok Htr Hg) as (Hok' & Hin & Hoth).
    split; [split_and!; [done|done|lia]|]. split; [done|]. split; [done|]. split; [|done].
    rewrite Hin, length_app. destruct Hprog as [Hne|Hlt]; [|lia]. destruct b; [done|].
    simpl. lia.
  - assert (flows [] c (only ch []) [] c') as Hfl.
    { intros Hok1. destruct (Htr Hok1) as (A & B & C). split; [done|]. split; [done|].
      intros ch' s' Hs'. destruct (C _ _ Hs') as (s2 & ? & ? & Heq). exists s2.
      split; [done|]. split; [done|]. unfold only. by destruct (decide _). }
    destruct (flows_inbox _ _ _ _ _ Hok Hfl Hg) as (Hok' & Hin & _).
    split; [split_and!; [done|done|lia]|done].
Qed.

Lemma close_channel_ends ch c :
  wp (close_channel ch : prog _ (Error IoE) _) (λ o _, o ≠ Panicked ∧ o ≠ NoFuel) c.
Proof.
  unfold close_channel. apply wp_bind, wp_on_wire. unfold wp at 1, desync_check.
  destruct (w_desync (c_wire c)); cbn [fst snd]; [done|].
  apply wp_bind. unfold wp at 1. cbn [get fst snd]. apply wp_bind, wp_lift.
  destruct (table_ids _ _); [|done]. apply wp_bind, wp_modify.
  unfold conn_send, checksum_mode. apply wp_bind, wp_gets.
  eapply wp_mono; [apply send_flows|]. by intros o c' ((? & ?) & _).
Qed.

(** *** Writing *)

Lemma fine_get : steps fine (get : prog (conn T) (Error IoE) _).
Proof. intros c. simpl. reflexivity. Qed.

Lemma fine_with_slot {A} ch (f : ChannelSlot → A * ChannelSlot) :
  (∀ s, sl_settled (snd (f s)) = sl_settled s) → steps fine (with_slot ch f : prog _ (Error IoE) A).
Proof.
  intros Hf c. unfold with_slot. destruct (table_get ch (c_table c)) as [s|] eqn:Hg.
  - specialize (Hf s). destruct (f s) as [a s']. simpl in *. by apply (fine_put ch s); [|rewrite Hf].
  - simpl. reflexivity.
Qed.

Lemma fine_conn_recv : steps fine (conn_recv : prog _ (Error IoE) _).
Proof.
  intros c. apply fine_same. unfold conn_recv, mbind, prog_bind, gets, on_wire, zoom.
  by destruct (recv_pkt _ (c_wire c)).
Qed.

Lemma apply_ready_settled p s s' : apply_ready p s = Ok s' → sl_settled s' = sl_settled s.
Proof.
  unfold apply_ready. destruct (p_ack _); [by intros [= <-]|].
  destruct (parse_ready_credit p); [by intros [= <-]|done].
Qed.

Lemma fine_wait_ack n ch : steps fine (wait_ack n ch : prog _ (Error IoE) _).
Proof.
  induction n as [|n IH]; simpl; [steps_auto|].
  sbind; [by apply fine_with_slot|]. intros [[] [b|]]; [steps_auto..|].
  sbind; [apply fine_get|]. intros c. sbind; [steps_auto|]. intros ids.
  sbind; [apply fine_conn_recv|]. intros pkt. case_match; [|case_match].
  - sbind; [|intros r; sbind; steps_auto].
    apply steps_state. intros c'. destruct (table_get ch (c_table c')) as [s|] eqn:Hg;
      [|simpl; reflexivity].
    destruct (apply_ready (data pkt) s) eqn:Ha; simpl; [|reflexivity].
    apply (fine_put ch s); [done|]. by rewrite (apply_ready_settled _ _ _ Ha).
  - sbind; [|steps_auto]. intros c'. unfold if_slot.
    destruct (table_get ch (c_table c')) as [s|] eqn:Hg; [by apply (fine_put ch s)|].
    simpl. reflexivity.
  - sbind; [apply fine_conn_dispatch|]. steps_auto.
Qed.

Lemma fine_write_loop rounds n ch max k d :
  steps fine (write_loop rounds n ch max k d : prog _ (Error IoE) _).
Proof.
  revert d. induction rounds as [|rounds IH]; intros d; simpl; [steps_auto|].
  destruct d as [|x d]; [steps_auto|]. sbind; [apply fine_wait_ack|]. intros _.
  sbind; [by apply fine_with_slot|]. intros b. case_match; [steps_auto|].
  sbind; [apply fine_get|]. intros c. sbind; [steps_auto|]. intros ids.
  sbind; [rewrite send_raw_pkt; apply fine_send|]. intros _.
  sbind; [apply fine_with_slot; intros s; apply spend_same|]. intros _. apply IH.
Qed.

Lemma fine_write_channel n ch d : steps fine (write_channel n ch d : prog _ (Error IoE) _).
Proof.
  unfold write_channel, checksum_mode. sbind.
  { intros c. apply fine_same. unfold on_wire, zoom. by destruct (desync_check (c_wire c)). }
  intros _. case_match; [steps_auto|]. do 2 (sbind; [steps_auto|]; intros ?).
  apply fine_write_loop.
Qed.

(** The WRTEs that went out are [ch]'s, whole, and carry [b]. *)
Definition conn_puts c (ch : ChannelId) (b : bytes) c' : Prop :=
  c_negotiated c' = c_negotiated c ∧
  ∃ es, emits es c c' ∧ written es = b ∧
    Forall (λ e, begun (checksum (c_negotiated c)) e ∧
      (command (fst e) = Command.Write →
       arg0 (fst e) = ch_local ch ∧ whole (checksum (c_negotiated c)) e)) es.

Lemma chatter_puts c ch c' : chatter c c' → conn_puts c ch [] c'.
Proof.
  intros [Hn (es & He & Hf)]. split; [done|]. exists es. split; [done|].
  split; [by eapply aside_written|]. eapply Forall_impl; [exact Hf|].
  intros e [[Hc|Hc] Hb]; (split; [done|]); congruence.
Qed.

Lemma conn_puts_app c1 c2 c3 ch b1 b2 :
  conn_puts c1 ch b1 c2 → conn_puts c2 ch b2 c3 → conn_puts c1 ch (b1 ++ b2) c3.
Proof.
  intros (Hn & es & He & <- & Hf) (Hn' & es' & He' & <- & Hf'). split; [congruence|].
  exists (es ++ es'). split; [by eapply emits_app|]. split; [apply written_app|].
  apply Forall_app. split; [done|]. by rewrite <- Hn.
Qed.

Lemma write_unknown n ch d c :
  table_get ch (c_table c) = None →
  wp (write_channel n ch d : prog _ (Error IoE) _) (λ o c', ∀ x, o = Ret x → c' = c) c.
Proof.
  intros Hg. unfold write_channel. apply wp_bind, wp_on_wire. unfold wp at 1, desync_check.
  destruct (w_desync (c_wire c)); cbn [fst snd]; [done|]. rewrite set_wire_id.
  case_bool_decide as Hd; [done|]. apply wp_bind, wp_gets, wp_bind, wp_gets.
  cbn [write_loop]. destruct d as [|x d]; [done|]. apply wp_bind.
  destruct n as [|n]; [done|]. cbn [wait_ack]. apply wp_bind, wp_with_slot. by rewrite Hg.
Qed.

Lemma write_channel_laws ch d c :
  conn_fine c →
  wp (write_channel fuel ch d : prog _ (Error IoE) _) (λ o c',
    match o with
    | Ret _ => conn_fine c' ∧ conn_puts c ch d c' ∧ conn_inbox c' ch = conn_inbox c ch ∧
        (length (conn_inbox c' ch) + length (coming c')
         <= length (conn_inbox c ch) + length (coming c))%nat
    | Panicked | NoFuel => False
    | _ => True
    end) c.
Proof.
  intros (Hok & Hf & Hl). pose proof (write_channel_spec fuel ch d c Hl) as Hd.
  pose proof (write_channel_calm (IoE := IoE) fuel ch d c) as Hc.
  pose proof (fine_write_channel fuel ch d c) as Hfine.
  pose proof (write_unknown fuel ch d c) as Hun. unfold wp in *.
  destruct (write_channel fuel ch d c) as [o c']. simpl in *.
  destruct Hd as (Hn & es & rest & He & Hp & -> & Ho). destruct o as [[]| | | |]; try done.
  destruct Ho as [-> Hw]. destruct Hc as [Hfl Hlen]. rewrite app_nil_r.
  destruct (Hfl Hok) as (Hok' & _ & Hs).
  assert (conn_inbox c' ch = conn_inbox c ch) as Hin.
  { unfold conn_inbox. destruct (table_get ch (c_table c)) as [s|] eqn:Hg.
    - destruct (Hs _ _ Hg) as (s' & -> & _ & Heq). done.
    - by rewrite (Hun eq_refl tt eq_refl), Hg. }
  split; [split_and!; [done|by apply Hfine|lia]|]. split; [|split; [done|rewrite Hin; lia]].
  split; [done|]. exists es. split; [done|]. split; [done|].
  rewrite Forall_forall in *. intros e Hin'. destruct (Hp e Hin') as [Hb Hcmd].
  split; [done|]. intros Hw'. split; [naive_solver congruence|]. by apply Hw.
Qed.

#[local] Instance conn_session_laws : SessionLaws (conn T) IoE.
Proof.
  refine (Build_SessionLaws (conn T) IoE _ conn_fine conn_inbox
    (λ c ch, (length (conn_inbox c ch) + length (coming c))%nat) conn_puts _ conn_puts_app _ _ _ _).
  - intros c ch. by apply chatter_puts, chatter_same.
  - intros ch want c Hfine Hw. simpl. unfold read_channel. apply wp_bind.
    eapply wp_mono; [apply (wp_steps chatter); [apply chatter_recv_data|];
      apply (recv_data_laws _ _ _ _ _ _ Hfine Hw); done|].
    intros [[b|[]]|e| | |] c' [Hpost Hch]; try done; (split; [by apply chatter_puts|done]).
  - intros F I poll ch want f c Hfine Hw. simpl. unfold select_channel.
    eapply wp_mono; [by apply recv_data_laws|].
    intros [[b|val]|e| | |] c' Hpost; try done. destruct Hpost as (? & ? & ? & ? & _). done.
  - intros ch d c Hfine. by apply write_channel_laws.
  - intros ch c. apply close_channel_ends.
Defined.
End Connection.
