(* ===== verification/RecvBuf.v ===== *)
(** * Buffered and whole-stream reads ([base/recv_buf.rs], [ReadToEnd] of
    [base/channel.rs])

    [RecvBuf] is a window over a buffer of the caller's: bytes are appended
    behind [tail] and consumed at [head].  [read_to_end] and [read_to_vec]
    drain a channel and close it.  Everything here is over any [Session] that
    keeps its laws. *)

From S2P Require Import Prelude Errors Protocol Config Slot ChannelTable Wire Connection Demux.
From S2P Require Import Destination Session.

Record RecvBuf : Type := mkRecvBuf { rb_buf : bytes; rb_head : Z; rb_tail : Z }.

Definition recv_buf_new (buf : bytes) : RecvBuf := mkRecvBuf buf 0 0.

Definition capacity (r : RecvBuf) : Z := len (rb_buf r).

(** [peek] and [take]: [None] is the panic of a slice out of bounds. *)
Definition peek (n : Z) (r : RecvBuf) : option bytes :=
  if n <=? rb_tail r - rb_head r then Some (ztake n (zslice (rb_head r) (rb_tail r) (rb_buf r)))
  else None.

Definition take (n : Z) (r : RecvBuf) : option (bytes * RecvBuf) :=
  b ← peek n r;
  let start := rb_head r in
  let head := rb_head r + len b in
  Some (zslice start head (rb_buf r), mkRecvBuf (rb_buf r) head (rb_tail r)).

(** [window]: what a read may fill. *)
Definition window (r : RecvBuf) : Z := len (rb_buf r) - rb_tail r.

(** [copy_within(head..tail, 0)]. *)
Definition compact (r : RecvBuf) : RecvBuf :=
  if 0 <? rb_head r then
    mkRecvBuf (zsplice 0 (zslice (rb_head r) (rb_tail r) (rb_buf r)) (rb_buf r))
      0 (rb_tail r - rb_head r)
  else r.

(** A read of [b] into the window. *)
Definition commit (b : bytes) (r : RecvBuf) : RecvBuf :=
  mkRecvBuf (zsplice (rb_tail r) b (rb_buf r)) (rb_head r) (rb_tail r + len b).

Section RecvBuf.
Context {Ses IoE : Type} `{Session Ses IoE}.

(** A call of the session, next to a buffer. *)
Definition on_session {X A} (m : prog Ses (Error IoE) A) : prog (X * Ses) (Error IoE) A :=
  zoom snd (λ s p, (fst p, s)) m.

(** The loop of [fill_at_least]; [fuel] bounds the reads. *)
Fixpoint fill_loop (fuel : nat) (ch : ChannelId) (n : Z) : prog (RecvBuf * Ses) (Error IoE) unit :=
  match fuel with
  | O => out_of_fuel
  | S fuel =>
      gets (λ p, rb_tail (fst p) - rb_head (fst p) <? n) ≫= λ short : bool,
      if negb short then mret tt
      else
        gets (λ p, len (rb_buf (fst p)) <=? rb_tail (fst p)) ≫= λ at_end : bool,
        (if at_end then
           modify (λ p, (compact (fst p), snd p)) ≫= λ _,
           gets (λ p, len (rb_buf (fst p)) <=? rb_tail (fst p)) ≫= λ full : bool,
           if full then fail Error.ReceiveBufferFull else mret tt
         else mret tt) ≫= λ _,
        want ← gets (λ p, window (fst p));
        b ← on_session (s_read_channel ch want);
        modify (λ p, (commit b (fst p), snd p)) ≫= λ _,
        fill_loop fuel ch n
  end.

Definition fill_at_least (fuel : nat) (ch : ChannelId) (n : Z) :
    prog (RecvBuf * Ses) (Error IoE) unit :=
  gets (λ p, capacity (fst p) <? n) ≫= λ over : bool,
  if over then fail Error.ReceiveBufferFull else fill_loop fuel ch n.

(** [let _ = self.close().await; read]. *)
Definition then_close {X A} (ch : ChannelId) (m : prog (X * Ses) (Error IoE) A) :
    prog (X * Ses) (Error IoE) A :=
  r ← catch m;
  catch (on_session (s_close_channel ch)) ≫= λ _, lift r.

(** The loop of [ReadToEnd::read_to_end], over the caller's buffer. *)
Fixpoint read_to_end_loop (fuel : nat) (ch : ChannelId) (tail : Z) :
    prog (bytes * Ses) (Error IoE) Z :=
  match fuel with
  | O => out_of_fuel
  | S fuel =>
      size ← gets (λ p, len (fst p));
      let full := tail =? size in
      r ← catch (on_session (s_read_channel ch (if full then 1 else size - tail)));
      match r with
      | Ok b =>
          if full && (0 <? len b) then fail Error.ReceiveBufferFull
          else
            (if full then mret tt
             else modify (λ p, (zsplice tail b (fst p), snd p))) ≫= λ _,
            read_to_end_loop fuel ch (tail + len b)
      | Err Error.ChannelClosed => mret tail
      | Err e => fail e
      end
  end.

Definition read_to_end (fuel : nat) (ch : ChannelId) : prog (bytes * Ses) (Error IoE) Z :=
  then_close ch (read_to_end_loop fuel ch 0).

(** The loop of [ReadToEnd::read_to_vec]: [None] is [Capped]. *)
Fixpoint read_to_vec_loop (fuel : nat) (ch : ChannelId) (cap : Z) (out : bytes) :
    prog (bytes * Ses) (Error IoE) (option bytes) :=
  match fuel with
  | O => out_of_fuel
  | S fuel =>
      size ← gets (λ p, len (fst p));
      r ← catch (on_session (s_read_channel ch size));
      match r with
      | Ok b =>
          modify (λ p, (zsplice 0 b (fst p), snd p)) ≫= λ _,
          if cap - len out <? len b then mret None
          else read_to_vec_loop fuel ch cap (out ++ b)
      | Err Error.ChannelClosed => mret (Some out)
      | Err e => fail e
      end
  end.

Definition read_to_vec (fuel : nat) (ch : ChannelId) (cap : Z) :
    prog (bytes * Ses) (Error IoE) (option bytes) :=
  then_close ch (read_to_vec_loop fuel ch cap []).
End RecvBuf.

(** ** The window *)

Definition rb_wf (r : RecvBuf) : Prop := 0 <= rb_head r <= rb_tail r ∧ rb_tail r <= len (rb_buf r).

(** The bytes that have arrived and are not consumed. *)
Definition unread (r : RecvBuf) : bytes := zslice (rb_head r) (rb_tail r) (rb_buf r).

Lemma len_zslice {A} i j (l : list A) :
  0 <= i <= j → j <= len l → len (zslice i j l) = j - i.
Proof. intros. unfold zslice. rewrite len_ztake, len_zdrop. lia. Qed.

Lemma len_unread r : rb_wf r → len (unread r) = rb_tail r - rb_head r.
Proof. intros [? ?]. by apply len_zslice. Qed.

Lemma compact_unread r :
  rb_wf r → rb_wf (compact r) ∧ unread (compact r) = unread r ∧ capacity (compact r) = capacity r ∧
  rb_head (compact r) = 0.
Proof.
  intros Hwf. pose proof (len_unread r Hwf) as Hl. destruct Hwf as [? ?]. unfold compact.
  destruct (Z.ltb_spec 0 (rb_head r)); [|unfold rb_wf; split_and!; (done || lia)].
  fold (unread r). assert (len (zsplice 0 (unread r) (rb_buf r)) = len (rb_buf r)) as Hz
    by (apply len_zsplice; lia).
  unfold rb_wf, capacity. simpl. rewrite Hz. split_and!; try lia.
  unfold unread at 1. simpl. unfold zslice, zsplice. rewrite (ztake_nonpos 0), zdrop_nonpos by lia.
  simpl. by rewrite ztake_app_len by lia.
Qed.

Lemma commit_unread b r :
  rb_wf r → len b <= window r →
  rb_wf (commit b r) ∧ unread (commit b r) = unread r ++ b ∧ capacity (commit b r) = capacity r.
Proof.
  intros [Hh Ht] Hb. unfold window in Hb. pose proof (len_nonneg b).
  assert (len (zsplice (rb_tail r) b (rb_buf r)) = len (rb_buf r)) as Hz
    by (apply len_zsplice; lia).
  unfold rb_wf, unread at 1, capacity, commit. simpl. rewrite Hz. split_and!; try lia.
  unfold zslice, zsplice. rewrite zdrop_app_le by (rewrite len_ztake; lia).
  assert (zdrop (rb_head r) (ztake (rb_tail r) (rb_buf r)) = unread r) as ->.
  { unfold unread, zslice. rewrite !ztake_take, !zdrop_drop, skipn_firstn_comm.
    f_equal. lia. }
  assert (len (unread r) = rb_tail r - rb_head r) as Hl by (by apply len_unread).
  rewrite app_assoc, ztake_app_len; [done|]. rewrite len_app. lia.
Qed.

Lemma take_unread n r :
  rb_wf r → 0 <= n <= len (unread r) →
  ∃ r', take n r = Some (ztake n (unread r), r') ∧ rb_wf r' ∧ unread r' = zdrop n (unread r) ∧
    capacity r' = capacity r.
Proof.
  intros Hwf Hn. pose proof (len_unread r Hwf) as Hl. destruct Hwf as [Hh Ht].
  unfold take, peek. fold (unread r). destruct (Z.leb_spec n (rb_tail r - rb_head r)); [|lia].
  simpl. assert (len (ztake n (unread r)) = n) as -> by (rewrite len_ztake; lia).
  exists (mkRecvBuf (rb_buf r) (rb_head r + n) (rb_tail r)).
  split; [|split; [split; simpl; lia|]].
  - unfold unread, zslice. rewrite ztake_ztake. do 3 f_equal. lia.
  - split; [|done]. unfold unread, zslice. simpl.
    rewrite !ztake_take, !zdrop_drop, skipn_firstn_comm, drop_drop. f_equal; [lia|f_equal; lia].
Qed.

Section Laws.
Context {Ses IoE : Type} `{SessionLaws Ses IoE}.

Lemma wp_on_session {X A} (m : prog Ses (Error IoE) A) (Q : outcome (Error IoE) A → X * Ses → Prop)
    x s : wp m (λ o s', Q o (x, s')) s → wp (on_session m) Q (x, s).
Proof. unfold wp, on_session, zoom. simpl. by destruct (m s). Qed.

(** An error of the session's own. *)
Definition read_failed (ch : ChannelId) (e : Error IoE) : Prop :=
  ∃ want s, fst (s_read_channel (S := Ses) ch want s) = Fail e.

(** How [fill_at_least] ends from [r] and [s]. *)
Definition filled (ch : ChannelId) (n : Z) (r : RecvBuf) (s : Ses)
    (o : outcome (Error IoE) unit) (p : RecvBuf * Ses) : Prop :=
  rb_wf (fst p) ∧ capacity (fst p) = capacity r ∧
  (∃ more, unread (fst p) = unread r ++ more) ∧ puts s ch [] (snd p) ∧
  match o with
  | Ret _ => n <= len (unread (fst p)) ∧ s_ok (snd p) ∧
      unread r ++ inbox s ch = unread (fst p) ++ inbox (snd p) ch ∧
      (reads_left (snd p) ch <= reads_left s ch)%nat
  | Fail e => read_failed ch e
  | Dropped => True
  | Panicked | NoFuel => False
  end.

Lemma filled_more ch n r s b r1 s1 o p :
  inbox s ch = b ++ inbox s1 ch → unread r1 = unread r ++ b → capacity r1 = capacity r →
  puts s ch [] s1 → (reads_left s1 ch < reads_left s ch)%nat →
  filled ch n r1 s1 o p → filled ch n r s o p.
Proof.
  intros Hin Hun Hcap Hpu Hle (Hwf & Hc & [more Hm] & Hpu' & Ho). split; [done|].
  split; [congruence|]. rewrite Hun, <- app_assoc in Hm. split; [eauto|].
  split; [exact (puts_app _ _ _ _ _ _ Hpu Hpu')|]. destruct o; try done.
  destruct Ho as (Hl & Hok & Heq & Hr). split; [done|]. split; [done|]. split; [|lia].
  by rewrite Hin, app_assoc, <- Hun.
Qed.

(** One read, once there is room for it. *)
Lemma fill_round fuel ch n r0 r s :
  rb_wf r → 0 < window r → s_ok s → capacity r = capacity r0 → unread r = unread r0 →
  (∀ r1 s1, rb_wf r1 → s_ok s1 → capacity r1 = capacity r →
    (reads_left s1 ch < reads_left s ch)%nat →
    wp (fill_loop fuel ch n) (filled ch n r1 s1) (r1, s1)) →
  wp (want ← gets (λ p, window (fst p));
      b ← on_session (s_read_channel ch want);
      modify (λ p, (commit b (fst p), snd p)) ≫= λ _,
      fill_loop fuel ch n) (filled ch n r0 s) (r, s).
Proof.
  intros Hwf Hw Hok Hcap Hun Hgo. apply wp_bind, wp_gets, wp_bind, wp_on_session. simpl.
  pose proof (s_read_spec ch (window r) s Hok Hw) as Hr. unfold wp in *.
  destruct (s_read_channel ch (window r) s) as [o s1] eqn:Hread. simpl in *.
  destruct Hr as [Hpu Hr].
  assert (filled ch n r0 s Dropped (r, s1)) as Hstop
    by (split_and!; [done|done|exists []; by rewrite app_nil_r|done|done]).
  destruct o as [b|e| | |]; try done.
  - destruct Hr as (Hok1 & Hlen & Hin1 & Hleft & _).
    destruct (commit_unread b r Hwf Hlen) as (Hwf1 & Hun1 & Hcap1).
    eapply wp_mono; [apply (wp_bind (A := unit) (modify _)), wp_modify, Hgo; done|].
    intros o p Hf. apply (filled_more _ _ _ _ b (commit b r) s1); [congruence..|done|done|exact Hf].
  - destruct Hstop as (? & ? & ? & ? & _). split_and!; try done. exists (window r), s. by rewrite Hread.
Qed.

Lemma fill_loop_spec fuel ch n r s :
  rb_wf r → n <= capacity r → s_ok s → (reads_left s ch < fuel)%nat →
  wp (fill_loop fuel ch n) (filled ch n r s) (r, s).
Proof.
  revert r s. induction fuel as [|fuel IH]; intros r s Hwf Hn Hok Hf; [lia|]. simpl.
  pose proof (len_unread r Hwf) as Hl. apply wp_bind, wp_gets. simpl.
  destruct (Z.ltb_spec (rb_tail r - rb_head r) n) as [Hshort|Hdone]; simpl.
  2: { apply wp_ret. split_and!; [done|done|exists []; by rewrite app_nil_r|apply puts_nil
       |simpl; lia|done|done|done]. }
  apply wp_bind, wp_gets. simpl. pose proof Hwf as [Hh Ht]. unfold capacity in Hn.
  assert (∀ r1, rb_wf r1 → 0 < window r1 → capacity r1 = capacity r → unread r1 = unread r →
    wp (want ← gets (λ p, window (fst p));
        b ← on_session (s_read_channel ch want);
        modify (λ p, (commit b (fst p), snd p)) ≫= λ _,
        fill_loop fuel ch n) (filled ch n r s) (r1, s)) as Hgo.
  { intros r1 Hwf1 Hw1 Hc1 Hu1. apply fill_round; try done. intros r2 s2 Hwf2 Hok2 Hc2 Hl2.
    apply IH; [done| |done|lia]. rewrite Hc2, Hc1. exact Hn. }
  destruct (Z.leb_spec (len (rb_buf r)) (rb_tail r)) as [Hend|Hroom]; apply wp_bind.
  - apply wp_bind, wp_modify, wp_bind, wp_gets. simpl.
    destruct (compact_unread r Hwf) as (Hwf1 & Hu1 & Hc1 & Hh1).
    pose proof (len_unread _ Hwf1) as Hl1. rewrite Hu1, Hl, Hh1 in Hl1. unfold capacity in Hc1.
    destruct (Z.leb_spec (len (rb_buf (compact r))) (rb_tail (compact r))); [lia|].
    apply wp_ret, Hgo; try done. unfold window. lia.
  - apply wp_ret, Hgo; try done. unfold window. lia.
Qed.

(** [fill_at_least] buffers what it promises and loses nothing.  On a
    session that keeps its laws, with fuel for the reads it has left, the call
    ends without a panic: at once, with nothing touched, if more is asked for
    than the buffer can ever hold; otherwise with at least [n] unread bytes in
    the buffer, or with an error of the session.  What is unread and then in
    the channel is the same byte sequence before and after, compaction
    included, and what had already arrived stays even when the call fails. *)
Theorem fill_at_least_fills fuel ch n r s :
  rb_wf r → s_ok s → (reads_left s ch < fuel)%nat →
  let '(o, p) := fill_at_least fuel ch n (r, s) in
  if capacity r <? n then o = Fail Error.ReceiveBufferFull ∧ p = (r, s)
  else filled ch n r s o p.
Proof.
  intros Hwf Hok Hf. unfold fill_at_least, mbind, prog_bind, gets. simpl.
  destruct (Z.ltb_spec (capacity r) n); [done|].
  pose proof (fill_loop_spec fuel ch n r s Hwf ltac:(lia) Hok Hf) as Hs. unfold wp in Hs.
  by destruct (fill_loop fuel ch n (r, s)).
Qed.

(** ** Whole streams *)

(** The channel handed over [out] and then failed with [e], in state [s']. *)
Definition gave (ch : ChannelId) (s : Ses) (out : bytes) (e : Error IoE) (s' : Ses) : Prop :=
  ∃ s1 want, inbox s ch = out ++ inbox s1 ch ∧ s_read_channel ch want s1 = (Fail e, s').

(** The channel handed over [out], and could go on. *)
Definition gave_more (ch : ChannelId) (s : Ses) (out : bytes) (s' : Ses) : Prop :=
  inbox s ch = out ++ inbox s' ch ∧ s_ok s'.

Lemma gave_after ch s b s1 out e s' :
  inbox s ch = b ++ inbox s1 ch → gave ch s1 out e s' → gave ch s (b ++ out) e s'.
Proof.
  intros Hb (s2 & want & Hin & Hr). exists s2, want. split; [|done].
  by rewrite Hb, Hin, app_assoc.
Qed.

Lemma gave_more_after ch s b s1 out s' :
  inbox s ch = b ++ inbox s1 ch → gave_more ch s1 out s' → gave_more ch s (b ++ out) s'.
Proof. intros Hb [Hin Hok]. split; [|done]. by rewrite Hb, Hin, app_assoc. Qed.

(** The loop of [read_to_end] with [tail] bytes already in [buf]. *)
Definition end_reached (ch : ChannelId) (buf : bytes) (s : Ses) (tail : Z)
    (o : outcome (Error IoE) Z) (p : bytes * Ses) : Prop :=
  len (fst p) = len buf ∧
  match o with
  | Ret n => ∃ out, gave ch s out Error.ChannelClosed (snd p) ∧ n = tail + len out ∧
      n <= len buf ∧ ztake n (fst p) = ztake tail buf ++ out
  | Fail e => ∃ out,
      (e = Error.ReceiveBufferFull ∧ len buf < tail + len out ∧ gave_more ch s out (snd p)) ∨
      (e ≠ Error.ChannelClosed ∧ gave ch s out e (snd p))
  | Dropped => True
  | Panicked | NoFuel => False
  end.

Lemma end_reached_after ch buf s tail b buf1 s1 o p :
  0 <= tail → tail + len b <= len buf → buf1 = zsplice tail b buf →
  inbox s ch = b ++ inbox s1 ch →
  end_reached ch buf1 s1 (tail + len b) o p → end_reached ch buf s tail o p.
Proof.
  intros Ht Hl -> Hin. pose proof (len_nonneg b).
  assert (ztake (tail + len b) (zsplice tail b buf) = ztake tail buf ++ b) as Htake.
  { unfold zsplice. rewrite app_assoc. apply ztake_app_len. rewrite len_app, len_ztake. lia. }
  unfold end_reached. rewrite len_zsplice by lia. intros [Hlen Ho]. split; [done|].
  destruct o; try done.
  - destruct Ho as (out & Hg & -> & Hle & Heq). exists (b ++ out).
    split; [by eapply gave_after|]. rewrite len_app. split; [lia|]. split; [lia|].
    rewrite Heq, Htake. by rewrite <- app_assoc.
  - destruct Ho as (out & [(-> & Hlt & Hg)|[Hne Hg]]); exists (b ++ out).
    + left. rewrite len_app. split; [done|]. split; [lia|]. by eapply gave_more_after.
    + right. split; [done|]. by eapply gave_after.
Qed.

Lemma read_to_end_loop_spec fuel ch tail buf s :
  0 <= tail <= len buf → s_ok s → (reads_left s ch < fuel)%nat →
  wp (read_to_end_loop fuel ch tail) (end_reached ch buf s tail) (buf, s).
Proof.
  revert tail buf s. induction fuel as [|fuel IH]; intros tail buf s Ht Hok Hf; [lia|]. simpl.
  apply wp_bind, wp_gets, wp_bind, wp_catch, wp_on_session. simpl.
  set (want := if tail =? len buf then 1 else len buf - tail).
  assert (0 < want) as Hw by (unfold want; case_cmp; lia).
  pose proof (s_read_spec ch want s Hok Hw) as Hr. apply proj2 in Hr. unfold wp in *.
  destruct (s_read_channel ch want s) as [o s1] eqn:Hread. simpl in *.
  destruct o as [b|e| | |]; try done.
  - destruct Hr as (Hok1 & Hlen & Hin & Hleft & _). pose proof (len_nonneg b).
    destruct (Z.eqb_spec tail (len buf)) as [Hfull|Hnot]; simpl; unfold want in *.
    + destruct (Z.ltb_spec 0 (len b)) as [Hpos|Hz].
      * split; [done|]. exists b. left. split; [done|]. split; [lia|]. done.
      * assert (b = []) as -> by (apply len_0_nil; lia). rewrite (@len_nil byte), Z.add_0_r.
        unfold mbind, prog_bind, mret, prog_ret. simpl.
        pose proof (IH tail buf s1 Ht Hok1 ltac:(lia)) as Hi. unfold wp in Hi.
        destruct (read_to_end_loop fuel ch tail (buf, s1)) as [o p]. simpl in *.
        apply (end_reached_after ch buf s tail [] buf s1 o p);
          rewrite ?(@len_nil byte), ?Z.add_0_r; [lia|lia| |done|done].
        unfold zsplice. rewrite (@len_nil byte), Z.add_0_r. simpl. by rewrite ztake_zdrop.
    + unfold mbind, prog_bind, modify. simpl.
      assert (len (zsplice tail b buf) = len buf) as Hz by (apply len_zsplice; lia).
      pose proof (IH (tail + len b) (zsplice tail b buf) s1 ltac:(lia) Hok1 ltac:(lia)) as Hi.
      unfold wp in Hi.
      destruct (read_to_end_loop fuel ch (tail + len b) (zsplice tail b buf, s1)) as [o p].
      simpl in *. eapply end_reached_after; [..|exact Hi]; (done || lia).
  - assert (gave ch s [] e s1) as Hg by (by exists s, want).
    destruct e; simpl; (split; [done|]);
      try (exists []; right; split; [done|]; exact Hg).
    exists []. split; [exact Hg|]. rewrite (@len_nil byte), app_nil_r. split; [lia|]. split; [lia|done].
Qed.

(** The same for [read_to_vec], with [out] collected so far. *)
Definition vec_reached (ch : ChannelId) (cap size : Z) (s : Ses) (out : bytes)
    (o : outcome (Error IoE) (option bytes)) (p : bytes * Ses) : Prop :=
  len (fst p) = size ∧
  match o with
  | Ret (Some v) => ∃ more, v = out ++ more ∧ len v <= cap ∧
      gave ch s more Error.ChannelClosed (snd p)
  | Ret None => ∃ more, cap < len out + len more ∧ gave_more ch s more (snd p)
  | Fail e => e ≠ Error.ChannelClosed ∧ ∃ more, gave ch s more e (snd p)
  | Dropped => True
  | Panicked | NoFuel => False
  end.

Lemma read_to_vec_loop_spec fuel ch cap out rx s :
  0 < len rx → len out <= cap → s_ok s → (reads_left s ch < fuel)%nat →
  wp (read_to_vec_loop fuel ch cap out) (vec_reached ch cap (len rx) s out) (rx, s).
Proof.
  revert out rx s. induction fuel as [|fuel IH]; intros out rx s Hrx Hout Hok Hf; [lia|]. simpl.
  apply wp_bind, wp_gets, wp_bind, wp_catch, wp_on_session. simpl.
  pose proof (s_read_spec ch (len rx) s Hok Hrx) as Hr. apply proj2 in Hr. unfold wp in *.
  destruct (s_read_channel ch (len rx) s) as [o s1] eqn:Hread. simpl in *.
  destruct o as [b|e| | |]; try done.
  - destruct Hr as (Hok1 & Hlen & Hin & Hleft & _). unfold mbind, prog_bind, modify. simpl.
    assert (len (zsplice 0 b rx) = len rx) as Hz by (apply len_zsplice; lia).
    destruct (Z.ltb_spec (cap - len out) (len b)) as [Hover|Hfit].
    + split; [exact Hz|]. exists b. split; [lia|]. done.
    + pose proof (IH (out ++ b) (zsplice 0 b rx) s1) as Hi. rewrite Hz, len_app in Hi.
      specialize (Hi Hrx ltac:(lia) Hok1 ltac:(lia)). unfold wp in Hi.
      destruct (read_to_vec_loop fuel ch cap (out ++ b) (zsplice 0 b rx, s1)) as [o p].
      simpl in *. destruct Hi as [Hl Ho]. split; [done|]. destruct o as [[v|]|e| | |]; try done.
      * destruct Ho as (more & -> & Hcap & Hg). exists (b ++ more). rewrite <- app_assoc in *.
        split; [done|]. split; [done|]. by eapply gave_after.
      * destruct Ho as (more & Hcap & Hg). exists (b ++ more). rewrite !len_app in *.
        split; [lia|]. by eapply gave_more_after.
      * destruct Ho as (Hne & more & Hg). split; [done|]. exists (b ++ more). by eapply gave_after.
  - assert (gave ch s [] e s1) as Hg by (by exists s, (len rx)).
    destruct e; simpl; (split; [done|]); try (split; [done|]; by exists []).
    exists []. rewrite app_nil_r. done.
Qed.

(** [then_close] runs the close after [m] and reports what [m] did; only a
    drop leaves the channel open. *)
Lemma then_close_spec {X A} ch (m : prog (X * Ses) (Error IoE) A)
    (Q : outcome (Error IoE) A → X * Ses → Prop) (p : X * Ses) :
  wp m Q p → (∀ p', ¬ Q Panicked p' ∧ ¬ Q NoFuel p') →
  let '(o, p') := then_close ch m p in
  o = Dropped ∨ ∃ p1, Q o p1 ∧ p' = (fst p1, snd (s_close_channel ch (snd p1))).
Proof.
  intros Hm Hno. unfold then_close, mbind, prog_bind, catch, wp, on_session, zoom in *.
  destruct (m p) as [o p1]. simpl in *.
  pose proof (s_close_ends ch (snd p1)) as [Hc1 Hc2].
  destruct o as [a|e| | |]; [| |by left|by destruct (Hno p1)|by destruct (Hno p1)];
    destruct (s_close_channel ch (snd p1)) as [oc s'] eqn:Hc; simpl in *;
    destruct oc; try done; try (by left); right; exists p1; by rewrite Hc.
Qed.

Lemma outcome_dropped {E A} (o : outcome E A) : o = Dropped ∨ o ≠ Dropped.
Proof. destruct o; auto. Qed.

(** draining a channel.  On a session that keeps its laws,
    [read_to_end] ends: it returns how many bytes the channel handed over until
    it reported itself closed, exactly those bytes are at the front of the
    buffer, in order; it fails with [ReceiveBufferFull] only after the channel
    handed over more than the buffer holds, and otherwise with the channel's
    own error; and it closes the channel on every way out but a drop. *)
Theorem read_to_end_drains fuel ch buf s :
  s_ok s → (reads_left s ch < fuel)%nat →
  let '(o, p) := read_to_end fuel ch (buf, s) in
  o = Dropped ∨ ∃ s1, snd p = snd (s_close_channel ch s1) ∧ len (fst p) = len buf ∧
    match o with
    | Ret n => n <= len buf ∧ gave ch s (ztake n (fst p)) Error.ChannelClosed s1
    | Fail e => ∃ out,
        (e = Error.ReceiveBufferFull ∧ len buf < len out ∧ gave_more ch s out s1) ∨
        (e ≠ Error.ChannelClosed ∧ gave ch s out e s1)
    | _ => False
    end.
Proof.
  intros Hok Hf. pose proof (len_nonneg buf).
  pose proof (then_close_spec ch _ _ _
    (read_to_end_loop_spec fuel ch 0 buf s ltac:(lia) Hok Hf)) as Hs.
  unfold read_to_end. destruct (then_close ch (read_to_end_loop fuel ch 0) (buf, s)) as [o p].
  destruct Hs as [->|([buf1 s1] & [Hl Ho] & ->)]; [by unfold end_reached; naive_solver|by left|].
  destruct (outcome_dropped o) as [->|Hnd]; [by left|right].
  exists s1. simpl in *. split; [done|]. split; [done|]. destruct o; try done.
  destruct Ho as (out & Hg & -> & Hle & Heq). rewrite (ztake_nonpos 0) in Heq by lia.
  simpl in *. by rewrite Heq.
Qed.

(** [read_to_vec] likewise, into a vector of at most [cap] bytes: it
    returns all of what the channel handed over until it closed, or [Capped]
    once that is more than [cap], and closes the channel either way. *)
Theorem read_to_vec_drains fuel ch cap rx s :
  0 < len rx → 0 <= cap → s_ok s → (reads_left s ch < fuel)%nat →
  let '(o, p) := read_to_vec fuel ch cap (rx, s) in
  o = Dropped ∨ ∃ s1, snd p = snd (s_close_channel ch s1) ∧ len (fst p) = len rx ∧
    match o with
    | Ret (Some v) => len v <= cap ∧ gave ch s v Error.ChannelClosed s1
    | Ret None => ∃ out, cap < len out ∧ gave_more ch s out s1
    | Fail e => e ≠ Error.ChannelClosed ∧ ∃ out, gave ch s out e s1
    | _ => False
    end.
Proof.
  intros Hrx Hcap Hok Hf.
  pose proof (then_close_spec ch _ _ _
    (read_to_vec_loop_spec fuel ch cap [] rx s Hrx Hcap Hok Hf)) as Hs.
  unfold read_to_vec. destruct (then_close ch (read_to_vec_loop fuel ch cap []) (rx, s)) as [o p].
  destruct Hs as [->|([rx1 s1] & [Hl Ho] & ->)]; [by unfold vec_reached; naive_solver|by left|].
  destruct (outcome_dropped o) as [->|Hnd]; [by left|right].
  exists s1. simpl in *. split; [done|]. split; [done|].
  destruct o as [[v|]| | | |]; try done.
  - by destruct Ho as (more & -> & Hc & Hg).
Qed.
End Laws.

(** ** A sample channel *)

(** Channel 1 has two WRTEs and a CLSE to come, channel 2 one WRTE. *)
Definition drain_conn : conn Script.script :=
  let fr p := match frame Checksum.Skip p with Ok f => f | Err _ => [] end in
  mkConn
    (mkWire (Script.mkScript
       (fr (mkPacket Command.Write 8 1 (bs "hello ")) ++ fr (mkPacket Command.Write 9 2 (bs "other"))
        ++ fr (mkPacket Command.Write 8 1 (bs "world")) ++ fr (mkPacket Command.Close 8 1 []))
       [] [IoOk 30; IoOk 2]) [] false)
    (c_table sample_conn) (c_negotiated sample_conn) [].

#[local] Instance drain_session : Session (conn Script.script) Script.error := conn_session 10.
#[local] Instance drain_laws : SessionLaws (conn Script.script) Script.error :=
  conn_session_laws 10.

Lemma drain_conn_fine : s_ok drain_conn.
Proof.
  change (conn_fine (IoE := Script.error) 10 drain_conn). split; [|split; [|by vm_compute; lia]].
  - split.
    + intros [|[|i]] [|[|j]] s1 s2 H1 H2; simpl in *; simplify_eq; done.
    + intros [|[|i]] s Hs; simpl in *; simplify_eq; done.
  - intros [|[|i]] s Hs; simpl in *; simplify_eq; done.
Defined.

Lemma drain_conn_left : (reads_left drain_conn (mkChannelId 0 1) < 20)%nat.
Proof. vm_compute. lia. Qed.

Lemma fill_at_least_fills_witness :
  let '(o, p) := fill_at_least 20 (mkChannelId 0 1) 8 (recv_buf_new (replicate 10 x00), drain_conn) in
  o = Ret tt ∧ filled (mkChannelId 0 1) 8 (recv_buf_new (replicate 10 x00)) drain_conn o p ∧
  unread (fst p) = bs "hello worl".
Proof.
  assert (rb_wf (recv_buf_new (replicate 10 x00))) as Hwf by (vm_compute; intuition congruence).
  pose proof (fill_at_least_fills 20 (mkChannelId 0 1) 8 (recv_buf_new (replicate 10 x00))
    drain_conn Hwf drain_conn_fine drain_conn_left) as Hf.
  assert (let '(o, p) := fill_at_least (IoE := Script.error) 20 (mkChannelId 0 1) 8
      (recv_buf_new (replicate 10 x00), drain_conn) in
    o = Ret tt ∧ unread (fst p) = bs "hello worl") as He by (vm_compute; split; reflexivity).
  destruct (fill_at_least _ _ _ _) as [o p]. destruct He as [He1 He2].
  split; [exact He1|]. split; [exact Hf|exact He2].
Defined.

Lemma read_to_end_drains_witness :
  let '(o, p) := read_to_end 20 (mkChannelId 0 1) (replicate 16 x00, drain_conn) in
  o = Ret 11 ∧ ztake 11 (fst p) = bs "hello world" ∧
  ∃ s1, snd p = snd (s_close_channel (mkChannelId 0 1) s1) ∧
    gave (mkChannelId 0 1) drain_conn (ztake 11 (fst p)) Error.ChannelClosed s1.
Proof.
  pose proof (read_to_end_drains 20 (mkChannelId 0 1) (replicate 16 x00) drain_conn
    drain_conn_fine drain_conn_left) as Hf.
  assert (let '(o, p) := read_to_end (IoE := Script.error) 20 (mkChannelId 0 1)
      (replicate 16 x00, drain_conn) in
    o = Ret 11 ∧ ztake 11 (fst p) = bs "hello world") as He by (vm_compute; split; reflexivity).
  destruct (read_to_end _ _ _) as [o p]. destruct He as [-> He2].
  destruct Hf as [Hd|(s1 & Hc & _ & _ & Hg)]; [discriminate Hd|].
  split; [reflexivity|]. split; [exact He2|]. exists s1. split; [exact Hc|exact Hg].
Defined.

Lemma read_to_vec_drains_witness :
  let '(o, p) := read_to_vec 20 (mkChannelId 0 1) 10 (replicate 4 x00, drain_conn) in
  o = Ret None ∧ ∃ s1 out, 10 < len out ∧ gave_more (mkChannelId 0 1) drain_conn out s1.
Proof.
  pose proof (read_to_vec_drains 20 (mkChannelId 0 1) 10 (replicate 4 x00) drain_conn
    ltac:(vm_compute; reflexivity) ltac:(lia) drain_conn_fine drain_conn_left) as Hf.
  assert (fst (read_to_vec (IoE := Script.error) 20 (mkChannelId 0 1) 10
      (replicate 4 x00, drain_conn)) = Ret None) as He by (vm_compute; reflexivity).
  destruct (read_to_vec _ _ _ _) as [o p]. cbn [fst] in He. subst o.
  destruct Hf as [Hd|(s1 & _ & _ & out & Hlt & Hg)]; [discriminate Hd|].
  split; [reflexivity|]. exists s1, out. split; [exact Hlt|exact Hg].
Defined.
