(* ===== verification/ShellV2.v ===== *)
(** * The shell protocol ([shell/v2.rs], [shell/v2/decoder.rs])

    A shell_v2 channel carries frames: an id byte, a 32-bit length, the
    payload.  [FrameDecoder] takes them out of a receive buffer of the
    caller's, handing over in pieces a frame that does not fit it.  [Shell] is
    the decoder, its buffer and a channel of a session. *)

From S2P Require Import Prelude Errors Protocol Text Banner ChannelTable Connection.
From S2P Require Import Destination Session RecvBuf.

Module FrameId.
Inductive FrameId : Type := Stdin | Stdout | Stderr | Exit | CloseStdin | WindowSizeChange.

#[global] Instance frame_id_eq_decision : EqDecision FrameId.
Proof. solve_decision. Defined.
End FrameId.
Abbreviation FrameId := FrameId.FrameId.

(** [FrameId::try_from]: an unknown byte is the error. *)
Definition frame_id_try_from (id : byte) : result byte FrameId :=
  match u8 id with
  | 0 => Ok FrameId.Stdin
  | 1 => Ok FrameId.Stdout
  | 2 => Ok FrameId.Stderr
  | 3 => Ok FrameId.Exit
  | 4 => Ok FrameId.CloseStdin
  | 5 => Ok FrameId.WindowSizeChange
  | _ => Err id
  end.

Definition frame_id_byte (id : FrameId) : byte :=
  match id with
  | FrameId.Stdin => x00
  | FrameId.Stdout => x01
  | FrameId.Stderr => x02
  | FrameId.Exit => x03
  | FrameId.CloseStdin => x04
  | FrameId.WindowSizeChange => x05
  end.

Definition byte_of (id : result byte FrameId) : byte :=
  match id with Ok id => frame_id_byte id | Err b => b end.

Module ShellMode.
Inductive ShellMode : Type := Raw | Pty (term : option bytes).
End ShellMode.
Abbreviation ShellMode := ShellMode.ShellMode.

(** [destination]. *)
Definition shell_destination (mode : ShellMode) (command : bytes) : result ProtocolError bytes :=
  if has_nul command then Err ProtocolError.InvalidDestination
  else match mode with
  | ShellMode.Raw => Ok (bs "shell,v2,raw:" ++ command ++ [NUL])
  | ShellMode.Pty None | ShellMode.Pty (Some []) => Ok (bs "shell,v2,pty:" ++ command ++ [NUL])
  | ShellMode.Pty (Some term) =>
      if contains ","%byte term || contains ":"%byte term || contains NUL term
      then Err ProtocolError.InvalidDestination
      else Ok (bs "shell,v2,pty,TERM=" ++ term ++ bs ":" ++ command ++ [NUL])
  end.

Definition HEADER_SIZE : Z := 5.

(** [parse_header], on the five bytes of a header. *)
Definition parse_header (hdr : bytes) : result byte FrameId * Z :=
  match hdr with
  | id :: rest => (frame_id_try_from id, le_val (ztake 4 rest))
  | [] => (Err x00, 0)
  end.

(** [WindowSize] and [EncodedWindowSize]. *)
Record WindowSize : Type := mkWindowSize { rows : Z; cols : Z }.

Definition MAX_LEN : Z := 16.

Record EncodedWindowSize : Type := mkEncoded { e_bytes : bytes; e_len : Z }.

Definition as_bytes (e : EncodedWindowSize) : bytes := ztake (e_len e) (e_bytes e).

(** [push]: [None] is the panic of a slice out of bounds. *)
Definition push (part : bytes) (e : EncodedWindowSize) : option EncodedWindowSize :=
  let end_ := e_len e + len part in
  if end_ <=? len (e_bytes e) then Some (mkEncoded (zsplice (e_len e) part (e_bytes e)) end_)
  else None.

Definition window_size_encode (w : WindowSize) : option EncodedWindowSize :=
  r ← format_u32 (rows w) (replicate 10 x00);
  out ← push r (mkEncoded (replicate (Z.to_nat MAX_LEN) x00) 0);
  out ← push (bs "x") out;
  c ← format_u32 (cols w) (replicate 10 x00);
  out ← push c out;
  push (bs ",0x0" ++ [NUL]) out.

Module Frame.
Inductive Frame : Type :=
| Stdout (payload : bytes)
| Stderr (payload : bytes)
| Exit (code : byte)
| Other (id : byte) (payload : bytes).
End Frame.
Abbreviation Frame := Frame.Frame.

(** [make_frame]. *)
Definition make_frame (id : result byte FrameId) (payload : bytes) :
    result ProtocolError Frame :=
  match id with
  | Ok FrameId.Stdout => Ok (Frame.Stdout payload)
  | Ok FrameId.Stderr => Ok (Frame.Stderr payload)
  | Ok FrameId.Exit =>
      match payload with
      | [] => Err ProtocolError.ShortExitPayload
      | code :: _ => Ok (Frame.Exit code)
      end
  | other => Ok (Frame.Other (byte_of other) payload)
  end.

(** ** [FrameDecoder] *)

Record FrameDecoder : Type := mkDecoder {
  d_head : Z;
  d_tail : Z;
  large_id : result byte FrameId;
  large_remaining : Z;
}.

Definition decoder_new : FrameDecoder := mkDecoder 0 0 (Ok FrameId.Stdout) 0.

Definition decoder_commit (n : Z) (d : FrameDecoder) : FrameDecoder :=
  mkDecoder (d_head d) (d_tail d + n) (large_id d) (large_remaining d).

(** [compact], on the decoder and its buffer. *)
Definition decoder_compact (rx : bytes) (d : FrameDecoder) : bytes * FrameDecoder :=
  if 0 <? d_head d then
    (zsplice 0 (zslice (d_head d) (d_tail d) rx) rx,
     mkDecoder 0 (d_tail d - d_head d) (large_id d) (large_remaining d))
  else (rx, d).

Definition reset_if_drained (d : FrameDecoder) : FrameDecoder :=
  if d_head d =? d_tail d then mkDecoder 0 0 (large_id d) (large_remaining d) else d.

Abbreviation raw_frame := (result byte FrameId * bytes)%type.

(** A slice of the buffer; out of bounds it panics. *)
Definition slice (i j : Z) (rx : bytes) : prog FrameDecoder ProtocolError bytes :=
  if (0 <=? i) && (i <=? j) && (j <=? len rx) then mret (zslice i j rx) else panic.

Definition consume_large_ref (rx : bytes) (available : Z) :
    prog FrameDecoder ProtocolError raw_frame :=
  d ← get;
  let take := Z.min available (large_remaining d) in
  let id := large_id d in
  let start := d_head d in
  modify (λ d, reset_if_drained
    (mkDecoder (d_head d + take) (d_tail d) (large_id d) (large_remaining d - take))) ≫= λ _,
  p ← slice start (start + take) rx;
  mret (id, p).

Definition try_next_raw_ref (rx : bytes) : prog FrameDecoder ProtocolError (option raw_frame) :=
  d ← get;
  if 0 <? large_remaining d then
    let buffered := d_tail d - d_head d in
    if buffered =? 0 then mret None
    else f ← consume_large_ref rx buffered; mret (Some f)
  else
    let buffered := d_tail d - d_head d in
    if buffered <? HEADER_SIZE then mret None
    else
      let hdr_start := d_head d in
      hdr ← slice hdr_start (hdr_start + HEADER_SIZE) rx;
      let '(id, length) := parse_header hdr in
      total ← lift (ok_or ProtocolError.PayloadTooLarge (usize_checked_add HEADER_SIZE length));
      if len rx <? total then
        modify (λ d, mkDecoder (hdr_start + HEADER_SIZE) (d_tail d) id length) ≫= λ _,
        let available := d_tail d - (hdr_start + HEADER_SIZE) in
        if available =? 0 then modify reset_if_drained ≫= λ _, mret None
        else
          f ← consume_large_ref rx available;
          mret (Some (id, snd f))
      else if buffered <? total then mret None
      else
        let payload_start := hdr_start + HEADER_SIZE in
        let payload_end := payload_start + length in
        modify (λ d, reset_if_drained
          (mkDecoder payload_end (d_tail d) (large_id d) (large_remaining d))) ≫= λ _,
        p ← slice payload_start payload_end rx;
        mret (Some (id, p)).

(** [try_next_raw] copies the payload, [try_next_frame] types it. *)
Definition decoder_try_next_frame (rx : bytes) : prog FrameDecoder ProtocolError (option Frame) :=
  o ← try_next_raw_ref rx;
  match o with
  | None => mret None
  | Some (id, p) => f ← lift (make_frame id p); mret (Some f)
  end.

(** ** [Shell] *)

Record Shell : Type := mkShell { sh_rx : bytes; sh_decoder : FrameDecoder }.

Record CommandOutput : Type := mkOutput { o_stdout : bytes; o_stderr : bytes; o_exit_code : Z }.

Section Shell.
Context {Ses IoE : Type} `{Session Ses IoE}.

Abbreviation shprog := (prog (Shell * Ses) (Error IoE)).

(** [Shell::new]: [None] is its assertion. *)
Definition shell_new (rx : bytes) : option Shell :=
  if HEADER_SIZE <=? len rx then Some (mkShell rx decoder_new) else None.

(** A call of the decoder on the buffer. *)
Definition on_decoder {A} (m : bytes → prog FrameDecoder ProtocolError A) : shprog A := λ p,
  let '(o, d) := m (sh_rx (fst p)) (sh_decoder (fst p)) in
  (outcome_map id Error.Protocol o, (mkShell (sh_rx (fst p)) d, snd p)).

Definition shell_compact : shprog unit :=
  modify (λ p, let '(rx, d) := decoder_compact (sh_rx (fst p)) (sh_decoder (fst p)) in
               (mkShell rx d, snd p)).

(** [Shell::send_frame]: the frame is put together behind the buffered bytes
    where it fits. *)
Definition shell_send_frame (ch : ChannelId) (id : FrameId) (payload : bytes) : shprog unit :=
  if U32_MAX <? len payload then fail (Error.Protocol ProtocolError.PayloadTooLarge)
  else
    let hdr := frame_id_byte id :: u32_le (len payload) in
    let total := HEADER_SIZE + len payload in
    shell_compact ≫= λ _,
    p ← get;
    let start := d_tail (sh_decoder (fst p)) in
    let free := len (sh_rx (fst p)) - start in
    if total <=? free then
      modify (λ p, (mkShell (zsplice (start + HEADER_SIZE) payload
                               (zsplice start hdr (sh_rx (fst p)))) (sh_decoder (fst p)), snd p))
        ≫= λ _,
      frame ← gets (λ p, zslice start (start + total) (sh_rx (fst p)));
      on_session (s_write_channel ch frame)
    else
      on_session (s_write_channel ch hdr) ≫= λ _,
      if bool_decide (payload = []) then mret tt else on_session (s_write_channel ch payload).

Definition write_stdin (ch : ChannelId) (data : bytes) : shprog unit :=
  shell_send_frame ch FrameId.Stdin data.

(** [Shell::close_stdin]: a channel the device closed is no failure. *)
Definition close_stdin (ch : ChannelId) : shprog unit :=
  r ← catch (shell_send_frame ch FrameId.CloseStdin []);
  match r with
  | Err Error.ChannelClosed => mret tt
  | r => lift r
  end.

Definition set_window_size (ch : ChannelId) (size : WindowSize) : shprog unit :=
  match window_size_encode size with
  | Some e => shell_send_frame ch FrameId.WindowSizeChange (as_bytes e)
  | None => panic
  end.

(** [Shell::ensure_writable]. *)
Definition ensure_writable : shprog unit :=
  p ← get;
  if d_tail (sh_decoder (fst p)) <? len (sh_rx (fst p)) then mret tt
  else
    shell_compact ≫= λ _,
    p ← get;
    if d_tail (sh_decoder (fst p)) =? len (sh_rx (fst p)) then fail Error.ReceiveBufferFull
    else mret tt.

(** A read of [b] behind the buffered bytes. *)
Definition shell_fill (b : bytes) (sh : Shell) : Shell :=
  mkShell (zsplice (d_tail (sh_decoder sh)) b (sh_rx sh))
    (decoder_commit (len b) (sh_decoder sh)).

Definition shell_try_next_frame : shprog (option Frame) := on_decoder decoder_try_next_frame.

(** [Shell::read_frame]; [fuel] bounds the reads. *)
Fixpoint read_frame (fuel : nat) (ch : ChannelId) : shprog Frame :=
  match fuel with
  | O => out_of_fuel
  | S fuel =>
      o ← shell_try_next_frame;
      match o with
      | Some frame => mret frame
      | None =>
          ensure_writable ≫= λ _,
          want ← gets (λ p, len (sh_rx (fst p)) - d_tail (sh_decoder (fst p)));
          b ← on_session (s_read_channel ch want);
          modify (λ p, (shell_fill b (fst p), snd p)) ≫= λ _,
          read_frame fuel ch
      end
  end.

(** [Shell::pump]. *)
Definition pump {F I} (poll : F → option I * F) (ch : ChannelId) (f : F) :
    shprog (SelectResult I) :=
  ensure_writable ≫= λ _,
  want ← gets (λ p, len (sh_rx (fst p)) - d_tail (sh_decoder (fst p)));
  r ← on_session (s_select_channel poll ch want f);
  match r with
  | SData b => modify (λ p, (shell_fill b (fst p), snd p)) ≫= λ _, mret (SData b)
  | SInterrupted val => mret (SInterrupted val)
  end.

(** The loop of [Shell::collect]. *)
Fixpoint collect_loop (frames fuel : nat) (ch : ChannelId) (out : CommandOutput) :
    shprog CommandOutput :=
  match frames with
  | O => out_of_fuel
  | S frames =>
      f ← read_frame fuel ch;
      match f with
      | Frame.Stdout b =>
          collect_loop frames fuel ch (mkOutput (o_stdout out ++ b) (o_stderr out) (o_exit_code out))
      | Frame.Stderr b =>
          collect_loop frames fuel ch (mkOutput (o_stdout out) (o_stderr out ++ b) (o_exit_code out))
      | Frame.Exit code => mret (mkOutput (o_stdout out) (o_stderr out) (u8 code))
      | Frame.Other _ _ => collect_loop frames fuel ch out
      end
  end.

Definition collect (frames fuel : nat) (ch : ChannelId) : shprog CommandOutput :=
  then_close ch (collect_loop frames fuel ch (mkOutput [] [] 0)).

(** [Shell::run_to_exit]. *)
Definition run_to_exit (frames fuel : nat) (ch : ChannelId) : shprog CommandOutput :=
  r ← catch (close_stdin ch);
  match r with
  | Err e => catch (on_session (s_close_channel ch)) ≫= λ _, fail e
  | Ok _ => collect frames fuel ch
  end.

(** Run [m] in a shell over [rx]; the buffer is the caller's again after. *)
Definition with_shell {A} (rx : bytes) (m : shprog A) : prog Ses (Error IoE) A := λ s,
  match shell_new rx with
  | None => (Panicked, s)
  | Some sh => let '(o, (_, s')) := m (sh, s) in (o, s')
  end.

(** [open]: the channel it opens. *)
Definition shell_open (command : bytes) : prog Ses (Error IoE) ChannelId :=
  s_require_feature Feature.ShellV2 ≫= λ _,
  dest ← lift (map_err Error.Protocol (shell_destination ShellMode.Raw command));
  s_open_channel dest.

(** [open_interactive]. *)
Definition open_interactive (command : bytes) (term : option bytes) (size : option WindowSize)
    (rx : bytes) : prog Ses (Error IoE) (ChannelId * Shell) :=
  s_require_feature Feature.ShellV2 ≫= λ _,
  dest ← lift (map_err Error.Protocol (shell_destination (ShellMode.Pty term) command));
  ch ← s_open_channel dest;
  match shell_new rx with
  | None => panic
  | Some sh => (λ s,
      match size with
      | None => (Ret (ch, sh), s)
      | Some size =>
          match set_window_size ch size (sh, s) with
          | (Ret _, (sh', s')) => (Ret (ch, sh'), s')
          | (Fail e, (_, s')) => (catch (s_close_channel ch) ≫= λ _, fail e) s'
          | (Dropped, (_, s')) => (Dropped, s')
          | (Panicked, (_, s')) => (Panicked, s')
          | (NoFuel, (_, s')) => (NoFuel, s')
          end
      end) : prog Ses (Error IoE) (ChannelId * Shell)
  end.

(** [exec]. *)
Definition exec (frames fuel : nat) (command rx : bytes) : prog Ses (Error IoE) CommandOutput :=
  ch ← shell_open command;
  with_shell rx (run_to_exit frames fuel ch).

(** [write_argv_destination] and [open_argv]. *)
Definition write_argv_destination (prefix : bytes) (args : list bytes) : dprog Z :=
  write_destination [bs "shell,v2,raw:"; prefix] args.

Definition open_argv (prefix : bytes) (args : list bytes) (buf : bytes) :
    prog Ses (Error IoE) ChannelId :=
  s_require_feature Feature.ShellV2 ≫= λ _,
  match write_argv_destination prefix args buf with
  | (Ret n, buf') => s_open_channel (ztake n buf')
  | (Fail e, _) => fail (destination_error e)
  | _ => panic
  end.
End Shell.
