(* ===== verification/ShellFrames.v ===== *)
(** * Shell output, byte by byte

    [events] reads a shell_v2 byte stream one byte at a time and tags every
    payload byte with the id of its frame: the specification of the protocol's
    device side, with no buffers and no pieces.  The decoder is related to it
    by what is unread and how much of a large frame remains; [collect] returns
    exactly the bytes it tags as stdout and stderr before the exit code. *)

From S2P Require Import Prelude Errors Protocol Text ChannelTable Connection.
From S2P Require Import Config Slot Wire Demux.
From S2P Require Import Destination Session RecvBuf ShellV2.

Inductive scanner : Type := Head (h : bytes) | Body (id : byte) (rem : Z).

Definition after_header (h : bytes) : scanner :=
  match h with
  | id :: rest => let l := le_val rest in if l =? 0 then Head [] else Body id l
  | [] => Head []
  end.

Fixpoint events (st : scanner) (s : bytes) : list (byte * byte) :=
  match s with
  | [] => []
  | b :: s =>
      match st with
      | Head h => let h := h ++ [b] in events (if len h =? 5 then after_header h else Head h) s
      | Body id rem => (id, b) :: events (if rem <=? 1 then Head [] else Body id (rem - 1)) s
      end
  end.

(** A payload tagged with its id. *)
Definition tag (id : byte) (p : bytes) : list (byte * byte) := (λ b, (id, b)) <$> p.

Lemma events_body id rem p x :
  len p <= rem →
  events (Body id rem) (p ++ x)
  = tag id p ++ match p with [] => events (Body id rem) x
                | _ => events (if len p <? rem then Body id (rem - len p) else Head []) x end.
Proof.
  revert rem. induction p as [|b p IH]; intros rem Hl; [done|]. rewrite len_cons in *.
  pose proof (len_nonneg p). simpl. f_equal. destruct (Z.leb_spec rem 1) as [Hr|Hr].
  - assert (p = []) as -> by (apply len_0_nil; lia). simpl.
    rewrite (@len_nil byte). by destruct (Z.ltb_spec (0 + 1) rem); [lia|].
  - rewrite IH by lia. f_equal. destruct p as [|b' p].
    + rewrite (@len_nil byte). by destruct (Z.ltb_spec (0 + 1) rem); [|lia].
    + replace (len (b' :: p) <? rem - 1) with (len (b' :: p) + 1 <? rem).
      * by replace (rem - 1 - len (b' :: p)) with (rem - (len (b' :: p) + 1)) by lia.
      * apply eq_bool_prop_intro. rewrite !Is_true_true, !Z.ltb_lt. lia.
Qed.

Lemma events_header hdr x :
  len hdr = 5 → events (Head []) (hdr ++ x) = events (after_header hdr) x.
Proof.
  intros Hl. destruct hdr as [|b0 [|b1 [|b2 [|b3 [|b4 [|b5 hdr]]]]]]; try (unfold len in Hl; simpl in Hl; lia).
  done.
Qed.

Lemma byte_of_try_from b : byte_of (frame_id_try_from b) = b.
Proof. by destruct b; vm_compute. Qed.

Lemma byte_of_try_from' b :
  frame_id_try_from (byte_of (frame_id_try_from b)) = frame_id_try_from b.
Proof. by rewrite byte_of_try_from. Qed.

(** ** The decoder *)

Record dec_wf (rx : bytes) (d : FrameDecoder) : Prop := {
  dw_head : 0 <= d_head d <= d_tail d;
  dw_tail : d_tail d <= len rx;
  dw_large : 0 <= large_remaining d;
  dw_id : frame_id_try_from (byte_of (large_id d)) = large_id d;
}.

Definition d_unread (rx : bytes) (d : FrameDecoder) : bytes := zslice (d_head d) (d_tail d) rx.

(** Where in a frame the decoder stands. *)
Definition scanner_of (d : FrameDecoder) : scanner :=
  if 0 <? large_remaining d then Body (byte_of (large_id d)) (large_remaining d) else Head [].

Lemma len_d_unread rx d : dec_wf rx d → len (d_unread rx d) = d_tail d - d_head d.
Proof. intros [? ? ? ?]. by apply len_zslice. Qed.

Lemma reset_same rx d :
  dec_wf rx d → dec_wf rx (reset_if_drained d) ∧
  d_unread rx (reset_if_drained d) = d_unread rx d ∧
  scanner_of (reset_if_drained d) = scanner_of d.
Proof.
  intros [Hh Ht Hl Hid]. unfold reset_if_drained. destruct (Z.eqb_spec (d_head d) (d_tail d)) as [He|];
    [|by split].
  pose proof (len_nonneg rx). split; [by split; simpl; (done || lia)|]. split; [|done].
  unfold d_unread, zslice. simpl. by rewrite He, Z.sub_diag, !ztake_nonpos by lia.
Qed.

(** Splitting what is unread. *)
Lemma d_unread_split rx d n :
  dec_wf rx d → 0 <= n <= d_tail d - d_head d →
  d_unread rx d = zslice (d_head d) (d_head d + n) rx ++
    zslice (d_head d + n) (d_tail d) rx.
Proof.
  intros [Hh Ht Hl _] Hn. unfold d_unread, zslice.
  rewrite <- (ztake_zdrop n (ztake (d_tail d - d_head d) (zdrop (d_head d) rx))).
  rewrite ztake_ztake. f_equal; [f_equal; lia|].
  rewrite !ztake_take, !zdrop_drop, skipn_firstn_comm, drop_drop. f_equal; [lia|]. f_equal. lia.
Qed.

Lemma wp_slice i j rx Q d :
  0 <= i <= j → j <= len rx → Q (Ret (zslice i j rx)) d → wp (slice i j rx) Q d.
Proof.
  intros. unfold slice. destruct (Z.leb_spec 0 i), (Z.leb_spec i j), (Z.leb_spec j (len rx)); try lia.
  done.
Qed.

(** What a step of the decoder may do to the stream behind it. *)
Definition delivers (rx : bytes) (d : FrameDecoder) (out : list (byte * byte)) (d' : FrameDecoder) :
    Prop :=
  ∀ x, events (scanner_of d) (d_unread rx d ++ x)
       = out ++ events (scanner_of d') (d_unread rx d' ++ x).

Lemma consume_large_spec rx available d :
  dec_wf rx d → 0 < large_remaining d → 0 < available → available = d_tail d - d_head d →
  wp (consume_large_ref rx available) (λ o d', dec_wf rx d' ∧ match o with
    | Ret (id, p) => id = large_id d ∧ delivers rx d (tag (byte_of id) p) d' ∧
        len (d_unread rx d') < len (d_unread rx d)
    | _ => False
    end) d.
Proof.
  intros Hwf Hr Ha He. unfold consume_large_ref. apply wp_bind. unfold wp at 1. simpl.
  set (take := Z.min available (large_remaining d)). assert (0 < take) by lia.
  set (d1 := mkDecoder (d_head d + take) (d_tail d) (large_id d) (large_remaining d - take)).
  assert (dec_wf rx d1) as Hwf1 by (destruct Hwf; split; simpl; (done || lia)).
  destruct (reset_same rx d1 Hwf1) as (Hwf2 & Hu & Hs).
  apply wp_bind, wp_modify. fold d1. apply wp_bind. pose proof Hwf as [Hh Ht Hl Hid].
  apply wp_slice; [lia|lia|]. apply wp_ret. split; [done|]. split; [done|]. split.
  - intros x. rewrite Hu, Hs. unfold scanner_of at 1. destruct (Z.ltb_spec 0 (large_remaining d)); [|lia].
    rewrite (d_unread_split rx d take) by (done || lia). rewrite <- app_assoc.
    assert (len (zslice (d_head d) (d_head d + take) rx) = take) as Hlen
      by (rewrite len_zslice; lia).
    rewrite events_body by lia. f_equal. rewrite Hlen.
    destruct (zslice (d_head d) (d_head d + take) rx) eqn:Hz; [by rewrite (@len_nil byte) in Hlen; lia|].
    unfold scanner_of, d1, d_unread. simpl.
    destruct (Z.ltb_spec take (large_remaining d)), (Z.ltb_spec 0 (large_remaining d - take));
      (done || lia).
  - rewrite Hu, !len_d_unread by done. simpl. lia.
Qed.

(** The header at the front of what is unread. *)
Lemma header_at rx d :
  dec_wf rx d → HEADER_SIZE <= d_tail d - d_head d →
  ∃ b l, parse_header (zslice (d_head d) (d_head d + HEADER_SIZE) rx) = (frame_id_try_from b, l) ∧
    is_u32 l ∧
    ∀ x, events (Head []) (d_unread rx d ++ x)
         = events (if l =? 0 then Head [] else Body b l)
             (zslice (d_head d + HEADER_SIZE) (d_tail d) rx ++ x).
Proof.
  intros Hwf Hl. pose proof Hwf as [Hh Ht _ Hid]. unfold HEADER_SIZE in *.
  set (hdr := zslice (d_head d) (d_head d + 5) rx).
  assert (len hdr = 5) as Hlen by (unfold hdr; rewrite len_zslice; lia).
  destruct hdr as [|b rest] eqn:Hhdr; [done|]. rewrite len_cons in Hlen.
  exists b, (le_val rest). unfold parse_header. rewrite ztake_all by lia. split; [done|].
  split; [apply le_val_is_u32; lia|]. intros x.
  rewrite (d_unread_split rx d 5) by (done || lia). rewrite <- app_assoc. fold hdr. rewrite Hhdr.
  rewrite events_header by (rewrite len_cons; lia). done.
Qed.

Definition nexted (rx : bytes) (d : FrameDecoder)
    (o : outcome ProtocolError (option raw_frame)) (d' : FrameDecoder) : Prop :=
  dec_wf rx d' ∧
  match o with
  | Ret (Some (id, p)) => frame_id_try_from (byte_of id) = id ∧
      delivers rx d (tag (byte_of id) p) d' ∧ len (d_unread rx d') < len (d_unread rx d)
  | Ret None => delivers rx d [] d' ∧ len (d_unread rx d') < len rx ∧
      len (d_unread rx d') <= len (d_unread rx d)
  | _ => False
  end.

Lemma try_next_large rx d :
  dec_wf rx d → HEADER_SIZE <= len rx → 0 < large_remaining d →
  wp (try_next_raw_ref rx) (nexted rx d) d.
Proof.
  intros Hwf Hrx Hr. unfold try_next_raw_ref. apply wp_bind. unfold wp at 1. simpl.
  destruct (Z.ltb_spec 0 (large_remaining d)); [|lia]. pose proof Hwf as [Hh Ht _ Hid].
  pose proof (len_d_unread _ _ Hwf) as Hl. unfold HEADER_SIZE in Hrx.
  destruct (Z.eqb_spec (d_tail d - d_head d) 0) as [He|He].
  - apply wp_ret. split; [done|]. split; [by intros x|]. lia.
  - apply wp_bind. eapply wp_mono; [apply consume_large_spec; (done || lia)|].
    intros [[id p]|e| | |] d' [Hwf' Ho]; try done. destruct Ho as (-> & Hd & Hlt). by split.
Qed.

Lemma try_next_header rx d :
  dec_wf rx d → HEADER_SIZE <= len rx → large_remaining d = 0 →
  wp (try_next_raw_ref rx) (nexted rx d) d.
Proof.
  intros Hwf Hrx Hr. unfold try_next_raw_ref. apply wp_bind. unfold wp at 1. simpl.
  assert (scanner_of d = Head []) as Hsc by (unfold scanner_of; by rewrite Hr).
  rewrite Hr. simpl. pose proof Hwf as [Hh Ht _ Hid]. pose proof (len_d_unread _ _ Hwf) as Hl.
  assert (HEADER_SIZE = 5) as H5 by done.
  destruct (Z.ltb_spec (d_tail d - d_head d) HEADER_SIZE) as [Hs|Hs].
  { apply wp_ret. split; [done|]. split; [by intros x|]. lia. }
  apply wp_bind, wp_slice; [lia|lia|].
  destruct (header_at rx d Hwf Hs) as (b & l & -> & Hu32 & Hev). unfold is_u32 in Hu32.
  apply wp_bind, wp_lift. unfold usize_checked_add, USIZE_MAX.
  destruct (Z.leb_spec (HEADER_SIZE + l) (2 ^ 64 - 1)); [|lia]. simpl.
  destruct (Z.ltb_spec (len rx) (HEADER_SIZE + l)) as [Hbig|Hfit].
  - apply wp_bind, wp_modify.
    set (d1 := mkDecoder (d_head d + HEADER_SIZE) (d_tail d) (frame_id_try_from b) l).
    assert (dec_wf rx d1) as Hwf1
      by (split; simpl; rewrite ?byte_of_try_from; (done || lia)).
    assert (scanner_of d1 = Body b l) as Hsc1.
    { unfold scanner_of, d1. simpl. rewrite byte_of_try_from. by destruct (Z.ltb_spec 0 l); [|lia]. }
    assert (delivers rx d [] d1) as Hd1.
    { intros x. rewrite Hsc, Hsc1, Hev. by destruct (Z.eqb_spec l 0); [lia|]. }
    pose proof (len_d_unread _ _ Hwf1) as Hl1. simpl in Hl1.
    destruct (Z.eqb_spec (d_tail d - (d_head d + HEADER_SIZE)) 0) as [Hz|Hz].
    + apply wp_bind, wp_modify, wp_ret. destruct (reset_same rx d1 Hwf1) as (Hwf2 & Hu & Hs2).
      split; [done|]. unfold delivers in *. rewrite Hu, Hs2. split; [done|]. lia.
    + apply wp_bind. eapply wp_mono; [apply consume_large_spec; simpl; (done || lia)|].
      intros [[id p]|e| | |] d' [Hwf' Ho]; try done. destruct Ho as (-> & Hd & Hlt).
      apply wp_ret. split; [done|]. split; [apply byte_of_try_from'|].
      split; [|lia]. intros x. rewrite (Hd1 x). apply Hd.
  - destruct (Z.ltb_spec (d_tail d - d_head d) (HEADER_SIZE + l)) as [Hmore|Hall].
    { apply wp_ret. split; [done|]. split; [by intros x|]. lia. }
    apply wp_bind, wp_modify.
    set (d1 := mkDecoder (d_head d + HEADER_SIZE + l) (d_tail d) (large_id d) (large_remaining d)).
    assert (dec_wf rx d1) as Hwf1
      by (split; simpl; rewrite ?byte_of_try_from; (done || lia)).
    destruct (reset_same rx d1 Hwf1) as (Hwf2 & Hu & Hs2).
    apply wp_bind, wp_slice; [lia|lia|]. apply wp_ret. split; [done|].
    split; [apply byte_of_try_from'|]. split.
    2: { rewrite Hu, !len_d_unread by done. simpl. lia. }
    intros x. rewrite Hsc, Hev, Hu, Hs2.
    assert (scanner_of d1 = Head []) as -> by (unfold scanner_of, d1; simpl; by rewrite Hr).
    rewrite byte_of_try_from.
    pose proof (d_unread_split rx (mkDecoder (d_head d + HEADER_SIZE) (d_tail d) (frame_id_try_from b) 0) l)
      as Hsplit. unfold d_unread in Hsplit. simpl in Hsplit.
    rewrite Hsplit by (split; simpl; rewrite ?byte_of_try_from; (done || lia)). rewrite <- app_assoc.
    set (p := zslice (d_head d + HEADER_SIZE) (d_head d + HEADER_SIZE + l) rx).
    assert (len p = l) as Hp by (unfold p; rewrite len_zslice; lia).
    unfold d_unread, d1. simpl. destruct (Z.eqb_spec l 0) as [Hz|Hz].
    + assert (p = []) as -> by (apply len_0_nil; lia). done.
    + rewrite events_body by lia. f_equal. rewrite Hp, Z.ltb_irrefl. destruct p; [|done].
      rewrite (@len_nil byte) in Hp. lia.
Qed.

Lemma try_next_spec rx d :
  dec_wf rx d → HEADER_SIZE <= len rx → wp (try_next_raw_ref rx) (nexted rx d) d.
Proof.
  intros Hwf Hrx. pose proof (dw_large _ _ Hwf). destruct (Z.eq_dec (large_remaining d) 0).
  - by apply try_next_header.
  - apply try_next_large; (done || lia).
Qed.

(** The decoder delivers the stream.  On a well-formed decoder over a
    buffer that holds a header, [try_next_raw_ref] never panics and never
    fails; what it hands over is the next payload bytes of the stream, tagged
    with their frame's id, whether the frame fits the buffer or comes in
    pieces, and what follows is unchanged; when it asks for more, nothing was
    consumed but a header, and there is room for more once the buffer is
    compacted. *)
Theorem decoder_delivers rx d :
  dec_wf rx d → HEADER_SIZE <= len rx →
  let '(o, d') := try_next_raw_ref rx d in nexted rx d o d'.
Proof.
  intros Hwf Hrx. pose proof (try_next_spec rx d Hwf Hrx) as Hw.
  unfold wp in Hw. by destruct (try_next_raw_ref rx d).
Qed.

(** ** The shell *)

Definition sh_wf (sh : Shell) : Prop :=
  dec_wf (sh_rx sh) (sh_decoder sh) ∧ HEADER_SIZE <= len (sh_rx sh).

Definition sh_unread (sh : Shell) : bytes := d_unread (sh_rx sh) (sh_decoder sh).
Definition sh_scanner (sh : Shell) : scanner := scanner_of (sh_decoder sh).

(** The decoder's window is that of a receive buffer. *)
Definition as_recv_buf (sh : Shell) : RecvBuf :=
  mkRecvBuf (sh_rx sh) (d_head (sh_decoder sh)) (d_tail (sh_decoder sh)).

(** The shell after compaction. *)
Definition compacted (sh : Shell) : Shell :=
  let '(rx, d) := decoder_compact (sh_rx sh) (sh_decoder sh) in mkShell rx d.

Lemma compacted_same sh :
  sh_wf sh → sh_wf (compacted sh) ∧ sh_unread (compacted sh) = sh_unread sh ∧
  sh_scanner (compacted sh) = sh_scanner sh ∧ len (sh_rx (compacted sh)) = len (sh_rx sh) ∧
  d_head (sh_decoder (compacted sh)) = 0.
Proof.
  intros [[Hh Ht Hl Hid] Hrx].
  assert (rb_wf (as_recv_buf sh)) as Hwf by (split; simpl; lia).
  destruct (compact_unread _ Hwf) as ([Hwf1 Hwf2] & Hu & Hc & Hz).
  unfold compacted, decoder_compact, compact, sh_wf, sh_unread, d_unread, sh_scanner in *.
  unfold unread, capacity in *. simpl in *. destruct (0 <? d_head (sh_decoder sh)); simpl in *.
  - split; [split; [split; simpl; (done || lia)|lia]|]. auto.
  - split; [split; [split; (done || lia)|lia]|]. auto.
Qed.

Lemma fill_same b sh :
  sh_wf sh → len b <= len (sh_rx sh) - d_tail (sh_decoder sh) →
  sh_wf (shell_fill b sh) ∧ sh_unread (shell_fill b sh) = sh_unread sh ++ b ∧
  sh_scanner (shell_fill b sh) = sh_scanner sh ∧ len (sh_rx (shell_fill b sh)) = len (sh_rx sh).
Proof.
  intros [[Hh Ht Hl Hid] Hrx] Hb.
  assert (rb_wf (as_recv_buf sh)) as Hwf by (split; simpl; lia).
  destruct (commit_unread b _ Hwf Hb) as ([Hwf1 Hwf2] & Hu & Hc).
  unfold shell_fill, commit, sh_wf, sh_unread, d_unread, sh_scanner, unread, capacity in *.
  simpl in *. split; [split; [split; simpl; (done || lia)|lia]|]. auto.
Qed.

Section Laws.
Context {Ses IoE : Type} `{SessionLaws Ses IoE}.

(** What the shell has yet to deliver: the rest of its buffer, then what the
    channel has yet to hand over. *)
Definition pending (ch : ChannelId) (sh : Shell) (s : Ses) : list (byte * byte) :=
  events (sh_scanner sh) (sh_unread sh ++ inbox s ch).

(** A bound on the frames to come. *)
Definition frames_left (ch : ChannelId) (sh : Shell) (s : Ses) : nat :=
  (length (sh_unread sh) + S (length (sh_rx sh)) * reads_left s ch)%nat.

Lemma try_next_frame_spec (sh : Shell) (s : Ses) :
  sh_wf sh →
  wp (shell_try_next_frame (IoE := IoE)) (λ o p,
    let sh' := fst p in
    sh_wf sh' ∧ sh_rx sh' = sh_rx sh ∧ snd p = s ∧
    match o with
    | Ret (Some f) => ∃ id b, make_frame id b = Ok f ∧ frame_id_try_from (byte_of id) = id ∧
        (∀ x, events (sh_scanner sh) (sh_unread sh ++ x)
              = tag (byte_of id) b ++ events (sh_scanner sh') (sh_unread sh' ++ x)) ∧
        len (sh_unread sh') < len (sh_unread sh)
    | Ret None =>
        (∀ x, events (sh_scanner sh) (sh_unread sh ++ x)
              = events (sh_scanner sh') (sh_unread sh' ++ x)) ∧
        len (sh_unread sh') < len (sh_rx sh) ∧ len (sh_unread sh') <= len (sh_unread sh)
    | Fail e => e = Error.Protocol ProtocolError.ShortExitPayload
    | _ => False
    end) (sh, s).
Proof.
  intros [Hwf Hrx]. unfold shell_try_next_frame, on_decoder, wp, decoder_try_next_frame.
  pose proof (try_next_spec _ _ Hwf Hrx) as Hn. unfold mbind, prog_bind, wp in *. simpl.
  destruct (try_next_raw_ref (sh_rx sh) (sh_decoder sh)) as [o d']. simpl in Hn.
  destruct Hn as [Hwf' Ho]. destruct o as [[[id b]|]|e| | |]; try done; simpl.
  destruct Ho as (Hid & Hd & Hlt). unfold lift.
  destruct (make_frame id b) as [f|e] eqn:Hm; simpl.
  - split_and!; try done. exists id, b. split_and!; done.
  - split_and!; try done. f_equal. unfold make_frame in Hm. by repeat case_match; simplify_eq.
Qed.

(** How [read_frame] ends. *)
Definition frame_read (ch : ChannelId) (sh : Shell) (s : Ses) (o : outcome (Error IoE) Frame)
    (p : Shell * Ses) : Prop :=
  sh_wf (fst p) ∧ length (sh_rx (fst p)) = length (sh_rx sh) ∧
  match o with
  | Ret f => s_ok (snd p) ∧ ∃ id b, make_frame id b = Ok f ∧
      frame_id_try_from (byte_of id) = id ∧
      pending ch sh s = tag (byte_of id) b ++ pending ch (fst p) (snd p) ∧
      (frames_left ch (fst p) (snd p) < frames_left ch sh s)%nat ∧
      (reads_left (snd p) ch <= reads_left s ch)%nat
  | Fail e => e = Error.Protocol ProtocolError.ShortExitPayload ∨ read_failed (Ses := Ses) ch e
  | Dropped => True
  | Panicked | NoFuel => False
  end.

Lemma ensure_writable_spec (sh : Shell) (s : Ses) :
  sh_wf sh → len (sh_unread sh) < len (sh_rx sh) →
  wp (ensure_writable (IoE := IoE)) (λ o p, o = Ret tt ∧ snd p = s ∧ sh_wf (fst p) ∧
    sh_unread (fst p) = sh_unread sh ∧ sh_scanner (fst p) = sh_scanner sh ∧
    len (sh_rx (fst p)) = len (sh_rx sh) ∧
    d_tail (sh_decoder (fst p)) < len (sh_rx (fst p))) (sh, s).
Proof.
  intros Hwf Hlt. unfold ensure_writable. apply wp_bind. unfold wp at 1. simpl.
  destruct (Z.ltb_spec (d_tail (sh_decoder sh)) (len (sh_rx sh))); [by apply wp_ret|].
  destruct (compacted_same sh Hwf) as (Hwf' & Hu & Hs & Hl & Hh).
  unfold shell_compact. apply wp_bind, wp_modify. simpl.
  assert ((let '(rx, d) := decoder_compact (sh_rx sh) (sh_decoder sh) in (mkShell rx d, s))
    = (compacted sh, s)) as -> by (unfold compacted; by destruct (decoder_compact _ _)).
  apply wp_bind. unfold wp at 1. simpl.
  assert (d_tail (sh_decoder (compacted sh)) < len (sh_rx (compacted sh))) as Hroom.
  { pose proof (len_d_unread _ _ (proj1 Hwf')) as He. fold (sh_unread (compacted sh)) in He.
    rewrite Hu, Hh in He. lia. }
  destruct (Z.eqb_spec (d_tail (sh_decoder (compacted sh))) (len (sh_rx (compacted sh)))); [lia|].
  by apply wp_ret.
Qed.

(** A frame that needs another read. *)
Lemma frame_read_after ch sh s sh1 s1 b o p :
  (∀ x, events (sh_scanner sh) (sh_unread sh ++ x)
        = events (sh_scanner sh1) (sh_unread sh1 ++ x)) →
  len (sh_unread sh1) <= len (sh_unread sh) → len (sh_rx sh1) = len (sh_rx sh) →
  sh_wf sh1 → len b <= len (sh_rx sh1) - d_tail (sh_decoder sh1) →
  inbox s ch = b ++ inbox s1 ch → (reads_left s1 ch < reads_left s ch)%nat →
  frame_read ch (shell_fill b sh1) s1 o p → frame_read ch sh s o p.
Proof.
  intros Hev Hun Hrx Hwf Hb Hin Hleft (Hwf' & Hl & Ho).
  destruct (fill_same b sh1 Hwf Hb) as (_ & Hu2 & Hs2 & Hl2).
  assert (pending ch sh s = pending ch (shell_fill b sh1) s1) as Hp.
  { unfold pending. by rewrite Hev, Hs2, Hu2, Hin, <- app_assoc. }
  assert (frames_left ch (shell_fill b sh1) s1 < frames_left ch sh s)%nat as Hfl.
  { unfold frames_left. rewrite Hu2, length_app. unfold len in *.
    assert (0 <= d_tail (sh_decoder sh1)) by (destruct Hwf as [[]]; lia).
    replace (length (sh_rx (shell_fill b sh1))) with (length (sh_rx sh)) by lia. nia. }
  unfold len in *. split; [done|]. split; [lia|]. destruct o; try done.
  destruct Ho as (Hok & id & b' & Hm & Hid & Hpe & Hf & Hr). split; [done|].
  exists id, b'. rewrite Hp. split_and!; (done || lia).
Qed.

Lemma read_frame_spec fuel ch sh s :
  sh_wf sh → s_ok s → (reads_left s ch < fuel)%nat →
  wp (read_frame fuel ch) (frame_read ch sh s) (sh, s).
Proof.
  revert sh s. induction fuel as [|fuel IH]; intros sh s Hwf Hok Hf; [lia|]. simpl.
  apply wp_bind. eapply wp_mono; [by apply try_next_frame_spec|].
  intros o [sh1 s1] (Hwf1 & Hrx1 & Hs1 & Ho). simpl in *. subst s1.
  destruct o as [[f|]|e| | |]; try done.
  - apply wp_ret. destruct Ho as (id & b & Hm & Hid & Hev & Hlt).
    split; [done|]. split; [simpl; by rewrite Hrx1|]. split; [done|]. exists id, b.
    split_and!; try done; [apply Hev|]. unfold frames_left, len in *. simpl. rewrite Hrx1. lia.
  - destruct Ho as (Hev & Hroom & Hle).
    apply wp_bind. eapply wp_mono; [apply ensure_writable_spec; [done|by rewrite Hrx1]|].
    intros o [sh2 s2] (-> & Hs2 & Hwf2 & Hu2 & Hsc2 & Hl2 & Ht2). simpl in *. subst s2.
    apply wp_bind, wp_gets, wp_bind, wp_on_session. simpl.
    set (want := len (sh_rx sh2) - d_tail (sh_decoder sh2)).
    pose proof (s_read_spec ch want s Hok ltac:(lia)) as Hr. apply proj2 in Hr. unfold wp in Hr.
    destruct (s_read_channel ch want s) as [o s3] eqn:Hread. simpl in Hr. unfold wp at 1. rewrite Hread.
    simpl. destruct o as [b|e| | |]; try done.
    + destruct Hr as (Hok3 & Hlen & Hin & Hleft & _). apply wp_bind, wp_modify. simpl.
      destruct (fill_same b sh2 Hwf2 Hlen) as (Hwf3 & _).
      eapply wp_mono; [apply IH; (done || lia)|]. intros o p.
      apply frame_read_after; try done; [intros x; by rewrite Hev, Hsc2, Hu2|by rewrite Hu2|congruence].
    + split; [done|]. split; [unfold len in *; simpl; rewrite Hrx1 in *; lia|].
      right. exists want, s. by rewrite Hread.
    + split; [done|]. split; [unfold len in *; simpl; rewrite Hrx1 in *; lia|]. done.
  - split; [done|]. split; [simpl; by rewrite Hrx1|]. by left.
Qed.

(** The bytes tagged with [id]. *)
Definition untag (id : byte) (es : list (byte * byte)) : bytes :=
  snd <$> filter (λ e, fst e = id) es.

Lemma untag_app id es es' : untag id (es ++ es') = untag id es ++ untag id es'.
Proof. unfold untag. by rewrite filter_app, fmap_app. Qed.

Lemma untag_tag id b p : untag id (tag b p) = if decide (b = id) then p else [].
Proof.
  unfold untag, tag. destruct (decide (b = id)) as [->|Hne]; induction p as [|x p IH]; try done.
  - rewrite fmap_cons, filter_cons_True by done. rewrite fmap_cons. by f_equal.
  - by rewrite fmap_cons, filter_cons_False.
Qed.

(** A run that ended in exit code [code] with these outputs. *)
Definition exited (es : list (byte * byte)) (stdout stderr : bytes) (code : Z) : Prop :=
  ∃ pre c rest, es = pre ++ (x03, c) :: rest ∧ Forall (λ e, fst e ≠ x03) pre ∧
    stdout = untag x01 pre ∧ stderr = untag x02 pre ∧ code = u8 c.

Lemma exited_after b p es stdout stderr code :
  b ≠ x03 → exited es stdout stderr code →
  exited (tag b p ++ es) ((if decide (b = x01) then p else []) ++ stdout)
    ((if decide (b = x02) then p else []) ++ stderr) code.
Proof.
  intros Hne (pre & c & rest & -> & Hpre & -> & -> & ->). exists (tag b p ++ pre), c, rest.
  rewrite !untag_app, !untag_tag, app_assoc. split; [done|]. split; [|done].
  apply Forall_app. split; [|done]. unfold tag. rewrite Forall_fmap. apply Forall_forall.
  by intros x _.
Qed.

(** How [collect] ends, with [out] collected so far. *)
Definition collected (ch : ChannelId) (sh : Shell) (s : Ses) (out : CommandOutput)
    (o : outcome (Error IoE) CommandOutput) : Prop :=
  match o with
  | Ret r => ∃ stdout stderr, o_stdout r = o_stdout out ++ stdout ∧
      o_stderr r = o_stderr out ++ stderr ∧ exited (pending ch sh s) stdout stderr (o_exit_code r)
  | Fail e => e = Error.Protocol ProtocolError.ShortExitPayload ∨ read_failed (Ses := Ses) ch e
  | Dropped => True
  | Panicked | NoFuel => False
  end.

Lemma collected_after ch sh s out sh1 s1 out1 b p o :
  b ≠ x03 → pending ch sh s = tag b p ++ pending ch sh1 s1 →
  o_stdout out1 = o_stdout out ++ (if decide (b = x01) then p else []) →
  o_stderr out1 = o_stderr out ++ (if decide (b = x02) then p else []) →
  collected ch sh1 s1 out1 o → collected ch sh s out o.
Proof.
  intros Hne Hp Ho He. destruct o as [r| | | |]; try done. simpl.
  intros (stdout & stderr & Hr & Hr' & Hx). rewrite Ho, <- app_assoc in Hr.
  rewrite He, <- app_assoc in Hr'. do 2 eexists. split; [exact Hr|]. split; [exact Hr'|].
  rewrite Hp. by apply exited_after.
Qed.

Lemma collect_loop_spec frames fuel ch out sh s :
  sh_wf sh → s_ok s → (frames_left ch sh s < frames)%nat → (reads_left s ch < fuel)%nat →
  wp (collect_loop frames fuel ch out) (λ o _, collected ch sh s out o) (sh, s).
Proof.
  revert out sh s. induction frames as [|frames IH]; intros out sh s Hwf Hok Hn Hf; [lia|]. simpl.
  apply wp_bind. eapply wp_mono; [by apply read_frame_spec|].
  intros o [sh1 s1] (Hwf1 & _ & Ho). destruct o as [f|e| | |]; try done.
  destruct Ho as (Hok1 & id & b & Hm & Hid & Hp & Hlt & Hr). simpl in *.
  assert (∀ out1, byte_of id ≠ x03 →
    o_stdout out1 = o_stdout out ++ (if decide (byte_of id = x01) then b else []) →
    o_stderr out1 = o_stderr out ++ (if decide (byte_of id = x02) then b else []) →
    wp (collect_loop frames fuel ch out1) (λ o _, collected ch sh s out o) (sh1, s1)) as Hgo.
  { intros out1 H3 Ho1 He1. eapply wp_mono; [apply IH; (done || lia)|].
    intros o p. by eapply collected_after. }
  destruct id as [[]|x]; simpl in Hm;
    try (simplify_eq; apply Hgo; simpl; rewrite ?app_nil_r; done).
  - destruct b as [|c b]; [done|]. simplify_eq. apply wp_ret.
    exists [], []. rewrite !app_nil_r. split; [done|]. split; [done|].
    exists [], c, (tag x03 b ++ pending ch sh1 s1). by rewrite Hp.
  - simplify_eq. simpl in Hid. apply Hgo; simpl.
    + intros ->. done.
    + rewrite decide_False, app_nil_r; [done|]. intros ->. done.
    + rewrite decide_False, app_nil_r; [done|]. intros ->. done.
Qed.

(** C22: [collect] returns what the command printed.  On a session that keeps
    its laws, with fuel for the reads and frames to come, [Shell::collect] ends
    without a panic.  What it returns is exact: the payload bytes of the
    device's stream up to the first exit code, those of stdout frames and those
    of stderr frames each in order and complete, whatever the reads, however
    small the receive buffer, and with unknown frames skipped, and that exit
    code.  It fails only for an exit frame without a code or with an error of
    the channel, and closes the channel on every way out but a drop. *)
Theorem collect_exact frames fuel ch sh s :
  sh_wf sh → s_ok s → (frames_left ch sh s < frames)%nat → (reads_left s ch < fuel)%nat →
  let '(o, p) := collect frames fuel ch (sh, s) in
  (o = Dropped ∨ ∃ s1, snd p = snd (s_close_channel ch s1)) ∧
  match o with
  | Ret r => exited (pending ch sh s) (o_stdout r) (o_stderr r) (o_exit_code r)
  | Fail e => e = Error.Protocol ProtocolError.ShortExitPayload ∨ read_failed (Ses := Ses) ch e
  | Dropped => True
  | Panicked | NoFuel => False
  end.
Proof.
  intros Hwf Hok Hn Hf.
  pose proof (then_close_spec ch _ _ _
    (collect_loop_spec frames fuel ch (mkOutput [] [] 0) sh s Hwf Hok Hn Hf)) as Hs.
  unfold collect. destruct (then_close ch (collect_loop frames fuel ch _) (sh, s)) as [o p].
  destruct Hs as [->|([sh1 s1] & Ho & ->)]; [by intros p'; split; intros []|by split; [left|]|].
  split; [right; by exists s1|]. destruct o; try done.
  by destruct Ho as (stdout & stderr & -> & -> & Hx).
Qed.

(** ** Sending *)

(** Both writes of [send_frame], or the one. *)
Definition frame_bytes (id : FrameId) (payload : bytes) : bytes :=
  frame_id_byte id :: u32_le (len payload) ++ payload.

Lemma unread_splice rx d off src :
  dec_wf rx d → d_tail d <= off → off + len src <= len rx →
  dec_wf (zsplice off src rx) d ∧ d_unread (zsplice off src rx) d = d_unread rx d ∧
  len (zsplice off src rx) = len rx.
Proof.
  intros [Hh Ht Hl Hid] Hoff Hlen. pose proof (len_nonneg src).
  assert (len (zsplice off src rx) = len rx) as Hz by (apply len_zsplice; lia).
  split; [split; (done || lia)|]. split; [|done]. unfold d_unread, zslice, zsplice.
  rewrite zdrop_app_le by (rewrite len_ztake; lia).
  assert (zdrop (d_head d) (ztake off rx) = ztake (off - d_head d) (zdrop (d_head d) rx)) as ->.
  { rewrite !ztake_take, !zdrop_drop, skipn_firstn_comm. f_equal. lia. }
  rewrite ztake_app_le by (rewrite len_ztake, len_zdrop; lia). rewrite ztake_ztake. f_equal. lia.
Qed.

(** sending does not disturb receiving.  [send_frame] puts a frame
    together in the unused part of the receive buffer, or writes header and
    payload apart: either way what the channel is asked to write is the frame's
    encoding, in one write or in two, and the bytes received and not yet decoded, the decoder's place
    in its frame and the size of the buffer are what they were.  A payload over
    [u32::MAX] is refused with nothing touched. *)
Theorem send_frame_keeps_input ch id payload sh s :
  sh_wf sh →
  if U32_MAX <? len payload then
    shell_send_frame ch id payload (sh, s)
    = (Fail (Error.Protocol ProtocolError.PayloadTooLarge), (sh, s))
  else
    ∃ sh', sh_wf sh' ∧ sh_unread sh' = sh_unread sh ∧ sh_scanner sh' = sh_scanner sh ∧
      len (sh_rx sh') = len (sh_rx sh) ∧
      (shell_send_frame ch id payload (sh, s)
         = on_session (s_write_channel ch (frame_bytes id payload)) (sh', s) ∨
       shell_send_frame ch id payload (sh, s)
         = (on_session (s_write_channel ch (frame_id_byte id :: u32_le (len payload))) ≫= λ _,
            if bool_decide (payload = []) then mret tt
            else on_session (s_write_channel ch payload)) (sh', s)).
Proof.
  intros Hwf. unfold shell_send_frame. destruct (Z.ltb_spec U32_MAX (len payload)); [done|].
  destruct (compacted_same sh Hwf) as (Hwf' & Hu & Hs & Hl & Hh).
  unfold shell_compact, mbind, prog_bind, modify, get, gets. simpl.
  assert ((let '(rx, d) := decoder_compact (sh_rx sh) (sh_decoder sh) in (mkShell rx d, s))
    = (compacted sh, s)) as -> by (unfold compacted; by destruct (decoder_compact _ _)).
  simpl. set (c := compacted sh) in *. set (start := d_tail (sh_decoder c)).
  set (hdr := frame_id_byte id :: u32_le (len payload)).
  assert (len hdr = 5) as Hhdr by (unfold hdr; by rewrite len_cons, len_u32_le).
  pose proof (len_nonneg payload). unfold HEADER_SIZE in *.
  destruct (Z.leb_spec (5 + len payload) (len (sh_rx c) - start)) as [Hfit|Hbig].
  - pose proof Hwf' as [Hdw Hrx]. pose proof Hdw as [Hdh Hdt _ _].
    assert (start = d_tail (sh_decoder c)) as Hst by done. cbn [fst snd].
    assert (zsplice (start + 5) payload (zsplice start hdr (sh_rx c))
      = zsplice start (frame_bytes id payload) (sh_rx c)) as ->.
    { rewrite <- Hhdr. rewrite zsplice_zsplice by lia. done. }
    assert (len (frame_bytes id payload) = 5 + len payload) as Hfl
      by (unfold frame_bytes; rewrite len_cons, len_app, len_u32_le; lia).
    destruct (unread_splice (sh_rx c) (sh_decoder c) start (frame_bytes id payload))
      as (Hw & Hur & Hlr); [done|lia|lia|].
    exists (mkShell (zsplice start (frame_bytes id payload) (sh_rx c)) (sh_decoder c)).
    split; [split; simpl; [done|lia]|]. split; [by rewrite <- Hu|]. split; [done|].
    split; [simpl; lia|]. left. f_equal. f_equal.
    unfold zslice, zsplice. rewrite zdrop_app_len by (rewrite len_ztake; lia).
    apply ztake_app_len. lia.
  - exists c. split_and!; try done. by right.
Qed.
End Laws.

(** ** Destinations and window sizes *)

(** What a mode asks of the device, as options. *)
Definition mode_options (mode : ShellMode) : list bytes :=
  match mode with
  | ShellMode.Raw => [bs "raw"]
  | ShellMode.Pty None | ShellMode.Pty (Some []) => [bs "pty"]
  | ShellMode.Pty (Some term) => [bs "pty"; bs "TERM=" ++ term]
  end.

(** A terminal name that would rewrite the request. *)
Definition bad_term (mode : ShellMode) : Prop :=
  ∃ b term, mode = ShellMode.Pty (Some (b :: term)) ∧
    (","%byte ∈ b :: term ∨ ":"%byte ∈ b :: term ∨ NUL ∈ b :: term).

Lemma read_options opts command :
  opts ≠ [] → Forall (λ o, ","%byte ∉ o ∧ ":"%byte ∉ o) opts →
  ∃ text, split_once ":"%byte (join ","%byte opts ++ ":"%byte :: command) = Some (text, command) ∧
    split (eqb ","%byte) text = opts.
Proof.
  intros Hne Hf. exists (join ","%byte opts). split.
  - apply split_once_some. split; [done|]. clear Hne. induction Hf as [|o opts [_ Ho] Hf IH]; simpl.
    + apply not_elem_of_nil.
    + destruct opts; [done|]. rewrite elem_of_app, elem_of_cons. naive_solver.
  - apply split_join; [done|done|]. eapply Forall_impl; [exact Hf|]. intros o [Ho _].
    apply Forall_forall. intros x Hx. apply eqb_false. congruence.
Qed.

Lemma pty_text term command :
  bs "shell,v2,pty,TERM=" ++ term ++ bs ":" ++ command ++ [NUL]
  = join ","%byte [bs "shell"; bs "v2"; bs "pty"; bs "TERM=" ++ term]
    ++ ":"%byte :: command ++ [NUL].
Proof. cbn [join]. rewrite <- !app_assoc. reflexivity. Qed.

Ltac no_byte := apply contains_false; vm_compute; reflexivity.

(** a shell destination says what was asked for.  [destination] refuses a
    command that holds a NUL, and a terminal name that holds a comma, a colon
    or a NUL, and nothing else.  What it builds is read back by adbd's rule
    (options up to the first colon, split at commas, then the command and a
    NUL) as exactly the mode, the terminal name and the command. *)
Theorem shell_destination_reads mode command :
  match shell_destination mode command with
  | Ok dest => NUL ∉ command ∧ ¬ bad_term mode ∧
      ∃ text, split_once ":"%byte dest = Some (text, command ++ [NUL]) ∧
        split (eqb ","%byte) text = bs "shell" :: bs "v2" :: mode_options mode
  | Err e => e = ProtocolError.InvalidDestination ∧ (NUL ∈ command ∨ bad_term mode)
  end.
Proof.
  unfold shell_destination. destruct (has_nul command) eqn:Hn.
  { split; [done|]. left. by apply contains_true. }
  apply contains_false in Hn.
  destruct mode as [|[[|b term]|]].
  - split; [done|]. split; [by intros (? & ? & ? & _)|].
    apply (read_options [bs "shell"; bs "v2"; bs "raw"] (command ++ [NUL])); [done|].
    repeat constructor; no_byte.
  - split; [done|]. split; [by intros (? & ? & ? & _)|].
    apply (read_options [bs "shell"; bs "v2"; bs "pty"] (command ++ [NUL])); [done|].
    repeat constructor; no_byte.
  - set (t := b :: term). destruct (contains ","%byte t || contains ":"%byte t || contains NUL t) eqn:Hb.
    { split; [done|]. right. exists b, term. split; [done|]. fold t.
      rewrite <- !contains_true. destruct (contains ","%byte t); [by left|].
      destruct (contains ":"%byte t); [by right; left|]. by right; right. }
    apply orb_false_iff in Hb as [Hb H3]. apply orb_false_iff in Hb as [H1 H2].
    apply contains_false in H1, H2, H3. split; [done|].
    split. { intros (b' & term' & [= <- <-] & Hbad). fold t in Hbad. naive_solver. }
    change (mode_options _) with [bs "pty"; bs "TERM=" ++ t]. clearbody t. rewrite pty_text.
    apply (read_options [bs "shell"; bs "v2"; bs "pty"; bs "TERM=" ++ t]); [discriminate|].
    assert (∀ c, c ∉ bs "TERM=" → c ∉ t → c ∉ bs "TERM=" ++ t) as Happ
      by (intros c ?? [?|?]%elem_of_app; done).
    repeat (apply Forall_cons; split); [..|apply Forall_nil, I];
      (split; [first [no_byte|apply Happ; [no_byte|assumption]]|..]);
      first [no_byte|apply Happ; [no_byte|assumption]].
  - split; [done|]. split; [by intros (? & ? & ? & _)|].
    apply (read_options [bs "shell"; bs "v2"; bs "pty"] (command ++ [NUL])); [done|].
    repeat constructor; no_byte.
Qed.

Lemma decimal_val_nonneg ds : Forall (λ d, is_digit d) ds → 0 <= decimal_val ds.
Proof.
  induction 1 as [|d ds Hd _ IH]; [done|]. rewrite decimal_val_cons.
  unfold is_digit, in_range in Hd. apply Is_true_true, andb_prop in Hd as [Hd _].
  assert (0 <= 10 ^ len ds) by (apply Z.pow_nonneg; lia). nia.
Qed.

(** A numeral with no leading zero is no longer than its value asks. *)
Lemma numeral_short k ds :
  1 <= k → Forall (λ d, is_digit d) ds → (ds = bs "0" ∨ ∃ d ds', ds = d :: ds' ∧ d ≠ b8 48) →
  decimal_val ds < 10 ^ k → len ds <= k.
Proof.
  intros Hk Hf [->|(d & ds' & -> & Hd)] Hv; [done|].
  apply Forall_cons in Hf as [Hdig Hf]. rewrite decimal_val_cons in Hv. rewrite len_cons.
  pose proof (decimal_val_nonneg ds' Hf) as Hnn.
  unfold is_digit, in_range in Hdig. apply Is_true_true, andb_prop in Hdig as [Hlo _].
  assert (u8 d ≠ 48) as Hne.
  { intros He. apply Hd. apply (f_equal b8) in He. by rewrite b8_u8 in He. }
  apply Z.leb_le in Hlo. destruct (Z.le_gt_cases (len ds' + 1) k) as [|Hgt]; [done|exfalso].
  assert (10 ^ k <= 10 ^ len ds') by (apply Z.pow_le_mono_r; lia). nia.
Qed.

(** An encoding under way: the text written so far. *)
Definition encoding (e : EncodedWindowSize) (text : bytes) : Prop :=
  len (e_bytes e) = MAX_LEN ∧ e_len e = len text ∧ as_bytes e = text.

Lemma push_spec part e text :
  encoding e text → len text + len part <= MAX_LEN →
  ∃ e', push part e = Some e' ∧ encoding e' (text ++ part).
Proof.
  intros (Hb & Hl & Ht) Hfit. unfold push. rewrite Hb, Hl. pose proof (len_nonneg text).
  pose proof (len_nonneg part).
  destruct (Z.leb_spec (len text + len part) MAX_LEN) as [_|]; [|lia]. eexists. split; [done|].
  assert (ztake (len text) (e_bytes e) = text) as Hpre by (rewrite <- Hl; exact Ht).
  unfold encoding, as_bytes. cbn [e_bytes e_len]. split; [|split].
  - rewrite len_zsplice; [done|lia|lia].
  - by rewrite len_app.
  - unfold zsplice. rewrite Hpre, app_assoc. apply ztake_app_len. by rewrite len_app.
Qed.

Lemma numeral_u16 n :
  0 <= n < 2 ^ 16 →
  ∃ ds, format_u32 n (replicate 10 x00) = Some ds ∧ decimal_val ds = n ∧
    Forall (λ d, is_digit d) ds ∧ len ds <= 5.
Proof.
  intros Hn. destruct (format_u32_spec n (replicate 10 x00)) as (ds & Hf & Hv & Hd & Hz);
    [unfold is_u32; lia|reflexivity|].
  exists ds. split_and!; [done..|]. apply numeral_short; [lia|done|done|]. rewrite Hv. lia.
Qed.

(** The text of a window size, from its two numerals. *)
Definition window_text (rs cs : bytes) : bytes := rs ++ bs "x" ++ cs ++ bs ",0x0" ++ [NUL].

(** a window size always fits.  For every pair of 16-bit dimensions
    [WindowSize::encode] stays inside its sixteen bytes, and the text is the
    two decimal numerals, a [x] between them, and the ",0x0" and NUL the device
    expects behind. *)
Theorem window_size_fits r c :
  0 <= r < 2 ^ 16 → 0 <= c < 2 ^ 16 →
  ∃ e rs cs, window_size_encode (mkWindowSize r c) = Some e ∧
    as_bytes e = window_text rs cs ∧
    decimal_val rs = r ∧ Forall (λ d, is_digit d) rs ∧
    decimal_val cs = c ∧ Forall (λ d, is_digit d) cs.
Proof.
  intros Hr Hc. unfold window_size_encode. cbn [rows cols].
  destruct (numeral_u16 r Hr) as (rs & -> & Hvr & Hdr & Hlr).
  destruct (numeral_u16 c Hc) as (cs & -> & Hvc & Hdc & Hlc).
  assert (encoding (mkEncoded (replicate (Z.to_nat MAX_LEN) x00) 0) []) as H0 by done.
  assert (len (bs "x") = 1) as Hx by done. assert (len (bs ",0x0" ++ [NUL]) = 5) as Ht by done.
  unfold MAX_LEN in *. cbn [mbind option_bind].
  destruct (push_spec rs _ [] H0) as (e1 & -> & H1); [change (len []) with 0; unfold MAX_LEN; lia|].
  cbn [mbind option_bind].
  destruct (push_spec (bs "x") e1 _ H1) as (e2 & -> & H2); [rewrite ?len_app, ?len_nil, ?Hx; unfold MAX_LEN; lia|].
  cbn [mbind option_bind].
  destruct (push_spec cs e2 _ H2) as (e3 & -> & H3);
    [rewrite ?len_app, ?len_nil, ?Hx; unfold MAX_LEN; lia|].
  cbn [mbind option_bind].
  destruct (push_spec (bs ",0x0" ++ [NUL]) e3 _ H3) as (e4 & -> & _ & _ & H4).
  { rewrite Ht, !len_app, Hx, len_nil. unfold MAX_LEN. lia. }
  exists e4, rs, cs. split_and!; try done. rewrite H4. unfold window_text. by rewrite <- !app_assoc.
Qed.

Lemma window_size_fits_witness :
  ∃ e, window_size_encode (mkWindowSize 65535 65535) = Some e ∧
    as_bytes e = bs "65535x65535,0x0" ++ [NUL].
Proof.
  destruct (window_size_fits 65535 65535) as (e & rs & cs & He & _); [lia|lia|].
  exists e. split; [exact He|]. vm_compute in He. injection He as <-. vm_compute. reflexivity.
Defined.

(** ** A sample shell *)

(** A device that prints a line on stdout, one on stderr, sends a frame of an
    unknown id and exits with 7; the WRTEs cut the frames where they like. *)
Definition shell_stream : bytes :=
  frame_bytes FrameId.Stdout (bs "hello world") ++ frame_bytes FrameId.Stderr (bs "oops")
  ++ (x09 :: u32_le 2 ++ bs "??") ++ frame_bytes FrameId.Exit [x07].

Definition shell_conn : conn Script.script :=
  let fr p := match frame Checksum.Skip p with Ok f => f | Err _ => [] end in
  mkConn
    (mkWire (Script.mkScript
       (fr (mkPacket Command.Write 8 1 (ztake 12 shell_stream))
        ++ fr (mkPacket Command.Write 8 1 (zdrop 12 shell_stream))
        ++ fr (mkPacket Command.Close 8 1 []))
       [] [IoOk 30; IoOk 2]) [] false)
    (c_table sample_conn) (c_negotiated sample_conn) [].

(** A shell with a receive buffer of eight bytes: smaller than two of the frames. *)
Definition sample_shell : Shell := mkShell (replicate 8 x00) decoder_new.

Lemma fresh_shell_wf rx : HEADER_SIZE <= len rx → sh_wf (mkShell rx decoder_new).
Proof. intros Hl. unfold HEADER_SIZE in Hl. split; [split; simpl; (done || lia)|exact Hl]. Qed.

Lemma sample_shell_wf : sh_wf sample_shell.
Proof. apply fresh_shell_wf. vm_compute. discriminate. Qed.

#[local] Instance shell_session : Session (conn Script.script) Script.error := conn_session 10.
#[local] Instance shell_laws : SessionLaws (conn Script.script) Script.error :=
  conn_session_laws 10.

Lemma shell_conn_fine : s_ok shell_conn.
Proof.
  change (conn_fine (IoE := Script.error) 10 shell_conn). split; [|split; [|by vm_compute; lia]].
  - split.
    + intros [|[|i]] [|[|j]] s1 s2 H1 H2; simpl in *; simplify_eq; done.
    + intros [|[|i]] s Hs; simpl in *; simplify_eq; done.
  - intros [|[|i]] s Hs; simpl in *; simplify_eq; done.
Qed.

Lemma decoder_delivers_witness :
  let rx := ztake 8 shell_stream in
  let d := decoder_commit 8 decoder_new in
  dec_wf rx d ∧ fst (try_next_raw_ref rx d) = Ret (Some (Ok FrameId.Stdout, bs "hel")) ∧
  let '(o, d') := try_next_raw_ref rx d in nexted rx d o d'.
Proof.
  cbv zeta. assert (dec_wf (ztake 8 shell_stream) (decoder_commit 8 decoder_new)) as Hwf.
  { split; (reflexivity || (vm_compute; intuition congruence)). }
  split; [exact Hwf|]. split; [vm_compute; reflexivity|].
  apply (decoder_delivers _ _ Hwf). vm_compute. discriminate.
Defined.

Lemma collect_exact_witness :
  let '(o, p) := collect 1000 100 (mkChannelId 0 1) (sample_shell, shell_conn) in
  o = Ret (mkOutput (bs "hello world") (bs "oops") 7) ∧
  exited (pending (mkChannelId 0 1) sample_shell shell_conn) (bs "hello world") (bs "oops") 7.
Proof.
  assert (frames_left (mkChannelId 0 1) sample_shell shell_conn < 1000)%nat as Hn
    by (vm_compute; lia).
  assert (reads_left shell_conn (mkChannelId 0 1) < 100)%nat as Hf by (vm_compute; lia).
  pose proof (collect_exact 1000 100 (mkChannelId 0 1) sample_shell shell_conn sample_shell_wf
    shell_conn_fine Hn Hf) as Hc.
  assert (fst (collect (IoE := Script.error) 1000 100 (mkChannelId 0 1) (sample_shell, shell_conn))
    = Ret (mkOutput (bs "hello world") (bs "oops") 7)) as He by (vm_compute; reflexivity).
  destruct (collect _ _ _ _) as [o p]. cbn [fst] in He. subst o.
  split; [reflexivity|]. destruct Hc as [_ Hc]. exact Hc.
Defined.

Lemma send_frame_keeps_input_witness :
  ∃ sh', sh_wf sh' ∧ sh_unread sh' = [] ∧ len (sh_rx sh') = 8 ∧
    shell_send_frame (mkChannelId 0 1) FrameId.Stdin (bs "ls") (sample_shell, shell_conn)
    = on_session (s_write_channel (mkChannelId 0 1) (frame_bytes FrameId.Stdin (bs "ls")))
        (sh', shell_conn).
Proof.
  destruct (send_frame_keeps_input (mkChannelId 0 1) FrameId.Stdin (bs "ls") sample_shell
    shell_conn sample_shell_wf) as (sh' & Hwf & Hu & _ & Hl & [Hs|Hs]).
  - exists sh'. split; [exact Hwf|]. split; [exact Hu|]. split; [exact Hl|exact Hs].
  - exists (mkShell (frame_bytes FrameId.Stdin (bs "ls") ++ [x00]) decoder_new).
    split; [apply fresh_shell_wf; vm_compute; discriminate|]. split; [reflexivity|]. split; [reflexivity|].
    vm_compute. reflexivity.
Defined.
