(* ===== verification/Sync.v ===== *)
(** * The sync protocol ([sync.rs], [sync/format.rs])

    File operations over a [sync:] channel: eight-byte headers, then records,
    names and chunks of data.  [SyncSession] is a channel of a session and a
    receive buffer, in which requests are also put together. *)

From S2P Require Import Prelude Errors Protocol Text Banner ChannelTable Connection.
From S2P Require Import Destination Session RecvBuf.

(** ** Formats *)

Definition SYNC_HEADER_SIZE : Z := 8.
Definition SYNC_DATA_MAX : Z := 64 * 1024.

Module SyncId.
Inductive SyncId : Type :=
| Stat | Sta2 | List | Lis2 | Send | Snd2 | Recv | Rcv2 | Data | Done | Okay | Fail | Dent | Dnt2
| Quit.

#[global] Instance sync_id_eq_decision : EqDecision SyncId.
Proof. solve_decision. Defined.
End SyncId.
Abbreviation SyncId := SyncId.SyncId.

Definition all_sync_ids : list SyncId :=
  [SyncId.Stat; SyncId.Sta2; SyncId.List; SyncId.Lis2; SyncId.Send; SyncId.Snd2; SyncId.Recv;
   SyncId.Rcv2; SyncId.Data; SyncId.Done; SyncId.Okay; SyncId.Fail; SyncId.Dent; SyncId.Dnt2;
   SyncId.Quit].

Definition sync_id_bytes (id : SyncId) : bytes :=
  match id with
  | SyncId.Stat => bs "STAT" | SyncId.Sta2 => bs "STA2"
  | SyncId.List => bs "LIST" | SyncId.Lis2 => bs "LIS2"
  | SyncId.Send => bs "SEND" | SyncId.Snd2 => bs "SND2"
  | SyncId.Recv => bs "RECV" | SyncId.Rcv2 => bs "RCV2"
  | SyncId.Data => bs "DATA" | SyncId.Done => bs "DONE"
  | SyncId.Okay => bs "OKAY" | SyncId.Fail => bs "FAIL"
  | SyncId.Dent => bs "DENT" | SyncId.Dnt2 => bs "DNT2"
  | SyncId.Quit => bs "QUIT"
  end.

(** [SyncId::from_bytes]: the first of [ALL] with these bytes. *)
Definition sync_id_from_bytes (b : bytes) : option SyncId :=
  List.find (λ id, bool_decide (sync_id_bytes id = b)) all_sync_ids.

Definition STAT_V1_SIZE : Z := 16.
Definition STAT_V2_SIZE : Z := 72.
Definition STAT_V2_BODY_SIZE : Z := STAT_V2_SIZE - 4.
Definition DENT_V1_SIZE : Z := 20.
Definition DENT_V2_SIZE : Z := 76.

(** [FileMode] is its 32-bit value. *)
Record StatV1 : Type := mkStatV1 { v1_mode : Z; v1_size : Z; v1_mtime : Z }.

Record StatV2 : Type := mkStatV2 {
  v2_error : Z; v2_dev : Z; v2_ino : Z; v2_mode : Z; v2_nlink : Z; v2_uid : Z; v2_gid : Z;
  v2_size : Z; v2_atime : Z; v2_mtime : Z; v2_ctime : Z;
}.

Record DirEntry : Type := mkDirEntry { de_name : bytes; de_mode : Z; de_size : Z; de_mtime : Z }.

Record DirEntryV2 : Type := mkDirEntryV2 { de2_name : bytes; de2_stat : StatV2 }.

(** [SyncFlags] are their 32-bit value. *)
Definition FLAGS_NONE : Z := 0.
Definition FLAGS_BROTLI : Z := 1.
Definition FLAGS_LZ4 : Z := 2.
Definition FLAGS_ZSTD : Z := 4.
Definition FLAGS_DRY_RUN : Z := 0x80000000.

Definition flags_contains (self flags : Z) : bool := Z.land self flags =? flags.

(** [u32_at] and its like, on a slice that holds the field. *)
Definition u32_at (buf : bytes) (off : Z) : Z := le_val (zslice off (off + 4) buf).
Definition u64_at (buf : bytes) (off : Z) : Z := le_val (zslice off (off + 8) buf).
Definition i64_at (buf : bytes) (off : Z) : Z := as_i64 (u64_at buf off).

Definition parse_stat_v2_body (b : bytes) : StatV2 :=
  mkStatV2 (u32_at b 0) (u64_at b 4) (u64_at b 12) (u32_at b 20) (u32_at b 24) (u32_at b 28)
    (u32_at b 32) (u64_at b 36) (i64_at b 44) (i64_at b 52) (i64_at b 60).

Definition FLAG_FEATURES : list (Z * Feature) :=
  [(FLAGS_BROTLI, Feature.SendrecvV2Brotli); (FLAGS_LZ4, Feature.SendrecvV2Lz4);
   (FLAGS_ZSTD, Feature.SendrecvV2Zstd); (FLAGS_DRY_RUN, Feature.SendrecvV2DryRunSend)].

Definition COMPRESSION : list Z := [FLAGS_BROTLI; FLAGS_LZ4; FLAGS_ZSTD].

Definition check_path (path : bytes) : result SyncError unit :=
  if has_nul path then Err SyncError.InvalidPath else Ok tt.

(** [data.chunks(n)]; every chunk but the last has [n] elements. *)
Fixpoint chunks_loop (fuel : nat) (n : Z) (data : bytes) : list bytes :=
  match fuel, data with
  | S fuel, _ :: _ => ztake n data :: chunks_loop fuel n (zdrop n data)
  | _, _ => []
  end.

Definition chunks (n : Z) (data : bytes) : list bytes := chunks_loop (length data) n data.

(** ** Sessions *)

Section Sync.
Context {Ses IoE : Type} `{Session Ses IoE}.

Abbreviation syprog := (prog (RecvBuf * Ses) (Error IoE)).

Definition sync_fail {A} (e : SyncError) : syprog A := fail (Error.Sync e).

(** Calls of the buffer; [None] is a panic. *)
Definition rx_peek (n : Z) : syprog bytes :=
  o ← gets (λ p, peek n (fst p));
  match o with Some b => mret b | None => panic end.

Definition rx_take (n : Z) : syprog bytes := λ p,
  match take n (fst p) with
  | Some (b, r) => (Ret b, (r, snd p))
  | None => (Panicked, p)
  end.

Definition rx_advance (n : Z) : syprog unit := rx_take n ≫= λ _, mret tt.

Definition rx_compact : syprog unit := modify (λ p, (compact (fst p), snd p)).

(** [SyncSession::new]: [None] is its assertion. *)
Definition sync_new (buf : bytes) : option RecvBuf :=
  if SYNC_HEADER_SIZE <=? len buf then Some (recv_buf_new buf) else None.

Fixpoint require_flags (flags : Z) (l : list (Z * Feature)) : syprog unit :=
  match l with
  | [] => mret tt
  | (flag, feature) :: l =>
      (if flags_contains flags flag then on_session (s_require_feature feature) else mret tt)
        ≫= λ _, require_flags flags l
  end.

Definition require_sendrecv_v2 (flags : Z) : syprog unit :=
  if 1 <? len (filter (λ c, flags_contains flags c = true) COMPRESSION)
  then sync_fail (SyncError.InvalidFlags flags)
  else
    on_session (s_require_feature Feature.SendrecvV2) ≫= λ _,
    require_flags flags FLAG_FEATURES.

Definition peek_u32 (offset : Z) : syprog Z :=
  b ← rx_peek (offset + 4); mret (u32_at b offset).

Definition write_header (ch : ChannelId) (id : SyncId) (arg : Z) : syprog unit :=
  on_session (s_write_channel ch (sync_id_bytes id ++ u32_le arg)).

(** The parts written one by one. *)
Fixpoint write_parts (ch : ChannelId) (parts : list bytes) : syprog unit :=
  match parts with
  | [] => mret tt
  | p :: parts =>
      (if bool_decide (p = []) then mret tt else on_session (s_write_channel ch p)) ≫= λ _,
      write_parts ch parts
  end.

(** The parts copied into the window from [off]. *)
Fixpoint copy_parts (off : Z) (parts : list bytes) (buf : bytes) : bytes :=
  match parts with
  | [] => buf
  | p :: parts => copy_parts (off + len p) parts (zsplice off p buf)
  end.

Definition write_message (ch : ChannelId) (id : SyncId) (arg : Z) (parts : list bytes) :
    syprog unit :=
  let total := SYNC_HEADER_SIZE + len (concat parts) in
  rx_compact ≫= λ _,
  w ← gets (λ p, window (fst p));
  if total <=? w then
    modify (λ p,
      let r := fst p in
      let t := rb_tail r in
      (mkRecvBuf (copy_parts (t + SYNC_HEADER_SIZE) parts
                    (zsplice (t + 4) (u32_le arg) (zsplice t (sync_id_bytes id) (rb_buf r))))
         (rb_head r) t, snd p)) ≫= λ _,
    frame ← gets (λ p, zslice (rb_tail (fst p)) (rb_tail (fst p) + total) (rb_buf (fst p)));
    on_session (s_write_channel ch frame)
  else
    write_header ch id arg ≫= λ _, write_parts ch parts.

Definition write_request (ch : ChannelId) (id : SyncId) (parts : list bytes) : syprog unit :=
  write_message ch id (wrap_u32 (len (concat parts))) parts.

(** The loop of [read_fail_body] over what is left. *)
Fixpoint drain_loop (rounds fuel : nat) (ch : ChannelId) (left : Z) : syprog unit :=
  if left <=? 0 then mret tt
  else match rounds with
  | O => out_of_fuel
  | S rounds =>
      chunk ← gets (λ p, Z.min left (capacity (fst p)));
      fill_at_least fuel ch chunk ≫= λ _,
      rx_advance chunk ≫= λ _,
      drain_loop rounds fuel ch (left - chunk)
  end.

Definition read_fail_body (rounds fuel : nat) (ch : ChannelId) : syprog bytes :=
  msg_len ← peek_u32 4;
  rx_advance SYNC_HEADER_SIZE ≫= λ _,
  kept ← gets (λ p, Z.min msg_len (capacity (fst p)));
  (if 0 <? kept then fill_at_least fuel ch kept else mret tt) ≫= λ _,
  msg ← rx_take kept;
  drain_loop rounds fuel ch (msg_len - kept) ≫= λ _,
  mret msg.

Definition read_next_id (rounds fuel : nat) (ch : ChannelId) (allowed : list SyncId) :
    syprog SyncId :=
  fill_at_least fuel ch SYNC_HEADER_SIZE ≫= λ _,
  raw ← rx_peek 4;
  match sync_id_from_bytes raw with
  | Some SyncId.Fail =>
      msg ← read_fail_body rounds fuel ch;
      sync_fail (SyncError.Failed msg)
  | Some id =>
      if bool_decide (id ∈ allowed) then mret id else sync_fail (SyncError.UnexpectedId raw)
  | None => sync_fail (SyncError.UnexpectedId raw)
  end.

(** [check_path(path)?]. *)
Definition checked (path : bytes) : syprog unit := lift (map_err Error.Sync (check_path path)).

Definition stat (rounds fuel : nat) (ch : ChannelId) (path : bytes) : syprog StatV1 :=
  checked path ≫= λ _,
  rx_compact ≫= λ _,
  write_request ch SyncId.Stat [path] ≫= λ _,
  read_next_id rounds fuel ch [SyncId.Stat] ≫= λ _,
  fill_at_least fuel ch STAT_V1_SIZE ≫= λ _,
  mode ← peek_u32 4;
  size ← peek_u32 8;
  mtime ← peek_u32 12;
  rx_advance STAT_V1_SIZE ≫= λ _,
  mret (mkStatV1 mode size mtime).

Definition stat_v2 (rounds fuel : nat) (ch : ChannelId) (path : bytes) : syprog StatV2 :=
  checked path ≫= λ _,
  on_session (s_require_feature Feature.StatV2) ≫= λ _,
  rx_compact ≫= λ _,
  write_request ch SyncId.Sta2 [path] ≫= λ _,
  read_next_id rounds fuel ch [SyncId.Sta2] ≫= λ _,
  fill_at_least fuel ch STAT_V2_SIZE ≫= λ _,
  b ← rx_peek STAT_V2_SIZE;
  let stat := parse_stat_v2_body (zdrop 4 b) in
  rx_advance STAT_V2_SIZE ≫= λ _,
  if negb (v2_error stat =? 0) then sync_fail (SyncError.RemoteErrno (v2_error stat))
  else mret stat.

(** The loop of [list]; [rounds] bounds the entries. *)
Fixpoint list_loop (rounds fuel : nat) (ch : ChannelId) (entries : list DirEntry) :
    syprog (list DirEntry) :=
  match rounds with
  | O => out_of_fuel
  | S rounds' =>
      id ← read_next_id rounds fuel ch [SyncId.Dent; SyncId.Done];
      if bool_decide (id = SyncId.Done) then
        fill_at_least fuel ch DENT_V1_SIZE ≫= λ _,
        rx_advance DENT_V1_SIZE ≫= λ _,
        mret entries
      else
        fill_at_least fuel ch DENT_V1_SIZE ≫= λ _,
        mode ← peek_u32 4;
        size ← peek_u32 8;
        mtime ← peek_u32 12;
        namelen ← peek_u32 16;
        rx_advance DENT_V1_SIZE ≫= λ _,
        fill_at_least fuel ch namelen ≫= λ _,
        name ← rx_take namelen;
        list_loop rounds' fuel ch (entries ++ [mkDirEntry name mode size mtime])
  end.

Definition list_dir (rounds fuel : nat) (ch : ChannelId) (path : bytes) : syprog (list DirEntry) :=
  checked path ≫= λ _,
  rx_compact ≫= λ _,
  write_request ch SyncId.List [path] ≫= λ _,
  list_loop rounds fuel ch [].

Fixpoint list_v2_loop (rounds fuel : nat) (ch : ChannelId) (entries : list DirEntryV2) :
    syprog (list DirEntryV2) :=
  match rounds with
  | O => out_of_fuel
  | S rounds' =>
      id ← read_next_id rounds fuel ch [SyncId.Dnt2; SyncId.Done];
      if bool_decide (id = SyncId.Done) then
        fill_at_least fuel ch DENT_V2_SIZE ≫= λ _,
        rx_advance DENT_V2_SIZE ≫= λ _,
        mret entries
      else
        fill_at_least fuel ch DENT_V2_SIZE ≫= λ _,
        b ← rx_peek STAT_V2_SIZE;
        let stat := parse_stat_v2_body (zdrop 4 b) in
        namelen ← peek_u32 72;
        rx_advance DENT_V2_SIZE ≫= λ _,
        fill_at_least fuel ch namelen ≫= λ _,
        name ← rx_take namelen;
        list_v2_loop rounds' fuel ch (entries ++ [mkDirEntryV2 name stat])
  end.

Definition list_v2 (rounds fuel : nat) (ch : ChannelId) (path : bytes) : syprog (list DirEntryV2) :=
  checked path ≫= λ _,
  on_session (s_require_feature Feature.LsV2) ≫= λ _,
  rx_compact ≫= λ _,
  write_request ch SyncId.Lis2 [path] ≫= λ _,
  list_v2_loop rounds fuel ch [].

(** *** Pulling *)

Definition recv_start (ch : ChannelId) (path : bytes) : syprog unit :=
  checked path ≫= λ _,
  rx_compact ≫= λ _,
  write_request ch SyncId.Recv [path].

Definition recv_v2_start (ch : ChannelId) (path : bytes) (flags : Z) : syprog unit :=
  checked path ≫= λ _,
  if flags_contains flags FLAGS_DRY_RUN then sync_fail (SyncError.InvalidFlags flags)
  else
    require_sendrecv_v2 flags ≫= λ _,
    write_message ch SyncId.Rcv2 (wrap_u32 (len path))
      [path; sync_id_bytes SyncId.Rcv2; u32_le flags].

Definition recv_next (rounds fuel : nat) (ch : ChannelId) : syprog (option bytes) :=
  rx_compact ≫= λ _,
  id ← read_next_id rounds fuel ch [SyncId.Data; SyncId.Done];
  if bool_decide (id = SyncId.Done) then
    rx_advance SYNC_HEADER_SIZE ≫= λ _, mret None
  else
    data_len ← peek_u32 4;
    chunk_len ← lift (ok_or Error.ReceiveBufferFull (usize_checked_add SYNC_HEADER_SIZE data_len));
    fill_at_least fuel ch chunk_len ≫= λ _,
    rx_advance SYNC_HEADER_SIZE ≫= λ _,
    b ← rx_take data_len;
    mret (Some b).

(** The loop of [recv] and [recv_v2]. *)
Fixpoint recv_loop (rounds fuel : nat) (ch : ChannelId) (data : bytes) : syprog bytes :=
  match rounds with
  | O => out_of_fuel
  | S rounds' =>
      o ← recv_next rounds fuel ch;
      match o with
      | Some chunk => recv_loop rounds' fuel ch (data ++ chunk)
      | None => mret data
      end
  end.

Definition recv (rounds fuel : nat) (ch : ChannelId) (path : bytes) : syprog bytes :=
  recv_start ch path ≫= λ _, recv_loop rounds fuel ch [].

Definition recv_v2 (rounds fuel : nat) (ch : ChannelId) (path : bytes) (flags : Z) : syprog bytes :=
  recv_v2_start ch path flags ≫= λ _, recv_loop rounds fuel ch [].

(** *** Pushing *)

Definition send_start (ch : ChannelId) (path : bytes) (mode : Z) : syprog unit :=
  checked path ≫= λ _,
  match format_u32 mode (replicate 10 x00) with
  | Some mode_str => write_request ch SyncId.Send [path; bs ","; mode_str]
  | None => panic
  end.

Definition send_v2_start (ch : ChannelId) (path : bytes) (mode flags : Z) : syprog unit :=
  checked path ≫= λ _,
  require_sendrecv_v2 flags ≫= λ _,
  write_message ch SyncId.Snd2 (wrap_u32 (len path))
    [path; sync_id_bytes SyncId.Snd2; u32_le mode; u32_le flags].

Fixpoint send_chunks (ch : ChannelId) (cs : list bytes) : syprog unit :=
  match cs with
  | [] => mret tt
  | c :: cs => write_request ch SyncId.Data [c] ≫= λ _, send_chunks ch cs
  end.

Definition send_data (ch : ChannelId) (data : bytes) : syprog unit :=
  send_chunks ch (chunks SYNC_DATA_MAX data).

Definition send_done (rounds fuel : nat) (ch : ChannelId) (mtime : Z) : syprog unit :=
  write_header ch SyncId.Done mtime ≫= λ _,
  rx_compact ≫= λ _,
  read_next_id rounds fuel ch [SyncId.Okay] ≫= λ _,
  rx_advance SYNC_HEADER_SIZE.

Definition send (rounds fuel : nat) (ch : ChannelId) (path : bytes) (mode mtime : Z)
    (data : bytes) : syprog unit :=
  send_start ch path mode ≫= λ _,
  send_data ch data ≫= λ _,
  send_done rounds fuel ch mtime.

Definition send_v2 (rounds fuel : nat) (ch : ChannelId) (path : bytes) (mode mtime flags : Z)
    (data : bytes) : syprog unit :=
  send_v2_start ch path mode flags ≫= λ _,
  send_data ch data ≫= λ _,
  send_done rounds fuel ch mtime.

(** [quit]: a channel the device closed is no failure; the close goes out
    either way. *)
Definition quit (ch : ChannelId) : syprog unit :=
  sent ← catch (write_header ch SyncId.Quit 0);
  closed ← catch (on_session (s_close_channel ch));
  match sent with
  | Ok _ | Err Error.ChannelClosed => lift closed
  | Err e => fail e
  end.

(** [open]: the channel and its buffer. *)
Definition sync_open (buf : bytes) : prog Ses (Error IoE) (ChannelId * RecvBuf) :=
  ch ← s_open_channel (bs "sync:" ++ [NUL]);
  match sync_new buf with
  | Some r => mret (ch, r)
  | None => panic
  end.
End Sync.
