(* ===== verification/SyncStreams.v ===== *)
(** * Sync operations, as conversations

    A sync operation writes bytes on its channel and reads a reply.  [talks]
    says which bytes go out and by which parser, on the unbroken stream of what
    the device sends, the outcome is found: no buffer, no packet boundaries, no
    partial reads.  The receive buffer's size shows only where the code says it
    does, in what it refuses and in how much of a failure's text it keeps. *)

From S2P Require Import Prelude Errors Protocol Text Banner ChannelTable Connection.
From S2P Require Import Config Slot Wire Demux.
From S2P Require Import Destination Session RecvBuf Sync.

(** ** Parsers *)

(** What a parser makes of a stream: a value and the rest, an error, or that
    more has to come. *)
Inductive reply (E A : Type) : Type := Got (a : A) (rest : bytes) | Refused (e : E) | Short.
Arguments Got {E A} a rest.
Arguments Refused {E A} e.
Arguments Short {E A}.

Definition parser (E A : Type) : Type := bytes → reply E A.

Definition pret {E A} (a : A) : parser E A := λ inp, Got a inp.

Definition pbind {E A B} (p : parser E A) (k : A → parser E B) : parser E B := λ inp,
  match p inp with
  | Got a rest => k a rest
  | Refused e => Refused e
  | Short => Short
  end.

(** Wait for [n] bytes, in a buffer of [cap]. *)
Definition need {E A} (cap n : Z) (p : parser (Error E) A) : parser (Error E) A := λ inp,
  if cap <? n then Refused Error.ReceiveBufferFull
  else if len inp <? n then Short else p inp.

Section Parsers.
Context {E : Type} (cap : Z).

(** The id of the next message, which stays; a FAIL is refused with its
    text. *)
Definition next_id (allowed : list SyncId) : parser (Error E) SyncId :=
  need cap SYNC_HEADER_SIZE (λ inp,
    let raw := ztake 4 inp in
    match sync_id_from_bytes raw with
    | Some SyncId.Fail =>
        let n := u32_at inp 4 in
        let text := zdrop 8 inp in
        if len text <? n then Short
        else Refused (Error.Sync (SyncError.Failed (ztake (Z.min n cap) text)))
    | Some id =>
        if bool_decide (id ∈ allowed) then Got id inp
        else Refused (Error.Sync (SyncError.UnexpectedId raw))
    | None => Refused (Error.Sync (SyncError.UnexpectedId raw))
    end).

(** A record of [n] bytes, read by [f]. *)
Definition record {A} (n : Z) (f : bytes → A) : parser (Error E) A :=
  need cap n (λ inp, Got (f inp) (zdrop n inp)).

Definition stat_v1_at (b : bytes) : StatV1 := mkStatV1 (u32_at b 4) (u32_at b 8) (u32_at b 12).
Definition stat_v2_at (b : bytes) : StatV2 := parse_stat_v2_body (zdrop 4 (ztake STAT_V2_SIZE b)).

Definition stat_reply : parser (Error E) StatV1 :=
  pbind (next_id [SyncId.Stat]) (λ _, record STAT_V1_SIZE stat_v1_at).

Definition stat_v2_reply : parser (Error E) StatV2 :=
  pbind (next_id [SyncId.Sta2]) (λ _,
  pbind (record STAT_V2_SIZE stat_v2_at) (λ st inp,
    if v2_error st =? 0 then Got st inp
    else Refused (Error.Sync (SyncError.RemoteErrno (v2_error st))))).

Definition dent_at (b : bytes) : Z * Z * Z * Z :=
  (u32_at b 4, u32_at b 8, u32_at b 12, u32_at b 16).

Definition dent : parser (Error E) DirEntry :=
  pbind (record DENT_V1_SIZE dent_at) (λ x,
    let '(mode, size, mtime, namelen) := x in
    record namelen (λ b, mkDirEntry (ztake namelen b) mode size mtime)).

Definition dent_v2 : parser (Error E) DirEntryV2 :=
  pbind (record DENT_V2_SIZE (λ b, (stat_v2_at b, u32_at b 72))) (λ x,
    record (snd x) (λ b, mkDirEntryV2 (ztake (snd x) b) (fst x))).

(** Entries up to DONE. *)
Fixpoint entries {A} (rounds : nat) (id : SyncId) (size : Z) (entry : parser (Error E) A)
    (acc : list A) : parser (Error E) (list A) :=
  match rounds with
  | O => λ _, Short
  | S rounds =>
      pbind (next_id [id; SyncId.Done]) (λ x,
        if bool_decide (x = SyncId.Done) then record size (λ _, acc)
        else pbind entry (λ e, entries rounds id size entry (acc ++ [e])))
  end.

(** The next chunk, or DONE. *)
Definition chunk_reply : parser (Error E) (option bytes) :=
  pbind (next_id [SyncId.Data; SyncId.Done]) (λ x inp,
    if bool_decide (x = SyncId.Done) then Got None (zdrop SYNC_HEADER_SIZE inp)
    else
      let n := u32_at inp 4 in
      need cap (SYNC_HEADER_SIZE + n) (λ inp,
        Got (Some (ztake n (zdrop SYNC_HEADER_SIZE inp))) (zdrop (SYNC_HEADER_SIZE + n) inp)) inp).

Fixpoint pull (rounds : nat) (acc : bytes) : parser (Error E) bytes :=
  match rounds with
  | O => λ _, Short
  | S rounds => pbind chunk_reply (λ o,
      match o with Some b => pull rounds (acc ++ b) | None => pret acc end)
  end.

Definition okay_reply : parser (Error E) unit :=
  pbind (next_id [SyncId.Okay]) (λ _ inp, Got tt (zdrop SYNC_HEADER_SIZE inp)).
End Parsers.

(** ** Prefixes of the stream *)

Lemma u32_at_app b x off : 0 <= off → off + 4 <= len b → u32_at (b ++ x) off = u32_at b off.
Proof.
  intros Ho Hl. unfold u32_at, zslice. rewrite zdrop_app_le by lia.
  rewrite ztake_app_le; [done|]. rewrite len_zdrop. lia.
Qed.

Lemma sync_u32_at_ztake b n off : 0 <= off → off + 4 <= n → u32_at (ztake n b) off = u32_at b off.
Proof.
  intros Ho Hn. unfold u32_at, zslice.
  rewrite !ztake_take, !zdrop_drop, skipn_firstn_comm, take_take. do 2 f_equal. lia.
Qed.

Lemma u32_at_bound b off : 0 <= u32_at b off < 2 ^ 32.
Proof.
  unfold u32_at. pose proof (le_val_bound (zslice off (off + 4) b)) as Hb.
  assert (len (zslice off (off + 4) b) <= 4).
  { unfold zslice. rewrite len_ztake. lia. }
  assert (256 ^ len (zslice off (off + 4) b) <= 256 ^ 4) by (apply Z.pow_le_mono_r; lia).
  change (256 ^ 4) with (2 ^ 32) in *. lia.
Qed.

(** ** Conversations *)

Section Laws.
Context {Ses IoE : Type} `{SessionLaws Ses IoE} (fuel : nat) (ch : ChannelId).
Implicit Types r : RecvBuf.
Implicit Types s : Ses.

Abbreviation syprog := (prog (RecvBuf * Ses) (Error IoE)).

(** What has arrived and what is to come. *)
Definition input (p : RecvBuf * Ses) : bytes := unread (fst p) ++ inbox (snd p) ch.

(** An error of the session's own. *)
Definition ses_failed (e : Error IoE) : Prop :=
  read_failed (Ses := Ses) ch e ∨ ∃ d s, fst (s_write_channel (S := Ses) ch d s) = Fail e.

(** A sync session between operations, its buffer of [cap] bytes. *)
Definition ready (cap : Z) (p : RecvBuf * Ses) : Prop :=
  rb_wf (fst p) ∧ capacity (fst p) = cap ∧ s_ok (snd p) ∧ (reads_left (snd p) ch < fuel)%nat.

(** How an operation ends that writes [out] and reads by [P]. *)
Definition ended {A} (cap : Z) (out : bytes) (P : parser (Error IoE) A) (p : RecvBuf * Ses)
    (o : outcome (Error IoE) A) (p' : RecvBuf * Ses) : Prop :=
  match o with
  | Ret a => ready cap p' ∧ puts (snd p) ch out (snd p') ∧ P (input p) = Got a (input p')
  | Fail e => ses_failed e ∨ P (input p) = Refused e
  | Dropped => True
  | Panicked | NoFuel => False
  end.

Definition talks {A} (cap : Z) (rounds : nat) (out : bytes) (P : parser (Error IoE) A)
    (m : syprog A) : Prop :=
  ∀ p, ready cap p → (length (input p) < rounds)%nat → wp m (ended cap out P p) p.

(** A first part, and what follows it from where it left off. *)
Lemma ended_bind {A B} cap out1 out2 (P : parser (Error IoE) A) (K : A → parser (Error IoE) B)
    (m : syprog A) (k : A → syprog B) p :
  wp m (ended cap out1 P p) p →
  (∀ a p1, ready cap p1 → P (input p) = Got a (input p1) →
    wp (k a) (ended cap out2 (K a) p1) p1) →
  wp (m ≫= k) (ended cap (out1 ++ out2) (pbind P K) p) p.
Proof.
  intros Hm Hk. apply wp_bind. eapply wp_mono; [exact Hm|]. unfold pbind.
  intros [a|e| | |] p1; try done; simpl.
  - intros (Hr & Hpu & HP). eapply wp_mono; [by apply Hk|].
    intros [b|e| | |] p2; try done; simpl; rewrite HP; [|done].
    intros (Hr2 & Hpu2 & HK). split; [done|]. split; [by eapply puts_app|done].
  - intros [He|HP]; [by left|]. right. by rewrite HP.
Qed.

Lemma ended_ret {A} cap (a : A) p : ready cap p → ended cap [] (pret a) p (Ret a) p.
Proof. intros Hr. split; [done|]. split; [apply puts_nil|done]. Qed.

(** The same, against another parser that agrees on this input. *)
Lemma ended_eq {A} cap out (P P' : parser (Error IoE) A) p o p' :
  P (input p) = P' (input p) → ended cap out P p o p' → ended cap out P' p o p'.
Proof. intros HP. unfold ended. by rewrite HP. Qed.

(** *** The buffer *)

Lemma len_input p : len (unread (fst p)) <= len (input p).
Proof. unfold input. rewrite len_app. pose proof (len_nonneg (inbox (snd p) ch)). lia. Qed.

(** Fill, then go on with [n] bytes there. *)
Lemma ended_fill {A} cap n out (P : parser (Error IoE) A) (k : syprog A) p :
  ready cap p →
  (∀ p1, ready cap p1 → input p1 = input p → n <= len (unread (fst p1)) →
    wp k (ended cap out P p1) p1) →
  wp (fill_at_least fuel ch n ≫= λ _, k) (ended cap out (need cap n P) p) p.
Proof.
  intros (Hwf & Hc & Hok & Hf) Hk. destruct p as [r s]. simpl in *.
  apply wp_bind. unfold fill_at_least. apply wp_bind, wp_gets. simpl. unfold need.
  rewrite Hc. destruct (Z.ltb_spec cap n) as [Hbig|Hfit]; [by right|].
  eapply wp_mono; [apply fill_loop_spec; (done || lia)|].
  intros o [r1 s1] (Hwf1 & Hc1 & _ & Hpu & Ho). simpl in *.
  destruct o as [[]|e| | |]; try done.
  - destruct Ho as (Hl & Hok1 & Hin & Hle).
    assert (input (r1, s1) = input (r, s)) as Hi by (unfold input; simpl; by rewrite Hin).
    pose proof (len_input (r1, s1)) as Hlen. simpl in Hlen.
    assert (ready cap (r1, s1)) as Hr1 by (split_and!; simpl; [done|congruence|done|lia]).
    eapply wp_mono; [by apply Hk|]. intros o p2 Hend. rewrite Hi in Hlen.
    unfold ended in *. destruct o as [a|e| | |]; try done.
    + destruct Hend as (Hr2 & Hpu2 & HP). split; [done|]. split.
      * exact (puts_app _ _ _ _ _ _ Hpu Hpu2).
      * rewrite Hi in HP. destruct (Z.ltb_spec (len (input (r, s))) n); [lia|done].
    + destruct Hend as [He|HP]; [by left|right]. rewrite Hi in HP.
      destruct (Z.ltb_spec (len (input (r, s))) n); [lia|done].
  - left. by left.
Qed.

Lemma wp_peek n Q p :
  rb_wf (fst p) → n <= len (unread (fst p)) →
  Q (Ret (ztake n (unread (fst p)))) p → wp (rx_peek n : syprog bytes) Q p.
Proof.
  intros Hwf Hn HQ. pose proof (len_unread _ Hwf) as Hl. unfold rx_peek. apply wp_bind, wp_gets.
  unfold peek. destruct (Z.leb_spec n (rb_tail (fst p) - rb_head (fst p))); [exact HQ|lia].
Qed.

Lemma wp_peek_u32 off Q p :
  rb_wf (fst p) → 0 <= off → off + 4 <= len (unread (fst p)) →
  Q (Ret (u32_at (input p) off)) p → wp (peek_u32 off : syprog Z) Q p.
Proof.
  intros Hwf Ho Hn HQ. unfold peek_u32. apply wp_bind, wp_peek; [done|lia|].
  apply wp_ret. rewrite sync_u32_at_ztake by lia. unfold input in HQ. by rewrite u32_at_app in HQ.
Qed.

(** Taking [n] bytes takes them from the front of the input. *)
Lemma wp_take cap n (Q : outcome (Error IoE) bytes → RecvBuf * Ses → Prop) p :
  ready cap p → 0 <= n <= len (unread (fst p)) →
  (∀ p1, ready cap p1 → snd p1 = snd p → input p1 = zdrop n (input p) →
    unread (fst p1) = zdrop n (unread (fst p)) →
    Q (Ret (ztake n (input p))) p1) → wp (rx_take n : syprog bytes) Q p.
Proof.
  intros (Hwf & Hc & Hok & Hf) Hn HQ.
  destruct (take_unread n _ Hwf Hn) as (r' & Ht & Hwf' & Hu & Hc').
  unfold wp, rx_take. rewrite Ht. simpl.
  assert (ztake n (unread (fst p)) = ztake n (input p)) as ->
    by (unfold input; by rewrite ztake_app_le by lia).
  apply HQ; [split_and!; simpl; try done; congruence|done| |done].
  unfold input. simpl. by rewrite Hu, zdrop_app_le by lia.
Qed.

Lemma wp_advance cap n (Q : outcome (Error IoE) unit → RecvBuf * Ses → Prop) p :
  ready cap p → 0 <= n <= len (unread (fst p)) →
  (∀ p1, ready cap p1 → snd p1 = snd p → input p1 = zdrop n (input p) →
    unread (fst p1) = zdrop n (unread (fst p)) → Q (Ret tt) p1) →
  wp (rx_advance n : syprog unit) Q p.
Proof.
  intros Hr Hn HQ. apply wp_bind. eapply wp_take; [done|done|]. intros. by apply HQ.
Qed.

(** Compaction changes nothing the parsers see. *)
Lemma wp_compact cap (Q : outcome (Error IoE) unit → RecvBuf * Ses → Prop) p :
  ready cap p → (∀ p1, ready cap p1 → snd p1 = snd p → input p1 = input p → Q (Ret tt) p1) →
  wp (rx_compact : syprog unit) Q p.
Proof.
  intros (Hwf & Hc & Hok & Hf) HQ. apply wp_modify.
  destruct (compact_unread _ Hwf) as (Hwf1 & Hu1 & Hc1 & _).
  apply HQ; [split_and!; simpl; try done; congruence|done|]. unfold input. simpl. by rewrite Hu1.
Qed.

(** *** Messages *)

(** A fill of what fits the buffer, at its own. *)
Lemma wp_fill cap n (Q : outcome (Error IoE) unit → RecvBuf * Ses → Prop) p :
  ready cap p → n <= cap →
  (∀ p1, ready cap p1 → puts (snd p) ch [] (snd p1) → input p1 = input p →
    n <= len (unread (fst p1)) → Q (Ret tt) p1) →
  (∀ e p1, ses_failed e → Q (Fail e) p1) → (∀ p1, Q Dropped p1) →
  wp (fill_at_least fuel ch n) Q p.
Proof.
  intros (Hwf & Hc & Hok & Hf) Hn HR HF HD. destruct p as [r s]. simpl in *.
  unfold fill_at_least. apply wp_bind, wp_gets. simpl. rewrite Hc.
  destruct (Z.ltb_spec cap n) as [|_]; [lia|].
  eapply wp_mono; [apply fill_loop_spec; (done || lia)|].
  intros o [r1 s1] (Hwf1 & Hc1 & _ & Hpu & Ho). simpl in *.
  destruct o as [[]|e| | |]; try done; [|by apply HF; left].
  destruct Ho as (Hl & Hok1 & Hin & Hle). apply HR; [|done| |done].
  - split_and!; simpl; [done|congruence|done|lia].
  - unfold input. simpl. by rewrite Hin.
Qed.

Lemma drain_loop_spec cap rounds left p :
  0 < cap → ready cap p → (length (input p) < rounds)%nat →
  wp (drain_loop rounds fuel ch left) (λ o _,
    match o with
    | Ret _ => left <= len (input p)
    | Fail e => ses_failed e
    | Dropped => True
    | Panicked | NoFuel => False
    end) p.
Proof.
  intros Hcap. revert left p. induction rounds as [|rounds IH]; intros left p Hr Hn; [lia|].
  simpl. pose proof (len_nonneg (input p)). destruct (Z.leb_spec left 0) as [|Hl]; [by apply wp_ret; lia|].
  apply wp_bind, wp_gets. simpl. rewrite (proj1 (proj2 Hr)). set (chunk := Z.min left cap).
  apply wp_bind. apply (wp_fill cap); [done|lia| |done|done].
  intros p1 Hr1 _ Hi1 Hu1. apply wp_bind, (wp_advance cap); [done|lia|].
  intros p2 Hr2 _ Hi2 _. pose proof (len_input p1) as Hlen. rewrite Hi1 in *.
  assert (len (input p2) = len (input p) - chunk) as Hl2 by (rewrite Hi2, len_zdrop; lia).
  eapply wp_mono; [apply IH; [done|unfold len in Hl2; lia]|].
  intros [[]| | | |] p3; try done. lia.
Qed.

(** The text of a FAIL whose header is in the buffer. *)
Lemma read_fail_body_spec cap rounds p :
  0 < cap → ready cap p → 8 <= len (unread (fst p)) → (length (input p) < rounds)%nat →
  let n := u32_at (input p) 4 in
  let text := zdrop 8 (input p) in
  wp (read_fail_body rounds fuel ch) (λ o _,
    match o with
    | Ret msg => n <= len text ∧ msg = ztake (Z.min n cap) text
    | Fail e => ses_failed e
    | Dropped => True
    | Panicked | NoFuel => False
    end) p.
Proof.
  intros Hcap Hr Hu Hn n text. unfold read_fail_body.
  pose proof (u32_at_bound (input p) 4) as Hb. fold n in Hb.
  apply wp_bind, wp_peek_u32; [apply Hr|lia|lia|]. fold n.
  apply wp_bind, (wp_advance cap); [done|unfold SYNC_HEADER_SIZE; lia|].
  intros p1 Hr1 _ Hi1 _. change (input p1 = text) in Hi1. apply wp_bind, wp_gets. simpl.
  rewrite (proj1 (proj2 Hr1)). set (kept := Z.min n cap).
  assert (∀ p2, ready cap p2 → input p2 = text → kept <= len (unread (fst p2)) →
    wp (msg ← rx_take kept; drain_loop rounds fuel ch (n - kept) ≫= λ _, mret msg)
      (λ o _, match o with
              | Ret msg => n <= len text ∧ msg = ztake kept text
              | Fail e => ses_failed e
              | Dropped => True
              | Panicked | NoFuel => False
              end) p2) as Hgo.
  { intros p2 Hr2 Hi2 Hk. apply wp_bind, (wp_take cap); [done|lia|].
    intros p3 Hr3 _ Hi3 _. pose proof (len_input p2) as Hlen. rewrite Hi2 in *.
    assert (len text <= len (input p)) as Hsub by (unfold text; rewrite len_zdrop; pose proof (len_nonneg (input p)); lia).
    assert (len (input p3) = len text - kept) as Hl3
      by (rewrite Hi3, len_zdrop; pose proof (len_nonneg text); lia).
    apply wp_bind. eapply wp_mono.
    { apply (drain_loop_spec cap); [done|done|]. unfold len in *. lia. }
    intros [[]| | | |] p4; try done. intros Hle. apply wp_ret. split; [lia|done]. }
  apply wp_bind. destruct (Z.ltb_spec 0 kept).
  - apply (wp_fill cap); [done|lia| |done|done]. intros p2 Hr2 _ Hi2 Hk.
    apply Hgo; [done|congruence|done].
  - apply wp_ret, Hgo; [done|done|]. pose proof (len_nonneg (unread (fst p1))). lia.
Qed.

(** The next message, and what is done with its id. *)
Lemma ended_next {A} cap rounds out allowed (K : SyncId → parser (Error IoE) A)
    (k : SyncId → syprog A) p :
  SYNC_HEADER_SIZE <= cap → ready cap p → (length (input p) < rounds)%nat →
  (∀ id p1, ready cap p1 → input p1 = input p → 8 <= len (unread (fst p1)) → id ∈ allowed →
    wp (k id) (ended cap out (K id) p1) p1) →
  wp (read_next_id rounds fuel ch allowed ≫= k)
    (ended cap out (pbind (next_id cap allowed) K) p) p.
Proof.
  unfold SYNC_HEADER_SIZE. intros Hcap Hr Hn Hk. apply wp_bind. unfold read_next_id.
  apply wp_bind, (wp_fill cap); [done|unfold SYNC_HEADER_SIZE; lia| |by left|done].
  unfold SYNC_HEADER_SIZE. intros p1 Hr1 Hpu Hi1 Hu1.
  pose proof (len_input p1) as Hlen. rewrite Hi1 in Hlen.
  apply wp_bind, wp_peek; [apply Hr1|lia|].
  assert (ztake 4 (unread (fst p1)) = ztake 4 (input p)) as ->
    by (rewrite <- Hi1; unfold input; by rewrite ztake_app_le by lia).
  assert (∀ id, id ≠ SyncId.Fail →
    sync_id_from_bytes (ztake 4 (input p)) = Some id → id ∈ allowed →
    wp (k id) (ended cap out (pbind (next_id cap allowed) K) p) p1) as Hgo.
  { intros id Hnf Hid Hin. eapply wp_mono; [by apply Hk|]. intros o p2. unfold ended.
    assert (pbind (next_id cap allowed) K (input p) = K id (input p)) as ->.
    { unfold pbind, next_id, need, SYNC_HEADER_SIZE. destruct (Z.ltb_spec cap 8); [lia|].
      destruct (Z.ltb_spec (len (input p)) 8); [lia|]. rewrite Hid.
      by destruct id; try done; rewrite bool_decide_true. }
    rewrite Hi1. destruct o; try done. intros (? & ? & ?). split; [done|]. split; [|done].
    exact (puts_app _ _ _ _ _ _ Hpu H2). }
  assert (∀ e, next_id cap allowed (input p) = Refused e →
    ended cap out (pbind (next_id cap allowed) K) p (Fail e) p1) as Href.
  { intros e He. right. unfold pbind. by rewrite He. }
  assert (next_id (E := IoE) cap allowed (input p) =
    match sync_id_from_bytes (ztake 4 (input p)) with
    | Some SyncId.Fail =>
        if len (zdrop 8 (input p)) <? u32_at (input p) 4 then Short
        else Refused (Error.Sync (SyncError.Failed
          (ztake (Z.min (u32_at (input p) 4) cap) (zdrop 8 (input p)))))
    | Some id =>
        if bool_decide (id ∈ allowed) then Got id (input p)
        else Refused (Error.Sync (SyncError.UnexpectedId (ztake 4 (input p))))
    | None => Refused (Error.Sync (SyncError.UnexpectedId (ztake 4 (input p))))
    end) as Hnext.
  { unfold next_id, need, SYNC_HEADER_SIZE. destruct (Z.ltb_spec cap 8); [lia|].
    by destruct (Z.ltb_spec (len (input p)) 8); [lia|]. }
  destruct (sync_id_from_bytes (ztake 4 (input p))) as [id|] eqn:Hid; [|by apply Href].
  destruct (decide (id = SyncId.Fail)) as [->|Hnf].
  - apply wp_bind. eapply wp_mono.
    { apply (read_fail_body_spec cap); [lia|done|done|by rewrite Hi1]. }
    rewrite Hi1. intros [msg|e| | |] p2; try done; [|by left].
    intros [Hle ->]. right. unfold pbind. rewrite Hnext.
    by destruct (Z.ltb_spec (len (zdrop 8 (input p))) (u32_at (input p) 4)); [lia|].
  - assert (∀ X Y : syprog SyncId,
      match id with SyncId.Fail => X | _ => Y end = Y) as Hsel by (by destruct id).
    rewrite Hsel. clear Hsel. revert Hnext.
    assert (∀ X Y : reply (Error IoE) SyncId,
      match id with SyncId.Fail => X | _ => Y end = Y) as -> by (by destruct id).
    case_bool_decide as Hin; intros Hnext; [apply wp_ret; by apply Hgo|by apply Href].
Qed.

(** *** Requests *)

Lemma zsplice_nil (off : Z) (buf : bytes) : 0 <= off → zsplice off [] buf = buf.
Proof. intros. unfold zsplice. rewrite len_nil, Z.add_0_r. simpl. apply ztake_zdrop. Qed.

Lemma copy_parts_concat parts off buf :
  0 <= off → off + len (concat parts) <= len buf →
  copy_parts off parts buf = zsplice off (concat parts) buf.
Proof.
  revert off buf. induction parts as [|p parts IH]; intros off buf Ho Hl; simpl in *.
  - by rewrite zsplice_nil.
  - rewrite len_app in Hl. pose proof (len_nonneg p). pose proof (len_nonneg (concat parts)).
    rewrite IH by (rewrite ?len_zsplice; lia). apply zsplice_zsplice; lia.
Qed.

(** Writing behind what is buffered leaves it alone. *)
Lemma unread_behind r b :
  rb_wf r → len b <= window r →
  let r' := mkRecvBuf (zsplice (rb_tail r) b (rb_buf r)) (rb_head r) (rb_tail r) in
  rb_wf r' ∧ unread r' = unread r ∧ capacity r' = capacity r ∧
  zslice (rb_tail r) (rb_tail r + len b) (rb_buf r') = b.
Proof.
  intros Hwf Hb. cbv zeta. destruct (commit_unread b r Hwf Hb) as ((Hh & Ht) & Hu & Hc).
  pose proof (len_unread r Hwf) as Hl. pose proof Hwf as [Hh' Ht'].
  unfold capacity, commit in *. simpl in *. rewrite Hc in *.
  split; [split; simpl; lia|]. split; [|split; [done|]].
  - unfold unread at 1. simpl. unfold zslice.
    replace (rb_tail r - rb_head r) with (Z.min (rb_tail r - rb_head r)
      (rb_tail r + len b - rb_head r)) by (pose proof (len_nonneg b); lia).
    rewrite <- ztake_ztake. unfold unread at 1, zslice in Hu. simpl in Hu. rewrite Hu.
    by apply ztake_app_len.
  - unfold zslice, zsplice. rewrite zdrop_app_len by (rewrite len_ztake; lia).
    apply ztake_app_len. lia.
Qed.

Definition message (id : SyncId) (arg : Z) (body : bytes) : bytes :=
  sync_id_bytes id ++ u32_le arg ++ body.

Lemma len_sync_id id : len (sync_id_bytes id) = 4.
Proof. by destruct id. Qed.

Lemma len_message id arg body : len (message id arg body) = 8 + len body.
Proof. unfold message. rewrite !len_app, len_sync_id, len_u32_le. lia. Qed.

Lemma ended_write cap d p :
  ready cap p → wp (on_session (s_write_channel ch d)) (ended cap d (pret tt) p) p.
Proof.
  intros (Hwf & Hc & Hok & Hf). destruct p as [r s]. apply wp_on_session. simpl in *.
  pose proof (s_write_spec ch d s Hok) as Hw. unfold wp in *.
  destruct (s_write_channel ch d s) as [o s1] eqn:Hd. simpl in *.
  destruct o as [[]|e| | |]; try done.
  - destruct Hw as (Hok1 & Hpu & Hin & Hle). split; [split_and!; simpl; (done || lia)|].
    split; [done|]. unfold pret, input. simpl. by rewrite Hin.
  - left. right. exists d, s. by rewrite Hd.
Qed.

(** Two writes in a row. *)
Lemma ended_then {A} cap out1 out2 (P : parser (Error IoE) A) (m : syprog unit) (k : syprog A) p :
  wp m (ended cap out1 (pret tt) p) p →
  (∀ p1, ready cap p1 → input p1 = input p → wp k (ended cap out2 P p1) p1) →
  wp (m ≫= λ _, k) (ended cap (out1 ++ out2) P p) p.
Proof.
  intros Hm Hk. eapply wp_mono.
  { apply (ended_bind cap out1 out2 (pret tt) (λ _, P)); [exact Hm|].
    intros [] p1 Hr1 [= Hi]. by apply Hk. }
  intros o p'. by apply ended_eq.
Qed.

Lemma ended_parts cap parts p :
  ready cap p → wp (write_parts ch parts) (ended cap (concat parts) (pret tt) p) p.
Proof.
  revert p. induction parts as [|d parts IH]; intros p Hr; simpl; [by apply wp_ret, ended_ret|].
  apply ended_then; [|intros; by apply IH].
  case_bool_decide as Hd; [subst d; by apply wp_ret, ended_ret|by apply ended_write].
Qed.

Lemma ended_message cap id arg parts p :
  ready cap p →
  wp (write_message ch id arg parts) (ended cap (message id arg (concat parts)) (pret tt) p) p.
Proof.
  intros Hr. unfold write_message. apply wp_bind, (wp_compact cap); [done|].
  intros p1 Hr1 Hs1 Hi1.
  assert (∀ o p', ended cap (message id arg (concat parts)) (pret tt) p1 o p' →
    ended cap (message id arg (concat parts)) (pret tt) p o p') as Hback.
  { intros o p'. unfold ended, pret. rewrite Hs1, Hi1. done. }
  apply wp_bind, wp_gets. simpl. pose proof (len_message id arg (concat parts)) as Hm.
  destruct (Z.leb_spec (SYNC_HEADER_SIZE + len (concat parts)) (window (fst p1))) as [Hfit|Hbig].
  - pose proof Hr1 as (Hwf & Hc & Hok & Hf). pose proof Hwf as [Hh Ht]. unfold SYNC_HEADER_SIZE in *.
    destruct (unread_behind (fst p1) (message id arg (concat parts)) Hwf ltac:(lia))
      as (Hwf2 & Hu2 & Hc2 & Hsl).
    apply wp_bind, wp_modify. simpl. unfold window in Hfit.
    pose proof (len_sync_id id) as Hid. pose proof (len_u32_le arg) as Harg.
    assert (copy_parts (rb_tail (fst p1) + 8) parts
        (zsplice (rb_tail (fst p1) + 4) (u32_le arg)
          (zsplice (rb_tail (fst p1)) (sync_id_bytes id) (rb_buf (fst p1))))
      = zsplice (rb_tail (fst p1)) (message id arg (concat parts)) (rb_buf (fst p1))) as ->.
    { pose proof (len_nonneg (concat parts)).
      replace (rb_tail (fst p1) + 4) with (rb_tail (fst p1) + len (sync_id_bytes id)) by lia.
      rewrite zsplice_zsplice by lia.
      assert (len (sync_id_bytes id ++ u32_le arg) = 8) as H8 by (rewrite len_app; lia).
      replace (rb_tail (fst p1) + 8)
        with (rb_tail (fst p1) + len (sync_id_bytes id ++ u32_le arg)) by lia.
      rewrite copy_parts_concat by (rewrite ?len_zsplice; lia).
      rewrite zsplice_zsplice by lia. unfold message. by rewrite app_assoc. }
    apply wp_bind, wp_gets. simpl. rewrite Hm in Hsl. simpl in Hsl. rewrite Hsl.
    eapply wp_mono; [apply (ended_write cap); split_and!; simpl; (done || congruence)|].
    intros o p' He. apply Hback. unfold ended in *. destruct o; try done.
    2: { destruct He as [He|He]; [by left|discriminate He]. }
    destruct He as (Hr' & Hp' & HP). split; [exact Hr'|]. split; [exact Hp'|].
    unfold input at 1 in HP. simpl in HP. rewrite Hu2 in HP. exact HP.
  - eapply wp_mono; [|exact Hback]. unfold message. rewrite app_assoc.
    apply ended_then; [by apply ended_write|]. intros. by apply ended_parts.
Qed.

Lemma ended_request cap id parts p :
  ready cap p →
  wp (write_request ch id parts)
    (ended cap (message id (wrap_u32 (len (concat parts))) (concat parts)) (pret tt) p) p.
Proof. apply ended_message. Qed.

(** *** Records *)

Lemma ended_take {A} cap n out (K : bytes → parser (Error IoE) A) (k : bytes → syprog A) p :
  ready cap p → 0 <= n <= len (unread (fst p)) →
  (∀ p1, ready cap p1 → input p1 = zdrop n (input p) →
    unread (fst p1) = zdrop n (unread (fst p)) →
    wp (k (ztake n (input p))) (ended cap out (K (ztake n (input p))) p1) p1) →
  wp (rx_take n ≫= k) (ended cap out (λ inp, K (ztake n inp) (zdrop n inp)) p) p.
Proof.
  intros Hr Hn Hk. apply wp_bind, (wp_take cap); [done..|]. intros p1 Hr1 Hs1 Hi1 Hu1.
  eapply wp_mono; [by apply Hk|]. intros o p2. unfold ended. by rewrite Hs1, Hi1.
Qed.

Lemma ended_advance {A} cap n out (K : parser (Error IoE) A) (k : syprog A) p :
  ready cap p → 0 <= n <= len (unread (fst p)) →
  (∀ p1, ready cap p1 → input p1 = zdrop n (input p) →
    unread (fst p1) = zdrop n (unread (fst p)) → wp k (ended cap out K p1) p1) →
  wp (rx_advance n ≫= λ _, k) (ended cap out (λ inp, K (zdrop n inp)) p) p.
Proof.
  intros Hr Hn Hk. apply wp_bind, (wp_advance cap); [done..|]. intros p1 Hr1 Hs1 Hi1 Hu1.
  eapply wp_mono; [by apply Hk|]. intros o p2. unfold ended. by rewrite Hs1, Hi1.
Qed.

(** A record that is already in the buffer, and what follows. *)
Lemma ended_record_last {A} cap n (f : bytes → A) p :
  ready cap p → 0 <= n <= len (unread (fst p)) →
  wp (rx_advance n ≫= λ _, mret (f (input p)) : syprog A)
    (ended cap [] (λ inp, Got (f inp) (zdrop n inp)) p) p.
Proof.
  intros Hr Hn. eapply wp_mono.
  { apply (ended_advance cap n [] (pret (f (input p)))); [done..|].
    intros p1 Hr1 _ _. by apply wp_ret, ended_ret. }
  intros o p'. by apply ended_eq.
Qed.

(** Against a parser that agrees everywhere. *)
Lemma wp_ended_eq {A} cap out (P P' : parser (Error IoE) A) (m : syprog A) p :
  (∀ inp, P inp = P' inp) → wp m (ended cap out P p) p → wp m (ended cap out P' p) p.
Proof. intros HP Hm. eapply wp_mono; [exact Hm|]. intros o p'. by apply ended_eq. Qed.

Lemma pbind_record {A B} cap n (f : bytes → A) (K : A → parser (Error IoE) B) inp :
  need cap n (λ inp, K (f inp) (zdrop n inp)) inp = pbind (record cap n f) K inp.
Proof. unfold pbind, record, need. by repeat case_match. Qed.

Lemma pbind_assoc {A B C} (P : parser (Error IoE) A) (K : A → parser (Error IoE) B)
    (L : B → parser (Error IoE) C) inp :
  pbind P (λ a, pbind (K a) L) inp = pbind (pbind P K) L inp.
Proof. unfold pbind. by destruct (P inp). Qed.

(** *** Stats *)

Section Operations.
Context (cap : Z) (Hcap : SYNC_HEADER_SIZE <= cap).

Lemma ready_wf p : ready cap p → rb_wf (fst p).
Proof. by intros [? _]. Qed.

(** The u32 fields of a record in the buffer. *)
Ltac fields := repeat (apply wp_bind, wp_peek_u32; [eapply ready_wf; eassumption|lia|lia|]).

Lemma stat_reads rounds p :
  ready cap p → (length (input p) < rounds)%nat →
  wp (read_next_id rounds fuel ch [SyncId.Stat] ≫= λ _,
      fill_at_least fuel ch STAT_V1_SIZE ≫= λ _,
      mode ← peek_u32 4;
      size ← peek_u32 8;
      mtime ← peek_u32 12;
      rx_advance STAT_V1_SIZE ≫= λ _,
      mret (mkStatV1 mode size mtime)) (ended cap [] (stat_reply cap) p) p.
Proof.
  intros Hr Hn. apply ended_next; [done..|]. intros id p1 Hr1 Hi1 _ _.
  apply ended_fill; [done|]. unfold STAT_V1_SIZE. intros p2 Hr2 Hi2 Hu2. fields.
  apply (ended_record_last cap 16 stat_v1_at); [done|lia].
Qed.

Lemma stat_v2_reads rounds p :
  ready cap p → (length (input p) < rounds)%nat →
  wp (read_next_id rounds fuel ch [SyncId.Sta2] ≫= λ _,
      fill_at_least fuel ch STAT_V2_SIZE ≫= λ _,
      b ← rx_peek STAT_V2_SIZE;
      let stat := parse_stat_v2_body (zdrop 4 b) in
      rx_advance STAT_V2_SIZE ≫= λ _,
      if negb (v2_error stat =? 0) then sync_fail (SyncError.RemoteErrno (v2_error stat))
      else mret stat) (ended cap [] (stat_v2_reply cap) p) p.
Proof.
  intros Hr Hn. apply ended_next; [done..|]. intros id p1 Hr1 Hi1 _ _.
  eapply wp_ended_eq; [intros inp; apply pbind_record|].
  apply ended_fill; [done|]. intros p2 Hr2 Hi2 Hu2.
  apply wp_bind, wp_peek; [by eapply ready_wf|done|].
  assert (ztake STAT_V2_SIZE (unread (fst p2)) = ztake STAT_V2_SIZE (input p2)) as ->
    by (unfold input; by rewrite ztake_app_le).
  fold (stat_v2_at (input p2)). set (st := stat_v2_at (input p2)). cbv zeta.
  eapply wp_mono.
  { apply (ended_advance cap STAT_V2_SIZE [] (λ inp, if v2_error st =? 0 then Got st inp
      else Refused (Error.Sync (SyncError.RemoteErrno (v2_error st))))); [done|done|].
    intros p3 Hr3 _ _. destruct (v2_error st =? 0); simpl; [by apply wp_ret, ended_ret|by right]. }
  intros o p'. by apply ended_eq.
Qed.

(** *** Lists *)

(** Bytes consumed leave fewer rounds to go. *)
Lemma zdrop_rounds n (l : bytes) rounds :
  0 < n <= len l → (length l < S rounds)%nat → (length (zdrop n l) < rounds)%nat.
Proof. intros Hn Hl. rewrite zdrop_drop, length_drop. unfold len in Hn. lia. Qed.

Lemma zdrop_rounds_le n (l : bytes) rounds :
  (length l < rounds)%nat → (length (zdrop n l) < rounds)%nat.
Proof. intros Hl. rewrite zdrop_drop, length_drop. lia. Qed.

Lemma list_loop_reads rounds acc p :
  ready cap p → (length (input p) < rounds)%nat →
  wp (list_loop rounds fuel ch acc)
    (ended cap [] (entries cap rounds SyncId.Dent DENT_V1_SIZE (dent cap) acc) p) p.
Proof.
  revert acc p. induction rounds as [|rounds IH]; intros acc p Hr Hn; [lia|].
  cbn [list_loop entries]. apply ended_next; [done..|]. intros id p1 Hr1 Hi1 _ _.
  case_bool_decide.
  { apply ended_fill; [done|]. intros p2 Hr2 Hi2 Hu2.
    apply (ended_record_last cap DENT_V1_SIZE (λ _, acc)); [done|]. unfold DENT_V1_SIZE in *. lia. }
  eapply wp_ended_eq; [intros inp; etransitivity; [|apply pbind_assoc]; apply pbind_record|].
  apply ended_fill; [done|]. unfold DENT_V1_SIZE in *. intros p2 Hr2 Hi2 Hu2.
  fields. pose proof (len_input p2) as Hl2. pose proof (u32_at_bound (input p2) 16) as Hb.
  set (namelen := u32_at (input p2) 16) in *. eapply wp_mono.
  { apply (ended_advance cap 20 [] (pbind (record cap namelen (λ b, mkDirEntry (ztake namelen b)
      (u32_at (input p2) 4) (u32_at (input p2) 8) (u32_at (input p2) 12)))
      (λ e, entries cap rounds SyncId.Dent 20 (dent cap) (acc ++ [e])))); [done|lia|].
    intros p3 Hr3 Hi3 _. eapply wp_ended_eq; [intros inp; apply pbind_record|].
    apply ended_fill; [done|]. intros p4 Hr4 Hi4 Hu4.
    apply (ended_take cap namelen [] (λ name, entries cap rounds SyncId.Dent 20 (dent cap)
      (acc ++ [mkDirEntry name (u32_at (input p2) 4) (u32_at (input p2) 8)
                 (u32_at (input p2) 12)]))); [done|lia|].
    intros p5 Hr5 Hi5 _. apply IH; [done|]. rewrite Hi5, Hi4, Hi3.
    apply zdrop_rounds_le, zdrop_rounds; [lia|]. by rewrite Hi2, Hi1. }
  intros o p'. by apply ended_eq.
Qed.

Lemma list_v2_loop_reads rounds acc p :
  ready cap p → (length (input p) < rounds)%nat →
  wp (list_v2_loop rounds fuel ch acc)
    (ended cap [] (entries cap rounds SyncId.Dnt2 DENT_V2_SIZE (dent_v2 cap) acc) p) p.
Proof.
  revert acc p. induction rounds as [|rounds IH]; intros acc p Hr Hn; [lia|].
  cbn [list_v2_loop entries]. apply ended_next; [done..|]. intros id p1 Hr1 Hi1 _ _.
  case_bool_decide.
  { apply ended_fill; [done|]. intros p2 Hr2 Hi2 Hu2.
    apply (ended_record_last cap DENT_V2_SIZE (λ _, acc)); [done|]. unfold DENT_V2_SIZE in *. lia. }
  eapply wp_ended_eq; [intros inp; etransitivity; [|apply pbind_assoc]; apply pbind_record|].
  apply ended_fill; [done|]. unfold DENT_V2_SIZE in *. intros p2 Hr2 Hi2 Hu2.
  apply wp_bind, wp_peek; [by eapply ready_wf|unfold STAT_V2_SIZE; lia|].
  assert (ztake STAT_V2_SIZE (unread (fst p2)) = ztake STAT_V2_SIZE (input p2)) as ->
    by (unfold input; rewrite ztake_app_le; [done|unfold STAT_V2_SIZE; lia]).
  fold (stat_v2_at (input p2)). cbv zeta. fields.
  pose proof (len_input p2) as Hl2. pose proof (u32_at_bound (input p2) 72) as Hb.
  set (namelen := u32_at (input p2) 72) in *. eapply wp_mono.
  { apply (ended_advance cap 76 [] (pbind (record cap namelen (λ b, mkDirEntryV2 (ztake namelen b)
      (stat_v2_at (input p2))))
      (λ e, entries cap rounds SyncId.Dnt2 76 (dent_v2 cap) (acc ++ [e])))); [done|lia|].
    intros p3 Hr3 Hi3 _. eapply wp_ended_eq; [intros inp; apply pbind_record|].
    apply ended_fill; [done|]. intros p4 Hr4 Hi4 Hu4.
    apply (ended_take cap namelen [] (λ name, entries cap rounds SyncId.Dnt2 76 (dent_v2 cap)
      (acc ++ [mkDirEntryV2 name (stat_v2_at (input p2))]))); [done|lia|].
    intros p5 Hr5 Hi5 _. apply IH; [done|]. rewrite Hi5, Hi4, Hi3.
    apply zdrop_rounds_le, zdrop_rounds; [lia|]. by rewrite Hi2, Hi1. }
  intros o p'. by apply ended_eq.
Qed.

(** *** Transfers *)

Lemma recv_next_reads rounds p :
  ready cap p → (length (input p) < rounds)%nat →
  wp (recv_next rounds fuel ch) (ended cap [] (chunk_reply cap) p) p.
Proof.
  intros Hr Hn. unfold recv_next. apply wp_bind, (wp_compact cap); [done|].
  intros p0 Hr0 Hs0 Hi0. eapply (wp_mono _ (ended cap [] (chunk_reply cap) p0)).
  2: { intros o p'. unfold ended. by rewrite Hs0, Hi0. }
  apply ended_next; [done|done|by rewrite Hi0|]. intros id p1 Hr1 Hi1 Hu1 _.
  unfold SYNC_HEADER_SIZE in *. case_bool_decide.
  { apply (ended_record_last cap 8 (λ _, None)); [done|lia]. }
  fields. pose proof (u32_at_bound (input p1) 4) as Hb. set (n := u32_at (input p1) 4) in *.
  apply wp_bind, wp_lift. unfold usize_checked_add.
  destruct (Z.leb_spec (8 + n) USIZE_MAX) as [_|Hx]; [|unfold USIZE_MAX in Hx; lia]. simpl.
  eapply wp_mono.
  { apply (ended_fill cap (8 + n) [] (λ inp, Got (Some (ztake n (zdrop 8 inp)))
      (zdrop (8 + n) inp))); [done|]. intros p2 Hr2 Hi2 Hu2.
    apply (wp_ended_eq _ _ (λ inp, (λ inp, Got (Some (ztake n inp)) (zdrop n inp)) (zdrop 8 inp))).
    { intros inp. by rewrite zdrop_zdrop by lia. }
    apply (ended_advance cap 8 [] (λ inp, Got (Some (ztake n inp)) (zdrop n inp))); [done|lia|].
    intros p3 Hr3 Hi3 Hu3. apply (ended_take cap n [] (λ b, pret (Some b))); [done| |].
    { rewrite Hu3, len_zdrop. lia. }
    intros p4 Hr4 _ _. by apply wp_ret, ended_ret. }
  intros o p'. by apply ended_eq.
Qed.

Lemma chunk_shorter inp b rest :
  chunk_reply (E := IoE) cap inp = Got (Some b) rest → ∃ n, 8 <= n <= len inp ∧ rest = zdrop n inp.
Proof.
  unfold chunk_reply, pbind. destruct (next_id cap _ inp) as [id inp'| |] eqn:Hid; try done.
  assert (inp' = inp) as ->.
  { unfold next_id, need in Hid. by repeat case_match; simplify_eq. }
  unfold SYNC_HEADER_SIZE. case_bool_decide; [done|]. unfold need.
  destruct (_ <? _); [done|]. pose proof (u32_at_bound inp 4).
  destruct (Z.ltb_spec (len inp) (8 + u32_at inp 4)); [done|]. intros [= _ <-]. eexists. split; [|done].
  lia.
Qed.

Lemma recv_loop_reads rounds acc p :
  ready cap p → (length (input p) < rounds)%nat →
  wp (recv_loop rounds fuel ch acc) (ended cap [] (pull cap rounds acc) p) p.
Proof.
  revert acc p. induction rounds as [|rounds IH]; intros acc p Hr Hn; [lia|].
  cbn [recv_loop pull]. change ([] : bytes) with ([] ++ [] : bytes).
  apply ended_bind; [by apply recv_next_reads|]. intros [b|] p1 Hr1 HP.
  - apply IH; [done|]. apply chunk_shorter in HP as (n & Hl & ->). apply zdrop_rounds; [lia|done].
  - by apply wp_ret, ended_ret.
Qed.

(** *** Whole operations *)

(** A request, then its reply. *)
Lemma ended_ask {A} out (P : parser (Error IoE) A) rounds (m : syprog unit) (k : syprog A) p :
  (length (input p) < rounds)%nat → wp m (ended cap out (pret tt) p) p →
  (∀ p1, ready cap p1 → (length (input p1) < rounds)%nat → wp k (ended cap [] P p1) p1) →
  wp (m ≫= λ _, k) (ended cap out P p) p.
Proof.
  intros Hn Hm Hk. rewrite <- (app_nil_r out). apply ended_then; [done|].
  intros p1 Hr1 Hi1. apply Hk; [done|]. by rewrite Hi1.
Qed.

(** The checks of a path, before anything is sent. *)
Lemma checked_path {A} path (k : syprog A) p :
  (checked path ≫= λ _, k) p
  = if has_nul path then (Fail (Error.Sync SyncError.InvalidPath), p) else k p.
Proof. unfold checked, check_path, mbind, prog_bind. by destruct (has_nul path). Qed.

Lemma required {A} feature (k : syprog A) p :
  (on_session (s_require_feature feature) ≫= λ _, k) p
  = if s_advertises (snd p) feature then k p else (Fail (Error.MissingFeature feature), p).
Proof.
  unfold on_session, zoom, s_require_feature, mbind, prog_bind. destruct p as [r s]. simpl.
  by destruct (s_advertises s feature).
Qed.

Definition request (id : SyncId) (body : bytes) : bytes :=
  message id (wrap_u32 (len body)) body.

(** [rx.compact()], then a request of one part. *)
Lemma ended_path_request id path p :
  ready cap p →
  wp (rx_compact ≫= λ _, write_request ch id [path]) (ended cap (request id path) (pret tt) p) p.
Proof.
  intros Hr. apply wp_bind, (wp_compact cap); [done|]. intros p1 Hr1 Hs1 Hi1.
  eapply wp_mono; [by apply (ended_request cap)|]. simpl. rewrite app_nil_r.
  intros o p'. unfold ended, request. by rewrite Hs1, Hi1.
Qed.

(** The same with what follows nested in it, as the operations have it. *)
Lemma ended_path_ask {A} id path (P : parser (Error IoE) A) rounds (k : syprog A) p :
  ready cap p → (length (input p) < rounds)%nat →
  (∀ p1, ready cap p1 → (length (input p1) < rounds)%nat → wp k (ended cap [] P p1) p1) →
  wp (rx_compact ≫= λ _, write_request ch id [path] ≫= λ _, k)
    (ended cap (request id path) P p) p.
Proof.
  intros Hr Hn Hk. apply wp_assoc. by apply (ended_ask _ P rounds); [|apply ended_path_request|].
Qed.

(** The flags a device takes. *)
Definition flags_allowed (flags : Z) (s : Ses) : Prop :=
  len (filter (λ c, flags_contains flags c = true) COMPRESSION) <= 1 ∧
  s_advertises s Feature.SendrecvV2 = true ∧
  Forall (λ x, flags_contains flags (fst x) = true → s_advertises s (snd x) = true) FLAG_FEATURES.

(** Flags that are refused, and why. *)
Definition flags_refused (flags : Z) (s : Ses) (e : Error IoE) : Prop :=
  e = Error.Sync (SyncError.InvalidFlags flags) ∨
  ∃ f, e = Error.MissingFeature f ∧ s_advertises s f = false.

Lemma require_flags_spec {A} flags l (k : syprog A) p :
  (Forall (λ x, flags_contains flags (fst x) = true → s_advertises (snd p) (snd x) = true) l ∧
   (require_flags flags l ≫= λ _, k) p = k p) ∨
  (¬ Forall (λ x, flags_contains flags (fst x) = true → s_advertises (snd p) (snd x) = true) l ∧
   ∃ e, flags_refused flags (snd p) e ∧ (require_flags flags l ≫= λ _, k) p = (Fail e, p)).
Proof.
  induction l as [|[flag feature] l IH]; simpl.
  - left. split; [constructor|done].
  - rewrite prog_bind_assoc. destruct (flags_contains flags flag) eqn:Hc.
    + rewrite required. destruct (s_advertises (snd p) feature) eqn:Ha.
      * rewrite Forall_cons. simpl. naive_solver.
      * right. split; [rewrite Forall_cons; simpl; rewrite Ha; naive_solver|].
        exists (Error.MissingFeature feature). split; [right; eauto|done].
    + change ((mret tt ≫= λ _ : unit, require_flags flags l ≫= λ _, k) p)
        with ((require_flags flags l ≫= λ _, k) p).
      rewrite Forall_cons. simpl. rewrite Hc. naive_solver.
Qed.

Lemma require_spec {A} flags (k : syprog A) p :
  (flags_allowed flags (snd p) ∧ (require_sendrecv_v2 flags ≫= λ _, k) p = k p) ∨
  (¬ flags_allowed flags (snd p) ∧
   ∃ e, flags_refused flags (snd p) e ∧ (require_sendrecv_v2 flags ≫= λ _, k) p = (Fail e, p)).
Proof.
  unfold require_sendrecv_v2, flags_allowed.
  destruct (Z.ltb_spec 1 (len (filter (λ c, flags_contains flags c = true) COMPRESSION))).
  { right. split; [lia|]. eexists. split; [by left|done]. }
  rewrite prog_bind_assoc, required. destruct (s_advertises (snd p) Feature.SendrecvV2) eqn:Ha.
  - destruct (require_flags_spec flags FLAG_FEATURES k p) as [[Hf He]|[Hf He]]; [left|right].
    + by rewrite He.
    + split; [|done]. naive_solver.
  - right. split; [naive_solver congruence|]. exists (Error.MissingFeature Feature.SendrecvV2).
    split; [right; eauto|done].
Qed.

(** What an operation on [path] does: a path with a NUL is refused and nothing
    is touched. *)
Definition on_path {A} (path out : bytes) (P : parser (Error IoE) A) (p : RecvBuf * Ses)
    (run : outcome (Error IoE) A * (RecvBuf * Ses)) : Prop :=
  if has_nul path then run = (Fail (Error.Sync SyncError.InvalidPath), p)
  else ended cap out P p (fst run) (snd run).

(** The same where the device has to advertise [feature]. *)
Definition on_path_with {A} (feature : Feature) (path out : bytes) (P : parser (Error IoE) A)
    (p : RecvBuf * Ses) (run : outcome (Error IoE) A * (RecvBuf * Ses)) : Prop :=
  if negb (has_nul path) && negb (s_advertises (snd p) feature)
  then run = (Fail (Error.MissingFeature feature), p)
  else on_path path out P p run.

(** The same where the device has to take [flags]. *)
Definition on_path_flags {A} (flags : Z) (path out : bytes) (P : parser (Error IoE) A)
    (p : RecvBuf * Ses) (run : outcome (Error IoE) A * (RecvBuf * Ses)) : Prop :=
  on_path path out P p run ∧ (has_nul path = false → flags_allowed flags (snd p)) ∨
  has_nul path = false ∧ ∃ e, flags_refused flags (snd p) e ∧ run = (Fail e, p).

Lemma on_path_spec {A} path out (P : parser (Error IoE) A) (k : syprog A) p :
  wp k (ended cap out P p) p → on_path path out P p ((checked path ≫= λ _, k) p).
Proof. intros Hk. unfold on_path. rewrite checked_path. by destruct (has_nul path). Qed.

Lemma on_path_with_spec {A} feature path out (P : parser (Error IoE) A) (k : syprog A) p :
  wp k (ended cap out P p) p →
  on_path_with feature path out P p
    ((checked path ≫= λ _, on_session (s_require_feature feature) ≫= λ _, k) p).
Proof.
  intros Hk. unfold on_path_with, on_path. rewrite checked_path, required.
  by destruct (has_nul path), (s_advertises (snd p) feature).
Qed.

(** *** Theorems *)

Section Theorems.
Context (rounds : nat) (p : RecvBuf * Ses).
Context (Hready : ready cap p) (Hrounds : (length (input p) < rounds)%nat).

Lemma stat_spec path :
  on_path path (request SyncId.Stat path) (stat_reply cap) p (stat rounds fuel ch path p) ∧
  on_path_with Feature.StatV2 path (request SyncId.Sta2 path) (stat_v2_reply cap) p
    (stat_v2 rounds fuel ch path p).
Proof.
  split.
  - apply on_path_spec, (ended_path_ask _ _ _ rounds); [done..|]. intros. by apply stat_reads.
  - apply on_path_with_spec, (ended_path_ask _ _ _ rounds); [done..|]. intros. by apply stat_v2_reads.
Qed.

Lemma list_spec path :
  on_path path (request SyncId.List path)
    (entries cap rounds SyncId.Dent DENT_V1_SIZE (dent cap) []) p (list_dir rounds fuel ch path p) ∧
  on_path_with Feature.LsV2 path (request SyncId.Lis2 path)
    (entries cap rounds SyncId.Dnt2 DENT_V2_SIZE (dent_v2 cap) []) p (list_v2 rounds fuel ch path p).
Proof.
  split.
  - apply on_path_spec, (ended_path_ask _ _ _ rounds); [done..|]. intros. by apply list_loop_reads.
  - apply on_path_with_spec, (ended_path_ask _ _ _ rounds); [done..|].
    intros. by apply list_v2_loop_reads.
Qed.

Lemma recv_spec path flags :
  on_path path (request SyncId.Recv path) (pull cap rounds []) p (recv rounds fuel ch path p) ∧
  (if negb (has_nul path) && flags_contains flags FLAGS_DRY_RUN
   then recv_v2 rounds fuel ch path flags p = (Fail (Error.Sync (SyncError.InvalidFlags flags)), p)
   else on_path_flags flags path
     (message SyncId.Rcv2 (wrap_u32 (len path)) (path ++ bs "RCV2" ++ u32_le flags))
     (pull cap rounds []) p (recv_v2 rounds fuel ch path flags p)).
Proof.
  split.
  - unfold recv, recv_start. rewrite prog_bind_assoc. apply on_path_spec.
    apply (ended_ask _ _ rounds); [done|by apply ended_path_request|].
    intros. by apply recv_loop_reads.
  - unfold recv_v2, recv_v2_start. rewrite prog_bind_assoc, checked_path. unfold on_path_flags, on_path.
    destruct (has_nul path); simpl; [by left|].
    destruct (flags_contains flags FLAGS_DRY_RUN); simpl; [done|]. rewrite prog_bind_assoc.
    destruct (require_spec flags
      (write_message ch SyncId.Rcv2 (wrap_u32 (len path)) [path; bs "RCV2"; u32_le flags] ≫= λ _,
       recv_loop rounds fuel ch []) p) as [[Hf He]|(_ & e & Hf & He)];
      [left|right; split; [done|]; by exists e].
    change (sync_id_bytes SyncId.Rcv2) with (bs "RCV2"). rewrite He. split; [|done].
    apply (ended_ask _ _ rounds); [done| |intros; by apply recv_loop_reads].
    eapply wp_mono; [by apply (ended_message cap)|]. cbn [concat]. by rewrite app_nil_r.
Qed.

(** The DATA messages of a push. *)
Definition data_messages (cs : list bytes) : bytes := concat (request SyncId.Data <$> cs).

Lemma ended_chunks cs p0 :
  ready cap p0 → wp (send_chunks ch cs) (ended cap (data_messages cs) (pret tt) p0) p0.
Proof.
  revert p0. induction cs as [|c cs IH]; intros p0 Hr; cbn [send_chunks].
  { by apply wp_ret, ended_ret. }
  apply ended_then; [|intros; by apply IH].
  eapply wp_mono; [by apply (ended_request cap)|]. cbn [concat]. by rewrite app_nil_r.
Qed.

Lemma send_done_spec n mtime p0 :
  ready cap p0 → (length (input p0) < n)%nat →
  wp (send_done n fuel ch mtime)
    (ended cap (sync_id_bytes SyncId.Done ++ u32_le mtime) (okay_reply cap) p0) p0.
Proof.
  intros Hr Hn. unfold send_done. rewrite <- (app_nil_r (_ ++ _)).
  apply ended_then; [by apply ended_write|]. intros p1 Hr1 Hi1.
  apply wp_bind, (wp_compact cap); [done|]. intros p2 Hr2 Hs2 Hi2.
  eapply (wp_mono _ (ended cap [] (okay_reply cap) p2)).
  2: { intros o p'. unfold ended. by rewrite Hs2, Hi2. }
  apply ended_next; [done|done|by rewrite Hi2, Hi1|]. intros id p3 Hr3 Hi3 Hu3 _.
  eapply (wp_advance cap); [done|unfold SYNC_HEADER_SIZE; lia|].
  intros p4 Hr4 Hs4 Hi4 _. split; [done|]. rewrite Hs4, Hi4. split; [apply puts_nil|done].
Qed.

(** The bytes of a push behind its first request. *)
Definition push_tail (data : bytes) (mtime : Z) : bytes :=
  data_messages (chunks SYNC_DATA_MAX data) ++ sync_id_bytes SyncId.Done ++ u32_le mtime.

Lemma ended_push out data mtime (m : syprog unit) :
  wp m (ended cap out (pret tt) p) p →
  wp (m ≫= λ _, send_data ch data ≫= λ _, send_done rounds fuel ch mtime)
    (ended cap (out ++ push_tail data mtime) (okay_reply cap) p) p.
Proof.
  intros Hm. apply ended_then; [done|]. intros p1 Hr1 Hi1.
  apply ended_then; [by apply ended_chunks|]. intros p2 Hr2 Hi2. apply send_done_spec; [done|].
  by rewrite Hi2, Hi1.
Qed.

Lemma send_spec path mode mtime flags data digits :
  format_u32 mode (replicate 10 x00) = Some digits →
  on_path path (request SyncId.Send (path ++ bs "," ++ digits) ++ push_tail data mtime)
    (okay_reply cap) p (send rounds fuel ch path mode mtime data p) ∧
  on_path_flags flags path
    (message SyncId.Snd2 (wrap_u32 (len path)) (path ++ bs "SND2" ++ u32_le mode ++ u32_le flags)
     ++ push_tail data mtime)
    (okay_reply cap) p (send_v2 rounds fuel ch path mode mtime flags data p).
Proof.
  intros Hd. split.
  - unfold send, send_start. rewrite prog_bind_assoc. apply on_path_spec. rewrite Hd.
    apply ended_push. eapply wp_mono; [by apply (ended_request cap)|]. cbn [concat].
    by rewrite app_nil_r.
  - unfold send_v2, send_v2_start. rewrite prog_bind_assoc, checked_path.
    unfold on_path_flags, on_path. destruct (has_nul path); [by left|].
    rewrite prog_bind_assoc. destruct (require_spec flags
      (write_message ch SyncId.Snd2 (wrap_u32 (len path))
         [path; bs "SND2"; u32_le mode; u32_le flags] ≫= λ _,
       send_data ch data ≫= λ _, send_done rounds fuel ch mtime) p)
      as [[Hf He]|(_ & e & Hf & He)]; [left|right; split; [done|]; by exists e].
    change (sync_id_bytes SyncId.Snd2) with (bs "SND2"). rewrite He. split; [|done].
    apply (ended_push (message SyncId.Snd2 _ _)). eapply wp_mono; [by apply (ended_message cap)|].
    cbn [concat]. by rewrite app_nil_r.
Qed.
End Theorems.
End Operations.
End Laws.

(** ** The operations *)

(** C23: a pull returns the file the device sends.  On a session that keeps its
    laws, with a buffer that holds a header and fuel for what is to come,
    [recv] and [recv_v2] end without a panic.  A path with a NUL, and for
    [recv_v2] a dry run, two compression flags or a flag the device does not
    advertise, are refused with nothing sent and nothing changed.  Otherwise
    exactly the request goes out, and the outcome is what [pull] makes of the
    device's bytes: the data of the DATA messages up to DONE, the text of a
    FAIL, an unexpected id, or a chunk that does not fit the buffer; the rest of
    the stream is left for the next operation.  The one other way to end is with
    an error of the session. *)
Theorem recv_pulls {Ses IoE} `{SessionLaws Ses IoE} fuel ch cap rounds path flags
    (p : RecvBuf * Ses) :
  SYNC_HEADER_SIZE <= cap → ready fuel ch cap p → (length (input ch p) < rounds)%nat →
  on_path fuel ch cap path (request SyncId.Recv path) (pull cap rounds []) p
    (recv rounds fuel ch path p) ∧
  (if negb (has_nul path) && flags_contains flags FLAGS_DRY_RUN
   then recv_v2 rounds fuel ch path flags p = (Fail (Error.Sync (SyncError.InvalidFlags flags)), p)
   else on_path_flags fuel ch cap flags path
     (message SyncId.Rcv2 (wrap_u32 (len path)) (path ++ bs "RCV2" ++ u32_le flags))
     (pull cap rounds []) p (recv_v2 rounds fuel ch path flags p)).
Proof. intros Hcap Hr Hn. by apply recv_spec. Qed.

(** C24: a push sends the file and waits for the verdict.  Under the same
    conditions [send] and [send_v2] refuse a path with a NUL, and flags the
    device does not take, with nothing sent; otherwise they return exactly when
    the device answers OKAY, and what they have sent is then the request with
    the path and the mode (in decimal for [send]), the data in DATA messages of
    at most 64 KiB, in order and complete, and DONE with the modification time.
    A FAIL comes back with its text, another answer by its id. *)
Theorem send_pushes {Ses IoE} `{SessionLaws Ses IoE} fuel ch cap rounds path mode mtime flags data
    (p : RecvBuf * Ses) :
  SYNC_HEADER_SIZE <= cap → ready fuel ch cap p → (length (input ch p) < rounds)%nat →
  is_u32 mode →
  (∃ digits, decimal_val digits = mode ∧ Forall (λ d, is_digit d) digits ∧
    on_path fuel ch cap path (request SyncId.Send (path ++ bs "," ++ digits) ++ push_tail data mtime)
      (okay_reply cap) p (send rounds fuel ch path mode mtime data p)) ∧
  on_path_flags fuel ch cap flags path
    (message SyncId.Snd2 (wrap_u32 (len path)) (path ++ bs "SND2" ++ u32_le mode ++ u32_le flags)
     ++ push_tail data mtime)
    (okay_reply cap) p (send_v2 rounds fuel ch path mode mtime flags data p).
Proof.
  intros Hcap Hr Hn Hm.
  destruct (format_u32_spec mode (replicate 10 x00) Hm eq_refl) as (ds & Hf & Hv & Hd & _).
  destruct (send_spec fuel ch cap Hcap rounds p Hr Hn path mode mtime flags data ds Hf) as [H1 H2'].
  split; [by exists ds|done].
Qed.

(** listings and stats are read whole.  Under the same conditions [list]
    and [list_v2] return the device's entries up to DONE, in order, each with
    its name and metadata, and [stat] and [stat_v2] the one record, with a
    device's errno as the error; what they refuse, a path with a NUL or a
    missing feature, is refused with nothing sent. *)
Theorem lists_and_stats {Ses IoE} `{SessionLaws Ses IoE} fuel ch cap rounds path
    (p : RecvBuf * Ses) :
  SYNC_HEADER_SIZE <= cap → ready fuel ch cap p → (length (input ch p) < rounds)%nat →
  (on_path fuel ch cap path (request SyncId.List path)
     (entries cap rounds SyncId.Dent DENT_V1_SIZE (dent cap) []) p (list_dir rounds fuel ch path p) ∧
   on_path_with fuel ch cap Feature.LsV2 path (request SyncId.Lis2 path)
     (entries cap rounds SyncId.Dnt2 DENT_V2_SIZE (dent_v2 cap) []) p
     (list_v2 rounds fuel ch path p)) ∧
  on_path fuel ch cap path (request SyncId.Stat path) (stat_reply cap) p
    (stat rounds fuel ch path p) ∧
  on_path_with fuel ch cap Feature.StatV2 path (request SyncId.Sta2 path) (stat_v2_reply cap) p
    (stat_v2 rounds fuel ch path p).
Proof. intros Hcap Hr Hn. split; [by apply list_spec|by apply stat_spec]. Qed.

(** ** A sample device *)

(** Acknowledges a write, then answers [answer] in two packets. *)
Definition sync_conn (answer : bytes) : conn Script.script :=
  let fr p := match frame Checksum.Skip p with Ok f => f | Err _ => [] end in
  mkConn
    (mkWire (Script.mkScript
       (fr (mkPacket Command.Ready 8 1 []) ++ fr (mkPacket Command.Ready 8 1 [])
        ++ fr (mkPacket Command.Ready 8 1 []) ++ fr (mkPacket Command.Write 8 1 (ztake 5 answer))
        ++ fr (mkPacket Command.Write 8 1 (zdrop 5 answer)))
       [] [IoOk 30; IoOk 2]) [] false)
    (c_table sample_conn) (c_negotiated sample_conn) [].

#[local] Instance sync_session : Session (conn Script.script) Script.error := conn_session 10.
#[local] Instance sync_laws : SessionLaws (conn Script.script) Script.error :=
  conn_session_laws 10.

(** A session with that device, over a buffer of [cap] bytes. *)
Definition sync_start (cap : nat) (answer : bytes) : RecvBuf * conn Script.script :=
  (recv_buf_new (replicate cap x00), sync_conn answer).

Definition sync_ch : ChannelId := mkChannelId 0 1.

Lemma sync_start_ready cap answer n :
  (length (coming (sync_conn answer)) < 10)%nat →
  (reads_left (sync_conn answer) sync_ch < n)%nat →
  ready n sync_ch (Z.of_nat cap) (sync_start cap answer).
Proof.
  intros Hc Hn. unfold ready, sync_start, capacity, recv_buf_new. cbn [fst snd rb_buf].
  split; [|split; [|split; [|exact Hn]]].
  - split; simpl; [lia|]. apply len_nonneg.
  - unfold len. by rewrite length_replicate.
  - change (conn_fine (IoE := Script.error) 10 (sync_conn answer)). split; [|split; [|exact Hc]].
    + split.
      * intros [|[|i]] [|[|j]] s1 s2 H1 H2; simpl in *; simplify_eq; done.
      * intros [|[|i]] s Hs; simpl in *; simplify_eq; done.
    + intros [|[|i]] s Hs; simpl in *; simplify_eq; done.
Qed.

Definition pull_answer : bytes :=
  request SyncId.Data (bs "hello ") ++ request SyncId.Data (bs "world") ++ message SyncId.Done 0 [].

Lemma recv_pulls_witness :
  let p := sync_start 16 pull_answer in
  fst (recv 100 100 sync_ch (bs "/a") p) = Ret (bs "hello world") ∧
  on_path 100 sync_ch 16 (bs "/a") (request SyncId.Recv (bs "/a")) (pull 16 100 []) p
    (recv 100 100 sync_ch (bs "/a") p).
Proof.
  cbv zeta. assert (ready 100 sync_ch 16 (sync_start 16 pull_answer)) as Hr.
  { apply (sync_start_ready 16); vm_compute; lia. }
  assert (length (input sync_ch (sync_start 16 pull_answer)) < 100)%nat as Hl by (vm_compute; lia).
  split; [vm_compute; reflexivity|].
  exact (proj1 (recv_pulls 100 sync_ch 16 100 (bs "/a") 0 _ ltac:(vm_compute; discriminate) Hr Hl)).
Defined.

Lemma send_pushes_witness :
  let p := sync_start 32 (message SyncId.Okay 0 []) in
  fst (send 100 100 sync_ch (bs "/a,b") 33188 7 (bs "data") p) = Ret tt ∧
  ∃ digits, decimal_val digits = 33188 ∧
    on_path 100 sync_ch 32 (bs "/a,b")
      (request SyncId.Send (bs "/a,b" ++ bs "," ++ digits) ++ push_tail (bs "data") 7)
      (okay_reply 32) p (send 100 100 sync_ch (bs "/a,b") 33188 7 (bs "data") p).
Proof.
  cbv zeta. set (answer := message SyncId.Okay 0 []).
  assert (ready 100 sync_ch 32 (sync_start 32 answer)) as Hr.
  { apply (sync_start_ready 32); vm_compute; lia. }
  assert (length (input sync_ch (sync_start 32 answer)) < 100)%nat as Hl by (vm_compute; lia).
  split; [vm_compute; reflexivity|].
  destruct (send_pushes 100 sync_ch 32 100 (bs "/a,b") 33188 7 0 (bs "data") (sync_start 32 answer)
    ltac:(vm_compute; discriminate) Hr Hl ltac:(unfold is_u32; lia)) as [(ds & Hv & _ & Hp) _].
  exists ds. split; [exact Hv|exact Hp].
Defined.

Lemma lists_and_stats_witness :
  let p := sync_start 24 (sync_id_bytes SyncId.Stat ++ u32_le 33188 ++ u32_le 5 ++ u32_le 9) in
  fst (stat 100 100 sync_ch (bs "/a") p) = Ret (mkStatV1 33188 5 9) ∧
  on_path 100 sync_ch 24 (bs "/a") (request SyncId.Stat (bs "/a")) (stat_reply 24) p
    (stat 100 100 sync_ch (bs "/a") p).
Proof.
  cbv zeta. set (answer := sync_id_bytes SyncId.Stat ++ u32_le 33188 ++ u32_le 5 ++ u32_le 9).
  assert (ready 100 sync_ch 24 (sync_start 24 answer)) as Hr.
  { apply (sync_start_ready 24); vm_compute; lia. }
  assert (length (input sync_ch (sync_start 24 answer)) < 100)%nat as Hl by (vm_compute; lia).
  split; [vm_compute; reflexivity|].
  exact (proj1 (proj2 (lists_and_stats 100 sync_ch 24 100 (bs "/a") _ ltac:(vm_compute; discriminate)
    Hr Hl))).
Defined.
