(* ===== verification/SyncDevice.v ===== *)
(** * The device's end of the sync protocol

    What a device sends and how it reads what it is sent, written down as
    encoders and a reader of whole byte strings, and read back by the parsers of
    [SyncStreams] and from the bytes of a push.  With the theorems there: a
    file, a directory and a record arrive as they were sent. *)

From S2P Require Import Prelude Errors Protocol Text Banner ChannelTable Connection.
From S2P Require Import Config Slot Wire Demux.
From S2P Require Import Destination Session RecvBuf Sync SyncStreams.

(** ** Fields *)

Lemma zslice_skip {A} i j (a b : list A) :
  len a <= i → i <= j → zslice i j (a ++ b) = zslice (i - len a) (j - len a) b.
Proof.
  intros Ha Hij. unfold zslice. rewrite zdrop_app_ge by done. f_equal. lia.
Qed.

Lemma sync_u32_at_skip a b off : len a <= off → u32_at (a ++ b) off = u32_at b (off - len a).
Proof. intros Ha. unfold u32_at. rewrite zslice_skip by lia. do 2 f_equal. lia. Qed.

Lemma u64_at_skip a b off : len a <= off → u64_at (a ++ b) off = u64_at b (off - len a).
Proof. intros Ha. unfold u64_at. rewrite zslice_skip by lia. do 2 f_equal. lia. Qed.

Lemma u32_at_here v b : is_u32 v → u32_at (u32_le v ++ b) 0 = v.
Proof.
  intros Hv. unfold u32_at, zslice. rewrite zdrop_nonpos by lia.
  rewrite ztake_app_len by (rewrite len_u32_le; lia). by apply le_val_u32_le.
Qed.

Definition is_u64 (z : Z) : Prop := 0 <= z < 2 ^ 64.
Definition is_i64 (z : Z) : Prop := - 2 ^ 63 <= z < 2 ^ 63.

Lemma u64_at_here v b : is_u64 v → u64_at (u64_le v ++ b) 0 = v.
Proof.
  intros Hv. unfold u64_at, zslice. rewrite zdrop_nonpos by lia.
  rewrite ztake_app_len by (rewrite len_u64_le; lia).
  with_strategy transparent [u64_le] unfold u64_le. rewrite le_val_le_bytes. by apply Z.mod_small.
Qed.

(** [to_le_bytes] of an [i64]. *)
Definition i64_le (z : Z) : bytes := u64_le (z mod 2 ^ 64).

Lemma i64_at_here v b : is_i64 v → i64_at (i64_le v ++ b) 0 = v.
Proof.
  intros Hv. unfold i64_at, i64_le. unfold is_i64 in Hv.
  rewrite u64_at_here by (apply Z.mod_pos_bound; lia). unfold as_i64.
  destruct (Z.leb_spec 0 v) as [Hp|Hn].
  - rewrite Z.mod_small by lia. destruct (Z.ltb_spec v (2 ^ 63)); lia.
  - replace (v mod 2 ^ 64) with (v + 2 ^ 64)
      by (rewrite <- (Z.mod_add v 1 (2 ^ 64)), Z.mod_small; lia).
    destruct (Z.ltb_spec (v + 2 ^ 64) (2 ^ 63)); lia.
Qed.

Lemma i64_at_skip a b off : len a <= off → i64_at (a ++ b) off = i64_at b (off - len a).
Proof. intros Ha. unfold i64_at. by rewrite u64_at_skip. Qed.

Lemma len_i64_le z : len (i64_le z) = 8.
Proof. apply len_u64_le. Qed.

(** Skip a field of known length, or read the one that is there. *)
Ltac field_len := rewrite ?len_sync_id, ?len_u32_le, ?len_u64_le, ?len_i64_le; lia.
Ltac field :=
  repeat first
    [ rewrite u32_at_here by assumption | rewrite u64_at_here by assumption
    | rewrite i64_at_here by assumption
    | rewrite sync_u32_at_skip by field_len | rewrite u64_at_skip by field_len
    | rewrite i64_at_skip by field_len
    | rewrite len_sync_id | rewrite len_u32_le | rewrite len_u64_le | rewrite len_i64_le
    | progress cbn [Z.sub Z.add Z.opp Z.pos_sub Pos.sub Pos.pred_double Pos.sub_mask] ].

Lemma sync_id_read_back id : sync_id_from_bytes (sync_id_bytes id) = Some id.
Proof. by destruct id; vm_compute. Qed.

(** ** Messages *)

Section Device.
Context {E : Type} (cap : Z) (Hcap : SYNC_HEADER_SIZE <= cap).

(** What [next_id] makes of a message. *)
Lemma next_id_message allowed id rest :
  id ≠ SyncId.Fail → id ∈ allowed → 4 <= len rest →
  next_id (E := E) cap allowed (sync_id_bytes id ++ rest) = Got id (sync_id_bytes id ++ rest).
Proof.
  intros Hnf Hin Hl. unfold next_id, need, SYNC_HEADER_SIZE in *.
  destruct (Z.ltb_spec cap 8); [lia|]. rewrite len_app, len_sync_id.
  destruct (Z.ltb_spec (4 + len rest) 8); [lia|].
  rewrite ztake_app_len by (by rewrite len_sync_id). rewrite sync_id_read_back.
  by destruct id; try done; rewrite bool_decide_true.
Qed.

Lemma next_id_fail allowed msg rest :
  is_u32 (len msg) →
  next_id (E := E) cap allowed (request SyncId.Fail msg ++ rest)
  = Refused (Error.Sync (SyncError.Failed (ztake cap msg))).
Proof.
  intros Hm. unfold request, message, next_id, need, SYNC_HEADER_SIZE in *.
  assert (wrap_u32 (len msg) = len msg) as -> by (by apply Z.mod_small).
  destruct (Z.ltb_spec cap 8); [lia|]. rewrite <- !app_assoc.
  set (inp := sync_id_bytes SyncId.Fail ++ u32_le (len msg) ++ msg ++ rest).
  assert (len inp = 8 + len msg + len rest) as Hl
    by (unfold inp; rewrite !len_app, len_sync_id, len_u32_le; lia).
  assert (u32_at inp 4 = len msg) as Hu by (unfold inp; by field).
  assert (ztake 4 inp = sync_id_bytes SyncId.Fail) as Ht by (by apply ztake_app_len).
  assert (zdrop 8 inp = msg ++ rest) as Hd.
  { unfold inp. rewrite app_assoc. apply zdrop_app_len. rewrite len_app, len_sync_id, len_u32_le. lia. }
  clearbody inp. pose proof (len_nonneg msg). pose proof (len_nonneg rest).
  destruct (Z.ltb_spec (len inp) 8); [lia|]. rewrite Ht, sync_id_read_back, Hu, Hd.
  rewrite len_app. destruct (Z.ltb_spec (len msg + len rest) (len msg)); [lia|].
  rewrite ztake_app_le by lia. destruct (Z.min_spec (len msg) cap) as [[? ->]|[? ->]]; [|done].
  by rewrite !ztake_all by lia.
Qed.

(** ** Files *)

(** A chunk that fits the buffer with its header. *)
Definition chunk_fits (c : bytes) : Prop := is_u32 (len c) ∧ SYNC_HEADER_SIZE + len c <= cap.

Lemma chunk_reply_data c rest :
  chunk_fits c → chunk_reply (E := E) cap (request SyncId.Data c ++ rest) = Got (Some c) rest.
Proof.
  intros [Hc Hfit]. unfold chunk_reply, pbind, request, message.
  assert (wrap_u32 (len c) = len c) as -> by (by apply Z.mod_small).
  rewrite <- !app_assoc, next_id_message; [|done|set_solver|rewrite !len_app, len_u32_le; pose proof (len_nonneg c); pose proof (len_nonneg rest); lia].
  rewrite bool_decide_false by done. unfold SYNC_HEADER_SIZE in *.
  set (inp := sync_id_bytes SyncId.Data ++ u32_le (len c) ++ c ++ rest).
  assert (u32_at inp 4 = len c) as -> by (unfold inp; by field).
  assert (zdrop 8 inp = c ++ rest) as Hd.
  { unfold inp. rewrite app_assoc. apply zdrop_app_len. rewrite len_app, len_sync_id, len_u32_le. lia. }
  assert (len inp = 8 + len c + len rest) as Hl
    by (unfold inp; rewrite !len_app, len_sync_id, len_u32_le; lia).
  clearbody inp. pose proof (len_nonneg c). pose proof (len_nonneg rest). unfold need.
  destruct (Z.ltb_spec cap (8 + len c)); [lia|]. destruct (Z.ltb_spec (len inp) (8 + len c)); [lia|].
  rewrite Hd, ztake_app_len, <- zdrop_zdrop, Hd, zdrop_app_len by lia. done.
Qed.

Lemma chunk_reply_done arg rest :
  chunk_reply (E := E) cap (message SyncId.Done arg [] ++ rest) = Got None rest.
Proof.
  unfold chunk_reply, pbind, message. rewrite <- !app_assoc.
  rewrite next_id_message; [|done|set_solver|rewrite len_app, len_u32_le; pose proof (len_nonneg ([] ++ rest)); lia].
  rewrite bool_decide_true by done. f_equal. rewrite app_assoc. by apply zdrop_app_len.
Qed.

Lemma pull_chunks cs acc rounds rest :
  Forall chunk_fits cs → (length cs <= rounds)%nat →
  pull (E := E) cap rounds acc (data_messages cs ++ rest)
  = pull cap (rounds - length cs) (acc ++ concat cs) rest.
Proof.
  intros Hf. revert acc rounds. induction Hf as [|c cs Hc _ IH]; intros acc rounds Hr.
  - cbn [concat length]. by rewrite app_nil_r, Nat.sub_0_r.
  - cbn [length] in *. destruct rounds as [|rounds]; [lia|]. cbn [pull]. unfold pbind at 1.
    change (data_messages (c :: cs)) with (request SyncId.Data c ++ data_messages cs).
    rewrite <- app_assoc, chunk_reply_data by done. rewrite IH by lia. cbn [concat Nat.sub]. by rewrite app_assoc.
Qed.

(** ** Directories *)

Definition encode_dent (e : DirEntry) : bytes :=
  sync_id_bytes SyncId.Dent ++ u32_le (de_mode e) ++ u32_le (de_size e) ++ u32_le (de_mtime e)
  ++ u32_le (len (de_name e)) ++ de_name e.

Definition encode_stat (st : StatV2) : bytes :=
  u32_le (v2_error st) ++ u64_le (v2_dev st) ++ u64_le (v2_ino st) ++ u32_le (v2_mode st)
  ++ u32_le (v2_nlink st) ++ u32_le (v2_uid st) ++ u32_le (v2_gid st) ++ u64_le (v2_size st)
  ++ i64_le (v2_atime st) ++ i64_le (v2_mtime st) ++ i64_le (v2_ctime st).

Definition encode_dent_v2 (e : DirEntryV2) : bytes :=
  sync_id_bytes SyncId.Dnt2 ++ encode_stat (de2_stat e) ++ u32_le (len (de2_name e)) ++ de2_name e.

(** The record a listing ends in: DONE, and a header's worth of anything. *)
Definition done_record (pad : bytes) : bytes := sync_id_bytes SyncId.Done ++ pad.

Definition dent_ok (e : DirEntry) : Prop :=
  is_u32 (de_mode e) ∧ is_u32 (de_size e) ∧ is_u32 (de_mtime e) ∧ is_u32 (len (de_name e)) ∧
  len (de_name e) <= cap.

Definition stat_ok (st : StatV2) : Prop :=
  (is_u32 (v2_error st) ∧ is_u64 (v2_dev st) ∧ is_u64 (v2_ino st) ∧ is_u32 (v2_mode st)) ∧
  (is_u32 (v2_nlink st) ∧ is_u32 (v2_uid st) ∧ is_u32 (v2_gid st) ∧ is_u64 (v2_size st)) ∧
  is_i64 (v2_atime st) ∧ is_i64 (v2_mtime st) ∧ is_i64 (v2_ctime st).

Definition dent_v2_ok (e : DirEntryV2) : Prop :=
  stat_ok (de2_stat e) ∧ is_u32 (len (de2_name e)) ∧ len (de2_name e) <= cap.

Lemma len_encode_stat st : len (encode_stat st) = STAT_V2_BODY_SIZE.
Proof. unfold encode_stat. rewrite !len_app, ?len_u32_le, ?len_u64_le, ?len_i64_le. done. Qed.

(** A record is read where it starts. *)
Lemma record_here {A} n (f : bytes → A) b rest :
  0 <= n <= cap → len b = n → record (E := E) cap n f (b ++ rest) = Got (f (b ++ rest)) rest.
Proof.
  intros Hn Hb. unfold record, need. destruct (Z.ltb_spec cap n); [lia|].
  rewrite len_app. pose proof (len_nonneg rest).
  destruct (Z.ltb_spec (len b + len rest) n); [lia|]. by rewrite zdrop_app_len.
Qed.

Lemma stat_body_read_back st rest :
  stat_ok st → parse_stat_v2_body (encode_stat st ++ rest) = st.
Proof.
  intros ((? & ? & ? & ?) & (? & ? & ? & ?) & ? & ? & ?). destruct st. simpl in *.
  unfold parse_stat_v2_body, encode_stat. simpl. rewrite <- !app_assoc. f_equal; by field.
Qed.

Lemma stat_at_read_back id st rest :
  stat_ok st → stat_v2_at (sync_id_bytes id ++ encode_stat st ++ rest) = st.
Proof.
  intros Hst. unfold stat_v2_at. rewrite app_assoc.
  rewrite ztake_app_len by (rewrite len_app, len_sync_id, len_encode_stat; done).
  rewrite zdrop_app_len by (by rewrite len_sync_id). rewrite <- (app_nil_r (encode_stat st)).
  by apply stat_body_read_back.
Qed.

Lemma dent_read_back e rest :
  DENT_V1_SIZE <= cap → dent_ok e → dent (E := E) cap (encode_dent e ++ rest) = Got e rest.
Proof.
  unfold DENT_V1_SIZE. intros Hc (H1 & H2 & H3 & H4 & Hfit). destruct e as [name mode size mtime].
  cbn [de_name de_mode de_size de_mtime] in *. unfold dent, encode_dent, pbind, DENT_V1_SIZE.
  cbn [de_name de_mode de_size de_mtime].
  set (hdr := sync_id_bytes SyncId.Dent ++ u32_le mode ++ u32_le size ++ u32_le mtime
              ++ u32_le (len name)).
  assert (len hdr = 20) as Hh by (unfold hdr; rewrite !len_app, len_sync_id, !len_u32_le; done).
  replace ((sync_id_bytes SyncId.Dent ++ u32_le mode ++ u32_le size ++ u32_le mtime
    ++ u32_le (len name) ++ name) ++ rest) with (hdr ++ name ++ rest)
    by (unfold hdr; by rewrite <- !app_assoc).
  rewrite record_here by lia. pose proof (len_nonneg name).
  assert (dent_at (hdr ++ name ++ rest) = (mode, size, mtime, len name)) as ->.
  { unfold dent_at, hdr. rewrite <- !app_assoc. repeat f_equal; by field. }
  rewrite record_here by lia. by rewrite ztake_app_len.
Qed.

Lemma dent_v2_read_back e rest :
  DENT_V2_SIZE <= cap → dent_v2_ok e → dent_v2 (E := E) cap (encode_dent_v2 e ++ rest) = Got e rest.
Proof.
  unfold DENT_V2_SIZE. intros Hc (Hst & H4 & Hfit). destruct e as [name st].
  cbn [de2_name de2_stat] in *. unfold dent_v2, encode_dent_v2, pbind, DENT_V2_SIZE.
  cbn [de2_name de2_stat].
  pose proof (len_encode_stat st) as Hs. unfold STAT_V2_BODY_SIZE, STAT_V2_SIZE in Hs. simpl in Hs.
  set (hdr := sync_id_bytes SyncId.Dnt2 ++ encode_stat st ++ u32_le (len name)).
  assert (len hdr = 76) as Hh by (unfold hdr; rewrite !len_app, len_sync_id, len_u32_le; lia).
  replace ((sync_id_bytes SyncId.Dnt2 ++ encode_stat st ++ u32_le (len name) ++ name) ++ rest)
    with (hdr ++ name ++ rest) by (unfold hdr; by rewrite <- !app_assoc).
  rewrite record_here by lia. pose proof (len_nonneg name).
  assert (stat_v2_at (hdr ++ name ++ rest) = st) as ->
    by (unfold hdr; rewrite <- !app_assoc; by apply stat_at_read_back).
  assert (u32_at (hdr ++ name ++ rest) 72 = len name) as Hu.
  { unfold hdr. rewrite <- !app_assoc. rewrite sync_u32_at_skip by (rewrite len_sync_id; lia).
    rewrite sync_u32_at_skip by (rewrite len_sync_id; lia). rewrite len_sync_id, Hs.
    by apply u32_at_here. }
  cbn [fst snd]. rewrite Hu. rewrite record_here by lia. by rewrite ztake_app_len.
Qed.

(** Encoded entries, one after another, up to the record that ends them. *)
Lemma entries_read_back {A} id size (entry : parser (Error E) A) (enc : A → bytes) ok es acc rounds
    pad rest :
  (∀ e, ∃ b, enc e = sync_id_bytes id ++ b ∧ 4 <= len b) → id ≠ SyncId.Fail → id ≠ SyncId.Done →
  (∀ e rest, ok e → entry (enc e ++ rest) = Got e rest) → Forall ok es → (length es < rounds)%nat →
  8 <= size <= cap → len (done_record pad) = size →
  entries (E := E) cap rounds id size entry acc (concat (enc <$> es) ++ done_record pad ++ rest)
  = Got (acc ++ es) rest.
Proof.
  intros Henc Hnf Hnd Hentry Hf. revert acc rounds. induction Hf as [|e es He _ IH];
    intros acc rounds Hr Hs Hp; (destruct rounds as [|rounds]; [simpl in Hr; lia|]);
    cbn [entries]; unfold pbind at 1.
  - cbn [fmap list_fmap concat]. rewrite app_nil_l. pose proof Hp as Hp'. unfold done_record in Hp' |- *.
    rewrite len_app, len_sync_id in Hp'. pose proof (len_nonneg rest).
    rewrite <- app_assoc, next_id_message; [|done|set_solver|rewrite len_app; lia].
    rewrite bool_decide_true by done. rewrite app_assoc. fold (done_record pad).
    rewrite record_here by lia. by rewrite app_nil_r.
  - destruct (Henc e) as (b & Hb & Hlb). cbn [fmap list_fmap concat]. rewrite <- app_assoc.
    set (more := concat (enc <$> es) ++ done_record pad ++ rest).
    assert (next_id (E := E) cap [id; SyncId.Done] (enc e ++ more) = Got id (enc e ++ more)) as ->.
    { rewrite Hb, <- app_assoc. apply next_id_message; [done|set_solver|].
      rewrite len_app. pose proof (len_nonneg more). lia. }
    rewrite bool_decide_false by done. unfold pbind. rewrite Hentry by done.
    unfold more. rewrite IH by (simpl in Hr; lia). by rewrite <- app_assoc.
Qed.

(** ** Pushes *)

(** A header as the device reads it: the id, the argument and what follows. *)
Definition device_header (inp : bytes) : option (SyncId * Z * bytes) :=
  if len inp <? 8 then None
  else id ← sync_id_from_bytes (ztake 4 inp); Some (id, u32_at inp 4, zdrop 8 inp).

(** DATA messages of at most 64 KiB up to DONE. *)
Fixpoint device_data (fuel : nat) (acc inp : bytes) : option (bytes * Z * bytes) :=
  match fuel with
  | O => None
  | S fuel =>
      x ← device_header inp;
      let '(id, n, rest) := x in
      match id with
      | SyncId.Data =>
          if (SYNC_DATA_MAX <? n) || (len rest <? n) then None
          else device_data fuel (acc ++ ztake n rest) (zdrop n rest)
      | SyncId.Done => Some (acc, n, rest)
      | _ => None
      end
  end.

Record pushed : Type := mkPush {
  pu_path : bytes; pu_mode : Z; pu_flags : Z; pu_data : bytes; pu_mtime : Z; pu_rest : bytes;
}.

(** SEND: the path and the mode, apart at the last comma. *)
Definition device_send (inp : bytes) : option pushed :=
  x ← device_header inp;
  let '(id, n, rest) := x in
  if negb (bool_decide (id = SyncId.Send)) || (len rest <? n) then None
  else
    '(path, mode) ← rsplit_once ","%byte (ztake n rest);
    '(data, mtime, rest) ← device_data (length inp) [] (zdrop n rest);
    Some (mkPush path (decimal_val mode) 0 data mtime rest).

(** SND2: the path, then a second record with the mode and the flags. *)
Definition device_snd2 (inp : bytes) : option pushed :=
  x ← device_header inp;
  let '(id, n, rest) := x in
  if negb (bool_decide (id = SyncId.Snd2)) || (len rest <? n) then None
  else
    y ← device_header (zdrop n rest);
    let '(id, mode, more) := y in
    if negb (bool_decide (id = SyncId.Snd2)) || (len more <? 4) then None
    else
      '(data, mtime, rest') ← device_data (length inp) [] (zdrop 4 more);
      Some (mkPush (ztake n rest) mode (u32_at more 0) data mtime rest').

Lemma device_header_message id arg rest :
  is_u32 arg → device_header (message id arg rest) = Some (id, arg, rest).
Proof.
  intros Ha. unfold device_header, message. rewrite !len_app, len_sync_id, len_u32_le.
  pose proof (len_nonneg rest). destruct (Z.ltb_spec (4 + (4 + len rest)) 8); [lia|].
  rewrite ztake_app_len by (by rewrite len_sync_id). rewrite sync_id_read_back. simpl mbind.
  unfold mbind, option_bind. do 2 f_equal.
  - f_equal. by field.
  - rewrite app_assoc. apply zdrop_app_len. rewrite len_app, len_sync_id, len_u32_le. lia.
Qed.

Lemma message_app id arg body rest : message id arg body ++ rest = message id arg (body ++ rest).
Proof. unfold message. by rewrite <- !app_assoc. Qed.

Lemma chunks_loop_spec fuel n data :
  0 < n → (length data <= fuel)%nat →
  concat (chunks_loop fuel n data) = data ∧ Forall (λ c, 0 < len c <= n) (chunks_loop fuel n data) ∧
  (length (chunks_loop fuel n data) <= length data)%nat.
Proof.
  intros Hn. revert data. induction fuel as [|fuel IH]; intros [|b data] Hl; try (split_and!; (done || lia)).
  - simpl in Hl. lia.
  - cbn [chunks_loop]. set (d := b :: data) in *.
    assert (0 < len d) as Hd by (unfold d; zlen).
    assert (length (zdrop n d) < length d)%nat as Hs
      by (rewrite zdrop_drop, length_drop; unfold len in Hd; lia).
    destruct (IH (zdrop n d)) as (Hc & Hf & Hk); [lia|]. cbn [concat length]. split; [|split].
    + by rewrite Hc, ztake_zdrop.
    + constructor; [rewrite len_ztake; lia|done].
    + lia.
Qed.

Lemma device_data_chunks cs acc fuel mtime rest :
  Forall (λ c, 0 < len c <= SYNC_DATA_MAX) cs → is_u32 mtime → (length cs < fuel)%nat →
  device_data fuel acc (data_messages cs ++ (sync_id_bytes SyncId.Done ++ u32_le mtime) ++ rest)
  = Some (acc ++ concat cs, mtime, rest).
Proof.
  intros Hf Hm. revert acc fuel. induction Hf as [|c cs Hc _ IH]; intros acc fuel Hl;
    (destruct fuel as [|fuel]; [cbn [length] in Hl; lia|]); cbn [device_data].
  - cbn [data_messages fmap list_fmap concat]. rewrite app_nil_l, <- app_assoc.
    fold (message SyncId.Done mtime rest). rewrite device_header_message by done.
    cbn [mbind option_bind concat]. by rewrite app_nil_r.
  - change (data_messages (c :: cs)) with (request SyncId.Data c ++ data_messages cs).
    assert (is_u32 (len c)) as Hu by (unfold is_u32, SYNC_DATA_MAX in *; lia).
    unfold request. assert (wrap_u32 (len c) = len c) as -> by (by apply Z.mod_small).
    rewrite <- app_assoc, message_app, device_header_message by done. cbn [mbind option_bind].
    set (more := data_messages cs ++ _). rewrite len_app. pose proof (len_nonneg more).
    destruct (Z.ltb_spec SYNC_DATA_MAX (len c)); [lia|].
    destruct (Z.ltb_spec (len c + len more) (len c)); [lia|]. cbn [orb].
    rewrite ztake_app_len, zdrop_app_len by done. unfold more.
    rewrite IH by (cbn [length] in Hl; lia). by rewrite <- app_assoc.
Qed.

Lemma rsplit_once_none c l : c ∉ l → rsplit_once c l = None.
Proof.
  induction l as [|b l IH]; [done|]. rewrite not_elem_of_cons. intros [Hb Hl]. simpl.
  rewrite IH by done. by assert (eqb c b = false) as -> by (apply eqb_false; congruence).
Qed.

Lemma rsplit_once_last c x y : c ∉ y → rsplit_once c (x ++ c :: y) = Some (x, y).
Proof.
  intros Hy. induction x as [|b x IH]; simpl; [|by rewrite IH].
  rewrite rsplit_once_none by done. by assert (eqb c c = true) as -> by (by apply eqb_true).
Qed.

Lemma device_tail data mtime fuel :
  is_u32 mtime → (length data < fuel)%nat →
  device_data fuel [] (push_tail data mtime) = Some (data, mtime, []).
Proof.
  intros Hm Hf. unfold push_tail, chunks.
  destruct (chunks_loop_spec (length data) SYNC_DATA_MAX data) as (Hc & Hs & Hl); [done|lia|].
  rewrite <- (app_nil_r (sync_id_bytes SyncId.Done ++ u32_le mtime)).
  rewrite device_data_chunks by (done || lia). by rewrite Hc.
Qed.

Lemma length_push_tail data mtime : (length data < length (push_tail data mtime))%nat.
Proof.
  unfold push_tail, chunks.
  destruct (chunks_loop_spec (length data) SYNC_DATA_MAX data) as (Hc & _ & _); [done|lia|].
  set (cs := chunks_loop (length data) SYNC_DATA_MAX data) in *.
  assert (length (concat cs) <= length (data_messages cs))%nat as Hle.
  { clear Hc. induction cs as [|c cs IH]; [done|].
    change (data_messages (c :: cs)) with (request SyncId.Data c ++ data_messages cs).
    cbn [concat]. unfold request, message. rewrite !length_app. lia. }
  rewrite Hc in Hle. rewrite !length_app. simpl. lia.
Qed.

Lemma digits_no_comma digits : Forall (λ d, is_digit d) digits → ","%byte ∉ digits.
Proof.
  intros Hd Hin. rewrite Forall_forall in Hd. specialize (Hd _ Hin). by vm_compute in Hd.
Qed.
End Device.

(** files and failures are read back.  The parser of a pull turns DATA
    messages whose chunks fit the buffer, and DONE, into the chunks' bytes in
    order, and leaves what follows; a FAIL anywhere among them into its text,
    as much as the buffer holds; and a chunk that does not fit into
    [ReceiveBufferFull]. *)
Theorem files_read_back {E} cap rounds cs arg msg big rest :
  SYNC_HEADER_SIZE <= cap → Forall (chunk_fits cap) cs → (length cs < rounds)%nat →
  is_u32 (len msg) → is_u32 (len big) → cap < SYNC_HEADER_SIZE + len big →
  pull (E := E) cap rounds [] (data_messages cs ++ message SyncId.Done arg [] ++ rest)
    = Got (concat cs) rest ∧
  pull (E := E) cap rounds [] (data_messages cs ++ request SyncId.Fail msg ++ rest)
    = Refused (Error.Sync (SyncError.Failed (ztake cap msg))) ∧
  pull (E := E) cap rounds [] (data_messages cs ++ request SyncId.Data big ++ rest)
    = Refused Error.ReceiveBufferFull.
Proof.
  intros Hcap Hf Hr Hm Hb Hbig. rewrite !pull_chunks by (done || lia).
  destruct (rounds - length cs)%nat as [|n] eqn:Hn; [lia|]. cbn [pull]. unfold pbind.
  split_and!.
  - by rewrite chunk_reply_done.
  - unfold chunk_reply at 1, pbind at 1. by rewrite next_id_fail.
  - unfold chunk_reply at 1, pbind at 1, request, message.
    assert (wrap_u32 (len big) = len big) as -> by (by apply Z.mod_small).
    rewrite <- !app_assoc, next_id_message; [|done|done|set_solver|].
    2: { rewrite !len_app, len_u32_le. pose proof (len_nonneg big). pose proof (len_nonneg rest). lia. }
    rewrite bool_decide_false by done.
    assert (u32_at (sync_id_bytes SyncId.Data ++ u32_le (len big) ++ big ++ rest) 4 = len big) as ->
      by (by field).
    unfold need. by destruct (Z.ltb_spec cap (SYNC_HEADER_SIZE + len big)); [|lia].
Qed.

(** directories and records are read back.  What the parsers of [list] and
    [list_v2] make of encoded entries is the entries, in order, with every
    field (the 64-bit times signed) and the whole name, and what follows the
    record that ends them is left; a [stat_v2] record comes back as it was, or
    as its errno. *)
Theorem listings_read_back {E} cap rounds es es2 st pad pad2 rest :
  DENT_V2_SIZE <= cap → Forall (dent_ok cap) es → Forall (dent_v2_ok cap) es2 → stat_ok st →
  (length es < rounds)%nat → (length es2 < rounds)%nat → len pad = 16 → len pad2 = 72 →
  entries (E := E) cap rounds SyncId.Dent DENT_V1_SIZE (dent cap) []
    (concat (encode_dent <$> es) ++ done_record pad ++ rest) = Got es rest ∧
  entries (E := E) cap rounds SyncId.Dnt2 DENT_V2_SIZE (dent_v2 cap) []
    (concat (encode_dent_v2 <$> es2) ++ done_record pad2 ++ rest) = Got es2 rest ∧
  stat_v2_reply (E := E) cap (sync_id_bytes SyncId.Sta2 ++ encode_stat st ++ rest)
    = if v2_error st =? 0 then Got st rest
      else Refused (Error.Sync (SyncError.RemoteErrno (v2_error st))).
Proof.
  unfold DENT_V2_SIZE. intros Hcap He He2 Hst Hr Hr2 Hp Hp2.
  assert (SYNC_HEADER_SIZE <= cap) as Hc by (unfold SYNC_HEADER_SIZE; lia).
  assert (∀ pad, len (done_record pad) = 4 + len pad) as Hd
    by (intros q; unfold done_record; by rewrite len_app, len_sync_id).
  split_and!.
  - eapply (entries_read_back cap Hc _ _ _ _ (dent_ok cap) es []); try done.
    + intros e. eexists. split; [done|]. rewrite !len_app, !len_u32_le.
      pose proof (len_nonneg (de_name e)). lia.
    + intros e q Hok. apply dent_read_back; [unfold DENT_V1_SIZE; lia|done].
    + unfold DENT_V1_SIZE. lia.
    + by rewrite Hd, Hp.
  - eapply (entries_read_back cap Hc _ _ _ _ (dent_v2_ok cap) es2 []); try done.
    + intros e. eexists. split; [done|]. rewrite !len_app, len_encode_stat, len_u32_le.
      unfold STAT_V2_BODY_SIZE, STAT_V2_SIZE. pose proof (len_nonneg (de2_name e)). lia.
    + intros e q Hok. apply dent_v2_read_back; [unfold DENT_V2_SIZE; lia|done].
    + by rewrite Hd, Hp2.
  - unfold stat_v2_reply, pbind at 1. pose proof (len_encode_stat st) as Hs.
    rewrite next_id_message; [|done|done|set_solver|].
    2: { rewrite len_app, Hs. unfold STAT_V2_BODY_SIZE, STAT_V2_SIZE. pose proof (len_nonneg rest). lia. }
    unfold pbind. rewrite app_assoc, record_here.
    + rewrite <- app_assoc, stat_at_read_back by done. done.
    + unfold STAT_V2_SIZE. lia.
    + rewrite len_app, len_sync_id, Hs. done.
Qed.

(** pushes are read back.  A device that reads the bytes of a push (path
    and mode apart at the last comma for SEND, from the second record for SND2,
    DATA of at most 64 KiB up to DONE) finds the path, commas included, the
    mode, the flags, the data and the time that were given, and nothing behind
    them. *)
Theorem pushes_read_back path mode digits mtime flags data :
  is_u32 (len (path ++ bs "," ++ digits)) → Forall (λ d, is_digit d) digits →
  is_u32 mode → is_u32 mtime → is_u32 flags →
  device_send (request SyncId.Send (path ++ bs "," ++ digits) ++ push_tail data mtime)
    = Some (mkPush path (decimal_val digits) 0 data mtime []) ∧
  device_snd2 (message SyncId.Snd2 (wrap_u32 (len path))
      (path ++ bs "SND2" ++ u32_le mode ++ u32_le flags) ++ push_tail data mtime)
    = Some (mkPush path mode flags data mtime []).
Proof.
  intros Hl Hd Hmo Hmt Hfl. pose proof (length_push_tail data mtime) as Hlen.
  assert (is_u32 (len path)) as Hp.
  { unfold is_u32 in *. rewrite !len_app in Hl. pose proof (len_nonneg path).
    pose proof (len_nonneg (bs ",")). pose proof (len_nonneg digits). lia. }
  split.
  - unfold request. assert (wrap_u32 (len (path ++ bs "," ++ digits)) = len (path ++ bs "," ++ digits))
      as -> by (by apply Z.mod_small).
    unfold device_send. rewrite message_app, device_header_message by done.
    cbn [mbind option_bind]. rewrite bool_decide_true by done. cbn [negb orb].
    set (spec := path ++ bs "," ++ digits) in *. rewrite len_app. pose proof (len_nonneg (push_tail data mtime)).
    destruct (Z.ltb_spec (len spec + len (push_tail data mtime)) (len spec)); [lia|].
    rewrite ztake_app_len, zdrop_app_len by done.
    assert (rsplit_once ","%byte spec = Some (path, digits)) as ->
      by (apply rsplit_once_last, digits_no_comma, Hd).
    cbn [mbind option_bind]. rewrite device_tail; [done|done|].
    unfold message. rewrite !length_app. lia.
  - assert (wrap_u32 (len path) = len path) as -> by (by apply Z.mod_small).
    unfold device_snd2. rewrite message_app, device_header_message by done.
    cbn [mbind option_bind]. rewrite bool_decide_true by done. cbn [negb orb]. rewrite <- !app_assoc.
    set (more := bs "SND2" ++ _). rewrite len_app. pose proof (len_nonneg more).
    destruct (Z.ltb_spec (len path + len more) (len path)); [lia|].
    rewrite ztake_app_len, zdrop_app_len by done.
    assert (more = message SyncId.Snd2 mode (u32_le flags ++ push_tail data mtime)) as -> by done.
    rewrite device_header_message by done. cbn [mbind option_bind].
    rewrite bool_decide_true by done. cbn [negb orb]. rewrite len_app, len_u32_le.
    pose proof (len_nonneg (push_tail data mtime)).
    destruct (Z.ltb_spec (4 + len (push_tail data mtime)) 4); [lia|].
    rewrite zdrop_app_len, u32_at_here by (by rewrite ?len_u32_le).
    rewrite device_tail; [done|done|]. unfold message. rewrite !length_app. lia.
Qed.

(** ** Samples *)

Definition sample_stat : StatV2 :=
  mkStatV2 0 66306 42 33188 1 1000 1000 4096 (-1) 1700000001 1700000002.

Lemma sample_stat_ok : stat_ok sample_stat.
Proof. unfold stat_ok, is_u32, is_u64, is_i64, sample_stat. simpl. lia. Qed.

Lemma files_read_back_witness :
  pull (E := unit) 16 5 []
    (data_messages [bs "hello "; bs "world"] ++ message SyncId.Done 0 [] ++ bs "next")
    = Got (bs "hello world") (bs "next") ∧
  pull (E := unit) 16 5 []
    (data_messages [bs "hello "; bs "world"] ++ request SyncId.Fail (bs "no such file or so") ++ bs "next")
    = Refused (Error.Sync (SyncError.Failed (bs "no such file or "))).
Proof.
  assert (Forall (chunk_fits 16) [bs "hello "; bs "world"]) as Hf.
  { repeat constructor; vm_compute; discriminate. }
  destruct (files_read_back (E := unit) 16 5 [bs "hello "; bs "world"] 0
    (bs "no such file or so") (bs "123456789") (bs "next")) as (H1 & H2 & _);
    [vm_compute; discriminate|exact Hf|vm_compute; lia|split; vm_compute; [discriminate|reflexivity]
    |split; vm_compute; [discriminate|reflexivity]|vm_compute; reflexivity|].
  split; [exact H1|exact H2].
Defined.

Lemma listings_read_back_witness :
  entries (E := unit) 100 5 SyncId.Dent DENT_V1_SIZE (dent 100) []
    (concat (encode_dent <$> [mkDirEntry (bs "file") 33188 5 9]) ++ done_record (replicate 16 x00)
     ++ bs "next") = Got [mkDirEntry (bs "file") 33188 5 9] (bs "next") ∧
  entries (E := unit) 100 5 SyncId.Dnt2 DENT_V2_SIZE (dent_v2 100) []
    (concat (encode_dent_v2 <$> [mkDirEntryV2 (bs "file") sample_stat])
     ++ done_record (replicate 72 x00) ++ bs "next")
    = Got [mkDirEntryV2 (bs "file") sample_stat] (bs "next").
Proof.
  destruct (listings_read_back (E := unit) 100 5 [mkDirEntry (bs "file") 33188 5 9]
    [mkDirEntryV2 (bs "file") sample_stat] sample_stat (replicate 16 x00) (replicate 72 x00)
    (bs "next")) as (H1 & H2 & _);
    [vm_compute; discriminate| | |exact sample_stat_ok|vm_compute; lia|vm_compute; lia|reflexivity
    |reflexivity|].
  - repeat constructor; vm_compute; discriminate.
  - apply Forall_singleton. split; [exact sample_stat_ok|].
    split; [split; vm_compute; [discriminate|reflexivity]|vm_compute; discriminate].
  - split; [exact H1|exact H2].
Defined.

Lemma pushes_read_back_witness :
  device_send (request SyncId.Send (bs "/a,b" ++ bs "," ++ bs "33188") ++ push_tail (bs "data") 7)
    = Some (mkPush (bs "/a,b") 33188 0 (bs "data") 7 []).
Proof.
  apply (pushes_read_back (bs "/a,b") 33188 (bs "33188") 7 0 (bs "data"));
    [split; vm_compute; [discriminate|reflexivity]|repeat constructor
    |unfold is_u32; lia|unfold is_u32; lia|unfold is_u32; lia].
Defined.
