(* ===== verification/Task.v ===== *)
(** * Concurrent calls

    The calls on a split connection run at once and over shared state.  A
    [task] is one such call: it has ended, or it takes a step on the shared
    state and goes on.  A step is what runs without another thread in between
    (a critical section, an atomic load or store, a write by the holder of the
    write half).  Where the environment decides how a step comes out, a number
    stands for its choice; a step that cannot be taken in a state ([None]) is
    a call that waits.

    At a suspension point, an [.await] that is pending, the caller may drop
    the call: [dropped] is what still runs then, the destructors of its
    guards, and ends as [Dropped].

    [safe] is the logic for such calls: with an invariant over the state and
    the tokens all calls own together, a call is safe if each of its steps
    keeps the invariant while it trades its own tokens, whatever the others
    own, and if what runs after a drop does so too.  Safe calls can be
    composed and put in a pool, and the invariant then holds in every state
    any interleaving reaches ([pool_steps]). *)

From stdpp Require Import relations.
From S2P Require Import Prelude.

#[warnings="-register-all"]
Inductive task (St E A : Type) : Type :=
| TDone (o : outcome E A)
| TStep (dropped : option (task St E A)) (go : nat → St → option (task St E A * St)).
Arguments TDone {St E A} o.
Arguments TStep {St E A} dropped go.

Section Tasks.
Context {St E : Type}.

(** Induction over what a task may become. *)
Lemma task_induction {A} (P : task St E A → Prop) :
  (∀ o, P (TDone o)) →
  (∀ dr go, (∀ d, dr = Some d → P d) → (∀ n s t' s', go n s = Some (t', s') → P t') →
    P (TStep dr go)) →
  ∀ t, P t.
Proof.
  intros Hd Hs.
  refine (fix IH t := match t with TDone o => Hd o | TStep dr go => Hs dr go _ _ end).
  - refine (match dr as x return ∀ d, x = Some d → P d with
            | Some d0 => λ d e, _ | None => λ d e, ltac:(discriminate e) end).
    refine (match e in _ = y return match y with Some d => P d | None => True end with
            | eq_refl => IH d0 end).
  - intros n s t' s'.
    refine (match go n s as x return x = Some (t', s') → P t' with
            | Some (t0, s0) => λ e, _ | None => λ e, ltac:(discriminate e) end).
    refine (match e in _ = y return match y with Some (t, _) => P t | None => True end with
            | eq_refl => IH t0 end).
Qed.

#[global] Instance task_ret : MRet (task St E) := λ A a, TDone (Ret a).

Fixpoint task_bind_fix {A B} (k : A → task St E B) (t : task St E A) : task St E B :=
  match t with
  | TDone (Ret a) => k a
  | TDone (Fail e) => TDone (Fail e)
  | TDone Dropped => TDone Dropped
  | TDone Panicked => TDone Panicked
  | TDone NoFuel => TDone NoFuel
  | TStep dr go =>
      TStep (match dr with Some d => Some (task_bind_fix k d) | None => None end)
            (λ n s, match go n s with
                    | Some (t', s') => Some (task_bind_fix k t', s')
                    | None => None
                    end)
  end.
#[global] Instance task_bind : MBind (task St E) := @task_bind_fix.

(** One step that cannot wait: a sequential program run without interruption. *)
Definition act {A} (m : prog St E A) : task St E A :=
  TStep None (λ _ s, Some (TDone (fst (m s)), snd (m s))).

(** An atomic load. *)
Definition load {A} (f : St → A) : task St E A := act (gets f).

(** A suspension point: the call waits until [ready], then takes its step. *)
Definition wait {A} (ready : St → bool) (m : prog St E A) : task St E A :=
  TStep (Some (TDone Dropped))
    (λ _ s, if ready s then Some (TDone (fst (m s)), snd (m s)) else None).

Definition tfail {A} (e : E) : task St E A := TDone (Fail e).
Definition no_fuel {A} : task St E A := TDone NoFuel.

(** A guard's scope: its destructor runs on every way out, and may depend on
    which one that is. *)
Fixpoint finally {A} (fin : outcome E A → task St E unit) (t : task St E A) : task St E A :=
  match t with
  | TDone o => fin o ≫= λ _, TDone o
  | TStep dr go =>
      TStep (match dr with Some d => Some (finally fin d) | None => None end)
            (λ n s, match go n s with
                    | Some (t', s') => Some (finally fin t', s')
                    | None => None
                    end)
  end.

(** A call's error taken as a value: [let r = call.await;]. *)
Fixpoint attempt {A} (t : task St E A) : task St E (result E A) :=
  match t with
  | TDone (Ret a) => TDone (Ret (Ok a))
  | TDone (Fail e) => TDone (Ret (Err e))
  | TDone Dropped => TDone Dropped
  | TDone Panicked => TDone Panicked
  | TDone NoFuel => TDone NoFuel
  | TStep dr go =>
      TStep (match dr with Some d => Some (attempt d) | None => None end)
            (λ n s, match go n s with
                    | Some (t', s') => Some (attempt t', s')
                    | None => None
                    end)
  end.

(** What runs of a call that a race has dropped, then the race's result. *)
Fixpoint cut {A B} (b : B) (t : task St E A) : task St E B :=
  match t with
  | TDone _ => TDone (Ret b)
  | TStep dr go =>
      TStep (match dr with Some d => Some (cut b d) | None => None end)
            (λ n s, match go n s with
                    | Some (t', s') => Some (cut b t', s')
                    | None => None
                    end)
  end.

(** The race of [Shared::until]: the work goes on, or, where it is suspended
    and [over] holds, it is dropped (choice 0).  Work whose write was dropped
    under it was dropped by the race or by the caller of both. *)
Fixpoint racing {A} (over : St → bool) (t : task St E A) : task St E (option A) :=
  match t with
  | TDone (Ret a) => TDone (Ret (Some a))
  | TDone (Fail e) => TDone (Fail e)
  | TDone Dropped =>
      TStep None (λ n s, match n with
                         | O => if over s then Some (TDone (Ret None), s) else None
                         | S _ => Some (TDone Dropped, s)
                         end)
  | TDone Panicked => TDone Panicked
  | TDone NoFuel => TDone NoFuel
  | TStep dr go =>
      TStep (match dr with Some d => Some (racing (λ _, false) d) | None => None end)
            (λ n s,
               match n with
               | O => match dr with
                      | Some d => if over s then Some (cut None d, s) else None
                      | None => None
                      end
               | S n => match go n s with
                        | Some (t', s') => Some (racing over t', s')
                        | None => None
                        end
               end)
  end.

(** ** Pools *)

(** A step of one call among many, or the drop of one that is suspended. *)
Inductive moves {A} : list (task St E A) * St → list (task St E A) * St → Prop :=
| move_go i ts dr go n t' s s' :
    ts !! i = Some (TStep dr go) → go n s = Some (t', s') → moves (ts, s) (<[i := t']> ts, s')
| move_drop i ts d go s :
    ts !! i = Some (TStep (Some d) go) → moves (ts, s) (<[i := d]> ts, s).

(** A schedule names the call that moves and the choice, or drops it. *)
Definition move_with {A} (m : nat * option nat) (p : list (task St E A) * St) :
    option (list (task St E A) * St) :=
  match fst p !! fst m with
  | Some (TStep dr go) =>
      match snd m with
      | Some n => '(t', s') ← go n (snd p); Some (<[fst m := t']> (fst p), s')
      | None => d ← dr; Some (<[fst m := d]> (fst p), snd p)
      end
  | _ => None
  end.

Fixpoint follow {A} (ms : list (nat * option nat)) (p : list (task St E A) * St) :
    option (list (task St E A) * St) :=
  match ms with
  | [] => Some p
  | m :: ms => p' ← move_with m p; follow ms p'
  end.

Lemma move_with_moves {A} m (p p' : list (task St E A) * St) :
  move_with m p = Some p' → moves p p'.
Proof.
  destruct p as [ts s], m as [i [n|]]; unfold move_with; simpl.
  - destruct (ts !! i) as [[|dr go]|] eqn:Hi; [done| |done].
    destruct (go n s) as [[t' s']|] eqn:Hg; [|done]. intros [= <-]. by eapply move_go.
  - destruct (ts !! i) as [[|[d|] go]|] eqn:Hi; try done. intros [= <-]. by eapply move_drop.
Qed.

(** ** Runs of one call alone *)

Inductive solo {A} : task St E A → St → outcome E A → St → Prop :=
| solo_done o s : solo (TDone o) s o s
| solo_step dr go n s t' s' o s'' :
    go n s = Some (t', s') → solo t' s' o s'' → solo (TStep dr go) s o s''.

Lemma solo_act {A} (m : prog St E A) s : solo (act m) s (fst (m s)) (snd (m s)).
Proof. eapply (solo_step _ _ 0); [done|]. constructor. Qed.

Lemma solo_load {A} (f : St → A) s : solo (load f) s (Ret (f s)) s.
Proof. apply (solo_act (gets f)). Qed.

Lemma solo_bind {A B} (t : task St E A) (k : A → task St E B) s o s1 o' s2 :
  solo t s o s1 →
  match o with
  | Ret a => solo (k a) s1 o' s2
  | Fail e => o' = Fail e ∧ s2 = s1
  | Dropped => o' = Dropped ∧ s2 = s1
  | Panicked => o' = Panicked ∧ s2 = s1
  | NoFuel => o' = NoFuel ∧ s2 = s1
  end → solo (t ≫= k) s o' s2.
Proof.
  induction 1 as [o s|dr go n s t' s' o s'' Hg _ IH]; intros Ho.
  - destruct o as [a|e| | |]; [exact Ho|destruct Ho as [-> ->]; constructor..].
  - apply (solo_step _ _ n s (t' ≫= k) s'); [|by apply IH]. by rewrite Hg.
Qed.

Lemma solo_attempt {A} (t : task St E A) s o s1 :
  solo t s o s1 →
  solo (attempt t) s match o with
                     | Ret a => Ret (Ok a)
                     | Fail e => Ret (Err e)
                     | Dropped => Dropped
                     | Panicked => Panicked
                     | NoFuel => NoFuel
                     end s1.
Proof.
  induction 1 as [o s|dr go n s t' s' o s'' Hg _ IH]; [destruct o; constructor|].
  apply (solo_step _ _ n s (attempt t') s'); [by rewrite Hg|exact IH].
Qed.

(** Among others, a call that can run alone ends by its own steps, wherever
    they stand. *)
Lemma solo_moves {A} (t : task St E A) s o s' ts i :
  solo t s o s' → ts !! i = Some t → rtc moves (ts, s) (<[i := TDone o]> ts, s').
Proof.
  intros Hs. revert ts. induction Hs as [o s|dr go n s t' s' o s'' Hg _ IH]; intros ts Hi.
  - by rewrite list_insert_id.
  - eapply rtc_l; [by eapply move_go|]. rewrite <- (list_insert_insert_eq ts i (TDone o) t').
    apply IH, list_lookup_insert_eq. by eapply lookup_lt_Some.
Qed.

(** ** What a task returns *)

(** Whatever it meets on its way, if it returns then with [P]. *)
Fixpoint ends {A} (P : A → Prop) (t : task St E A) : Prop :=
  match t with
  | TDone o => match o with Ret a => P a | _ => True end
  | TStep dr go =>
      match dr with Some d => ends P d | None => True end ∧
      ∀ n s, match go n s with Some (t', _) => ends P t' | None => True end
  end.

Ltac through_ends Ht IHd IHg :=
  let Hd := fresh in let Hg := fresh in let n := fresh "n" in let s := fresh "s" in let Hn := fresh in
  destruct Ht as [Hd Hg]; split;
  [ match type of Hd with match ?dr with Some _ => _ | None => _ end => destruct dr as [?|] end; [by apply IHd|done]
  | intros n s; specialize (Hg n s);
    match type of Hg with match ?step with Some _ => _ | None => _ end => destruct step as [[? ?]|] eqn:Hn end; [|done];
    by eapply IHg ].

Lemma ends_any {A} (t : task St E A) : ends (λ _, True) t.
Proof.
  induction t as [o|dr go IHd IHg] using task_induction; [by destruct o|]. split.
  - destruct dr; [by apply IHd|done].
  - intros n s. destruct (go n s) as [[t' s']|] eqn:Hn; [by eapply IHg|done].
Qed.

Lemma ends_bind {A B} (P : A → Prop) (Q : B → Prop) (t : task St E A) (k : A → task St E B) :
  ends P t → (∀ a, P a → ends Q (k a)) → ends Q (t ≫= k).
Proof.
  intros Ht Hk. revert Ht. induction t as [o|dr go IHd IHg] using task_induction; intros Ht; [by destruct o; try apply Hk|].
  through_ends Ht IHd IHg.
Qed.

(** Where what comes before does not matter. *)
Lemma ends_then {A B} (Q : B → Prop) (t : task St E A) (k : A → task St E B) : (∀ a, ends Q (k a)) → ends Q (t ≫= k).
Proof. intros Hk. by eapply ends_bind; [apply ends_any|]. Qed.

Lemma ends_attempt {A} (P : A → Prop) (t : task St E A) :
  ends P t → ends (λ r, match r with Ok a => P a | Err _ => True end) (attempt t).
Proof.
  induction t as [o|dr go IHd IHg] using task_induction; intros Ht; [by destruct o|]. through_ends Ht IHd IHg.
Qed.

Lemma ends_run {A} (P : A → Prop) (p p' : list (task St E A) * St) i t a :
  rtc moves p p' → fst p !! i = Some t → ends P t → fst p' !! i = Some (TDone (Ret a)) → P a.
Proof.
  intros Hr. revert t. induction Hr as [p|p p1 p2 Hm _ IH]; intros t Hi Ht Ha; [by simplify_eq|].
  destruct Hm as [j ts dr go n t' s s' Hj Hg|j ts d go s Hj]; cbn [fst] in *;
    (destruct (decide (j = i)) as [->|Hne]; [|by eapply IH; [rewrite list_lookup_insert_ne|..]]);
    simplify_eq; destruct Ht as [Hd Hgo].
  - specialize (Hgo n s). rewrite Hg in Hgo. eapply IH; [|exact Hgo|done].
    by rewrite list_lookup_insert_eq by (by eapply lookup_lt_Some).
  - eapply IH; [|exact Hd|done]. by rewrite list_lookup_insert_eq by (by eapply lookup_lt_Some).
Qed.
End Tasks.

(** ** The logic *)

Section Logic.
Context {St E Tok : Type}.
(** The invariant over the state and the tokens owned by all. *)
Context (Inv : St → list Tok → Prop).
Context `{Hperm : !Proper ((=) ==> (≡ₚ) ==> iff) Inv}.
(** The states the claims are about. *)
Context (bounded : St → Prop).
(** What holds where a call cannot move: of the state, the call's own tokens
    and everybody's. *)
Context (stuck : St → list Tok → list Tok → Prop).
Context (stuck_mono : ∀ s own more all, stuck s own all → stuck s (own ++ more) all).

Fixpoint safe {A} (t : task St E A) (Q : outcome E A → list Tok → Prop) (toks : list Tok) : Prop :=
  match t with
  | TDone o => Q o toks
  | TStep dr go =>
      match dr with Some d => safe d Q toks | None => True end ∧
      (∀ n s fr, bounded s → Inv s (toks ++ fr) →
        match go n s with
        | Some (t', s') => bounded s' → ∃ toks', Inv s' (toks' ++ fr) ∧ safe t' Q toks'
        | None => True
        end) ∧
      (∀ s fr, bounded s → Inv s (toks ++ fr) →
        (∃ n, go n s ≠ None) ∨ stuck s toks (toks ++ fr))
  end.

(** Where a definition goes through the steps of a task and changes only how it
    ends, safety goes through them too: [Hs] is the task's, [IHd] and [IHg] are
    the hypotheses of [task_induction]. *)
Ltac through_step Hs IHd IHg :=
  let Hd := fresh in let Hg := fresh in let Hst := fresh in
  let n := fresh "n" in let s := fresh "s" in let fr := fresh "fr" in let Hb := fresh in let Hi := fresh in
  let toks := fresh "toks" in let Ht := fresh in let Hn := fresh in
  destruct Hs as (Hd & Hg & Hst); split_and!;
  [ match type of Hd with match ?dr with Some _ => _ | None => _ end => destruct dr as [?|] end; [by apply IHd|done]
  | intros n s fr Hb Hi; specialize (Hg n s fr Hb Hi);
    match type of Hg with match ?step with Some _ => _ | None => _ end => destruct step as [[? ?]|] eqn:Hn end; [|done];
    intros Hb'; destruct (Hg Hb') as (toks & ? & Ht); exists toks; split; [done|by eapply IHg]
  | intros s fr Hb Hi; destruct (Hst s fr Hb Hi) as [[n Hn]|]; [left|by right]; exists n;
    match type of Hn with ?step ≠ None => by destruct step as [[]|] end ].

Lemma safe_mono {A} (t : task St E A) (Q Q' : outcome E A → list Tok → Prop) toks :
  safe t Q toks → (∀ o x, Q o x → Q' o x) → safe t Q' toks.
Proof.
  revert toks. induction t as [o|dr go IHd IHg] using task_induction; intros toks Hs HQ.
  { by apply HQ. }
  through_step Hs IHd IHg.
Qed.

Lemma safe_done {A} (o : outcome E A) Q toks : Q o toks → safe (TDone o) Q toks.
Proof. done. Qed.

Lemma safe_ret {A} (a : A) Q toks : Q (Ret a) toks → safe (mret a) Q toks.
Proof. done. Qed.

(** Composition. *)
Lemma safe_bind {A B} (t : task St E A) (k : A → task St E B) Q toks :
  safe t (λ o x, match o with
                 | Ret a => safe (k a) Q x
                 | Fail e => Q (Fail e) x
                 | Dropped => Q Dropped x
                 | Panicked => Q Panicked x
                 | NoFuel => Q NoFuel x
                 end) toks →
  safe (t ≫= k) Q toks.
Proof.
  revert toks. induction t as [o|dr go IHd IHg] using task_induction; intros toks Hs.
  { by destruct o. }
  through_step Hs IHd IHg.
Qed.

(** The destructor of a guard. *)
Lemma safe_finally {A} (fin : outcome E A → task St E unit) t Q toks :
  safe t (λ o x, safe (fin o) (λ o' y, o' = Ret tt ∧ Q o y) x) toks →
  safe (finally fin t) Q toks.
Proof.
  revert toks. induction t as [o|dr go IHd IHg] using task_induction; intros toks Hs.
  { simpl. apply safe_bind. eapply safe_mono; [exact Hs|]. intros o' y [-> HQ]. exact HQ. }
  through_step Hs IHd IHg.
Qed.

Lemma safe_attempt {A} (t : task St E A) Q toks :
  safe t (λ o x, match o with
                 | Ret a => Q (Ret (Ok a)) x
                 | Fail e => Q (Ret (Err e)) x
                 | Dropped => Q Dropped x
                 | Panicked => Q Panicked x
                 | NoFuel => Q NoFuel x
                 end) toks →
  safe (attempt t) Q toks.
Proof.
  revert toks. induction t as [o|dr go IHd IHg] using task_induction; intros toks Hs.
  { by destruct o. }
  through_step Hs IHd IHg.
Qed.

Lemma safe_cut {A B} (b : B) (t : task St E A) Q toks :
  safe t (λ _ x, Q (Ret b) x) toks → safe (cut b t) Q toks.
Proof.
  revert toks. induction t as [o|dr go IHd IHg] using task_induction; intros toks Hs; [done|].
  through_step Hs IHd IHg.
Qed.

(** A race: however the work ends, what it then owns must suit that end and
    the race's own result. *)
Lemma safe_racing {A} (over : St → bool) (t : task St E A) (P : outcome E A → list Tok → Prop)
    (Q : outcome E (option A) → list Tok → Prop) toks :
  safe t P toks →
  (∀ o x, P o x → Q (outcome_map Some id o) x ∧ Q (Ret None) x) →
  safe (racing over t) Q toks.
Proof.
  intros Hs HQ. revert over toks Hs.
  induction t as [o|dr go IHd IHg] using task_induction; intros over toks Hs.
  { apply HQ in Hs as [H1 H2]. destruct o; try done. split; [done|].
    split; [|intros s fr _ _; left; by exists 1%nat].
    intros [|n] s fr Hb Hi; [destruct (over s)|]; simpl; try done; intros _; by exists toks. }
  destruct Hs as (Hd & Hg & Hst). split_and!.
  - destruct dr as [d|]; [|done]. by apply IHd.
  - intros [|n] s fr Hb Hi.
    + destruct dr as [d|]; [|done]. destruct (over s); [|done]. intros _. exists toks.
      split; [done|]. apply safe_cut. eapply safe_mono; [exact Hd|]. intros o x Ho.
      by apply HQ in Ho as [_ ?].
    + specialize (Hg n s fr Hb Hi). destruct (go n s) as [[t' s']|] eqn:Hn; [|done]. intros Hb'.
      destruct (Hg Hb') as (toks' & Hi' & Ht). exists toks'. split; [done|]. by eapply IHg.
  - intros s fr Hb Hi. destruct (Hst s fr Hb Hi) as [[n Hn]|]; [left|by right].
    exists (S n). by destruct (go n s) as [[]|].
Qed.

(** What a call does not touch stays its own. *)
Lemma safe_frame {A} (t : task St E A) Q toks extra :
  safe t Q toks → safe t (λ o x, ∃ y, x = y ++ extra ∧ Q o y) (toks ++ extra).
Proof.
  revert toks. induction t as [o|dr go IHd IHg] using task_induction; intros toks Hs.
  { simpl. eauto. }
  destruct Hs as (Hd & Hg & Hst). split_and!.
  - destruct dr as [d|]; [|done]. by apply IHd.
  - intros n s fr Hb Hi. rewrite <- app_assoc in Hi. specialize (Hg n s (extra ++ fr) Hb Hi).
    destruct (go n s) as [[t' s']|] eqn:Hn; [|done]. intros Hb'.
    destruct (Hg Hb') as (toks' & Hi' & Ht). exists (toks' ++ extra).
    rewrite <- app_assoc. split; [done|]. by eapply IHg.
  - intros s fr Hb Hi. rewrite <- app_assoc in Hi.
    destruct (Hst s (extra ++ fr) Hb Hi) as [|Hs]; [by left|right].
    rewrite <- app_assoc. by apply stuck_mono.
Qed.

(** One step. *)
Lemma safe_act {A} (m : prog St E A) (Q : outcome E A → list Tok → Prop) toks :
  (∀ s fr, bounded s → Inv s (toks ++ fr) →
    wp m (λ o s', bounded s' → ∃ toks', Inv s' (toks' ++ fr) ∧ Q o toks') s) →
  safe (act m) Q toks.
Proof.
  intros Hm. split; [done|]. split; [intros n s fr Hb Hi; apply (Hm s fr Hb Hi)|].
  intros s fr _ _. left. by exists 0%nat.
Qed.

Lemma safe_wait {A} ready (m : prog St E A) (Q : outcome E A → list Tok → Prop) toks :
  Q Dropped toks →
  (∀ s fr, bounded s → Inv s (toks ++ fr) → ready s = true →
    wp m (λ o s', bounded s' → ∃ toks', Inv s' (toks' ++ fr) ∧ Q o toks') s) →
  (∀ s fr, bounded s → Inv s (toks ++ fr) → ready s = false → stuck s toks (toks ++ fr)) →
  safe (wait ready m) Q toks.
Proof.
  intros HQ Hm Hst. split; [done|]. split; intros.
  - destruct (ready s) eqn:Hr; [|done]. by apply (Hm s fr).
  - destruct (ready s) eqn:Hr; [left; by exists 0%nat|right; by apply Hst].
Qed.

(** A load keeps what the call owns. *)
Lemma safe_load {A} (f : St → A) (Q : outcome E A → list Tok → Prop) toks :
  (∀ s fr, Inv s (toks ++ fr) → Q (Ret (f s)) toks) → safe (load f) Q toks.
Proof.
  intros HQ. apply safe_act. intros s fr _ Hi. apply wp_gets. intros _. exists toks. eauto.
Qed.

(** ** Pools of safe calls *)

(** Every call is safe with the tokens it owns; [rest] is owned by nobody in
    the pool. *)
Definition pool_ok {A} (Q : outcome E A → list Tok → Prop) (rest : list Tok)
    (p : list (task St E A) * St) : Prop :=
  ∃ tokss, Forall2 (λ t toks, safe t Q toks) (fst p) tokss ∧ Inv (snd p) (concat tokss ++ rest).

Lemma concat_take_out (tokss : list (list Tok)) rest i x :
  tokss !! i = Some x →
  ∃ fr, concat tokss ++ rest ≡ₚ x ++ fr ∧
    (∀ y, concat (<[i := y]> tokss) ++ rest ≡ₚ y ++ fr) ∧
    concat (take i tokss ++ drop (S i) tokss) ++ rest = fr.
Proof.
  intros Hi. eexists. split; [|split; [|reflexivity]].
  - rewrite <- (take_drop_middle tokss i x Hi) at 1.
    rewrite !concat_app, !concat_cons. solve_Permutation.
  - intros y. rewrite insert_take_drop by (by eapply lookup_lt_Some).
    rewrite !concat_app, !concat_cons. solve_Permutation.
Qed.

Lemma pool_go {A} (Q : outcome E A → list Tok → Prop) rest ts s i t' s' dr go n :
  bounded s → bounded s' → pool_ok Q rest (ts, s) →
  ts !! i = Some (TStep dr go) → go n s = Some (t', s') → pool_ok Q rest (<[i := t']> ts, s').
Proof.
  intros Hb Hb' (tokss & Hf & Hi) Ht Hg. simpl in *.
  destruct (Forall2_lookup_l _ _ _ _ _ Hf Ht) as (toks & Htoks & (_ & Hs & _)).
  destruct (concat_take_out tokss rest i toks Htoks) as (fr & Hp & Hp' & _).
  rewrite Hp in Hi. specialize (Hs n s fr Hb Hi). rewrite Hg in Hs.
  destruct (Hs Hb') as (toks' & Hi' & Ht'). exists (<[i := toks']> tokss). simpl.
  split; [by apply Forall2_insert|]. by rewrite Hp'.
Qed.

Lemma pool_drop {A} (Q : outcome E A → list Tok → Prop) rest ts s i d go :
  pool_ok Q rest (ts, s) → ts !! i = Some (TStep (Some d) go) → pool_ok Q rest (<[i := d]> ts, s).
Proof.
  intros (tokss & Hf & Hi) Ht. destruct (Forall2_lookup_l _ _ _ _ _ Hf Ht) as (toks & Htoks & (Hd & _)).
  exists tokss. split; [|done]. simpl.
  rewrite <- (list_insert_id tokss i toks Htoks). by apply Forall2_insert.
Qed.

Lemma pool_moves {A} (Q : outcome E A → list Tok → Prop) rest p p' :
  bounded (snd p) → bounded (snd p') → pool_ok Q rest p → moves p p' → pool_ok Q rest p'.
Proof.
  intros Hb Hb' Hok Hm. destruct Hm as [i ts dr go n t' s s'|i ts d go s]; simpl in *.
  - by apply (pool_go Q rest ts s i t' s' dr go n).
  - by eapply pool_drop.
Qed.

(** A call starts with tokens of its own; one that has ended hands over what
    it returns with. *)
Lemma pool_spawn {A} (Q : outcome E A → list Tok → Prop) rest toks ts s t :
  safe t Q toks → pool_ok Q (toks ++ rest) (ts, s) → pool_ok Q rest (ts ++ [t], s).
Proof.
  intros Ht (tokss & Hf & Hi). exists (tokss ++ [toks]). simpl in *.
  split; [apply Forall2_app; [done|by constructor]|].
  rewrite concat_app. simpl. rewrite app_nil_r, <- app_assoc. done.
Qed.

Lemma pool_reap {A} (Q : outcome E A → list Tok → Prop) rest ts s i o :
  pool_ok Q rest (ts, s) → ts !! i = Some (TDone o) →
  ∃ toks, Q o toks ∧ pool_ok Q (toks ++ rest) (take i ts ++ drop (S i) ts, s).
Proof.
  intros (tokss & Hf & Hi) Ht. destruct (Forall2_lookup_l _ _ _ _ _ Hf Ht) as (toks & Htoks & Ho).
  exists toks. split; [done|]. exists (take i tokss ++ drop (S i) tokss). simpl in *.
  split; [by apply Forall2_app; [apply Forall2_take|apply Forall2_drop]|].
  destruct (concat_take_out tokss rest i toks Htoks) as (fr & Hp & _ & Hfr).
  rewrite Hp, <- Hfr in Hi. eapply Hperm; [done| |exact Hi]. solve_Permutation.
Qed.
End Logic.
