(* ===== verification/Split.v ===== *)
(** * A split connection ([split.rs], [split/shared.rs])

    [Shared] is what the [Reader], the [Writer]s, the requests held and the
    listeners of one connection share; every call on it is a [task] whose steps
    are its critical sections, atomic loads and stores, transport reads and the
    writes of the holder of the write half.  The two halves of the transport
    are of the type [T].

    The locks the library takes from elsewhere appear as what their
    documentation promises.  [async_lock]'s mutex of the write half is the flag
    [sh_locked]: a call gets past [lock] only when no other holds it.  An
    [event_listener] event is a counter: [notify] raises it, a listener
    remembers its value, and waiting on the listener ends once the counter has
    moved.  The mutexes of the standard library are never held across a wait,
    so that each critical section is one step.

    A write by the holder of the write half is one step too: only the holder
    touches the transport, and the flag it may set when it is torn.  A call
    dropped in the middle of a write is the transport's [IoDropped].

    [sh_log] is no part of the program: it is the history the theorems speak
    of, and no step depends on it. *)

From S2P Require Import Prelude Errors Protocol Banner Config SendQueue Slot ChannelTable Wire.
From S2P Require Import Connection Task.

(** ** The shared state *)

(** [Owed]. *)
Module Owed.
Inductive Owed : Type := Okay (ack : PendingAck) | Close (ids : ChannelIds).
End Owed.
Abbreviation Owed := Owed.Owed.

(** What has happened: a packet received and what [dispatch] made of it, a
    packet sent (for a debt, or for the call itself), a write that failed, a
    debt recorded, the debts forgiven to a device that is gone, a channel
    allocated, a request taken up by a channel, bytes handed to a reader, and a
    request that was answered, withdrawn or lost with the device. *)
Inductive event : Type :=
| Received (pkt : Packet) (out : DispatchOutcome)
| Sent (debt : option Owed) (pkt : Packet)
| WriteFailed (gone : bool)
| Owes (debt : Owed)
| Forgiven
| Allocated (ch : ChannelId)
| Accepted (ch : ChannelId) (p : PendingOpen)
| Took (ch : ChannelId) (b : bytes)
| Resolved (p : PendingOpen).

(** [Shared], with the [Reader]'s half and buffer ([sh_reader]).  A request's
    [cancelled] flag is shared with its entry in [staged]: [sh_staged] names it
    by a number, [sh_cancelled] lists the flags that are set. *)
Record Shared (T : Type) : Type := mkShared {
  sh_reader : wire T;
  sh_wire : wire T;
  sh_locked : bool;
  sh_channels : ChannelTable;
  sh_signals : list nat;
  sh_negotiated : Negotiated;
  sh_incoming : IncomingQueue;
  sh_staged : list (Z * nat);
  sh_cancelled : list nat;
  sh_next_flag : nat;
  sh_stopped : bool;
  sh_stream_over : bool;
  sh_ended_in_step : bool;
  sh_listeners : Z;
  sh_incoming_signal : nat;
  sh_receive_signal : nat;
  sh_owed : list Owed;
  sh_log : list event;
}.
Arguments mkShared {T}.
Arguments sh_reader {T}.
Arguments sh_wire {T}.
Arguments sh_locked {T}.
Arguments sh_channels {T}.
Arguments sh_signals {T}.
Arguments sh_negotiated {T}.
Arguments sh_incoming {T}.
Arguments sh_staged {T}.
Arguments sh_cancelled {T}.
Arguments sh_next_flag {T}.
Arguments sh_stopped {T}.
Arguments sh_stream_over {T}.
Arguments sh_ended_in_step {T}.
Arguments sh_listeners {T}.
Arguments sh_incoming_signal {T}.
Arguments sh_receive_signal {T}.
Arguments sh_owed {T}.
Arguments sh_log {T}.

(** Assignments to single fields. *)
Section Assignments.
Context {T : Type}.
Implicit Types s : Shared T.
Definition put_reader v s : Shared T := mkShared v (sh_wire s) (sh_locked s) (sh_channels s)
  (sh_signals s) (sh_negotiated s) (sh_incoming s) (sh_staged s) (sh_cancelled s) (sh_next_flag s)
  (sh_stopped s) (sh_stream_over s) (sh_ended_in_step s) (sh_listeners s) (sh_incoming_signal s)
  (sh_receive_signal s) (sh_owed s) (sh_log s).
Definition put_wire v s : Shared T := mkShared (sh_reader s) v (sh_locked s) (sh_channels s)
  (sh_signals s) (sh_negotiated s) (sh_incoming s) (sh_staged s) (sh_cancelled s) (sh_next_flag s)
  (sh_stopped s) (sh_stream_over s) (sh_ended_in_step s) (sh_listeners s) (sh_incoming_signal s)
  (sh_receive_signal s) (sh_owed s) (sh_log s).
Definition put_locked v s : Shared T := mkShared (sh_reader s) (sh_wire s) v (sh_channels s)
  (sh_signals s) (sh_negotiated s) (sh_incoming s) (sh_staged s) (sh_cancelled s) (sh_next_flag s)
  (sh_stopped s) (sh_stream_over s) (sh_ended_in_step s) (sh_listeners s) (sh_incoming_signal s)
  (sh_receive_signal s) (sh_owed s) (sh_log s).
Definition put_channels v s : Shared T := mkShared (sh_reader s) (sh_wire s) (sh_locked s) v
  (sh_signals s) (sh_negotiated s) (sh_incoming s) (sh_staged s) (sh_cancelled s) (sh_next_flag s)
  (sh_stopped s) (sh_stream_over s) (sh_ended_in_step s) (sh_listeners s) (sh_incoming_signal s)
  (sh_receive_signal s) (sh_owed s) (sh_log s).
Definition put_signals v s : Shared T := mkShared (sh_reader s) (sh_wire s) (sh_locked s)
  (sh_channels s) v (sh_negotiated s) (sh_incoming s) (sh_staged s) (sh_cancelled s) (sh_next_flag
  s) (sh_stopped s) (sh_stream_over s) (sh_ended_in_step s) (sh_listeners s) (sh_incoming_signal
  s) (sh_receive_signal s) (sh_owed s) (sh_log s).
Definition put_incoming v s : Shared T := mkShared (sh_reader s) (sh_wire s) (sh_locked s)
  (sh_channels s) (sh_signals s) (sh_negotiated s) v (sh_staged s) (sh_cancelled s) (sh_next_flag
  s) (sh_stopped s) (sh_stream_over s) (sh_ended_in_step s) (sh_listeners s) (sh_incoming_signal
  s) (sh_receive_signal s) (sh_owed s) (sh_log s).
Definition put_staged v s : Shared T := mkShared (sh_reader s) (sh_wire s) (sh_locked s)
  (sh_channels s) (sh_signals s) (sh_negotiated s) (sh_incoming s) v (sh_cancelled s)
  (sh_next_flag s) (sh_stopped s) (sh_stream_over s) (sh_ended_in_step s) (sh_listeners s)
  (sh_incoming_signal s) (sh_receive_signal s) (sh_owed s) (sh_log s).
Definition put_cancelled v s : Shared T := mkShared (sh_reader s) (sh_wire s) (sh_locked s)
  (sh_channels s) (sh_signals s) (sh_negotiated s) (sh_incoming s) (sh_staged s) v (sh_next_flag
  s) (sh_stopped s) (sh_stream_over s) (sh_ended_in_step s) (sh_listeners s) (sh_incoming_signal
  s) (sh_receive_signal s) (sh_owed s) (sh_log s).
Definition put_next_flag v s : Shared T := mkShared (sh_reader s) (sh_wire s) (sh_locked s)
  (sh_channels s) (sh_signals s) (sh_negotiated s) (sh_incoming s) (sh_staged s) (sh_cancelled s)
  v (sh_stopped s) (sh_stream_over s) (sh_ended_in_step s) (sh_listeners s) (sh_incoming_signal s)
  (sh_receive_signal s) (sh_owed s) (sh_log s).
Definition put_stopped v s : Shared T := mkShared (sh_reader s) (sh_wire s) (sh_locked s)
  (sh_channels s) (sh_signals s) (sh_negotiated s) (sh_incoming s) (sh_staged s) (sh_cancelled s)
  (sh_next_flag s) v (sh_stream_over s) (sh_ended_in_step s) (sh_listeners s) (sh_incoming_signal
  s) (sh_receive_signal s) (sh_owed s) (sh_log s).
Definition put_stream_over v s : Shared T := mkShared (sh_reader s) (sh_wire s) (sh_locked s)
  (sh_channels s) (sh_signals s) (sh_negotiated s) (sh_incoming s) (sh_staged s) (sh_cancelled s)
  (sh_next_flag s) (sh_stopped s) v (sh_ended_in_step s) (sh_listeners s) (sh_incoming_signal s)
  (sh_receive_signal s) (sh_owed s) (sh_log s).
Definition put_ended_in_step v s : Shared T := mkShared (sh_reader s) (sh_wire s) (sh_locked s)
  (sh_channels s) (sh_signals s) (sh_negotiated s) (sh_incoming s) (sh_staged s) (sh_cancelled s)
  (sh_next_flag s) (sh_stopped s) (sh_stream_over s) v (sh_listeners s) (sh_incoming_signal s)
  (sh_receive_signal s) (sh_owed s) (sh_log s).
Definition put_listeners v s : Shared T := mkShared (sh_reader s) (sh_wire s) (sh_locked s)
  (sh_channels s) (sh_signals s) (sh_negotiated s) (sh_incoming s) (sh_staged s) (sh_cancelled s)
  (sh_next_flag s) (sh_stopped s) (sh_stream_over s) (sh_ended_in_step s) v (sh_incoming_signal s)
  (sh_receive_signal s) (sh_owed s) (sh_log s).
Definition put_incoming_signal v s : Shared T := mkShared (sh_reader s) (sh_wire s) (sh_locked s)
  (sh_channels s) (sh_signals s) (sh_negotiated s) (sh_incoming s) (sh_staged s) (sh_cancelled s)
  (sh_next_flag s) (sh_stopped s) (sh_stream_over s) (sh_ended_in_step s) (sh_listeners s) v
  (sh_receive_signal s) (sh_owed s) (sh_log s).
Definition put_receive_signal v s : Shared T := mkShared (sh_reader s) (sh_wire s) (sh_locked s)
  (sh_channels s) (sh_signals s) (sh_negotiated s) (sh_incoming s) (sh_staged s) (sh_cancelled s)
  (sh_next_flag s) (sh_stopped s) (sh_stream_over s) (sh_ended_in_step s) (sh_listeners s)
  (sh_incoming_signal s) v (sh_owed s) (sh_log s).
Definition put_owed v s : Shared T := mkShared (sh_reader s) (sh_wire s) (sh_locked s)
  (sh_channels s) (sh_signals s) (sh_negotiated s) (sh_incoming s) (sh_staged s) (sh_cancelled s)
  (sh_next_flag s) (sh_stopped s) (sh_stream_over s) (sh_ended_in_step s) (sh_listeners s)
  (sh_incoming_signal s) (sh_receive_signal s) v (sh_log s).
Definition put_log v s : Shared T := mkShared (sh_reader s) (sh_wire s) (sh_locked s) (sh_channels
  s) (sh_signals s) (sh_negotiated s) (sh_incoming s) (sh_staged s) (sh_cancelled s) (sh_next_flag
  s) (sh_stopped s) (sh_stream_over s) (sh_ended_in_step s) (sh_listeners s) (sh_incoming_signal
  s) (sh_receive_signal s) (sh_owed s) v.
End Assignments.

(** [SplitIncoming] in its owner's hands: undecided, with its flag. *)
Record SplitIncoming : Type := mkSplitIncoming { si_pending : PendingOpen; si_flag : nat }.

Section Split.
Context {T IoE : Type} `{Transport T IoE}.

Abbreviation shared := (Shared T).
Abbreviation sprog := (prog shared (Error IoE)).
Abbreviation call := (task shared (Error IoE)).

Definition note (e : event) (s : shared) : shared := put_log (sh_log s ++ [e]) s.

(** What the log says of the channels a connection has when it is split: the
    credit each was granted and the bytes each has buffered. *)
Definition history_of (i : nat) (o : option ChannelSlot) : list event :=
  match o with
  | None => []
  | Some sl =>
      [Accepted (mkChannelId i (sl_local sl)) (mkPending 0 (sl_send_budget sl) []);
       Received (mkPacket Command.Write 0 (sl_local sl) (sl_rx_buf sl))
         (DispatchOutcome.DataBuffered i)]
  end.

Fixpoint history (i : nat) (slots : list (option ChannelSlot)) : list event :=
  match slots with
  | [] => []
  | o :: slots => history_of i o ++ history (S i) slots
  end.

(** [Shared::new], from the parts of a connection and the halves of its
    transport. *)
Definition shared_new (read_half write_half : T) (c : conn T) : shared :=
  mkShared (mkWire read_half (w_recv_buf (c_wire c)) false)
    (mkWire write_half [] (w_desync (c_wire c))) false (c_table c)
    (replicate (length (t_slots (c_table c))) 0%nat) (c_negotiated c) (c_incoming c) [] [] 0
    false false false 0 0 0 [] (history 0 (t_slots (c_table c))).

(** ** Signals *)

(** [FlowSignal::listen] and [wake] on the signal of a slot. *)
Definition signal_of (idx : nat) (s : shared) : nat := default 0%nat (sh_signals s !! idx).
Definition wake (idx : nat) (s : shared) : shared :=
  put_signals (<[idx := S (signal_of idx s)]> (sh_signals s)) s.

Definition notify_incoming (s : shared) : shared :=
  put_incoming_signal (S (sh_incoming_signal s)) s.
Definition notify_receive (s : shared) : shared := put_receive_signal (S (sh_receive_signal s)) s.

(** [Shared::wake_all]: nobody waits on one signal for another's sake, so that
    it is one step. *)
Definition wake_all (s : shared) : shared :=
  notify_receive (notify_incoming (put_signals (S <$> sh_signals s) s)).

(** [listener.await] on the listener made when the signal stood at [seen]. *)
Definition await_signal (signal : shared → nat) (seen : nat) : call unit :=
  wait (λ s, negb (signal s =? seen)%nat) (mret tt).

(** [signals[idx].wake()]; an index out of range panics. *)
Definition wake_at (idx : nat) : call unit :=
  act (λ s, match sh_signals s !! idx with
            | Some _ => (Ret tt, wake idx s)
            | None => (Panicked, s)
            end).

(** ** The state of the connection *)

Definition desync (s : shared) : bool := w_desync (sh_wire s).

(** [check_in_step(..).is_ok()] and [check_live(..).is_ok()], where the caller
    asks for no more. *)
Definition in_step (s : shared) : bool := negb (desync s) || sh_ended_in_step s.
Definition live (s : shared) : bool := in_step s && negb (sh_stopped s).

(** [has_ended]. *)
Definition has_ended (s : shared) : bool := negb (live s).

(** [clse_called_off]. *)
Definition clse_called_off (s : shared) : bool := sh_stream_over s || desync s.

(** [self.desync.check()?]. *)
Definition check_desync : call unit :=
  d ← load desync; if (d : bool) then tfail Error.Desynchronized else mret tt.

Definition check_in_step : call unit :=
  d ← load desync;
  if (d : bool) then
    e ← load sh_ended_in_step;
    if (e : bool) then mret tt else tfail Error.Desynchronized
  else mret tt.

Definition check_live : call unit :=
  check_in_step ≫= λ _,
  st ← load sh_stopped;
  if (st : bool) then tfail Error.Disconnected else mret tt.

Definition check_close : call unit :=
  over ← load sh_stream_over;
  if (over : bool) then check_in_step else check_desync.

Definition stop : call unit :=
  st ← load sh_stopped;
  (if (st : bool) then mret tt
   else
     d ← load desync;
     act (modify (put_ended_in_step (negb d)))) ≫= λ _,
  act (modify (put_stopped true)) ≫= λ _,
  act (modify wake_all).

Definition end_stream : call unit :=
  act (modify (put_stream_over true)) ≫= λ _, stop.

(** [Shared::until]. *)
Definition until {A} (over : shared → bool) (work : call A) : call (option A) :=
  o ← load over;
  if (o : bool) then mret None else racing over work.

(** ** The write half *)

(** A write by the holder of the write half, with what it records. *)
Definition write_with (sent : event) (m : prog (wire T) (Error IoE) unit) : sprog unit := λ s,
  let '(o, w) := m (sh_wire s) in
  (o, note match o with
           | Ret _ => sent
           | Fail e => WriteFailed (connection_gone e)
           | _ => WriteFailed false
           end (put_wire w s)).

Definition send_packet (debt : option Owed) (pkt : Packet) : sprog unit := λ s,
  write_with (Sent debt pkt) (send_pkt pkt (checksum (sh_negotiated s))) s.

(** The packet of [send_okay_to]. *)
Definition okay_packet (mode : AckMode) (ack : PendingAck) : Packet :=
  mkPacket Command.Ready (local (ack_ids ack)) (remote (ack_ids ack))
    match mode with
    | AckMode.Delayed => u32_le (wrap_u32 (ack_len_of ack))
    | AckMode.Classic => []
    end.

Definition send_okay_for (debt : option Owed) (ack : PendingAck) : sprog unit := λ s,
  let mode := ack_mode (sh_negotiated s) in
  write_with (Sent debt (okay_packet mode ack))
    (send_okay_to ack mode (checksum (sh_negotiated s))) s.

(** [lock_write_half]; the guard is released by [WriteLock]'s drop, then the
    mutex guard's. *)
Definition lock : call unit := wait (λ s, negb (sh_locked s)) (modify (put_locked true)).

Definition release : call unit :=
  d ← load desync;
  (if (d : bool) then act (modify wake_all) else mret tt) ≫= λ _,
  act (modify (put_locked false)).

Definition with_write_half {A} (body : call A) : call A :=
  lock ≫= λ _, finally (λ _, release) body.

(** ** Debts *)

Definition owe (debt : Owed) : call unit :=
  act (modify (λ s, note (Owes debt) (put_owed (sh_owed s ++ [debt]) s))) ≫= λ _,
  act (modify notify_receive).

(** What [lock_write] sends for a debt. *)
Definition pay_debt (debt : Owed) : sprog unit :=
  match debt with
  | Owed.Okay ack => send_okay_for (Some debt) ack
  | Owed.Close ids => send_packet (Some debt) (packet_close ids)
  end.

(** The loop of [lock_write]. *)
Fixpoint pay_loop (fuel : nat) : call unit :=
  match fuel with
  | O => no_fuel
  | S fuel =>
      owed ← load (λ s, head (sh_owed s));
      match owed with
      | None => mret tt
      | Some debt =>
          paid ← attempt (act (pay_debt debt));
          match paid with
          | Ok _ => act (modify (λ s, put_owed (tail (sh_owed s)) s)) ≫= λ _, pay_loop fuel
          | Err e =>
              if connection_gone e
              then act (modify (λ s, note Forgiven (put_owed [] s)))
              else tfail e
          end
      end
  end.

(** [lock_write], and what its caller does with the lock. *)
Definition with_lock_write {A} (fuel : nat) (body : call A) : call A :=
  with_write_half (pay_loop fuel ≫= λ _, body).

Definition pay (fuel : nat) : call unit :=
  l ← attempt check_live;
  if is_ok l then
    owed ← load sh_owed;
    match owed with
    | [] => mret tt
    | _ => with_lock_write fuel (mret tt)
    end
  else mret tt.

(** ** Channels *)

(** A step on the slot [ch] resolves to, under the table's lock. *)
Definition on_slot {A} (ch : ChannelId) (f : ChannelSlot → A * ChannelSlot) : sprog (option A) := λ s,
  match table_get ch (sh_channels s) with
  | None => (Ret None, s)
  | Some sl => let '(a, sl') := f sl in
               (Ret (Some a), put_channels (table_put ch sl' (sh_channels s)) s)
  end.

(** [channel_ids]. *)
Definition channel_ids (ch : ChannelId) : call ChannelIds :=
  act (λ s, lift (table_ids ch (sh_channels s)) s).

(** The critical section of [send_open]: [insert_opening] panics on an
    occupied slot. *)
Definition reserve_opening : sprog ChannelId := λ s,
  match allocate (sh_channels s) with
  | (Err _, _) => (Fail Error.NoFreeChannels, s)
  | (Ok ch, t) =>
      match insert_opening ch t with
      | Some t' => (Ret ch, note (Allocated ch) (put_channels t' s))
      | None => (Panicked, put_channels t s)
      end
  end.

(** [Drop for SlotGuard], armed. *)
Definition slot_guard_drop (ch : ChannelId) : call unit :=
  owing ← act (λ s : shared,
    let '(o, t) := free ch (sh_channels s) in
    let s := put_channels t s in
    match o with
    | None => (Ret false, s)
    | Some slot =>
        match slot_ids slot with
        | Some ids =>
            if is_failed slot then (Ret false, s)
            else (Ret true, note (Owes (Owed.Close ids))
                              (put_owed (sh_owed s ++ [Owed.Close ids]) s))
        | None => (Ret false, s)
        end
    end);
  if (owing : bool) then act (modify notify_receive) else mret tt.

(** [send_open] and the rest of an open, in the scope of its [SlotGuard]: the
    guard is disarmed when the channel is returned. *)
Definition open_with (fuel : nat) (destination : bytes) (await_ack : ChannelId → call ChannelId) :
    call ChannelId :=
  ch ← act reserve_opening;
  finally (λ o, match o with Ret _ => mret tt | _ => slot_guard_drop ch end)
    (with_lock_write fuel
       (act (λ s,
          let credit := default 0 (advertised_credit (sh_negotiated s)) in
          write_with (Sent None (mkPacket Command.Open (ch_local ch) credit destination))
            (send_open (ch_local ch) credit destination (checksum (sh_negotiated s))) s)) ≫= λ _,
     await_ack ch).

(** [fail_channel]. *)
Definition fail_channel (fuel : nat) (idx : nat) (ids : ChannelIds) (fault : ChannelFault) :
    call unit :=
  found ← act (on_slot (mkChannelId idx (local ids)) (λ sl, (tt, slot_fail fault sl)));
  match found with Some _ => wake_at idx | None => mret tt end ≫= λ _,
  owe (Owed.Close ids) ≫= λ _,
  pay fuel.

(** ** Reading what is buffered *)

(** The critical section of [take_buffered]: [None] when an OKAY comes first. *)
Definition take_step (ch : ChannelId) (want : Z) : sprog (option (option bytes)) := λ s,
  let has := match table_get ch (sh_channels s) with Some sl => has_data sl | None => false end in
  if negb has && negb (in_step s) then (Fail Error.Desynchronized, s)
  else match table_get ch (sh_channels s) with
  | None => (Fail Error.ChannelClosed, s)
  | Some sl =>
      if has_ended s || negb (take_acks want sl) then
        let '(r, sl') := slot_take_buffered want sl in
        let s' := put_channels (table_put ch sl' (sh_channels s)) s in
        match r with
        | Ok (Some b) => (Ret (Some (Some b)), note (Took ch b) s')
        | Ok None => (Ret (Some None), s')
        | Err e => (Fail e, s')
        end
      else (Ret None, s)
  end.

(** [acknowledge_take]. *)
Definition acknowledge_take (ch : ChannelId) (want : Z) : call unit :=
  with_write_half
    (l ← attempt check_live;
     ack ← (if is_ok l then act (on_slot ch (settle_take want)) else mret None);
     match ack with
     | Some (Some ack) => attempt (act (send_okay_for None ack)) ≫= λ _, mret tt
     | _ => mret tt
     end).

Fixpoint take_buffered (fuel : nat) (ch : ChannelId) (want : Z) : call (option bytes) :=
  match fuel with
  | O => no_fuel
  | S fuel =>
      r ← act (take_step ch want);
      match r with
      | Some taken => mret taken
      | None => until has_ended (acknowledge_take ch want) ≫= λ _, take_buffered fuel ch want
      end
  end.
End Split.
