(* ===== verification/SplitCalls.v ===== *)
(** * The calls on a split connection ([split/writer.rs], [split/reader.rs],
    [split/accept.rs])

    Every call of the [Writer], the [Reader], a held request and a listener, as
    a [task] over [Shared].  [fuel] bounds each loop's rounds; the theorems
    hold for every bound, and a call that runs out of it ends as one whose
    guards have run. *)

From S2P Require Import Prelude Errors Protocol Banner Config SendQueue Slot ChannelTable Wire.
From S2P Require Import Connection Task Split.

Section Calls.
Context {T IoE : Type} `{Transport T IoE}.

Abbreviation shared := (Shared T).
Abbreviation sprog := (prog shared (Error IoE)).
Abbreviation call := (task shared (Error IoE)).

(** ** Sending credit *)

(** [Drop for CreditGuard]; [None] where [sending -= 1] would underflow. *)
Definition credit_guard_drop (ch : ChannelId) (n : Z) (committed : bool) : call unit :=
  act (λ s : shared,
    match table_get ch (sh_channels s) with
    | None => (Ret tt, s)
    | Some sl =>
        match finish (sl_send_queue sl) with
        | None => (Panicked, s)
        | Some q =>
            let sl := set_send_queue q sl in
            let sl := if committed then sl else refund n sl in
            (Ret tt, put_channels (table_put ch sl (sh_channels s)) s)
        end
    end) ≫= λ _,
  if committed then mret tt else act (modify (wake (ch_slot ch))).

(** [Drop for QueueGuard], not served. *)
Definition queue_guard_drop (ch : ChannelId) (place : Z) : call unit :=
  moved ← act (on_slot ch (λ sl,
    let '(moved, q) := leave (sl_send_queue sl) place in (moved, set_send_queue q sl)));
  match moved with
  | Some true => act (modify (wake (ch_slot ch)))
  | _ => mret tt
  end.

(** [try_reserve]: [None] while another is first in line or there is no
    credit. *)
Definition try_reserve (ch : ChannelId) (want place : Z) : sprog (option (Z * bool)) := λ s,
  match table_get ch (sh_channels s) with
  | None => (Fail Error.ChannelClosed, s)
  | Some sl =>
      if is_closed sl then (Fail (closed_error sl), s)
      else if negb (turn (sl_send_queue sl) =? place) then (Ret None, s)
      else match try_reserve_send want sl with
           | (None, _) => (Ret None, s)
           | (Some n, sl) =>
               let sl := set_send_queue (serve (sl_send_queue sl)) sl in
               (Ret (Some (n, bool_decide (is_Some (budget sl)))),
                put_channels (table_put ch sl (sh_channels s)) s)
           end
  end.

(** The place taken at the start of [acquire_credit]. *)
Definition take_place (ch : ChannelId) : sprog Z := λ s,
  match table_get ch (sh_channels s) with
  | None => (Fail Error.ChannelClosed, s)
  | Some sl =>
      if is_closed sl then (Fail (closed_error sl), s)
      else let '(place, q) := enqueue (sl_send_queue sl) in
           (Ret place, put_channels (table_put ch (set_send_queue q sl) (sh_channels s)) s)
  end.

Fixpoint acquire_loop (fuel : nat) (ch : ChannelId) (want place : Z) : call Z :=
  match fuel with
  | O => no_fuel
  | S fuel =>
      seen ← load (signal_of (ch_slot ch));
      r ← act (try_reserve ch want place);
      match r with
      | Some (n, more) =>
          (if (more : bool) then act (modify (wake (ch_slot ch))) else mret tt) ≫= λ _, mret n
      | None =>
          check_live ≫= λ _,
          await_signal (signal_of (ch_slot ch)) seen ≫= λ _,
          acquire_loop fuel ch want place
      end
  end.

(** [signals.get(ch.slot)]. *)
Definition has_signal (ch : ChannelId) : call unit :=
  sg ← load (λ s, sh_signals s !! ch_slot ch);
  match sg with Some _ => mret tt | None => tfail Error.ChannelClosed end.

(** [Writer::acquire_credit]. *)
Definition acquire_credit (fuel : nat) (ch : ChannelId) (want : Z) : call Z :=
  has_signal ch ≫= λ _,
  place ← act (take_place ch);
  finally (λ o, match o with Ret _ => mret tt | _ => queue_guard_drop ch place end)
    (acquire_loop fuel ch want place).

(** One round of [write_channel], in the scope of its [CreditGuard]. *)
Definition send_chunk (fuel : nat) (ch : ChannelId) (n : Z) (chunk : bytes) : call unit :=
  finally (λ o, credit_guard_drop ch n match o with Ret _ => true | _ => false end)
    (ids ← channel_ids ch;
     with_lock_write fuel
       (act (λ s, write_with
          (Sent None (mkPacket Command.Write (local ids) (remote ids) chunk))
          (send_raw Command.Write ids chunk (checksum (sh_negotiated s))) s))).

Fixpoint writer_loop (rounds fuel : nat) (ch : ChannelId) (max : Z) (data : bytes) : call unit :=
  match rounds with
  | O => no_fuel
  | S rounds =>
      match data with
      | [] => mret tt
      | _ =>
          n ← acquire_credit fuel ch (Z.min (len data) max);
          send_chunk fuel ch n (ztake n data) ≫= λ _,
          writer_loop rounds fuel ch max (zdrop n data)
      end
  end.

(** [Writer::write_channel]. *)
Definition writer_write_channel (fuel : nat) (ch : ChannelId) (data : bytes) : call unit :=
  check_desync ≫= λ _,
  match data with
  | [] => mret tt
  | _ =>
      max ← load (λ s, Z.max (n_max_payload (sh_negotiated s)) 1);
      writer_loop (S (length data)) fuel ch max data
  end.

(** [Writer::waits_for_credit]. *)
Definition waits_for_credit (ch : ChannelId) (s : shared) : bool :=
  match table_get ch (sh_channels s) with
  | None => false
  | Some sl =>
      if is_closed sl || bool_decide (is_Some (budget sl)) then false
      else negb (is_empty (sl_send_queue sl)) && negb (is_sending (sl_send_queue sl))
  end.

(** ** Closing *)

(** [close_channel_via]. *)
Definition close_channel_via (fuel : nat) (ch : ChannelId) : call unit :=
  check_desync ≫= λ _,
  ids ← act (λ s, match table_ids ch (sh_channels s) with
                  | Err e => (Fail e, s)
                  | Ok ids => (Ret ids, put_channels (snd (free ch (sh_channels s))) s)
                  end);
  wake_at (ch_slot ch) ≫= λ _,
  owe (Owed.Close ids) ≫= λ _,
  paid ← until clse_called_off (with_lock_write fuel (mret tt));
  match paid with
  | Some _ => mret tt
  | None => check_close
  end.

(** ** Reading through the [Writer] *)

(** The wait of [select_channel]: the signal (choice 0) or the interrupt. *)
Definition await_or {I} (intr : nat → option I) (idx seen : nat) : call (option I) :=
  TStep (Some (TDone Dropped))
    (λ n s, match n with
            | O => if negb (signal_of idx s =? seen)%nat then Some (TDone (Ret None), s) else None
            | S n => match intr n with
                     | Some v => Some (TDone (Ret (Some v)), s)
                     | None => None
                     end
            end).

(** The loop of [select_channel]; [listener] is the one made in the last
    round. *)
Fixpoint select_loop {I} (fuel : nat) (intr : nat → option I) (ch : ChannelId) (want : Z)
    (listener : option nat) : call (SelectResult I) :=
  match fuel with
  | O => no_fuel
  | S fuel =>
      taken ← take_buffered fuel ch want;
      match taken with
      | Some b => mret (SData b)
      | None =>
          check_live ≫= λ _,
          match listener with
          | None =>
              seen ← load (signal_of (ch_slot ch));
              select_loop fuel intr ch want (Some seen)
          | Some seen =>
              interrupted ← await_or intr (ch_slot ch) seen;
              match interrupted with
              | Some v => mret (SInterrupted v)
              | None => select_loop fuel intr ch want None
              end
          end
      end
  end.

(** [Writer::select_channel]; [intr] is what the interrupt may resolve to. *)
Definition writer_select_channel {I} (fuel : nat) (intr : nat → option I) (ch : ChannelId)
    (want : Z) : call (SelectResult I) :=
  has_signal ch ≫= λ _, select_loop fuel intr ch want None.

(** [Writer::read_channel]. *)
Definition writer_read_channel (fuel : nat) (ch : ChannelId) (want : Z) : call bytes :=
  r ← writer_select_channel (I := Empty_set) fuel (λ _, None) ch want;
  match r with
  | SData b => mret b
  | SInterrupted never => match (never : Empty_set) with end
  end.

(** ** Opening through the [Writer] *)

Inductive open_state : Type := StillOpening | Opened | Refused (e : Error IoE).

(** The critical section of [Writer::await_open_ack]. *)
Definition open_answer (ch : ChannelId) (s : shared) : open_state :=
  match table_get ch (sh_channels s) with
  | None => Refused Error.ChannelClosed
  | Some sl =>
      match sl_state sl with
      | ChannelState.Opening => StillOpening
      | ChannelState.Open => Opened
      | ChannelState.Closed =>
          match slot_ids sl with None => Refused (closed_error sl) | Some _ => Opened end
      end
  end.

Fixpoint writer_await_ack (fuel : nat) (ch : ChannelId) : call ChannelId :=
  match fuel with
  | O => no_fuel
  | S fuel =>
      check_in_step ≫= λ _,
      seen ← load (signal_of (ch_slot ch));
      st ← load (open_answer ch);
      match st with
      | Refused e => tfail e
      | Opened => mret ch
      | StillOpening =>
          check_live ≫= λ _,
          await_signal (signal_of (ch_slot ch)) seen ≫= λ _,
          writer_await_ack fuel ch
      end
  end.

(** [&self.shared.signals[ch.slot]]; an index out of range panics. *)
Definition signal_at (idx : nat) : call unit :=
  act (λ s, (match sh_signals s !! idx with Some _ => Ret tt | None => Panicked end, s)).

(** [Writer::open_channel], with the start of [await_open_ack]. *)
Definition writer_open_channel (fuel : nat) (destination : bytes) : call ChannelId :=
  check_live ≫= λ _,
  open_with fuel destination (λ ch, signal_at (ch_slot ch) ≫= λ _, writer_await_ack fuel ch).

(** ** Requests of the device *)

(** [hold_incoming]: a new flag, and its entry in [staged]. *)
Definition hold_incoming (p : PendingOpen) (s : shared) : SplitIncoming * shared :=
  (mkSplitIncoming p (sh_next_flag s),
   put_next_flag (S (sh_next_flag s)) (put_staged (sh_staged s ++ [(po_remote p, sh_next_flag s)]) s)).

(** [stage_incoming]. *)
Definition stage_incoming (p : PendingOpen) : sprog SplitIncoming := state (hold_incoming p).

(** [take_incoming_past]. *)
Definition take_incoming_past (cap : Z) : sprog (option SplitIncoming) :=
  state (λ s,
    if len (sh_staged s) + len (sh_incoming s) <=? cap then (None, s)
    else match pop_front (sh_incoming s) with
         | (None, _) => (None, s)
         | (Some p, q) => let '(i, s) := hold_incoming p (put_incoming q s) in (Some i, s)
         end).

Definition take_incoming : sprog (option SplitIncoming) := take_incoming_past 0.

Definition is_cancelled (flag : nat) (s : shared) : bool := bool_decide (flag ∈ sh_cancelled s).

(** [Drop for SplitIncoming], with what [pending] and [reserved] hold then. *)
Definition incoming_drop (pending : option PendingOpen) (reserved : option ChannelId)
    (flag : nat) : call unit :=
  match reserved with
  | Some ch => act (modify (λ s, put_channels (snd (free ch (sh_channels s))) s))
  | None => mret tt
  end ≫= λ _,
  act (modify (λ s : shared,
    let s := put_staged (filter (λ x, snd x ≠ flag) (sh_staged s)) s in
    match pending with
    | Some p =>
        if is_cancelled flag s then note (Resolved p) s
        else notify_incoming (put_incoming (push_front p (sh_incoming s)) s)
    | None => s
    end)).

(** [SplitIncoming::answer], with the drop of the request where it fails.  The
    request is used up where the verdict went out or the device is gone. *)
Definition split_answer (p : PendingOpen) (reserved : option ChannelId) (flag : nat)
    (verdict : Packet) : call unit :=
  finally (λ o, match o with
                | Ret _ => mret tt
                | Fail e => incoming_drop (if connection_gone e then None else Some p) reserved flag
                | _ => incoming_drop (Some p) reserved flag
                end)
    (with_write_half (act (λ s,
       let '(o, s') := send_packet None verdict s in
       (o, match o with
           | Ret _ => note (Resolved p) s'
           | Fail e => if connection_gone e then note (Resolved p) s' else s'
           | _ => s'
           end)))).

Inductive reservation : Type := Cancelled | Full | Reserved (ch : ChannelId).

(** The critical section of [accept]. *)
Definition reserve_accepted (i : SplitIncoming) : sprog reservation := λ s,
  let p := si_pending i in
  if is_cancelled (si_flag i) s then (Ret Cancelled, note (Resolved p) s)
  else match allocate (sh_channels s) with
       | (Err _, _) => (Ret Full, s)
       | (Ok ch, t) =>
           match insert_accepted ch (po_remote p) (po_credit p) t with
           | Some t' => (Ret (Reserved ch), note (Accepted ch p) (note (Allocated ch) (put_channels t' s)))
           | None => (Panicked, put_channels t s)
           end
       end.

(** [SplitIncoming::accept]. *)
Definition split_accept (i : SplitIncoming) : call ChannelId :=
  let p := si_pending i in
  r ← act (reserve_accepted i);
  match r with
  | Cancelled =>
      incoming_drop None None (si_flag i) ≫= λ _, tfail Error.ChannelClosed
  | Full =>
      split_answer p None (si_flag i) (packet_refuse (po_remote p)) ≫= λ _,
      incoming_drop None None (si_flag i) ≫= λ _,
      tfail Error.NoFreeChannels
  | Reserved ch =>
      payload ← load (λ s, match advertised_credit (sh_negotiated s) with
                           | Some credit => u32_le credit
                           | None => []
                           end);
      split_answer p (Some ch) (si_flag i)
        (mkPacket Command.Ready (ch_local ch) (po_remote p) payload) ≫= λ _,
      incoming_drop None None (si_flag i) ≫= λ _,
      mret ch
  end.

(** [SplitIncoming::reject]. *)
Definition split_reject (i : SplitIncoming) : call unit :=
  let p := si_pending i in
  cancelled ← act (λ s : shared,
    if is_cancelled (si_flag i) s then (Ret true, note (Resolved p) s) else (Ret false, s));
  (if (cancelled : bool) then mret tt
   else split_answer p None (si_flag i) (packet_refuse (po_remote p))) ≫= λ _,
  incoming_drop None None (si_flag i).

(** A request dropped undecided. *)
Definition split_drop (i : SplitIncoming) : call unit :=
  incoming_drop (Some (si_pending i)) None (si_flag i).

(** [Writer::listen_incoming] and [Drop for IncomingListener]. *)
Definition listen_incoming : call unit := act (modify (λ s, put_listeners (sh_listeners s + 1) s)).
Definition listener_drop : call unit := act (modify (λ s, put_listeners (sh_listeners s - 1) s)).

(** [IncomingListener::accept]. *)
Fixpoint listener_accept (fuel : nat) (listener : option nat) : call SplitIncoming :=
  match fuel with
  | O => no_fuel
  | S fuel =>
      d ← load desync;
      (if (d : bool) then check_live else mret tt) ≫= λ _,
      i ← act take_incoming;
      match i with
      | Some i => mret i
      | None =>
          check_live ≫= λ _,
          match listener with
          | Some seen => await_signal sh_incoming_signal seen ≫= λ _, listener_accept fuel None
          | None => seen ← load sh_incoming_signal; listener_accept fuel (Some seen)
          end
      end
  end.

(** [queue_or_refuse]. *)
Definition queue_or_refuse (fuel : nat) (p : PendingOpen) : call unit :=
  queued ← act (λ s : shared,
    if max_channels (n_config (sh_negotiated s)) <=? len (sh_staged s) + len (sh_incoming s)
    then (Ret false, s)
    else (Ret true, put_incoming (push_back p (sh_incoming s)) s));
  if (queued : bool) then act (modify notify_incoming)
  else i ← act (stage_incoming p); split_reject i.

(** [withdraw_open]. *)
Definition withdraw_open (remote : Z) : call unit :=
  closed ← act (λ s : shared,
    match close_remote remote (sh_channels s) with
    | (Some idx, t) => (Ret (Some idx), put_channels t s)
    | (None, t) =>
        let gone := filter (λ p, po_remote p = remote) (sh_incoming s) in
        let flags := snd <$> filter (λ x, fst x = remote) (sh_staged s) in
        let s := put_log (sh_log s ++ (Resolved <$> gone)) s in
        (Ret None, put_cancelled (sh_cancelled s ++ flags)
                     (put_incoming (withdraw remote (sh_incoming s)) (put_channels t s)))
    end);
  match closed with
  | Some idx => act (λ s, (Ret tt, match sh_signals s !! idx with Some _ => wake idx s | None => s end))
  | None => mret tt
  end.

(** ** Receiving *)

Definition on_reader {A} (m : prog (wire T) (Error IoE) A) : sprog A := zoom sh_reader put_reader m.

(** When [receive_interrupted] resolves. *)
Definition interrupted (s : shared) : bool := desync s || negb (bool_decide (sh_owed s = [])).

(** One read of [recv_pkt_or] into a room of [room] bytes.  With [race] the
    interrupt may end it (choice 0), and a drop drops the read. *)
Definition read_step (race : bool) (room : Z) : call (option bytes) :=
  TStep (Some (act (modify (λ s, put_reader (set_transport (t_cancel (w_transport (sh_reader s)))
                                              (sh_reader s)) s)) ≫= λ _, TDone Dropped))
    (λ n s,
       match n with
       | O => if race && interrupted s
              then Some (TDone (Ret None),
                         put_reader (set_transport (t_cancel (w_transport (sh_reader s)))
                                       (sh_reader s)) s)
              else None
       | S _ => let '(o, s') := on_reader (await (t_read room)) s in
                Some (TDone (outcome_map Some id o), s')
       end).

(** The inner loops of [recv_pkt_or], a read at a time. *)
Fixpoint read_rounds (fuel : nat) (max_payload : Z) (race : bool) (spare : Z) :
    call (option Packet) :=
  match fuel with
  | O => no_fuel
  | S fuel =>
      buf ← load (λ s, w_recv_buf (sh_reader s));
      b ← read_step race (staged_room buf spare);
      match b with
      | None => mret None
      | Some [] => tfail Error.UnexpectedEof
      | Some b =>
          let committed := buf ++ b in
          let spare := spare - len b in
          act (on_reader (modify (set_recv_buf committed))) ≫= λ _,
          if wants_more committed spare then read_rounds fuel max_payload race spare
          else
            o ← act (on_reader (decode_buf max_payload));
            match o with
            | Some pkt => mret (Some pkt)
            | None => read_rounds fuel max_payload race (staged_new committed)
            end
      end
  end.

(** [recv_pkt_or] with [receive_interrupted]: where reads are not raced the
    interrupt is polled before the first of them only. *)
Definition recv_or_interrupted (fuel : nat) (race : bool) : call (option Packet) :=
  mp ← load (λ s, max_payload (n_config (sh_negotiated s)));
  o ← act (on_reader (decode_buf mp));
  match o with
  | Some pkt => mret (Some pkt)
  | None =>
      stop ← (if race then mret false else load interrupted);
      if (stop : bool) then mret None
      else
        buf ← load (λ s, w_recv_buf (sh_reader s));
        read_rounds fuel mp race (staged_new buf)
  end.

(** [Reader::recv]. *)
Fixpoint reader_recv (fuel : nat) : call Packet :=
  match fuel with
  | O => no_fuel
  | S fuel =>
      check_live ≫= λ _,
      pay fuel ≫= λ _,
      received ← attempt (recv_or_interrupted fuel read_cancel_safe);
      match received with
      | Ok (Some pkt) => mret pkt
      | Ok None => reader_recv fuel
      | Err e => (if ends_connection e then end_stream else mret tt) ≫= λ _, tfail e
      end
  end.

(** [OnFault]. *)
Inductive OnFault : Type := FailCall | CloseChannel.

(** [Reader::act_on]. *)
Definition reader_act_on (fuel : nat) (pkt : Packet) (on_fault : OnFault) : call unit :=
  out ← act (state (λ s, let '(out, t) := dispatch pkt (sh_channels s) in
                         (out, note (Received pkt out) (put_channels t s))));
  match out with
  | DispatchOutcome.AckWrite idx ack =>
      wake_at idx ≫= λ _, owe (Owed.Okay ack) ≫= λ _, pay fuel
  | DispatchOutcome.CreditGranted idx
  | DispatchOutcome.SlotClosed idx
  | DispatchOutcome.DataBuffered idx => wake_at idx
  | DispatchOutcome.IncomingOpen remote credit destination =>
      queue_or_refuse fuel (mkPending remote credit destination)
  | DispatchOutcome.CancelPendingOpen remote => withdraw_open remote
  | DispatchOutcome.StrayReady ids => owe (Owed.Close ids) ≫= λ _, pay fuel
  | DispatchOutcome.ChannelFault idx ids opening fault =>
      (if opening || match on_fault with CloseChannel => true | FailCall => false end
       then fail_channel fuel idx ids fault else mret tt) ≫= λ _,
      match on_fault with
      | FailCall => tfail (fault_error fault)
      | CloseChannel => mret tt
      end
  | DispatchOutcome.Unmatched => mret tt
  end.

(** [Reader::dispatch]. *)
Definition reader_dispatch (fuel : nat) (pkt : Packet) (on_fault : OnFault) : call unit :=
  r ← attempt (reader_act_on fuel pkt on_fault);
  match r with
  | Ok _ => mret tt
  | Err e => if connection_gone e then mret tt else tfail e
  end.

(** Refusing requests until [next] finds none, as [drain_overflow] and [run]
    do. *)
Fixpoint refuse_all (fuel : nat) (cap : Z) : call unit :=
  match fuel with
  | O => no_fuel
  | S fuel =>
      excess ← act (take_incoming_past cap);
      match excess with
      | None => mret tt
      | Some i =>
          r ← attempt (split_reject i);
          match r with
          | Ok _ => refuse_all fuel cap
          | Err e => if connection_gone e then refuse_all fuel cap else tfail e
          end
      end
  end.

(** [Reader::drain_overflow]. *)
Definition drain_overflow (fuel : nat) : call unit :=
  cap ← load (λ s, max_channels (n_config (sh_negotiated s)));
  refuse_all fuel cap.

(** The critical section of [Reader::await_open_ack] on the READY. *)
Definition take_ready (ch : ChannelId) (pkt : Packet) : sprog (result ProtocolError unit) := λ s,
  let s := note (Received pkt (DispatchOutcome.CreditGranted (ch_slot ch))) s in
  match table_get ch (sh_channels s) with
  | None => (Ret (Ok tt), s)
  | Some sl =>
      match accept_open_ready (arg0 pkt) (data pkt) sl with
      | Ok sl' => (Ret (Ok tt), put_channels (table_put ch sl' (sh_channels s)) s)
      | Err e => (Ret (Err e), s)
      end
  end.

Fixpoint reader_await_loop (fuel : nat) (ch : ChannelId) : call ChannelId :=
  match fuel with
  | O => no_fuel
  | S fuel =>
      pkt ← reader_recv fuel;
      if bool_decide (command pkt = Command.Ready) && (arg1 pkt =? ch_local ch) then
        accepted ← act (take_ready ch pkt);
        match accepted with
        | Ok _ => mret ch
        | Err e =>
            let fault := ChannelFault.Protocol e in
            fail_channel fuel (ch_slot ch) (mkIds (ch_local ch) (arg0 pkt)) fault ≫= λ _,
            tfail (fault_error fault)
        end
      else if bool_decide (command pkt = Command.Close) && (arg1 pkt =? ch_local ch) then
        tfail Error.ChannelClosed
      else reader_dispatch fuel pkt FailCall ≫= λ _, reader_await_loop fuel ch
  end.

(** [Reader::open_channel]. *)
Definition reader_open_channel (fuel : nat) (destination : bytes) : call ChannelId :=
  check_live ≫= λ _,
  open_with fuel destination (λ ch, drain_overflow fuel ≫= λ _, reader_await_loop fuel ch).

(** The loop of [Reader::run]; it returns only with an error. *)
Fixpoint run_loop (fuel : nat) : call Empty_set :=
  match fuel with
  | O => no_fuel
  | S fuel =>
      n ← load sh_listeners;
      (if n =? 0 then refuse_all fuel 0 else mret tt) ≫= λ _,
      pkt ← reader_recv fuel;
      reader_dispatch fuel pkt CloseChannel ≫= λ _,
      run_loop fuel
  end.

(** [Reader::run], which owns the [Reader]: its drop stops the connection. *)
Definition reader_run (fuel : nat) : call Empty_set :=
  finally (λ _, stop) (check_live ≫= λ _, run_loop fuel).

(** [Reader::dispatch_one]. *)
Definition dispatch_one (fuel : nat) : call unit :=
  check_live ≫= λ _,
  drain_overflow fuel ≫= λ _,
  pkt ← reader_recv fuel;
  reader_dispatch fuel pkt CloseChannel.

Fixpoint reader_read_loop (fuel : nat) (ch : ChannelId) (want : Z) : call bytes :=
  match fuel with
  | O => no_fuel
  | S fuel =>
      pkt ← reader_recv fuel;
      dispatched ← attempt (reader_dispatch fuel pkt FailCall);
      taken ← attempt (take_buffered fuel ch want);
      match taken, dispatched with
      | Ok (Some b), _ => mret b
      | _, Err e => tfail e
      | Err e, _ => tfail e
      | Ok None, Ok _ => reader_read_loop fuel ch want
      end
  end.

(** [Reader::read_channel]. *)
Definition reader_read_channel (fuel : nat) (ch : ChannelId) (want : Z) : call bytes :=
  attempt (pay fuel) ≫= λ _,
  taken ← take_buffered fuel ch want;
  match taken with
  | Some b => mret b
  | None =>
      channel_ids ch ≫= λ _,
      drain_overflow fuel ≫= λ _,
      reader_read_loop fuel ch want
  end.

Fixpoint reader_accept_loop (fuel : nat) : call SplitIncoming :=
  match fuel with
  | O => no_fuel
  | S fuel =>
      i ← act take_incoming;
      match i with
      | Some i => mret i
      | None =>
          pkt ← reader_recv fuel;
          reader_dispatch fuel pkt FailCall ≫= λ _,
          reader_accept_loop fuel
      end
  end.

(** [Reader::accept_incoming]. *)
Definition reader_accept_incoming (fuel : nat) : call SplitIncoming :=
  check_live ≫= λ _, pay fuel ≫= λ _, reader_accept_loop fuel.

(** [Drop for Reader]. *)
Definition reader_drop : call unit := stop.
End Calls.
