(* ===== verification/SplitInv.v ===== *)
(** * What the calls on a split connection share, and what each one owns

    The tokens a call may own: the write half (and the debt just sent with it,
    not yet struck off), a reservation of send credit, a place in a channel's
    queue of writers, a request of the device on its way or held for a verdict.

    [sinv] is the invariant over the shared state and all the tokens.  It ties
    the log to the state: the write half has one holder at most; what was owed
    is what was paid, in order, and what is still owed; what is on the wire is
    the frames sent; a channel's credit, what is reserved of it and what was
    sent never exceed what the device granted; a channel's queue is the writers
    that wait and its count of senders those that send; what was read of a
    channel and what is buffered is what arrived; every request is queued, held
    or resolved. *)

From S2P Require Import Prelude Errors Protocol Banner Config SendQueue Slot ChannelTable Wire.
From S2P Require Import Connection Task Split SplitCalls.

(** Where the holder of the write half stands with the first debt. *)
Inductive paying : Type := Idle | Due (debt : Owed) | Paid (debt : Owed).

Inductive token : Type :=
| KLock (st : paying)
| KCredit (ch : ChannelId) (n : Z) (committed : bool)
| KPlace (ch : ChannelId) (place : Z)
| KPending (p : PendingOpen)
| KHeld (flag : nat) (p : option PendingOpen).

(** ** What tokens and log say *)

Definition lock_of (k : token) : option paying :=
  match k with KLock d => Some d | _ => None end.
Definition sender_of (ch : ChannelId) (k : token) : option unit :=
  match k with KCredit ch' _ _ => if decide (ch' = ch) then Some tt else None | _ => None end.
Definition place_of (ch : ChannelId) (k : token) : option Z :=
  match k with KPlace ch' p => if decide (ch' = ch) then Some p else None | _ => None end.
Definition pending_of (k : token) : option PendingOpen :=
  match k with KPending p => Some p | KHeld _ p => p | _ => None end.
Definition flag_of (k : token) : option nat :=
  match k with KHeld f _ => Some f | _ => None end.

Definition debt_of (e : event) : option Owed := match e with Owes d => Some d | _ => None end.
Definition payment_of (e : event) : option Owed := match e with Sent d _ => d | _ => None end.
Definition sent_of (e : event) : option Packet := match e with Sent _ p => Some p | _ => None end.
Definition request_of (e : event) : option PendingOpen :=
  match e with
  | Received _ (DispatchOutcome.IncomingOpen r c d) => Some (mkPending r c d)
  | _ => None
  end.
Definition resolved_of (e : event) : option PendingOpen :=
  match e with Resolved p => Some p | _ => None end.
Definition allocated_of (e : event) : option ChannelId :=
  match e with Allocated ch => Some ch | _ => None end.
Definition taken_of (ch : ChannelId) (e : event) : option bytes :=
  match e with Took ch' b => if decide (ch' = ch) then Some b else None | _ => None end.
Definition buffered_of (ch : ChannelId) (e : event) : option bytes :=
  match e with
  | Received pkt (DispatchOutcome.AckWrite i _) | Received pkt (DispatchOutcome.DataBuffered i) =>
      if decide (mkChannelId i (arg1 pkt) = ch) then Some (data pkt) else None
  | _ => None
  end.

(** Credit is counted in bytes with delayed acknowledgement, in packets
    without. *)
Definition units (mode : AckMode) (n : Z) : Z :=
  match mode with AckMode.Delayed => Z.max 0 n | AckMode.Classic => 1 end.

(** A READY's grant to the channel [l], an accepted request's. *)
Definition grant_of (mode : AckMode) (l : Z) (e : event) : Z :=
  match e with
  | Received pkt _ =>
      if bool_decide (command pkt = Command.Ready) && (arg1 pkt =? l) then
        match mode with
        | AckMode.Delayed => if 4 <=? len (data pkt) then Z.max 0 (u32_at 0 (data pkt)) else 0
        | AckMode.Classic => 1
        end
      else 0
  | Accepted ch p =>
      if ch_local ch =? l then
        match mode with AckMode.Delayed => Z.max 0 (po_credit p) | AckMode.Classic => 0 end
      else 0
  | _ => 0
  end.

(** A WRTE sent on the channel [l]. *)
Definition use_of (mode : AckMode) (l : Z) (e : event) : Z :=
  match e with
  | Sent _ pkt =>
      if bool_decide (command pkt = Command.Write) && (arg0 pkt =? l)
      then units mode (len (data pkt)) else 0
  | _ => 0
  end.

Definition reserve_of (mode : AckMode) (l : Z) (k : token) : Z :=
  match k with
  | KCredit ch n false => if ch_local ch =? l then units mode n else 0
  | _ => 0
  end.

Fixpoint total {A} (f : A → Z) (l : list A) : Z :=
  match l with [] => 0 | x :: l => f x + total f l end.

(** The first write needs no grant without delayed acknowledgement. *)
Definition head_start (mode : AckMode) : Z :=
  match mode with AckMode.Delayed => 0 | AckMode.Classic => 1 end.

Definition avail (sl : ChannelSlot) : Z :=
  match p_ack (sl_policy sl) with
  | AckMode.Delayed => Z.max 0 (sl_send_budget sl)
  | AckMode.Classic => if sl_wrte_acked sl then 1 else 0
  end.

Lemma total_app {A} (f : A → Z) l1 l2 : total f (l1 ++ l2) = total f l1 + total f l2.
Proof. induction l1; simpl; lia. Qed.

Lemma total_perm {A} (f : A → Z) l1 l2 : l1 ≡ₚ l2 → total f l1 = total f l2.
Proof. induction 1; simpl; lia. Qed.

Lemma units_nonneg mode n : 0 <= units mode n.
Proof. destruct mode; simpl; lia. Qed.

Lemma total_nonneg {A} (f : A → Z) l : (∀ x, 0 <= f x) → 0 <= total f l.
Proof. intros Hf. induction l as [|x l IH]; simpl; [lia|]. pose proof (Hf x). lia. Qed.

Lemma reserve_nonneg mode l k : 0 <= reserve_of mode l k.
Proof.
  destruct k as [|? ? []| | |]; simpl; try lia. destruct (_ =? _); [apply units_nonneg|lia].
Qed.

Lemma use_nonneg mode l e : 0 <= use_of mode l e.
Proof. destruct e; simpl; try lia. destruct (_ && _); [apply units_nonneg|lia]. Qed.

(** What one channel's accounts say. *)
Record account : Type := mkAccount {
  a_senders : Z; a_places : list Z; a_used : Z; a_reserved : Z; a_granted : Z;
  a_taken : bytes; a_buffered : bytes;
}.

Definition account_of (mode : AckMode) (ch : ChannelId) (log : list event) (toks : list token) :
    account :=
  mkAccount (len (omap (sender_of ch) toks)) (omap (place_of ch) toks)
    (total (use_of mode (ch_local ch)) log) (total (reserve_of mode (ch_local ch)) toks)
    (total (grant_of mode (ch_local ch)) log)
    (concat (omap (taken_of ch) log)) (concat (omap (buffered_of ch) log)).

(** ** The parts of the invariant *)

(** One channel. *)
Record chan_ok (pol : RxPolicy) (a : account) (sl : ChannelSlot) : Prop := {
  ck_policy : sl_policy sl = pol;
  ck_queue : ∃ ws, refines (sl_send_queue sl) ws ∧ ws ≡ₚ a_places a;
  ck_sending : q_sending (sl_send_queue sl) = a_senders a;
  ck_credit : a_used a + a_reserved a + avail sl <= a_granted a + head_start (p_ack pol);
  ck_stream : a_taken a ++ sl_rx_buf sl = a_buffered a;
}.

Section Invariant.
Context {T IoE : Type} `{TransportLaws T IoE}.
(** Where the split connection started: the next channel id, the number of
    slots, the requests already queued, what the transport had sent. *)
Context (start : Z) (width : nat) (inc0 : list PendingOpen) (out0 : bytes).

Abbreviation shared := (Shared T).
Implicit Types s : shared.

Definition allocs (log : list event) : Z := len (omap allocated_of log).

(** The executions spoken of hand out fewer than [2^32] ids. *)
Definition bounded s : Prop := start + allocs (sh_log s) < 2 ^ 32.

Record channels_inv (t : ChannelTable) (n : nat) (log : list event) (toks : list token) : Prop := {
  ch_signals : n = length (t_slots t);
  ch_next : t_next_local_id t = start + allocs log;
  ch_unique : unique_locals t;
  ch_range : ∀ i sl, t_slots t !! i = Some (Some sl) → sl_local sl < t_next_local_id t;
  ch_slots : ∀ i sl, t_slots t !! i = Some (Some sl) →
    chan_ok (t_policy t) (account_of (p_ack (t_policy t)) (mkChannelId i (sl_local sl)) log toks) sl;
  ch_limit : ∀ ch, let a := account_of (p_ack (t_policy t)) ch log toks in
    a_used a + a_reserved a <= a_granted a + head_start (p_ack (t_policy t));
  ch_fresh : ∀ ch, t_next_local_id t <= ch_local ch →
    let a := account_of (p_ack (t_policy t)) ch log toks in
    a_senders a = 0 ∧ a_places a = [] ∧ a_used a = 0 ∧ a_reserved a = 0 ∧
    a_taken a = [] ∧ a_buffered a = [];
}.

Definition lock_inv (locked : bool) (toks : list token) : Prop :=
  len (omap lock_of toks) = if locked then 1 else 0.

Definition debts (log : list event) : list Owed := omap debt_of log.
Definition payments (log : list event) : list Owed := omap payment_of log.

(** What was owed is what was paid and what is still owed.  The debt the holder
    of the write half has looked at is first in line; once it is sent it is
    paid, and still first in line. *)
Definition debts_inv (owed : list Owed) (log : list event) (toks : list token) : Prop :=
  Forgiven ∈ log ∨
  ((∀ d, KLock (Due d) ∈ toks → ∃ rest, owed = d :: rest) ∧
   (∀ d, KLock (Paid d) ∈ toks → ∃ rest, owed = d :: rest ∧ debts log = payments log ++ rest) ∧
   ((∀ d, KLock (Paid d) ∉ toks) → debts log = payments log ++ owed)).

Definition frames (k : Checksum) (pkts : list Packet) : bytes :=
  concat ((λ p, match frame k p with Ok b => b | Err _ => [] end) <$> pkts).

Definition wire_inv (w : wire T) (k : Checksum) (log : list event) : Prop :=
  w_desync w = false → WriteFailed true ∉ log →
  outgoing (w_transport w) = out0 ++ frames k (omap sent_of log).

Record requests_inv (inc : IncomingQueue) (staged : list (Z * nat)) (next : nat)
    (log : list event) (toks : list token) : Prop := {
  rq_requests : inc0 ++ omap request_of log
    ≡ₚ inc ++ omap pending_of toks ++ omap resolved_of log;
  rq_flags : snd <$> staged ≡ₚ omap flag_of toks;
  rq_fresh : NoDup (snd <$> staged) ∧ ∀ f, f ∈ snd <$> staged → (f < next)%nat;
}.

Record sinv s (toks : list token) : Prop := {
  i_width : length (sh_signals s) = width;
  i_lock : lock_inv (sh_locked s) toks;
  i_debts : debts_inv (sh_owed s) (sh_log s) toks;
  i_wire : wire_inv (sh_wire s) (checksum (sh_negotiated s)) (sh_log s);
  i_channels : channels_inv (sh_channels s) (length (sh_signals s)) (sh_log s) toks;
  i_requests : requests_inv (sh_incoming s) (sh_staged s) (sh_next_flag s) (sh_log s) toks;
}.

Lemma account_perm mode ch log toks toks' :
  toks ≡ₚ toks' →
  let a := account_of mode ch log toks in let a' := account_of mode ch log toks' in
  a_senders a = a_senders a' ∧ a_places a ≡ₚ a_places a' ∧ a_used a = a_used a' ∧
  a_reserved a = a_reserved a' ∧ a_granted a = a_granted a' ∧ a_taken a = a_taken a' ∧
  a_buffered a = a_buffered a'.
Proof.
  intros Hp. simpl. unfold len. rewrite (total_perm _ _ _ Hp).
  assert (omap (sender_of ch) toks ≡ₚ omap (sender_of ch) toks') as -> by (by apply omap_Permutation).
  repeat split. by apply omap_Permutation.
Qed.

#[global] Instance sinv_perm : Proper ((=) ==> (≡ₚ) ==> iff) sinv.
Proof.
  assert (∀ s toks toks', toks ≡ₚ toks' → sinv s toks → sinv s toks') as Hone.
  { intros s toks toks' Hp [Hwd Hl Hd Hw Hc Hr]. split; [done| | |done| |].
    - unfold lock_inv, len in *. by rewrite <- Hp.
    - destruct Hd as [?|(H1 & H2' & H3)]; [by left|right]. split_and!.
      + intros d. rewrite <- Hp. apply H1.
      + intros d. rewrite <- Hp. apply H2'.
      + intros Hn. apply H3. intros d. rewrite Hp. apply Hn.
    - destruct Hc as [H1 H2' H3 H4 H5 H6 H7]. split; try done.
      + intros i sl Hi. destruct (H5 i sl Hi) as [C1 (ws & C2 & C2') C3 C4 C5].
        destruct (account_perm (p_ack (t_policy (sh_channels s))) (mkChannelId i (sl_local sl))
          (sh_log s) toks toks' Hp) as (E1 & E2 & E3 & E4 & E5 & E6 & E7).
        split; [done| |congruence| |congruence].
        * exists ws. split; [done|]. by rewrite C2'.
        * rewrite <- E3, <- E4, <- E5. done.
      + intros ch. destruct (account_perm (p_ack (t_policy (sh_channels s))) ch
          (sh_log s) toks toks' Hp) as (E1 & E2 & E3 & E4 & E5 & E6 & E7).
        cbv zeta. rewrite <- E3, <- E4, <- E5. apply H6.
      + intros ch Hn. destruct (account_perm (p_ack (t_policy (sh_channels s))) ch
          (sh_log s) toks toks' Hp) as (E1 & E2 & E3 & E4 & E5 & E6 & E7).
        destruct (H7 ch Hn) as (F1 & F2 & F3 & F4 & F5 & F6). cbv zeta.
        rewrite <- E1, <- E3, <- E4, <- E6, <- E7. split_and!; try done.
        rewrite F2 in E2. by apply Permutation_nil_l in E2.
    - destruct Hr as [H1 H2' H3]. split; [|by rewrite <- Hp|done]. by rewrite <- Hp. }
  intros s ? <- toks toks' Hp. split; apply Hone; [done|by symmetry].
Qed.
End Invariant.
