(* ===== verification/SplitSteps.v ===== *)
(** * Steps on the shared state keep the invariant

    One lemma per kind of step: what is recorded without effect on the
    accounts, signals and flags, debts, writes, and every operation on a
    channel's slot. *)

From S2P Require Import Prelude Errors Protocol Banner Config SendQueue Slot ChannelTable Wire.
From S2P Require Import Connection Task Split SplitCalls SplitInv.

(** ** Accounts *)

(** [a'] claims no more than [a]. *)
Definition account_le (a a' : account) : Prop :=
  a_senders a' = a_senders a ∧ a_places a' = a_places a ∧ a_taken a' = a_taken a ∧
  a_buffered a' = a_buffered a ∧ a_used a' + a_reserved a' <= a_used a + a_reserved a ∧
  a_granted a <= a_granted a'.

#[global] Instance account_le_refl : Reflexive account_le.
Proof. intros a. unfold account_le. split_and!; done. Qed.

Lemma account_le_eq a a' : a = a' → account_le a a'.
Proof. by intros ->. Qed.

Lemma chan_ok_le pol a a' sl : chan_ok pol a sl → account_le a a' → chan_ok pol a' sl.
Proof.
  intros [H1 (ws & H2 & H2') H3 H4 H5] (E1 & E2 & E3 & E4 & E5 & E6).
  split; [done| |congruence|lia|congruence]. exists ws. by rewrite E2.
Qed.

Lemma used_nonneg mode ch log toks : 0 <= a_used (account_of mode ch log toks).
Proof. apply total_nonneg, use_nonneg. Qed.

Lemma reserved_nonneg mode ch log toks : 0 <= a_reserved (account_of mode ch log toks).
Proof. apply total_nonneg, reserve_nonneg. Qed.

Lemma avail_nonneg sl : 0 <= avail sl.
Proof. unfold avail. destruct (p_ack _); [|lia]. by destruct (sl_wrte_acked sl). Qed.

(** An event that says nothing of any channel. *)
Definition silent (e : event) : Prop :=
  allocated_of e = None ∧ (∀ ch, taken_of ch e = None) ∧ (∀ ch, buffered_of ch e = None) ∧
  (∀ mode l, use_of mode l e = 0) ∧ (∀ mode l, grant_of mode l e = 0).

Lemma account_silent mode ch log toks e :
  silent e → account_of mode ch (log ++ [e]) toks = account_of mode ch log toks.
Proof.
  intros (_ & Ht & Hb & Hu & Hg). unfold account_of.
  rewrite !omap_app, !total_app. simpl.
  rewrite Ht, Hb, Hu, Hg, !app_nil_r, !Z.add_0_r. done.
Qed.

Lemma allocs_silent log e : allocated_of e = None → allocs (log ++ [e]) = allocs log.
Proof. intros He. unfold allocs. rewrite omap_app. simpl. by rewrite He, app_nil_r. Qed.

Section Channels.
Context (start : Z).
Implicit Types t : ChannelTable.

Abbreviation channels_inv := (channels_inv start).
Abbreviation acc t := (account_of (p_ack (t_policy t))).

(** What a channel whose id was never handed out has. *)
Definition untouched (a : account) : Prop :=
  a_senders a = 0 ∧ a_places a = [] ∧ a_used a = 0 ∧ a_reserved a = 0 ∧
  a_taken a = [] ∧ a_buffered a = [].

(** A step that leaves the slots where they are, or frees some. *)
Lemma channels_step t t' n log log' toks toks' :
  channels_inv t n log toks →
  length (t_slots t') = length (t_slots t) → t_next_local_id t' = t_next_local_id t →
  t_policy t' = t_policy t → allocs log' = allocs log →
  (∀ i sl', t_slots t' !! i = Some (Some sl') → ∃ sl, t_slots t !! i = Some (Some sl) ∧
     sl_local sl' = sl_local sl ∧
     (chan_ok (t_policy t) (acc t (mkChannelId i (sl_local sl)) log toks) sl →
      chan_ok (t_policy t) (acc t (mkChannelId i (sl_local sl)) log' toks') sl')) →
  (∀ ch, let a := acc t ch log toks in let a' := acc t ch log' toks' in
     a_used a' + a_reserved a' <= a_granted a' + head_start (p_ack (t_policy t)) ∧
     (t_next_local_id t <= ch_local ch → untouched a → untouched a')) →
  channels_inv t' n log' toks'.
Proof.
  intros [H1 H2 H3 H4 H5 H6 H7] Hlen Hnext Hpol Hal Hsl Hch. split.
  - lia.
  - by rewrite Hnext, Hal.
  - intros i j s1 s2 (s1' & Hi & Hl1 & _)%Hsl (s2' & Hj & Hl2 & _)%Hsl Heq.
    eapply H3; [done|done|congruence].
  - intros i sl' (sl & Hi & Hl & _)%Hsl. rewrite Hnext, Hl. eauto.
  - intros i sl' (sl & Hi & Hl & Hok)%Hsl. rewrite Hpol, Hl. apply Hok. eauto.
  - intros ch. rewrite Hpol. by destruct (Hch ch).
  - intros ch. rewrite Hnext, Hpol. intros Hf. apply (Hch ch); [done|]. by apply H7.
Qed.

Lemma account_le_weak t n log toks log' toks' ch :
  channels_inv t n log toks → account_le (acc t ch log toks) (acc t ch log' toks') →
  let a := acc t ch log toks in let a' := acc t ch log' toks' in
  a_used a' + a_reserved a' <= a_granted a' + head_start (p_ack (t_policy t)) ∧
  (t_next_local_id t <= ch_local ch → untouched a → untouched a').
Proof.
  intros Hc (E1 & E2 & E3 & E4 & E5 & E6). cbv zeta. pose proof (ch_limit _ _ _ _ _ Hc ch) as Hl.
  cbv zeta in Hl. split; [lia|]. intros _ (U1 & U2 & U3 & U4 & U5 & U6).
  pose proof (used_nonneg (p_ack (t_policy t)) ch log' toks').
  pose proof (reserved_nonneg (p_ack (t_policy t)) ch log' toks').
  unfold untouched. rewrite E1, E2, E3, E4. split_and!; try done; lia.
Qed.

(** Nothing happens to the table, and no account claims more. *)
Lemma channels_quiet t n log log' toks toks' :
  channels_inv t n log toks → allocs log' = allocs log →
  (∀ ch, account_le (acc t ch log toks) (acc t ch log' toks')) → channels_inv t n log' toks'.
Proof.
  intros Hc Hal Hle. eapply channels_step; [done..| |].
  - intros i sl Hi. exists sl. split; [done|]. split; [done|]. intros Hok. by eapply chan_ok_le.
  - intros ch. by eapply account_le_weak.
Qed.

Lemma channels_note t n log toks e :
  silent e → channels_inv t n log toks → channels_inv t n (log ++ [e]) toks.
Proof.
  intros He Hc. eapply channels_quiet; [done|apply allocs_silent, He|].
  intros ch. rewrite account_silent by done. done.
Qed.

(** A token that is of no channel. *)
Lemma channels_other t n log k toks :
  match k with KCredit _ _ _ | KPlace _ _ => False | _ => True end →
  channels_inv t n log (k :: toks) ↔ channels_inv t n log toks.
Proof. intros Hk. split; intros []; split; try done; by destruct k. Qed.

(** The slot at [i] is replaced. *)
Lemma channels_put t n log log' toks toks' i sl sl' :
  channels_inv t n log toks → t_slots t !! i = Some (Some sl) → sl_local sl' = sl_local sl →
  allocs log' = allocs log →
  (∀ ch, ch_local ch ≠ sl_local sl → account_le (acc t ch log toks) (acc t ch log' toks')) →
  (chan_ok (t_policy t) (acc t (mkChannelId i (sl_local sl)) log toks) sl →
   chan_ok (t_policy t) (acc t (mkChannelId i (sl_local sl)) log' toks') sl') →
  channels_inv (set_slots (<[i := Some sl']> (t_slots t)) t) n log' toks'.
Proof.
  intros Hc Hi Hl Hal Hle Hok.
  assert (i < length (t_slots t))%nat as Hlt by (by eapply lookup_lt_Some).
  pose proof (Hok (ch_slots _ _ _ _ _ Hc i sl Hi)) as Hok'.
  eapply channels_step; [done|by simpl; rewrite length_insert|done|done|done| |].
  - intros j s2 Hj. simpl in Hj. destruct (decide (j = i)) as [->|Hne].
    + rewrite list_lookup_insert_eq in Hj by done. simplify_eq. eauto.
    + rewrite list_lookup_insert_ne in Hj by done. exists s2. split; [done|]. split; [done|].
      intros Hs2. eapply chan_ok_le; [done|]. apply Hle. simpl. intros Heq.
      apply Hne. by eapply (ch_unique _ _ _ _ _ Hc).
  - intros ch. destruct (decide (ch_local ch = sl_local sl)) as [Heq|Hne].
    + split.
      * pose proof (ck_credit _ _ _ Hok') as Hcr. simpl in *. rewrite Heq.
        pose proof (avail_nonneg sl'). lia.
      * intros Hn. pose proof (ch_range _ _ _ _ _ Hc i sl Hi). lia.
    + by eapply account_le_weak; [|apply Hle].
Qed.

(** Slots are given up. *)
Lemma channels_freed t n log toks ch :
  channels_inv t n log toks → channels_inv (snd (free ch t)) n log toks.
Proof.
  intros Hc. unfold free. destruct (table_get ch t) as [s|]; [|done]. simpl.
  eapply channels_step; [done|by simpl; rewrite length_insert|done|done|done| |].
  - intros i sl Hi. simpl in Hi. destruct (decide (i = ch_slot ch)) as [->|Hne].
    + apply list_lookup_insert_Some in Hi as [(_ & ? & _)|[? _]]; done.
    + rewrite list_lookup_insert_ne in Hi by done. eauto.
  - intros ch'. by eapply account_le_weak.
Qed.

(** A slot is filled for the id just handed out. *)
Lemma channels_filled t n log toks ch t' sl ev :
  channels_inv t n log toks → allocate t = (Ok ch, t') → start + allocs log + 1 < 2 ^ 32 →
  0 <= start →
  sl_local sl = ch_local ch → sl_policy sl = t_policy t → sl_send_queue sl = queue_default →
  sl_rx_buf sl = [] →
  allocs (log ++ ev) = allocs log + 1 →
  (∀ ch', ch' ≠ ch → account_le (acc t ch' log toks) (acc t ch' (log ++ ev) toks)) →
  let a := acc t ch log toks in let a' := acc t ch (log ++ ev) toks in
  a_senders a' = a_senders a → a_places a' = a_places a → a_taken a' = a_taken a →
  a_buffered a' = a_buffered a → a_used a' = a_used a → a_reserved a' = a_reserved a →
  avail sl <= a_granted a' + head_start (p_ack (t_policy t)) →
  ∃ t'', fill ch sl t' = Some t'' ∧ channels_inv t'' n (log ++ ev) toks.
Proof.
  intros Hc Ha Hb Hst Hloc Hpol Hq Hrx Hal Hle a a' E1 E2 E3 E4 E5 E6 Hav.
  unfold allocate in Ha. destruct (position_none (t_slots t)) as [i|] eqn:Hp; [|done].
  apply position_none_some in Hp. pose proof (lookup_lt_Some _ _ _ Hp) as Hlt.
  pose proof Hc as [H1 H2 H3 H4 H5 H6 H7]. injection Ha as <- <-. simpl in Hloc, Hle.
  assert (0 <= allocs log) by (unfold allocs; apply len_nonneg).
  assert (Z.max (wrap_u32 (t_next_local_id t + 1)) 1 = t_next_local_id t + 1) as Hn.
  { unfold wrap_u32. rewrite Z.mod_small by lia. lia. }
  unfold fill. simpl. rewrite Hp. eexists. split; [done|].
  destruct (H7 (mkChannelId i (t_next_local_id t))) as (U1 & U2 & U3 & U4 & U5 & U6); [simpl; lia|].
  fold a in U1, U2, U3, U4, U5, U6.
  split; cbn [t_slots set_slots t_next_local_id t_policy].
  - by rewrite length_insert.
  - rewrite Hn, Hal. lia.
  - intros j1 j2 s1 s2 Hj1 Hj2 Heq. simpl in *.
    destruct (decide (j1 = i)) as [->|], (decide (j2 = i)) as [->|]; [done|..].
    + rewrite list_lookup_insert_eq in Hj1 by done. rewrite list_lookup_insert_ne in Hj2 by done.
      simplify_eq. apply H4 in Hj2. lia.
    + rewrite list_lookup_insert_eq in Hj2 by done. rewrite list_lookup_insert_ne in Hj1 by done.
      simplify_eq. apply H4 in Hj1. lia.
    + rewrite list_lookup_insert_ne in Hj1 by done. rewrite list_lookup_insert_ne in Hj2 by done.
      by eapply H3.
  - intros j s Hj. rewrite Hn. destruct (decide (j = i)) as [->|].
    + rewrite list_lookup_insert_eq in Hj by done. simplify_eq. lia.
    + rewrite list_lookup_insert_ne in Hj by done. apply H4 in Hj. lia.
  - intros j s Hj. destruct (decide (j = i)) as [->|].
    + rewrite list_lookup_insert_eq in Hj by done. simplify_eq. rewrite Hloc. fold a'.
      split; [done| | | |].
      * exists []. rewrite Hq, E2, U2. split; [apply refines_default|done].
      * rewrite Hq, E1, U1. done.
      * lia.
      * rewrite Hrx, E3, E4, U5, U6. done.
    + rewrite list_lookup_insert_ne in Hj by done. eapply chan_ok_le; [by eauto|].
      apply Hle. intros [= ? ?]. done.
  - intros ch'. destruct (decide (ch' = mkChannelId i (t_next_local_id t))) as [->|Hne].
    + fold a'. pose proof (avail_nonneg sl). cbv zeta. fold a'. rewrite E5, E6, U3, U4. lia.
    + by apply (account_le_weak t n log toks); [|apply Hle].
  - intros ch' Hch'. assert (ch' ≠ mkChannelId i (t_next_local_id t)) as Hne.
    { intros ->. simpl in Hch'. lia. }
    apply (account_le_weak t n log toks); [done|by apply Hle|lia|]. apply H7. lia.
Qed.

(** Only channels that were handed out own tokens. *)
Lemma channels_token t n log toks k ch :
  channels_inv t n log toks → k ∈ toks →
  match k with KCredit ch' _ _ | KPlace ch' _ => ch' = ch | _ => False end →
  ch_local ch < t_next_local_id t.
Proof.
  intros Hc Hin Hk. destruct (decide (ch_local ch < t_next_local_id t)) as [|Hge]; [done|exfalso].
  destruct (ch_fresh _ _ _ _ _ Hc ch) as (U1 & U2 & _); [lia|]. simpl in *.
  destruct k; try done; subst.
  - assert (tt ∈ omap (sender_of ch) toks) as He.
    { apply list_elem_of_omap. eexists. split; [done|]. simpl. by rewrite decide_True. }
    apply len_0_nil in U1. rewrite U1 in He. by apply not_elem_of_nil in He.
  - assert (place ∈ omap (place_of ch) toks) as He.
    { apply list_elem_of_omap. eexists. split; [done|]. simpl. by rewrite decide_True. }
    rewrite U2 in He. by apply not_elem_of_nil in He.
Qed.

(** A token of a channel that is gone is given up. *)
Lemma channels_drop_token t n log toks k ch :
  channels_inv t n log (k :: toks) → table_get ch t = None →
  match k with KCredit ch' _ _ | KPlace ch' _ => ch' = ch | _ => False end →
  channels_inv t n log toks.
Proof.
  intros Hc Hg Hk.
  assert (∀ ch', ch' ≠ ch → account_le (acc t ch' log (k :: toks)) (acc t ch' log toks)) as Hle.
  { intros ch' Hne. unfold account_le, account_of. simpl.
    pose proof (reserve_nonneg (p_ack (t_policy t)) (ch_local ch') k).
    destruct k; try done; subst; simpl in *; rewrite decide_False by done; split_and!; lia || done. }
  eapply channels_step; [done..| |].
  - intros i sl Hi. exists sl. split; [done|]. split; [done|]. intros Hok.
    eapply chan_ok_le; [done|]. apply Hle. intros <-.
    assert (table_get (mkChannelId i (sl_local sl)) t = Some sl) by (by apply table_get_some).
    congruence.
  - intros ch'. destruct (decide (ch' = ch)) as [->|Hne]; [|by eapply account_le_weak; [|apply Hle]].
    split.
    + pose proof (ch_limit _ _ _ _ _ Hc ch) as Hl. simpl in *.
      pose proof (reserve_nonneg (p_ack (t_policy t)) (ch_local ch) k). lia.
    + intros Hf. assert (ch_local ch < t_next_local_id t); [|lia].
      eapply channels_token; [done|by left|done].
Qed.
End Channels.

(** ** Operations on a slot *)

Section Slots.
Context (start : Z).
Implicit Types t : ChannelTable.

Abbreviation channels_inv := (channels_inv start).
Abbreviation acc t := (account_of (p_ack (t_policy t))).

Lemma channels_at t n log log' toks toks' ch sl sl' :
  channels_inv t n log toks → table_get ch t = Some sl → sl_local sl' = sl_local sl →
  allocs log' = allocs log →
  (∀ ch', ch_local ch' ≠ ch_local ch → account_le (acc t ch' log toks) (acc t ch' log' toks')) →
  (chan_ok (t_policy t) (acc t ch log toks) sl → chan_ok (t_policy t) (acc t ch log' toks') sl') →
  channels_inv (table_put ch sl' t) n log' toks'.
Proof.
  intros Hc [Hi Hl]%table_get_some Hl' Hal Hle Hok. unfold table_put.
  assert (ch = mkChannelId (ch_slot ch) (sl_local sl)) as Hch by (destruct ch; simpl in *; congruence).
  eapply channels_put; [done|done|done|done| |].
  - intros ch' Hne. apply Hle. by rewrite <- Hl.
  - by rewrite <- Hch.
Qed.

(** A slot changed where no account looks. *)
Lemma channels_slot t n log toks ch sl sl' :
  channels_inv t n log toks → table_get ch t = Some sl → sl_local sl' = sl_local sl →
  sl_policy sl' = sl_policy sl → sl_send_queue sl' = sl_send_queue sl →
  sl_rx_buf sl' = sl_rx_buf sl → avail sl' <= avail sl →
  channels_inv (table_put ch sl' t) n log toks.
Proof.
  intros Hc Hg Hl Hp Hq Hr Ha. eapply channels_at; [done..|].
  intros [C1 C2 C3 C4 C5]. split; [by rewrite Hp|by rewrite Hq|by rewrite Hq|lia|by rewrite Hr].
Qed.

(** What a token of another channel says. *)
Lemma account_other mode ch ch' log k toks :
  ch_local ch' ≠ ch_local ch →
  match k with KCredit c _ _ | KPlace c _ => c = ch | _ => True end →
  account_of mode ch' log (k :: toks) = account_of mode ch' log toks.
Proof.
  intros Hne Hk. unfold account_of. simpl.
  destruct k as [|c n []|c p| |]; simpl; try done; subst;
    try (destruct (Z.eqb_spec (ch_local ch) (ch_local ch')); [congruence|]);
    rewrite decide_False by congruence; done.
Qed.

Lemma channels_enqueue t n log toks ch sl :
  channels_inv t n log toks → table_get ch t = Some sl →
  let '(place, q) := enqueue (sl_send_queue sl) in
  channels_inv (table_put ch (set_send_queue q sl) t) n log (KPlace ch place :: toks).
Proof.
  intros Hc Hg. destruct (enqueue (sl_send_queue sl)) as [place q] eqn:He.
  eapply channels_at; [done|done|done|done| |].
  - intros ch' Hne. by rewrite (account_other _ ch).
  - intros [C1 (ws & C2 & C2') C3 C4 C5]. pose proof (enqueue_refines _ _ C2) as Hr.
    rewrite He in Hr. split; [done| | |done|done].
    + exists (ws ++ [place]). split; [done|]. simpl. rewrite decide_True by done.
      rewrite C2'. simpl. solve_Permutation.
    + unfold enqueue in He. simplify_eq. done.
Qed.

Lemma channels_leave t n log toks ch sl place :
  channels_inv t n log (KPlace ch place :: toks) → table_get ch t = Some sl →
  let '(moved, q) := leave (sl_send_queue sl) place in
  channels_inv (table_put ch (set_send_queue q sl) t) n log toks.
Proof.
  intros Hc Hg. destruct (leave (sl_send_queue sl) place) as [moved q] eqn:He.
  eapply channels_at; [done|done|done|done| |].
  - intros ch' Hne. by rewrite (account_other _ ch).
  - intros [C1 (ws & C2 & C2') C3 C4 C5]. simpl in C2'. rewrite decide_True in C2' by done.
    assert (place ∈ ws) as Hin by (rewrite C2'; by left).
    destruct (leave_refines _ _ _ C2 Hin) as (Hr & _ & Hs). rewrite He in Hr, Hs. cbn [snd] in Hr, Hs.
    split; [done| |by simpl; rewrite Hs; exact C3|done|done].
    exists (pop_place place ws). split; [done|].
    assert (NoDup ws) as Hnd.
    { clear -C2. destruct C2 as [_ Hs _]. induction Hs as [|x ws Hs IH Hx]; [constructor|].
      constructor; [|done]. intros Hin. eapply Forall_forall in Hx; [|done]. lia. }
    rewrite C2' in Hnd. apply NoDup_cons in Hnd as [Hni _].
    trans (pop_place place (place :: omap (place_of ch) toks)); [unfold pop_place; by rewrite C2'|].
    unfold pop_place. rewrite filter_cons_False by auto.
    by change (pop_place place (omap (place_of ch) toks) ≡ₚ omap (place_of ch) toks);
      rewrite pop_not_elem.
Qed.

Lemma spend_keeps m sl :
  sl_local (spend m sl) = sl_local sl ∧ sl_policy (spend m sl) = sl_policy sl ∧
  sl_send_queue (spend m sl) = sl_send_queue sl ∧ sl_rx_buf (spend m sl) = sl_rx_buf sl.
Proof. unfold spend. by destruct (p_ack _). Qed.

Lemma refund_keeps m sl :
  sl_local (refund m sl) = sl_local sl ∧ sl_policy (refund m sl) = sl_policy sl ∧
  sl_send_queue (refund m sl) = sl_send_queue sl ∧ sl_rx_buf (refund m sl) = sl_rx_buf sl.
Proof. unfold refund. by destruct (p_ack _). Qed.

(** The writer whose turn it is takes credit. *)
Lemma channels_reserve t n log toks ch sl sl' place want m :
  channels_inv t n log (KPlace ch place :: toks) → table_get ch t = Some sl →
  turn (sl_send_queue sl) = place → 0 < want → try_reserve_send want sl = (Some m, sl') →
  0 < m ∧ m <= want ∧
  channels_inv (table_put ch (set_send_queue (serve (sl_send_queue sl')) sl') t) n log
    (KCredit ch m false :: toks).
Proof.
  intros Hc Hg Hturn Hw Hres. unfold try_reserve_send in Hres.
  destruct (budget sl) as [b|] eqn:Hb; [|done]. injection Hres as Hm <-.
  assert (0 < b) as Hb0.
  { unfold budget in Hb. destruct (p_ack (sl_policy sl)); [by destruct (sl_wrte_acked sl); simplify_eq|].
    destruct (Z.ltb_spec 0 (sl_send_budget sl)); simplify_eq. done. }
  split; [lia|]. split; [lia|].
  destruct (spend_keeps (Z.min b want) sl) as (Hlo & Hpo & Hq & Hrx).
  eapply channels_at; [done|done|exact Hlo|done| |].
  - intros ch' Hne. rewrite !(account_other _ ch) by done. done.
  - intros [C1 (ws & C2 & C2') C3 C4 C5]. simpl in C2'. rewrite decide_True in C2' by done.
    destruct ws as [|w ws]; [by apply Permutation_nil_l in C2'|].
    destruct (refines_head _ _ _ C2) as [-> _]. unfold turn in Hturn. rewrite Hturn in *.
    apply Permutation_cons_inv in C2'. destruct (serve_refines _ _ _ C2) as [Hr Hs].
    split.
    + etrans; [exact Hpo|done].
    + exists ws. simpl. by rewrite Hq.
    + simpl. rewrite Hq, decide_True, Hs, C3 by done. simpl. rewrite len_cons. lia.
    + simpl in *. rewrite Z.eqb_refl. revert C4. unfold avail, spend, budget in *. rewrite <- C1.
      destruct (p_ack (sl_policy sl)) eqn:Hp; simpl; rewrite Hp.
      * destruct (sl_wrte_acked sl); [|done]. simpl. lia.
      * destruct (Z.ltb_spec 0 (sl_send_budget sl)); [|done]. simplify_eq. simpl. lia.
    + etrans; [|exact C5]. simpl. by rewrite Hrx.
Qed.

(** A [CreditGuard] is dropped. *)
Lemma channels_finish t n log toks ch sl m c :
  channels_inv t n log (KCredit ch m c :: toks) → table_get ch t = Some sl →
  ∃ q, finish (sl_send_queue sl) = Some q ∧
    channels_inv (table_put ch (let sl := set_send_queue q sl in if c then sl else refund m sl) t)
      n log toks.
Proof.
  intros Hc Hg. pose proof Hg as [Hi Hl]%table_get_some.
  assert (ch = mkChannelId (ch_slot ch) (sl_local sl)) as Hch by (destruct ch; simpl in *; congruence).
  pose proof (ch_slots _ _ _ _ _ Hc _ _ Hi) as Hok. rewrite <- Hch in Hok.
  pose proof (ck_sending _ _ _ Hok) as Hs. simpl in Hs. rewrite decide_True in Hs by done.
  simpl in Hs. rewrite len_cons in Hs. zlen_facts.
  unfold finish. destruct (Z.leb_spec (q_sending (sl_send_queue sl)) 0) as [|Hpos]; [lia|].
  eexists. split; [done|]. set (q := mkQueue _ _ _ _). set (sl1 := set_send_queue q sl).
  destruct (refund_keeps m sl1) as (Hlo & Hpo & Hq & Hrx).
  eapply channels_at; [done|done|by destruct c|done| |].
  - intros ch' Hne. rewrite (account_other _ ch) by done. done.
  - intros [C1 (ws & [(W1 & W2 & W3) W4 W5] & C2') C3 C4 C5].
    assert (refines q ws) as Hr by (split; [|done|done]; unfold queue_wf, q; simpl; split_and!; done || lia).
    assert (q_sending q = a_senders (acc t ch log toks)) as Hsn by (unfold q; simpl; rewrite Hs; apply Z.add_simpl_r).
    simpl in C4. rewrite Z.eqb_refl in C4.
    pose proof (units_nonneg (p_ack (t_policy t)) m) as Hu.
    destruct c; cbv zeta.
    + split; [done|by exists ws|done| |done]. simpl. unfold avail in *. simpl. lia.
    + split; [by rewrite Hpo|exists ws; by rewrite Hq|by rewrite Hq| |by rewrite Hrx].
      revert C4 Hu. unfold avail. rewrite Hpo. unfold refund. simpl. rewrite <- C1.
      destruct (p_ack (sl_policy sl)); simpl; [destruct (sl_wrte_acked sl)|]; lia.
Qed.

(** A reader takes what is buffered. *)
Lemma channels_took t n log toks ch sl {E} want b sl' :
  channels_inv t n log toks → table_get ch t = Some sl →
  slot_take_buffered (E := E) want sl = (Ok (Some b), sl') →
  channels_inv (table_put ch sl' t) n (log ++ [Took ch b]) toks.
Proof.
  intros Hc Hg. unfold slot_take_buffered. destruct (negb (has_data sl)); [by destruct (is_closed sl)|].
  cbv zeta. set (m := Z.min want _). intros [= <- <-]. eapply channels_at; [done|done|done|by apply allocs_silent| |].
  - intros ch' Hne. apply account_le_eq. unfold account_of. rewrite !omap_app, !total_app. simpl.
    rewrite decide_False by congruence. by rewrite !app_nil_r, !Z.add_0_r.
  - intros [C1 C2 C3 C4 C5]. split; try done.
    + simpl in *. rewrite !total_app. simpl. rewrite !Z.add_0_r. done.
    + simpl in *. rewrite !omap_app, !concat_app. simpl. rewrite decide_True by done. simpl.
      rewrite !app_nil_r, <- C5, <- app_assoc. by rewrite ztake_zdrop.
Qed.

(** *** Packets *)

Lemma grant_nonneg mode l e : 0 <= grant_of mode l e.
Proof. destruct e; simpl; try lia; repeat case_match; lia. Qed.

(** The slot an outcome names. *)
Definition routed (out : DispatchOutcome) : option nat :=
  match out with
  | DispatchOutcome.AckWrite i _ | DispatchOutcome.CreditGranted i
  | DispatchOutcome.SlotClosed i | DispatchOutcome.DataBuffered i
  | DispatchOutcome.ChannelFault i _ _ _ => Some i
  | _ => None
  end.

Lemma dispatch_cases pkt t out t' :
  dispatch pkt t = (out, t') →
  (t' = t ∧ routed out = None) ∨
  ∃ i sl sl', t_slots t !! i = Some (Some sl) ∧ sl_local sl' = sl_local sl ∧
    t' = set_slots (<[i := Some sl']> (t_slots t)) t ∧ (routed out = None ∨ routed out = Some i) ∧
    ((arg1 pkt = sl_local sl ∧ dispatch_slot i pkt sl = Some (out, sl')) ∨
     (command pkt = Command.Close ∧ sl' = apply_close sl ∧ out = DispatchOutcome.SlotClosed i)).
Proof.
  unfold dispatch. intros Hd.
  assert (∀ x, dispatch_loop 0 pkt (t_slots t) = Some x →
    (let '(o, sl) := x in (o, set_slots sl t)) = (out, t') → ∃ i s s',
      t_slots t !! i = Some (Some s) ∧ sl_local s' = sl_local s ∧
      t' = set_slots (<[i := Some s']> (t_slots t)) t ∧
      (routed out = None ∨ routed out = Some i) ∧ arg1 pkt = sl_local s ∧
      dispatch_slot i pkt s = Some (out, s')) as Hloop.
  { intros [o sl] (i & s & s' & Hi & Hs & ->)%dispatch_loop_some [= -> <-]. simpl in Hs.
    pose proof (dispatch_slot_some _ _ _ _ _ Hs) as (Ha & Hl & _).
    exists i, s, s'. split_and!; try done.
    unfold dispatch_slot in Hs. repeat case_match; simplify_eq; simpl; auto. }
  destruct (bool_decide (command pkt = Command.Close) && (arg1 pkt =? 0)) eqn:Hc.
  - bool_facts. rewrite H in Hd.
    destruct (close_remote (arg0 pkt) t) as [o t''] eqn:Hcr.
    apply close_remote_spec in Hcr as [[-> ->]|(i & s & -> & ? & ? & ? & ->)]; simplify_eq; [auto|].
    right. exists i, s, (apply_close s). naive_solver.
  - destruct (command pkt) eqn:Hcmd; simplify_eq; auto;
      destruct (dispatch_loop 0 pkt (t_slots t)) as [x|] eqn:Hl;
      try (destruct x; right; destruct (Hloop _ eq_refl Hd) as (i & s & s' & ?); naive_solver);
      destruct (_ && _) in Hd; simplify_eq; auto.
Qed.

(** What a packet does to the accounts of a channel it does not name. *)
Lemma account_received mode ch log toks pkt out :
  buffered_of ch (Received pkt out) = None →
  account_le (account_of mode ch log toks) (account_of mode ch (log ++ [Received pkt out]) toks).
Proof.
  intros Hb. pose proof (grant_nonneg mode (ch_local ch) (Received pkt out)).
  unfold account_le, account_of. cbn [a_senders a_places a_taken a_buffered a_used a_reserved a_granted].
  rewrite !omap_app, !total_app, !concat_app. cbn [omap list_omap taken_of]. rewrite Hb.
  cbn [concat use_of total]. rewrite !app_nil_r. split_and!; done || lia.
Qed.

(** [apply_write] in full. *)
Lemma apply_write_keeps p sl d sl' :
  apply_write p sl = Ok (d, sl') →
  sl_policy sl' = sl_policy sl ∧ sl_send_queue sl' = sl_send_queue sl ∧
  sl_rx_buf sl' = sl_rx_buf sl ++ p ∧ avail sl' = avail sl.
Proof.
  unfold apply_write, push_rx. destruct (_ <? _); bind_simpl; [done|]. cbv zeta.
  destruct (negb _ && _); [|by intros [= <- <-]].
  destruct (slot_ack _ _); by intros [= <- <-].
Qed.

(** A READY grants what it says. *)
Lemma ready_keeps mode l pkt out sl sl' (granted : result ProtocolError ChannelSlot) :
  command pkt = Command.Ready → arg1 pkt = l → p_ack (sl_policy sl) = mode →
  granted = accept_open_ready (arg0 pkt) (data pkt) sl ∨ granted = apply_ready (data pkt) sl →
  granted = Ok sl' →
  sl_local sl' = sl_local sl ∧ sl_policy sl' = sl_policy sl ∧
  sl_send_queue sl' = sl_send_queue sl ∧ sl_rx_buf sl' = sl_rx_buf sl ∧
  avail sl' <= avail sl + grant_of mode l (Received pkt out).
Proof.
  intros Hcmd Harg Hmode Hg ->. simpl. rewrite bool_decide_true, (proj2 (Z.eqb_eq _ _) Harg) by done.
  cbn [andb]. pose proof (avail_nonneg sl) as Hav. unfold avail in *.
  destruct Hg as [Hg|Hg]; symmetry in Hg; revert Hg; unfold accept_open_ready, apply_ready, parse_ready_credit.
  - destruct (is_delayed sl) eqn:Hd.
    + apply is_delayed_true in Hd. rewrite Hd in Hmode. subst mode.
      destruct (4 <=? len (data pkt)); bind_simpl; [|done]. intros [= <-]. simpl.
      rewrite Hd. split_and!; try done. lia.
    + apply is_delayed_false in Hd. rewrite Hd in Hmode. subst mode. bind_simpl.
      intros [= <-]. simpl. rewrite Hd. split_and!; try done. lia.
  - rewrite Hmode. destruct mode.
    + intros [= <-]. simpl. rewrite Hmode. split_and!; try done. destruct (sl_wrte_acked sl); lia.
    + destruct (4 <=? len (data pkt)); bind_simpl; [|done]. intros [= <-]. simpl.
      rewrite Hmode. split_and!; try done. lia.
Qed.

Lemma chan_ok_ready pol ch log toks pkt out sl sl' :
  chan_ok pol (account_of (p_ack pol) ch log toks) sl →
  buffered_of ch (Received pkt out) = None →
  sl_policy sl' = sl_policy sl → sl_send_queue sl' = sl_send_queue sl →
  sl_rx_buf sl' = sl_rx_buf sl →
  avail sl' <= avail sl + grant_of (p_ack pol) (ch_local ch) (Received pkt out) →
  chan_ok pol (account_of (p_ack pol) ch (log ++ [Received pkt out]) toks) sl'.
Proof.
  intros Hok Hb Hpo Hq Hrx Hav. pose proof (account_received (p_ack pol) ch log toks pkt out Hb) as Hle.
  destruct (chan_ok_le _ _ _ _ Hok Hle) as [C1 C2 C3 _ C5].
  split; [by rewrite Hpo|by rewrite Hq|by rewrite Hq| |by rewrite Hrx].
  pose proof (ck_credit _ _ _ Hok) as Hc. revert Hc. unfold account_of.
  cbn [a_used a_reserved a_granted]. rewrite !total_app. cbn [total use_of]. lia.
Qed.

(** Every packet keeps the accounts. *)
Lemma channels_dispatch t n log toks pkt out t' :
  channels_inv t n log toks → dispatch pkt t = (out, t') →
  channels_inv t' n (log ++ [Received pkt out]) toks ∧ ∀ i, routed out = Some i → (i < n)%nat.
Proof.
  intros Hc Hd. apply dispatch_cases in Hd as [[-> Hr]|(i & sl & sl' & Hi & Hl & -> & Hr & Hcase)].
  { split; [|by rewrite Hr]. eapply channels_quiet; [done|by apply allocs_silent|].
    intros ch. apply account_received. by destruct out. }
  split.
  2: { intros j Hj. destruct Hr as [Hr|Hr]; [congruence|]. assert (j = i) as -> by congruence.
       rewrite (ch_signals _ _ _ _ _ Hc). by eapply lookup_lt_Some. }
  eapply channels_put; [done|done|done|by apply allocs_silent| |].
  - intros ch Hne. apply account_received. destruct Hcase as [[Ha _]|(_ & _ & ->)]; [|done].
    simpl. rewrite Ha. destruct out; try done; rewrite decide_False; try done; intros <-; by simpl in Hne.
  - intros Hok. destruct Hcase as [[Ha Hs]|(Hcmd & -> & ->)].
    2: { apply (chan_ok_ready _ _ _ _ _ _ sl); try done. unfold avail. simpl.
         rewrite bool_decide_false by congruence. simpl. lia. }
    pose proof (grant_nonneg (p_ack (t_policy t)) (sl_local sl) (Received pkt out)) as Hgn.
    assert (buffered_of (mkChannelId i (sl_local sl)) (Received pkt out) = None → sl' = sl →
      chan_ok (t_policy t) (acc t (mkChannelId i (sl_local sl)) (log ++ [Received pkt out]) toks) sl') as Hsame.
    { intros Hb ->. apply (chan_ok_ready _ _ _ _ _ _ sl); try done. cbn [ch_local]. lia. }
    unfold dispatch_slot in Hs. rewrite (proj2 (Z.eqb_eq _ _) Ha) in Hs. cbn [andb] in Hs.
    destruct (command pkt) eqn:Hcmd; try done.
    + destruct (is_failed sl); [simplify_eq; by apply Hsame|].
      destruct (bool_decide (sl_state sl = ChannelState.Opening)).
      * destruct (accept_open_ready _ _ sl) as [sl1|e] eqn:Hg; simplify_eq; [|by apply Hsame].
        destruct (ready_keeps (p_ack (t_policy t)) (sl_local sl) pkt
          (DispatchOutcome.CreditGranted i) sl sl' (Ok sl')) as (_ & K1 & K2 & K3 & K4);
          [done|done|by rewrite (ck_policy _ _ _ Hok)|by left|done|].
        by apply (chan_ok_ready _ _ _ _ _ _ sl).
      * destruct (apply_ready _ sl) as [sl1|e] eqn:Hg; simplify_eq; [|by apply Hsame].
        destruct (ready_keeps (p_ack (t_policy t)) (sl_local sl) pkt
          (DispatchOutcome.CreditGranted i) sl sl' (Ok sl')) as (_ & K1 & K2 & K3 & K4);
          [done|done|by rewrite (ck_policy _ _ _ Hok)|by right|done|].
        by apply (chan_ok_ready _ _ _ _ _ _ sl).
    + simplify_eq. apply (chan_ok_ready _ _ _ _ _ _ sl); try done.
      change (avail (apply_close sl)) with (avail sl). cbn [ch_local]. lia.
    + destruct (is_failed sl); [simplify_eq; by apply Hsame|].
      destruct (apply_write (data pkt) sl) as [[d sl1]|e] eqn:Hw; [|simplify_eq; by apply Hsame].
      destruct (apply_write_keeps _ _ _ _ Hw) as (K1 & K2 & K3 & K4).
      assert (buffered_of (mkChannelId i (sl_local sl)) (Received pkt out) = Some (data pkt) ∧ sl' = sl1)
        as [Hb ->].
      { destruct d; simplify_eq; simpl; rewrite Ha, decide_True by done; done. }
      destruct Hok as [C1 C2 C3 C4 C5]. split; [congruence|by rewrite K2|by rewrite K2| |].
      * revert C4. unfold account_of. cbn [a_used a_reserved a_granted]. rewrite !total_app.
        cbn [total use_of]. rewrite K4. cbn [ch_local] in *. lia.
      * revert C5. unfold account_of. cbn [a_taken a_buffered]. rewrite !omap_app, !concat_app.
        cbn [omap list_omap taken_of]. rewrite Hb. cbn [concat]. rewrite !app_nil_r, K3.
        intros <-. by rewrite app_assoc.
Qed.

(** The READY an open waits for. *)
Lemma channels_ready t n log toks ch pkt sl sl' :
  channels_inv t n log toks → table_get ch t = Some sl → command pkt = Command.Ready →
  arg1 pkt = ch_local ch → accept_open_ready (arg0 pkt) (data pkt) sl = Ok sl' →
  channels_inv (table_put ch sl' t) n
    (log ++ [Received pkt (DispatchOutcome.CreditGranted (ch_slot ch))]) toks.
Proof.
  intros Hc Hg Hcmd Ha Hr. set (out := DispatchOutcome.CreditGranted (ch_slot ch)).
  assert (p_ack (sl_policy sl) = p_ack (t_policy t)) as Hpol.
  { apply table_get_some in Hg as [Hi _]. by rewrite (ck_policy _ _ _ (ch_slots _ _ _ _ _ Hc _ _ Hi)). }
  destruct (ready_keeps (p_ack (t_policy t)) (ch_local ch) pkt out sl sl' (Ok sl'))
    as (K0 & K1 & K2 & K3 & K4); [done|done|done|by left|done|].
  eapply channels_at; [done|done|done|by apply allocs_silent| |].
  - intros ch' Hne. by apply account_received.
  - intros Hok. by apply (chan_ok_ready _ _ _ _ _ _ sl).
Qed.

Lemma channels_received t n log toks pkt i :
  channels_inv t n log toks →
  channels_inv t n (log ++ [Received pkt (DispatchOutcome.CreditGranted i)]) toks.
Proof.
  intros Hc. eapply channels_quiet; [done|by apply allocs_silent|]. intros ch. by apply account_received.
Qed.

(** *** Packets sent *)

(** A packet that is no WRTE. *)
Lemma silent_sent debt pkt : command pkt ≠ Command.Write → silent (Sent debt pkt).
Proof. intros Hc. split_and!; try done. intros mode l. simpl. by rewrite bool_decide_false. Qed.

(** A WRTE uses the credit reserved for it. *)
Lemma channels_write t n log toks ch m pkt :
  channels_inv t n log (KCredit ch m false :: toks) → arg0 pkt = ch_local ch →
  0 < len (data pkt) <= m →
  channels_inv t n (log ++ [Sent None pkt]) (KCredit ch m true :: toks).
Proof.
  intros Hc Ha Hd. eapply channels_quiet; [done|by apply allocs_silent|].
  intros ch'. unfold account_le, account_of.
  cbn [a_senders a_places a_taken a_buffered a_used a_reserved a_granted].
  rewrite !omap_app, !total_app. cbn [omap list_omap taken_of buffered_of total grant_of].
  rewrite !app_nil_r, !Z.add_0_r. split_and!; try done.
  cbn [use_of reserve_of]. rewrite Ha. destruct (bool_decide _); cbn [andb].
  - destruct (Z.eqb_spec (ch_local ch) (ch_local ch')); [|lia].
    destruct (p_ack (t_policy t)); simpl; lia.
  - pose proof (units_nonneg (p_ack (t_policy t)) m). destruct (_ =? _); lia.
Qed.

(** *** Channels handed out *)

Lemma channels_open t n log toks ch t' :
  channels_inv t n log toks → allocate t = (Ok ch, t') → start + allocs log + 1 < 2 ^ 32 →
  0 <= start →
  ∃ t'', insert_opening ch t' = Some t'' ∧ channels_inv t'' n (log ++ [Allocated ch]) toks.
Proof.
  intros Hc Ha Hb Hst. assert (t_policy t' = t_policy t) as Hpol.
  { unfold allocate in Ha. destruct (position_none _); [|done]. by injection Ha as _ <-. }
  unfold insert_opening. rewrite Hpol.
  assert (∀ ch', acc t ch' (log ++ [Allocated ch]) toks = acc t ch' log toks) as He.
  { intros ch'. unfold account_of. rewrite !omap_app, !total_app. simpl.
    by rewrite !app_nil_r, !Z.add_0_r. }
  eapply channels_filled; try done; try (by rewrite He); cbv zeta; try (by rewrite He).
  - unfold allocs. rewrite omap_app, len_app. done.
  - intros ch' _. by rewrite He.
  - rewrite He. pose proof (ch_limit _ _ _ _ _ Hc ch) as Hl. cbv zeta in Hl.
    pose proof (used_nonneg (p_ack (t_policy t)) ch log toks).
    pose proof (reserved_nonneg (p_ack (t_policy t)) ch log toks).
    assert (0 <= a_granted (acc t ch log toks)) by (apply total_nonneg, grant_nonneg).
    unfold avail. simpl. destruct (p_ack (t_policy t)); simpl in *; lia.
Qed.

Lemma channels_accept t n log toks ch t' p :
  channels_inv t n log toks → allocate t = (Ok ch, t') → start + allocs log + 1 < 2 ^ 32 →
  0 <= start →
  ∃ t'', insert_accepted ch (po_remote p) (po_credit p) t' = Some t'' ∧
    channels_inv t'' n (log ++ [Allocated ch; Accepted ch p]) toks.
Proof.
  intros Hc Ha Hb Hst. assert (t_policy t' = t_policy t) as Hpol.
  { unfold allocate in Ha. destruct (position_none _); [|done]. by injection Ha as _ <-. }
  unfold insert_accepted. rewrite Hpol. set (sl := slot_accepted _ _ _).
  assert (sl_local sl = ch_local ch ∧ sl_policy sl = t_policy t ∧ sl_send_queue sl = queue_default ∧
    sl_rx_buf sl = []) as (S1 & S2 & S3 & S4).
  { unfold sl, slot_accepted. by destruct (is_delayed _). }
  assert (avail sl <= match p_ack (t_policy t) with
                      | AckMode.Delayed => Z.max 0 (po_credit p) | AckMode.Classic => 1 end) as Hav.
  { unfold avail, sl, slot_accepted. destruct (is_delayed _) eqn:Hd; simpl.
    - apply is_delayed_true in Hd. simpl in Hd. rewrite Hd. lia.
    - apply is_delayed_false in Hd. simpl in Hd. rewrite Hd. lia. }
  pose proof (grant_nonneg (p_ack (t_policy t))) as Hgn.
  eapply channels_filled; try done; cbv zeta; unfold account_of;
    cbn [a_senders a_places a_taken a_buffered a_used a_reserved a_granted];
    rewrite ?omap_app, ?total_app; cbn [omap list_omap taken_of buffered_of total use_of];
    rewrite ?app_nil_r, ?Z.add_0_r; try done.
  - unfold allocs. rewrite omap_app, len_app. done.
  - intros ch' _. unfold account_le.
    cbn [a_senders a_places a_taken a_buffered a_used a_reserved a_granted].
    rewrite ?omap_app, ?total_app; cbn [omap list_omap taken_of buffered_of total use_of];
      rewrite ?app_nil_r, ?Z.add_0_r. split_and!; try done.
    pose proof (Hgn (ch_local ch') (Allocated ch)). pose proof (Hgn (ch_local ch') (Accepted ch p)). lia.
  - assert (0 <= total (grant_of (p_ack (t_policy t)) (ch_local ch)) log) by (apply total_nonneg, grant_nonneg).
    cbn [grant_of]. rewrite Z.eqb_refl. destruct (p_ack (t_policy t)); simpl; lia.
Qed.
End Slots.
