(* ===== verification/SplitParts.v ===== *)
(** * Debts, frames and requests under the steps of the calls

    How the parts of the invariant of [SplitInv] that are not about channels
    fare under what the calls do: a debt recorded, looked at, paid, struck off;
    a packet written; a request queued, held, resolved, put back, withdrawn. *)

From S2P Require Import Prelude Errors Protocol Banner Config SendQueue Slot ChannelTable Wire.
From S2P Require Import Connection Task Split SplitCalls SplitInv SplitSteps.

Section Parts.
Context {T IoE : Type} `{TransportLaws T IoE}.
Context (inc0 : list PendingOpen) (out0 : bytes).

(** ** Debts *)

Definition unlocked (toks : list token) : Prop := ∀ st, KLock st ∉ toks.

Lemma lock_inv_only st toks : lock_inv true (KLock st :: toks) → unlocked toks.
Proof.
  unfold lock_inv. change (omap lock_of (KLock st :: toks)) with (st :: omap lock_of toks).
  rewrite len_cons. intros Hl st' Hin.
  assert (st' ∈ omap lock_of toks) as Hin' by (apply list_elem_of_omap; eauto).
  assert (omap lock_of toks = []) as Hn by (apply len_0_nil; lia).
  rewrite Hn in Hin'. by apply not_elem_of_nil in Hin'.
Qed.

Lemma lock_inv_held locked st toks : lock_inv locked (KLock st :: toks) → locked = true.
Proof.
  unfold lock_inv. change (omap lock_of (KLock st :: toks)) with (st :: omap lock_of toks).
  rewrite len_cons. zlen_facts. destruct locked; [done|lia].
Qed.

Lemma debts_note owed log toks e :
  debt_of e = None → payment_of e = None →
  debts_inv owed log toks → debts_inv owed (log ++ [e]) toks.
Proof.
  intros Hd Hp [Hf|Hi]; [left; set_solver|right]. unfold debts, payments in *.
  rewrite !omap_app. simpl. rewrite Hd, Hp, !app_nil_r. exact Hi.
Qed.

Lemma debts_owe owed log toks d :
  debts_inv owed log toks → debts_inv (owed ++ [d]) (log ++ [Owes d]) toks.
Proof.
  intros [Hf|(H1 & H2 & H3)]; [left; set_solver|right]. unfold debts, payments in *.
  rewrite !omap_app. simpl. rewrite !app_nil_r. split_and!.
  - intros d' (rest & ->)%H1. by exists (rest ++ [d]).
  - intros d' (rest & -> & ->)%H2. exists (rest ++ [d]). by rewrite <- app_assoc.
  - intros ->%H3. by rewrite <- app_assoc.
Qed.

(** The holder of the write half looks at the first debt, pays it, strikes it
    off. *)
Lemma debts_state owed log toks st st' :
  debts_inv owed log (KLock st :: toks) → unlocked toks →
  match st' with
  | Idle => st = Idle ∨ ∃ d, st = Due d
  | Due d => st = Idle ∧ ∃ rest, owed = d :: rest
  | Paid _ => False
  end → debts_inv owed log (KLock st' :: toks).
Proof.
  intros [Hf|(H1 & H2 & H3)] Hu Hst; [by left|right].
  assert (∀ d, KLock (Paid d) ∉ KLock st :: toks) as Hn.
  { intros d [Heq|Hin]%elem_of_cons; [|by eapply Hu]. injection Heq as <-.
    destruct st' as [|d'|d']; [destruct Hst as [|[]]; done|by destruct Hst|done]. }
  assert (∀ d, KLock (Paid d) ∉ KLock st' :: toks) as Hn'.
  { intros d [Heq|Hin]%elem_of_cons; [|by eapply Hu]. injection Heq as <-. done. }
  split_and!.
  - intros d [Heq|Hin]%elem_of_cons; [|exfalso; by eapply Hu]. injection Heq as <-.
    by destruct Hst.
  - intros d Hin. by destruct (Hn' d).
  - intros _. by apply H3.
Qed.

Lemma debts_paid owed log toks d pkt :
  debts_inv owed log (KLock (Due d) :: toks) → unlocked toks →
  debts_inv owed (log ++ [Sent (Some d) pkt]) (KLock (Paid d) :: toks).
Proof.
  intros [Hf|(H1 & H2 & H3)] Hu; [left; set_solver|right].
  destruct (H1 d) as [rest ->]; [by left|].
  assert (debts log = payments log ++ d :: rest) as Hd.
  { apply H3. intros d' [?|Hin]%elem_of_cons; [done|by eapply Hu]. }
  unfold debts, payments in *. rewrite !omap_app. simpl. rewrite !app_nil_r. split_and!.
  - intros d' [?|Hin]%elem_of_cons; [done|exfalso; by eapply Hu].
  - intros d' [Heq|Hin]%elem_of_cons; [|exfalso; by eapply Hu]. injection Heq as ->.
    exists rest. split; [done|]. rewrite Hd, <- app_assoc. done.
  - intros Hn. destruct (Hn d). by left.
Qed.

Lemma debts_struck owed log toks d :
  debts_inv owed log (KLock (Paid d) :: toks) → unlocked toks →
  debts_inv (tail owed) log (KLock Idle :: toks).
Proof.
  intros [Hf|(H1 & H2 & H3)] Hu; [by left|right].
  destruct (H2 d) as (rest & -> & Hd); [by left|]. split_and!.
  - intros d' [?|Hin]%elem_of_cons; [done|exfalso; by eapply Hu].
  - intros d' [?|Hin]%elem_of_cons; [done|exfalso; by eapply Hu].
  - intros _. done.
Qed.

Lemma debts_other owed log k toks :
  (∀ st, k ≠ KLock st) ∨ k = KLock Idle →
  debts_inv owed log (k :: toks) ↔ debts_inv owed log toks.
Proof.
  intros Hk. unfold debts_inv.
  assert (∀ st, st ≠ Idle → KLock st ∈ k :: toks ↔ KLock st ∈ toks) as He.
  { intros st Hst. rewrite elem_of_cons. split; [|auto]. intros [<-|]; [|done].
    destruct Hk as [Hk|[= ->]]; [by destruct (Hk st)|done]. }
  split; (intros [Hf|(H1 & H2 & H3)]; [by left|right; split_and!]).
  - intros d. rewrite <- He by done. apply H1.
  - intros d. rewrite <- He by done. apply H2.
  - intros Hn. apply H3. intros d. rewrite He by done. apply Hn.
  - intros d. rewrite He by done. apply H1.
  - intros d. rewrite He by done. apply H2.
  - intros Hn. apply H3. intros d. rewrite <- He by done. apply Hn.
Qed.

(** ** The wire *)

Lemma wire_note (w : wire T) k log e :
  sent_of e = None → wire_inv out0 w k log → wire_inv out0 w k (log ++ [e]).
Proof.
  intros He Hw Hd Hn. rewrite omap_app. simpl. rewrite He, app_nil_r. apply Hw; [done|set_solver].
Qed.

(** A write leaves the frames it sent, or marks the log or the flag. *)
Lemma wire_write (w w' : wire T) k log debt pkt (o : outcome (Error IoE) unit) :
  wire_inv out0 w k log → send_contract (frame k pkt) w o w' →
  wire_inv out0 w' k (log ++ [match o with
                              | Ret _ => Sent debt pkt
                              | Fail e => WriteFailed (connection_gone e)
                              | _ => WriteFailed false
                              end]) ∧ o ≠ Panicked ∧ o ≠ NoFuel.
Proof.
  unfold send_contract. intros Hw Hs. destruct (w_desync w) eqn:Hd.
  { destruct Hs as [-> ->]. split; [|done]. by apply wire_note. }
  destruct (frame k pkt) as [buf|e] eqn:Hf.
  2: { destruct Hs as [-> ->]. split; [|done]. by apply wire_note. }
  destruct Hs as (_ & _ & _ & Ho). destruct o as [[]|e| | |]; try done; (split; [|done]).
  - destruct Ho as [Hout _]. intros _ Hn. rewrite Hout, (Hw Hd) by set_solver.
    rewrite omap_app. unfold frames. rewrite fmap_app, concat_app. simpl. rewrite Hf, app_nil_r.
    by rewrite app_assoc.
  - destruct Ho as [_ Hdd]. intros Hd' Hn. rewrite Hdd in Hd'. destruct (connection_gone e); [|done].
    exfalso. apply Hn. set_solver.
  - intros Hd'. congruence.
Qed.

(** ** Requests *)

Abbreviation rinv := (requests_inv inc0).

Lemma requests_note inc st nf log toks e :
  request_of e = None → resolved_of e = None →
  rinv inc st nf log toks → rinv inc st nf (log ++ [e]) toks.
Proof.
  intros He Hr [H1 H2 H3]. split; [|done|done]. rewrite !omap_app. simpl.
  rewrite He, Hr, !app_nil_r. done.
Qed.

Lemma requests_other inc st nf log k toks :
  pending_of k = None → flag_of k = None →
  rinv inc st nf log (k :: toks) ↔ rinv inc st nf log toks.
Proof.
  intros Hp Hf. split; intros [H1 H2 H3]; split; try done; simpl in *; rewrite ?Hp, ?Hf in *; done.
Qed.

Lemma requests_arrive inc st nf log toks pkt r c d :
  rinv inc st nf log toks →
  rinv inc st nf (log ++ [Received pkt (DispatchOutcome.IncomingOpen r c d)])
    (KPending (mkPending r c d) :: toks).
Proof.
  intros [H1 H2 H3]. split; [|done|done]. rewrite !omap_app. simpl. rewrite !app_nil_r, app_assoc, H1.
  solve_Permutation.
Qed.

Lemma requests_queue inc st nf log toks p :
  rinv inc st nf log (KPending p :: toks) → rinv (push_back p inc) st nf log toks.
Proof.
  intros [H1 H2 H3]. split; [|done|done]. rewrite H1. unfold push_back. simpl. solve_Permutation.
Qed.

(** A request goes into its holder's hands. *)
Lemma requests_hold inc st nf log toks p r :
  rinv inc st nf log (KPending p :: toks) →
  rinv inc (st ++ [(r, nf)]) (S nf) log (KHeld nf (Some p) :: toks).
Proof.
  intros [H1 H2 [H3 H4]]. split; [done|..]; rewrite fmap_app; simpl.
  - rewrite H2. simpl. solve_Permutation.
  - split.
    + apply NoDup_app. split_and!; [done| |apply NoDup_singleton].
      intros f Hf ->%list_elem_of_singleton. apply H4 in Hf. lia.
    + intros f [Hf| ->%list_elem_of_singleton]%elem_of_app; [|lia]. apply H4 in Hf. lia.
Qed.

Lemma requests_pop inc st nf log toks p :
  rinv (p :: inc) st nf log toks → rinv inc st nf log (KPending p :: toks).
Proof. intros [H1 H2 H3]. split; [|done|done]. rewrite H1. simpl. solve_Permutation. Qed.

(** A verdict is out, or there is nobody to hear it. *)
Lemma requests_resolve inc st nf log toks f p :
  rinv inc st nf log (KHeld f (Some p) :: toks) →
  rinv inc st nf (log ++ [Resolved p]) (KHeld f None :: toks).
Proof.
  intros [H1 H2 H3]. split; [|done|done]. rewrite !omap_app. simpl in *. rewrite !app_nil_r, H1.
  solve_Permutation.
Qed.

Lemma filter_flag (st : list (Z * nat)) f :
  NoDup (snd <$> st) → f ∈ snd <$> st →
  snd <$> st ≡ₚ f :: (snd <$> filter (λ x, snd x ≠ f) st).
Proof.
  induction st as [|[r g] st IH]; simpl; [by intros _ ?%not_elem_of_nil|].
  intros [Hni Hnd]%NoDup_cons [<-|Hin]%elem_of_cons.
  - rewrite filter_cons_False by (simpl; auto). f_equiv. clear IH Hnd.
    assert (filter (λ x : Z * nat, x.2 ≠ f) st = st) as ->; [|done].
    induction st as [|[r' g'] st IH]; [done|]. simpl in Hni. apply not_elem_of_cons in Hni as [Hne Hni].
    rewrite filter_cons_True by (simpl; auto). by rewrite IH.
  - rewrite filter_cons_True by (simpl; intros ->; done). simpl. rewrite (IH Hnd Hin). solve_Permutation.
Qed.

Lemma requests_released inc st nf log toks f :
  rinv inc st nf log (KHeld f None :: toks) →
  rinv inc (filter (λ x, snd x ≠ f) st) nf log toks.
Proof.
  intros [H1 H2 [H3 H4]]. simpl in *.
  assert (f ∈ snd <$> st) as Hin by (rewrite H2; by left).
  pose proof (filter_flag st f H3 Hin) as Hf. split; [done|..].
  - rewrite Hf in H2. by apply Permutation_cons_inv in H2.
  - split.
    + rewrite Hf in H3. by apply NoDup_cons in H3 as [_ ?].
    + intros g Hg. apply H4. rewrite Hf. by right.
Qed.

(** An undecided request goes back to the head of the queue. *)
Lemma requests_requeue inc st nf log toks f p :
  rinv inc st nf log (KHeld f (Some p) :: toks) →
  rinv (push_front p inc) st nf log (KHeld f None :: toks).
Proof. intros [H1 H2 H3]. split; [|done|done]. rewrite H1. simpl. solve_Permutation. Qed.

Lemma requests_withdraw inc st nf log toks r :
  rinv inc st nf log toks →
  rinv (withdraw r inc) st nf (log ++ (Resolved <$> filter (λ p, po_remote p = r) inc)) toks.
Proof.
  intros [H1 H2 H3]. split; [|done|done]. rewrite !omap_app.
  assert (∀ l, omap request_of (Resolved <$> l) = []) as -> by (intros l; by induction l).
  assert (∀ l, omap resolved_of (Resolved <$> l) = l) as ->.
  { intros l. induction l as [|x l IH]; [done|]. simpl. by f_equal. }
  rewrite app_nil_r, H1.
  assert (inc ≡ₚ withdraw r inc ++ filter (λ p, po_remote p = r) inc) as Hs.
  { clear. unfold withdraw. induction inc as [|p inc IH]; [done|].
    destruct (decide (po_remote p = r)).
    - rewrite filter_cons_False, filter_cons_True by auto. rewrite IH at 1. solve_Permutation.
    - rewrite filter_cons_True, filter_cons_False by auto. rewrite IH at 1. done. }
  rewrite Hs at 1. solve_Permutation.
Qed.
End Parts.
