(* ===== verification/SplitSafe.v ===== *)
(** * The calls on a split connection are safe

    Every call of [SplitCalls] keeps the invariant of [SplitInv] at each of its
    steps, whatever the others do in between, gives back what it owns on every
    way out (a return, an error, a drop at any wait), and never panics. *)

From S2P Require Import Prelude Errors Protocol Banner Config SendQueue Slot ChannelTable Wire.
From S2P Require Import Connection Task Split SplitCalls SplitInv SplitSteps SplitParts.

Create HintDb safe.

Section Safe.
Context {T IoE : Type} `{TransportLaws T IoE}.
Context (start : Z) (Hstart : 0 <= start) (width : nat) (inc0 : list PendingOpen) (out0 : bytes).

Abbreviation shared := (Shared T).
Abbreviation sprog := (prog shared (Error IoE)).
Abbreviation call := (task shared (Error IoE)).
Abbreviation sinv := (sinv start width inc0 out0).
Abbreviation bounded := (bounded start).
(** Nothing is said here of calls that wait. *)
Abbreviation anywhere := (λ (_ : shared) (_ _ : list token), True).
Abbreviation csafe := (safe (E := Error IoE) sinv bounded anywhere).

(** A call that owns [toks] and [own a] besides once it has returned [a]. *)
Definition returns {A} (own : A → list token) (toks : list token) (t : call A) : Prop :=
  csafe t (λ o x, match o with
                  | Ret a => x = own a ++ toks
                  | Panicked => False
                  | _ => x = toks
                  end) toks.

(** A call that ends with what it started with. *)
Abbreviation keeps := (returns (λ _, [])).

Lemma keeps_frame {A} (t : call A) toks : keeps [] t → keeps toks t.
Proof.
  intros Hk. pose proof (safe_frame sinv bounded anywhere ltac:(done) t _ [] toks Hk) as Hf.
  eapply safe_mono; [exact Hf|].
  intros o x (y & -> & Ho). destruct o; simpl in *; subst; done.
Qed.

Lemma returns_bind {A B} own (own' : B → list token) toks (t : call A) (k : A → call B) :
  returns own toks t → (∀ a, csafe (k a) (λ o x, match o with
                                                 | Ret b => x = own' b ++ toks
                                                 | Panicked => False
                                                 | _ => x = toks
                                                 end) (own a ++ toks)) →
  returns own' toks (t ≫= k).
Proof.
  intros Ht Hk. apply safe_bind. eapply safe_mono; [exact Ht|].
  intros o x Ho. destruct o; try done. subst. apply Hk.
Qed.

Lemma keeps_bind {A B} (own : B → list token) toks (t : call A) (k : A → call B) :
  keeps toks t → (∀ a, returns own toks (k a)) → returns own toks (t ≫= k).
Proof. intros Ht Hk. eapply returns_bind; [exact Ht|]. intros a. apply Hk. Qed.

Lemma keeps_ret {A} (a : A) toks : keeps toks (mret a).
Proof. by apply safe_ret. Qed.

Lemma returns_ret {A} own (a : A) toks : own a = [] → returns own toks (mret a).
Proof. intros Ho. apply safe_ret. by rewrite Ho. Qed.

Lemma returns_fail {A} own (e : Error IoE) toks : returns own toks (tfail e : call A).
Proof. by apply safe_done. Qed.

Lemma returns_no_fuel {A} own toks : returns own toks (no_fuel : call A).
Proof. by apply safe_done. Qed.

Lemma keeps_load {A} (f : shared → A) toks : keeps toks (load f).
Proof. apply safe_load. done. Qed.

(** A step that keeps the invariant with whatever tokens there are. *)
Lemma keeps_act {A} (m : sprog A) toks :
  (∀ s all, bounded s → sinv s all →
    wp m (λ o s', bounded s' → o ≠ Panicked ∧ sinv s' all) s) →
  keeps toks (act m).
Proof.
  intros Hm. apply safe_act. intros s fr Hb Hi. eapply wp_mono; [by apply Hm|].
  intros o s' Hs Hb'. destruct (Hs Hb') as [Ho Hi']. exists toks. split; [done|]. by destruct o.
Qed.

Lemma keeps_modify (f : shared → shared) toks :
  (∀ s all, bounded s → sinv s all → sinv (f s) all) → keeps toks (act (modify f)).
Proof. intros Hf. apply keeps_act. intros s all Hb Hi _. split; [done|]. by apply Hf. Qed.

Lemma keeps_attempt {A} (t : call A) toks : keeps toks t → keeps toks (attempt t).
Proof.
  intros Hk. apply safe_attempt. eapply safe_mono; [exact Hk|]. intros o x Ho. by destruct o.
Qed.

Lemma keeps_finally {A} (fin : outcome (Error IoE) A → call unit) (t : call A) toks :
  keeps toks t →
  (∀ o, o ≠ Panicked → csafe (fin o) (λ o' x, o' = Ret tt ∧ x = toks) toks) →
  keeps toks (finally fin t).
Proof.
  intros Hk Hf. apply safe_finally. eapply safe_mono; [exact Hk|]. intros o x Ho.
  assert (x = toks ∧ o ≠ Panicked) as [-> Hn] by (by destruct o).
  eapply safe_mono; [by apply Hf|]. intros o' y [-> ->]. split; [done|]. by destruct o.
Qed.

Lemma keeps_until {A} over (t : call A) toks : keeps toks t → keeps toks (until over t).
Proof.
  intros Hk. unfold until. apply keeps_bind; [apply keeps_load|]. intros [|]; [apply keeps_ret|].
  eapply safe_racing; [exact Hk|]. intros o x Ho. split; [by destruct o|]. by destruct o.
Qed.

Lemma keeps_wait ready (m : sprog unit) toks :
  (∀ s all, bounded s → sinv s all → ready s = true →
    wp m (λ o s', bounded s' → o ≠ Panicked ∧ sinv s' all) s) →
  keeps toks (wait ready m).
Proof.
  intros Hm. apply safe_wait; [done| |done]. intros s fr Hb Hi Hr. eapply wp_mono; [by apply Hm|].
  intros o s' Hs Hb'. destruct (Hs Hb') as [Ho Hi']. exists toks. split; [done|]. by destruct o.
Qed.

Lemma keeps_if {A} own (b : bool) (t1 t2 : call A) toks :
  returns own toks t1 → returns own toks t2 → returns own toks (if b then t1 else t2).
Proof. by destruct b. Qed.

Hint Resolve keeps_ret returns_fail returns_no_fuel keeps_load keeps_attempt keeps_until
  keeps_if returns_ret : safe.
Hint Extern 1 (returns _ _ (_ ≫= _)) => apply keeps_bind; [|intros ?] : safe.

(** ** Signals and flags *)

Lemma sinv_signals s toks sg :
  length sg = length (sh_signals s) → sinv s toks → sinv (put_signals sg s) toks.
Proof. intros Hl []. split; simpl; rewrite ?Hl; done. Qed.

Lemma sinv_wake i s toks : sinv s toks → sinv (wake i s) toks.
Proof. apply sinv_signals. by rewrite length_insert. Qed.

Lemma keeps_wake i toks : keeps toks (act (modify (wake i))).
Proof. apply keeps_modify. intros. by apply sinv_wake. Qed.

Lemma keeps_notify_receive toks : keeps toks (act (modify notify_receive)).
Proof. apply keeps_modify. by intros s all _ []. Qed.

Lemma keeps_notify_incoming toks : keeps toks (act (modify notify_incoming)).
Proof. apply keeps_modify. by intros s all _ []. Qed.

Lemma keeps_wake_all toks : keeps toks (act (modify wake_all)).
Proof.
  apply keeps_modify. intros s all _ Hi. unfold wake_all.
  assert (sinv (put_signals (S <$> sh_signals s) s) all) as [] by (by apply sinv_signals; [apply length_fmap|]).
  done.
Qed.

Lemma keeps_await_signal sg n toks : keeps toks (await_signal sg n).
Proof. apply keeps_wait. intros s all _ Hi _. by apply wp_ret. Qed.

Hint Resolve keeps_wake keeps_notify_receive keeps_notify_incoming keeps_wake_all
  keeps_await_signal : safe.

Lemma keeps_check_desync toks : keeps toks check_desync.
Proof. unfold check_desync. eauto with safe. Qed.

Lemma keeps_check_in_step toks : keeps toks check_in_step.
Proof. unfold check_in_step. eauto 8 with safe. Qed.
Hint Resolve keeps_check_desync keeps_check_in_step : safe.

Lemma keeps_check_live toks : keeps toks check_live.
Proof. unfold check_live. eauto 8 with safe. Qed.

Lemma keeps_check_close toks : keeps toks check_close.
Proof. unfold check_close. eauto 8 with safe. Qed.

Lemma keeps_flag (f : shared → shared) toks :
  (∀ s, sh_locked (f s) = sh_locked s ∧ sh_owed (f s) = sh_owed s ∧ sh_log (f s) = sh_log s ∧
    sh_wire (f s) = sh_wire s ∧ sh_negotiated (f s) = sh_negotiated s ∧
    sh_channels (f s) = sh_channels s ∧ sh_signals (f s) = sh_signals s ∧
    sh_incoming (f s) = sh_incoming s ∧ sh_staged (f s) = sh_staged s ∧
    sh_next_flag (f s) = sh_next_flag s) →
  keeps toks (act (modify f)).
Proof.
  intros Hf. apply keeps_modify. intros s all _ [K0 K1 K2 K3 K4 K5].
  destruct (Hf s) as (E1 & E2 & E3 & E4 & E5 & E6 & E7 & E8 & E9 & E10).
  split; rewrite ?E1, ?E2, ?E3, ?E4, ?E5, ?E6, ?E7, ?E8, ?E9, ?E10; done.
Qed.

Lemma keeps_stop toks : keeps toks stop.
Proof.
  assert (∀ b, keeps toks (act (modify (put_ended_in_step b)))) by (intros b; by apply keeps_flag).
  assert (keeps toks (act (modify (put_stopped true)))) by (by apply keeps_flag).
  unfold stop. eauto 10 with safe.
Qed.
Hint Resolve keeps_check_live keeps_check_close keeps_stop : safe.

Lemma keeps_end_stream toks : keeps toks end_stream.
Proof.
  assert (keeps toks (act (modify (put_stream_over true)))) by (by apply keeps_flag).
  unfold end_stream. eauto with safe.
Qed.

Lemma keeps_wake_at i toks : (i < width)%nat → keeps toks (wake_at i).
Proof.
  intros Hlt. apply keeps_act. intros s all Hb Hi. unfold wp.
  assert (i < length (sh_signals s))%nat as Hlt' by (by rewrite (i_width _ _ _ _ _ _ Hi)).
  destruct (lookup_lt_is_Some_2 (sh_signals s) i Hlt') as [x ->]. simpl.
  intros _. split; [done|]. by apply sinv_wake.
Qed.
Hint Resolve keeps_end_stream keeps_wake_at : safe.

(** ** The write half *)

Lemma sinv_lock s toks :
  sinv s toks → sh_locked s = false → sinv (put_locked true s) (KLock Idle :: toks).
Proof.
  intros [K0 K1 K2 K3 K4 K5] Hl. split; try done.
  - unfold lock_inv in *. rewrite Hl in K1. change (omap lock_of (KLock Idle :: toks)) with (Idle :: omap lock_of toks).
    simpl. rewrite len_cons. lia.
  - apply debts_other; [by right|done].
  - by apply channels_other.
  - by apply requests_other.
Qed.

Lemma sinv_unlock s toks : sinv s (KLock Idle :: toks) → sinv (put_locked false s) toks.
Proof.
  intros [K0 K1 K2 K3 K4 K5]. pose proof (lock_inv_held _ _ _ K1) as Hl. rewrite Hl in K1. split; try done.
  - unfold lock_inv in *. change (omap lock_of (KLock Idle :: toks)) with (Idle :: omap lock_of toks) in K1.
    rewrite len_cons in K1. simpl. lia.
  - by apply debts_other in K2; [|right].
  - by apply channels_other in K4.
  - by apply requests_other in K5.
Qed.

Lemma returns_lock toks : returns (λ _, [KLock Idle]) toks lock.
Proof.
  apply safe_wait; [done| |done]. intros s fr _ Hi Hr _. exists (KLock Idle :: toks). split; [|done].
  apply sinv_lock; [done|]. by destruct (sh_locked s).
Qed.

Lemma safe_release toks : csafe release (λ o x, o = Ret tt ∧ x = toks) (KLock Idle :: toks).
Proof.
  unfold release. apply safe_bind. apply safe_load. intros s fr Hi. apply safe_bind.
  assert (csafe (act (modify (put_locked false))) (λ o x, o = Ret tt ∧ x = toks) (KLock Idle :: toks)) as Hu.
  { apply safe_act. intros s' fr' _ Hi' _. exists toks. split; [|done]. by apply sinv_unlock. }
  destruct (desync s); [|exact Hu].
  apply safe_act. intros s' fr' Hb Hi' Hb'. exists (KLock Idle :: toks).
  split; [|exact Hu]. simpl. unfold wake_all.
  assert (sinv (put_signals (S <$> sh_signals s') s') ((KLock Idle :: toks) ++ fr')) as []
    by (by apply sinv_signals; [apply length_fmap|]).
  done.
Qed.

Lemma safe_with_write_half {A} (body : call A) (Q : outcome (Error IoE) A → list token → Prop) toks :
  Q Dropped toks →
  csafe body (λ o x, ∃ y, x = KLock Idle :: y ∧ Q o y) (KLock Idle :: toks) →
  csafe (with_write_half body) Q toks.
Proof.
  intros HD Hb. unfold with_write_half. apply safe_bind.
  apply safe_wait; [done| |done]. intros s fr _ Hi Hr _. exists (KLock Idle :: toks). split.
  { apply sinv_lock; [done|]. by destruct (sh_locked s). }
  apply safe_finally. eapply safe_mono; [exact Hb|]. intros o x (y & -> & HQ).
  eapply safe_mono; [apply safe_release|]. intros o' z [-> ->]. done.
Qed.

Lemma keeps_with_write_half {A} (body : call A) toks :
  keeps (KLock Idle :: toks) body → keeps toks (with_write_half body).
Proof.
  intros Hb. apply safe_with_write_half; [done|]. eapply safe_mono; [exact Hb|].
  intros o x Ho. exists toks. destruct o; naive_solver.
Qed.

(** ** Writes *)

(** What a write step leaves behind. *)
Lemma wp_write_with debt pkt s all (Q : outcome (Error IoE) unit → shared → Prop) :
  sinv s all →
  (∀ o w, let ev := match o with
                    | Ret _ => Sent debt pkt
                    | Fail e => WriteFailed (connection_gone e)
                    | _ => WriteFailed false
                    end in
    o ≠ Panicked → o ≠ NoFuel →
    wire_inv out0 w (checksum (sh_negotiated s)) (sh_log s ++ [ev]) →
    Q o (note ev (put_wire w s))) →
  wp (write_with (Sent debt pkt) (send_pkt pkt (checksum (sh_negotiated s)))) Q s.
Proof.
  intros [K0 K1 K2 K3 K4 K5] HQ. unfold wp, write_with.
  pose proof (send_pkt_spec pkt (checksum (sh_negotiated s)) (sh_wire s)) as Hs. unfold wp in Hs.
  destruct (send_pkt pkt (checksum (sh_negotiated s)) (sh_wire s)) as [o w]. simpl in Hs.
  destruct (wire_write out0 _ _ _ _ debt _ _ K3 Hs) as (Hw & Hp & Hn). simpl.
  by apply HQ.
Qed.

(** The event of a write that is no debt's and no WRTE is quiet. *)
Lemma sinv_written debt pkt s all w (o : outcome (Error IoE) unit) :
  let ev := match o with
            | Ret _ => Sent debt pkt
            | Fail e => WriteFailed (connection_gone e)
            | _ => WriteFailed false
            end in
  sinv s all → command pkt ≠ Command.Write → debt = None →
  wire_inv out0 w (checksum (sh_negotiated s)) (sh_log s ++ [ev]) →
  sinv (note ev (put_wire w s)) all.
Proof.
  intros ev [K0 K1 K2 K3 K4 K5] Hc Hd Hw.
  assert (silent ev) as Hs by (unfold ev; destruct o; try done; by apply silent_sent).
  assert (debt_of ev = None ∧ payment_of ev = None ∧ request_of ev = None ∧ resolved_of ev = None)
    as (E1 & E2 & E3 & E4) by (unfold ev; destruct o; subst; done).
  split; try done.
  - by apply debts_note.
  - by apply channels_note.
  - by apply requests_note.
Qed.

Lemma keeps_write (pkt : shared → Packet) (m : shared → prog (wire T) (Error IoE) unit) toks :
  (∀ s, command (pkt s) ≠ Command.Write) →
  (∀ s, m s = send_pkt (pkt s) (checksum (sh_negotiated s))) →
  keeps toks (act (λ s, write_with (Sent None (pkt s)) (m s) s)).
Proof.
  intros Hc Hm. apply keeps_act. intros s all Hb Hi. unfold wp. rewrite (Hm s).
  apply (wp_write_with None (pkt s) s all); [done|]. intros o w ev Hp Hn Hw _. split; [done|].
  by apply sinv_written.
Qed.

Lemma keeps_send_packet pkt toks :
  command pkt ≠ Command.Write → keeps toks (act (send_packet None pkt)).
Proof. intros Hc. by apply (keeps_write (λ _, pkt) (λ s, send_pkt pkt (checksum (sh_negotiated s)))). Qed.

Lemma keeps_send_okay ack toks : keeps toks (act (send_okay_for None ack)).
Proof.
  by apply (keeps_write (λ s, okay_packet (ack_mode (sh_negotiated s)) ack)
    (λ s, send_okay_to ack (ack_mode (sh_negotiated s)) (checksum (sh_negotiated s)))).
Qed.

(** ** Debts *)

Lemma sinv_owe d s toks :
  sinv s toks → sinv (note (Owes d) (put_owed (sh_owed s ++ [d]) s)) toks.
Proof.
  intros [K0 K1 K2 K3 K4 K5]. split; try done.
  - by apply debts_owe.
  - by apply wire_note.
  - by apply channels_note.
  - by apply requests_note.
Qed.

Lemma keeps_owe d toks : keeps toks (owe d).
Proof.
  unfold owe. apply keeps_bind; [|eauto with safe]. apply keeps_modify. intros s all _. apply sinv_owe.
Qed.

(** The holder of the write half may look at the first debt, and forget it. *)
Lemma sinv_lock_state s toks st st' :
  sinv s (KLock st :: toks) →
  match st' with
  | Idle => st = Idle ∨ ∃ d, st = Due d
  | Due d => st = Idle ∧ ∃ rest, sh_owed s = d :: rest
  | Paid _ => False
  end → sinv s (KLock st' :: toks).
Proof.
  intros [K0 K1 K2 K3 K4 K5] Hst. pose proof (lock_inv_held _ _ _ K1) as Hl.
  assert (unlocked toks) as Hu by (rewrite Hl in K1; by eapply lock_inv_only).
  apply channels_other in K4; [|done]. apply requests_other in K5; [|done..].
  split; try done; [by eapply debts_state|by apply channels_other|by apply requests_other].
Qed.

Lemma pay_debt_send d s :
  ∃ pkt, command pkt ≠ Command.Write ∧
    pay_debt (IoE := IoE) d s
    = write_with (Sent (Some d) pkt) (send_pkt pkt (checksum (sh_negotiated s))) (s : shared).
Proof.
  destruct d as [ack|ids]; [exists (okay_packet (ack_mode (sh_negotiated s)) ack)
                           |exists (packet_close ids)]; split; done.
Qed.

Lemma safe_pay_debt d toks :
  csafe (act (pay_debt d))
    (λ o x, match o with
            | Ret _ => x = KLock (Paid d) :: toks
            | Panicked | NoFuel => False
            | _ => x = KLock Idle :: toks
            end) (KLock (Due d) :: toks).
Proof.
  apply safe_act. intros s fr Hb Hi. destruct (pay_debt_send d s) as (pkt & Hc & He).
  unfold wp. rewrite He.
  apply (wp_write_with (Some d) pkt s ((KLock (Due d) :: toks) ++ fr)); [done|].
  intros o w ev Hp Hn Hw _.
  pose proof Hi as [K0 K1 K2 K3 K4 K5]. simpl in K1, K2.
  assert (unlocked (toks ++ fr)) as Hu.
  { pose proof (lock_inv_held _ _ _ K1) as Hl. rewrite Hl in K1. by eapply lock_inv_only. }
  assert (silent ev) as Hsl by (unfold ev; destruct o; try done; by apply silent_sent).
  assert (request_of ev = None ∧ resolved_of ev = None) as [E1 E2] by (unfold ev; by destruct o).
  destruct o as [[]|e| | |]; try done.
  - apply channels_other in K4; [|done]. apply requests_other in K5; [|done..].
    exists (KLock (Paid d) :: toks). split; [|done]. split; try done.
    + by apply debts_paid.
    + apply channels_other; [done|]. by apply channels_note.
    + apply requests_other; [done..|]. by apply requests_note.
  - exists (KLock Idle :: toks). split; [|done]. apply (sinv_lock_state _ (toks ++ fr) (Due d)); [|eauto].
    split; try done; [by apply debts_note|by apply channels_note|by apply requests_note].
  - exists (KLock Idle :: toks). split; [|done]. apply (sinv_lock_state _ (toks ++ fr) (Due d)); [|eauto].
    split; try done; [by apply debts_note|by apply channels_note|by apply requests_note].
Qed.

Lemma keeps_pay_loop fuel toks : keeps (KLock Idle :: toks) (pay_loop fuel).
Proof.
  induction fuel as [|fuel IH]; [apply returns_no_fuel|]. cbn [pay_loop]. apply safe_bind.
  apply safe_act. intros s fr Hb Hi. apply wp_gets. intros _.
  destruct (sh_owed s) as [|d rest] eqn:Ho; cbn [head].
  { exists (KLock Idle :: toks). split; [done|]. done. }
  exists (KLock (Due d) :: toks). split.
  { apply (sinv_lock_state _ (toks ++ fr) Idle); [done|]. eauto. }
  apply safe_bind, safe_attempt. eapply safe_mono; [apply safe_pay_debt|].
  intros o x Hx. destruct o as [[]|e| | |]; subst; try done.
  - apply safe_bind. apply safe_act. intros s' fr' Hb' Hi' _. exists (KLock Idle :: toks).
    split; [|exact IH]. destruct Hi' as [K0 K1 K2 K3 K4 K5]. simpl in K1, K2.
    assert (unlocked (toks ++ fr')) as Hu.
    { pose proof (lock_inv_held _ _ _ K1) as Hl. rewrite Hl in K1. by eapply lock_inv_only. }
    apply channels_other in K4; [|done]. apply requests_other in K5; [|done..].
    split; try done; [by eapply debts_struck|by apply channels_other|by apply requests_other].
  - apply keeps_if; [|apply returns_fail]. apply keeps_modify. intros s' all _ [K0 K1 K2 K3 K4 K5].
    split; try done; [|by apply wire_note|by apply channels_note|by apply requests_note].
    left. set_solver.
Qed.

Lemma keeps_with_lock_write {A} fuel (body : call A) toks :
  keeps (KLock Idle :: toks) body → keeps toks (with_lock_write fuel body).
Proof.
  intros Hb. apply keeps_with_write_half, keeps_bind; [apply keeps_pay_loop|]. intros []. exact Hb.
Qed.

Lemma keeps_pay fuel toks : keeps toks (pay fuel).
Proof.
  unfold pay. apply keeps_bind; [eauto with safe|]. intros l. apply keeps_if; [|eauto with safe].
  apply keeps_bind; [eauto with safe|]. intros [|d ds]; [eauto with safe|].
  apply keeps_with_lock_write. eauto with safe.
Qed.
Hint Resolve keeps_owe keeps_pay : safe.

(** ** Channels *)

(** Tokens that differ in those of channels only. *)
Definition others (all all' : list token) : Prop :=
  omap lock_of all' = omap lock_of all ∧ omap pending_of all' = omap pending_of all ∧
  omap flag_of all' = omap flag_of all.

Lemma debts_others owed log all all' :
  omap lock_of all' = omap lock_of all → debts_inv owed log all → debts_inv owed log all'.
Proof.
  intros He. assert (∀ st, KLock st ∈ all' ↔ KLock st ∈ all) as Hk.
  { intros st. assert (∀ l : list token, KLock st ∈ l ↔ st ∈ omap lock_of l) as Hl.
    { intros l. rewrite list_elem_of_omap. split; [eauto|]. intros ([] & ? & ?); simplify_eq/=; done. }
    by rewrite !Hl, He. }
  intros [Hf|(H1 & H2 & H3)]; [by left|right; split_and!].
  - intros d. rewrite Hk. apply H1.
  - intros d. rewrite Hk. apply H2.
  - intros Hn. apply H3. intros d. rewrite <- Hk. apply Hn.
Qed.

(** A step on the table, with what it records and the tokens it trades. *)
Lemma sinv_table s t ev all all' :
  sinv s all → others all all' →
  channels_inv start t (length (sh_signals s)) (sh_log s ++ ev) all' →
  Forall (λ e, debt_of e = None ∧ payment_of e = None ∧ sent_of e = None ∧
               request_of e = None ∧ resolved_of e = None) ev →
  sinv (put_log (sh_log s ++ ev) (put_channels t s)) all'.
Proof.
  intros [K0 K1 K2 K3 K4 [R1 R2 R3]] (O1 & O2 & O3) Hc Hev.
  assert (omap debt_of ev = [] ∧ omap payment_of ev = [] ∧ omap sent_of ev = [] ∧
          omap request_of ev = [] ∧ omap resolved_of ev = []) as (E1 & E2 & E3 & E4 & E5).
  { clear -Hev. induction Hev as [|e ev (E1 & E2 & E3 & E4 & E5) _ IH]; [done|]. simpl.
    rewrite E1, E2, E3, E4, E5. exact IH. }
  split; try done; simpl.
  - unfold lock_inv. by rewrite O1.
  - apply (debts_others _ _ all); [done|]. unfold debts_inv, debts, payments.
    rewrite !omap_app, E1, E2, !app_nil_r. destruct K2 as [|K2]; [left; set_solver|by right].
  - intros Hd Hn. rewrite omap_app, E3, app_nil_r. apply K3; [done|set_solver].
  - split; [|by rewrite O3|done]. rewrite !omap_app, E4, E5, !app_nil_r, O2. done.
Qed.

Lemma sinv_channels s t all all' :
  sinv s all → others all all' →
  channels_inv start t (length (sh_signals s)) (sh_log s) all' → sinv (put_channels t s) all'.
Proof.
  intros Hi Ho Hc. assert (put_channels t s = put_log (sh_log s ++ []) (put_channels t s)) as ->.
  { rewrite app_nil_r. by destruct s. }
  apply sinv_table with all; [done|done|by rewrite app_nil_r|constructor].
Qed.

(** The destructors: they end, and always by returning. *)
Definition always {A} (toks toks' : list token) (t : call A) : Prop :=
  csafe t (λ o x, (∃ a, o = Ret a) ∧ x = toks') toks.

Lemma always_bind {A B} toks toks1 toks' (t : call A) (k : A → call B) :
  always toks toks1 t → (∀ a, always toks1 toks' (k a)) → always toks toks' (t ≫= k).
Proof.
  intros Ht Hk. apply safe_bind. eapply safe_mono; [exact Ht|]. intros o x [[a ->] ->]. apply Hk.
Qed.

Lemma always_ret {A} (a : A) toks : always toks toks (mret a : call A).
Proof. apply safe_ret. eauto. Qed.

Lemma always_modify (f : shared → shared) toks toks' :
  (∀ s fr, bounded s → sinv s (toks ++ fr) → sinv (f s) (toks' ++ fr)) →
  always toks toks' (act (modify f)).
Proof. intros Hf. apply safe_act. intros s fr Hb Hi _. exists toks'. split; [by apply Hf|eauto]. Qed.

Lemma always_wake i toks : always toks toks (act (modify (wake i))).
Proof. apply always_modify. intros. by apply sinv_wake. Qed.

Lemma always_notify_receive toks : always toks toks (act (modify notify_receive)).
Proof. apply always_modify. by intros s fr _ []. Qed.

Lemma always_unit toks toks' (t : call unit) :
  always toks toks' t → csafe t (λ o x, o = Ret tt ∧ x = toks') toks.
Proof. intros Ht. eapply safe_mono; [exact Ht|]. by intros o x [[[] ->] ->]. Qed.

Lemma always_keeps {A} toks (t : call A) : always toks toks t → keeps toks t.
Proof. intros Ht. eapply safe_mono; [exact Ht|]. by intros o x [[a ->] ->]. Qed.

(** A step on a slot that no account sees. *)
Lemma safe_on_slot {A} ch (f : ChannelSlot → A * ChannelSlot) toks :
  (∀ sl, sl_local (snd (f sl)) = sl_local sl ∧ sl_policy (snd (f sl)) = sl_policy sl ∧
    sl_send_queue (snd (f sl)) = sl_send_queue sl ∧ sl_rx_buf (snd (f sl)) = sl_rx_buf sl ∧
    avail (snd (f sl)) <= avail sl) →
  csafe (act (on_slot ch f))
    (λ o x, x = toks ∧ match o with
                       | Ret (Some _) => (ch_slot ch < width)%nat
                       | Ret None => True
                       | _ => False
                       end) toks.
Proof.
  intros Hf. apply safe_act. intros s fr Hb Hi. unfold wp, on_slot.
  destruct (table_get ch (sh_channels s)) as [sl|] eqn:Hg; simpl; [|intros _; exists toks; done].
  destruct (f sl) as [a sl'] eqn:Hfs. specialize (Hf sl). rewrite Hfs in Hf. simpl in *.
  destruct Hf as (F1 & F2 & F3 & F4 & F5). intros _. exists toks. split; [|split; [done|]].
  - apply (sinv_channels _ _ (toks ++ fr)); [done|done|].
    eapply channels_slot; [apply Hi|done..].
  - apply table_get_some in Hg as [Hlt%lookup_lt_Some _].
    rewrite <- (i_width _ _ _ _ _ _ Hi), (ch_signals _ _ _ _ _ (i_channels _ _ _ _ _ _ Hi)). done.
Qed.

Lemma keeps_channel_ids ch toks : keeps toks (channel_ids ch).
Proof.
  apply keeps_act. intros s all Hb Hi. unfold wp, lift.
  destruct (table_ids ch (sh_channels s)); simpl; done.
Qed.
Hint Resolve keeps_channel_ids : safe.

Lemma safe_reserve_opening toks :
  csafe (act reserve_opening)
    (λ o x, x = toks ∧ match o with
                       | Ret ch => (ch_slot ch < width)%nat
                       | Panicked => False
                       | _ => True
                       end) toks.
Proof.
  apply safe_act. intros s fr Hb Hi. unfold wp, reserve_opening.
  destruct (allocate (sh_channels s)) as [[ch|[]] t] eqn:Ha; simpl; [|intros _; by exists toks].
  destruct (insert_opening ch t) as [t'|] eqn:Hin; simpl.
  - intros Hb'. exists toks. set (all := toks ++ fr) in *. split.
    2: { split; [done|]. rewrite <- (i_width _ _ _ _ _ _ Hi), (ch_signals _ _ _ _ _ (i_channels _ _ _ _ _ _ Hi)).
         unfold allocate in Ha. destruct (position_none _) as [i|] eqn:Hp; [|done].
         injection Ha as <- _. apply position_none_some in Hp. by eapply lookup_lt_Some. }
    unfold bounded, note in Hb'. simpl in Hb'.
    unfold allocs in Hb'. rewrite omap_app, len_app in Hb'. change (len _ + len _) with
      (allocs (sh_log s) + 1) in Hb'.
    destruct (channels_open start _ _ _ _ _ _ (i_channels _ _ _ _ _ _ Hi) Ha) as (t'' & He & Hc);
      [lia|done|]. assert (t'' = t') as -> by congruence.
    apply (sinv_table s t' [Allocated ch] all); try done. by repeat constructor.
  - intros _. exfalso. unfold allocate in Ha.
    destruct (position_none (t_slots (sh_channels s))) as [i|] eqn:Hp; [|done].
    injection Ha as <- <-. apply position_none_some in Hp.
    unfold insert_opening, fill in Hin. simpl in Hin. by rewrite Hp in Hin.
Qed.

Lemma always_slot_guard_drop ch toks : always toks toks (slot_guard_drop ch).
Proof.
  unfold slot_guard_drop. eapply always_bind.
  2: { intros [|]; [apply always_notify_receive|apply always_ret]. }
  apply safe_act. intros s fr Hb Hi. unfold wp.
  assert (sinv (put_channels (snd (free ch (sh_channels s))) s) (toks ++ fr)) as Hf.
  { apply (sinv_channels _ _ (toks ++ fr)); [done|done|]. apply channels_freed, Hi. }
  destruct (free ch (sh_channels s)) as [[sl|] t]; simpl in *; [|intros _; exists toks; eauto].
  destruct (slot_ids sl) as [ids|]; simpl; [|intros _; exists toks; eauto].
  destruct (is_failed sl); simpl; intros _; exists toks; split; eauto.
  by apply (sinv_owe (Owed.Close ids)) in Hf.
Qed.

Lemma keeps_open_with fuel dest (k : ChannelId → call ChannelId) toks :
  (∀ ch toks, (ch_slot ch < width)%nat → keeps toks (k ch)) → keeps toks (open_with fuel dest k).
Proof.
  intros Hk. unfold open_with. apply safe_bind. eapply safe_mono; [apply safe_reserve_opening|].
  intros o x [-> Ho]. destruct o as [ch| | | |]; try done.
  apply keeps_finally.
  - apply keeps_bind; [|intros []; by apply Hk]. apply keeps_with_lock_write.
    by apply (keeps_write (λ s, mkPacket Command.Open (ch_local ch)
      (default 0 (advertised_credit (sh_negotiated s))) dest)
      (λ s, send_open (ch_local ch) (default 0 (advertised_credit (sh_negotiated s))) dest
              (checksum (sh_negotiated s)))).
  - intros o _. destruct o; try (apply always_unit, always_slot_guard_drop). by apply safe_ret.
Qed.

Lemma keeps_fail_channel fuel idx ids fault toks : keeps toks (fail_channel fuel idx ids fault).
Proof.
  unfold fail_channel. apply safe_bind. eapply safe_mono.
  { apply (safe_on_slot _ (λ sl, (tt, slot_fail fault sl)) toks). intros sl. simpl.
    split_and!; done. }
  intros o x [-> Ho]. destruct o as [[[]|]| | | |]; try done; simpl in Ho.
  - apply keeps_bind; [by apply keeps_wake_at|]. eauto with safe.
  - apply keeps_bind; [apply keeps_ret|]. eauto with safe.
Qed.
Hint Resolve keeps_fail_channel : safe.

(** ** Reading *)

Lemma keeps_take_step ch want toks : keeps toks (act (take_step ch want)).
Proof.
  apply keeps_act. intros s all Hb Hi. unfold wp, take_step.
  destruct (table_get ch (sh_channels s)) as [sl|] eqn:Hg; simpl.
  2: { destruct (negb (in_step s)); done. }
  destruct (negb (has_data sl) && negb (in_step s)); [done|].
  destruct (has_ended s || negb (take_acks want sl)); [|done].
  assert (∀ r sl', slot_take_buffered (E := IoE) want sl = (r, sl') → (∀ b, r ≠ Ok (Some b)) → sl' = sl) as Hsame.
  { intros r sl'. unfold slot_take_buffered. destruct (negb (has_data sl)).
    - intros Heq _. by injection Heq.
    - intros Heq Hn. injection Heq as <- _. by destruct (Hn _ eq_refl). }
  assert (sinv (put_channels (table_put ch sl (sh_channels s)) s) all) as Hput.
  { apply (sinv_channels _ _ all); [done|done|]. eapply channels_slot; [apply Hi|done..]. }
  destruct (slot_take_buffered (E := IoE) want sl) as [r sl'] eqn:Ht.
  destruct r as [[b|]|e]; simpl; intros _; (split; [done|]).
  - apply (sinv_table s _ [Took ch b] all); [done|done| |by repeat constructor].
    eapply channels_took; [apply Hi|done|done].
  - by rewrite (Hsame _ _ eq_refl).
  - by rewrite (Hsame _ _ eq_refl).
Qed.

Lemma settle_take_accounts want sl :
  let sl' := snd (settle_take want sl) in
  sl_local sl' = sl_local sl ∧ sl_policy sl' = sl_policy sl ∧
  sl_send_queue sl' = sl_send_queue sl ∧ sl_rx_buf sl' = sl_rx_buf sl ∧ avail sl' <= avail sl.
Proof.
  unfold settle_take. destruct (slot_ids sl); [|done]. destruct (negb _); [done|].
  destruct (ack_len _ _ _); [|done]. simpl. unfold avail. simpl. done.
Qed.

Lemma keeps_acknowledge_take ch want toks : keeps toks (acknowledge_take ch want).
Proof.
  apply keeps_with_write_half. apply keeps_bind; [eauto with safe|]. intros l. apply keeps_bind.
  - apply keeps_if; [|eauto with safe]. eapply safe_mono; [apply safe_on_slot, settle_take_accounts|].
    intros o x [-> Ho]. by destruct o.
  - intros [[ack|]|]; [|eauto with safe..]. apply keeps_bind; [|eauto with safe].
    apply keeps_attempt, keeps_send_okay.
Qed.

Lemma keeps_take_buffered fuel ch want toks : keeps toks (take_buffered fuel ch want).
Proof.
  induction fuel as [|fuel IH]; [apply returns_no_fuel|]. cbn [take_buffered].
  apply keeps_bind; [apply keeps_take_step|]. intros [taken|]; [eauto with safe|].
  apply keeps_bind; [|intros _; exact IH]. apply keeps_until, keeps_acknowledge_take.
Qed.
Hint Resolve keeps_take_buffered : safe.

(** ** Writing *)

(** The places a step on the table can go wrong in, given the tokens. *)
Lemma always_credit_guard_drop ch n c toks :
  always (KCredit ch n c :: toks) toks (credit_guard_drop ch n c).
Proof.
  unfold credit_guard_drop. apply (always_bind _ toks).
  2: { intros _. destruct c; [apply always_ret|apply always_wake]. }
  apply safe_act. intros s fr Hb Hi. unfold wp. pose proof (i_channels _ _ _ _ _ _ Hi) as Hc.
  destruct (table_get ch (sh_channels s)) as [sl|] eqn:Hg.
  - destruct (channels_finish start _ _ _ _ _ _ _ _ Hc Hg) as (q & -> & Hc'). simpl.
    intros _. exists toks. split; [|eauto].
    by apply (sinv_channels _ _ ((KCredit ch n c :: toks) ++ fr)).
  - simpl. intros _. exists toks. split; [|eauto].
    assert (s = put_channels (sh_channels s) s) as -> by (by destruct s).
    apply (sinv_channels _ _ ((KCredit ch n c :: toks) ++ fr)); [done|done|].
    by eapply channels_drop_token.
Qed.

Lemma always_queue_guard_drop ch place toks :
  always (KPlace ch place :: toks) toks (queue_guard_drop ch place).
Proof.
  unfold queue_guard_drop. apply (always_bind _ toks).
  2: { intros [[]|]; [apply always_wake|apply always_ret..]. }
  apply safe_act. intros s fr Hb Hi. unfold wp, on_slot. pose proof (i_channels _ _ _ _ _ _ Hi) as Hc.
  destruct (table_get ch (sh_channels s)) as [sl|] eqn:Hg.
  - pose proof (channels_leave start _ _ _ _ _ _ _ Hc Hg) as Hl.
    destruct (leave (sl_send_queue sl) place) as [moved q]. simpl. intros _. exists toks.
    split; [|eauto]. by apply (sinv_channels _ _ ((KPlace ch place :: toks) ++ fr)).
  - simpl. intros _. exists toks. split; [|eauto].
    assert (s = put_channels (sh_channels s) s) as -> by (by destruct s).
    apply (sinv_channels _ _ ((KPlace ch place :: toks) ++ fr)); [done|done|].
    by eapply channels_drop_token.
Qed.

Lemma returns_take_place ch toks :
  returns (λ place, [KPlace ch place]) toks (act (take_place ch)).
Proof.
  apply safe_act. intros s fr Hb Hi. unfold wp, take_place. pose proof (i_channels _ _ _ _ _ _ Hi) as Hc.
  destruct (table_get ch (sh_channels s)) as [sl|] eqn:Hg; [|intros _; by exists toks].
  destruct (is_closed sl); [intros _; by exists toks|].
  pose proof (channels_enqueue start _ _ _ _ _ _ Hc Hg) as He.
  destruct (enqueue (sl_send_queue sl)) as [place q]. cbn [fst snd]. intros _.
  exists (KPlace ch place :: toks). split; [|done].
  by apply (sinv_channels _ _ (toks ++ fr)).
Qed.

(** What a writer in line owns once it is served. *)
Definition served (ch : ChannelId) (want place : Z) (toks : list token)
    (o : outcome (Error IoE) Z) (x : list token) : Prop :=
  match o with
  | Ret n => 0 < n <= want ∧ x = KCredit ch n false :: toks
  | Panicked => False
  | _ => x = KPlace ch place :: toks
  end.

Lemma safe_try_reserve ch want place toks :
  0 < want →
  csafe (act (try_reserve ch want place))
    (λ o x, match o with
            | Ret (Some (n, _)) => 0 < n <= want ∧ x = KCredit ch n false :: toks
            | Panicked => False
            | _ => x = KPlace ch place :: toks
            end) (KPlace ch place :: toks).
Proof.
  intros Hw. apply safe_act. intros s fr Hb Hi. unfold wp, try_reserve.
  pose proof (i_channels _ _ _ _ _ _ Hi) as Hc.
  destruct (table_get ch (sh_channels s)) as [sl|] eqn:Hg; simpl; [|intros _; by exists (KPlace ch place :: toks)].
  destruct (is_closed sl); simpl; [intros _; by exists (KPlace ch place :: toks)|].
  destruct (Z.eqb_spec (turn (sl_send_queue sl)) place) as [Ht|]; simpl; [|intros _; by exists (KPlace ch place :: toks)].
  destruct (try_reserve_send want sl) as [[n|] sl'] eqn:Hr; simpl; [|intros _; by exists (KPlace ch place :: toks)].
  destruct (channels_reserve start _ _ _ _ _ _ _ _ _ _ Hc Hg Ht Hw Hr) as (Hn & Hle & Hc').
  intros _. exists (KCredit ch n false :: toks). split; [|done].
  by apply (sinv_channels _ _ ((KPlace ch place :: toks) ++ fr)).
Qed.

Lemma safe_acquire_loop fuel ch want place toks :
  0 < want →
  csafe (acquire_loop fuel ch want place) (served ch want place toks) (KPlace ch place :: toks).
Proof.
  intros Hw. induction fuel as [|fuel IH]; [done|]. cbn [acquire_loop].
  apply safe_bind, safe_load. intros s fr Hi. apply safe_bind.
  eapply safe_mono; [by apply safe_try_reserve|]. intros o x Ho.
  destruct o as [[[n more]|]| | | |]; try done.
  - destruct Ho as [Hn ->]. apply safe_bind.
    assert (always (KCredit ch n false :: toks) (KCredit ch n false :: toks)
      (if more then act (modify (wake (ch_slot ch))) else mret tt)) as Hwk
      by (destruct more; [apply always_wake|apply always_ret]).
    eapply safe_mono; [exact Hwk|]. intros o' y [[[] ->] ->]. by apply safe_ret.
  - subst. apply safe_bind. eapply safe_mono; [apply keeps_check_live|].
    intros o' y Ho'. destruct o'; try done. subst. apply safe_bind.
    eapply safe_mono; [apply keeps_await_signal|].
    intros o' y Ho'. destruct o'; try done. subst. exact IH.
Qed.

Lemma keeps_has_signal ch toks : keeps toks (has_signal ch).
Proof.
  unfold has_signal. apply keeps_bind; [eauto with safe|]. intros [|]; eauto with safe.
Qed.
Hint Resolve keeps_has_signal : safe.

Lemma safe_acquire_credit fuel ch want toks :
  0 < want →
  csafe (acquire_credit fuel ch want)
    (λ o x, match o with
            | Ret n => 0 < n <= want ∧ x = KCredit ch n false :: toks
            | Panicked => False
            | _ => x = toks
            end) toks.
Proof.
  intros Hw. unfold acquire_credit. apply safe_bind. eapply safe_mono; [apply keeps_has_signal|].
  intros o x Ho. destruct o as [[]| | | |]; try done. subst. apply safe_bind.
  eapply safe_mono; [apply returns_take_place|]. intros o x Ho.
  destruct o as [place| | | |]; try done. subst. apply safe_finally.
  eapply safe_mono; [by apply safe_acquire_loop|]. intros o x Ho.
  destruct o as [n|e| | |]; simpl in Ho; try done;
    try (subst; eapply safe_mono; [apply always_unit, always_queue_guard_drop|]; by intros o' y [-> ->]).
Qed.

Lemma keeps_send_chunk fuel ch n chunk toks :
  0 < len chunk <= n →
  csafe (send_chunk fuel ch n chunk)
    (λ o x, match o with Panicked => False | _ => x = toks end) (KCredit ch n false :: toks).
Proof.
  intros Hn. unfold send_chunk. apply safe_finally.
  assert (csafe (channel_ids ch) (λ o x, x = KCredit ch n false :: toks ∧
    match o with Ret ids => local ids = ch_local ch | Fail _ => True | _ => False end)
    (KCredit ch n false :: toks)) as Hids.
  { apply safe_act. intros s fr Hb Hi. unfold wp, lift.
    destruct (table_ids ch (sh_channels s)) as [ids|e] eqn:He; simpl; intros _; eexists; (split; [done|]); [|done].
    split; [done|]. unfold table_ids in He. destruct (table_get ch (sh_channels s)) as [sl|] eqn:Hg; [|done].
    simpl in He. destruct (slot_ids sl) as [ids'|] eqn:Hsl; [|done]. simpl in He. simplify_eq.
    apply slot_ids_some in Hsl as [_ <-]. by apply table_get_some in Hg as [_ ?]. }
  apply safe_bind. eapply safe_mono; [exact Hids|]. intros o x [-> Ho].
  assert (∀ c, csafe (credit_guard_drop ch n c) (λ o y, o = Ret tt ∧ y = toks) (KCredit ch n c :: toks))
    as Hdrop by (intros c; apply always_unit, always_credit_guard_drop).
  destruct o as [ids|e| | |]; try done; try apply Hdrop.
  apply safe_with_write_half; [by apply Hdrop|]. apply safe_bind.
  eapply safe_mono; [apply keeps_pay_loop|]. intros o x Hx.
  destruct o as [[]|e| | |]; try done; subst;
    try (exists (KCredit ch n false :: toks); split; [done|by apply Hdrop]).
  apply safe_act. intros s fr Hb Hi. unfold wp. rewrite send_raw_pkt.
  apply (wp_write_with None (mkPacket Command.Write (local ids) (remote ids) chunk) s
    ((KLock Idle :: KCredit ch n false :: toks) ++ fr)); [done|].
  intros o w ev Hp Hnf Hw _. pose proof Hi as [K0 K1 K2 K3 K4 K5].
  destruct o as [[]|e| | |]; try done.
  - exists (KLock Idle :: KCredit ch n true :: toks). split.
    2: { eexists. split; [done|]. by apply Hdrop. }
    apply channels_other in K4; [|done].
    split; try done.
    + by apply (debts_others _ _ ((KLock Idle :: KCredit ch n false :: toks) ++ fr)), debts_note.
    + apply channels_other; [done|]. by eapply (channels_write start _ _ _ _ ch n).
    + apply requests_note; [done..|]. apply requests_other; [done..|]. apply requests_other; [done..|].
      apply requests_other in K5; [|done..]. by apply requests_other in K5.
  - exists (KLock Idle :: KCredit ch n false :: toks). split.
    2: { eexists. split; [done|]. by apply Hdrop. }
    split; try done; [by apply debts_note|by apply channels_note|by apply requests_note].
  - exists (KLock Idle :: KCredit ch n false :: toks). split.
    2: { eexists. split; [done|]. by apply Hdrop. }
    split; try done; [by apply debts_note|by apply channels_note|by apply requests_note].
Qed.

Lemma keeps_writer_loop rounds fuel ch max data toks :
  1 <= max → keeps toks (writer_loop rounds fuel ch max data).
Proof.
  intros Hm. revert data. induction rounds as [|rounds IH]; intros data; [apply returns_no_fuel|].
  cbn [writer_loop]. destruct data as [|b data']; [apply keeps_ret|]. set (data := b :: data').
  assert (0 < len data) as Hd by (unfold data; rewrite len_cons; zlen_facts; lia).
  apply safe_bind. eapply safe_mono; [apply safe_acquire_credit; lia|].
  intros o x Ho. destruct o as [n| | | |]; try done. destruct Ho as [Hn ->].
  apply safe_bind. eapply safe_mono; [apply keeps_send_chunk|].
  - rewrite len_ztake. lia.
  - intros o x Ho. destruct o as [[]| | | |]; try done. subst. apply IH.
Qed.

Lemma keeps_writer_write_channel fuel ch data toks : keeps toks (writer_write_channel fuel ch data).
Proof.
  unfold writer_write_channel. apply keeps_bind; [eauto with safe|]. intros _.
  destruct data as [|b data]; [eauto with safe|]. apply safe_bind, safe_load. intros s fr _.
  apply keeps_writer_loop. lia.
Qed.

(** ** Closing, selecting, opening *)

Lemma table_ids_width s all ch ids :
  sinv s all → table_ids (E := IoE) ch (sh_channels s) = Ok ids → (ch_slot ch < width)%nat.
Proof.
  intros Hi He. unfold table_ids in He.
  destruct (table_get ch (sh_channels s)) as [sl|] eqn:Hg; [|done].
  apply table_get_some in Hg as [Hlt%lookup_lt_Some _].
  rewrite <- (i_width _ _ _ _ _ _ Hi), (ch_signals _ _ _ _ _ (i_channels _ _ _ _ _ _ Hi)). done.
Qed.

Lemma sinv_free s ch all : sinv s all → sinv (put_channels (snd (free ch (sh_channels s))) s) all.
Proof. intros Hi. apply (sinv_channels _ _ all); [done|done|]. apply channels_freed, Hi. Qed.

Lemma keeps_close_channel_via fuel ch toks : keeps toks (close_channel_via fuel ch).
Proof.
  unfold close_channel_via. apply keeps_bind; [eauto with safe|]. intros _. apply safe_bind.
  apply safe_act. intros s fr Hb Hi. unfold wp.
  destruct (table_ids ch (sh_channels s)) as [ids|e] eqn:He; cbn [fst snd]; intros _; exists toks; [|done].
  split; [by apply sinv_free|]. apply keeps_bind; [eapply keeps_wake_at, table_ids_width; done|].
  intros _. apply keeps_bind; [eauto with safe|]. intros _. apply keeps_bind.
  - apply keeps_until, keeps_with_lock_write. eauto with safe.
  - intros [|]; eauto with safe.
Qed.

Lemma keeps_await_or {I} (intr : nat → option I) i seen toks : keeps toks (await_or intr i seen).
Proof.
  split; [done|]. split; [|by right]. intros [|n] s fr Hb Hi; simpl.
  - destruct (negb _); [|done]. intros _. by exists toks.
  - destruct (intr n); [|done]. intros _. by exists toks.
Qed.

Lemma keeps_select_loop {I} fuel (intr : nat → option I) ch want l toks :
  keeps toks (select_loop fuel intr ch want l).
Proof.
  revert l. induction fuel as [|fuel IH]; intros l; [apply returns_no_fuel|]. cbn [select_loop].
  apply keeps_bind; [eauto with safe|]. intros [b|]; [eauto with safe|].
  apply keeps_bind; [eauto with safe|]. intros _. destruct l as [seen|].
  - apply keeps_bind; [apply keeps_await_or|]. intros [v|]; [eauto with safe|apply IH].
  - apply keeps_bind; [eauto with safe|]. intros seen. apply IH.
Qed.

Lemma keeps_writer_select_channel {I} fuel (intr : nat → option I) ch want toks :
  keeps toks (writer_select_channel fuel intr ch want).
Proof. unfold writer_select_channel. apply keeps_bind; [eauto with safe|]. intros _. apply keeps_select_loop. Qed.

Lemma keeps_writer_read_channel fuel ch want toks : keeps toks (writer_read_channel fuel ch want).
Proof.
  unfold writer_read_channel. apply keeps_bind; [apply keeps_writer_select_channel|].
  intros [b|[]]. eauto with safe.
Qed.

Lemma keeps_writer_await_ack fuel ch toks : keeps toks (writer_await_ack fuel ch).
Proof.
  induction fuel as [|fuel IH]; [apply returns_no_fuel|]. cbn [writer_await_ack].
  apply keeps_bind; [eauto with safe|]. intros _. apply keeps_bind; [eauto with safe|]. intros seen.
  apply keeps_bind; [eauto with safe|]. intros [| |e]; [|eauto with safe..].
  apply keeps_bind; [eauto with safe|]. intros _. apply keeps_bind; [eauto with safe|]. intros _. exact IH.
Qed.

Lemma keeps_signal_at i toks : (i < width)%nat → keeps toks (signal_at i).
Proof.
  intros Hlt. apply keeps_act. intros s all Hb Hi. unfold wp.
  assert (i < length (sh_signals s))%nat as Hlt' by (by rewrite (i_width _ _ _ _ _ _ Hi)).
  by destruct (lookup_lt_is_Some_2 (sh_signals s) i Hlt') as [x ->].
Qed.

Lemma keeps_writer_open_channel fuel dest toks : keeps toks (writer_open_channel fuel dest).
Proof.
  unfold writer_open_channel. apply keeps_bind; [eauto with safe|]. intros _. apply keeps_open_with.
  intros ch x Hlt. apply keeps_bind; [by apply keeps_signal_at|]. intros _. apply keeps_writer_await_ack.
Qed.

(** ** Requests *)

(** What the holder of a request owns. *)
Definition held_by (i : SplitIncoming) : list token := [KHeld (si_flag i) (Some (si_pending i))].

Lemma channels_notes t n log toks ev :
  Forall silent ev → channels_inv start t n log toks → channels_inv start t n (log ++ ev) toks.
Proof.
  intros Hev. revert log. induction Hev as [|e ev He _ IH]; intros log Hc; [by rewrite app_nil_r|].
  rewrite cons_middle, app_assoc. by apply IH, channels_note.
Qed.

(** A step on the requests alone, with what it records. *)
Lemma sinv_requests s inc st cn nf ev all all' :
  sinv s all → omap lock_of all' = omap lock_of all →
  (∀ t n log, channels_inv start t n log all → channels_inv start t n log all') →
  requests_inv inc0 inc st nf (sh_log s ++ ev) all' →
  Forall (λ e, debt_of e = None ∧ payment_of e = None ∧ sent_of e = None ∧ silent e) ev →
  sinv (put_log (sh_log s ++ ev)
          (put_next_flag nf (put_cancelled cn (put_staged st (put_incoming inc s))))) all'.
Proof.
  intros [K0 K1 K2 K3 K4 _] Hl Hc Hr Hev.
  assert (omap debt_of ev = [] ∧ omap payment_of ev = [] ∧ omap sent_of ev = [] ∧ Forall silent ev)
    as (E1 & E2 & E3 & E4).
  { clear -Hev. induction Hev as [|e ev (E1 & E2 & E3 & E4) _ (I1 & I2 & I3 & I4)]; [done|]. simpl.
    rewrite E1, E2, E3. auto. }
  split; try done; simpl.
  - unfold lock_inv. by rewrite Hl.
  - apply (debts_others _ _ all); [done|]. unfold debts_inv, debts, payments.
    rewrite !omap_app, E1, E2, !app_nil_r. destruct K2 as [|K2]; [left; set_solver|by right].
  - intros Hd Hn. rewrite omap_app, E3, app_nil_r. apply K3; [done|set_solver].
  - by apply channels_notes, Hc.
Qed.

(** The same where nothing is recorded, or one event. *)
Lemma sinv_requests_0 s inc st cn nf all all' :
  sinv s all → omap lock_of all' = omap lock_of all →
  (∀ t n log, channels_inv start t n log all → channels_inv start t n log all') →
  requests_inv inc0 inc st nf (sh_log s) all' →
  sinv (put_next_flag nf (put_cancelled cn (put_staged st (put_incoming inc s)))) all'.
Proof.
  intros Hi Hl Hc Hr.
  pose proof (sinv_requests s inc st cn nf [] all all' Hi Hl Hc) as Hs. rewrite app_nil_r in Hs.
  specialize (Hs Hr ltac:(constructor)). by destruct s.
Qed.

Lemma others_held f p p' toks t n log :
  channels_inv start t n log (KHeld f p :: toks) → channels_inv start t n log (KHeld f p' :: toks).
Proof. intros Hc%channels_other; [|done]. by apply channels_other. Qed.

Lemma sinv_hold s p all :
  sinv s (KPending p :: all) →
  let '(i, s') := hold_incoming p s in sinv s' (held_by i ++ all).
Proof.
  intros Hi. simpl.
  assert (sinv (put_next_flag (S (sh_next_flag s)) (put_cancelled (sh_cancelled s)
    (put_staged (sh_staged s ++ [(po_remote p, sh_next_flag s)]) (put_incoming (sh_incoming s) s))))
    (KHeld (sh_next_flag s) (Some p) :: all)) as Hs; [|by destruct s].
  apply (sinv_requests_0 _ _ _ _ _ (KPending p :: all)); [done|done| |].
  - intros t n log Hc%channels_other; [|done]. by apply channels_other.
  - apply requests_hold, Hi.
Qed.

Lemma returns_stage_incoming p toks :
  csafe (act (stage_incoming p)) (λ o x, match o with Ret i => si_pending i = p ∧ x = held_by i ++ toks
                                                    | _ => False end) (KPending p :: toks).
Proof.
  apply safe_act. intros s fr Hb Hi _. pose proof (sinv_hold s p (toks ++ fr) Hi) as Hh.
  simpl in *. exists (KHeld (sh_next_flag s) (Some p) :: toks). split; [exact Hh|]. done.
Qed.

Lemma returns_take_incoming_past cap toks :
  returns (λ o, from_option held_by [] o) toks (act (take_incoming_past cap)).
Proof.
  apply safe_act. intros s fr Hb Hi. unfold take_incoming_past. apply wp_state.
  destruct (_ <=? _); [intros _; by exists toks|].
  destruct (sh_incoming s) as [|p q] eqn:Hq; [intros _; by exists toks|]. cbn [pop_front].
  assert (sinv (put_incoming q s) (KPending p :: toks ++ fr)) as Hp.
  { assert (sinv (put_next_flag (sh_next_flag s) (put_cancelled (sh_cancelled s)
      (put_staged (sh_staged s) (put_incoming q s)))) (KPending p :: toks ++ fr)) as Hs; [|by destruct s].
    apply (sinv_requests_0 _ _ _ _ _ (toks ++ fr)); [done|done| |].
    - intros t n log Hc. by apply channels_other.
    - pose proof (i_requests _ _ _ _ _ _ Hi) as Hr. rewrite Hq in Hr. by apply requests_pop. }
  pose proof (sinv_hold _ p (toks ++ fr) Hp) as Hh. simpl in *. intros _.
  exists (KHeld (sh_next_flag s) (Some p) :: toks). split; [exact Hh|]. done.
Qed.

(** The request has been dealt with: it is dropped. *)
Lemma always_free_opt (reserved : option ChannelId) toks :
  always toks toks
    (match reserved with
     | Some ch => act (modify (λ s : shared, put_channels (snd (free ch (sh_channels s))) s))
     | None => mret tt
     end : call unit).
Proof.
  destruct reserved as [ch|]; [|apply always_ret]. apply always_modify. intros. by apply sinv_free.
Qed.

Lemma always_incoming_drop pending reserved flag toks :
  always (KHeld flag pending :: toks) toks (incoming_drop pending reserved flag).
Proof.
  unfold incoming_drop. eapply always_bind; [apply always_free_opt|]. intros _. apply always_modify.
  intros s fr Hb Hi. pose proof (i_requests _ _ _ _ _ _ Hi) as Hr. simpl in Hr.
  assert (∀ p, ∀ t n log, channels_inv start t n log (KHeld flag p :: toks ++ fr) →
    channels_inv start t n log (toks ++ fr)) as Hch by (intros p t n log Hc; by apply channels_other in Hc).
  set (st := filter (λ x, x.2 ≠ flag) (sh_staged s)).
  destruct pending as [p|].
  - destruct (is_cancelled flag (put_staged st s)).
    + assert (sinv (put_log (sh_log s ++ [Resolved p]) (put_next_flag (sh_next_flag s) (put_cancelled
        (sh_cancelled s) (put_staged st (put_incoming (sh_incoming s) s))))) (toks ++ fr)) as Hs; [|by destruct s].
      eapply sinv_requests; [exact Hi|done|apply Hch| |by repeat constructor].
      apply requests_released. by apply requests_resolve.
    + assert (sinv (put_next_flag (sh_next_flag s) (put_cancelled
        (sh_cancelled s) (put_staged st (put_incoming (push_front p (sh_incoming s)) s)))) (toks ++ fr)) as Hs.
      { eapply sinv_requests_0; [exact Hi|done|apply Hch|]. apply requests_released.
        by apply requests_requeue. }
      unfold notify_incoming. destruct s. by destruct Hs.
  - assert (sinv (put_next_flag (sh_next_flag s) (put_cancelled
      (sh_cancelled s) (put_staged st (put_incoming (sh_incoming s) s)))) (toks ++ fr)) as Hs; [|by destruct s].
    eapply sinv_requests_0; [exact Hi|done|apply Hch|]. by apply requests_released.
Qed.

(** ** Verdicts *)

Lemma sinv_resolve s f p all :
  sinv s (KHeld f (Some p) :: all) → sinv (note (Resolved p) s) (KHeld f None :: all).
Proof.
  intros Hi. assert (sinv (put_log (sh_log s ++ [Resolved p]) (put_next_flag (sh_next_flag s)
    (put_cancelled (sh_cancelled s) (put_staged (sh_staged s) (put_incoming (sh_incoming s) s)))))
    (KHeld f None :: all)) as Hs; [|by destruct s].
  eapply sinv_requests; [exact Hi|done| | |by repeat constructor].
  - intros t n log. apply others_held.
  - apply requests_resolve, Hi.
Qed.

Lemma sinv_resolve_locked s f p all :
  sinv s (KLock Idle :: KHeld f (Some p) :: all) →
  sinv (note (Resolved p) s) (KLock Idle :: KHeld f None :: all).
Proof.
  intros Hi. assert (KLock Idle :: KHeld f None :: all ≡ₚ KHeld f None :: KLock Idle :: all) as ->
    by solve_Permutation.
  apply sinv_resolve. eapply sinv_perm; [done| |exact Hi]. solve_Permutation.
Qed.

Lemma safe_split_answer p reserved flag verdict toks :
  command verdict ≠ Command.Write →
  csafe (split_answer p reserved flag verdict)
    (λ o x, match o with
            | Ret _ => x = KHeld flag None :: toks
            | Panicked => False
            | _ => x = toks
            end) (KHeld flag (Some p) :: toks).
Proof.
  intros Hc. unfold split_answer. apply safe_finally.
  assert (∀ q, csafe (incoming_drop q reserved flag) (λ o y, o = Ret tt ∧ y = toks) (KHeld flag q :: toks))
    as Hdrop by (intros q; apply always_unit, always_incoming_drop).
  apply safe_with_write_half; [apply Hdrop|].
  apply safe_act. intros s fr Hb Hi. unfold send_packet.
  pose proof (wp_write_with None verdict s _ (λ o s', ∃ o' w, o' = o ∧
    s' = note match o with Ret _ => Sent None verdict | Fail e => WriteFailed (connection_gone e)
                         | _ => WriteFailed false end (put_wire w s) ∧ o ≠ Panicked ∧ o ≠ NoFuel ∧
    wire_inv out0 w (checksum (sh_negotiated s)) (sh_log s ++ [match o with Ret _ => Sent None verdict
      | Fail e => WriteFailed (connection_gone e) | _ => WriteFailed false end])) Hi) as Hw.
  unfold wp in *. destruct (write_with _ _ s) as [o s'] eqn:Hs. simpl in *.
  destruct Hw as (_ & w & _ & -> & Hp & Hn & Hw); [naive_solver|]. intros _.
  pose proof (sinv_written None verdict s _ w o Hi Hc eq_refl Hw) as Hi'.
  destruct o as [[]|e| | |]; try done.
  - exists (KLock Idle :: KHeld flag None :: toks). split; [by apply sinv_resolve_locked|].
    eexists. split; [done|]. by apply safe_ret.
  - destruct (connection_gone e).
    + exists (KLock Idle :: KHeld flag None :: toks). split; [by apply sinv_resolve_locked|]. eauto.
    + exists (KLock Idle :: KHeld flag (Some p) :: toks). split; [done|]. eauto.
  - exists (KLock Idle :: KHeld flag (Some p) :: toks). split; [done|]. eauto.
Qed.

Lemma keeps_incoming_drop flag toks :
  csafe (incoming_drop None None flag) (λ o x, o = Ret tt ∧ x = toks) (KHeld flag None :: toks).
Proof. apply always_unit, always_incoming_drop. Qed.

(** What a held request's owner has when the verdict is done. *)
Definition verdict_done {A} (toks : list token) (o : outcome (Error IoE) A) (x : list token) : Prop :=
  match o with Panicked => False | _ => x = toks end.

Lemma safe_split_reject i toks :
  csafe (split_reject i) (verdict_done toks) (held_by i ++ toks).
Proof.
  unfold split_reject. apply safe_bind. apply safe_act. intros s fr Hb Hi. unfold wp.
  destruct (is_cancelled (si_flag i) s); cbn [fst snd]; intros _.
  - exists (KHeld (si_flag i) None :: toks). split; [by apply sinv_resolve|].
    apply safe_bind, safe_ret. eapply safe_mono; [apply keeps_incoming_drop|]. by intros o x [-> ->].
  - exists (held_by i ++ toks). split; [done|]. apply safe_bind.
    eapply safe_mono; [by apply safe_split_answer|]. intros o x Ho. destruct o; try done. subst.
    eapply safe_mono; [apply keeps_incoming_drop|]. by intros o x [-> ->].
Qed.

Lemma safe_reserve_accepted i toks :
  csafe (act (reserve_accepted i))
    (λ o x, match o with
            | Ret Cancelled => x = KHeld (si_flag i) None :: toks
            | Ret _ => x = held_by i ++ toks
            | _ => False
            end) (held_by i ++ toks).
Proof.
  apply safe_act. intros s fr Hb Hi. unfold wp, reserve_accepted.
  destruct (is_cancelled (si_flag i) s); cbn [fst snd].
  { intros _. exists (KHeld (si_flag i) None :: toks). split; [by apply sinv_resolve|done]. }
  destruct (allocate (sh_channels s)) as [[ch|[]] t] eqn:Ha; cbn [fst snd].
  2: { intros _. by exists (held_by i ++ toks). }
  destruct (insert_accepted ch (po_remote (si_pending i)) (po_credit (si_pending i)) t) as [t'|] eqn:Hin; cbn [fst snd].
  - intros Hb'. exists (held_by i ++ toks). split; [|done].
    unfold bounded, note in Hb'. cbn [sh_log put_log put_channels] in Hb'. rewrite <- app_assoc in Hb'.
    unfold allocs in Hb'. rewrite omap_app, len_app in Hb'. change (len _ + len _) with
      (allocs (sh_log s) + 1) in Hb'.
    destruct (channels_accept start _ _ _ _ _ _ (si_pending i) (i_channels _ _ _ _ _ _ Hi) Ha) as (t'' & He & Hc);
      [lia|done|]. assert (t'' = t') as -> by congruence.
    unfold note. cbn [sh_log put_log put_channels]. rewrite <- app_assoc. cbn [app].
    assert (sinv (put_log (sh_log s ++ [Allocated ch; Accepted ch (si_pending i)]) (put_channels t' s))
      ((held_by i ++ toks) ++ fr)) as Hs'; [|by destruct s].
    apply (sinv_table s t' _ ((held_by i ++ toks) ++ fr)); [done|done|done|by repeat constructor].
  - intros _. exfalso. unfold allocate in Ha.
    destruct (position_none (t_slots (sh_channels s))) as [j|] eqn:Hp; [|done].
    injection Ha as <- <-. apply position_none_some in Hp.
    unfold insert_accepted, fill in Hin. simpl in Hin. by rewrite Hp in Hin.
Qed.

Lemma safe_split_accept i toks : csafe (split_accept i) (verdict_done toks) (held_by i ++ toks).
Proof.
  unfold split_accept. apply safe_bind. eapply safe_mono; [apply safe_reserve_accepted|].
  intros o x Ho. destruct o as [[| |ch]| | | |]; try done; subst.
  - apply safe_bind. eapply safe_mono; [apply keeps_incoming_drop|]. intros o x [-> ->]. by apply safe_done.
  - apply safe_bind. eapply safe_mono; [by apply safe_split_answer|]. intros o x Ho.
    destruct o; try done. subst. apply safe_bind. eapply safe_mono; [apply keeps_incoming_drop|].
    intros o x [-> ->]. by apply safe_done.
  - apply safe_bind, safe_load. intros s fr _. apply safe_bind.
    eapply safe_mono; [by apply safe_split_answer|]. intros o x Ho.
    destruct o; try done. subst. apply safe_bind. eapply safe_mono; [apply keeps_incoming_drop|].
    intros o x [-> ->]. by apply safe_ret.
Qed.

Lemma safe_split_drop i toks : csafe (split_drop i) (verdict_done toks) (held_by i ++ toks).
Proof.
  eapply safe_mono; [apply (always_incoming_drop (Some (si_pending i)))|]. by intros o x [[[] ->] ->].
Qed.

(** ** Listening *)

Lemma keeps_listen_incoming toks : keeps toks listen_incoming.
Proof. by apply keeps_flag. Qed.

Lemma keeps_listener_drop toks : keeps toks listener_drop.
Proof. by apply keeps_flag. Qed.

Lemma returns_take_incoming toks : returns (λ o, from_option held_by [] o) toks (act take_incoming).
Proof. apply returns_take_incoming_past. Qed.

Lemma returns_listener_accept fuel l toks : returns held_by toks (listener_accept fuel l).
Proof.
  revert l. induction fuel as [|fuel IH]; intros l; [apply returns_no_fuel|]. cbn [listener_accept].
  apply keeps_bind; [eauto with safe|]. intros d. apply keeps_bind; [eauto with safe|]. intros _.
  eapply returns_bind; [apply returns_take_incoming|]. intros [i|].
  - by apply safe_ret.
  - apply keeps_bind; [eauto with safe|]. intros _. destruct l as [seen|].
    + apply keeps_bind; [eauto with safe|]. intros _. apply IH.
    + apply keeps_bind; [eauto with safe|]. intros seen. apply IH.
Qed.

(** ** Receiving *)

Lemma safe_queue_or_refuse fuel p toks :
  csafe (queue_or_refuse fuel p) (verdict_done toks) (KPending p :: toks).
Proof.
  unfold queue_or_refuse. apply safe_bind. apply safe_act. intros s fr Hb Hi. unfold wp.
  destruct (_ <=? _); cbn [fst snd]; intros _.
  - exists (KPending p :: toks). split; [done|]. apply safe_bind.
    eapply safe_mono; [apply returns_stage_incoming|]. intros o x Ho. destruct o as [i| | | |]; try done.
    destruct Ho as [_ ->]. apply safe_split_reject.
  - exists toks. split.
    + assert (sinv (put_next_flag (sh_next_flag s) (put_cancelled (sh_cancelled s) (put_staged (sh_staged s)
        (put_incoming (push_back p (sh_incoming s)) s)))) (toks ++ fr)) as Hs; [|by destruct s].
      eapply sinv_requests_0; [exact Hi|done| |].
      * intros t n log Hc. by apply channels_other in Hc.
      * apply requests_queue, Hi.
    + eapply safe_mono; [apply keeps_notify_incoming|]. intros o x Ho. by destruct o.
Qed.

Lemma keeps_withdraw_open remote toks : keeps toks (withdraw_open remote).
Proof.
  unfold withdraw_open. apply keeps_bind.
  - apply keeps_act. intros s all Hb Hi. unfold wp.
    destruct (close_remote remote (sh_channels s)) as [o t] eqn:Hc.
    apply close_remote_spec in Hc as [[-> ->]|(idx & sl & -> & _ & Hi' & _ & ->)]; cbn [fst snd];
      intros _; (split; [done|]).
    + set (gone := filter (λ p, po_remote p = remote) (sh_incoming s)).
      set (cn := sh_cancelled s ++ (filter (λ x, x.1 = remote) (sh_staged s)).*2).
      assert (sinv (put_log (sh_log s ++ (Resolved <$> gone)) (put_next_flag (sh_next_flag s)
        (put_cancelled cn (put_staged (sh_staged s) (put_incoming (withdraw remote (sh_incoming s)) s))))) all)
        as Hs; [|by destruct s].
      eapply sinv_requests; [exact Hi|done|done|apply requests_withdraw, Hi|].
      apply Forall_fmap. apply Forall_forall. done.
    + apply (sinv_channels _ _ all); [done|done|].
      eapply channels_put; [apply Hi|done|done|done|done|]. intros []. by split.
  - intros [idx|]; [|eauto with safe]. apply keeps_act. intros s all Hb Hi. unfold wp. simpl.
    intros _. split; [done|]. destruct (sh_signals s !! idx); [by apply sinv_wake|done].
Qed.

Lemma sinv_reader s w all : sinv s all → sinv (put_reader w s) all.
Proof. by intros []. Qed.

Lemma keeps_on_reader {A} (m : prog (wire T) (Error IoE) A) toks :
  (∀ w, fst (m w) ≠ Panicked) → keeps toks (act (on_reader m)).
Proof.
  intros Hm. apply keeps_act. intros s all Hb Hi. unfold on_reader. apply wp_zoom. unfold wp.
  intros _. split; [apply Hm|]. by apply sinv_reader.
Qed.

Lemma await_no_panic {A} (c : T → io IoE A * T) w : fst (await (IoE := IoE) c w) ≠ Panicked.
Proof. unfold await. by destruct (c (w_transport w)) as [[] ?]. Qed.

Lemma keeps_read_step race room toks : keeps toks (read_step race room).
Proof.
  split; [|split; [|by right]].
  - apply keeps_bind; [|intros _; by apply safe_done]. apply keeps_modify. intros. by apply sinv_reader.
  - intros [|n] s fr Hb Hi.
    + destruct (race && interrupted s); [|done]. intros _. exists toks. split; [by apply sinv_reader|done].
    + unfold on_reader, zoom. pose proof (await_no_panic (t_read room) (sh_reader s)) as Hp.
      destruct (await (t_read room) (sh_reader s)) as [o w]. intros _. exists toks.
      split; [by apply sinv_reader|]. by destruct o.
Qed.

Lemma keeps_decode mp toks : keeps toks (act (on_reader (decode_buf mp))).
Proof.
  apply keeps_on_reader. intros w. unfold decode_buf. by destruct (decode (w_recv_buf w) mp) as [[] ?].
Qed.
Hint Resolve keeps_decode keeps_read_step : safe.

Lemma keeps_read_rounds fuel mp race spare toks : keeps toks (read_rounds fuel mp race spare).
Proof.
  revert spare. induction fuel as [|fuel IH]; intros spare; [apply returns_no_fuel|].
  cbn [read_rounds]. apply keeps_bind; [eauto with safe|]. intros buf.
  apply keeps_bind; [eauto with safe|]. intros [[|b0 b]|]; [eauto with safe| |eauto with safe].
  apply keeps_bind; [by apply keeps_on_reader|]. intros _. apply keeps_if; [apply IH|].
  apply keeps_bind; [eauto with safe|]. intros [pkt|]; [eauto with safe|apply IH].
Qed.

Lemma keeps_recv_or_interrupted fuel race toks : keeps toks (recv_or_interrupted fuel race).
Proof.
  unfold recv_or_interrupted. apply keeps_bind; [eauto with safe|]. intros mp.
  apply keeps_bind; [eauto with safe|]. intros [pkt|]; [eauto with safe|].
  apply keeps_bind; [eauto with safe|]. intros [|]; [eauto with safe|].
  apply keeps_bind; [eauto with safe|]. intros buf. apply keeps_read_rounds.
Qed.
Hint Resolve keeps_recv_or_interrupted : safe.

Lemma keeps_reader_recv fuel toks : keeps toks (reader_recv fuel).
Proof.
  induction fuel as [|fuel IH]; [apply returns_no_fuel|]. cbn [reader_recv].
  apply keeps_bind; [eauto with safe|]. intros _. apply keeps_bind; [eauto with safe|]. intros _.
  apply keeps_bind; [eauto with safe|]. intros [[pkt|]|e]; [eauto with safe|exact IH|].
  eauto with safe.
Qed.
Hint Resolve keeps_reader_recv keeps_withdraw_open : safe.

(** A packet dispatched; a request of the device comes into its hands. *)
Lemma safe_dispatch pkt toks :
  csafe (act (state (λ s : shared, let '(out, t) := dispatch pkt (sh_channels s) in
                         (out, note (Received pkt out) (put_channels t s)))))
    (λ o x, match o with
            | Ret out => (∀ i, routed out = Some i → (i < width)%nat) ∧
                x = match out with
                    | DispatchOutcome.IncomingOpen r c d => KPending (mkPending r c d) :: toks
                    | _ => toks
                    end
            | _ => False
            end) toks.
Proof.
  apply safe_act. intros s fr Hb Hi. apply wp_state.
  destruct (dispatch pkt (sh_channels s)) as [out t] eqn:Hd. cbn [fst snd]. intros _.
  destruct (channels_dispatch start _ _ _ _ _ _ _ (i_channels _ _ _ _ _ _ Hi) Hd) as [Hc Hr].
  assert (∀ i, routed out = Some i → (i < width)%nat) as Hw
    by (intros i Hri; rewrite <- (i_width _ _ _ _ _ _ Hi); by apply Hr).
  eexists. split; [|split; [exact Hw|reflexivity]].
  destruct Hi as [K0 K1 K2 K3 K4 K5]. destruct (request_of (Received pkt out)) as [p|] eqn:Hreq.
  - destruct out; try done. split; try done.
    + apply debts_note; [done..|]. by apply debts_other; [left|].
    + by apply wire_note.
    + by apply channels_other.
    + by apply requests_arrive.
  - assert (match out with
            | DispatchOutcome.IncomingOpen r c d => KPending (mkPending r c d) :: toks
            | _ => toks
            end = toks) as -> by (by destruct out).
    split; try done; [by apply debts_note|by apply wire_note|by apply requests_note].
Qed.

Lemma keeps_reader_act_on fuel pkt on_fault toks : keeps toks (reader_act_on fuel pkt on_fault).
Proof.
  unfold reader_act_on. apply safe_bind. eapply safe_mono; [apply safe_dispatch|].
  intros o x Ho. destruct o as [out| | | |]; try done. destruct Ho as [Hw ->].
  destruct out; try (by apply keeps_wake_at, Hw).
  - apply keeps_bind; [by apply keeps_wake_at, Hw|]. eauto with safe.
  - eapply safe_mono; [apply safe_queue_or_refuse|]. intros o x Ho. by destruct o.
  - apply keeps_withdraw_open.
  - apply keeps_bind; [eauto with safe|]. eauto with safe.
  - apply keeps_bind; [eauto with safe|]. intros _. destruct on_fault; [apply returns_fail|apply keeps_ret].
  - apply keeps_ret.
Qed.

Lemma keeps_reader_dispatch fuel pkt on_fault toks : keeps toks (reader_dispatch fuel pkt on_fault).
Proof.
  unfold reader_dispatch. apply keeps_bind; [apply keeps_attempt, keeps_reader_act_on|].
  intros [|e]; eauto with safe.
Qed.
Hint Resolve keeps_reader_dispatch : safe.

Lemma keeps_refuse_all fuel cap toks : keeps toks (refuse_all fuel cap).
Proof.
  induction fuel as [|fuel IH]; [apply returns_no_fuel|]. cbn [refuse_all].
  eapply returns_bind; [apply returns_take_incoming_past|]. intros [i|]; [|apply keeps_ret].
  apply safe_bind, safe_attempt. eapply safe_mono; [apply safe_split_reject|].
  intros o x Ho. destruct o as [[]|e| | |]; simpl in Ho; subst; try done.
  destruct (connection_gone e); [exact IH|by apply safe_done].
Qed.
Hint Resolve keeps_refuse_all : safe.

Lemma keeps_drain_overflow fuel toks : keeps toks (drain_overflow fuel).
Proof. unfold drain_overflow. eauto with safe. Qed.
Hint Resolve keeps_drain_overflow : safe.

Lemma keeps_take_ready ch pkt toks :
  command pkt = Command.Ready → arg1 pkt = ch_local ch → keeps toks (act (take_ready ch pkt)).
Proof.
  intros Hc Ha. apply keeps_act. intros s all Hb Hi. unfold wp, take_ready.
  set (ev := Received pkt _). cbn [sh_channels note put_log].
  assert (∀ t, channels_inv start t (length (sh_signals s)) (sh_log s ++ [ev]) all →
    sinv (put_channels t (note ev s)) all) as Hs.
  { intros t Ht. assert (sinv (put_log (sh_log s ++ [ev]) (put_channels t s)) all) as Hr; [|by destruct s].
    apply (sinv_table _ _ _ all); [done|done|done|by repeat constructor]. }
  assert (sinv (note ev s) all) as Hn.
  { pose proof (Hs (sh_channels s)) as Hsame. destruct s. apply Hsame. apply channels_received, Hi. }
  destruct (table_get ch (sh_channels s)) as [sl|] eqn:Hg; [|done].
  destruct (accept_open_ready (arg0 pkt) (data pkt) sl) as [sl'|e] eqn:Hacc; [|done].
  cbn [fst snd]. intros _. split; [done|]. apply Hs.
  eapply channels_ready; [apply Hi|done..].
Qed.

Lemma keeps_reader_await_loop fuel ch toks : keeps toks (reader_await_loop fuel ch).
Proof.
  induction fuel as [|fuel IH]; [apply returns_no_fuel|]. cbn [reader_await_loop].
  apply keeps_bind; [eauto with safe|]. intros pkt.
  destruct (bool_decide (command pkt = Command.Ready) && (arg1 pkt =? ch_local ch)) eqn:Hr.
  - bool_facts. apply keeps_bind; [by apply keeps_take_ready|]. intros [u|e]; [eauto with safe|].
    apply keeps_bind; [eauto with safe|]. eauto with safe.
  - apply keeps_if; [eauto with safe|]. apply keeps_bind; [eauto with safe|]. intros _. exact IH.
Qed.

Lemma keeps_reader_open_channel fuel dest toks : keeps toks (reader_open_channel fuel dest).
Proof.
  unfold reader_open_channel. apply keeps_bind; [eauto with safe|]. intros _. apply keeps_open_with.
  intros ch x _. apply keeps_bind; [eauto with safe|]. intros _. apply keeps_reader_await_loop.
Qed.

Lemma keeps_run_loop fuel toks : keeps toks (run_loop fuel).
Proof.
  induction fuel as [|fuel IH]; [apply returns_no_fuel|]. cbn [run_loop].
  apply keeps_bind; [eauto with safe|]. intros n. apply keeps_bind; [eauto with safe|]. intros _.
  apply keeps_bind; [eauto with safe|]. intros pkt. apply keeps_bind; [eauto with safe|]. intros _. exact IH.
Qed.

Lemma always_stop toks : always toks toks stop.
Proof.
  assert (∀ f : shared → shared, (∀ s all, sinv s all → sinv (f s) all) → always toks toks (act (modify f))) as Hm.
  { intros f Hf. apply always_modify. intros s fr _. apply Hf. }
  unfold stop. eapply always_bind; [apply safe_load; eauto|]. intros st. eapply always_bind.
  - destruct st; [apply always_ret|]. eapply always_bind; [apply safe_load; eauto|]. intros d.
    apply Hm. by intros s all [].
  - intros _. eapply always_bind; [apply Hm; by intros s all []|]. intros _. apply Hm.
    intros s all Hi. unfold wake_all.
    assert (sinv (put_signals (S <$> sh_signals s) s) all) as [] by (by apply sinv_signals; [apply length_fmap|]).
    done.
Qed.

Lemma keeps_reader_run fuel toks : keeps toks (reader_run fuel).
Proof.
  unfold reader_run. apply keeps_finally.
  - apply keeps_bind; [eauto with safe|]. intros _. apply keeps_run_loop.
  - intros o _. apply always_unit, always_stop.
Qed.

Lemma keeps_dispatch_one fuel toks : keeps toks (dispatch_one fuel).
Proof. unfold dispatch_one. eauto 8 with safe. Qed.

Lemma keeps_reader_read_loop fuel ch want toks : keeps toks (reader_read_loop fuel ch want).
Proof.
  induction fuel as [|fuel IH]; [apply returns_no_fuel|]. cbn [reader_read_loop].
  apply keeps_bind; [eauto with safe|]. intros pkt. apply keeps_bind; [eauto with safe|]. intros d.
  apply keeps_bind; [eauto with safe|]. intros [[b|]|e]; [eauto with safe|..];
    (destruct d as [u|e']; [|eauto with safe]); eauto with safe.
Qed.

Lemma keeps_reader_read_channel fuel ch want toks : keeps toks (reader_read_channel fuel ch want).
Proof.
  unfold reader_read_channel. apply keeps_bind; [eauto with safe|]. intros r.
  apply keeps_bind; [eauto with safe|]. intros [b|]; [eauto with safe|].
  apply keeps_bind; [eauto with safe|]. intros ids. apply keeps_bind; [eauto with safe|]. intros _.
  apply keeps_reader_read_loop.
Qed.

Lemma returns_reader_accept_loop fuel toks : returns held_by toks (reader_accept_loop fuel).
Proof.
  induction fuel as [|fuel IH]; [apply returns_no_fuel|]. cbn [reader_accept_loop].
  eapply returns_bind; [apply returns_take_incoming|]. intros [i|]; [by apply safe_ret|].
  apply keeps_bind; [eauto with safe|]. intros pkt. apply keeps_bind; [eauto with safe|]. intros _. exact IH.
Qed.

Lemma returns_reader_accept_incoming fuel toks : returns held_by toks (reader_accept_incoming fuel).
Proof.
  unfold reader_accept_incoming. apply keeps_bind; [eauto with safe|]. intros _.
  apply keeps_bind; [eauto with safe|]. intros _. apply returns_reader_accept_loop.
Qed.
End Safe.
