(* ===== verification/SplitSystem.v ===== *)
(** * A split connection in use

    [system] is a split connection with the calls under way on it and the
    requests of the device in its clients' hands.  Clients start calls, calls
    move and are dropped in any order, and a call that has ended is collected.
    The theorems hold in every state so reached. *)

From stdpp Require Import relations.
From S2P Require Import Prelude Errors Protocol Banner Config SendQueue Slot ChannelTable Wire.
From S2P Require Import Connection Task Split SplitCalls SplitInv SplitSteps SplitParts SplitSafe.

(** The calls of the [Writer], a listener, a held request and the [Reader]. *)
Inductive request : Type :=
| WOpen (destination : bytes)
| WRead (ch : ChannelId) (want : Z)
| WSelect (ch : ChannelId) (want : Z)
| WWrite (ch : ChannelId) (data : bytes)
| WClose (ch : ChannelId)
| WListen
| LAccept
| LDrop
| IAccept (i : SplitIncoming)
| IReject (i : SplitIncoming)
| IDrop (i : SplitIncoming)
| ROpen (destination : bytes)
| RRead (ch : ChannelId) (want : Z)
| RAccept
| RTryAccept
| RDispatchOne
| RRun
| RClose (ch : ChannelId)
| RDrop.

Inductive reply : Type :=
| ReplyUnit
| ReplyChannel (ch : ChannelId)
| ReplyBytes (b : bytes)
| ReplyInterrupted
| ReplyIncoming (i : SplitIncoming).

Section System.
Context {T IoE : Type} `{Transport T IoE}.

Abbreviation shared := (Shared T).
Abbreviation call := (task shared (Error IoE)).

Definition mapped {A} (f : A → reply) (t : call A) : call reply := t ≫= λ a, mret (f a).

Definition start_call (fuel : nat) (r : request) : call reply :=
  match r with
  | WOpen d => mapped ReplyChannel (writer_open_channel fuel d)
  | WRead ch n => mapped ReplyBytes (writer_read_channel fuel ch n)
  | WSelect ch n =>
      mapped (λ r, match r with SData b => ReplyBytes b | SInterrupted _ => ReplyInterrupted end)
        (writer_select_channel (I := unit) fuel (λ _, Some tt) ch n)
  | WWrite ch d => mapped (λ _, ReplyUnit) (writer_write_channel fuel ch d)
  | WClose ch | RClose ch => mapped (λ _, ReplyUnit) (close_channel_via fuel ch)
  | WListen => mapped (λ _, ReplyUnit) listen_incoming
  | LAccept => mapped ReplyIncoming (listener_accept fuel None)
  | LDrop => mapped (λ _, ReplyUnit) listener_drop
  | IAccept i => mapped ReplyChannel (split_accept i)
  | IReject i => mapped (λ _, ReplyUnit) (split_reject i)
  | IDrop i => mapped (λ _, ReplyUnit) (split_drop i)
  | ROpen d => mapped ReplyChannel (reader_open_channel fuel d)
  | RRead ch n => mapped ReplyBytes (reader_read_channel fuel ch n)
  | RAccept => mapped ReplyIncoming (reader_accept_incoming fuel)
  | RTryAccept =>
      mapped (λ o, match o with Some i => ReplyIncoming i | None => ReplyUnit end) (act take_incoming)
  | RDispatchOne => mapped (λ _, ReplyUnit) (dispatch_one fuel)
  | RRun => mapped (λ n : Empty_set, match n with end) (reader_run fuel)
  | RDrop => mapped (λ _, ReplyUnit) reader_drop
  end.

(** The held request a call uses up, and the one a reply hands over. *)
Definition uses (r : request) : list SplitIncoming :=
  match r with IAccept i | IReject i | IDrop i => [i] | _ => [] end.
Definition hands (o : outcome (Error IoE) reply) : list SplitIncoming :=
  match o with Ret (ReplyIncoming i) => [i] | _ => [] end.

Record system : Type := mkSystem {
  sy_shared : shared;
  sy_calls : list (call reply);
  sy_held : list SplitIncoming;
}.

Inductive system_step : system → system → Prop :=
| sys_start fuel r s ts held held' :
    held ≡ₚ uses r ++ held' →
    system_step (mkSystem s ts held) (mkSystem s (ts ++ [start_call fuel r]) held')
| sys_move s ts s' ts' held :
    moves (ts, s) (ts', s') → system_step (mkSystem s ts held) (mkSystem s' ts' held)
| sys_collect s ts held i o :
    ts !! i = Some (TDone o) →
    system_step (mkSystem s ts held) (mkSystem s (take i ts ++ drop (S i) ts) (hands o ++ held)).

(** The states reached from a split of the connection [c] in executions that
    hand out fewer than [2^32] channel ids. *)
Inductive reached (read_half write_half : T) (c : conn T) : system → Prop :=
| reached_split :
    reached read_half write_half c (mkSystem (shared_new read_half write_half c) [] [])
| reached_step sys sys' :
    reached read_half write_half c sys → system_step sys sys' →
    bounded (t_next_local_id (c_table c)) (sy_shared sys') → reached read_half write_half c sys'.
End System.

(** ** The invariant, reached *)

(** What a connection has before it is split: ids handed out once and in
    order, one policy, and nobody in line to write. *)
Record split_ready {T} (c : conn T) : Prop := {
  sr_next : 0 <= t_next_local_id (c_table c) < 2 ^ 32;
  sr_unique : unique_locals (c_table c);
  sr_slots : ∀ i sl, t_slots (c_table c) !! i = Some (Some sl) →
    sl_local sl < t_next_local_id (c_table c) ∧ sl_policy sl = t_policy (c_table c) ∧
    sl_send_queue sl = queue_default;
}.

Section Reached.
Context {T IoE : Type} `{TransportLaws T IoE}.
Implicit Types c : conn T.

(** What the history says. *)
Lemma history_omap {B} (f : event → option B) k slots :
  (∀ i sl e, e ∈ history_of i (Some sl) → f e = None) → omap f (history k slots) = [].
Proof.
  intros Hf. revert k. induction slots as [|[sl|] slots IH]; intros k; [done| |apply IH].
  cbn [history]. rewrite omap_app, IH, app_nil_r. cbn [history_of omap list_omap].
  rewrite (Hf k sl), (Hf k sl); set_solver.
Qed.

Lemma history_use mode l k slots : total (use_of mode l) (history k slots) = 0.
Proof.
  revert k. induction slots as [|[sl|] slots IH]; intros k; [done| |apply IH].
  cbn [history]. rewrite total_app, IH. done.
Qed.

Lemma history_grant mode l k slots i sl :
  slots !! i = Some (Some sl) → sl_local sl = l → p_ack (sl_policy sl) = mode →
  avail sl <= total (grant_of mode l) (history k slots) + head_start mode.
Proof.
  revert k i. induction slots as [|o slots IH]; intros k [|i] Hi Hl Hm; [done..| |].
  - simpl in Hi. injection Hi as ->. cbn [history]. rewrite total_app.
    pose proof (total_nonneg _ (history (S k) slots) (grant_nonneg mode l)). unfold avail. rewrite Hm.
    cbn [history_of total grant_of ch_local po_credit]. rewrite (proj2 (Z.eqb_eq _ _) Hl).
    destruct mode; simpl; [destruct (sl_wrte_acked sl)|]; lia.
  - cbn [history]. rewrite total_app. pose proof (IH (S k) i Hi Hl Hm).
    pose proof (total_nonneg _ (history_of k o) (grant_nonneg mode l)). lia.
Qed.

Lemma history_none ch k slots :
  (∀ i sl, slots !! i = Some (Some sl) → mkChannelId (k + i) (sl_local sl) ≠ ch) →
  concat (omap (buffered_of ch) (history k slots)) = [].
Proof.
  revert k. induction slots as [|o slots IH]; intros k Hn; [done|]. cbn [history].
  rewrite omap_app, concat_app, IH, app_nil_r.
  - destruct o as [sl|]; [|done]. simpl. rewrite decide_False; [done|].
    pose proof (Hn 0%nat sl eq_refl) as Hne. by rewrite Nat.add_0_r in Hne.
  - intros i sl Hi. pose proof (Hn (S i) sl Hi) as Hne. by rewrite Nat.add_succ_r in Hne.
Qed.

Lemma history_buffered k slots i sl :
  slots !! i = Some (Some sl) →
  concat (omap (buffered_of (mkChannelId (k + i) (sl_local sl))) (history k slots)) = sl_rx_buf sl.
Proof.
  revert k i. induction slots as [|o slots IH]; intros k [|i] Hi; [done..| |]; cbn [history];
    rewrite omap_app, concat_app.
  - simpl in Hi. injection Hi as ->. rewrite history_none; [|intros j sl' _ [= ? _]; lia].
    simpl. rewrite decide_True by (by rewrite Nat.add_0_r). simpl. by rewrite !app_nil_r.
  - rewrite Nat.add_succ_r, <- Nat.add_succ_l, (IH (S k) i Hi).
    destruct o as [sl'|]; [|done]. simpl. rewrite decide_False; [done|]. intros [= ? _]. lia.
Qed.

(** The invariant holds at the split. *)
Lemma split_inv c rh wh :
  split_ready c →
  sinv (t_next_local_id (c_table c)) (length (t_slots (c_table c))) (c_incoming c) (outgoing wh)
    (shared_new rh wh c) [].
Proof.
  intros [Hn Hu Hs]. set (slots := t_slots (c_table c)) in *.
  assert (∀ ch i sl, slots !! i = Some (Some sl) → t_next_local_id (c_table c) <= ch_local ch →
    mkChannelId (0 + i) (sl_local sl) ≠ ch) as Hfresh.
  { intros ch i sl Hi Hl <-. apply Hs in Hi as (? & _). simpl in Hl. lia. }
  split; cbn [shared_new sh_signals sh_locked sh_owed sh_log sh_wire sh_negotiated sh_channels
    sh_incoming sh_staged sh_next_flag].
  - apply length_replicate.
  - done.
  - right. unfold debts, payments. rewrite !history_omap by (intros ? ? ?; set_solver).
    split_and!; [by intros ? ?%not_elem_of_nil..|done].
  - intros _ _. rewrite history_omap by (intros ? ? ?; set_solver). by rewrite app_nil_r.
  - split; fold slots.
    + apply length_replicate.
    + unfold allocs. rewrite history_omap by (intros ? ? ?; set_solver). rewrite (@len_nil ChannelId). lia.
    + done.
    + intros i sl Hi. by apply Hs in Hi as (? & _).
    + intros i sl Hi. destruct (Hs i sl Hi) as (_ & Hp & Hq). split; [done|..].
      * exists []. rewrite Hq. split; [apply refines_default|done].
      * by rewrite Hq.
      * cbn [account_of a_used a_reserved a_granted]. rewrite history_use. simpl total at 1.
        pose proof (history_grant (p_ack (t_policy (c_table c))) (sl_local sl) 0 slots i sl Hi eq_refl).
        rewrite Hp in *. simpl. specialize (H1 eq_refl). lia.
      * cbn [account_of a_taken a_buffered]. rewrite history_omap by (intros ? ? ?; set_solver).
        pose proof (history_buffered 0 slots i sl Hi) as Hb. symmetry. exact Hb.
    + intros ch. cbn [account_of a_used a_reserved a_granted]. rewrite history_use.
      pose proof (total_nonneg _ (history 0 slots) (grant_nonneg (p_ack (t_policy (c_table c))) (ch_local ch))).
      simpl total at 1. destruct (p_ack _); simpl in *; lia.
    + intros ch Hl. cbn [account_of a_senders a_places a_used a_reserved a_taken a_buffered].
      rewrite history_use, history_none by eauto. rewrite history_omap by (intros ? ? ?; set_solver).
      done.
  - split; rewrite ?history_omap by (intros ? ? ?; set_solver).
    + by rewrite !app_nil_r.
    + done.
    + split; [constructor|]. intros f Hf. by apply not_elem_of_nil in Hf.
Qed.

(** ** Every call starts safe *)

(** What a client owns when its call has ended. *)
Definition final (o : outcome (Error IoE) reply) (x : list token) : Prop :=
  match o with
  | Panicked => False
  | _ => x = concat (held_by <$> hands o)
  end.

Section Calls.
Context (start : Z) (Hstart : 0 <= start) (width : nat) (inc0 : list PendingOpen) (out0 : bytes).
Abbreviation sinv := (sinv (T := T) start width inc0 out0).
Abbreviation bounded := (bounded (T := T) start).
Abbreviation anywhere := (λ (_ : Shared T) (_ _ : list token), True).
Abbreviation csafe := (safe (E := Error IoE) sinv bounded anywhere).

Lemma mapped_returns {A} (f : A → reply) (own : A → list token) (t : task (Shared T) (Error IoE) A) :
  returns start width inc0 out0 own [] t → (∀ a, own a = concat (held_by <$> hands (IoE := IoE) (Ret (f a)))) →
  csafe (mapped f t) final [].
Proof.
  intros Ht Hf. apply safe_bind. eapply safe_mono; [exact Ht|].
  intros o x Ho. destruct o as [a| | | |]; simpl in *; try done. by rewrite Ho, app_nil_r, Hf.
Qed.

Lemma mapped_verdict {A} (f : A → reply) i (t : task (Shared T) (Error IoE) A) :
  csafe t (verdict_done []) (held_by i ++ []) → (∀ a, hands (IoE := IoE) (Ret (f a)) = []) →
  csafe (mapped f t) final (concat (held_by <$> [i])).
Proof.
  intros Ht Hf. apply safe_bind. eapply safe_mono; [exact Ht|].
  intros o x Ho. destruct o as [a| | | |]; simpl in *; try done. specialize (Hf a).
  destruct (f a); by subst.
Qed.

Lemma safe_start_call fuel r : csafe (start_call fuel r) final (concat (held_by <$> uses r)).
Proof.
  pose proof Hstart. pose proof (λ A f t, @mapped_returns A f (λ _, []) t) as Hk.
  destruct r; cbn [start_call uses]; try (apply mapped_verdict; [|done]).
  - apply Hk; [by apply keeps_writer_open_channel|done].
  - apply Hk; [by apply keeps_writer_read_channel|done].
  - apply Hk; [by apply keeps_writer_select_channel|by intros []].
  - apply Hk; [by apply keeps_writer_write_channel|done].
  - apply Hk; [by apply keeps_close_channel_via|done].
  - apply Hk; [by apply keeps_listen_incoming|done].
  - eapply mapped_returns; [by apply returns_listener_accept|done].
  - apply Hk; [by apply keeps_listener_drop|done].
  - by apply safe_split_accept.
  - by apply safe_split_reject.
  - by apply safe_split_drop.
  - apply Hk; [by apply keeps_reader_open_channel|done].
  - apply Hk; [by apply keeps_reader_read_channel|done].
  - eapply mapped_returns; [by apply returns_reader_accept_incoming|done].
  - eapply mapped_returns; [by apply returns_take_incoming|by intros []].
  - apply Hk; [by apply keeps_dispatch_one|done].
  - apply Hk; [by apply keeps_reader_run|by intros []].
  - apply Hk; [by apply keeps_close_channel_via|done].
  - apply Hk; [by apply always_keeps, always_stop|done].
Qed.

Lemma pool_perm ts s (held held' : list SplitIncoming) :
  held ≡ₚ held' → pool_ok sinv bounded anywhere final (concat (held_by <$> held)) (ts, s) →
  pool_ok sinv bounded anywhere final (concat (held_by <$> held')) (ts, s).
Proof.
  intros Hp (tokss & Hf & Hi). exists tokss. split; [done|].
  eapply sinv_perm; [done| |exact Hi]. by rewrite Hp.
Qed.
End Calls.

(** In every state reached the calls are safe, and own together what the
    invariant accounts for. *)
Lemma reached_pool c rh wh sys :
  split_ready c → reached rh wh c sys →
  let start := t_next_local_id (c_table c) in
  let Inv := sinv start (length (t_slots (c_table c))) (c_incoming c) (outgoing wh) in
  bounded start (sy_shared sys) ∧
  pool_ok Inv (bounded start) (λ _ _ _, True) final
    (concat (held_by <$> sy_held sys)) (sy_calls sys, sy_shared sys).
Proof.
  intros Hc Hr start Inv. assert (0 <= start) as Hstart by apply Hc.
  induction Hr as [|sys sys' Hr [Hb IH] Hs Hb']; cbn [sy_shared sy_calls sy_held].
  - split.
    + unfold bounded, allocs. cbn [shared_new sh_log].
      rewrite history_omap by (intros ? ? ?; set_solver). rewrite (@len_nil ChannelId).
      destruct Hc as [Hn _ _]. fold start in Hn. lia.
    + exists []. split; [constructor|]. simpl. by apply split_inv.
  - split; [done|]. destruct Hs as [fuel r s ts held held' Hp|s ts s' ts' held Hm|s ts held i o Hi];
      cbn [sy_shared sy_calls sy_held] in *.
    + apply (pool_spawn _ _ _ _ _ (concat (held_by <$> uses r))); [by apply safe_start_call|].
      rewrite <- concat_app, <- fmap_app. by eapply pool_perm.
    + by apply (pool_moves _ _ _ _ _ (ts, s)).
    + apply (pool_reap _ (Hperm := ltac:(apply sinv_perm)) _ _ _ _ _ _ i o) in IH as (toks & Ho & Hok); [|done].
      assert (toks = concat (held_by <$> hands o)) as -> by (by destruct o as [[]| | | |]).
      by rewrite fmap_app, concat_app.
Qed.

(** What the invariant says at a state that was reached. *)
Lemma reached_inv c rh wh sys :
  split_ready c → reached rh wh c sys →
  ∃ toks, sinv (t_next_local_id (c_table c)) (length (t_slots (c_table c))) (c_incoming c)
    (outgoing wh) (sy_shared sys) (toks ++ concat (held_by <$> sy_held sys)) ∧
    (sy_calls sys = [] → toks = []).
Proof.
  intros Hc Hr. apply (reached_pool c rh wh sys Hc) in Hr as (_ & tokss & Hf & Hi).
  exists (concat tokss). split; [exact Hi|]. intros Hn. simpl in Hf. rewrite Hn in Hf.
  by apply Forall2_nil_inv_l in Hf as ->.
Qed.

Lemma held_pending (held : list SplitIncoming) :
  omap pending_of (concat (held_by <$> held)) = si_pending <$> held.
Proof. induction held as [|i held IH]; [done|]. simpl. by f_equal. Qed.

Lemma held_flags (held : list SplitIncoming) :
  omap flag_of (concat (held_by <$> held)) = si_flag <$> held.
Proof. induction held as [|i held IH]; [done|]. simpl. by f_equal. Qed.

Lemma held_nothing {B} (f : token → option B) (held : list SplitIncoming) :
  (∀ n p, f (KHeld n p) = None) → omap f (concat (held_by <$> held)) = [].
Proof. intros Hf. induction held as [|i held IH]; [done|]. simpl. by rewrite Hf. Qed.
End Reached.

(** ** Running a system *)

#[global] Instance PendingOpen_eq_dec : EqDecision PendingOpen.
Proof. solve_decision. Defined.
#[global] Instance SplitIncoming_eq_dec : EqDecision SplitIncoming.
Proof. solve_decision. Defined.

Section Play.
Context {T IoE : Type} `{Transport T IoE}.

Inductive command : Type :=
| Start (fuel : nat) (r : request)
| Move (i : nat) (choice : option nat)
| Collect (i : nat).

(** The requests still held once those a call uses are its own. *)
Fixpoint without (i : SplitIncoming) (held : list SplitIncoming) : option (list SplitIncoming) :=
  match held with
  | [] => None
  | j :: held => if decide (i = j) then Some held else cons j <$> without i held
  end.

Definition takes (used held : list SplitIncoming) : option (list SplitIncoming) :=
  match used with
  | [] => Some held
  | i :: _ => without i held
  end.

Lemma without_perm i held held' : without i held = Some held' → held ≡ₚ i :: held'.
Proof.
  revert held'. induction held as [|j held IH]; intros held'; simpl; [done|].
  destruct (decide (i = j)) as [<-|]; [by intros [= <-]|].
  destruct (without i held) as [rest|]; [|done]. intros [= <-]. rewrite (IH rest eq_refl). constructor.
Qed.

Definition play_one (m : command) (sys : @system T IoE) : option (@system T IoE) :=
  match m with
  | Start fuel r =>
      held ← takes (uses r) (sy_held sys);
      Some (mkSystem (sy_shared sys) (sy_calls sys ++ [start_call fuel r]) held)
  | Move i choice =>
      '(ts, s) ← move_with (i, choice) (sy_calls sys, sy_shared sys);
      Some (mkSystem s ts (sy_held sys))
  | Collect i =>
      match sy_calls sys !! i with
      | Some (TDone o) => Some (mkSystem (sy_shared sys)
                            (take i (sy_calls sys) ++ drop (S i) (sy_calls sys))
                            (hands o ++ sy_held sys))
      | _ => None
      end
  end.

Fixpoint play (start : Z) (ms : list command) (sys : @system T IoE) : option (@system T IoE) :=
  match ms with
  | [] => Some sys
  | m :: ms =>
      sys' ← play_one m sys;
      if start + allocs (sh_log (sy_shared sys')) <? 2 ^ 32 then play start ms sys' else None
  end.

Lemma play_one_step m sys sys' : play_one m sys = Some sys' → system_step sys sys'.
Proof.
  destruct sys as [s ts held]. destruct m as [fuel r|i choice|i]; cbn [play_one sy_shared sy_calls sy_held].
  - destruct (takes (uses r) held) as [held'|] eqn:Hh; [|done]. intros [= <-]. constructor.
    destruct (uses r) as [|i [|]] eqn:Hu; simpl in *; [by simplify_eq|by apply without_perm|].
    by destruct r.
  - destruct (move_with _ _) as [[ts' s']|] eqn:Hm; [|done]. intros [= <-]. constructor.
    by apply move_with_moves in Hm.
  - destruct (ts !! i) as [[o|]|] eqn:Hi; [|done..]. intros [= <-]. by constructor.
Qed.

Lemma play_reached rh wh c ms sys sys' :
  reached rh wh c sys → play (t_next_local_id (c_table c)) ms sys = Some sys' → reached rh wh c sys'.
Proof.
  revert sys. induction ms as [|m ms IH]; intros sys Hr; [by intros [= <-]|]. cbn [play].
  destruct (play_one m sys) as [sys1|] eqn:Hp; [|done]. simpl.
  destruct (Z.ltb_spec (t_next_local_id (c_table c) + allocs (sh_log (sy_shared sys1))) (2 ^ 32)); [|done].
  apply IH. eapply reached_step; [exact Hr|by apply play_one_step with m|done].
Qed.
End Play.

(** ** Reads once the connection has ended *)

Section Ended.
Context {T IoE : Type} `{Transport T IoE}.
Implicit Types s : Shared T.

(** What a read of the slot [sl] hands over or fails with. *)
Definition ended_read (s : Shared T) (want : Z) (sl : ChannelSlot) : outcome (Error IoE) bytes :=
  if has_data sl then
    Ret (ztake (Z.min want (if sl_settled sl =? 0 then len (sl_rx_buf sl) else sl_settled sl))
           (sl_rx_buf sl))
  else if negb (in_step s) then Fail Error.Desynchronized
  else if is_closed sl then Fail (closed_error sl) else Fail Error.Disconnected.

Lemma solo_check_live s :
  has_ended s = true →
  solo (E := Error IoE) check_live s
    (Fail (if in_step s then Error.Disconnected else Error.Desynchronized)) s.
Proof.
  unfold has_ended, live. destruct (in_step s) eqn:Hs; intros He.
  - eapply solo_bind with (o := Ret tt).
    + eapply solo_bind; [apply solo_load|]. unfold in_step in Hs. destruct (desync s); [|constructor].
      simpl in Hs. eapply solo_bind; [apply solo_load|]. rewrite Hs. constructor.
    + cbv beta iota. eapply solo_bind; [apply solo_load|]. destruct (sh_stopped s); [constructor|done].
  - eapply solo_bind with (o := Fail Error.Desynchronized); [|done].
    eapply solo_bind; [apply solo_load|]. unfold in_step in Hs. destruct (desync s); [|done].
    simpl in Hs. eapply solo_bind; [apply solo_load|]. rewrite Hs. constructor.
Qed.

Lemma solo_take_buffered fuel ch want sl s :
  has_ended s = true → table_get ch (sh_channels s) = Some sl →
  ∃ s', solo (E := Error IoE) (take_buffered (S fuel) ch want) s
    (if has_data sl || negb (in_step s) || is_closed sl
     then outcome_map Some id (ended_read s want sl) else Ret None) s' ∧
    (has_data sl = false → is_closed sl = false → in_step s = true → sh_channels s' = table_put ch sl (sh_channels s) ∧
      has_ended s' = true ∧ in_step s' = true).
Proof.
  intros He Hg. exists (snd (take_step (IoE := IoE) ch want s)). split.
  - cbn [take_buffered]. eapply solo_bind; [apply solo_act|]. unfold take_step. rewrite Hg, He. simpl.
    unfold ended_read, slot_take_buffered.
    destruct (has_data sl); simpl; [constructor|]. destruct (in_step s); simpl; [|done].
    destruct (is_closed sl); simpl; [done|constructor].
  - intros Hd Hc Hs. unfold take_step. rewrite Hg, He, Hd, Hs. simpl.
    unfold slot_take_buffered. rewrite Hd, Hc. simpl. split; [done|]. split; [|exact Hs]. exact He.
Qed.

Lemma solo_reader_read fuel ch want sl s :
  has_ended s = true → table_get ch (sh_channels s) = Some sl → has_data sl = true →
  ∃ s', solo (reader_read_channel (IoE := IoE) (S fuel) ch want) s (ended_read s want sl) s'.
Proof.
  intros He Hg Hd. destruct (solo_take_buffered fuel ch want sl s He Hg) as (s' & Hs & _). exists s'.
  unfold ended_read in *. rewrite Hd in *. simpl in Hs. unfold reader_read_channel.
  eapply solo_bind with (o := Ret (Ok tt)) (s1 := s).
  - apply (solo_attempt _ _ (Ret tt)). eapply solo_bind.
    + apply solo_attempt, solo_check_live, He.
    + constructor.
  - cbv beta iota. eapply solo_bind; [exact Hs|]. constructor.
Qed.

Lemma solo_writer_read fuel ch want sl s :
  has_ended s = true → table_get ch (sh_channels s) = Some sl → is_Some (sh_signals s !! ch_slot ch) →
  ∃ s', solo (writer_read_channel (IoE := IoE) (S (S fuel)) ch want) s (ended_read s want sl) s'.
Proof.
  intros He Hg [n Hn]. destruct (solo_take_buffered fuel ch want sl s He Hg) as (s' & Hs & Hn').
  exists s'. unfold writer_read_channel, writer_select_channel.
  eapply solo_bind with (o := outcome_map SData id (ended_read s want sl)) (s1 := s').
  - eapply solo_bind with (o := Ret tt) (s1 := s).
    + eapply solo_bind; [apply solo_load|]. cbv beta iota. rewrite Hn. constructor.
    + cbv beta iota. cbn [select_loop]. eapply solo_bind; [exact Hs|]. clear Hs. unfold ended_read.
      destruct (has_data sl); cbn [orb outcome_map]; [constructor|].
      destruct (in_step s) eqn:Hi; cbn [orb negb outcome_map]; [|done].
      destruct (is_closed sl); cbn [outcome_map]; [done|]. destruct Hn' as (_ & He' & Hi'); [done..|].
      eapply solo_bind; [by apply solo_check_live|]. by rewrite Hi'.
  - unfold ended_read. destruct (has_data sl); simpl; [constructor|].
    destruct (in_step s); simpl; [|done]. by destruct (is_closed sl).
Qed.
End Ended.

(** ** The theorems *)

Section Theorems.
Context {T IoE : Type} `{TransportLaws T IoE}.
Context (c : conn T) (rh wh : T) (Hready : split_ready c).
Implicit Types sys : @system T IoE.


(** C5: Acknowledgements and closes owed to the device are paid once each and in
    the order they were incurred, by whichever call next has the write half,
    and none is forgotten: what was owed is what was paid followed by what is
    still owed, unless a write found the device gone.  Only between the write
    of a debt and its removal, while the write half is held, is a debt that is
    paid still first in line. *)
Theorem split_pays_debts sys :
  reached rh wh c sys →
  let s := sy_shared sys in let log := sh_log s in
  Forgiven ∉ log →
  (sh_locked s = false → debts log = payments log ++ sh_owed s) ∧
  (debts log = payments log ++ sh_owed s ∨
   ∃ d rest, sh_owed s = d :: rest ∧ debts log = payments log ++ rest).
Proof.
  intros Hr s log Hn. apply (reached_inv c rh wh sys Hready) in Hr as (toks & Hi & _).
  set (all := toks ++ _) in Hi. destruct (i_debts _ _ _ _ _ _ Hi) as [?|(_ & Hpaid & Hunpaid)]; [done|].
  assert (∀ st, KLock st ∈ all ↔ st ∈ omap lock_of all) as Hk.
  { intros st. rewrite list_elem_of_omap. split; [eauto|]. by intros ([] & ? & [= <-]). }
  pose proof (i_lock _ _ _ _ _ _ Hi) as Hl. unfold lock_inv in Hl.
  destruct (omap lock_of all) as [|[|d|d] [|st more]] eqn:Ho; rewrite ?len_cons, ?(@len_nil paying) in Hl;
    try (destruct (sh_locked _); zlen_facts; lia).
  all: try (assert (debts log = payments log ++ sh_owed s); [|by auto]; apply Hunpaid;
    intros d'; rewrite Hk, ?list_elem_of_singleton; by try apply not_elem_of_nil).
  destruct (Hpaid d) as (rest & Hd & Hp); [by apply Hk, list_elem_of_singleton|].
  split; [|right; by exists d, rest]. intros Hf. subst s. rewrite Hf in Hl. lia.
Qed.


(** C6: However many writers share a channel, and wherever they are dropped, what
    they send on it stays within what the device granted, in bytes with
    delayed acknowledgement and in packets without; and what a channel has
    still to spend is within it too, so that credit given back by a dropped
    writer is never given back twice. *)
Theorem split_credit_within_grant sys :
  reached rh wh c sys →
  let s := sy_shared sys in let mode := p_ack (t_policy (sh_channels s)) in
  (∀ l, total (use_of mode l) (sh_log s) <= total (grant_of mode l) (sh_log s) + head_start mode) ∧
  (∀ i sl, t_slots (sh_channels s) !! i = Some (Some sl) →
    total (use_of mode (sl_local sl)) (sh_log s) + avail sl
    <= total (grant_of mode (sl_local sl)) (sh_log s) + head_start mode).
Proof.
  intros Hr s mode. apply (reached_inv c rh wh sys Hready) in Hr as (toks & Hi & _).
  set (all := toks ++ _) in Hi. pose proof (i_channels _ _ _ _ _ _ Hi) as Hc.
  assert (∀ l, 0 <= total (reserve_of mode l) all) as Hnn
    by (intros l; apply total_nonneg; intros k; apply reserve_nonneg).
  split.
  - intros l. pose proof (ch_limit _ _ _ _ _ Hc (mkChannelId 0 l)) as Hl.
    cbn [account_of a_used a_reserved a_granted ch_local] in Hl. specialize (Hnn l).
    fold s mode in Hl. lia.
  - intros i sl Hsl. pose proof (ck_credit _ _ _ (ch_slots _ _ _ _ _ Hc i sl Hsl)) as Hl.
    cbn [account_of a_used a_reserved a_granted ch_local] in Hl. specialize (Hnn (sl_local sl)).
    fold s mode in Hl. lia.
Qed.

(** C9: Of every live channel, the bytes handed to its readers so far and the bytes
    still buffered are, together and in order, the bytes that arrived on it:
    readers that share a channel, and readers that are dropped, lose and repeat
    nothing. *)
Theorem split_streams_intact sys :
  reached rh wh c sys →
  let s := sy_shared sys in
  ∀ i sl, t_slots (sh_channels s) !! i = Some (Some sl) →
  let ch := mkChannelId i (sl_local sl) in
  concat (omap (taken_of ch) (sh_log s)) ++ sl_rx_buf sl = concat (omap (buffered_of ch) (sh_log s)).
Proof.
  intros Hr s i sl Hsl ch. apply (reached_inv c rh wh sys Hready) in Hr as (toks & Hi & _).
  exact (ck_stream _ _ _ (ch_slots _ _ _ _ _ (i_channels _ _ _ _ _ _ Hi) i sl Hsl)).
Qed.

(** C7: Every request of the device is in exactly one place: queued, in a client's
    hands, inside a call under way, or resolved (answered, withdrawn by the
    device, or lost with it).  A call that ends by any way out keeps none back. *)
Theorem split_requests_kept sys :
  reached rh wh c sys →
  let s := sy_shared sys in
  ∃ inside,
    c_incoming c ++ omap request_of (sh_log s)
    ≡ₚ sh_incoming s ++ inside ++ (si_pending <$> sy_held sys) ++ omap resolved_of (sh_log s) ∧
    (sy_calls sys = [] → inside = []).
Proof.
  intros Hr s. apply (reached_inv c rh wh sys Hready) in Hr as (toks & Hi & Hn).
  exists (omap pending_of toks). split; [|by intros ->%Hn].
  pose proof (rq_requests _ _ _ _ _ _ (i_requests _ _ _ _ _ _ Hi)) as Hp. fold s in Hp.
  rewrite Hp, omap_app, held_pending. solve_Permutation.
Qed.

(** C10: When no call is under way nothing is left behind by those that were, however
    they ended: the write half is free, no channel has a writer in line or
    sending, every debt is paid or recorded, and the requests set aside are
    those in clients' hands. *)
Theorem split_quiescent sys :
  reached rh wh c sys → sy_calls sys = [] →
  let s := sy_shared sys in
  sh_locked s = false ∧
  (∀ i sl, t_slots (sh_channels s) !! i = Some (Some sl) →
    is_empty (sl_send_queue sl) = true ∧ is_sending (sl_send_queue sl) = false) ∧
  (Forgiven ∈ sh_log s ∨ debts (sh_log s) = payments (sh_log s) ++ sh_owed s) ∧
  snd <$> sh_staged s ≡ₚ si_flag <$> sy_held sys.
Proof.
  intros Hr Hcalls s. apply (reached_inv c rh wh sys Hready) in Hr as (toks & Hi & Hn).
  rewrite (Hn Hcalls) in Hi. clear Hn. set (all := [] ++ _) in Hi.
  assert (∀ B (f : token → option B), (∀ n p, f (KHeld n p) = None) → omap f all = []) as Hnone
    by (intros B f Hf; by apply held_nothing).
  pose proof (i_lock _ _ _ _ _ _ Hi) as Hl. unfold lock_inv in Hl. rewrite Hnone in Hl by done.
  split; [by destruct (sh_locked _)|]. split; [|split].
  - intros i sl Hsl. destruct (ch_slots _ _ _ _ _ (i_channels _ _ _ _ _ _ Hi) i sl Hsl)
      as [_ (ws & Hq & Hp) Hs _ _].
    cbn [account_of a_places a_senders] in Hp, Hs. rewrite Hnone in Hp, Hs by done.
    apply Permutation_nil_r in Hp as ->. split; [by apply Z.eqb_eq, refines_nil|].
    unfold is_sending. by rewrite Hs.
  - destruct (i_debts _ _ _ _ _ _ Hi) as [?|(_ & _ & Hd)]; [by left|right]. apply Hd.
    intros d Hin. assert (Paid d ∈ omap lock_of all) as Ho by (apply list_elem_of_omap; eauto).
    rewrite Hnone in Ho by done. by apply not_elem_of_nil in Ho.
  - rewrite <- held_flags. exact (rq_flags _ _ _ _ _ _ (i_requests _ _ _ _ _ _ Hi)).
Qed.

End Theorems.

(** ** A sample run

    One open channel and a free slot; the device sends bytes on the channel and
    asks for a channel of its own. *)
Definition split_policy : RxPolicy := mkPolicy AckMode.Classic 65536 1024.

Definition sample_split : conn Script.script :=
  mkConn (mkWire (Script.mkScript [] [] []) [] false)
    (mkTable [Some (slot_accepted (mkIds 1 8) 0 split_policy); None] 2 split_policy)
    (mkNegotiated 4096 ADB_VERSION config_embedded false (mkBanner [] (0, 0) (0, 0) [] [])) [].

Definition sample_reads : Script.script :=
  Script.mkScript
    (frames Checksum.Skip [mkPacket Command.Write 8 1 (bs "hello");
                           mkPacket Command.Open 9 0 (bs "tcp:1")]) [] [].
Definition sample_writes : Script.script := Script.mkScript [] [] [].

Definition sample_initial : @system Script.script Script.error :=
  mkSystem (shared_new sample_reads sample_writes sample_split) [] [].

Definition moved (i n : nat) : list command := replicate n (Move i (Some 2%nat)).

(** A writer holds the write half and has just paid the acknowledgement the
    reader owes for the bytes it received. *)
Definition sample_busy : list command :=
  [Start 50 (WWrite (mkChannelId 0 1) (bs "abc"))] ++ moved 0 8 ++
  [Start 50 RDispatchOne] ++ moved 1 20 ++ moved 0 2.

(** Both go on to their ends, the request is received and handed to a client,
    and a second writer, with no credit left to it, is dropped as it waits. *)
Definition sample_calm : list command :=
  sample_busy ++ moved 0 6 ++ moved 1 3 ++ [Collect 1; Collect 0] ++
  [Start 50 RDispatchOne] ++ moved 0 14 ++ [Collect 0] ++
  [Start 50 LAccept] ++ moved 0 2 ++ [Collect 0] ++
  [Start 50 (WWrite (mkChannelId 0 1) (bs "d"))] ++ moved 0 8 ++ [Move 0 None] ++ moved 0 2 ++
  [Collect 0].

Definition after (ms : list command) : @system Script.script Script.error :=
  default sample_initial (play 2 ms sample_initial).

Lemma sample_ready : split_ready sample_split.
Proof.
  split; [done| |].
  - intros [|[|i]] [|[|j]] s1 s2 H1 H2; simpl in *; simplify_eq; done.
  - intros [|[|i]] sl Hs; simpl in *; simplify_eq; done.
Qed.

Lemma after_reached ms :
  match play 2 ms sample_initial with Some _ => true | None => false end = true →
  reached sample_reads sample_writes sample_split (after ms).
Proof.
  unfold after. destruct (play 2 ms sample_initial) as [sys|] eqn:Hs; [intros _|done]. eapply play_reached; [apply reached_split|exact Hs].
Qed.

Lemma busy_reached : reached sample_reads sample_writes sample_split (after sample_busy).
Proof. apply after_reached. by vm_compute. Qed.

Lemma calm_reached : reached sample_reads sample_writes sample_split (after sample_calm).
Proof. apply after_reached. by vm_compute. Qed.

(** An event a test tells apart is not in a log the test finds nothing in. *)
Lemma not_logged (p : event → bool) e log : p e = true → existsb p log = false → e ∉ log.
Proof.
  intros He Hn Hin. apply not_true_iff_false in Hn. apply Hn, existsb_exists. exists e.
  split; [by apply list_elem_of_In|done].
Qed.


Lemma split_pays_debts_witness :
  let s := sy_shared (after sample_busy) in
  sh_locked s = true ∧ len (sh_owed s) = 1 ∧ len (payments (sh_log s)) = 1 ∧
  ∃ d rest, sh_owed s = d :: rest ∧ debts (sh_log s) = payments (sh_log s) ++ rest.
Proof.
  cbv zeta. split; [by vm_compute|]. split; [by vm_compute|]. split; [by vm_compute|].
  destruct (split_pays_debts _ _ _ sample_ready _ busy_reached) as [_ [He|Hp]].
  - by apply (not_logged (λ e, match e with Forgiven => true | _ => false end)); vm_compute.
  - exfalso. apply (f_equal len) in He. vm_compute in He. done.
  - exact Hp.
Defined.


Lemma split_credit_within_grant_witness :
  let s := sy_shared (after sample_calm) in
  total (use_of AckMode.Classic 1) (sh_log s) = 1 ∧
  total (use_of AckMode.Classic 1) (sh_log s) <= total (grant_of AckMode.Classic 1) (sh_log s) + 1.
Proof.
  split; [by vm_compute|].
  pose proof (proj1 (split_credit_within_grant _ _ _ sample_ready _ calm_reached) 1) as Hc.
  assert (p_ack (t_policy (sh_channels (sy_shared (after sample_calm)))) = AckMode.Classic) as Hm
    by (by vm_compute).
  rewrite Hm in Hc. exact Hc.
Defined.

Lemma split_streams_intact_witness :
  let s := sy_shared (after sample_busy) in
  ∃ sl, t_slots (sh_channels s) !! 0%nat = Some (Some sl) ∧ sl_rx_buf sl = bs "hello" ∧
    concat (omap (taken_of (mkChannelId 0 (sl_local sl))) (sh_log s)) ++ sl_rx_buf sl
    = concat (omap (buffered_of (mkChannelId 0 (sl_local sl))) (sh_log s)).
Proof.
  eexists. split; [by vm_compute|]. split; [by vm_compute|].
  apply (split_streams_intact _ _ _ sample_ready _ busy_reached). by vm_compute.
Defined.

Lemma split_requests_kept_witness :
  let sys := after sample_calm in
  length (sy_held sys) = 1%nat ∧
  ∃ inside, c_incoming sample_split ++ omap request_of (sh_log (sy_shared sys))
    ≡ₚ sh_incoming (sy_shared sys) ++ inside ++ (si_pending <$> sy_held sys)
       ++ omap resolved_of (sh_log (sy_shared sys)) ∧ (sy_calls sys = [] → inside = []).
Proof.
  split; [by vm_compute|]. exact (split_requests_kept _ _ _ sample_ready _ calm_reached).
Defined.

Lemma split_quiescent_witness :
  let s := sy_shared (after sample_calm) in
  sh_locked s = false ∧
  snd <$> sh_staged s ≡ₚ si_flag <$> sy_held (after sample_calm).
Proof.
  destruct (split_quiescent _ _ _ sample_ready _ calm_reached) as (Hl & _ & _ & Hf); [by vm_compute|].
  split; [exact Hl|exact Hf].
Defined.

(** The reader is dropped with bytes buffered while a writer holds the write
    half: a read gets the bytes. *)
Definition sample_stopped : list command := sample_busy ++ [Start 50 RDrop] ++ moved 2 4.

Lemma stopped_reached : reached sample_reads sample_writes sample_split (after sample_stopped).
Proof. apply after_reached. by vm_compute. Qed.

