(* ===== verification/Protobuf.v ===== *)
(** * Protocol buffers ([base/protobuf.rs])

    The hex length prefix and the protobuf reader of the services that stream
    protobuf messages.

    [walk] is the reference: the fields of a message, in order, as far as it is
    well formed.  A decoder that takes the fields it knows and skips the others
    is a fold over what [walk] finds ([repeated_loop_fold]), and [walk] finds exactly
    the fields an encoder wrote ([walk_encoded]).  The loops are given fuel for
    a round per byte, which is enough ([walk_fuel]): every round consumes its
    tag. *)

From S2P Require Import Prelude Errors Text.

(** ** The hex length prefix *)

Definition hex_digit (b : byte) : option Z :=
  if in_range 0x30 0x39 b then Some (u8 b - 0x30)
  else if in_range 0x61 0x66 b then Some (u8 b - 0x61 + 10)
  else if in_range 0x41 0x46 b then Some (u8 b - 0x41 + 10)
  else None.

Fixpoint hex_loop (value : Z) (l : bytes) : option Z :=
  match l with
  | [] => Some value
  | b :: l => d ← hex_digit b; hex_loop (value * 16 + d) l
  end.

Definition parse_hex4 (buf : bytes) : option Z :=
  if len buf <? 4 then None else hex_loop 0 (ztake 4 buf).

(** ** Varints *)

(** A shift of a [u64] keeps its low 64 bits. *)
Definition wrap_u64 (z : Z) : Z := z mod 2 ^ 64.

Fixpoint varint_loop (value shift i : Z) (buf : bytes) : option (Z * Z) :=
  match buf with
  | [] => None
  | b :: buf =>
      if 64 <=? shift then None
      else
        let value := Z.lor value (wrap_u64 (Z.shiftl (Z.land (u8 b) 0x7F) shift)) in
        let shift := shift + 7 in
        if Z.land (u8 b) 0x80 =? 0 then Some (value, i + 1)
        else varint_loop value shift (i + 1) buf
  end.

(** [decode_varint]: the value and the bytes it takes. *)
Definition decode_varint (buf : bytes) : option (Z * Z) := varint_loop 0 0 0 buf.

(** ** Fields *)

Definition WIRE_VARINT : Z := 0.
Definition WIRE_FIXED64 : Z := 1.
Definition WIRE_LEN_DELIMITED : Z := 2.
Definition WIRE_FIXED32 : Z := 5.

(** [usize::try_from] of a [u64] succeeds: [usize] is modelled at 64 bits. *)
Definition skip_field (buf : bytes) (wire_type : Z) : option Z :=
  if wire_type =? WIRE_VARINT then '(_, c) ← decode_varint buf; Some c
  else if wire_type =? WIRE_FIXED64 then if 8 <=? len buf then Some 8 else None
  else if wire_type =? WIRE_LEN_DELIMITED then
    '(n, c) ← decode_varint buf;
    total ← usize_checked_add c n;
    if total <=? len buf then Some total else None
  else if wire_type =? WIRE_FIXED32 then if 4 <=? len buf then Some 4 else None
  else None.

Definition read_bytes (buf : bytes) : result DecodeError (bytes * Z) :=
  '(n, c) ← ok_or DecodeError.InvalidProtobuf (decode_varint buf);
  stop ← ok_or DecodeError.InvalidProtobuf (usize_checked_add c n);
  if len buf <? stop then Err DecodeError.InvalidProtobuf
  else Ok (zslice c stop buf, stop).

(** [read_str] and [read_string]. *)
Definition read_string (buf : bytes) : result DecodeError (bytes * Z) :=
  '(b, consumed) ← read_bytes buf;
  if from_utf8 b then Ok (b, consumed) else Err DecodeError.InvalidUtf8.

Definition read_varint (buf : bytes) : result DecodeError (Z * Z) :=
  ok_or DecodeError.InvalidProtobuf (decode_varint buf).

Definition read_tag (buf : bytes) : result DecodeError (Z * Z * Z) :=
  '(tag, consumed) ← ok_or DecodeError.InvalidProtobuf (decode_varint buf);
  Ok (Z.shiftr tag 3, Z.land tag 0x07, consumed).

(** The loop of [decode_repeated_field1], with [rest] for [buf[pos..]]; [None]
    is fuel run out. *)
Fixpoint repeated_loop {T} (decode_entry : bytes → option (result DecodeError T)) (fuel : nat)
    (entries : list T) (rest : bytes) : option (result DecodeError (list T)) :=
  match fuel with
  | O => None
  | S fuel =>
      match rest with
      | [] => Some (Ok entries)
      | _ =>
          match read_tag rest with
          | Err e => Some (Err e)
          | Ok (field, wire, c) =>
              let rest := zdrop c rest in
              if (field =? 1) && (wire =? 2) then
                match read_bytes rest with
                | Err e => Some (Err e)
                | Ok (data, c) =>
                    entry ← decode_entry data;
                    match entry with
                    | Err e => Some (Err e)
                    | Ok entry => repeated_loop decode_entry fuel (entries ++ [entry]) (zdrop c rest)
                    end
                end
              else
                match skip_field rest wire with
                | None => Some (Err DecodeError.InvalidProtobuf)
                | Some skipped => repeated_loop decode_entry fuel entries (zdrop skipped rest)
                end
          end
      end
  end.

Definition decode_repeated_field1 {T} (decode_entry : bytes → option (result DecodeError T))
    (buf : bytes) : option (result DecodeError (list T)) :=
  repeated_loop decode_entry (S (length buf)) [] buf.

(** ** Varints, read *)

(** The shortest prefix that ends in a byte without the continuation bit. *)
Fixpoint varint_prefix (buf : bytes) : option (bytes * bytes) :=
  match buf with
  | [] => None
  | b :: buf =>
      if u8 b <? 0x80 then Some ([b], buf)
      else '(p, rest) ← varint_prefix buf; Some (b :: p, rest)
  end.

(** Groups of seven bits, the lowest first. *)
Fixpoint groups (p : bytes) : Z :=
  match p with
  | [] => 0
  | b :: p => u8 b mod 128 + 128 * groups p
  end.

Lemma lor_shifted a b n : 0 <= n → 0 <= a < 2 ^ n → Z.lor a (b * 2 ^ n) = a + b * 2 ^ n.
Proof.
  intros Hn Ha. assert (Z.land a (b * 2 ^ n) = 0) as Hz.
  { apply Z.bits_inj'. intros i Hi. rewrite Z.land_spec, Z.bits_0.
    destruct (Z.ltb_spec i n).
    - by rewrite Z.mul_pow2_bits_low, andb_false_r by lia.
    - rewrite <- (Z.mod_small a (2 ^ n)) by lia. by rewrite Z.mod_pow2_bits_high by lia. }
  by rewrite <- Z.lxor_lor, <- Z.add_nocarry_lxor by done.
Qed.

Lemma shift_wraps x n :
  0 <= n <= 64 → wrap_u64 (Z.shiftl x n) = x mod 2 ^ (64 - n) * 2 ^ n.
Proof.
  intros Hn. unfold wrap_u64. rewrite Z.shiftl_mul_pow2 by lia.
  replace (2 ^ 64) with (2 ^ (64 - n) * 2 ^ n) by (rewrite <- Z.pow_add_r by lia; f_equal; lia).
  by rewrite Z.mul_mod_distr_r by (apply Z.pow_nonzero; lia).
Qed.

Lemma low_seven b : Z.land (u8 b) 0x7F = u8 b mod 128.
Proof. by rewrite (Z.land_ones _ 7). Qed.

Lemma top_bit b : (Z.land (u8 b) 0x80 =? 0) = (u8 b <? 0x80).
Proof. by destruct b. Qed.

(** One round adds a group. *)
Lemma varint_round value shift b :
  0 <= shift < 64 → 0 <= value < 2 ^ shift →
  let value' := Z.lor value (wrap_u64 (Z.shiftl (Z.land (u8 b) 0x7F) shift)) in
  0 <= value' < 2 ^ (shift + 7) ∧ value' < 2 ^ 64 ∧
  ∃ k, value + 2 ^ shift * (u8 b mod 128) = value' + k * 2 ^ 64.
Proof.
  intros Hs Hv. cbv zeta. rewrite low_seven, shift_wraps, lor_shifted by lia.
  set (x := u8 b mod 128). assert (0 <= x < 128) by (apply Z.mod_pos_bound; lia).
  pose proof (Z.pow_pos_nonneg 2 (64 - shift) ltac:(lia) ltac:(lia)) as Hp.
  pose proof (Z.mod_pos_bound x (2 ^ (64 - shift)) Hp) as Hm.
  pose proof (Z.mod_le x (2 ^ (64 - shift)) ltac:(lia) Hp) as Hle.
  assert (2 ^ 64 = 2 ^ (64 - shift) * 2 ^ shift) as H64
    by (rewrite <- Z.pow_add_r by lia; f_equal; lia).
  assert (2 ^ (shift + 7) = 128 * 2 ^ shift) as H7 by (rewrite Z.pow_add_r by lia; lia).
  split; [split; [nia|rewrite H7; nia]|]. split; [rewrite H64; nia|].
  exists (x / 2 ^ (64 - shift)). rewrite H64.
  pose proof (Z.div_mod x (2 ^ (64 - shift)) ltac:(lia)) as Hd. nia.
Qed.

Lemma varint_loop_spec buf value shift i :
  0 <= shift → 0 <= value < 2 ^ shift → (shift < 64 ∨ value < 2 ^ 64) →
  varint_loop value shift i buf
  = match varint_prefix buf with
    | Some (p, _) =>
        if shift + 7 * (len p - 1) <? 64
        then Some ((value + 2 ^ shift * groups p) mod 2 ^ 64, i + len p) else None
    | None => None
    end.
Proof.
  revert value shift i. induction buf as [|b buf IH]; intros value shift i Hs Hv Hw; [done|].
  cbn [varint_loop varint_prefix]. rewrite top_bit.
  assert (∀ p r, varint_prefix buf = Some (p, r) → 1 <= len p) as Hp.
  { intros p r Hp. destruct p; [|rewrite len_cons; pose proof (len_nonneg p); lia].
    destruct buf as [|b' buf']; simpl in Hp; [done|].
    destruct (u8 b' <? 128); [done|]. by destruct (varint_prefix buf') as [[]|]. }
  destruct (Z.leb_spec 64 shift) as [H64|H64].
  { destruct (u8 b <? 128).
    { change (len [b]) with 1. destruct (Z.ltb_spec (shift + 7 * (1 - 1)) 64); [lia|done]. }
    destruct (varint_prefix buf) as [[p r]|]; simpl; [|done]. rewrite len_cons.
    pose proof (len_nonneg p). destruct (Z.ltb_spec (shift + 7 * (len p + 1 - 1)) 64); [lia|done]. }
  destruct (varint_round value shift b ltac:(lia) Hv) as (Hv' & Hlt & k & Hk).
  set (value' := Z.lor value _) in *.
  destruct (u8 b <? 128).
  - change (len [b]) with 1. destruct (Z.ltb_spec (shift + 7 * (1 - 1)) 64); [|lia]. cbn [groups]. f_equal. f_equal.
    assert (value + 2 ^ shift * (u8 b mod 128 + 128 * 0) = value' + k * 2 ^ 64) as -> by lia.
    rewrite Z.mod_add by lia. by rewrite Z.mod_small by lia.
  - rewrite IH by lia. destruct (varint_prefix buf) as [[p r]|] eqn:Hb; simpl; [|done].
    rewrite len_cons. replace (shift + 7 + 7 * (len p - 1)) with (shift + 7 * (len p + 1 - 1)) by lia.
    destruct (_ <? 64); [|done]. f_equal. f_equal; [|lia].
    rewrite Z.pow_add_r by lia. change (2 ^ 7) with 128.
    assert (value + 2 ^ shift * (u8 b mod 128 + 128 * groups p)
      = value' + 2 ^ shift * 128 * groups p + k * 2 ^ 64) as -> by lia.
    by rewrite Z.mod_add by lia.
Qed.

(** [decode_varint], exactly. *)
Lemma decode_varint_spec buf :
  decode_varint buf
  = match varint_prefix buf with
    | Some (p, _) => if len p <=? 10 then Some (groups p mod 2 ^ 64, len p) else None
    | None => None
    end.
Proof.
  unfold decode_varint. rewrite varint_loop_spec by lia.
  destruct (varint_prefix buf) as [[p r]|]; [|done].
  destruct (Z.ltb_spec (0 + 7 * (len p - 1)) 64), (Z.leb_spec (len p) 10); try lia; [|done].
  f_equal. f_equal. f_equal. lia.
Qed.

Lemma varint_prefix_app buf p r : varint_prefix buf = Some (p, r) → buf = p ++ r ∧ 1 <= len p.
Proof.
  revert p r. induction buf as [|b buf IH]; intros p r; simpl; [done|].
  destruct (u8 b <? 128); [intros [= <- <-]; by split|].
  destruct (varint_prefix buf) as [[p' r']|]; simpl; [|done]. intros [= <- <-].
  destruct (IH p' r' eq_refl) as [-> Hl]. split; [done|]. rewrite len_cons. lia.
Qed.

(** What is read lies in the buffer and is not empty. *)
Lemma decode_varint_within buf v c :
  decode_varint buf = Some (v, c) → 1 <= c <= Z.min 10 (len buf) ∧ 0 <= v < 2 ^ 64.
Proof.
  rewrite decode_varint_spec. destruct (varint_prefix buf) as [[p r]|] eqn:Hp; [|done].
  apply varint_prefix_app in Hp as [-> Hl]. destruct (Z.leb_spec (len p) 10); [|done].
  intros [= <- <-]. rewrite len_app. pose proof (len_nonneg r).
  pose proof (Z.mod_pos_bound (groups p) (2 ^ 64) ltac:(lia)). lia.
Qed.

(** ** The fields of a message *)

Inductive wire_value : Type :=
| Varint (v : Z)
| Fixed64 (b : bytes)
| Delimited (b : bytes)
| Fixed32 (b : bytes).

Abbreviation field := (Z * wire_value)%type.

Definition read_value (wire : Z) (rest : bytes) : option (wire_value * Z) :=
  if wire =? WIRE_VARINT then '(v, c) ← decode_varint rest; Some (Varint v, c)
  else if wire =? WIRE_FIXED64 then if 8 <=? len rest then Some (Fixed64 (ztake 8 rest), 8) else None
  else if wire =? WIRE_LEN_DELIMITED then
    match read_bytes rest with Ok (b, c) => Some (Delimited b, c) | Err _ => None end
  else if wire =? WIRE_FIXED32 then if 4 <=? len rest then Some (Fixed32 (ztake 4 rest), 4) else None
  else None.

Definition value_wire (v : wire_value) : Z :=
  match v with
  | Varint _ => WIRE_VARINT
  | Fixed64 _ => WIRE_FIXED64
  | Delimited _ => WIRE_LEN_DELIMITED
  | Fixed32 _ => WIRE_FIXED32
  end.

(** The fields, and whether the message ends after them. *)
Fixpoint walk_loop (fuel : nat) (rest : bytes) : list field * bool :=
  match fuel with
  | O => ([], false)
  | S fuel =>
      match rest with
      | [] => ([], true)
      | _ =>
          match read_tag rest with
          | Err _ => ([], false)
          | Ok (f, wire, c) =>
              match read_value wire (zdrop c rest) with
              | None => ([], false)
              | Some (v, c') =>
                  let '(fs, whole) := walk_loop fuel (zdrop c' (zdrop c rest)) in ((f, v) :: fs, whole)
              end
          end
      end
  end.

Definition walk (buf : bytes) : list field * bool := walk_loop (S (length buf)) buf.

(** A decoder that takes the fields one by one. *)
Fixpoint take_fields {A} (step : A → field → result DecodeError A) (a : A) (fs : list field)
    (whole : bool) : result DecodeError A :=
  match fs with
  | [] => if whole then Ok a else Err DecodeError.InvalidProtobuf
  | f :: fs => match step a f with
               | Ok a => take_fields step a fs whole
               | Err e => Err e
               end
  end.

Lemma read_bytes_error buf e : read_bytes buf = Err e → e = DecodeError.InvalidProtobuf.
Proof.
  unfold read_bytes. destruct (decode_varint buf) as [[n c]|]; simpl; [|by intros [= <-]].
  destruct (usize_checked_add c n); simpl; [|by intros [= <-]]. by destruct (_ <? _); intros [= <-].
Qed.

Lemma read_tag_error buf e : read_tag buf = Err e → e = DecodeError.InvalidProtobuf.
Proof. unfold read_tag. destruct (decode_varint buf) as [[]|]; simpl; [done|by intros [= <-]]. Qed.

(** A field skipped and a field read take the same bytes. *)
Lemma skip_field_value rest wire : skip_field rest wire = snd <$> read_value wire rest.
Proof.
  unfold skip_field, read_value, read_bytes.
  repeat (destruct (wire =? _); [|]); try done.
  - by destruct (decode_varint rest) as [[]|].
  - by destruct (8 <=? _).
  - destruct (decode_varint rest) as [[n c]|]; simpl; [|done].
    destruct (usize_checked_add c n) as [t|]; simpl; [|done].
    by destruct (Z.leb_spec t (len rest)), (Z.ltb_spec (len rest) t); try lia.
  - by destruct (4 <=? _).
Qed.

Lemma read_tag_within buf f w c : read_tag buf = Ok (f, w, c) → 1 <= c <= len buf.
Proof.
  unfold read_tag. destruct (decode_varint buf) as [[t n]|] eqn:Hd; simpl; [|done].
  intros [= <- <- <-]. apply decode_varint_within in Hd. lia.
Qed.

Lemma read_value_within wire rest v c : read_value wire rest = Some (v, c) → 0 <= c <= len rest.
Proof.
  unfold read_value, read_bytes. pose proof (len_nonneg rest).
  destruct (wire =? _).
  { destruct (decode_varint rest) as [[n c']|] eqn:Hd; simpl; [|done]. intros [= _ <-].
    apply decode_varint_within in Hd. lia. }
  destruct (wire =? _). { destruct (Z.leb_spec 8 (len rest)); [|done]. intros [= _ <-]. lia. }
  destruct (wire =? _).
  { destruct (decode_varint rest) as [[n c']|] eqn:Hd; simpl; [|done]. apply decode_varint_within in Hd.
    unfold usize_checked_add. destruct (_ <=? _); simpl; [|done].
    destruct (Z.ltb_spec (len rest) (c' + n)); [done|]. intros [= _ <-]. lia. }
  destruct (wire =? _); [|done]. destruct (Z.leb_spec 4 (len rest)); [|done]. intros [= _ <-]. lia.
Qed.

Lemma read_value_wire w rest v c : read_value w rest = Some (v, c) → w = value_wire v.
Proof.
  unfold read_value. intros Hv.
  destruct (Z.eqb_spec w WIRE_VARINT) as [->|_].
  { destruct (decode_varint rest) as [[]|]; simpl in Hv; [|done]. by injection Hv as <- _. }
  destruct (Z.eqb_spec w WIRE_FIXED64) as [->|_].
  { destruct (8 <=? _); [|done]. by injection Hv as <- _. }
  destruct (Z.eqb_spec w WIRE_LEN_DELIMITED) as [->|_].
  { destruct (read_bytes rest) as [[]|]; [|done]. by injection Hv as <- _. }
  destruct (Z.eqb_spec w WIRE_FIXED32) as [->|_]; [|done].
  destruct (4 <=? _); [|done]. by injection Hv as <- _.
Qed.

(** What is left after a field is shorter. *)
Lemma field_shorter rest f w c v c' :
  read_tag rest = Ok (f, w, c) → read_value w (zdrop c rest) = Some (v, c') →
  (length (zdrop c' (zdrop c rest)) < length rest)%nat.
Proof.
  intros Ht%read_tag_within Hv%read_value_within. pose proof (len_nonneg rest).
  assert (len (zdrop c' (zdrop c rest)) < len rest) as Hl by (rewrite !len_zdrop in *; lia).
  unfold len in Hl. lia.
Qed.

(** Fuel beyond the bytes changes nothing. *)
Lemma walk_fuel fuel rest : (length rest < fuel)%nat → walk_loop fuel rest = walk rest.
Proof.
  assert (∀ f1 f2 rest, (length rest < f1)%nat → (length rest < f2)%nat →
    walk_loop f1 rest = walk_loop f2 rest) as Hm; [|intros; apply Hm; lia].
  induction f1 as [|f1 IH]; intros f2 r H1 H2; [lia|]. destruct f2 as [|f2]; [lia|].
  cbn [walk_loop]. destruct r as [|b r]; [done|]. set (buf := b :: r) in *.
  destruct (read_tag buf) as [[[f w] c]|] eqn:Ht; [|done].
  destruct (read_value w _) as [[v c']|] eqn:Hv; [|done].
  pose proof (field_shorter _ _ _ _ _ _ Ht Hv). rewrite (IH f2); [done|lia..].
Qed.

Lemma walk_unfold buf :
  walk buf
  = match buf with
    | [] => ([], true)
    | _ =>
        match read_tag buf with
        | Err _ => ([], false)
        | Ok (f, wire, c) =>
            match read_value wire (zdrop c buf) with
            | None => ([], false)
            | Some (v, c') => let '(fs, whole) := walk (zdrop c' (zdrop c buf)) in ((f, v) :: fs, whole)
            end
        end
    end.
Proof.
  unfold walk at 1. cbn [walk_loop]. destruct buf as [|b r]; [done|]. set (buf := b :: r) in *.
  destruct (read_tag buf) as [[[f w] c]|] eqn:Ht; [|done].
  destruct (read_value w _) as [[v c']|] eqn:Hv; [|done].
  rewrite walk_fuel; [done|]. exact (field_shorter _ _ _ _ _ _ Ht Hv).
Qed.

(** ** [decode_repeated_field1] is a fold over the fields *)

Definition repeated_step {T} (entry_of : bytes → result DecodeError T) (entries : list T) (f : field) :
    result DecodeError (list T) :=
  match f with
  | (1, Delimited d) => match entry_of d with Ok e => Ok (entries ++ [e]) | Err e => Err e end
  | _ => Ok entries
  end.

Lemma repeated_step_other {T} (entry_of : bytes → result DecodeError T) entries f w rest v c :
  read_value w rest = Some (v, c) → (f =? 1) && (w =? 2) = false →
  repeated_step entry_of entries (f, v) = Ok entries.
Proof.
  intros ->%read_value_wire Hf. unfold repeated_step. destruct (Z.eqb_spec f 1) as [->|Hne].
  - by destruct v.
  - destruct f as [|[| |]|]; try done.
Qed.

Lemma repeated_loop_fold {T} (decode_entry : bytes → option (result DecodeError T)) entry_of fuel
    entries rest :
  (∀ d, decode_entry d = Some (entry_of d)) → (length rest < fuel)%nat →
  repeated_loop decode_entry fuel entries rest
  = Some (take_fields (repeated_step entry_of) entries (fst (walk rest)) (snd (walk rest))).
Proof.
  intros He. revert entries rest. induction fuel as [|fuel IH]; intros entries rest Hf; [lia|].
  cbn [repeated_loop]. rewrite walk_unfold. destruct rest as [|b r]; [done|]. set (buf := b :: r) in *.
  destruct (read_tag buf) as [[[f w] c]|e] eqn:Ht; [|by apply read_tag_error in Ht as ->].
  destruct (read_value w (zdrop c buf)) as [[v c']|] eqn:Hv.
  - pose proof (field_shorter _ _ _ _ _ _ Ht Hv) as Hs.
    destruct (walk (zdrop c' (zdrop c buf))) as [fs whole] eqn:Hw. cbn [fst snd take_fields].
    destruct ((f =? 1) && (w =? 2)) eqn:Hfw.
    + apply andb_true_iff in Hfw as [->%Z.eqb_eq ->%Z.eqb_eq]. unfold read_value in Hv. simpl in Hv.
      destruct (read_bytes (zdrop c buf)) as [[d c2]|] eqn:Hb; [|done]. injection Hv as <- <-.
      rewrite He. simpl. destruct (entry_of d) as [e|]; [|done]. rewrite IH by lia. by rewrite Hw.
    + rewrite (repeated_step_other _ _ _ _ _ _ _ Hv Hfw), skip_field_value, Hv. simpl.
      rewrite IH by lia. by rewrite Hw.
  - cbn [fst snd take_fields]. rewrite skip_field_value, Hv. simpl.
    destruct ((f =? 1) && (w =? 2)) eqn:Hfw; [|done].
    apply andb_true_iff in Hfw as [->%Z.eqb_eq ->%Z.eqb_eq]. unfold read_value in Hv. simpl in Hv.
    destruct (read_bytes (zdrop c buf)) as [[d c2]|e] eqn:Hb; [done|]. by apply read_bytes_error in Hb as ->.
Qed.

(** ** What an encoder writes *)

(** A value in groups of seven bits, the lowest first, as the protobuf encoding
    defines it. *)
Fixpoint varint_groups (n : nat) (v : Z) : bytes :=
  match n with
  | O => []
  | S n => if v <? 128 then [b8 v] else b8 (v mod 128 + 128) :: varint_groups n (v / 128)
  end.

Definition encode_varint (v : Z) : bytes := varint_groups 10 v.

Definition encode_value (v : wire_value) : bytes :=
  match v with
  | Varint v => encode_varint v
  | Fixed64 b | Fixed32 b => b
  | Delimited b => encode_varint (len b) ++ b
  end.

Definition encode_field (f : field) : bytes :=
  encode_varint (fst f * 8 + value_wire (snd f)) ++ encode_value (snd f).

Definition encode_fields (fs : list field) : bytes := concat (encode_field <$> fs).

Definition field_ok (f : field) : Prop :=
  0 <= fst f < 2 ^ 61 ∧
  match snd f with
  | Varint v => 0 <= v < 2 ^ 64
  | Fixed64 b => len b = 8
  | Delimited b => len b < 2 ^ 63
  | Fixed32 b => len b = 4
  end.

Lemma varint_groups_spec n v rest :
  0 <= v < 128 ^ Z.of_nat n → (0 < n)%nat →
  varint_prefix (varint_groups n v ++ rest) = Some (varint_groups n v, rest) ∧
  groups (varint_groups n v) = v ∧ len (varint_groups n v) <= Z.of_nat n.
Proof.
  revert v. induction n as [|n IH]; intros v Hv Hn; [lia|]. cbn [varint_groups].
  destruct (Z.ltb_spec v 128) as [Hs|Hs].
  - cbn [app varint_prefix groups]. rewrite !u8_b8.
    rewrite !(Z.mod_small v) by lia. destruct (Z.ltb_spec v 128); [|lia].
    change (len [b8 v]) with 1. split; [done|]. lia.
  - destruct n as [|n]; [change (128 ^ Z.of_nat 1) with 128 in Hv; lia|].
    assert (0 <= v / 128 < 128 ^ Z.of_nat (S n)) as Hd.
    { rewrite (Nat2Z.inj_succ (S n)), Z.pow_succ_r in Hv by lia.
      split; [apply Z.div_pos; lia|apply Z.div_lt_upper_bound; lia]. }
    destruct (IH (v / 128) Hd ltac:(lia)) as (Hp & Hg & Hl).
    set (tl := varint_groups (S n) (v / 128)) in *. cbn [app varint_prefix groups].
    pose proof (Z.mod_pos_bound v 128 ltac:(lia)). rewrite u8_b8.
    rewrite (Z.mod_small (v mod 128 + 128)) by lia.
    destruct (Z.ltb_spec (v mod 128 + 128) 128); [lia|]. rewrite Hp, Hg. simpl. split; [done|].
    assert ((v mod 128 + 128) mod 128 = v mod 128) as ->
      by (rewrite <- (Z.mul_1_l 128) at 2; rewrite Z.mod_add, Z.mod_mod by lia; done).
    rewrite len_cons. pose proof (Z.div_mod v 128 ltac:(lia)). lia.
Qed.

(** A varint reads back, whatever follows. *)
Lemma varint_round_trip v rest :
  0 <= v < 2 ^ 64 →
  decode_varint (encode_varint v ++ rest) = Some (v, len (encode_varint v)) ∧
  zdrop (len (encode_varint v)) (encode_varint v ++ rest) = rest.
Proof.
  intros Hv. assert (0 <= v < 128 ^ Z.of_nat 10) as Hv' by (simpl Z.of_nat; lia).
  destruct (varint_groups_spec 10 v rest Hv' ltac:(lia)) as (Hp & Hg & Hl).
  rewrite decode_varint_spec. fold (encode_varint v) in *. rewrite Hp, Hg.
  destruct (Z.leb_spec (len (encode_varint v)) 10); [|lia].
  rewrite Z.mod_small by lia. split; [done|]. by apply zdrop_app_len.
Qed.

Lemma encode_varint_nonempty v : encode_varint v ≠ [].
Proof. unfold encode_varint. cbn [varint_groups]. by destruct (v <? 128). Qed.

Lemma tag_round_trip f wire rest :
  0 <= f < 2 ^ 61 → 0 <= wire < 8 →
  read_tag (encode_varint (f * 8 + wire) ++ rest)
  = Ok (f, wire, len (encode_varint (f * 8 + wire))).
Proof.
  intros Hf Hw. unfold read_tag.
  destruct (varint_round_trip (f * 8 + wire) rest ltac:(lia)) as [-> _]. simpl. do 3 f_equal.
  - rewrite Z.shiftr_div_pow2 by lia. change (2 ^ 3) with 8. rewrite Z.div_add_l, Z.div_small by lia. lia.
  - rewrite (Z.land_ones _ 3) by lia. change (2 ^ 3) with 8.
    rewrite Z.add_comm, Z.mod_add, Z.mod_small by lia. done.
Qed.

Lemma value_round_trip f v rest :
  field_ok (f, v) →
  ∃ c, read_value (value_wire v) (encode_value v ++ rest) = Some (v, c) ∧
    zdrop c (encode_value v ++ rest) = rest.
Proof.
  intros [_ Hv]. destruct v as [v|b|b|b]; cbn [snd encode_value] in *; unfold read_value; simpl.
  - destruct (varint_round_trip v rest Hv) as [-> Hd]. simpl. eauto.
  - pose proof (len_nonneg rest). exists 8. destruct (Z.leb_spec 8 (len (b ++ rest))); [|zlen].
    by rewrite ztake_app_len, zdrop_app_len by lia.
  - unfold read_bytes. pose proof (len_nonneg b). pose proof (len_nonneg rest).
    pose proof (len_nonneg (encode_varint (len b))).
    rewrite <- app_assoc. destruct (varint_round_trip (len b) (b ++ rest) ltac:(lia)) as [Hd Hz].
    apply decode_varint_within in Hd as Hw. rewrite Hd. simpl. set (e := encode_varint (len b)) in *.
    unfold usize_checked_add, USIZE_MAX. destruct (Z.leb_spec (len e + len b) (2 ^ 64 - 1)); [|lia].
    simpl. destruct (Z.ltb_spec (len (e ++ b ++ rest)) (len e + len b)); [rewrite !len_app in *; lia|].
    exists (len e + len b). unfold zslice. rewrite Hz.
    rewrite ztake_app_len by lia. split; [done|]. rewrite app_assoc. apply zdrop_app_len.
    rewrite len_app. lia.
  - pose proof (len_nonneg rest). exists 4. destruct (Z.leb_spec 4 (len (b ++ rest))); [|zlen].
    by rewrite ztake_app_len, zdrop_app_len by lia.
Qed.

(** The walk finds the fields that were written. *)
Lemma walk_encoded fs : Forall field_ok fs → walk (encode_fields fs) = (fs, true).
Proof.
  induction 1 as [|[f v] fs Hok _ IH]; [done|]. unfold encode_fields. cbn [fmap list_fmap concat].
  fold (encode_fields fs). unfold encode_field. cbn [fst snd]. rewrite <- app_assoc.
  set (tag := encode_varint _). set (rest := encode_value v ++ encode_fields fs).
  rewrite walk_unfold. destruct (tag ++ rest) as [|b l] eqn:Hbuf.
  { apply app_eq_nil in Hbuf as [Ht _]. by apply encode_varint_nonempty in Ht. }
  rewrite <- Hbuf. unfold tag at 1.
  rewrite tag_round_trip; [|apply Hok|by destruct v]. fold tag.
  rewrite (zdrop_app_len tag rest) by done. unfold rest.
  destruct (value_round_trip f v (encode_fields fs) Hok) as (c & -> & ->). by rewrite IH.
Qed.
