(* ===== verification/TrackApp.v ===== *)
(** * Tracking app processes ([track_app.rs])

    The decoder of the device's process lists and the stream of snapshots.
    [decode_is_fold] states what the decoder makes of any payload, well formed
    or not, in terms of the fields [Protobuf.walk] finds; [entries_round_trip]
    that it reads back what a device wrote, unknown fields and all;
    [snapshots_read] what one call takes from the channel's byte stream. *)

From S2P Require Import Prelude Errors Protocol Text ChannelTable Wire Connection Session RecvBuf Sync.
From S2P Require Import SyncStreams Protobuf.

(** [ProcessEntry]. *)
Record ProcessEntry : Type := mkEntry {
  pid : Z;
  debuggable : bool;
  profileable : bool;
  architecture : bytes;
  user_id : option Z;
  process_name : option bytes;
  package_names : list bytes;
  waiting_for_debugger : option bool;
  uid : option Z;
}.

(** [ProcessEntry::default]. *)
Definition entry_default : ProcessEntry := mkEntry 0 false false [] None None [] None None.

Definition set_pid v e := mkEntry v (debuggable e) (profileable e) (architecture e) (user_id e)
  (process_name e) (package_names e) (waiting_for_debugger e) (uid e).
Definition set_debuggable v e := mkEntry (pid e) v (profileable e) (architecture e) (user_id e)
  (process_name e) (package_names e) (waiting_for_debugger e) (uid e).
Definition set_profileable v e := mkEntry (pid e) (debuggable e) v (architecture e) (user_id e)
  (process_name e) (package_names e) (waiting_for_debugger e) (uid e).
Definition set_architecture v e := mkEntry (pid e) (debuggable e) (profileable e) v (user_id e)
  (process_name e) (package_names e) (waiting_for_debugger e) (uid e).
Definition set_user_id v e := mkEntry (pid e) (debuggable e) (profileable e) (architecture e) v
  (process_name e) (package_names e) (waiting_for_debugger e) (uid e).
Definition set_process_name v e := mkEntry (pid e) (debuggable e) (profileable e) (architecture e)
  (user_id e) v (package_names e) (waiting_for_debugger e) (uid e).
Definition push_package_name v e := mkEntry (pid e) (debuggable e) (profileable e) (architecture e)
  (user_id e) (process_name e) (package_names e ++ [v]) (waiting_for_debugger e) (uid e).
Definition set_waiting v e := mkEntry (pid e) (debuggable e) (profileable e) (architecture e)
  (user_id e) (process_name e) (package_names e) v (uid e).
Definition set_uid v e := mkEntry (pid e) (debuggable e) (profileable e) (architecture e) (user_id e)
  (process_name e) (package_names e) (waiting_for_debugger e) v.

(** The match of [decode_process_entry] on a field and its wire type: what it
    does with the entry, and the bytes it consumes of [rest]. *)
Definition with_varint (rest : bytes) (f : Z → ProcessEntry) : result DecodeError (ProcessEntry * Z) :=
  '(v, c) ← read_varint rest; Ok (f v, c).
Definition with_string (rest : bytes) (f : bytes → ProcessEntry) :
    result DecodeError (ProcessEntry * Z) :=
  '(s, c) ← read_string rest; Ok (f s, c).

Definition entry_field (field wire : Z) (rest : bytes) (e : ProcessEntry) :
    result DecodeError (ProcessEntry * Z) :=
  match field, wire with
  | 1, 0 => with_varint rest (λ v, set_pid (as_i64 v) e)
  | 2, 0 => with_varint rest (λ v, set_debuggable (negb (v =? 0)) e)
  | 3, 0 => with_varint rest (λ v, set_profileable (negb (v =? 0)) e)
  | 4, 2 => with_string rest (λ s, set_architecture s e)
  | 5, 0 => with_varint rest (λ v, set_user_id (Some (as_i64 v)) e)
  | 6, 2 => with_string rest (λ s, set_process_name (Some s) e)
  | 7, 2 => with_string rest (λ s, push_package_name s e)
  | 8, 0 => with_varint rest (λ v, set_waiting (Some (negb (v =? 0))) e)
  | 9, 0 => with_varint rest (λ v, set_uid (Some (as_i64 v)) e)
  | _, _ => c ← ok_or DecodeError.InvalidProtobuf (skip_field rest wire); Ok (e, c)
  end.

(** The loop, with [rest] for [buf[pos..]]; [None] is fuel run out. *)
Fixpoint entry_loop (fuel : nat) (e : ProcessEntry) (rest : bytes) :
    option (result DecodeError ProcessEntry) :=
  match fuel with
  | O => None
  | S fuel =>
      match rest with
      | [] => Some (Ok e)
      | _ =>
          match read_tag rest with
          | Err err => Some (Err err)
          | Ok (field, wire, c) =>
              let rest := zdrop c rest in
              match entry_field field wire rest e with
              | Err err => Some (Err err)
              | Ok (e, c) => entry_loop fuel e (zdrop c rest)
              end
          end
      end
  end.

Definition decode_process_entry (buf : bytes) : option (result DecodeError ProcessEntry) :=
  entry_loop (S (length buf)) entry_default buf.

Definition decode_app_processes (buf : bytes) : option (result DecodeError (list ProcessEntry)) :=
  decode_repeated_field1 decode_process_entry buf.

Section Tracker.
Context {Ses IoE : Type} `{Session Ses IoE}.

Definition HEX_LEN_PREFIX : Z := 4.

(** [TrackApp::read_snapshot]. *)
Definition read_snapshot (fuel : nat) (ch : ChannelId) :
    prog (RecvBuf * Ses) (Error IoE) (list ProcessEntry) :=
  fill_at_least fuel ch HEX_LEN_PREFIX ≫= λ _,
  prefix ← rx_peek HEX_LEN_PREFIX;
  match parse_hex4 prefix with
  | None => fail (Error.Decode DecodeError.InvalidLengthPrefix)
  | Some payload_len =>
      let frame_len := HEX_LEN_PREFIX + payload_len in
      fill_at_least fuel ch frame_len ≫= λ _,
      frame ← rx_peek frame_len;
      match decode_app_processes (zdrop HEX_LEN_PREFIX frame) with
      | None => out_of_fuel
      | Some entries =>
          rx_advance frame_len ≫= λ _,
          lift (map_err Error.Decode entries)
      end
  end.

(** [TrackApp::close]. *)
Definition tracker_close (ch : ChannelId) : prog Ses (Error IoE) unit := s_close_channel ch.

(** [open]. *)
Definition track_app_open (buf : bytes) : prog Ses (Error IoE) (ChannelId * RecvBuf) :=
  s_require_feature Feature.TrackApp ≫= λ _,
  ch ← s_open_channel (bs "track-app" ++ [x00]);
  mret (ch, recv_buf_new buf).
End Tracker.

(** ** The decoder as a fold over the fields *)

(** What one field does to an entry. *)
Definition entry_step (e : ProcessEntry) (f : field) : result DecodeError ProcessEntry :=
  let text b g := if from_utf8 b then Ok (g b) else Err DecodeError.InvalidUtf8 in
  match f with
  | (1, Varint v) => Ok (set_pid (as_i64 v) e)
  | (2, Varint v) => Ok (set_debuggable (negb (v =? 0)) e)
  | (3, Varint v) => Ok (set_profileable (negb (v =? 0)) e)
  | (4, Delimited b) => text b (λ s, set_architecture s e)
  | (5, Varint v) => Ok (set_user_id (Some (as_i64 v)) e)
  | (6, Delimited b) => text b (λ s, set_process_name (Some s) e)
  | (7, Delimited b) => text b (λ s, push_package_name s e)
  | (8, Varint v) => Ok (set_waiting (Some (negb (v =? 0))) e)
  | (9, Varint v) => Ok (set_uid (Some (as_i64 v)) e)
  | _ => Ok e
  end.

Definition entry_of (buf : bytes) : result DecodeError ProcessEntry :=
  let '(fs, whole) := walk buf in take_fields entry_step entry_default fs whole.

Definition entries_of (buf : bytes) : result DecodeError (list ProcessEntry) :=
  let '(fs, whole) := walk buf in take_fields (repeated_step entry_of) [] fs whole.

(** Cases on a field number up to nine. *)
Ltac field_cases f :=
  destruct f as [|p|p]; [|do 4 (try (destruct p as [p|p|]))|].

(** The fields of other wire types are skipped. *)
Lemma entry_field_other f w rest e :
  w ≠ WIRE_VARINT → w ≠ WIRE_LEN_DELIMITED →
  entry_field f w rest e = (c ← ok_or DecodeError.InvalidProtobuf (skip_field rest w); Ok (e, c)).
Proof. intros H0 H2. field_cases f; try reflexivity; destruct w as [|[?|[?|?|]|]|?]; done. Qed.

(** A value read is taken as its field says, and the bytes with it. *)
Lemma entry_field_step f w rest e :
  entry_field f w rest e
  = match read_value w rest with
    | None => Err DecodeError.InvalidProtobuf
    | Some (v, c) => match entry_step e (f, v) with Ok e' => Ok (e', c) | Err err => Err err end
    end.
Proof.
  destruct (Z.eqb_spec w WIRE_VARINT) as [->|H0];
    [|destruct (Z.eqb_spec w WIRE_LEN_DELIMITED) as [->|H2]].
  - unfold entry_field, with_varint, read_varint, skip_field, read_value. simpl.
    by destruct (decode_varint rest) as [[v c]|]; field_cases f.
  - pose proof (skip_field_value rest WIRE_LEN_DELIMITED) as Hs. unfold read_value in *. simpl in Hs |- *.
    unfold entry_field, with_string, read_string. rewrite Hs.
    destruct (read_bytes rest) as [[b c]|err] eqn:Hb; simpl.
    + by destruct (from_utf8 b) eqn:Hu; field_cases f; simpl; rewrite ?Hu.
    + apply read_bytes_error in Hb as ->. by field_cases f.
  - rewrite entry_field_other, skip_field_value by done.
    destruct (read_value w rest) as [[v c]|] eqn:Hv; simpl; [|done].
    apply read_value_wire in Hv as ->. destruct v; try done; by field_cases f.
Qed.

Lemma entry_loop_fold fuel e rest :
  (length rest < fuel)%nat →
  entry_loop fuel e rest = Some (take_fields entry_step e (fst (walk rest)) (snd (walk rest))).
Proof.
  revert e rest. induction fuel as [|fuel IH]; intros e rest Hf; [lia|].
  cbn [entry_loop]. rewrite walk_unfold. destruct rest as [|b r]; [done|]. set (buf := b :: r) in *.
  destruct (read_tag buf) as [[[f w] c]|err] eqn:Ht; [|by apply read_tag_error in Ht as ->].
  rewrite entry_field_step. destruct (read_value w (zdrop c buf)) as [[v c']|] eqn:Hv; [|done].
  pose proof (field_shorter _ _ _ _ _ _ Ht Hv) as Hs.
  destruct (walk (zdrop c' (zdrop c buf))) as [fs whole] eqn:Hw. cbn [fst snd take_fields].
  destruct (entry_step e (f, v)) as [e'|]; [|done]. rewrite IH by lia. by rewrite Hw.
Qed.

Lemma decode_process_entry_fold buf : decode_process_entry buf = Some (entry_of buf).
Proof.
  unfold decode_process_entry, entry_of. rewrite entry_loop_fold by lia. by destruct (walk buf).
Qed.

Lemma app_processes_fold buf : decode_app_processes buf = Some (entries_of buf).
Proof.
  unfold decode_app_processes, decode_repeated_field1, entries_of.
  rewrite (repeated_loop_fold _ entry_of); [by destruct (walk buf)| |lia].
  exact decode_process_entry_fold.
Qed.

(** The decoder ends on every payload, with a round's fuel per byte, and its
    result is the fold over the payload's fields in order: a process for every
    length-delimited field 1, built by the last value of each of its fields and
    by every package name; fields with other numbers or other wire types are
    passed over; and the first of a field cut short, an unknown wire type and a
    string that is not UTF-8 is the error. *)
Theorem decode_is_fold buf :
  decode_process_entry buf = Some (entry_of buf) ∧ decode_app_processes buf = Some (entries_of buf).
Proof. split; [apply decode_process_entry_fold|apply app_processes_fold]. Qed.

(** ** What a device writes *)

(** The two's complement of a signed 64-bit value. *)
Definition i64_bits (z : Z) : Z := z mod 2 ^ 64.

Definition bool_bits (b : bool) : Z := if b then 1 else 0.

(** The fields of an entry; those that are absent are not written. *)
Definition entry_fields (e : ProcessEntry) : list field :=
  [(1, Varint (i64_bits (pid e))); (2, Varint (bool_bits (debuggable e)));
   (3, Varint (bool_bits (profileable e))); (4, Delimited (architecture e))] ++
  match user_id e with Some v => [(5, Varint (i64_bits v))] | None => [] end ++
  match process_name e with Some s => [(6, Delimited s)] | None => [] end ++
  ((λ s, (7, Delimited s)) <$> package_names e) ++
  match waiting_for_debugger e with Some b => [(8, Varint (bool_bits b))] | None => [] end ++
  match uid e with Some v => [(9, Varint (i64_bits v))] | None => [] end.

Definition is_i64 (z : Z) : Prop := - 2 ^ 63 <= z < 2 ^ 63.

Definition text_ok (b : bytes) : Prop := from_utf8 b = true ∧ len b < 2 ^ 63.

Record entry_ok (e : ProcessEntry) : Prop := {
  eo_pid : is_i64 (pid e);
  eo_user : ∀ v, user_id e = Some v → is_i64 v;
  eo_uid : ∀ v, uid e = Some v → is_i64 v;
  eo_arch : text_ok (architecture e);
  eo_name : ∀ s, process_name e = Some s → text_ok s;
  eo_packages : Forall text_ok (package_names e);
}.

(** A field of a later version of the format. *)
Definition unknown (f : field) : Prop := field_ok f ∧ (fst f = 0 ∨ 9 < fst f).

(** A snapshot: the processes, each with fields a later version added. *)
Definition snapshot_fields (es : list (ProcessEntry * list field)) : list field :=
  (λ x, (1, Delimited (encode_fields (entry_fields (fst x) ++ snd x)))) <$> es.

Lemma i64_bits_back z : is_i64 z → as_i64 (i64_bits z) = z.
Proof.
  unfold is_i64, as_i64, i64_bits. intros Hz. destruct (decide (0 <= z)).
  - rewrite Z.mod_small by lia. destruct (Z.ltb_spec z (2 ^ 63)); lia.
  - assert (z mod 2 ^ 64 = z + 2 ^ 64) as ->
      by (rewrite <- (Z.mod_add z 1), Z.mod_small by lia; lia).
    destruct (Z.ltb_spec (z + 2 ^ 64) (2 ^ 63)); lia.
Qed.

Lemma i64_bits_range z : 0 <= i64_bits z < 2 ^ 64.
Proof. apply Z.mod_pos_bound. lia. Qed.

Lemma take_fields_app {A} (step : A → field → result DecodeError A) a fs1 fs2 whole a' :
  take_fields step a fs1 true = Ok a' →
  take_fields step a (fs1 ++ fs2) whole = take_fields step a' fs2 whole.
Proof.
  revert a. induction fs1 as [|f fs1 IH]; intros a; simpl; [by intros [= ->]|].
  destruct (step a f); [apply IH|done].
Qed.

Lemma number_ok n z : 0 <= n < 2 ^ 61 → field_ok (n, Varint (i64_bits z)).
Proof. intros Hn. split; [done|]. apply i64_bits_range. Qed.

Lemma bool_ok n b : 0 <= n < 2 ^ 61 → field_ok (n, Varint (bool_bits b)).
Proof. intros Hn. split; [done|]. destruct b; simpl; lia. Qed.

Lemma string_ok n s : 0 <= n < 2 ^ 61 → text_ok s → field_ok (n, Delimited s).
Proof. by intros Hn [_ Hs]. Qed.

Lemma entry_fields_ok e : entry_ok e → Forall field_ok (entry_fields e).
Proof.
  intros [H1 H2 H3 H4 H5 H6]. unfold entry_fields.
  repeat apply Forall_app_2.
  - apply Forall_cons_2; [by apply number_ok|]. do 2 (apply Forall_cons_2; [by apply bool_ok|]).
    apply Forall_singleton. by apply string_ok.
  - destruct (user_id e); [|done]. apply Forall_singleton. by apply number_ok.
  - destruct (process_name e); [|done]. apply Forall_singleton. apply string_ok; [lia|by apply H5].
  - apply Forall_fmap. eapply Forall_impl; [exact H6|]. intros s Hs. by apply string_ok.
  - destruct (waiting_for_debugger e); [|done]. apply Forall_singleton. by apply bool_ok.
  - destruct (uid e); [|done]. apply Forall_singleton. by apply number_ok.
Qed.

Lemma packages_taken ps e :
  Forall text_ok ps →
  take_fields entry_step e ((λ s, (7, Delimited s)) <$> ps) true
  = Ok (mkEntry (pid e) (debuggable e) (profileable e) (architecture e) (user_id e) (process_name e)
          (package_names e ++ ps) (waiting_for_debugger e) (uid e)).
Proof.
  intros Hps. revert e. induction Hps as [|s ps [Hu _] _ IH]; intros e; simpl.
  - rewrite app_nil_r. by destruct e.
  - rewrite Hu. rewrite IH. unfold push_package_name. simpl. by rewrite <- app_assoc.
Qed.

Lemma bool_bits_back b : negb (bool_bits b =? 0) = b.
Proof. by destruct b. Qed.

Lemma entry_fields_taken e :
  entry_ok e → take_fields entry_step entry_default (entry_fields e) true = Ok e.
Proof.
  intros [H1 H2 H3 [H4 _] H5 H6]. unfold entry_fields.
  set (base := mkEntry (pid e) (debuggable e) (profileable e) (architecture e)).
  rewrite (take_fields_app _ _ _ _ _ (base None None [] None None)).
  2: { cbn [take_fields entry_step]. rewrite H4, i64_bits_back, !bool_bits_back by done. done. }
  rewrite (take_fields_app _ _ _ _ _ (base (user_id e) None [] None None)).
  2: { destruct (user_id e) as [v|]; [|done]. cbn [take_fields entry_step].
       by rewrite i64_bits_back by auto. }
  rewrite (take_fields_app _ _ _ _ _ (base (user_id e) (process_name e) [] None None)).
  2: { destruct (process_name e) as [s|]; [|done]. destruct (H5 s eq_refl) as [Hu _].
       cbn [take_fields entry_step]. by rewrite Hu. }
  rewrite (take_fields_app _ _ _ _ _ (base (user_id e) (process_name e) (package_names e) None None))
    by (by rewrite packages_taken).
  rewrite (take_fields_app _ _ _ _ _
    (base (user_id e) (process_name e) (package_names e) (waiting_for_debugger e) None)).
  2: { destruct (waiting_for_debugger e) as [b|]; [|done]. cbn [take_fields entry_step].
       by rewrite bool_bits_back. }
  destruct (uid e) as [v|] eqn:Hv; cbn [take_fields entry_step].
  - rewrite i64_bits_back by auto. unfold set_uid, base. simpl. rewrite <- Hv. by destruct e.
  - rewrite <- Hv. by destruct e.
Qed.

Lemma unknown_taken e fs : Forall unknown fs → take_fields entry_step e fs true = Ok e.
Proof.
  induction 1 as [|[f v] fs [_ Hf] _ IH]; [done|]. cbn [take_fields].
  assert (entry_step e (f, v) = Ok e) as ->; [|exact IH].
  unfold entry_step. simpl in Hf. field_cases f; try done; lia.
Qed.

(** A process list reads back exactly: every field of every process, with
    signed 64-bit numbers, optional fields absent or present, package names in
    order, whatever fields with other numbers a later version of the format
    adds to the processes. *)
Theorem entries_round_trip es :
  Forall (λ x, entry_ok (fst x) ∧ Forall unknown (snd x) ∧
               len (encode_fields (entry_fields (fst x) ++ snd x)) < 2 ^ 63) es →
  decode_app_processes (encode_fields (snapshot_fields es)) = Some (Ok (fst <$> es)).
Proof.
  intros Hes. rewrite app_processes_fold. unfold entries_of. rewrite walk_encoded.
  2: { apply Forall_fmap. eapply Forall_impl; [exact Hes|]. intros x (_ & _ & Hl). split; [by cbn [fst]|exact Hl]. }
  f_equal. change (fst <$> es) with ([] ++ (fst <$> es)). generalize (@nil ProcessEntry).
  induction Hes as [|[e us] es (He & Hu & _) _ IH]; intros acc; [by rewrite app_nil_r|].
  unfold snapshot_fields. rewrite !fmap_cons. fold (snapshot_fields es). cbn [fst snd] in *.
  cbn [take_fields repeated_step]. unfold entry_of. rewrite walk_encoded.
  2: { apply Forall_app_2; [by apply entry_fields_ok|]. eapply Forall_impl; [exact Hu|]. by intros ? []. }
  rewrite (take_fields_app _ _ _ _ _ e) by (by apply entry_fields_taken).
  rewrite unknown_taken by done. rewrite IH. by rewrite <- app_assoc.
Qed.

(** ** Snapshots from a channel *)

Section Snapshots.
Context {Ses IoE : Type} `{SessionLaws Ses IoE} (fuel : nat) (ch : ChannelId) (cap : Z).
Abbreviation input := (input ch).
Abbreviation ready := (ready fuel ch cap).

Lemma hex_digit_range b d : hex_digit b = Some d → 0 <= d < 16.
Proof.
  unfold hex_digit, in_range. repeat case_match; intros Hd; simplify_eq; bool_facts; lia.
Qed.

Lemma hex_loop_range l v n : 0 <= v → hex_loop v l = Some n → v * 16 ^ len l <= n < (v + 1) * 16 ^ len l.
Proof.
  revert v. induction l as [|b l IH]; intros v Hv; simpl; [intros [= <-]; rewrite len_nil; lia|].
  destruct (hex_digit b) as [d|] eqn:Hd; simpl; [|done]. apply hex_digit_range in Hd. intros Hn.
  apply IH in Hn; [|lia]. rewrite len_cons, Z.pow_add_r by (zlen_facts; lia). change (16 ^ 1) with 16. nia.
Qed.

Lemma parse_hex4_range b n : parse_hex4 b = Some n → 0 <= n < 2 ^ 16.
Proof.
  unfold parse_hex4. destruct (Z.ltb_spec (len b) 4); [done|]. intros Hn.
  apply hex_loop_range in Hn; [|lia]. rewrite len_ztake in Hn.
  replace (Z.min (Z.max 0 4) (len b)) with 4 in Hn by lia. lia.
Qed.

(** What is read of a stream that goes on with [inp]: the frame's length, where
    it has one, and its payload. *)
Definition prefix_of (inp : bytes) : option Z := parse_hex4 (ztake HEX_LEN_PREFIX inp).
Definition payload_of (inp : bytes) (n : Z) : bytes := ztake n (zdrop HEX_LEN_PREFIX inp).

(** A fill, or the refusal of one the buffer cannot hold. *)
Lemma wp_fill_or_full n (Q : outcome (Error IoE) unit → RecvBuf * Ses → Prop) p :
  ready p → (cap < n → Q (Fail Error.ReceiveBufferFull) p) →
  (n <= cap → ∀ p1, ready p1 → puts (snd p) ch [] (snd p1) → input p1 = input p →
    n <= len (unread (fst p1)) → Q (Ret tt) p1) →
  (∀ e p1, ses_failed (Ses := Ses) ch e → Q (Fail e) p1) → (∀ p1, Q Dropped p1) →
  wp (fill_at_least fuel ch n) Q p.
Proof.
  intros Hr Hfull Hfill HF HD. destruct (Z.ltb_spec cap n) as [Hc|Hc].
  - unfold fill_at_least. apply wp_bind, wp_gets. destruct Hr as (_ & -> & _).
    destruct (Z.ltb_spec cap n); [|lia]. by apply Hfull.
  - eapply wp_fill; eauto.
Qed.

(** How a call ends whose stream went on with [inp]. *)
Definition snapshot_end (p : RecvBuf * Ses) (inp : bytes) (o : outcome (Error IoE) (list ProcessEntry))
    (p' : RecvBuf * Ses) : Prop :=
  match o with
  | Ret entries =>
      ∃ n, prefix_of inp = Some n ∧ HEX_LEN_PREFIX + n <= Z.min cap (len inp) ∧
        entries_of (payload_of inp n) = Ok entries ∧
        ready p' ∧ input p' = zdrop (HEX_LEN_PREFIX + n) inp ∧ puts (snd p) ch [] (snd p')
  | Fail e =>
      ses_failed (Ses := Ses) ch e ∨
      (ready p' ∧ puts (snd p) ch [] (snd p') ∧
       ((∃ n err, prefix_of inp = Some n ∧ HEX_LEN_PREFIX + n <= Z.min cap (len inp) ∧
           entries_of (payload_of inp n) = Err err ∧ e = Error.Decode err ∧
           input p' = zdrop (HEX_LEN_PREFIX + n) inp) ∨
        (e = Error.Decode DecodeError.InvalidLengthPrefix ∧ prefix_of inp = None ∧
           HEX_LEN_PREFIX <= len inp ∧ input p' = inp) ∨
        (e = Error.ReceiveBufferFull ∧ input p' = inp ∧
           (cap < HEX_LEN_PREFIX ∨ ∃ n, prefix_of inp = Some n ∧ cap < HEX_LEN_PREFIX + n))))
  | Dropped => True
  | Panicked | NoFuel => False
  end.

(** One call of [read_snapshot] takes one frame off the channel's byte stream,
    however it is cut into packets, and returns the processes its payload
    decodes to; nothing is sent.  A payload that does not decode is reported
    and taken off all the same, so that it costs only itself.  A prefix that is
    not four hex digits and a frame the buffer cannot hold are reported and
    taken off by no call.  The call never panics and always ends. *)
Theorem snapshots_read p :
  ready p → let '(o, p') := read_snapshot fuel ch p in snapshot_end p (input p) o p'.
Proof.
  intros Hr. set (inp := input p).
  enough (wp (read_snapshot fuel ch) (λ o p', snapshot_end p inp o p') p) as Hw.
  { unfold wp in Hw. by destruct (read_snapshot fuel ch p). }
  unfold read_snapshot. apply wp_bind, wp_fill_or_full; [done|..].
  { intros Hc. right. split; [done|]. split; [apply puts_nil|]. right. right. split; [done|]. auto. }
  2: { intros e p1 He. by left. }
  2: done.
  intros Hc p1 Hr1 Hp1 Hi1 Hl1. apply wp_bind, wp_peek; [apply Hr1|done|].
  pose proof (len_input ch p1) as Hle1. rewrite Hi1 in Hle1. fold inp in Hi1, Hle1.
  assert (ztake HEX_LEN_PREFIX (unread (fst p1)) = ztake HEX_LEN_PREFIX inp) as ->
    by (rewrite <- Hi1; unfold input; by rewrite ztake_app_le).
  change (parse_hex4 (ztake HEX_LEN_PREFIX inp)) with (prefix_of inp).
  destruct (prefix_of inp) as [n|] eqn:Hn.
  2: { right. split; [done|]. split; [done|]. right. left. split_and!; [done..|lia|done]. }
  pose proof (parse_hex4_range _ _ Hn) as Hn0.
  apply wp_bind, wp_fill_or_full; [done|..].
  { intros Hbig. right. split; [done|]. split; [done|]. right. right. split_and!; [done..|].
    right. by exists n. }
  2: { intros e p2 He. by left. }
  2: done.
  intros Hfit p2 Hr2 Hp2 Hi2 Hl2. rewrite Hi1 in Hi2. apply wp_bind, wp_peek; [apply Hr2|done|].
  pose proof (len_input ch p2) as Hle2. rewrite Hi2 in Hle2.
  assert (zdrop HEX_LEN_PREFIX (ztake (HEX_LEN_PREFIX + n) (unread (fst p2))) = payload_of inp n) as ->.
  { unfold payload_of. rewrite <- Hi2. unfold input, HEX_LEN_PREFIX.
    rewrite <- (ztake_app_le (4 + n) _ (inbox (snd p2) ch)) by done.
    rewrite !ztake_take, !zdrop_drop, skipn_firstn_comm. f_equal. lia. }
  rewrite app_processes_fold. apply wp_bind. eapply wp_advance; [done|unfold HEX_LEN_PREFIX in *; lia|].
  intros p3 Hr3 Hs3 Hi3 _. rewrite Hi2 in Hi3. apply wp_lift.
  assert (puts (snd p) ch [] (snd p3)) as Hp3 by (rewrite Hs3; exact (puts_app _ _ _ _ _ _ Hp1 Hp2)).
  destruct (entries_of (payload_of inp n)) as [es|err] eqn:He; simpl.
  - exists n. split_and!; [done|lia|done..].
  - right. split; [done|]. split; [done|]. left. exists n, err. split_and!; [done|lia|done..].
Qed.
End Snapshots.

(** ** A sample stream *)

Definition sample_entry : ProcessEntry :=
  mkEntry (-7) true false (bs "arm64") None (Some (bs "com.a")) [bs "com.a"; bs "com.b"] (Some false)
    (Some 10042).

Definition later_field : field := (12, Fixed32 [x00; x01; x02; x03]).

Lemma entries_round_trip_witness :
  decode_app_processes (encode_fields (snapshot_fields [(sample_entry, [later_field])]))
  = Some (Ok [sample_entry]).
Proof.
  apply (entries_round_trip [(sample_entry, [later_field])]). apply Forall_singleton.
  split; [|split].
  - split; simpl; try (intros ? [= <-]); try done.
    repeat (apply Forall_cons_2; [done|]). done.
  - apply Forall_singleton. split; [|right; simpl; lia]. split; [simpl; lia|done].
  - by vm_compute.
Defined.

(** A frame of one process, and one that does not decode. *)
Definition sample_frame : bytes := bs "0004" ++ [x0a; x02; x08; x07].
Definition sample_bad_frame : bytes := bs "0002" ++ [x0a; x7f].

#[local] Instance track_session : Session (conn Script.script) Script.error := conn_session 10.
#[local] Instance track_laws : SessionLaws (conn Script.script) Script.error := conn_session_laws 10.

Lemma snapshots_read_witness :
  let p := sync_start 64 (sample_bad_frame ++ sample_frame) in
  let '(o, p') := read_snapshot 100 sync_ch p in
  o = Fail (Error.Decode DecodeError.InvalidProtobuf) ∧
  snapshot_end 100 sync_ch 64 p (input sync_ch p) o p' ∧
  fst (read_snapshot 100 sync_ch p') = Ret [set_pid 7 entry_default].
Proof.
  cbv zeta. set (p := sync_start 64 (sample_bad_frame ++ sample_frame)).
  assert (ready 100 sync_ch 64 p) as Hr by (apply (sync_start_ready 64); vm_compute; lia).
  pose proof (snapshots_read 100 sync_ch 64 p Hr) as Hs.
  assert (let '(o, p') := read_snapshot (IoE := Script.error) 100 sync_ch p in
    o = Fail (Error.Decode DecodeError.InvalidProtobuf) ∧
    fst (read_snapshot (IoE := Script.error) 100 sync_ch p') = Ret [set_pid 7 entry_default]) as He
    by (vm_compute; split; reflexivity).
  destruct (read_snapshot 100 sync_ch p) as [o p']. destruct He as [He1 He2].
  split; [exact He1|]. split; [exact Hs|exact He2].
Defined.
