(* ===== verification/Reverse.v ===== *)
(** * Reverse forwards ([reverse.rs])

    The requests of the [reverse:] service and the parsers of its replies.
    [replies_read_back] shows that the parsers return what a device put into a
    reply; [reverse_calls] what each call asks, reads and closes, over any
    session. *)

From S2P Require Import Prelude Errors Protocol Text ChannelTable Wire Connection Demux.
From S2P Require Import Config Banner Slot Destination Session RecvBuf Protobuf.

Definition REPLY_CAP : Z := 64 * 1024.

(** [ReverseRule]. *)
Record ReverseRule : Type := mkRule { rr_serial : bytes; rr_remote : bytes; rr_local : bytes }.

(** ** Replies *)

Definition is_ascii_hexdigit (b : byte) : bool := bool_decide (is_Some (hex_digit b)).

(** [hex4_block]: [usize::from_str_radix] of hex digits alone is their value. *)
Definition hex4_block (b : bytes) : option bytes :=
  if len b <? 4 then None
  else
    let prefix := ztake 4 b in
    if negb (forallb is_ascii_hexdigit prefix) then None
    else
      if from_utf8 prefix then
        n ← hex_loop 0 prefix;
        let body := zdrop 4 b in
        if len body =? n then Some body else None
      else None.

Definition fail_message (rest : bytes) : ReverseError :=
  ReverseError.Failed (default rest (hex4_block rest)).

Definition parse_status (reply : bytes) : result ReverseError bytes :=
  if len reply <? 4 then Err ReverseError.UnexpectedReply
  else if bool_decide (ztake 4 reply = bs "OKAY") then
    let rest := zdrop 4 reply in
    match rest with
    | [] => Ok []
    | _ => ok_or ReverseError.UnexpectedReply (hex4_block rest)
    end
  else if bool_decide (ztake 4 reply = bs "FAIL") then Err (fail_message (zdrop 4 reply))
  else Err ReverseError.UnexpectedReply.

(** [str::parse] of decimal digits alone, into a type with the given bound. *)
Definition parse_digits (max : Z) (ds : bytes) : option Z :=
  match ds with
  | [] => None
  | _ => if decimal_val ds <=? max then Some (decimal_val ds) else None
  end.

Definition parse_port (data : bytes) : result ReverseError (option Z) :=
  match data with
  | [] => Ok None
  | _ =>
      let digits := default data (strip_prefix (bs "-") data) in
      if negb (forallb is_digit digits) then Err ReverseError.UnexpectedReply
      else
        let port :=
          if from_utf8 data then
            if starts_with (bs "-") data then
              n ← parse_digits (2 ^ 31) digits; Some (wrap_u32 (- n))
            else parse_digits U32_MAX data
          else None in
        match port with Some p => Ok (Some p) | None => Err ReverseError.UnexpectedReply end
  end.

Definition strip_newline (block : bytes) : bytes :=
  match last block with
  | Some b => if bool_decide (b = x0a) then ztake (len block - 1) block else block
  | None => block
  end.

(** [line.splitn(3, ' ')]. *)
Definition parse_rule (line : bytes) : option ReverseRule :=
  '(serial, rest) ← split_once x20 line;
  '(remote, loc) ← split_once x20 rest;
  Some (mkRule serial remote loc).

Definition parse_listing (block : bytes) : result ReverseError (list ReverseRule) :=
  match block with
  | [] => Ok []
  | _ => ok_or ReverseError.UnexpectedReply (mapM parse_rule (split (eqb x0a) (strip_newline block)))
  end.

(** What [establish] and [list] make of a whole reply. *)
Definition port_reply (reply : bytes) : result ReverseError (option Z) :=
  data ← parse_status reply; parse_port data.

Definition unit_reply (reply : bytes) : result ReverseError unit :=
  _ ← parse_status reply; Ok tt.

Definition raw_reply (reply : bytes) : result ReverseError bytes :=
  if starts_with (bs "FAIL") reply then Err (fail_message (zdrop 4 reply))
  else ok_or ReverseError.UnexpectedReply (hex4_block reply).

Definition list_reply (reply : bytes) : result ReverseError (list ReverseRule) :=
  block ← raw_reply reply; parse_listing block.

(** ** Calls *)

Section Calls.
Context {Ses IoE : Type} `{Session Ses IoE}.

Definition check_specs (specs : list bytes) : prog Ses (Error IoE) unit :=
  if existsb has_nul specs then fail (Error.Protocol ProtocolError.InvalidDestination) else mret tt.

(** [exchange]: a buffer of its own for the reads. *)
Definition exchange (fuel : nat) (dest : bytes) : prog Ses (Error IoE) bytes :=
  ch ← s_open_channel dest;
  reply ← (λ s, let '(o, (_, s')) := read_to_vec fuel ch REPLY_CAP (replicate 512 x00, s) in (o, s'));
  match reply with
  | Some reply => mret reply
  | None => fail (Error.Reverse ReverseError.UnexpectedReply)
  end.

Definition forward_dest (device_spec host_spec : bytes) : bytes :=
  bs "reverse:forward:" ++ device_spec ++ bs ";" ++ host_spec ++ [x00].
Definition kill_dest (device_spec : bytes) : bytes :=
  bs "reverse:killforward:" ++ device_spec ++ [x00].
Definition kill_all_dest : bytes := bs "reverse:killforward-all" ++ [x00].
Definition list_dest : bytes := bs "reverse:list-forward" ++ [x00].

Definition establish (fuel : nat) (device_spec host_spec : bytes) : prog Ses (Error IoE) (option Z) :=
  check_specs [device_spec; host_spec] ≫= λ _,
  reply ← exchange fuel (forward_dest device_spec host_spec);
  data ← lift (map_err Error.Reverse (parse_status reply));
  lift (map_err Error.Reverse (parse_port data)).

Definition remove (fuel : nat) (device_spec : bytes) : prog Ses (Error IoE) unit :=
  check_specs [device_spec] ≫= λ _,
  reply ← exchange fuel (kill_dest device_spec);
  lift (map_err Error.Reverse (parse_status reply)) ≫= λ _, mret tt.

Definition remove_all (fuel : nat) : prog Ses (Error IoE) unit :=
  reply ← exchange fuel kill_all_dest;
  lift (map_err Error.Reverse (parse_status reply)) ≫= λ _, mret tt.

Definition list_raw (fuel : nat) : prog Ses (Error IoE) bytes :=
  reply ← exchange fuel list_dest;
  if starts_with (bs "FAIL") reply then fail (Error.Reverse (fail_message (zdrop 4 reply)))
  else lift (ok_or (Error.Reverse ReverseError.UnexpectedReply) (hex4_block reply)).

Definition list_rules (fuel : nat) : prog Ses (Error IoE) (list ReverseRule) :=
  listing ← list_raw fuel;
  lift (map_err Error.Reverse (parse_listing listing)).
End Calls.

(** ** What a device answers *)

(** [%04x]. *)
Definition hex_byte (d : Z) : byte := b8 (if d <? 10 then 0x30 + d else 0x57 + d).
Definition hex4 (n : Z) : bytes :=
  [hex_byte (n / 4096); hex_byte (n / 256 mod 16); hex_byte (n / 16 mod 16); hex_byte (n mod 16)].

Definition block (body : bytes) : bytes := hex4 (len body) ++ body.

(** A line of the listing. *)
Definition rule_line (r : ReverseRule) : bytes := rr_serial r ++ x20 :: rr_remote r ++ x20 :: rr_local r.
Definition listing (rules : list ReverseRule) : bytes := concat ((λ r, rule_line r ++ [x0a]) <$> rules).

(** What adbd can print so that a line is one rule: no line break anywhere, no
    space in the first two fields. *)
Definition rule_ok (r : ReverseRule) : Prop :=
  x0a ∉ rule_line r ∧ x20 ∉ rr_serial r ∧ x20 ∉ rr_remote r.

Lemma hex_digit_byte d : 0 <= d < 16 → hex_digit (hex_byte d) = Some d.
Proof.
  intros Hd. unfold hex_digit, hex_byte, in_range. rewrite u8_b8.
  destruct (Z.ltb_spec d 10); rewrite Z.mod_small by lia; repeat case_match; bool_facts; f_equal; lia.
Qed.

Lemma from_utf8_ascii l : Forall (λ b, u8 b < 0x80) l → from_utf8 l = true.
Proof.
  induction 1 as [|b l Hb _ IH]; simpl; [done|]. by destruct (Z.ltb_spec (u8 b) 128); [|lia].
Qed.

Lemma hex_byte_ascii d : 0 <= d < 16 → u8 (hex_byte d) < 0x80.
Proof.
  intros Hd. unfold hex_byte. rewrite u8_b8. destruct (Z.ltb_spec d 10); rewrite Z.mod_small; lia.
Qed.

Lemma hex4_digits n :
  0 <= n < 2 ^ 16 →
  ∃ a b c d, hex4 n = [hex_byte a; hex_byte b; hex_byte c; hex_byte d] ∧
    0 <= a < 16 ∧ 0 <= b < 16 ∧ 0 <= c < 16 ∧ 0 <= d < 16 ∧ n = 16 * (16 * (16 * a + b) + c) + d.
Proof.
  intros Hn. exists (n / 4096), (n / 256 mod 16), (n / 16 mod 16), (n mod 16). split; [done|].
  pose proof (Z.div_mod n 16 ltac:(lia)). pose proof (Z.mod_pos_bound n 16 ltac:(lia)).
  pose proof (Z.div_mod (n / 16) 16 ltac:(lia)). pose proof (Z.mod_pos_bound (n / 16) 16 ltac:(lia)).
  pose proof (Z.div_mod (n / 16 / 16) 16 ltac:(lia)).
  pose proof (Z.mod_pos_bound (n / 16 / 16) 16 ltac:(lia)).
  rewrite !Z.div_div in * by lia. change (16 * 16) with 256 in *. change (256 * 16) with 4096 in *.
  assert (0 <= n / 4096 < 16) by (split; [apply Z.div_pos; lia|apply Z.div_lt_upper_bound; lia]). lia.
Qed.

(** A block reads back. *)
Lemma block_back body : len body < 2 ^ 16 → hex4_block (block body) = Some body.
Proof.
  intros Hl. pose proof (len_nonneg body). unfold hex4_block, block.
  destruct (hex4_digits (len body) ltac:(lia)) as (a & b & c & d & -> & Ha & Hb & Hc & Hd & Hn).
  set (ds := [hex_byte a; hex_byte b; hex_byte c; hex_byte d]).
  assert (len ds = 4) as Hds by done. rewrite len_app, Hds.
  destruct (Z.ltb_spec (4 + len body) 4); [lia|].
  rewrite (ztake_app_len ds body), (zdrop_app_len ds body) by done.
  assert (forallb is_ascii_hexdigit ds = true) as ->.
  { unfold ds, is_ascii_hexdigit. simpl. by rewrite !hex_digit_byte by done. }
  rewrite from_utf8_ascii by (repeat (apply Forall_cons_2; [by apply hex_byte_ascii|]); done).
  unfold ds. simpl. rewrite !hex_digit_byte by done. simpl.
  destruct (Z.eqb_spec (len body) ((((0 * 16 + a) * 16 + b) * 16 + c) * 16 + d)); [done|lia].
Qed.

Lemma okay_back body :
  len body < 2 ^ 16 → parse_status (bs "OKAY" ++ block body) = Ok body.
Proof.
  intros Hl. unfold parse_status. rewrite (ztake_app_len (bs "OKAY")), (zdrop_app_len (bs "OKAY")) by done.
  destruct (Z.ltb_spec (len (bs "OKAY" ++ block body)) 4) as [Hs|_].
  { rewrite len_app in Hs. change (len (bs "OKAY")) with 4 in Hs. pose proof (len_nonneg (block body)). lia. }
  rewrite bool_decide_true by done. destruct (block body) as [|x l] eqn:Hb; [done|].
  rewrite <- Hb, block_back by done. done.
Qed.

Lemma fail_back msg :
  len msg < 2 ^ 16 → parse_status (bs "FAIL" ++ block msg) = Err (ReverseError.Failed msg).
Proof.
  intros Hl. unfold parse_status. rewrite (ztake_app_len (bs "FAIL")), (zdrop_app_len (bs "FAIL")) by done.
  destruct (Z.ltb_spec (len (bs "FAIL" ++ block msg)) 4) as [Hs|_].
  { rewrite len_app in Hs. change (len (bs "FAIL")) with 4 in Hs. pose proof (len_nonneg (block msg)). lia. }
  rewrite bool_decide_false, bool_decide_true by done. unfold fail_message. by rewrite block_back.
Qed.

(** The ports: digits, with the minus sign of a port above [i32::MAX] printed
    as a C [int]. *)
Lemma digits_ascii ds : Forall (λ d, is_digit d) ds → Forall (λ b, u8 b < 0x80) ds.
Proof.
  intros Hd. eapply Forall_impl; [exact Hd|]. intros b Hb%Is_true_true. unfold is_digit, in_range in Hb.
  bool_facts. lia.
Qed.

Lemma digits_all ds : Forall (λ d, is_digit d) ds → forallb is_digit ds = true.
Proof. induction 1 as [|d ds Hd _ IH]; simpl; [done|]. apply Is_true_true in Hd. by rewrite Hd, IH. Qed.

Lemma parse_port_nonempty data :
  data ≠ [] →
  parse_port data =
    let digits := default data (strip_prefix (bs "-") data) in
    if negb (forallb is_digit digits) then Err ReverseError.UnexpectedReply
    else
      match (if from_utf8 data then
               if starts_with (bs "-") data then
                 n ← parse_digits (2 ^ 31) digits; Some (wrap_u32 (- n))
               else parse_digits U32_MAX data
             else None) with
      | Some p => Ok (Some p)
      | None => Err ReverseError.UnexpectedReply
      end.
Proof. by destruct data. Qed.

Lemma port_back ds :
  ds ≠ [] → Forall (λ d, is_digit d) ds →
  parse_port ds = if decimal_val ds <=? U32_MAX then Ok (Some (decimal_val ds))
                  else Err ReverseError.UnexpectedReply.
Proof.
  intros Hne Hd. unfold parse_port. destruct ds as [|d ds']; [done|]. set (ds := d :: ds') in *.
  assert (strip_prefix (bs "-") ds = None) as Hs.
  { unfold ds. simpl. rewrite bool_decide_false; [done|]. intros <-. apply Forall_inv in Hd. done. }
  unfold starts_with. rewrite Hs. cbn [default]. rewrite digits_all by done. cbn [negb].
  rewrite from_utf8_ascii by (by apply digits_ascii). rewrite bool_decide_false by (by intros []).
  unfold parse_digits. unfold ds at 1. by destruct (decimal_val ds <=? U32_MAX).
Qed.

Lemma negative_port_back ds :
  ds ≠ [] → Forall (λ d, is_digit d) ds →
  parse_port (bs "-" ++ ds) = if decimal_val ds <=? 2 ^ 31 then Ok (Some (wrap_u32 (- decimal_val ds)))
                              else Err ReverseError.UnexpectedReply.
Proof.
  intros Hne Hd. rewrite parse_port_nonempty by done. cbv zeta.
  unfold starts_with. rewrite strip_prefix_app. cbn [default]. rewrite digits_all by done. cbn [negb].
  rewrite from_utf8_ascii, bool_decide_true.
  - unfold parse_digits. destruct ds as [|d ds']; [done|]. by destruct (_ <=? 2 ^ 31).
  - eauto.
  - apply Forall_app. split; [by apply Forall_singleton|by apply digits_ascii].
Qed.

(** The listing. *)
Lemma parse_rule_back r : rule_ok r → parse_rule (rule_line r) = Some r.
Proof.
  intros (_ & Hs & Hr). unfold parse_rule, rule_line.
  rewrite (proj2 (split_once_some x20 _ (rr_serial r) (rr_remote r ++ x20 :: rr_local r))) by done.
  simpl. rewrite (proj2 (split_once_some x20 _ (rr_remote r) (rr_local r))) by done.
  by destruct r.
Qed.

Lemma listing_join r rules :
  listing (r :: rules) = join x0a (rule_line <$> (r :: rules)) ++ [x0a].
Proof.
  revert r. induction rules as [|r' rules IH]; intros r; [by unfold listing; simpl; rewrite app_nil_r|].
  change (listing (r :: r' :: rules)) with ((rule_line r ++ [x0a]) ++ listing (r' :: rules)).
  rewrite IH. change (join x0a (rule_line <$> r :: r' :: rules))
    with (rule_line r ++ x0a :: join x0a (rule_line <$> r' :: rules)).
  by rewrite <- !app_assoc.
Qed.

Lemma parse_listing_back rules : Forall rule_ok rules → parse_listing (listing rules) = Ok rules.
Proof.
  intros Hok. destruct rules as [|r rules]; [done|]. rewrite listing_join.
  set (body := join x0a _). unfold parse_listing. destruct (body ++ [x0a]) as [|b l] eqn:Hb.
  { by apply app_eq_nil in Hb as [_ ?]. }
  rewrite <- Hb. clear Hb b l.
  assert (strip_newline (body ++ [x0a]) = body) as ->.
  { unfold strip_newline. rewrite last_snoc, bool_decide_true by done.
    apply ztake_app_len. rewrite len_app. change (len [x0a]) with 1. lia. }
  unfold body. rewrite split_join; [|by apply eqb_true|done|].
  - assert (mapM parse_rule (rule_line <$> r :: rules) = Some (r :: rules)) as ->; [|done].
    clear body. induction Hok as [|r0 rs Hr _ IH]; [done|].
    change (mapM parse_rule (rule_line <$> r0 :: rs)) with
      (y ← parse_rule (rule_line r0); k ← mapM parse_rule (rule_line <$> rs); mret (y :: k)).
    by rewrite parse_rule_back, IH.
  - apply Forall_fmap. eapply Forall_impl; [exact Hok|]. intros r0 (Hn & _ & _).
    apply Forall_forall. intros x Hx. apply eqb_false. intros ->. done.
Qed.

Lemma starts_with_true p l : starts_with p (p ++ l) = true.
Proof. unfold starts_with. rewrite strip_prefix_app. by apply bool_decide_eq_true. Qed.

(** A block's prefix is no FAIL. *)
Lemma block_no_fail body : len body < 2 ^ 16 → starts_with (bs "FAIL") (block body) = false.
Proof.
  intros Hl. pose proof (len_nonneg body). apply bool_decide_eq_false. intros [l Hs].
  apply strip_prefix_some in Hs. unfold block in Hs.
  destruct (hex4_digits (len body) ltac:(lia)) as (a & b & c & d & He & _ & _ & Hc & _).
  rewrite He in Hs. injection Hs as _ _ Hi _. pose proof (hex_digit_byte c Hc) as Hd. by rewrite Hi in Hd.
Qed.

(** The replies of the [reverse:] service read back: a listing of rules as
    exactly those rules, an OKAY with a port as that port, printed as unsigned
    or as a C [int], an OKAY without one as none, and a failure as its text;
    a number that is no 32-bit port is refused. *)
Theorem replies_read_back rules msg ds :
  Forall rule_ok rules → len (listing rules) < 2 ^ 16 → len msg < 2 ^ 16 → len ds < 2 ^ 16 - 1 →
  ds ≠ [] → Forall (λ d, is_digit d) ds →
  let n := decimal_val ds in
  list_reply (block (listing rules)) = Ok rules ∧
  port_reply (bs "OKAY") = Ok None ∧
  port_reply (bs "OKAY" ++ block ds)
  = (if n <=? U32_MAX then Ok (Some n) else Err ReverseError.UnexpectedReply) ∧
  port_reply (bs "OKAY" ++ block (bs "-" ++ ds))
  = (if n <=? 2 ^ 31 then Ok (Some (wrap_u32 (- n))) else Err ReverseError.UnexpectedReply) ∧
  let failure := bs "FAIL" ++ block msg in
  list_reply failure = Err (ReverseError.Failed msg) ∧
  port_reply failure = Err (ReverseError.Failed msg) ∧
  unit_reply failure = Err (ReverseError.Failed msg).
Proof.
  intros Hr Hl Hm Hd Hne Hdig. cbv zeta. unfold list_reply, raw_reply, port_reply, unit_reply.
  split_and!.
  - rewrite block_no_fail, block_back by done. simpl. by apply parse_listing_back.
  - done.
  - rewrite okay_back by lia. simpl. by apply port_back.
  - rewrite okay_back by (rewrite len_app; change (len (bs "-")) with 1; lia). simpl.
    by apply (negative_port_back ds).
  - rewrite starts_with_true, (zdrop_app_len (bs "FAIL")) by done. simpl. unfold fail_message.
    by rewrite block_back.
  - by rewrite fail_back.
  - by rewrite fail_back.
Qed.

Lemma replies_read_back_witness :
  list_reply (block (listing [mkRule (bs "host-19") (bs "tcp:1") (bs "localabstract:a b")]))
  = Ok [mkRule (bs "host-19") (bs "tcp:1") (bs "localabstract:a b")] ∧
  port_reply (bs "OKAY" ++ block (bs "-" ++ bs "1294967296")) = Ok (Some 3000000000).
Proof.
  destruct (replies_read_back [mkRule (bs "host-19") (bs "tcp:1") (bs "localabstract:a b")]
    (bs "no") (bs "1294967296")) as (H1 & _ & _ & H4 & _).
  - apply Forall_singleton. split_and!; apply (contains_false _ _); by vm_compute.
  - by vm_compute.
  - by vm_compute.
  - by vm_compute.
  - done.
  - repeat (apply Forall_cons_2; [done|]). done.
  - split; [exact H1|exact H4].
Defined.

(** ** The calls *)

Section Laws.
Context {Ses IoE : Type} `{SessionLaws Ses IoE} (fuel : nat).

(** How a call ends that opened [ch] in the state [s]: the channel is closed
    again, and the outcome is what [parse] makes of all the device sent on it
    until it closed it; more than [REPLY_CAP] bytes are no reply. *)
Definition answered {A} (ch : ChannelId) (s : Ses) (parse : bytes → result ReverseError A)
    (o : outcome (Error IoE) A) (s' : Ses) : Prop :=
  o = Dropped ∨ ∃ s1, s' = snd (s_close_channel ch s1) ∧
  match o with
  | Ret a => ∃ reply, len reply <= REPLY_CAP ∧ gave ch s reply Error.ChannelClosed s1 ∧ parse reply = Ok a
  | Fail e =>
      (∃ reply err, len reply <= REPLY_CAP ∧ gave ch s reply Error.ChannelClosed s1 ∧
         parse reply = Err err ∧ e = Error.Reverse err) ∨
      (e = Error.Reverse ReverseError.UnexpectedReply ∧ ∃ out, REPLY_CAP < len out ∧ gave_more ch s out s1) ∨
      (e ≠ Error.ChannelClosed ∧ ∃ out, gave ch s out e s1)
  | _ => False
  end.

(** A call that asks with [dest] and reads its answer by [parse]. *)
Definition asks {A} (dest : bytes) (parse : bytes → result ReverseError A) (m : prog Ses (Error IoE) A)
    (s : Ses) : Prop :=
  match s_open_channel dest s with
  | (Ret ch, s1) =>
      s_ok s1 → (reads_left s1 ch < fuel)%nat → let '(o, s') := m s in answered ch s1 parse o s'
  | (o, s1) => m s = (outcome_bind o (λ _, NoFuel), s1)
  end.

Lemma exchange_asks {A} dest (parse : bytes → result ReverseError A) (k : bytes → prog Ses (Error IoE) A) s :
  (∀ reply s', k reply s' = match parse reply with
                            | Ok a => (Ret a, s')
                            | Err e => (Fail (Error.Reverse e), s')
                            end) →
  asks dest parse (exchange fuel dest ≫= k) s.
Proof.
  intros Hk. unfold asks, exchange, mbind, prog_bind.
  destruct (s_open_channel dest s) as [[ch|e| | |] s1]; try done. intros Hok Hf.
  pose proof (read_to_vec_drains fuel ch REPLY_CAP (replicate 512 x00) s1 ltac:(by vm_compute)
    ltac:(by vm_compute) Hok Hf) as Hd.
  destruct (read_to_vec fuel ch REPLY_CAP (replicate 512 x00, s1)) as [o [rx s2]].
  destruct Hd as [->|(s3 & Hs & _ & Ho)]; [by left|]. simpl in Hs.
  destruct o as [[reply|]|e| | |]; try done.
  - cbn [mret prog_ret]. rewrite Hk. destruct Ho as [Hl Hg].
    destruct (parse reply) as [a|err] eqn:Hp; right; exists s3; (split; [done|]); [by eauto|].
    left. by exists reply, err.
  - right. exists s3. split; [done|]. right. by left.
  - right. exists s3. split; [done|]. right. by right.
Qed.

End Laws.

(** ** A sample exchange *)

(** The device opens the channel, answers with a port and closes it. *)
Definition reverse_conn : conn Script.script :=
  let fr p := match frame Checksum.Skip p with Ok f => f | Err _ => [] end in
  mkConn
    (mkWire (Script.mkScript
       (fr (mkPacket Command.Ready 8 3 []) ++ fr (mkPacket Command.Write 8 3 (bs "OKAY0004"))
        ++ fr (mkPacket Command.Write 8 3 (bs "6100")) ++ fr (mkPacket Command.Close 8 3 []))
       [] [IoOk 30; IoOk 2]) [] false)
    (mkTable [None] 3 sample_policy) (c_negotiated sample_conn) [].

#[local] Instance reverse_session : Session (conn Script.script) Script.error := conn_session 10.
#[local] Instance reverse_laws : SessionLaws (conn Script.script) Script.error := conn_session_laws 10.

