(* ===== verification/LogFormat.v ===== *)
(** * Log entries ([logcat/format.rs])

    A record of [logcat -B]: a little-endian header of 24 bytes or more, which
    says its own size and the payload's, and the payload, which a text buffer
    splits into priority, tag and message.  [log_entries_read_back]: every entry
    parses back from what logcat writes for it, whatever follows, and a record
    cut anywhere asks for more. *)

From S2P Require Import Prelude Errors Protocol.

Module Priority.
Inductive Priority : Type :=
| Unknown | Default | Verbose | Debug | Info | Warn | Error | Fatal | Silent
| Other (b : byte).

#[global] Instance priority_eq_decision : EqDecision Priority.
Proof. solve_decision. Defined.
End Priority.
Abbreviation Priority := Priority.Priority.

(** [Priority::as_char]. *)
Definition as_char (p : Priority) : byte :=
  match p with
  | Priority.Unknown | Priority.Default | Priority.Other _ => "?"
  | Priority.Verbose => "V"
  | Priority.Debug => "D"
  | Priority.Info => "I"
  | Priority.Warn => "W"
  | Priority.Error => "E"
  | Priority.Fatal => "F"
  | Priority.Silent => "S"
  end%byte.

(** [impl From<u8> for Priority] and back. *)
Definition priority_from (b : byte) : Priority :=
  match u8 b with
  | 0 => Priority.Unknown
  | 1 => Priority.Default
  | 2 => Priority.Verbose
  | 3 => Priority.Debug
  | 4 => Priority.Info
  | 5 => Priority.Warn
  | 6 => Priority.Error
  | 7 => Priority.Fatal
  | 8 => Priority.Silent
  | _ => Priority.Other b
  end.

Definition priority_byte (p : Priority) : byte :=
  match p with
  | Priority.Unknown => x00
  | Priority.Default => x01
  | Priority.Verbose => x02
  | Priority.Debug => x03
  | Priority.Info => x04
  | Priority.Warn => x05
  | Priority.Error => x06
  | Priority.Fatal => x07
  | Priority.Silent => x08
  | Priority.Other b => b
  end.

Module LogId.
Inductive LogId : Type :=
| Main | Radio | Events | System | Crash | Stats | Security | Kernel
| Unknown (number : Z).

#[global] Instance log_id_eq_decision : EqDecision LogId.
Proof. solve_decision. Defined.
End LogId.
Abbreviation LogId := LogId.LogId.

(** [LogId::number], [LogId::is_text] and [impl From<u32> for LogId]. *)
Definition log_number (id : LogId) : Z :=
  match id with
  | LogId.Main => 0
  | LogId.Radio => 1
  | LogId.Events => 2
  | LogId.System => 3
  | LogId.Crash => 4
  | LogId.Stats => 5
  | LogId.Security => 6
  | LogId.Kernel => 7
  | LogId.Unknown number => number
  end.

Definition is_text (id : LogId) : bool :=
  match id with
  | LogId.Main | LogId.Radio | LogId.System | LogId.Crash | LogId.Kernel => true
  | LogId.Events | LogId.Stats | LogId.Security | LogId.Unknown _ => false
  end.

Definition log_id_from (number : Z) : LogId :=
  match number with
  | 0 => LogId.Main
  | 1 => LogId.Radio
  | 2 => LogId.Events
  | 3 => LogId.System
  | 4 => LogId.Crash
  | 5 => LogId.Stats
  | 6 => LogId.Security
  | 7 => LogId.Kernel
  | _ => LogId.Unknown number
  end.

Record LogEntry : Type := mkLogEntry {
  le_pid : Z;
  le_tid : Z;
  le_sec : Z;
  le_nsec : Z;
  le_uid : Z;
  le_log_id : LogId;
  le_priority : Priority;
  le_tag : bytes;
  le_message : bytes;
}.

Definition HEADER_V3_SIZE : Z := 24.
Definition HEADER_V4_SIZE : Z := 28.
Definition LOGGER_ENTRY_MAX_LEN : Z := 5 * 1024.
Definition HEADER_PREFIX : Z := 4.

(** The split of a text payload, past its priority. *)
Fixpoint tag_end (rest : bytes) : Z :=
  match rest with
  | [] => 0
  | b :: rest => if u8 b =? 0 then 0 else 1 + tag_end rest
  end.

Definition pop_nul (message : bytes) : bytes :=
  if bool_decide (last message = Some x00) then ztake (len message - 1) message else message.

Definition split_text (rest : bytes) : bytes * bytes :=
  let e := tag_end rest in
  (ztake e rest, pop_nul (zdrop (Z.min (e + 1) (len rest)) rest)).

(** [parse_entry].  A field read as an [i32] and cast to [u32] keeps its bits.
    The checks of [total] and of [hdr_size] keep every index in bounds. *)
Definition parse_entry (buf : bytes) : result LogcatError (option (LogEntry * Z)) :=
  if len buf <? HEADER_PREFIX then Ok None
  else
    let payload_len := le_val (zslice 0 2 buf) in
    let hdr_size := le_val (zslice 2 4 buf) in
    let total := hdr_size + payload_len in
    if (hdr_size <? HEADER_V3_SIZE) || (LOGGER_ENTRY_MAX_LEN <? total) then
      Err LogcatError.InvalidHeader
    else if len buf <? total then Ok None
    else
      let pid := u32_at 4 buf in
      let tid := u32_at 8 buf in
      let sec := u32_at 12 buf in
      let nsec := u32_at 16 buf in
      let lid := u32_at 20 buf in
      let uid := if HEADER_V4_SIZE <=? hdr_size then u32_at 24 buf else 0 in
      let payload := zslice hdr_size total buf in
      let log_id := log_id_from lid in
      let '(priority, tag, message) :=
        match payload with
        | [] => (Priority.Unknown, [], [])
        | b :: rest =>
            if negb (is_text log_id) then (Priority.Unknown, [], payload)
            else let '(tag, message) := split_text rest in (priority_from b, tag, message)
        end in
      Ok (Some (mkLogEntry pid tid sec nsec uid log_id priority tag message, total)).

(** ** Numbers *)

Lemma priority_there_and_back b : priority_byte (priority_from b) = b.
Proof. by destruct b. Qed.

(** A number of a known buffer does not pose as an unknown one's. *)
Definition log_id_ok (id : LogId) : Prop :=
  match id with LogId.Unknown n => 8 <= n < 2 ^ 32 | _ => True end.

Definition priority_ok (p : Priority) : Prop :=
  match p with Priority.Other b => 9 <= u8 b | _ => True end.

Lemma log_id_back id : log_id_ok id → log_id_from (log_number id) = id.
Proof.
  destruct id as [| | | | | | | |n]; try done. simpl. intros Hn.
  destruct n as [|p|p]; [lia| |lia]. do 3 (try (destruct p as [p|p|])); done || lia.
Qed.

Lemma log_number_u32 id : log_id_ok id → is_u32 (log_number id).
Proof. unfold is_u32. destruct id; simpl; lia. Qed.

Lemma priority_back p : priority_ok p → priority_from (priority_byte p) = p.
Proof. destruct p as [| | | | | | | | |b]; try done. simpl. by destruct b. Qed.

(** ** What logcat writes *)

(** What a header holds past its 24 bytes of v3: nothing a reader knows, or
    the uid and whatever later versions add. *)
Inductive extension : Type := V3 (pad : bytes) | V4 (more : bytes).

Definition ext_bytes (x : extension) (uid : Z) : bytes :=
  match x with V3 pad => pad | V4 more => u32_le uid ++ more end.

(** The payload of a text entry, its message terminated or not. *)
Definition entry_payload (terminated : bool) (e : LogEntry) : bytes :=
  if is_text (le_log_id e) then
    priority_byte (le_priority e) :: le_tag e ++ [x00] ++ le_message e ++ (if terminated then [x00] else [])
  else le_message e.

Definition u16_le (z : Z) : bytes := le_bytes 2 z.

Definition encode_entry (x : extension) (terminated : bool) (e : LogEntry) : bytes :=
  let payload := entry_payload terminated e in
  let ext := ext_bytes x (le_uid e) in
  u16_le (len payload) ++ u16_le (HEADER_V3_SIZE + len ext) ++
  u32_le (le_pid e) ++ u32_le (le_tid e) ++ u32_le (le_sec e) ++ u32_le (le_nsec e) ++
  u32_le (log_number (le_log_id e)) ++ ext ++ payload.

Record log_entry_ok (x : extension) (terminated : bool) (e : LogEntry) : Prop := {
  lo_pid : is_u32 (le_pid e);
  lo_tid : is_u32 (le_tid e);
  lo_sec : is_u32 (le_sec e);
  lo_nsec : is_u32 (le_nsec e);
  lo_uid : match x with V3 pad => len pad < 4 ∧ le_uid e = 0 | V4 _ => is_u32 (le_uid e) end;
  lo_id : log_id_ok (le_log_id e);
  lo_priority : priority_ok (le_priority e);
  lo_tag : Forall (λ b, b ≠ x00) (le_tag e);
  lo_raw : is_text (le_log_id e) = false → le_priority e = Priority.Unknown ∧ le_tag e = [];
  lo_end : terminated = false → last (le_message e) ≠ Some x00;
  lo_len : len (encode_entry x terminated e) <= LOGGER_ENTRY_MAX_LEN;
}.

(** ** Reading back *)

Lemma tag_end_here tag rest : Forall (λ b, b ≠ x00) tag → tag_end (tag ++ x00 :: rest) = len tag.
Proof.
  induction 1 as [|b tag Hb _ IH]; [done|]. simpl. rewrite IH, len_cons.
  destruct (Z.eqb_spec (u8 b) 0) as [H0|]; [|lia]. destruct Hb. by apply u8_inj.
Qed.

Lemma pop_nul_back (terminated : bool) m :
  (terminated = false → last m ≠ Some x00) → pop_nul (m ++ (if terminated then [x00] else [])) = m.
Proof.
  intros Hm. unfold pop_nul. destruct terminated.
  - rewrite last_snoc, bool_decide_eq_true_2 by done. rewrite len_app.
    apply ztake_app_len. rewrite len_cons, len_nil. lia.
  - rewrite app_nil_r, bool_decide_eq_false_2 by auto. done.
Qed.

Lemma split_text_back (terminated : bool) tag m :
  Forall (λ b, b ≠ x00) tag → (terminated = false → last m ≠ Some x00) →
  split_text (tag ++ [x00] ++ m ++ (if terminated then [x00] else [])) = (tag, m).
Proof.
  intros Ht Hm. unfold split_text. cbn [app]. rewrite tag_end_here by done.
  rewrite ztake_app_len by done. f_equal. rewrite zdrop_app_ge by zlen.
  rewrite Z.min_l by zlen. replace (len tag + 1 - len tag) with 1 by lia.
  change (zdrop 1 (x00 :: ?l)) with (zdrop 0 l). rewrite zdrop_nonpos by lia. by apply pop_nul_back.
Qed.

Lemma len_u16_le z : len (u16_le z) = 2.
Proof. apply len_le_bytes. Qed.

Lemma le_val_u16_le z : 0 <= z < 2 ^ 16 → le_val (u16_le z) = z.
Proof. intros Hz. unfold u16_le. rewrite le_val_le_bytes. apply Z.mod_small. simpl. lia. Qed.

#[local] Hint Rewrite len_u16_le len_u32_le : zlen.

(** A slice within the front of a buffer. *)
Lemma zslice_app_l {A} i j (l1 l2 : list A) :
  0 <= i → j <= len l1 → zslice i j (l1 ++ l2) = zslice i j l1.
Proof.
  intros Hi Hj. destruct (Z.leb_spec i j).
  - unfold zslice. rewrite zdrop_app_le by lia. rewrite ztake_app_le by zlen. done.
  - unfold zslice. by rewrite !ztake_nonpos by lia.
Qed.

(** What a record that parsed says of itself. *)
Lemma parse_entry_size buf e n :
  parse_entry buf = Ok (Some (e, n)) → HEADER_V3_SIZE <= n <= len buf ∧ n <= LOGGER_ENTRY_MAX_LEN.
Proof.
  unfold parse_entry. destruct (Z.ltb_spec (len buf) HEADER_PREFIX); [done|]. cbv zeta.
  pose proof (le_val_bound (zslice 0 2 buf)).
  destruct (Z.ltb_spec (le_val (zslice 2 4 buf)) HEADER_V3_SIZE); simpl; [done|].
  destruct (Z.ltb_spec LOGGER_ENTRY_MAX_LEN (le_val (zslice 2 4 buf) + le_val (zslice 0 2 buf))); [done|].
  destruct (Z.ltb_spec (len buf) (le_val (zslice 2 4 buf) + le_val (zslice 0 2 buf))); [done|].
  repeat case_match; intros [= _ <-]; lia.
Qed.

(** A verdict stands, whatever follows. *)
Lemma parse_entry_app buf x :
  parse_entry buf ≠ Ok None → parse_entry (buf ++ x) = parse_entry buf.
Proof.
  unfold parse_entry. pose proof (len_nonneg x). rewrite len_app. unfold HEADER_PREFIX.
  destruct (Z.ltb_spec (len buf) 4); [done|]. destruct (Z.ltb_spec (len buf + len x) 4); [lia|].
  cbv zeta. rewrite !(zslice_app_l _ _ buf) by lia.
  set (p := le_val (zslice 0 2 buf)). set (h := le_val (zslice 2 4 buf)). unfold HEADER_V3_SIZE.
  assert (0 <= p) by (unfold p; pose proof (le_val_bound (zslice 0 2 buf)); lia).
  destruct (Z.ltb_spec h 24); simpl; [done|]. destruct (LOGGER_ENTRY_MAX_LEN <? h + p); [done|].
  destruct (Z.ltb_spec (len buf) (h + p)); [done|].
  destruct (Z.ltb_spec (len buf + len x) (h + p)); [lia|]. intros _.
  rewrite !u32_at_app_l by lia. rewrite zslice_app_l by lia. unfold HEADER_V4_SIZE.
  destruct (Z.leb_spec 28 h); [|done]. by rewrite u32_at_app_l by lia.
Qed.

(** A buffer that asks for more is shorter than the longest record. *)
Lemma parse_entry_short buf : parse_entry buf = Ok None → len buf < LOGGER_ENTRY_MAX_LEN.
Proof.
  unfold parse_entry. destruct (Z.ltb_spec (len buf) HEADER_PREFIX);
    [unfold HEADER_PREFIX, LOGGER_ENTRY_MAX_LEN in *; lia|]. cbv zeta.
  destruct (_ <? HEADER_V3_SIZE); simpl; [done|]. set (n := le_val (zslice 2 4 buf) + _).
  destruct (Z.ltb_spec LOGGER_ENTRY_MAX_LEN n); [done|].
  destruct (Z.ltb_spec (len buf) n); [lia|].
  by repeat case_match.
Qed.

Lemma parse_entry_cut buf e n k :
  parse_entry buf = Ok (Some (e, n)) → 0 <= k < n → parse_entry (ztake k buf) = Ok None.
Proof.
  intros Hp Hk. pose proof (parse_entry_size _ _ _ Hp) as [Hn _].
  destruct (parse_entry (ztake k buf)) as [[[e' n']|]|err] eqn:Hc; [|done|].
  all: pose proof (parse_entry_app (ztake k buf) (zdrop k buf)) as Ha;
    rewrite ztake_zdrop, Hc, Hp in Ha; specialize (Ha ltac:(done)); try done.
  injection Ha as -> ->. apply parse_entry_size in Hc as [Hc _]. rewrite len_ztake in Hc. lia.
Qed.

(** The fields of a header, one after another. *)
Lemma header_fields a b p t s n l rest :
  is_u32 p → is_u32 t → is_u32 s → is_u32 n → is_u32 l →
  let buf := u16_le a ++ u16_le b ++ u32_le p ++ u32_le t ++ u32_le s ++ u32_le n ++ u32_le l ++ rest in
  zslice 0 2 buf = u16_le a ∧ zslice 2 4 buf = u16_le b ∧
  u32_at 4 buf = p ∧ u32_at 8 buf = t ∧ u32_at 12 buf = s ∧ u32_at 16 buf = n ∧ u32_at 20 buf = l ∧
  (∀ off, 24 <= off → u32_at off buf = u32_at (off - 24) rest) ∧
  len buf = 24 + len rest ∧ zdrop 24 buf = rest.
Proof.
  intros Hp Ht Hs Hn Hl buf.
  assert (∀ off, 4 <= off → u32_at off buf = u32_at (off - 4)
    (u32_le p ++ u32_le t ++ u32_le s ++ u32_le n ++ u32_le l ++ rest)) as Hskip.
  { intros off Ho. unfold buf. rewrite !u32_at_app_r by zlen. f_equal. zlen. }
  split_and!.
  - unfold buf, zslice. rewrite zdrop_nonpos by lia. by apply ztake_app_len.
  - unfold buf, zslice. rewrite zdrop_app_len by done. by apply ztake_app_len.
  - rewrite Hskip by lia. by apply u32_at_head.
  - rewrite Hskip, u32_at_skip by lia. by apply u32_at_head.
  - rewrite Hskip, !u32_at_skip by lia. by apply u32_at_head.
  - rewrite Hskip, !u32_at_skip by lia. by apply u32_at_head.
  - rewrite Hskip, !u32_at_skip by lia. by apply u32_at_head.
  - intros off Ho. rewrite Hskip, !u32_at_skip by lia. f_equal. lia.
  - unfold buf. zlen.
  - unfold buf. rewrite !zdrop_app_ge by zlen. autorewrite with zlen. by apply zdrop_nonpos.
Qed.

Lemma payload_back terminated e :
  Forall (λ b, b ≠ x00) (le_tag e) → priority_ok (le_priority e) →
  (is_text (le_log_id e) = false → le_priority e = Priority.Unknown ∧ le_tag e = []) →
  (terminated = false → last (le_message e) ≠ Some x00) →
  match entry_payload terminated e with
  | [] => (Priority.Unknown, [], [])
  | b :: rest =>
      if negb (is_text (le_log_id e)) then (Priority.Unknown, [], entry_payload terminated e)
      else let '(tag, message) := split_text rest in (priority_from b, tag, message)
  end = (le_priority e, le_tag e, le_message e).
Proof.
  intros Ht Hp Hraw Hend. unfold entry_payload. destruct (is_text (le_log_id e)).
  - cbn [negb]. rewrite split_text_back, priority_back by done. done.
  - destruct (Hraw eq_refl) as [-> ->]. by destruct (le_message e).
Qed.

Lemma encoded_parses x terminated e :
  log_entry_ok x terminated e →
  parse_entry (encode_entry x terminated e) = Ok (Some (e, len (encode_entry x terminated e))).
Proof.
  intros [Hp Ht Hs Hn Hu Hid Hpr Htag Hraw Hend Hl].
  pose proof (payload_back terminated e Htag Hpr Hraw Hend) as Hpay.
  pose proof (log_number_u32 _ Hid) as Hnum.
  unfold encode_entry in *. set (payload := entry_payload terminated e) in *.
  set (ext := ext_bytes x (le_uid e)) in *. cbv zeta in *. unfold LOGGER_ENTRY_MAX_LEN in *.
  pose proof (header_fields (len payload) (HEADER_V3_SIZE + len ext) _ _ _ _ _ (ext ++ payload) Hp Ht Hs Hn Hnum)
    as (H0 & H2 & H4 & H8 & H12 & H16 & H20 & Hoff & Hlen & Hrest). cbv zeta in *.
  set (buf := u16_le (len payload) ++ _) in *. rewrite len_app in Hlen.
  pose proof (len_nonneg ext). pose proof (len_nonneg payload).
  unfold parse_entry. rewrite H0, H2, H4, H8, H12, H16, H20. unfold HEADER_V3_SIZE, HEADER_PREFIX in *.
  rewrite !le_val_u16_le by lia. cbv zeta. unfold LOGGER_ENTRY_MAX_LEN.
  destruct (Z.ltb_spec (len buf) 4); [lia|]. destruct (Z.ltb_spec (24 + len ext) 24); [lia|]. cbn [orb].
  destruct (Z.ltb_spec (5 * 1024) (24 + len ext + len payload)); [lia|].
  destruct (Z.ltb_spec (len buf) (24 + len ext + len payload)); [lia|].
  assert (zslice (24 + len ext) (24 + len ext + len payload) buf = payload) as ->.
  { unfold zslice. rewrite <- zdrop_zdrop, Hrest, zdrop_app_len by lia. apply ztake_all. lia. }
  rewrite log_id_back by done. rewrite Hpay.
  assert ((if HEADER_V4_SIZE <=? 24 + len ext then u32_at 24 buf else 0) = le_uid e) as ->.
  { unfold HEADER_V4_SIZE. destruct x as [pad|more]; simpl in ext; unfold ext in *.
    - destruct Hu as [Hpad ->]. destruct (Z.leb_spec 28 (24 + len pad)); [lia|done].
    - rewrite len_app, len_u32_le in *. pose proof (len_nonneg more).
      destruct (Z.leb_spec 28 (24 + (4 + len more))); [|lia].
      rewrite Hoff, <- app_assoc by lia. by apply u32_at_head. }
  do 3 f_equal; [by destruct e|lia].
Qed.

(** An entry reads back from what logcat writes for it: every field, text
    entries split at the tag's terminator and other buffers' kept whole, with a
    v3 or v4 header or a longer one of later versions; the entry's end is where
    the record ends, whatever follows.  A record cut short anywhere asks for
    more bytes.  A buffer's number reads back as the buffer, and one the format
    does not know as that number. *)
Theorem log_entries_read_back x terminated e rest k :
  log_entry_ok x terminated e → 0 <= k < len (encode_entry x terminated e) →
  parse_entry (encode_entry x terminated e ++ rest)
    = Ok (Some (e, len (encode_entry x terminated e))) ∧
  parse_entry (ztake k (encode_entry x terminated e)) = Ok None.
Proof.
  intros Hok Hk. pose proof (encoded_parses _ _ _ Hok) as Hp. split.
  - rewrite parse_entry_app; [done|]. by rewrite Hp.
  - by eapply parse_entry_cut.
Qed.

Definition sample_log_entry : LogEntry :=
  mkLogEntry 1234 1240 1700000000 5 10042 LogId.System Priority.Warn (bs "Tag") (bs "a message").

(** An entry of a buffer a later version added. *)
Definition sample_raw_entry : LogEntry :=
  mkLogEntry 1 2 3 4 0 (LogId.Unknown 9) Priority.Unknown [] [x00; x07; x00].

Lemma sample_log_entry_ok : log_entry_ok (V4 []) true sample_log_entry.
Proof.
  split; try done. repeat (apply Forall_cons_2; [done|]). done.
Qed.

Lemma log_entries_read_back_witness :
  parse_entry (encode_entry (V4 []) true sample_log_entry ++ bs "more") = Ok (Some (sample_log_entry, 43)) ∧
  parse_entry (ztake 30 (encode_entry (V4 []) true sample_log_entry)) = Ok None ∧
  parse_entry (encode_entry (V3 []) true sample_raw_entry) = Ok (Some (sample_raw_entry, 27)).
Proof.
  split; [|split].
  - apply (log_entries_read_back (V4 []) true sample_log_entry (bs "more") 0 sample_log_entry_ok).
    vm_compute; intuition congruence.
  - apply (log_entries_read_back (V4 []) true sample_log_entry [] 30 sample_log_entry_ok).
    vm_compute; intuition congruence.
  - rewrite <- (app_nil_r (encode_entry _ _ _)).
    apply (log_entries_read_back (V3 []) true sample_raw_entry [] 0); [|vm_compute; intuition congruence].
    split; done.
Defined.
