(* ===== verification/Logcat.v ===== *)
(** * Streaming logcat ([logcat.rs])

    [Logcat] decodes a shell_v2 channel and the log records inside its stdout
    frames in one buffer of the caller's, moving bytes only to close the gaps
    frame headers leave.  [demux] is the reference: what a byte stream of frames
    carries, one byte at a time, without a buffer.  [entries_streamed] relates
    each call of [read_entry] to it, however the stream is cut into reads, and
    [logs_dumped] that [dump] returns the entries the device wrote. *)

From S2P Require Import SyncStreams.
From S2P Require Import Prelude Errors Protocol Config Slot ChannelTable Wire Connection Demux.
From S2P Require Import Destination Session RecvBuf ShellV2 LogFormat.

(** [End]. *)
Module End_.
Inductive End_ : Type := NotYet | Exited (code : byte) | ClosedWithoutExit.
End End_.
Abbreviation End_ := End_.End_.

Record Logcat : Type := mkLogcat {
  lc_buf : bytes;
  acc_start : Z;
  acc_end : Z;
  lc_head : Z;
  lc_tail : Z;
  lc_frame_id : FrameId;
  frame_left : Z;
  lc_end : End_;
  lc_stderr : bytes;
}.

Definition set_buf v l := mkLogcat v (acc_start l) (acc_end l) (lc_head l) (lc_tail l) (lc_frame_id l)
  (frame_left l) (lc_end l) (lc_stderr l).
Definition set_acc s e l := mkLogcat (lc_buf l) s e (lc_head l) (lc_tail l) (lc_frame_id l)
  (frame_left l) (lc_end l) (lc_stderr l).
Definition set_window h t l := mkLogcat (lc_buf l) (acc_start l) (acc_end l) h t (lc_frame_id l)
  (frame_left l) (lc_end l) (lc_stderr l).
Definition set_frame id n l := mkLogcat (lc_buf l) (acc_start l) (acc_end l) (lc_head l) (lc_tail l) id
  n (lc_end l) (lc_stderr l).
Definition set_end v l := mkLogcat (lc_buf l) (acc_start l) (acc_end l) (lc_head l) (lc_tail l)
  (lc_frame_id l) (frame_left l) v (lc_stderr l).
Definition set_stderr v l := mkLogcat (lc_buf l) (acc_start l) (acc_end l) (lc_head l) (lc_tail l)
  (lc_frame_id l) (frame_left l) (lc_end l) v.

Definition STDERR_KEPT : Z := 1024.

(** [Logcat::new]: [None] is its assertion. *)
Definition logcat_new (buf : bytes) : option Logcat :=
  if HEADER_SIZE <=? len buf then
    Some (mkLogcat buf 0 0 0 0 FrameId.Stdout 0 End_.NotYet [])
  else None.

(** A slice, and [shift], which is [copy_within(i..j, to)]: [None] is their
    panic. *)
Definition slice_of (i j : Z) (buf : bytes) : option bytes :=
  if (i <=? j) && (j <=? len buf) then Some (zslice i j buf) else None.

Definition shift (i j to : Z) (l : Logcat) : option Logcat :=
  s ← slice_of i j (lc_buf l);
  if to <=? len (lc_buf l) - (j - i) then Some (set_buf (zsplice to s (lc_buf l)) l) else None.

(** A difference of [usize]s: [None] is the panic of one below zero. *)
Definition usize_sub (a b : Z) : option Z := if b <=? a then Some (a - b) else None.

Definition logcat_compact (l : Logcat) : option Logcat :=
  l ← if 0 <? acc_start l then
        l' ← shift (acc_start l) (acc_end l) 0 l;
        e ← usize_sub (acc_end l) (acc_start l);
        Some (set_acc 0 e l')
      else Some l;
  if acc_end l <? lc_head l then
    l' ← shift (lc_head l) (lc_tail l) (acc_end l) l;
    gap ← usize_sub (lc_head l) (acc_end l);
    t ← usize_sub (lc_tail l) gap;
    Some (set_window (acc_end l) t l')
  else Some l.

(** The branch of [read_entry] for bytes of the current frame. *)
Definition take_payload (l : Logcat) : option Logcat :=
  match lc_frame_id l with
  | FrameId.Exit =>
      code ← znth (lc_head l) (lc_buf l);
      Some (set_end (End_.Exited code) l)
  | id =>
      let n := Z.min (frame_left l) (lc_tail l - lc_head l) in
      l ← match id with
          | FrameId.Stdout =>
              l ← if acc_start l =? acc_end l then Some (set_acc (lc_head l) (lc_head l) l)
                  else if acc_end l <? lc_head l then
                    shift (lc_head l) (lc_head l + n) (acc_end l) l
                  else Some l;
              Some (set_acc (acc_start l) (acc_end l + n) l)
          | _ =>
              room ← usize_sub STDERR_KEPT (len (lc_stderr l));
              let kept := Z.min n room in
              s ← slice_of (lc_head l) (lc_head l + kept) (lc_buf l);
              Some (set_stderr (lc_stderr l ++ s) l)
          end;
      Some (set_frame (lc_frame_id l) (frame_left l - n)
              (set_window (lc_head l + n) (lc_tail l) l))
  end.

(** Its match on a frame's header. *)
Definition frame_of (hdr : bytes) : result ProtocolError (FrameId * Z) :=
  let '(id, n) := parse_header hdr in
  match id with
  | Ok FrameId.Exit =>
      if n =? 0 then Err ProtocolError.ShortExitPayload else Ok (FrameId.Exit, n)
  | Ok FrameId.Stdout => Ok (FrameId.Stdout, n)
  | Ok FrameId.Stderr => Ok (FrameId.Stderr, n)
  | other => Err (ProtocolError.UnexpectedShellFrame (u8 (byte_of other)))
  end.

Definition take_header (l : Logcat) : option (result ProtocolError Logcat) :=
  hdr ← slice_of (lc_head l) (lc_head l + HEADER_SIZE) (lc_buf l);
  Some (match frame_of hdr with
        | Ok (id, n) => Ok (set_frame id n (set_window (lc_head l + HEADER_SIZE) (lc_tail l) l))
        | Err e => Err e
        end).

(** [take_entry]. *)
Definition take_entry (l : Logcat) : option (result LogcatError (option LogEntry * Logcat)) :=
  acc ← slice_of (acc_start l) (acc_end l) (lc_buf l);
  Some (match parse_entry acc with
        | Err e => Err e
        | Ok None => Ok (None, l)
        | Ok (Some (entry, consumed)) =>
            Ok (Some entry, set_acc (acc_start l + consumed) (acc_end l) l)
        end).

(** What [read_entry] fails with once logcat's exit status is in. *)
Definition exit_error {E} (code : byte) (stderr : bytes) (partial : bool) : Error E :=
  if u8 code =? 0 then
    if partial then Error.Logcat LogcatError.TruncatedEntry else Error.ChannelClosed
  else Error.Logcat (LogcatError.Exited (u8 code) stderr).

Section Logcat.
Context {Ses IoE : Type} `{Session Ses IoE}.

Abbreviation lprog := (prog (Logcat * Ses) (Error IoE)).

(** A step on the reader's own state, which may panic. *)
Definition on_logcat {A} (f : Logcat → option (A * Logcat)) : lprog A := λ p,
  match f (fst p) with
  | Some (a, l) => (Ret a, (l, snd p))
  | None => (Panicked, p)
  end.

Definition update (f : Logcat → option Logcat) : lprog unit :=
  on_logcat (λ l, l' ← f l; Some (tt, l')).

(** A step that may fail, and then changes nothing. *)
Definition attempt {E A} (wrap : E → Error IoE) (f : Logcat → option (result E (A * Logcat))) : lprog A := λ p,
  match f (fst p) with
  | Some (Ok (a, l)) => (Ret a, (l, snd p))
  | Some (Err e) => (Fail (wrap e), p)
  | None => (Panicked, p)
  end.

(** [Logcat::fill]. *)
Definition logcat_fill (ch : ChannelId) : lprog unit :=
  at_end ← gets (λ p, lc_tail (fst p) =? len (lc_buf (fst p)));
  (if at_end : bool then
     update logcat_compact ≫= λ _,
     full ← gets (λ p, lc_tail (fst p) =? len (lc_buf (fst p)));
     if full : bool then fail Error.ReceiveBufferFull else mret tt
   else mret tt) ≫= λ _,
  want ← gets (λ p, len (lc_buf (fst p)) - lc_tail (fst p));
  b ← on_session (s_read_channel ch want);
  modify (λ p, (set_window (lc_head (fst p)) (lc_tail (fst p) + len b)
                  (set_buf (zsplice (lc_tail (fst p)) b (lc_buf (fst p))) (fst p)), snd p)).

(** [Logcat::read_entry]; [fuel] bounds the rounds of its loop. *)
Fixpoint read_entry (fuel : nat) (ch : ChannelId) : lprog LogEntry :=
  match fuel with
  | O => out_of_fuel
  | S fuel =>
      o ← attempt Error.Logcat take_entry;
      match o with
      | Some entry => mret entry
      | None =>
          l ← gets fst;
          match lc_end l with
          | End_.Exited code => fail (exit_error code (lc_stderr l) (acc_start l <? acc_end l))
          | End_.ClosedWithoutExit => fail (Error.Logcat LogcatError.ClosedWithoutExit)
          | End_.NotYet =>
              if (0 <? frame_left l) && (lc_head l <? lc_tail l) then
                update take_payload ≫= λ _, read_entry fuel ch
              else if (frame_left l =? 0) && (HEADER_SIZE <=? lc_tail l - lc_head l) then
                attempt Error.Protocol (λ l, r ← take_header l;
                  Some (match r with Ok l => Ok (tt, l) | Err e => Err e end)) ≫= λ _,
                read_entry fuel ch
              else
                r ← catch (logcat_fill ch);
                match r with
                | Ok _ => read_entry fuel ch
                | Err Error.ChannelClosed =>
                    modify (λ p, (set_end End_.ClosedWithoutExit (fst p), snd p)) ≫= λ _,
                    read_entry fuel ch
                | Err e => fail e
                end
          end
      end
  end.

(** [Logcat::close]. *)
Definition logcat_close (ch : ChannelId) : lprog unit := on_session (s_close_channel ch).

(** [open].  The destination [open_argv] leaves in the buffer is behind both
    windows and is never read. *)
Definition logcat_open (args : list bytes) (buf : bytes) : prog Ses (Error IoE) (ChannelId * Logcat) :=
  ch ← open_argv (bs "logcat -B") args buf;
  match logcat_new buf with
  | Some l => mret (ch, l)
  | None => panic
  end.

(** The loop of [dump]; [rounds] bounds the entries. *)
Fixpoint dump_loop (rounds fuel : nat) (ch : ChannelId) (entries : list LogEntry) :
    lprog (list LogEntry) :=
  match rounds with
  | O => out_of_fuel
  | S rounds =>
      r ← catch (read_entry fuel ch);
      match r with
      | Ok entry => dump_loop rounds fuel ch (entries ++ [entry])
      | Err Error.ChannelClosed => mret entries
      | Err e => fail e
      end
  end.

Definition dump_all (rounds fuel : nat) (ch : ChannelId) : lprog (list LogEntry) :=
  then_close ch (dump_loop rounds fuel ch []).

(** Run [m] in a reader over [buf]. *)
Definition with_logcat {A} (buf : bytes) (m : lprog A) : prog Ses (Error IoE) A := λ s,
  match logcat_new buf with
  | None => (Panicked, s)
  | Some l => let '(o, (_, s')) := m (l, s) in (o, s')
  end.

Definition dump (rounds fuel : nat) (args : list bytes) (buf : bytes) :
    prog Ses (Error IoE) (list LogEntry) :=
  ch ← open_argv (bs "logcat -B -d") args buf;
  with_logcat buf (dump_all rounds fuel ch).

(** [open_text] and [exec_text]. *)
Definition open_text (args : list bytes) (rx : bytes) : prog Ses (Error IoE) (ChannelId * Shell) :=
  ch ← open_argv (bs "logcat") args rx;
  match shell_new rx with
  | Some sh => mret (ch, sh)
  | None => panic
  end.

Definition exec_text (frames fuel : nat) (args : list bytes) (rx : bytes) :
    prog Ses (Error IoE) CommandOutput :=
  ch ← open_argv (bs "logcat") args rx;
  with_shell rx (run_to_exit frames fuel ch).
End Logcat.

(** ** What a stream of frames carries *)

(** How it ends: with an exit status, with a frame that has no place in it, or
    not yet. *)
Inductive verdict : Type := VExited (code : byte) | VBad (e : ProtocolError) | VUnfinished.

(** What was written to stdout, to stderr, and the end. *)
Abbreviation carried := (bytes * bytes * verdict)%type.

(** [inp] after a header that left [left] bytes of a frame [id] to come. *)
Fixpoint demux (id : FrameId) (left : Z) (inp : bytes) : carried :=
  if 0 <? left then
    match inp with
    | [] => ([], [], VUnfinished)
    | b :: inp =>
        let '(out, err, v) := demux id (left - 1) inp in
        match id with
        | FrameId.Exit => ([], [], VExited b)
        | FrameId.Stdout => (b :: out, err, v)
        | _ => (out, b :: err, v)
        end
    end
  else
    match inp with
    | h :: l0 :: l1 :: l2 :: l3 :: inp =>
        match frame_of [h; l0; l1; l2; l3] with
        | Ok (id, n) => demux id n inp
        | Err e => ([], [], VBad e)
        end
    | _ => ([], [], VUnfinished)
    end.

Definition add_bytes (id : FrameId) (b : bytes) (c : carried) : carried :=
  let '(out, err, v) := c in
  match id with FrameId.Stdout => (b ++ out, err, v) | _ => (out, b ++ err, v) end.

Lemma ztake_cons {A} n (x : A) l : 0 < n → ztake n (x :: l) = x :: ztake (n - 1) l.
Proof. intros Hn. unfold ztake at 1. destruct (Z.leb_spec n 0); [lia|done]. Qed.

Lemma zdrop_cons {A} n (x : A) l : 0 < n → zdrop n (x :: l) = zdrop (n - 1) l.
Proof. intros Hn. unfold zdrop at 1. destruct (Z.leb_spec n 0); [lia|done]. Qed.

Lemma demux_exit left b inp : 0 < left → demux FrameId.Exit left (b :: inp) = ([], [], VExited b).
Proof.
  intros Hl. cbn [demux]. destruct (Z.ltb_spec 0 left); [|lia]. by destruct (demux _ _ inp) as [[]].
Qed.

(** Any part of a frame's payload can be taken first. *)
Lemma demux_bytes id left n inp :
  id ≠ FrameId.Exit → 0 <= n <= left → n <= len inp →
  demux id left inp = add_bytes id (ztake n inp) (demux id (left - n) (zdrop n inp)).
Proof.
  intros Hid. revert left n. induction inp as [|b inp IH]; intros left n Hn Hl.
  - rewrite len_nil in Hl. assert (n = 0) as -> by lia. rewrite Z.sub_0_r.
    rewrite ztake_nonpos, zdrop_nonpos by lia. unfold add_bytes. by destruct (demux id left []) as [[]], id.
  - destruct (Z.eqb_spec n 0) as [->|H0].
    + rewrite Z.sub_0_r, ztake_nonpos, zdrop_nonpos by lia. unfold add_bytes.
      by destruct (demux id left (b :: inp)) as [[]], id.
    + rewrite len_cons in Hl. cbn [demux]. destruct (Z.ltb_spec 0 left); [|lia].
      rewrite ztake_cons, zdrop_cons, (IH _ (n - 1)) by lia.
      replace (left - 1 - (n - 1)) with (left - n) by lia. unfold add_bytes.
      by destruct (demux id (left - n) _) as [[]], id.
Qed.

Lemma five_bytes (inp : bytes) :
  HEADER_SIZE <= len inp → ∃ h l0 l1 l2 l3 r, inp = h :: l0 :: l1 :: l2 :: l3 :: r.
Proof.
  unfold HEADER_SIZE. intros Hl.
  do 5 (destruct inp as [|? inp]; [exfalso; rewrite ?len_cons, len_nil in Hl; lia|]). by do 6 eexists.
Qed.

Lemma demux_header id inp :
  HEADER_SIZE <= len inp →
  demux id 0 inp = match frame_of (ztake HEADER_SIZE inp) with
                   | Ok (id, n) => demux id n (zdrop HEADER_SIZE inp)
                   | Err e => ([], [], VBad e)
                   end.
Proof.
  intros (h & l0 & l1 & l2 & l3 & r & ->)%five_bytes. unfold HEADER_SIZE.
  rewrite !ztake_cons, !zdrop_cons by lia. by rewrite ztake_nonpos, zdrop_nonpos by lia.
Qed.

(** Nothing to take yet. *)
Definition stuck (left : Z) (inp : bytes) : Prop :=
  (0 < left ∧ inp = []) ∨ (left = 0 ∧ len inp < HEADER_SIZE).

Lemma demux_stuck id left inp : stuck left inp → demux id left inp = ([], [], VUnfinished).
Proof.
  intros [[Hl ->]|[-> Hl]]; cbn [demux].
  - by destruct (Z.ltb_spec 0 left); [|lia].
  - do 5 (destruct inp as [|? inp]; [done|]). unfold HEADER_SIZE in Hl. exfalso. zlen.
Qed.

(** More bytes add to what is carried, and change nothing once it has ended. *)
Definition extends (c c' : carried) : Prop :=
  let '(out, err, v) := c in
  ∃ out' err' v', c' = (out ++ out', err ++ err', v') ∧ (v ≠ VUnfinished → out' = [] ∧ err' = [] ∧ v' = v).

Lemma extends_start c' : extends ([], [], VUnfinished) c'.
Proof. destruct c' as [[out err] v]. by exists out, err, v. Qed.

Lemma extends_refl c : extends c c.
Proof. destruct c as [[out err] v]. exists [], [], v. by rewrite !app_nil_r. Qed.

Lemma demux_more id left a x : extends (demux id left a) (demux id left (a ++ x)).
Proof.
  remember (length a) as k eqn:Hk. revert id left a Hk.
  induction (lt_wf k) as [k _ IH]; intros id left a ->.
  destruct (Z.ltb_spec 0 left) as [Hl|Hl].
  - destruct a as [|b a]; [rewrite demux_stuck by (left; done); apply extends_start|].
    specialize (IH (length a) ltac:(simpl; lia) id (left - 1) a eq_refl).
    cbn [demux app]. destruct (Z.ltb_spec 0 left); [|lia].
    destruct (demux id (left - 1) a) as [[out err] v].
    destruct IH as (out' & err' & v' & -> & Hv).
    destruct id; try apply extends_refl; exists out', err', v'; done.
  - destruct (Z.leb_spec HEADER_SIZE (len a)) as [Hh|Hh].
    + apply five_bytes in Hh as (h & l0 & l1 & l2 & l3 & r & ->). cbn [demux app].
      destruct (Z.ltb_spec 0 left); [lia|]. destruct (frame_of _) as [[id' n]|e]; [|apply extends_refl].
      by eapply IH; [|done]; simpl; lia.
    + assert (demux id left a = ([], [], VUnfinished)) as ->; [|apply extends_start].
      unfold HEADER_SIZE in Hh.
      do 5 (destruct a as [|? a]; [cbn [demux]; by destruct (Z.ltb_spec 0 left); [lia|]|]).
      exfalso. zlen.
Qed.

(** ** Slices of a buffer being rewritten *)

Section Buffer.
Context {A : Type}.
Implicit Types l src : list A.

Lemma zslice_join i j k l : 0 <= i <= j → j <= k → zslice i j l ++ zslice j k l = zslice i k l.
Proof.
  intros Hi Hk. unfold zslice. replace (zdrop j l) with (zdrop (j - i) (zdrop i l))
    by (rewrite zdrop_zdrop by lia; f_equal; lia).
  rewrite <- (ztake_zdrop (j - i) (ztake (k - i) (zdrop i l))), ztake_ztake.
  f_equal; [f_equal; lia|].
  rewrite !ztake_take, !zdrop_drop, skipn_firstn_comm. f_equal. lia.
Qed.

Lemma ztake_zslice n i j l : 0 <= i → n <= j - i → ztake n (zslice i j l) = zslice i (i + n) l.
Proof. intros. unfold zslice. rewrite ztake_ztake. f_equal. lia. Qed.

Lemma zdrop_zslice_front n i j l : 0 <= i → 0 <= n → zdrop n (zslice i j l) = zslice (i + n) j l.
Proof.
  intros. unfold zslice. rewrite !ztake_take, !zdrop_drop, skipn_firstn_comm, drop_drop.
  f_equal; [lia|f_equal; lia].
Qed.

Lemma zslice_empty i j l : j <= i → zslice i j l = [].
Proof. intros. unfold zslice. apply ztake_nonpos. lia. Qed.

(** A slice of what was written, and slices on either side of it. *)
Lemma zslice_written to src l :
  0 <= to → to + len src <= len l → zslice to (to + len src) (zsplice to src l) = src.
Proof.
  intros Ht Hl. pose proof (len_nonneg src). unfold zslice, zsplice.
  rewrite zdrop_app_len by (rewrite len_ztake; lia). apply ztake_app_len. lia.
Qed.

Lemma zslice_below i j to src l :
  0 <= i → j <= to → to + len src <= len l → zslice i j (zsplice to src l) = zslice i j l.
Proof.
  intros Hi Hj Hl. pose proof (len_nonneg src). unfold zsplice.
  rewrite zslice_app_l by (rewrite ?len_ztake; lia).
  rewrite <- (ztake_zdrop to l) at 2. symmetry. apply zslice_app_l; [done|rewrite len_ztake; lia].
Qed.

Lemma zslice_above i j to src l :
  0 <= to → to + len src <= i → to + len src <= len l → zslice i j (zsplice to src l) = zslice i j l.
Proof.
  intros Ht Hi Hl. pose proof (len_nonneg src). unfold zslice, zsplice.
  rewrite app_assoc, zdrop_app_ge by (rewrite len_app, len_ztake; lia).
  rewrite len_app, len_ztake, zdrop_zdrop by lia. do 2 f_equal. lia.
Qed.

Lemma zdrop_znth i l : 0 <= i < len l → ∃ x, znth i l = Some x ∧ zdrop i l = x :: zdrop (i + 1) l.
Proof.
  revert i. induction l as [|y l IH]; intros i Hi; [zlen|]. rewrite len_cons in Hi. cbn [znth].
  destruct (Z.eqb_spec i 0) as [->|H0].
  - exists y. rewrite zdrop_nonpos, zdrop_cons, zdrop_nonpos by lia. done.
  - destruct (IH (i - 1) ltac:(lia)) as (x & Hx & Hd). exists x. split; [done|].
    rewrite !zdrop_cons by lia. rewrite Hd. do 2 f_equal. lia.
Qed.

Lemma zslice_znth i j l :
  0 <= i < j → j <= len l → ∃ x, znth i l = Some x ∧ zslice i j l = x :: zslice (i + 1) j l.
Proof.
  intros Hi Hj. destruct (zdrop_znth i l ltac:(lia)) as (x & Hx & Hd). exists x. split; [done|].
  unfold zslice. rewrite Hd, ztake_cons by lia. do 2 f_equal. lia.
Qed.
End Buffer.

(** ** The reader's steps *)

(** The bytes of entries that have not been taken, and those behind them that
    have not been looked at. *)
Definition acc (l : Logcat) : bytes := zslice (acc_start l) (acc_end l) (lc_buf l).
Definition pend (l : Logcat) : bytes := zslice (lc_head l) (lc_tail l) (lc_buf l).

Record logcat_wf (l : Logcat) : Prop := {
  lw_acc : 0 <= acc_start l <= acc_end l;
  lw_window : acc_end l <= lc_head l <= lc_tail l;
  lw_tail : lc_tail l <= len (lc_buf l);
  lw_left : 0 <= frame_left l;
  lw_stderr : len (lc_stderr l) <= STDERR_KEPT;
  lw_exit : ∀ code, lc_end l = End_.Exited code →
    lc_frame_id l = FrameId.Exit ∧ 0 < frame_left l ∧ ∃ r, pend l = code :: r;
}.

(** All the reader makes of what it has and then of [x]. *)
Definition view_of (l : Logcat) (x : bytes) : carried :=
  let '(out, err, v) := demux (lc_frame_id l) (frame_left l) (pend l ++ x) in
  (acc l ++ out, ztake STDERR_KEPT (lc_stderr l ++ err), v).

(** The same bytes seen, from a buffer of the same size. *)
Record same_view (l l' : Logcat) : Prop := {
  sv_wf : logcat_wf l';
  sv_size : len (lc_buf l') = len (lc_buf l);
  sv_view x : view_of l' x = view_of l x;
}.

Lemma len_pend l : logcat_wf l → len (pend l) = lc_tail l - lc_head l.
Proof. intros [Ha Hw Ht _ _ _]. unfold pend. apply len_zslice; lia. Qed.

Lemma len_acc l : logcat_wf l → len (acc l) = acc_end l - acc_start l.
Proof. intros [Ha Hw Ht _ _ _]. unfold acc. apply len_zslice; lia. Qed.

Lemma slice_of_some i j b : i <= j → j <= len b → slice_of i j b = Some (zslice i j b).
Proof. intros. unfold slice_of. destruct (Z.leb_spec i j), (Z.leb_spec j (len b)); try lia. done. Qed.

Lemma shift_some i j to l :
  0 <= i <= j → j <= len (lc_buf l) → to <= i →
  shift i j to l = Some (set_buf (zsplice to (zslice i j (lc_buf l)) (lc_buf l)) l).
Proof.
  intros. unfold shift. rewrite slice_of_some by lia. cbn [mbind option_bind].
  destruct (Z.leb_spec to (len (lc_buf l) - (j - i))); [done|lia].
Qed.

Lemma usize_sub_some a b : b <= a → usize_sub a b = Some (a - b).
Proof. intros. unfold usize_sub. by destruct (Z.leb_spec b a); [|lia]. Qed.

(** The first shift of [compact], and the second. *)
Definition acc_to_front (l : Logcat) : Logcat :=
  set_acc 0 (acc_end l - acc_start l) (set_buf (zsplice 0 (acc l) (lc_buf l)) l).
Definition window_to_acc (l : Logcat) : Logcat :=
  set_window (acc_end l) (lc_tail l - (lc_head l - acc_end l)) (set_buf (zsplice (acc_end l) (pend l) (lc_buf l)) l).

(** The windows decide the view. *)
Lemma same_view_windows l l' :
  logcat_wf l → 0 <= acc_start l' <= acc_end l' → acc_end l' <= lc_head l' <= lc_tail l' →
  lc_tail l' <= len (lc_buf l') → len (lc_buf l') = len (lc_buf l) →
  acc l' = acc l → pend l' = pend l → lc_frame_id l' = lc_frame_id l → frame_left l' = frame_left l →
  lc_end l' = lc_end l → lc_stderr l' = lc_stderr l → same_view l l'.
Proof.
  intros [Ha Hw Ht Hl Hs He] Ha' Hw' Ht' Hb Hacc Hp Hi Hf Hend Herr. split; [|done|].
  - split; rewrite ?Hi, ?Hf, ?Hend, ?Herr, ?Hp; done.
  - intros x. unfold view_of. by rewrite Hacc, Hp, Hi, Hf, Herr.
Qed.

Lemma acc_to_front_windows l :
  logcat_wf l → acc (acc_to_front l) = acc l ∧ pend (acc_to_front l) = pend l.
Proof.
  intros Hwf. pose proof (len_acc l Hwf). pose proof Hwf as [Ha Hw Ht _ _ _]. split.
  - unfold acc at 1. simpl. replace (acc_end l - acc_start l) with (0 + len (acc l)) by lia.
    apply zslice_written; lia.
  - unfold pend. simpl. apply zslice_above; lia.
Qed.

Lemma window_to_acc_windows l :
  logcat_wf l → acc (window_to_acc l) = acc l ∧ pend (window_to_acc l) = pend l.
Proof.
  intros Hwf. pose proof (len_pend l Hwf). pose proof Hwf as [Ha Hw Ht _ _ _]. split.
  - unfold acc. simpl. apply zslice_below; lia.
  - unfold pend at 1. simpl.
    replace (lc_tail l - (lc_head l - acc_end l)) with (acc_end l + len (pend l)) by lia.
    apply zslice_written; lia.
Qed.

Lemma acc_to_front_view l : logcat_wf l → same_view l (acc_to_front l).
Proof.
  intros Hwf. pose proof (len_acc l Hwf) as Hla. pose proof Hwf as [Ha Hw Ht _ _ _].
  assert (len (zsplice 0 (acc l) (lc_buf l)) = len (lc_buf l)) as Hz by (apply len_zsplice; lia).
  destruct (acc_to_front_windows l Hwf) as [Hacc Hp].
  apply same_view_windows; simpl; try done; lia.
Qed.

Lemma window_to_acc_view l : logcat_wf l → same_view l (window_to_acc l).
Proof.
  intros Hwf. pose proof (len_pend l Hwf) as Hlp. pose proof Hwf as [Ha Hw Ht _ _ _].
  assert (len (zsplice (acc_end l) (pend l) (lc_buf l)) = len (lc_buf l)) as Hz
    by (apply len_zsplice; lia).
  destruct (window_to_acc_windows l Hwf) as [Hacc Hp].
  apply same_view_windows; simpl; try done; lia.
Qed.

Lemma same_view_refl l : logcat_wf l → same_view l l.
Proof. by split. Qed.

Lemma same_view_trans l1 l2 l3 : same_view l1 l2 → same_view l2 l3 → same_view l1 l3.
Proof. intros [W1 S1 V1] [W2 S2 V2]. split; [done|congruence|]. intros x. by rewrite V2, V1. Qed.

(** [compact] closes both gaps and changes nothing seen. *)
Lemma compact_view l :
  logcat_wf l → ∃ l', logcat_compact l = Some l' ∧ same_view l l' ∧
    acc_start l' = 0 ∧ lc_head l' = acc_end l' ∧ acc l' = acc l ∧ pend l' = pend l ∧
    frame_left l' = frame_left l ∧ lc_end l' = lc_end l.
Proof.
  intros Hwf. unfold logcat_compact.
  set (l1 := if 0 <? acc_start l then acc_to_front l else l).
  assert (same_view l l1 ∧ acc_start l1 = 0 ∧ acc l1 = acc l ∧ pend l1 = pend l ∧
    frame_left l1 = frame_left l ∧ lc_end l1 = lc_end l ∧
    (if 0 <? acc_start l then
       l' ← shift (acc_start l) (acc_end l) 0 l; e ← usize_sub (acc_end l) (acc_start l); Some (set_acc 0 e l')
     else Some l) = Some l1) as (V1 & Ha1 & Hacc1 & Hp1 & Hf1 & He1 & ->).
  { pose proof (acc_to_front_view l Hwf) as V. destruct (acc_to_front_windows l Hwf) as [Hacc Hp].
    pose proof Hwf as [Ha Hw Ht _ _ _]. unfold l1. destruct (Z.ltb_spec 0 (acc_start l)).
    - by rewrite shift_some, usize_sub_some by lia.
    - split_and!; try done; lia. }
  pose proof (sv_wf _ _ V1) as Hwf1. cbn [mbind option_bind]. pose proof Hwf1 as [Ha Hw Ht _ _ _].
  destruct (Z.ltb_spec (acc_end l1) (lc_head l1)).
  - rewrite shift_some, usize_sub_some by lia. cbn [mbind option_bind]. rewrite usize_sub_some by lia.
    exists (window_to_acc l1). split; [done|]. destruct (window_to_acc_windows l1 Hwf1) as [Hacc Hp].
    split; [eapply same_view_trans; [done|by apply window_to_acc_view]|].
    split_and!; try done; congruence.
  - exists l1. split; [done|]. split_and!; try done. lia.
Qed.

(** The rounds it can still take without a read. *)
Definition due (l : Logcat) : nat :=
  length (pend l) + match lc_end l with End_.NotYet => 1 | _ => 0 end.

Lemma stderr_kept (a b c : bytes) :
  len a <= STDERR_KEPT →
  ztake STDERR_KEPT ((a ++ ztake (STDERR_KEPT - len a) b) ++ c) = ztake STDERR_KEPT (a ++ b ++ c).
Proof.
  intros Ha. rewrite <- app_assoc, !(ztake_app_ge _ a) by lia. f_equal.
  set (k := STDERR_KEPT - len a). destruct (Z.leb_spec k (len b)).
  - rewrite (ztake_app_le k b) by lia. rewrite ztake_app_len; [done|]. rewrite len_ztake. lia.
  - by rewrite (ztake_all k b) by lia.
Qed.

(** The state after [n] bytes of the frame have been moved to [acc] or kept. *)
Lemma payload_view l l' n :
  logcat_wf l → lc_end l = End_.NotYet → lc_frame_id l ≠ FrameId.Exit →
  0 < n <= frame_left l → n <= len (pend l) →
  0 <= acc_start l' <= acc_end l' → acc_end l' <= lc_head l' → lc_tail l' = lc_tail l →
  len (lc_buf l') = len (lc_buf l) → lc_end l' = lc_end l → lc_head l' = lc_head l + n →
  lc_frame_id l' = lc_frame_id l → frame_left l' = frame_left l - n → pend l' = zdrop n (pend l) →
  (if decide (lc_frame_id l = FrameId.Stdout)
   then acc l' = acc l ++ ztake n (pend l) ∧ lc_stderr l' = lc_stderr l
   else acc l' = acc l ∧
     lc_stderr l' = lc_stderr l ++ ztake (STDERR_KEPT - len (lc_stderr l)) (ztake n (pend l))) →
  same_view l l' ∧ (due l' < due l)%nat.
Proof.
  intros Hwf Hnot Hid Hn Hnp Ha' Hw' Ht' Hb He Hh Hi Hf Hp Hstep.
  pose proof (len_pend l Hwf) as Hl. pose proof Hwf as [Ha Hw Ht Hl0 Hs Hex].
  split.
  - split; [|done|].
    + split; rewrite ?He, ?Hnot; try done; try lia. destruct (decide _).
      * destruct Hstep as [_ ->]. done.
      * destruct Hstep as [_ ->]. rewrite len_app, !len_ztake. lia.
    + intros x. unfold view_of. rewrite Hi, Hf, Hp. rewrite (demux_bytes _ (frame_left l) n) by (try done; zlen).
      rewrite ztake_app_le, zdrop_app_le by lia.
      destruct (demux _ _ (zdrop n (pend l) ++ x)) as [[out err] v]. unfold add_bytes. destruct (decide _) as [E|E].
      * rewrite E. destruct Hstep as [-> ->]. by rewrite <- app_assoc.
      * destruct Hstep as [-> ->]. rewrite stderr_kept by done. by destruct (lc_frame_id l).
  - unfold due. rewrite He, Hp. assert (len (zdrop n (pend l)) < len (pend l)) as Hlt by zlen.
    unfold len in Hlt. lia.
Qed.

Lemma take_exit_view l :
  logcat_wf l → lc_end l = End_.NotYet → 0 < frame_left l → lc_head l < lc_tail l →
  lc_frame_id l = FrameId.Exit →
  ∃ l', take_payload l = Some l' ∧ same_view l l' ∧ (due l' < due l)%nat ∧
    lc_end l' ≠ End_.ClosedWithoutExit.
Proof.
  intros Hwf Hnot Hf Hh E. pose proof Hwf as [Ha Hw Ht Hl0 Hs Hex].
  destruct (zslice_znth (lc_head l) (lc_tail l) (lc_buf l)) as (c & Hc & Hr); [lia..|].
  exists (set_end (End_.Exited c) l). unfold take_payload. rewrite E, Hc. split; [done|].
  split_and!; [|unfold due; simpl; rewrite Hnot; unfold pend; simpl; lia|done].
  split; [|done|done]. split; simpl; try done. intros code [= <-]. split_and!; [done..|by eexists].
Qed.

(** Taking what there is of a frame. *)
Lemma take_payload_view l :
  logcat_wf l → lc_end l = End_.NotYet → 0 < frame_left l → lc_head l < lc_tail l →
  ∃ l', take_payload l = Some l' ∧ same_view l l' ∧ (due l' < due l)%nat ∧
    lc_end l' ≠ End_.ClosedWithoutExit.
Proof.
  intros Hwf Hnot Hf Hh. pose proof (len_pend l Hwf) as Hl. pose proof Hwf as [Ha Hw Ht Hl0 Hs Hex].
  destruct (decide (lc_frame_id l = FrameId.Exit)) as [E|E]; [by apply take_exit_view|].
  set (n := Z.min (frame_left l) (lc_tail l - lc_head l)).
  assert (ztake n (pend l) = zslice (lc_head l) (lc_head l + n) (lc_buf l)) as Htk
    by (unfold pend; apply ztake_zslice; lia).
  assert (zdrop n (pend l) = zslice (lc_head l + n) (lc_tail l) (lc_buf l)) as Hdr
    by (unfold pend; apply zdrop_zslice_front; lia).
  assert (len (zslice (lc_head l) (lc_head l + n) (lc_buf l)) = n) as Hln
    by (rewrite len_zslice; lia).
  enough (∃ l', take_payload l = Some l' ∧ lc_end l' = End_.NotYet ∧ same_view l l' ∧ (due l' < due l)%nat)
    as (l' & H1 & H2 & H3 & H4) by (exists l'; split_and!; try done; by rewrite H2).
  unfold take_payload. fold n. destruct (decide (lc_frame_id l = FrameId.Stdout)) as [E1|E1].
  - rewrite E1. destruct (Z.eqb_spec (acc_start l) (acc_end l)) as [Hz|Hz];
      [|destruct (Z.ltb_spec (acc_end l) (lc_head l))].
    + cbn [mbind option_bind]. eexists. split; [done|]. split; [done|].
      eapply (payload_view _ _ n); simpl; try done; try lia.
      rewrite decide_True by done. split; [|done]. rewrite Htk. unfold acc. simpl.
      by rewrite (zslice_empty (acc_start l)) by lia.
    + rewrite shift_some by lia. cbn [mbind option_bind]. eexists. split; [done|]. split; [done|].
      assert (len (zsplice (acc_end l) (zslice (lc_head l) (lc_head l + n) (lc_buf l)) (lc_buf l))
        = len (lc_buf l)) by (apply len_zsplice; lia).
      eapply (payload_view _ _ n); simpl; try done; try lia.
      * rewrite Hdr. unfold pend. simpl. apply zslice_above; lia.
      * rewrite decide_True by done. split; [|done]. rewrite Htk. unfold acc. simpl.
        rewrite <- (zslice_join _ (acc_end l)), zslice_below by lia. f_equal.
        rewrite <- Hln at 1. apply zslice_written; lia.
    + cbn [mbind option_bind]. eexists. split; [done|]. split; [done|].
      eapply (payload_view _ _ n); simpl; try done; try lia.
      rewrite decide_True by done. split; [|done]. rewrite Htk. unfold acc. simpl.
      assert (lc_head l = acc_end l) as -> by lia. symmetry. apply zslice_join; lia.
  - rewrite usize_sub_some by done. set (room := STDERR_KEPT - len (lc_stderr l)).
    cbn [mbind option_bind]. rewrite slice_of_some by lia. cbn [mbind option_bind].
    exists (set_frame (lc_frame_id l) (frame_left l - n) (set_window (lc_head l + n) (lc_tail l)
      (set_stderr (lc_stderr l ++ zslice (lc_head l) (lc_head l + Z.min n room) (lc_buf l)) l))).
    split; [cbn; by destruct (lc_frame_id l)|]. split; [done|].
    eapply (payload_view _ _ n); simpl; try done; try lia.
    rewrite decide_False by done. split; [done|]. f_equal. rewrite ztake_ztake, (Z.min_comm room).
    unfold pend. by rewrite ztake_zslice by lia.
Qed.

(** Taking a header, or refusing it. *)
Lemma take_header_view l :
  logcat_wf l → lc_end l = End_.NotYet → frame_left l = 0 → HEADER_SIZE <= lc_tail l - lc_head l →
  ∃ r, take_header l = Some r ∧
    match r with
    | Ok l' => same_view l l' ∧ (due l' < due l)%nat ∧ lc_end l' = End_.NotYet
    | Err e => ∀ x, view_of l x = (acc l, lc_stderr l, VBad e)
    end.
Proof.
  intros Hwf Hnot Hf Hh. pose proof (len_pend l Hwf) as Hl. pose proof Hwf as [Ha Hw Ht Hl0 Hs Hex].
  unfold HEADER_SIZE in Hh. unfold take_header. rewrite slice_of_some by (unfold HEADER_SIZE; lia).
  assert (zslice (lc_head l) (lc_head l + HEADER_SIZE) (lc_buf l) = ztake HEADER_SIZE (pend l)) as ->
    by (unfold pend, HEADER_SIZE; rewrite ztake_zslice by lia; done).
  assert (∀ x, demux (lc_frame_id l) (frame_left l) (pend l ++ x) =
    match frame_of (ztake HEADER_SIZE (pend l)) with
    | Ok (id, n) => demux id n (zdrop HEADER_SIZE (pend l) ++ x)
    | Err e => ([], [], VBad e)
    end) as Hd.
  { intros x. rewrite Hf, demux_header, ztake_app_le, zdrop_app_le by (unfold HEADER_SIZE in *; zlen). done. }
  cbn [mbind option_bind]. eexists. split; [done|].
  destruct (frame_of (ztake HEADER_SIZE (pend l))) as [[id n]|e] eqn:Hfr.
  - assert (0 <= n) as Hn.
    { unfold frame_of, parse_header in Hfr. destruct (ztake HEADER_SIZE (pend l)) as [|h hs]; [done|].
      pose proof (le_val_bound (ztake 4 hs)).
      repeat case_match; simplify_eq; lia. }
    set (l' := set_frame id n (set_window (lc_head l + HEADER_SIZE) (lc_tail l) l)).
    assert (pend l' = zdrop HEADER_SIZE (pend l)) as Hp
      by (unfold pend, l', HEADER_SIZE; simpl; rewrite zdrop_zslice_front by lia; done).
    split; [|split; [|done]].
    + split; [|done|].
      * split; simpl; unfold HEADER_SIZE; try done; try lia. intros code. by rewrite Hnot.
      * intros x. unfold view_of. rewrite Hd, Hp. done.
    + unfold due. rewrite Hp. simpl. assert (len (zdrop HEADER_SIZE (pend l)) < len (pend l)) as Hlt
        by (unfold HEADER_SIZE; zlen). unfold len in Hlt. lia.
  - intros x. unfold view_of. rewrite Hd. by rewrite !app_nil_r, ztake_all.
Qed.

(** Taking an entry. *)
Definition drop_out (n : Z) (c : carried) : carried := let '(out, err, v) := c in (zdrop n out, err, v).

Definition out_of (c : carried) : bytes := fst (fst c).

Lemma acc_in_view l x : ∃ more, out_of (view_of l x) = acc l ++ more.
Proof. unfold view_of. destruct (demux _ _ _) as [[out err] v]. by exists out. Qed.

Lemma view_parse l x : parse_entry (acc l) ≠ Ok None → parse_entry (out_of (view_of l x)) = parse_entry (acc l).
Proof. intros Hp. destruct (acc_in_view l x) as [more ->]. by apply parse_entry_app. Qed.

Lemma take_entry_view l :
  logcat_wf l → ∃ r, take_entry l = Some r ∧
    match r with
    | Ok (Some e, l') => ∃ n, (∀ x, parse_entry (out_of (view_of l x)) = Ok (Some (e, n))) ∧
        logcat_wf l' ∧ len (lc_buf l') = len (lc_buf l) ∧ pend l' = pend l ∧ lc_end l' = lc_end l ∧
        ∀ x, view_of l' x = drop_out n (view_of l x)
    | Ok (None, l') => l' = l ∧ parse_entry (acc l) = Ok None
    | Err e => parse_entry (acc l) = Err e
    end.
Proof.
  intros Hwf. pose proof (len_acc l Hwf) as Hl. pose proof Hwf as [Ha Hw Ht Hl0 Hs Hex].
  unfold take_entry. rewrite slice_of_some by lia. fold (acc l). cbn [mbind option_bind].
  eexists. split; [done|]. destruct (parse_entry (acc l)) as [[[e n]|]|err] eqn:Hp; [|done..].
  pose proof (parse_entry_size _ _ _ Hp) as [Hn _]. unfold HEADER_V3_SIZE in Hn. exists n.
  split; [intros x; rewrite view_parse; rewrite Hp; done|].
  split_and!; try done; [split; simpl; try done; lia|]. intros x. unfold view_of, pend. simpl.
  destruct (demux _ _ _) as [[out err] v]. unfold drop_out. rewrite zdrop_app_le by lia. do 3 f_equal.
  unfold acc. simpl. by rewrite zdrop_zslice_front by lia.
Qed.

(** ** Calls over a session *)

Section Laws.
Context {Ses IoE : Type} `{SessionLaws Ses IoE} (ch : ChannelId).
Implicit Types l : Logcat.
Implicit Types s : Ses.

(** The rounds the loop can still take. *)
Definition rounds_due (p : Logcat * Ses) : nat :=
  due (fst p) + length (inbox (snd p) ch) + reads_left (snd p) ch.

(** Every later call fails the same, with no use of the session. *)
Definition repeats l (e : Error IoE) : Prop :=
  ∀ fuel s, read_entry (S fuel) ch (l, s) = (Fail e, (l, s)).

Lemma take_entry_none l :
  logcat_wf l → parse_entry (acc l) = Ok None → take_entry l = Some (Ok (None, l)).
Proof.
  intros Hwf Hp. pose proof Hwf as [Ha Hw Ht _ _ _]. unfold take_entry.
  rewrite slice_of_some by lia. fold (acc l). cbn [mbind option_bind]. by rewrite Hp.
Qed.

(** The loop's body, once there is no entry to take. *)
Ltac into_round Hwf Hp :=
  cbn [read_entry]; unfold mbind at 1, prog_bind, attempt; cbn [fst snd];
  rewrite (take_entry_none _ Hwf Hp); unfold mbind at 1, prog_bind, gets; cbn [fst snd].

Lemma repeats_invalid l e :
  logcat_wf l → parse_entry (acc l) = Err e → repeats l (Error.Logcat e).
Proof.
  intros Hwf Hp fuel s. pose proof Hwf as [Ha Hw Ht _ _ _]. cbn [read_entry].
  unfold mbind at 1, prog_bind, attempt, take_entry. cbn [fst snd].
  rewrite slice_of_some by lia. fold (acc l). cbn [mbind option_bind]. by rewrite Hp.
Qed.

Lemma repeats_exited l code :
  logcat_wf l → parse_entry (acc l) = Ok None → lc_end l = End_.Exited code →
  repeats l (exit_error code (lc_stderr l) (negb (bool_decide (acc l = [])))) ∧
  ∀ x, view_of l x = (acc l, lc_stderr l, VExited code).
Proof.
  intros Hwf Hp He. pose proof (len_acc l Hwf) as Hl. split.
  - intros fuel s. into_round Hwf Hp. rewrite He.
    assert ((acc_start l <? acc_end l) = negb (bool_decide (acc l = []))) as ->; [|done].
    case_bool_decide as Ha.
    + rewrite Ha, len_nil in Hl. apply Z.ltb_ge. lia.
    + apply Z.ltb_lt. destruct (acc l); [done|]. rewrite len_cons in Hl. zlen_facts. lia.
  - intros x. destruct (lw_exit _ Hwf _ He) as (Hid & Hf & r & Hr). unfold view_of.
    rewrite Hid, Hr. cbn [app]. rewrite demux_exit by done.
    by rewrite !app_nil_r, ztake_all by apply Hwf.
Qed.

Lemma repeats_closed l :
  logcat_wf l → parse_entry (acc l) = Ok None → lc_end l = End_.ClosedWithoutExit →
  repeats l (Error.Logcat LogcatError.ClosedWithoutExit).
Proof. intros Hwf Hp He fuel s. into_round Hwf Hp. by rewrite He. Qed.

Lemma repeats_bad l e :
  logcat_wf l → parse_entry (acc l) = Ok None → lc_end l = End_.NotYet → frame_left l = 0 →
  HEADER_SIZE <= lc_tail l - lc_head l → take_header l = Some (Err e) → repeats l (Error.Protocol e).
Proof.
  intros Hwf Hp He Hf Hh Ht fuel s. into_round Hwf Hp. rewrite He, Hf. cbn [Z.ltb Z.compare andb Z.eqb].
  destruct (Z.leb_spec HEADER_SIZE (lc_tail l - lc_head l)); [|lia].
  unfold mbind at 1, prog_bind, attempt. cbn [fst snd]. by rewrite Ht.
Qed.

(** How [fill] ends. *)
Definition filled_more l s (o : outcome (Error IoE) unit) (p' : Logcat * Ses) : Prop :=
  puts s ch [] (snd p') ∧ logcat_wf (fst p') ∧ len (lc_buf (fst p')) = len (lc_buf l) ∧
  lc_end (fst p') = lc_end l ∧
  match o with
  | Ret _ => s_ok (snd p') ∧ (rounds_due p' < rounds_due (l, s))%nat ∧
      ∃ b, inbox s ch = b ++ inbox (snd p') ch ∧ ∀ x, view_of (fst p') x = view_of l (b ++ x)
  | Fail e => same_view l (fst p') ∧ acc (fst p') = acc l ∧ pend (fst p') = pend l ∧
      frame_left (fst p') = frame_left l ∧
      ((e = Error.ReceiveBufferFull ∧ snd p' = s ∧ len (acc l) + len (pend l) = len (lc_buf l)) ∨
       ∃ want, s_read_channel ch want s = (Fail e, snd p'))
  | Dropped => same_view l (fst p')
  | Panicked | NoFuel => False
  end.

(** A read behind the window. *)
Definition landed (b : bytes) l : Logcat :=
  set_window (lc_head l) (lc_tail l + len b) (set_buf (zsplice (lc_tail l) b (lc_buf l)) l).

Lemma landed_view b l :
  logcat_wf l → lc_end l = End_.NotYet → len b <= len (lc_buf l) - lc_tail l →
  logcat_wf (landed b l) ∧ len (lc_buf (landed b l)) = len (lc_buf l) ∧ pend (landed b l) = pend l ++ b ∧
  ∀ x, view_of (landed b l) x = view_of l (b ++ x).
Proof.
  intros Hwf Hnot Hb. pose proof Hwf as [Ha Hw Ht Hl Hs He]. pose proof (len_nonneg b).
  assert (len (zsplice (lc_tail l) b (lc_buf l)) = len (lc_buf l)) as Hz by (apply len_zsplice; lia).
  assert (pend (landed b l) = pend l ++ b) as Hp.
  { unfold pend. simpl. rewrite <- (zslice_join _ (lc_tail l)), zslice_below, zslice_written by lia. done. }
  assert (acc (landed b l) = acc l) as Hacc by (unfold acc; simpl; apply zslice_below; lia).
  split_and!; [|done|done|].
  - split; simpl; rewrite ?Hz; try done; try lia. intros code. by rewrite Hnot.
  - intros x. unfold view_of. by rewrite Hacc, Hp, <- app_assoc.
Qed.

(** The read of [fill], once there is room for it. *)
Lemma fill_read l0 l s :
  same_view l0 l → acc l = acc l0 → pend l = pend l0 → frame_left l = frame_left l0 →
  lc_end l = lc_end l0 → lc_end l0 = End_.NotYet → lc_tail l < len (lc_buf l) → s_ok s →
  wp (want ← gets (λ p, len (lc_buf (fst p)) - lc_tail (fst p));
      b ← on_session (s_read_channel ch want);
      modify (λ p, (set_window (lc_head (fst p)) (lc_tail (fst p) + len b)
                      (set_buf (zsplice (lc_tail (fst p)) b (lc_buf (fst p))) (fst p)), snd p)))
    (filled_more l0 s) (l, s).
Proof.
  intros V Hacc Hp Hf He Hnot Hroom Hok. pose proof V as [Hwf Hsize Hview].
  apply wp_bind, wp_gets, wp_bind, wp_on_session. simpl. set (want := len (lc_buf l) - lc_tail l).
  pose proof (s_read_spec ch want s Hok ltac:(lia)) as Hr. unfold wp in *.
  destruct (s_read_channel ch want s) as [o s1] eqn:Hread. simpl in *. destruct Hr as [Hpu Hr].
  destruct o as [b|e| | |]; try done.
  - destruct Hr as (Hok1 & Hlen & Hin & Hleft & _).
    destruct (landed_view b l Hwf ltac:(congruence) Hlen) as (Hwf1 & Hs1 & Hp1 & Hv1).
    fold (landed b l). split; [done|]. split; [done|]. cbn [fst snd].
    split; [congruence|]. split; [done|]. split; [done|]. split.
    + unfold rounds_due, due. cbn [fst snd]. rewrite Hp1, Hp. simpl. rewrite He, Hin, !length_app. lia.
    + exists b. split; [done|]. intros x. by rewrite Hv1, Hview.
  - split_and!; try done. right. by exists want.
Qed.

Lemma logcat_fill_spec l s :
  logcat_wf l → lc_end l = End_.NotYet → s_ok s → wp (logcat_fill ch) (filled_more l s) (l, s).
Proof.
  intros Hwf Hnot Hok. unfold logcat_fill. apply wp_bind, wp_gets. cbn [fst snd].
  pose proof (lw_tail _ Hwf) as Ht. destruct (Z.eqb_spec (lc_tail l) (len (lc_buf l))) as [Hend|Hend].
  - destruct (compact_view l Hwf) as (l' & Hc & V & Ha0 & Hh & Hacc & Hp & Hf & He).
    apply wp_bind, wp_bind. unfold wp at 1, update, on_logcat. cbn [fst snd]. rewrite Hc.
    cbn [mbind option_bind]. apply wp_bind, wp_gets. cbn [fst snd].
    pose proof V as [Hwf' Hsize _]. pose proof (lw_tail _ Hwf') as Ht'.
    destruct (Z.eqb_spec (lc_tail l') (len (lc_buf l'))) as [Hfull|Hroom].
    + apply wp_fail. split; [apply puts_nil|]. cbn [fst snd]. split_and!; try done. left.
      split_and!; try done. rewrite <- Hacc, <- Hp, len_acc, len_pend by done. lia.
    + apply wp_ret. apply fill_read; try done. lia.
  - apply wp_bind, wp_ret. apply fill_read; try done. lia.
Qed.

(** Why [read_entry] failed with [e], in state [l], its last read made in
    [s1]. *)
Definition stopped l s1 (e : Error IoE) s' : Prop :=
  let '(out, err, v) := view_of l [] in
  match parse_entry out with
  | Ok (Some _) => False
  | Err x => e = Error.Logcat x ∧ repeats l e
  | Ok None =>
      match v with
      | VExited code => e = exit_error code err (negb (bool_decide (out = []))) ∧ repeats l e
      | VBad x => e = Error.Protocol x ∧ repeats l e
      | VUnfinished =>
          (e = Error.ReceiveBufferFull ∧ len (lc_buf l) < LOGGER_ENTRY_MAX_LEN + 4) ∨
          ∃ want e0, s_read_channel ch want s1 = (Fail e0, s') ∧
            match e0 with
            | Error.ChannelClosed => e = Error.Logcat LogcatError.ClosedWithoutExit ∧ repeats l e
            | _ => e = e0
            end
      end
  end.

(** How a call of [read_entry] ends. *)
Definition streamed (p : Logcat * Ses) (o : outcome (Error IoE) LogEntry) (p' : Logcat * Ses) : Prop :=
  logcat_wf (fst p') ∧ len (lc_buf (fst p')) = len (lc_buf (fst p)) ∧ puts (snd p) ch [] (snd p') ∧
  ∃ got s1, inbox (snd p) ch = got ++ inbox s1 ch ∧
  match o with
  | Ret e => s1 = snd p' ∧ s_ok s1 ∧ lc_end (fst p') ≠ End_.ClosedWithoutExit ∧
      (rounds_due p' <= rounds_due p)%nat ∧
      ∃ n, parse_entry (out_of (view_of (fst p) got)) = Ok (Some (e, n)) ∧
        ∀ x, view_of (fst p') x = drop_out n (view_of (fst p) (got ++ x))
  | Fail e => (∀ x, view_of (fst p') x = view_of (fst p) (got ++ x)) ∧ stopped (fst p') s1 e (snd p')
  | Dropped => ∀ x, view_of (fst p') x = view_of (fst p) (got ++ x)
  | Panicked | NoFuel => False
  end.

(** From where some rounds have brought it. *)
Lemma streamed_after p b p1 o p' :
  inbox (snd p) ch = b ++ inbox (snd p1) ch → len (lc_buf (fst p1)) = len (lc_buf (fst p)) →
  puts (snd p) ch [] (snd p1) → (rounds_due p1 <= rounds_due p)%nat →
  (∀ x, view_of (fst p1) x = view_of (fst p) (b ++ x)) →
  streamed p1 o p' → streamed p o p'.
Proof.
  intros Hin Hs Hpu Hd Hv (Hwf & Hs' & Hpu' & got & s1 & Hin' & Ho).
  split; [done|]. split; [congruence|]. split; [exact (puts_app _ _ _ _ _ _ Hpu Hpu')|].
  exists (b ++ got), s1. split; [by rewrite Hin, Hin', app_assoc|].
  assert (∀ x, view_of (fst p) ((b ++ got) ++ x) = view_of (fst p1) (got ++ x)) as Hv'
    by (intros x; by rewrite <- app_assoc, Hv).
  destruct o as [a|e| | |]; try done.
  - destruct Ho as (H1 & H2 & H3 & H4 & n & H5 & H6). split_and!; try done; [lia|].
    exists n. rewrite <- Hv. split; [done|]. intros x. by rewrite Hv'.
  - destruct Ho as [H1 H2]. split; [|done]. intros x. by rewrite Hv'.
  - intros x. by rewrite Hv'.
Qed.

Lemma stuck_or_take l :
  logcat_wf l →
  (0 < frame_left l ∧ lc_head l < lc_tail l) ∨
  (frame_left l = 0 ∧ HEADER_SIZE <= lc_tail l - lc_head l) ∨ stuck (frame_left l) (pend l).
Proof.
  intros Hwf. pose proof (len_pend l Hwf) as Hl. pose proof (lw_left _ Hwf). pose proof (lw_window _ Hwf).
  unfold stuck. destruct (decide (0 < frame_left l)).
  - destruct (decide (lc_head l < lc_tail l)); [by left|]. right. right. left. split; [done|].
    apply len_0_nil. lia.
  - destruct (decide (HEADER_SIZE <= lc_tail l - lc_head l)); right; [left|right; right]; lia.
Qed.

Lemma view_stuck l :
  logcat_wf l → stuck (frame_left l) (pend l) → view_of l [] = (acc l, lc_stderr l, VUnfinished).
Proof.
  intros Hwf Hst. unfold view_of. rewrite app_nil_r, demux_stuck by done.
  by rewrite !app_nil_r, ztake_all by apply Hwf.
Qed.

(** The rounds that read. *)
Lemma fill_round_spec fuel l s :
  (∀ l1 s1, logcat_wf l1 → lc_end l1 ≠ End_.ClosedWithoutExit → s_ok s1 →
    (rounds_due (l1, s1) < fuel)%nat → wp (read_entry fuel ch) (streamed (l1, s1)) (l1, s1)) →
  logcat_wf l → lc_end l = End_.NotYet → s_ok s → (rounds_due (l, s) < S fuel)%nat →
  parse_entry (acc l) = Ok None → stuck (frame_left l) (pend l) →
  wp (r ← catch (logcat_fill ch);
      match r with
      | Ok _ => read_entry fuel ch
      | Err Error.ChannelClosed =>
          modify (λ p, (set_end End_.ClosedWithoutExit (fst p), snd p)) ≫= λ _, read_entry fuel ch
      | Err e => fail e
      end) (streamed (l, s)) (l, s).
Proof.
  intros IH Hwf Hnot Hok Hdue Hp Hst. apply wp_bind, wp_catch.
  eapply wp_mono; [by apply logcat_fill_spec|]. intros o [l1 s1] (Hpu & Hwf1 & Hs1 & He1 & Ho).
  cbn [fst snd] in *. destruct o as [[]|e| | |]; try done.
  - destruct Ho as (Hok1 & Hlt & b & Hin & Hv). eapply wp_mono; [apply IH; try done; [congruence|lia]|].
    intros o p'. apply (streamed_after (l, s) b); cbn [fst snd]; try done. lia.
  - destruct Ho as (V & Hacc & Hpe & Hf & Hwhy).
    assert (view_of l1 [] = (acc l1, lc_stderr l1, VUnfinished)) as Hv1
      by (apply view_stuck; [done|by rewrite Hf, Hpe]).
    assert (∀ l2 e', same_view l l2 → acc l2 = acc l1 → stopped l2 s e' s1 →
      streamed (l, s) (Fail e') (l2, s1)) as Hend.
    { intros l2 e' [Hwf2 Hs2 Hv2] _ Hstop. split; [done|]. split; [done|]. split; [done|].
      exists [], s. done. }
    assert (∀ e', e' ≠ Error.ChannelClosed → e = e' → streamed (l, s) (Fail e') (l1, s1)) as Hother.
    { intros e' Hne ->. apply Hend; [done..|]. unfold stopped. rewrite Hv1, Hacc, Hp.
      destruct Hwhy as [(-> & _ & Hfull)|[want Hr]].
      - left. split; [done|]. rewrite Hs1. pose proof (parse_entry_short _ Hp). pose proof (len_pend l Hwf).
        destruct Hst as [[_ Hnil]|[_ Hsh]]; [rewrite Hnil, len_nil in Hfull; lia|unfold HEADER_SIZE in Hsh; lia].
      - right. exists want, e'. split; [done|]. by destruct e'. }
    destruct e; try (by apply Hother). apply wp_bind, wp_modify. cbn [fst snd].
    set (l2 := set_end End_.ClosedWithoutExit l1).
    assert (logcat_wf l2) as Hwf2 by (destruct Hwf1; split; try done).
    assert (repeats l2 (Error.Logcat LogcatError.ClosedWithoutExit)) as Hrep
      by (apply repeats_closed; [done|change (acc l2) with (acc l1); congruence|done]).
    destruct fuel as [|fuel]; [unfold rounds_due, due in Hdue; cbn [fst snd] in Hdue; rewrite Hnot in Hdue; lia|].
    unfold wp. rewrite Hrep. apply Hend; [by destruct V|done|]. unfold stopped.
    change (view_of l2 []) with (view_of l1 []). rewrite Hv1, Hacc, Hp.
    destruct Hwhy as [(? & _)|[want Hr]]; [done|]. right. exists want, Error.ChannelClosed.
    done.
  - destruct Ho as [Hwf' Hs' Hv']. split; [done|]. split; [done|]. split; [done|]. by exists [], s.
Qed.

(** A round that changes nothing seen. *)
Lemma streamed_step l l1 s o p' :
  same_view l l1 → (due l1 < due l)%nat → streamed (l1, s) o p' → streamed (l, s) o p'.
Proof.
  intros [Hwf Hs Hv] Hd. apply (streamed_after (l, s) []); cbn [fst snd]; try done.
  - apply puts_nil.
  - unfold rounds_due. cbn [fst snd]. lia.
Qed.

Lemma stopped_here l s e : logcat_wf l → stopped l s e s → streamed (l, s) (Fail e) (l, s).
Proof. intros Hwf Hst. split_and!; try done; [apply puts_nil|]. by exists [], s. Qed.

(** A round with no entry to take and the end not seen. *)
Lemma round_spec fuel l s :
  (∀ l1 s1, logcat_wf l1 → lc_end l1 ≠ End_.ClosedWithoutExit → s_ok s1 →
    (rounds_due (l1, s1) < fuel)%nat → wp (read_entry fuel ch) (streamed (l1, s1)) (l1, s1)) →
  logcat_wf l → lc_end l = End_.NotYet → s_ok s → (rounds_due (l, s) < S fuel)%nat →
  parse_entry (acc l) = Ok None → wp (read_entry (S fuel) ch) (streamed (l, s)) (l, s).
Proof.
  intros IH Hwf He Hok Hdue Hp. cbn [read_entry]. apply wp_bind. unfold wp at 1, attempt. cbn [fst snd].
  rewrite (take_entry_none _ Hwf Hp). apply wp_bind, wp_gets. cbn [fst snd]. rewrite He.
  assert (∀ l1, same_view l l1 → (due l1 < due l)%nat → lc_end l1 ≠ End_.ClosedWithoutExit →
    wp (read_entry fuel ch) (streamed (l, s)) (l1, s)) as Hgo.
  { intros l1 V Hd Hc. eapply wp_mono; [apply IH; [apply V|done|done|]|].
    - unfold rounds_due in *. cbn [fst snd] in *. lia.
    - intros o p'. by apply streamed_step. }
  destruct (stuck_or_take l Hwf) as [[Hf Hh]|[[Hf Hh]|Hst]].
  - destruct (Z.ltb_spec 0 (frame_left l)), (Z.ltb_spec (lc_head l) (lc_tail l)); try lia. cbn [andb].
    destruct (take_payload_view l Hwf He Hf Hh) as (l1 & Hl1 & V & Hd & Hc). apply wp_bind.
    unfold wp at 1, update, on_logcat. cbn [fst snd]. rewrite Hl1. by apply Hgo.
  - rewrite Hf. cbn [Z.ltb Z.compare andb Z.eqb].
    destruct (Z.leb_spec HEADER_SIZE (lc_tail l - lc_head l)); [|lia].
    destruct (take_header_view l Hwf He Hf Hh) as ([l1|err] & Hl1 & Hth); apply wp_bind;
      unfold wp at 1, attempt; cbn [fst snd]; rewrite Hl1; cbn [mbind option_bind].
    + destruct Hth as (V & Hd & Hc). apply Hgo; [done..|congruence].
    + apply stopped_here; [done|]. unfold stopped. rewrite Hth, Hp. split; [done|]. by apply repeats_bad.
  - assert (((0 <? frame_left l) && (lc_head l <? lc_tail l))%bool = false ∧
      ((frame_left l =? 0) && (HEADER_SIZE <=? lc_tail l - lc_head l))%bool = false) as [-> ->].
    { pose proof (len_pend l Hwf) as Hl. destruct Hst as [[Hf Hnil]|[-> Hsh]].
      - rewrite Hnil, len_nil in Hl. destruct (Z.ltb_spec 0 (frame_left l)),
          (Z.ltb_spec (lc_head l) (lc_tail l)), (Z.eqb_spec (frame_left l) 0); try lia; done.
      - split; [done|]. destruct (Z.leb_spec HEADER_SIZE (lc_tail l - lc_head l)); [lia|done]. }
    by apply fill_round_spec.
Qed.

Lemma read_entry_spec fuel l s :
  logcat_wf l → lc_end l ≠ End_.ClosedWithoutExit → s_ok s → (rounds_due (l, s) < fuel)%nat →
  wp (read_entry fuel ch) (streamed (l, s)) (l, s).
Proof.
  revert l s. induction fuel as [|fuel IH]; intros l s Hwf Hend Hok Hdue; [lia|].
  destruct (take_entry_view l Hwf) as (r & Hr & Ht). destruct r as [[[e|] l1]|err].
  - destruct Ht as (n & Hparse & Hwf1 & Hs1 & Hp1 & He1 & Hv1). cbn [read_entry]. apply wp_bind.
    unfold wp at 1, attempt. cbn [fst snd]. rewrite Hr. apply wp_ret.
    split_and!; cbn [fst snd]; try done; [apply puts_nil|]. exists [], s.
    split_and!; cbn [snd fst]; try done; [congruence| |by exists n].
    unfold rounds_due, due. cbn [fst snd]. rewrite Hp1, He1. lia.
  - destruct Ht as [-> Hp]. destruct (lc_end l) as [|code|] eqn:He; [by apply round_spec| |done].
    destruct (repeats_exited l code Hwf Hp He) as [Hrep Hv]. unfold wp. rewrite Hrep.
    apply stopped_here; [done|]. unfold stopped. by rewrite Hv, Hp.
  - pose proof (repeats_invalid l err Hwf Ht) as Hrep. unfold wp. rewrite Hrep.
    apply stopped_here; [done|]. unfold stopped. pose proof (view_parse l []) as Hv. rewrite Ht in Hv.
    destruct (view_of l []) as [[out er] v]. specialize (Hv ltac:(done)). cbn [out_of fst] in Hv. by rewrite Hv.
Qed.


(** *** Dumps *)

Lemma view_more l a x : ∃ more, out_of (view_of l (a ++ x)) = out_of (view_of l a) ++ more.
Proof.
  unfold view_of. pose proof (demux_more (lc_frame_id l) (frame_left l) (pend l ++ a) x) as He.
  rewrite <- app_assoc in He. destruct (demux _ _ (pend l ++ a)) as [[out err] v].
  destruct He as (out' & err' & v' & -> & _). exists out'. cbn [out_of fst]. by rewrite app_assoc.
Qed.

Lemma view_final l out err v x :
  view_of l [] = (out, err, v) → v ≠ VUnfinished → view_of l x = (out, err, v).
Proof.
  unfold view_of. pose proof (demux_more (lc_frame_id l) (frame_left l) (pend l ++ []) x) as He.
  rewrite <- app_assoc in He. cbn [app] in He. destruct (demux _ _ (pend l ++ [])) as [[o e] v0].
  destruct He as (o' & e' & v' & -> & Hv). intros [= <- <- <-] Hne.
  destruct (Hv Hne) as (-> & -> & ->). by rewrite !app_nil_r.
Qed.

(** A record logcat wrote: its header's version, its message's terminator, its
    entry. *)
Definition record : Type := extension * bool * LogEntry.
Definition record_bytes (r : record) : bytes := encode_entry (fst (fst r)) (snd (fst r)) (snd r).
Definition record_ok (r : record) : Prop := log_entry_ok (fst (fst r)) (snd (fst r)) (snd r).

(** The session's own failure. *)
Definition read_failed_as (e : Error IoE) : Prop :=
  ∃ want s1 s' e0, s_read_channel (S := Ses) ch want s1 = (Fail e0, s') ∧
    e = match e0 with Error.ChannelClosed => Error.Logcat LogcatError.ClosedWithoutExit | _ => e0 end.

Definition dumped s (all : list LogEntry) (o : outcome (Error IoE) (list LogEntry)) (p' : Logcat * Ses) : Prop :=
  puts s ch [] (snd p') ∧
  match o with
  | Ret es => es = all
  | Fail e => read_failed_as e
  | Dropped => True
  | Panicked | NoFuel => False
  end.

Lemma next_record rs more :
  Forall record_ok rs →
  parse_entry (concat (record_bytes <$> rs) ++ more) =
  match rs with [] => parse_entry more | r :: _ => Ok (Some (snd r, len (record_bytes r))) end.
Proof.
  intros Hrs. destruct Hrs as [|r rs Hr _]; [done|]. rewrite fmap_cons. cbn [concat]. rewrite <- app_assoc.
  pose proof (encoded_parses _ _ _ Hr) as Hp. fold (record_bytes r) in Hp.
  rewrite parse_entry_app; [done|]. by rewrite Hp.
Qed.

(** Where a call stopped on a stream of records with a clean exit. *)
Lemma stopped_clean l s1 e s' rs err :
  Forall record_ok rs → LOGGER_ENTRY_MAX_LEN + 4 <= len (lc_buf l) →
  view_of l (inbox s1 ch) = (concat (record_bytes <$> rs), err, VExited x00) →
  stopped l s1 e s' → (e = Error.ChannelClosed ∧ rs = []) ∨ (e ≠ Error.ChannelClosed ∧ read_failed_as e).
Proof.
  intros Hrs Hcap Hall. unfold stopped. pose proof (view_more l [] (inbox s1 ch)) as [more Hm].
  destruct (view_of l []) as [[out er] v] eqn:Hv. rewrite app_nil_l, Hall in Hm. cbn [out_of fst] in Hm.
  pose proof (next_record rs [] Hrs) as Hnext. rewrite app_nil_r in Hnext.
  destruct (parse_entry out) as [[[e1 n]|]|x] eqn:Hp; [done| |].
  - destruct v as [code|x|].
    + rewrite (view_final _ _ _ _ _ Hv) in Hall by done. injection Hall as -> -> ->.
      intros [-> _]. left. rewrite Hp in Hnext. destruct rs; [done|discriminate].
    + rewrite (view_final _ _ _ _ _ Hv) in Hall by done. discriminate.
    + intros [[_ Hsmall]|(want & e0 & Hr & He0)]; [lia|]. right.
      assert (e = match e0 with Error.ChannelClosed => Error.Logcat LogcatError.ClosedWithoutExit | _ => e0 end)
        as -> by (destruct e0; try exact He0; exact (proj1 He0)).
      split; [by destruct e0|]. by exists want, s1, s', e0.
  - intros _. rewrite Hm, parse_entry_app, Hp in Hnext by (by rewrite Hp). by destruct rs.
Qed.

Lemma dump_loop_spec rs rounds fuel l s err es :
  Forall record_ok rs → LOGGER_ENTRY_MAX_LEN + 4 <= len (lc_buf l) → logcat_wf l →
  lc_end l ≠ End_.ClosedWithoutExit → s_ok s → (rounds_due (l, s) < fuel)%nat → (length rs < rounds)%nat →
  view_of l (inbox s ch) = (concat (record_bytes <$> rs), err, VExited x00) →
  wp (dump_loop rounds fuel ch es) (dumped s (es ++ (snd <$> rs))) (l, s).
Proof.
  revert rs l s es. induction rounds as [|rounds IH]; intros rs l s es Hrs Hcap Hwf He Hok Hf Hn Hall; [lia|].
  cbn [dump_loop]. apply wp_bind, wp_catch. eapply wp_mono; [by apply read_entry_spec|].
  intros o [l1 s1] (Hwf1 & Hs1 & Hpu & got & s2 & Hin & Ho). cbn [fst snd] in *. destruct o as [e|e| | |]; try done.
  - destruct Ho as (-> & Hok1 & He1 & Hd & n & Hp & Hv). rewrite Hin in Hall.
    destruct (view_more l got (inbox s1 ch)) as [more Hm]. rewrite Hall in Hm. cbn [out_of fst] in Hm.
    pose proof (next_record rs [] Hrs) as Hnext. rewrite app_nil_r, Hm, parse_entry_app, Hp in Hnext by (by rewrite Hp).
    destruct rs as [|r rs]; [done|]. injection Hnext as -> ->. apply Forall_cons in Hrs as [_ Hrs].
    eapply wp_mono; [apply (IH rs l1 s1); try done; [lia|lia|simpl in Hn; lia|]|].
    + rewrite Hv, Hall, fmap_cons. unfold drop_out. cbn [concat]. by rewrite zdrop_app_len.
    + intros o p' [Hpu' Ho]. split; [exact (puts_app _ _ _ _ _ _ Hpu Hpu')|]. rewrite fmap_cons.
      destruct o; try done. by rewrite Ho, <- app_assoc.
  - destruct Ho as [Hv Hst]. apply (stopped_clean _ _ _ _ rs err) in Hst; [|done|lia|by rewrite Hv, <- Hin].
    destruct Hst as [[-> ->]|[Hne Hfail]]; [by rewrite app_nil_r|]. by destruct e.
Qed.

(** [dump] returns the entries the device wrote, all of them, in order.  Its
    buffer 5 KiB and 4 bytes or more, and logcat's output any frames that carry
    the records of [rs] on stdout, anything on stderr and then a clean exit:
    the call returns those entries unless the session fails it first, sends
    nothing, and closes the channel. *)
Theorem logs_dumped rs rounds fuel l buf s err :
  Forall record_ok rs → LOGGER_ENTRY_MAX_LEN + 4 <= len buf → logcat_new buf = Some l → s_ok s →
  (length (inbox s ch) + reads_left s ch + 1 < fuel)%nat → (length rs < rounds)%nat →
  demux FrameId.Stdout 0 (inbox s ch) = (concat (record_bytes <$> rs), err, VExited x00) →
  let '(o, p') := dump_all rounds fuel ch (l, s) in
  o = Dropped ∨ ∃ s1, puts s ch [] s1 ∧ snd p' = snd (s_close_channel ch s1) ∧
    match o with
    | Ret es => es = snd <$> rs
    | Fail e => read_failed_as e
    | _ => False
    end.
Proof.
  intros Hrs Hcap Hnew Hok Hf Hn Hall. unfold logcat_new in Hnew. pose proof (len_nonneg buf).
  destruct (HEADER_SIZE <=? len buf); [|done]. injection Hnew as <-. set (l := mkLogcat _ _ _ _ _ _ _ _ _).
  assert (pend l = [] ∧ acc l = []) as [Hp Ha] by (by unfold pend, acc; rewrite !zslice_empty).
  assert (logcat_wf l) as Hwf by (split; simpl; try done; unfold STDERR_KEPT, len; simpl; lia).
  assert (view_of l (inbox s ch) = (concat (record_bytes <$> rs), ztake STDERR_KEPT err, VExited x00)) as Hv.
  { unfold view_of. rewrite Hp, Ha. cbn [app l lc_frame_id frame_left lc_stderr]. by rewrite Hall. }
  pose proof (dump_loop_spec rs rounds fuel l s (ztake STDERR_KEPT err) [] Hrs Hcap Hwf ltac:(done) Hok) as Hd.
  pose proof (then_close_spec ch _ _ _ (Hd ltac:(unfold rounds_due, due; cbn [fst snd]; rewrite Hp; simpl; lia) Hn Hv)) as Hs.
  unfold dump_all. destruct (then_close ch (dump_loop rounds fuel ch []) (l, s)) as [o p'].
  destruct Hs as [->|([l1 s1] & [Hpu Ho] & ->)]; [by unfold dumped; naive_solver|by left|].
  destruct (outcome_dropped o) as [->|Hnd]; [by left|right]. exists s1. by destruct o.
Qed.
End Laws.

(** ** A sample stream *)

Definition log_frame (id : FrameId) (b : bytes) : bytes := frame_id_byte id :: u32_le (len b) ++ b.

Definition sample_record : record := (V4 [], true, sample_log_entry).

(** A record cut in two by a warning, and an exit. *)
Definition sample_log (code : byte) : bytes :=
  let r := record_bytes sample_record in
  log_frame FrameId.Stdout (ztake 10 r) ++ log_frame FrameId.Stderr (bs "warn") ++
  log_frame FrameId.Stdout (zdrop 10 r) ++ log_frame FrameId.Exit [code].

Definition log_start : Logcat := mkLogcat (replicate 5124 x00) 0 0 0 0 FrameId.Stdout 0 End_.NotYet [].

#[local] Instance log_session : Session (conn Script.script) Script.error := conn_session 10.
#[local] Instance log_laws : SessionLaws (conn Script.script) Script.error := conn_session_laws 10.

Lemma log_start_wf : logcat_wf log_start.
Proof.
  split; vm_compute; intuition congruence.
Qed.

Lemma log_conn_ok code : (length (coming (sync_conn (sample_log code))) < 10)%nat → s_ok (sync_conn (sample_log code)).
Proof. intros Hc. exact (proj1 (proj2 (proj2 (sync_start_ready 0 (sample_log code) _ Hc (Nat.lt_succ_diag_r _))))). Qed.


Lemma logs_dumped_witness :
  fst (dump_all 5 200 sync_ch (log_start, sync_conn (sample_log x00))) = Ret [sample_log_entry] ∧
  let '(o, p') := dump_all 5 200 sync_ch (log_start, sync_conn (sample_log x00)) in
  o = Dropped ∨ ∃ s1, puts (sync_conn (sample_log x00)) sync_ch [] s1 ∧
    snd p' = snd (s_close_channel sync_ch s1) ∧
    match o with
    | Ret es => es = [sample_log_entry]
    | Fail e => read_failed_as sync_ch e
    | _ => False
    end.
Proof.
  split; [vm_compute; reflexivity|].
  apply (logs_dumped sync_ch [sample_record] 5 200 log_start (replicate 5124 x00)
    (sync_conn (sample_log x00)) (bs "warn")).
  - apply Forall_singleton. exact sample_log_entry_ok.
  - vm_compute. discriminate.
  - reflexivity.
  - apply log_conn_ok. vm_compute. lia.
  - vm_compute. lia.
  - simpl. lia.
  - vm_compute. reflexivity.
Defined.
