(* ===== verification/Services.v ===== *)
(** * Running commands ([exec.rs], [shell/v1.rs], [abb.rs], [cmd.rs])

    The services that run a command and hand over its raw output.  [cmd] picks
    a route by what the device advertises; [cmd_arguments_arrive] is that the
    arguments arrive as they were given on either.  [outputs_whole]: the
    one-shot calls return the whole output, close their channel and never
    return part of it as success. *)

From S2P Require Import SyncStreams.
From S2P Require Import Prelude Errors Protocol Text Banner Config Slot ChannelTable Wire Connection Demux.
From S2P Require Import Destination Session RecvBuf ShellV2.

Section Services.
Context {Ses IoE : Type} `{Session Ses IoE}.

Abbreviation sprog := (prog Ses (Error IoE)).

(** [write_destination] of [exec.rs] and of [shell/v1.rs], in the caller's
    buffer, and the open with what it wrote. *)
Definition exec_destination (command : bytes) : dprog Z := write_destination [bs "exec:"; command] [].
Definition shell_v1_destination (command : bytes) : dprog Z := write_destination [bs "shell:"; command] [].

Definition open_at (dest : dprog Z) (buf : bytes) : sprog (ChannelId * bytes) :=
  match dest buf with
  | (Ret n, buf') => ch ← s_open_channel (ztake n buf'); mret (ch, buf')
  | (Fail e, _) => fail (destination_error e)
  | _ => panic
  end.

(** [exec::open] and [shell::v1::open]: the channel is the shell. *)
Definition exec_open (command dest_buf : bytes) : sprog ChannelId :=
  '(ch, _) ← open_at (exec_destination command) dest_buf; mret ch.
Definition shell_v1_open (command dest_buf : bytes) : sprog ChannelId :=
  '(ch, _) ← open_at (shell_v1_destination command) dest_buf; mret ch.

(** The calls of [shell::v1::Shell], which are its channel's. *)
Definition shell_v1_read (ch : ChannelId) (want : Z) : sprog bytes := s_read_channel ch want.
Definition shell_v1_write_stdin (ch : ChannelId) (data : bytes) : sprog unit := s_write_channel ch data.
Definition shell_v1_select {F I} (poll : F → option I * F) (ch : ChannelId) (want : Z) (f : F) :
    sprog (SelectResult I) := s_select_channel poll ch want f.
Definition shell_v1_close (ch : ChannelId) : sprog unit := s_close_channel ch.

(** [exec::exec] and [shell::v1::exec]: how many bytes of output, and the
    buffer they are in. *)
Definition read_all (fuel : nat) (ch : ChannelId) (buf : bytes) : sprog (Z * bytes) := λ s,
  let '(o, (buf', s')) := read_to_end fuel ch (buf, s) in (outcome_map (λ n, (n, buf')) id o, s').

Definition exec_at (fuel : nat) (dest : dprog Z) (buf : bytes) : sprog (Z * bytes) :=
  '(ch, buf) ← open_at dest buf;
  read_all fuel ch buf.

Definition exec_exec (fuel : nat) (command buf : bytes) : sprog (Z * bytes) :=
  exec_at fuel (exec_destination command) buf.
Definition shell_v1_exec (fuel : nat) (command buf : bytes) : sprog (Z * bytes) :=
  exec_at fuel (shell_v1_destination command) buf.

(** [abb::open_exec]. *)
Definition abb_open_exec (args : list bytes) : sprog ChannelId :=
  s_require_feature Feature.AbbExec ≫= λ _,
  dest ← lift (map_err Error.Protocol (build_nul_destination (bs "abb_exec:") args));
  s_open_channel dest.

(** The rest of [abb::exec]. *)
Definition abb_output (fuel : nat) (rx : bytes) (ch : ChannelId) : sprog bytes :=
  λ s, let '(o, (_, s')) := read_to_vec fuel ch USIZE_MAX (rx, s) in
       (outcome_bind o (λ v, match v with Some out => Ret out | None => Fail Error.ReceiveBufferFull end), s').

Definition abb_exec (fuel : nat) (args : list bytes) (rx : bytes) : sprog bytes :=
  ch ← abb_open_exec args;
  abb_output fuel rx ch.

(** [Shell::new] on an open channel. *)
Definition shell_over (rx : bytes) (ch : ChannelId) : sprog (ChannelId * Shell) :=
  match shell_new rx with Some sh => mret (ch, sh) | None => panic end.

(** [abb::open]. *)
Definition abb_open (args : list bytes) (rx : bytes) : sprog (ChannelId * Shell) :=
  s_require_feature Feature.Abb ≫= λ _,
  dest ← lift (map_err Error.Protocol (build_nul_destination (bs "abb:") args));
  ch ← s_open_channel dest;
  shell_over rx ch.

(** [cmd.rs]. *)
Definition PROGRAM : bytes := bs "cmd".

Definition needs_shell (args : list bytes) : bool := existsb (λ a, bool_decide (a = [])) args.

(** The stdout of [run_to_exit] in a shell over the channel. *)
Definition shell_output (frames fuel : nat) (rx : bytes) (ch : ChannelId) : sprog bytes :=
  out ← with_shell rx (run_to_exit frames fuel ch); mret (o_stdout out).

Definition cmd_exec (frames fuel : nat) (args : list bytes) (rx : bytes) : sprog bytes :=
  abb ← gets (λ s, s_advertises s Feature.AbbExec);
  if (abb : bool) && negb (needs_shell args) then abb_exec fuel args rx
  else
    ch ← open_argv PROGRAM args rx;
    shell_output frames fuel rx ch.

Definition cmd_open (args : list bytes) (rx : bytes) : sprog (ChannelId * Shell) :=
  abb ← gets (λ s, s_advertises s Feature.Abb);
  if (abb : bool) && negb (needs_shell args) then abb_open args rx
  else
    ch ← open_argv PROGRAM args rx;
    shell_over rx ch.
End Services.

(** ** Routes *)

(** The arguments in a destination of the binder bridge, and in one of the
    shell. *)
Definition by_binder (service dest : bytes) (args : list bytes) : Prop :=
  ∃ tail, dest = service ++ tail ∧
    Text.split (eqb NUL) tail = (match args with [] => [[]] | _ => args end) ++ [[]].

Definition by_shell (dest : bytes) (args : list bytes) : Prop :=
  ∃ line, dest = bs "shell,v2,raw:" ++ line ++ [NUL] ∧ shell_words line = Some (PROGRAM :: args).

Section Routes.
Context {Ses IoE : Type} `{Session Ses IoE}.

Abbreviation refused := (Fail (Error.Protocol ProtocolError.InvalidDestination)).

(** [m] runs the program with [args]: by the bridge, if [feature] says there is
    one and it can take the arguments, and otherwise by the shell. *)
Definition runs {A} (args : list bytes) (rx : bytes) (feature : Feature) (service : bytes)
    (m : prog Ses (Error IoE) A) (bridged shelled : ChannelId → prog Ses (Error IoE) A) (s : Ses) : Prop :=
  if s_advertises s feature && negb (needs_shell args) then
    if existsb has_nul args then m s = (refused, s)
    else ∃ dest, by_binder service dest args ∧ m s = (s_open_channel dest ≫= bridged) s
  else if negb (s_advertises s Feature.ShellV2) then
    m s = (Fail (Error.MissingFeature Feature.ShellV2), s)
  else if existsb has_nul args then m s = (refused, s)
  else if len rx <? len (rendering [bs "shell,v2,raw:"; PROGRAM] args) then
    m s = (Fail Error.ReceiveBufferFull, s)
  else ∃ dest, by_shell dest args ∧ m s = (s_open_channel dest ≫= shelled) s.

Lemma needs_shell_false args :
  needs_shell args = false → existsb has_nul args = false → Forall (λ a, a ≠ [] ∧ has_nul a = false) args.
Proof.
  intros He Hn. apply Forall_forall. intros a Ha. split.
  - intros ->. assert (needs_shell args = true); [|congruence].
    apply existsb_exists. exists []. split; [by apply list_elem_of_In|by rewrite bool_decide_true].
  - destruct (has_nul a) eqn:Hh; [|done]. assert (existsb has_nul args = true); [|congruence].
    apply existsb_exists. exists a. split; [by apply list_elem_of_In|done].
Qed.

(** The destination of the bridge, for arguments it can take. *)
Lemma binder_destination service args :
  has_nul service = false → needs_shell args = false →
  if existsb has_nul args then build_nul_destination service args = Err ProtocolError.InvalidDestination
  else ∃ dest, build_nul_destination service args = Ok dest ∧ by_binder service dest args.
Proof.
  intros Hs He. destruct (nul_destination_splits service args) as [Hok Hsplit].
  destruct (existsb has_nul args) eqn:Hn.
  - apply existsb_exists in Hn as (a & Ha & Hh). unfold build_nul_destination. rewrite Hs. simpl.
    assert (existsb (λ a, bool_decide (a = []) || has_nul a) args = true) as ->; [|done].
    apply existsb_exists. exists a. split; [done|]. rewrite Hh. apply orb_true_r.
  - destruct (build_nul_destination service args) as [dest|e] eqn:Hb.
    + exists dest. split; [done|]. destruct (Hsplit dest eq_refl) as (tail & -> & _ & Ht). by exists tail.
    + assert (is_ok (Err e : result ProtocolError bytes) = true); [|done].
      apply Hok. split; [done|]. by apply needs_shell_false.
Qed.

(** The open by the shell. *)
Lemma open_argv_route {A} args rx s (k : ChannelId → prog Ses (Error IoE) A) :
  len rx <= USIZE_MAX → s_advertises s Feature.ShellV2 = true →
  let m := open_argv PROGRAM args rx ≫= k in
  if existsb has_nul args then m s = (refused, s)
  else if len rx <? len (rendering [bs "shell,v2,raw:"; PROGRAM] args) then m s = (Fail Error.ReceiveBufferFull, s)
  else ∃ dest, by_shell dest args ∧ m s = (s_open_channel dest ≫= k) s.
Proof.
  intros Hb Hv m. unfold m, open_argv, write_argv_destination, s_require_feature, mbind, prog_bind. rewrite Hv.
  destruct (existsb has_nul args) eqn:Hn.
  { assert (write_destination [bs "shell,v2,raw:"; PROGRAM] args rx = (Fail DestinationError.Nul, rx)) as ->; [|done].
    unfold write_destination. by rewrite Hn, orb_true_r. }
  pose proof (write_destination_spec [bs "shell,v2,raw:"; PROGRAM] args rx Hb) as Hs. rewrite Hn in Hs.
  specialize (Hs eq_refl). cbv zeta in Hs. set (text := rendering _ _) in *.
  destruct (Z.leb_spec (len text) (len rx)), (Z.ltb_spec (len rx) (len text)); try lia.
  - exists text. split.
    + assert (len rx <= USIZE_MAX ∧ plain PROGRAM) as [Hb' Hp].
      { split; [done|]. split; [done|]. by repeat (apply Forall_cons_2; [done|]). }
      destruct (arguments_survive_shell _ _ _ _ _ _ Hb' Hp Hs) as (line & Hl & Hw). exists line. split; [|done].
      rewrite <- Hl. unfold zsplice. rewrite (ztake_nonpos 0) by lia. cbn [app]. by rewrite ztake_app_len.
    + rewrite Hs. unfold zsplice. rewrite (ztake_nonpos 0) by lia. cbn [app]. by rewrite ztake_app_len.
  - by destruct Hs as [buf' ->].
Qed.

(** Either route, from where the code takes it. *)
Lemma runs_bridged {A} args rx feature service (m : prog Ses (Error IoE) A) bridged shelled s :
  s_advertises s feature && negb (needs_shell args) = true → has_nul service = false →
  m s = ((dest ← lift (map_err Error.Protocol (build_nul_destination service args));
          s_open_channel dest) ≫= bridged) s →
  runs args rx feature service m bridged shelled s.
Proof.
  intros Habb Hsv Hm. unfold runs. rewrite Habb. apply andb_prop in Habb as [_ He%negb_true_iff].
  pose proof (binder_destination service args Hsv He) as Hd. rewrite Hm. unfold mbind, prog_bind.
  destruct (existsb has_nul args); [by rewrite Hd|]. destruct Hd as (dest & -> & Hd). by exists dest.
Qed.

Lemma runs_shelled {A} args rx feature service (m : prog Ses (Error IoE) A) bridged shelled s :
  len rx <= USIZE_MAX → s_advertises s feature && negb (needs_shell args) = false →
  m s = (open_argv PROGRAM args rx ≫= shelled) s →
  runs args rx feature service m bridged shelled s.
Proof.
  intros Hb Habb Hm. unfold runs. rewrite Habb, Hm.
  destruct (s_advertises s Feature.ShellV2) eqn:Hv; [by apply open_argv_route|].
  unfold open_argv, s_require_feature, mbind, prog_bind. by rewrite Hv.
Qed.

(** The arguments of [cmd::exec] and [cmd::open] reach the program as they were
    given, whichever route is taken: the bridge when the device has it and no
    argument is empty, as the bridge could not carry it, the shell otherwise.
    A NUL in an argument, a device with neither route and a buffer too short
    for the shell's command line are refused with nothing opened. *)
Theorem cmd_arguments_arrive frames fuel args rx s :
  len rx <= USIZE_MAX →
  runs args rx Feature.AbbExec (bs "abb_exec:") (cmd_exec frames fuel args rx)
    (abb_output fuel rx) (shell_output frames fuel rx) s ∧
  runs args rx Feature.Abb (bs "abb:") (cmd_open args rx) (shell_over rx) (shell_over rx) s.
Proof.
  intros Hb. split.
  - unfold cmd_exec. destruct (s_advertises s Feature.AbbExec && negb (needs_shell args)) eqn:Habb.
    + apply runs_bridged; [done..|]. unfold abb_exec, abb_open_exec, s_require_feature, mbind, prog_bind, gets.
      rewrite Habb. apply andb_prop in Habb as [-> _]. done.
    + apply runs_shelled; [done..|]. unfold mbind at 1, prog_bind, gets. by rewrite Habb.
  - unfold cmd_open. destruct (s_advertises s Feature.Abb && negb (needs_shell args)) eqn:Habb.
    + apply runs_bridged; [done..|]. unfold abb_open, s_require_feature, mbind, prog_bind, gets.
      rewrite Habb. apply andb_prop in Habb as [-> _].
      by destruct (build_nul_destination (bs "abb:") args).
    + apply runs_shelled; [done..|]. unfold mbind at 1, prog_bind, gets. by rewrite Habb.
Qed.
End Routes.

(** ** Whole outputs *)

Section Outputs.
Context {Ses IoE : Type} `{SessionLaws Ses IoE} (fuel : nat).

(** A one-shot call that opens [dest] and returns [output] of its result: all
    the channel handed over until it closed.  [cap] is the room for it. *)
Definition whole {A} (dest : bytes) (cap : Z) (output : A → bytes) (m : prog Ses (Error IoE) A) (s : Ses) : Prop :=
  match s_open_channel dest s with
  | (Ret ch, s1) =>
      s_ok s1 → (reads_left s1 ch < fuel)%nat →
      let '(o, s') := m s in
      o = Dropped ∨ ∃ s2, s' = snd (s_close_channel ch s2) ∧
      match o with
      | Ret a => len (output a) <= cap ∧ gave ch s1 (output a) Error.ChannelClosed s2
      | Fail e =>
          (e = Error.ReceiveBufferFull ∧ ∃ out, cap < len out ∧ gave_more ch s1 out s2) ∨
          (e ≠ Error.ChannelClosed ∧ ∃ out, gave ch s1 out e s2)
      | _ => False
      end
  | (o, s1) => m s = (outcome_bind o (λ _, NoFuel), s1)
  end.

Definition output_at (x : Z * bytes) : bytes := ztake (fst x) (snd x).

(** A destination that fits the buffer. *)
Lemma exec_at_whole prefix command buf s :
  len buf <= USIZE_MAX → has_nul prefix = false → has_nul command = false →
  len (prefix ++ command ++ [NUL]) <= len buf →
  whole (prefix ++ command ++ [NUL]) (len buf) output_at
    (exec_at fuel (write_destination [prefix; command] []) buf) s.
Proof.
  intros Hb Hp Hc Hfit. unfold whole, exec_at, open_at, mbind, prog_bind.
  pose proof (write_destination_spec [prefix; command] [] buf Hb) as Hs. cbn [existsb] in Hs.
  rewrite Hp, Hc in Hs. specialize (Hs eq_refl). cbv zeta in Hs.
  assert (rendering [prefix; command] [] = prefix ++ command ++ [NUL]) as Hr
    by (unfold rendering; simpl; by rewrite app_nil_r, <- app_assoc). rewrite Hr in Hs.
  destruct (Z.leb_spec (len (prefix ++ command ++ [NUL])) (len buf)); [|lia]. rewrite Hs.
  set (dest := prefix ++ command ++ [NUL]) in *. set (buf' := zsplice 0 dest buf).
  assert (ztake (len dest) buf' = dest) as ->
    by (unfold buf', zsplice; rewrite (ztake_nonpos 0) by lia; cbn [app]; by rewrite ztake_app_len).
  assert (len buf' = len buf) as Hl by (apply len_zsplice; lia).
  destruct (s_open_channel dest s) as [[ch|e| | |] s1]; try done. intros Hok Hf.
  pose proof (read_to_end_drains fuel ch buf' s1 Hok Hf) as Hd. cbn [mret prog_ret]. unfold read_all.
  destruct (read_to_end fuel ch (buf', s1)) as [o [b s2]].
  destruct Hd as [->|(s3 & Hs3 & Hlb & Ho)]; [by left|]. right. exists s3. split; [done|]. cbn [fst snd] in *.
  destruct o as [n|e| | |]; try done; simpl.
  - destruct Ho as [Hn Hg]. split; [|done]. unfold output_at. cbn [fst snd]. rewrite len_ztake. lia.
  - destruct Ho as (out & [(-> & Hlt & Hg)|(Hne & Hg)]); [left|right]; (split; [done|]); exists out; [|done].
    split; [lia|done].
Qed.

(** The one-shot calls return the whole output of the command they ran, up to
    the device's close of the channel, or fail: with [ReceiveBufferFull] once
    there is more than the buffer holds, and with the channel's own error
    otherwise.  They open the destination of their service with the command as
    given, and close the channel on every way out but a drop. *)
Theorem outputs_whole command buf args rx dest s :
  len buf <= USIZE_MAX → has_nul command = false → len (bs "shell:" ++ command ++ [NUL]) <= len buf →
  0 < len rx → build_nul_destination (bs "abb_exec:") args = Ok dest →
  s_advertises s Feature.AbbExec = true →
  whole (bs "exec:" ++ command ++ [NUL]) (len buf) output_at (exec_exec fuel command buf) s ∧
  whole (bs "shell:" ++ command ++ [NUL]) (len buf) output_at (shell_v1_exec fuel command buf) s ∧
  whole dest USIZE_MAX id (abb_exec fuel args rx) s.
Proof.
  intros Hb Hc Hfit Hrx Hd Hf. split; [|split].
  - apply exec_at_whole; [done..|]. rewrite !len_app in *. simpl in *. change (len (bs "exec:")) with 5.
    change (len (bs "shell:")) with 6 in Hfit. lia.
  - by apply exec_at_whole.
  - unfold whole, abb_exec, abb_open_exec, s_require_feature, mbind, prog_bind. rewrite Hf, Hd.
    cbn [lift map_err]. destruct (s_open_channel dest s) as [[ch|e| | |] s1]; try done. intros Hok Hl.
    pose proof (read_to_vec_drains fuel ch USIZE_MAX rx s1 Hrx ltac:(by vm_compute) Hok Hl) as Hr.
    unfold abb_output. destruct (read_to_vec fuel ch USIZE_MAX (rx, s1)) as [o [b s2]].
    destruct Hr as [->|(s3 & Hs3 & Hlb & Ho)]; [by left|]. right. exists s3. split; [done|].
    destruct o as [[v|]|e| | |]; try done; simpl.
    + by left.
    + right. done.
Qed.
End Outputs.

(** ** A sample device *)

(** It takes an OPEN and answers two packets of output and a close. *)
Definition service_conn : conn Script.script :=
  let fr p := match frame Checksum.Skip p with Ok f => f | Err _ => [] end in
  mkConn
    (mkWire (Script.mkScript
       (fr (mkPacket Command.Ready 8 3 []) ++ fr (mkPacket Command.Write 8 3 (bs "hello "))
        ++ fr (mkPacket Command.Write 8 3 (bs "world")) ++ fr (mkPacket Command.Close 8 3 []))
       [] [IoOk 30; IoOk 2]) [] false)
    (mkTable [None] 3 sample_policy)
    (mkNegotiated 4096 ADB_VERSION config_embedded false
       (mkBanner [] (0, 0) (0, 0) [] [Feature.AbbExec; Feature.ShellV2])) [].

#[local] Instance service_session : Session (conn Script.script) Script.error := conn_session 10.
#[local] Instance service_laws : SessionLaws (conn Script.script) Script.error := conn_session_laws 10.

Lemma cmd_arguments_arrive_witness :
  fst (cmd_exec 20 20 [bs "package"; bs "list"] (replicate 64 x00) service_conn) = Ret (bs "hello world") ∧
  runs [bs "a b"; []] (replicate 64 x00) Feature.AbbExec (bs "abb_exec:")
    (cmd_exec 20 20 [bs "a b"; []] (replicate 64 x00)) (abb_output 20 (replicate 64 x00))
    (shell_output 20 20 (replicate 64 x00)) service_conn.
Proof.
  split; [by vm_compute|].
  exact (proj1 (cmd_arguments_arrive 20 20 [bs "a b"; []] (replicate 64 x00) service_conn ltac:(by vm_compute))).
Defined.

Lemma outputs_whole_witness :
  fst (shell_v1_exec 20 (bs "ls") (replicate 11 x00) service_conn) = Ret (11, bs "hello world") ∧
  fst (shell_v1_exec 20 (bs "ls") (replicate 10 x00) service_conn) = Fail Error.ReceiveBufferFull ∧
  whole 20 (bs "shell:" ++ bs "ls" ++ [NUL]) 11 output_at (shell_v1_exec 20 (bs "ls") (replicate 11 x00)) service_conn ∧
  whole 20 (bs "abb_exec:a" ++ [NUL]) USIZE_MAX id (abb_exec 20 [bs "a"] (replicate 4 x00)) service_conn.
Proof.
  split; [by vm_compute|]. split; [by vm_compute|].
  destruct (outputs_whole 20 (bs "ls") (replicate 11 x00) [bs "a"] (replicate 4 x00) (bs "abb_exec:a" ++ [NUL])
    service_conn ltac:(by vm_compute) ltac:(by vm_compute) ltac:(by vm_compute) ltac:(by vm_compute)
    ltac:(by vm_compute) ltac:(by vm_compute)) as (_ & Hs & Ha).
  split; [exact Hs|exact Ha].
Defined.
