(* ===== verification/Keys.v ===== *)
(** * Host keys ([keys/pubkey.rs], [keys/record.rs], [keys.rs])

    The public key as a device reads it: mincrypt's struct, with the constants
    its Montgomery multiplication needs, in base64 and with a name.
    [public_key_struct] is that the struct is right for every key it is made
    for, and that it is made for every key it can express; [key_line_reads] what
    a device finds in the line.  A key record keeps a private key where there is
    no file system: [records_read_exactly], and [record_corruption_found] that
    no change to one of its bytes goes unnoticed.  RSA keys are the numbers they
    are made of; base64 is an interface with the laws of RFC 4648. *)

From S2P Require Import Prelude Errors Protocol Text.

Module KeyError.
Inductive KeyError : Type :=
| InvalidName
| NameTooLong (n : Z)
| UnsupportedModulus (bits : Z)
| EvenModulus
| UnsupportedExponent
| InvalidToken (n : Z)
| PayloadTooLarge (n : Z).
End KeyError.
Abbreviation KeyError := KeyError.KeyError.

(** ** [keys/pubkey.rs] *)

Definition MODULUS_SIZE : Z := 256.
Definition MODULUS_WORDS : Z := MODULUS_SIZE / 4.
Definition ENCODED_SIZE : Z := 4 + 4 + MODULUS_SIZE + MODULUS_SIZE + 4.
Definition PREFIX_LEN : Z := (ENCODED_SIZE + 2) / 3 * 4 + 1.

(** [KeyName::new]: a checked name is its bytes. *)
Definition key_name_new (name : bytes) : result KeyError bytes :=
  if existsb (λ b, contains b [x00; x0d; x0a]) name then Err KeyError.InvalidName
  else if MAX_PAYLOAD - PREFIX_LEN - 1 <? len name then Err (KeyError.NameTooLong (len name))
  else Ok name.

(** [RsaPublicKey]: its modulus and exponent. *)
Record RsaPublicKey : Type := mkPublicKey { key_n : Z; key_e : Z }.

(** [BigUint::bits] and [BigUint::to_bytes_le], and [Vec::resize] with zeros. *)
Definition bits (n : Z) : Z := if n =? 0 then 0 else Z.log2 n + 1.

Definition to_bytes_le (n : Z) : bytes := le_bytes (Z.to_nat (Z.max 1 ((bits n + 7) / 8))) n.

Definition resize (size : Z) (b : bytes) : bytes :=
  ztake size b ++ replicate (Z.to_nat (size - len b)) x00.

(** [neg_inverse_mod_2_32] and its loop. *)
Definition newton (n0 inv : Z) : Z := wrap_u32 (inv * wrap_u32 (2 - wrap_u32 (n0 * inv))).

Definition neg_inverse_mod_2_32 (n0 : Z) : Z := wrap_u32 (- Nat.iter 4 (newton n0) n0).

Definition mincrypt_struct (key : RsaPublicKey) : result KeyError bytes :=
  let n := key_n key in
  let bits := bits n in
  if negb (bits =? MODULUS_SIZE * 8) then Err (KeyError.UnsupportedModulus bits)
  else
    let n_le := resize MODULUS_SIZE (to_bytes_le n) in
    let n0 := le_val (ztake 4 n_le) in
    if n0 mod 2 =? 0 then Err KeyError.EvenModulus
    else
      let n0inv := neg_inverse_mod_2_32 n0 in
      let rr_le := resize MODULUS_SIZE (to_bytes_le (Z.shiftl 1 (MODULUS_SIZE * 16) mod n)) in
      let e_le := to_bytes_le (key_e key) in
      if 4 <? len e_le then Err KeyError.UnsupportedExponent
      else
        let e_bytes := resize 4 e_le in
        let e := le_val e_bytes in
        if (e <? 3) || (e mod 2 =? 0) then Err KeyError.UnsupportedExponent
        else Ok (u32_le MODULUS_WORDS ++ u32_le n0inv ++ n_le ++ rr_le ++ e_bytes).

(** ** [keys/record.rs] *)

Definition RECORD_MAGIC : bytes := bs "ADBKEY" ++ [x00; x02].
Definition RECORD_HEADER_LEN : Z := 8 + 4 + 4.

(** [crc32]: a bit, a byte, the whole. *)
Definition crc_bit (crc : Z) : Z :=
  let mask := wrap_u32 (- Z.land crc 1) in
  Z.lxor (Z.shiftr crc 1) (Z.land 0xEDB88320 mask).

Definition crc_byte (crc : Z) (b : byte) : Z := Nat.iter 8 crc_bit (Z.lxor crc (u8 b)).

Definition crc32 (b : bytes) : Z := U32_MAX - foldl crc_byte U32_MAX b.

Definition record_header (payload_len crc : Z) : result KeyError bytes :=
  if U32_MAX <? payload_len then Err (KeyError.PayloadTooLarge payload_len)
  else Ok (RECORD_MAGIC ++ u32_le payload_len ++ u32_le crc).

Definition encode_key_record (der : bytes) : result KeyError bytes :=
  h ← record_header (len der) (crc32 der);
  Ok (h ++ der).

Definition decode_key_record (b : bytes) : option bytes :=
  if (len b <? RECORD_HEADER_LEN) || negb (bool_decide (ztake 8 b = RECORD_MAGIC)) then None
  else
    let n := u32_at 8 b in
    let want := u32_at 12 b in
    let rest := zdrop RECORD_HEADER_LEN b in
    if len rest <? n then None
    else
      let der := ztake n rest in
      if crc32 der =? want then Some der else None.

(** ** [keys.rs] *)

Definition TOKEN_LEN : Z := 20.

Section Key.
(** [Base64::encode_string], and the signature of a key on a token, which may
    fail. *)
Context (encode_string : bytes → bytes) {RsaError : Type} (sign_with : bytes → result RsaError bytes).

Definition encode_public_key (key : RsaPublicKey) (name : bytes) : result KeyError bytes :=
  blob ← mincrypt_struct key;
  let out := encode_string blob in
  Ok (match name with [] => out | _ => out ++ bs " " ++ name end).

(** [AdbKey], its public half: [from_private_key] and the two views of the
    line. *)
Definition from_private_key (key : RsaPublicKey) (name : bytes) : result KeyError bytes :=
  line ← encode_public_key key name;
  Ok (line ++ [x00]).

Definition public_key_line (wire : bytes) : bytes := ztake (len wire - 1) wire.

(** [Authenticator::sign] for a key. *)
Definition key_sign (token : bytes) : result (KeyError + RsaError) bytes :=
  if len token =? TOKEN_LEN then map_err inr (sign_with token)
  else Err (inl (KeyError.InvalidToken (len token))).
End Key.

(** ** The Montgomery constant *)

Lemma wrap_u32_off z : ∃ q, wrap_u32 z = z + 2 ^ 32 * q.
Proof. exists (- (z / 2 ^ 32)). unfold wrap_u32. rewrite Z.mod_eq by lia. lia. Qed.

(** A round of Newton's iteration, on the integers. *)
Lemma newton_off n0 inv : ∃ q, n0 * newton n0 inv - 1 = - (n0 * inv - 1) * (n0 * inv - 1) + 2 ^ 32 * q.
Proof.
  unfold newton. destruct (wrap_u32_off (n0 * inv)) as [a Ha]. rewrite Ha.
  destruct (wrap_u32_off (2 - (n0 * inv + 2 ^ 32 * a))) as [b Hb]. rewrite Hb.
  destruct (wrap_u32_off (inv * (2 - (n0 * inv + 2 ^ 32 * a) + 2 ^ 32 * b))) as [c Hc]. rewrite Hc.
  exists (n0 * inv * (b - a) + n0 * c). ring.
Qed.

(** It doubles the bits that are right, up to 32. *)
Lemma newton_doubles n0 inv k j :
  0 <= k → 0 <= j <= 32 → j <= 2 * k → (2 ^ k | n0 * inv - 1) → (2 ^ j | n0 * newton n0 inv - 1).
Proof.
  intros Hk Hj Hjk [m Hm]. destruct (newton_off n0 inv) as [q ->]. rewrite Hm.
  assert (∀ b, j <= b → (2 ^ j | 2 ^ b)) as Hpow.
  { intros b Hb. exists (2 ^ (b - j)). rewrite <- Z.pow_add_r by lia. f_equal. lia. }
  apply Z.divide_add_r.
  - replace (- (m * 2 ^ k) * (m * 2 ^ k)) with (- m * m * (2 ^ k * 2 ^ k)) by ring.
    rewrite <- Z.pow_add_r by lia. apply Z.divide_mul_r, Hpow. lia.
  - apply Z.divide_mul_l, Hpow. lia.
Qed.

Lemma odd_square_mod_8 n : n mod 2 ≠ 0 → (2 ^ 3 | n * n - 1).
Proof.
  intros Hn. assert (n mod 8 = 1 ∨ n mod 8 = 3 ∨ n mod 8 = 5 ∨ n mod 8 = 7) as Hc.
  { assert (n mod 2 = (n mod 8) mod 2) as H2.
    { rewrite (Z.div_mod n 8) at 1 by lia. replace (8 * (n / 8)) with (4 * (n / 8) * 2) by lia.
      by rewrite Z.add_comm, Z_mod_plus_full. }
    pose proof (Z.mod_pos_bound n 8 ltac:(lia)). rewrite H2 in Hn.
    assert (n mod 8 = 0 ∨ n mod 8 = 1 ∨ n mod 8 = 2 ∨ n mod 8 = 3 ∨ n mod 8 = 4 ∨ n mod 8 = 5 ∨ n mod 8 = 6 ∨ n mod 8 = 7)
      as Hall by lia. destruct Hall as [E|[E|[E|[E|[E|[E|[E|E]]]]]]]; rewrite E in Hn; try done; lia. }
  pose proof (Z.div_mod n 8 ltac:(lia)) as Hd. set (q := n / 8) in *.
  destruct Hc as [E|[E|[E|E]]]; rewrite E in Hd; rewrite Hd;
    [exists (8 * q * q + 2 * q)|exists (8 * q * q + 6 * q + 1)|exists (8 * q * q + 10 * q + 3)
    |exists (8 * q * q + 14 * q + 6)]; ring.
Qed.

Lemma neg_inverse_spec n0 :
  n0 mod 2 ≠ 0 → is_u32 (neg_inverse_mod_2_32 n0) ∧ (2 ^ 32 | n0 * neg_inverse_mod_2_32 n0 + 1).
Proof.
  intros Hn. unfold neg_inverse_mod_2_32. split; [apply Z.mod_pos_bound; lia|]. simpl Nat.iter.
  pose proof (odd_square_mod_8 n0 Hn) as H3. set (i1 := newton n0 n0).
  assert (2 ^ 6 | n0 * i1 - 1) as H6 by (apply (newton_doubles _ _ 3); (lia || done)).
  set (i2 := newton n0 i1). assert (2 ^ 12 | n0 * i2 - 1) as H12 by (apply (newton_doubles _ _ 6); (lia || done)).
  set (i3 := newton n0 i2). assert (2 ^ 24 | n0 * i3 - 1) as H24 by (apply (newton_doubles _ _ 12); (lia || done)).
  set (i4 := newton n0 i3). assert (2 ^ 32 | n0 * i4 - 1) as [m H32] by (apply (newton_doubles _ _ 24); (lia || done)).
  destruct (wrap_u32_off (- i4)) as [q ->]. exists (- m + n0 * q). nia.
Qed.

(** ** Numbers as bytes *)

Lemma bits_bound n : 0 <= n → 0 <= bits n ∧ n < 2 ^ bits n.
Proof.
  intros Hn. unfold bits. destruct (Z.eqb_spec n 0) as [->|]; [done|].
  pose proof (Z.log2_nonneg n). pose proof (Z.log2_spec n ltac:(lia)). rewrite Z.add_1_r. lia.
Qed.

Lemma le_val_zeros k : le_val (replicate k x00) = 0.
Proof. induction k as [|k IH]; [done|]. cbn [replicate le_val]. by rewrite IH. Qed.

Lemma le_val_app a b : le_val (a ++ b) = le_val a + 256 ^ len a * le_val b.
Proof.
  induction a as [|x a IH]; [cbn [app le_val]; change (256 ^ len []) with 1; lia|]. cbn [app le_val]. rewrite IH, len_cons.
  rewrite Z.pow_add_r by (try (apply len_nonneg); lia). change (256 ^ 1) with 256. ring.
Qed.

Lemma len_to_bytes_le n : len (to_bytes_le n) = Z.max 1 ((bits n + 7) / 8).
Proof. unfold to_bytes_le. rewrite len_le_bytes. lia. Qed.

Lemma le_val_to_bytes_le n : 0 <= n → le_val (to_bytes_le n) = n.
Proof.
  intros Hn. unfold to_bytes_le. rewrite le_val_le_bytes. apply Z.mod_small. split; [done|].
  destruct (bits_bound n Hn) as [Hb Hlt]. eapply Z.lt_le_trans; [exact Hlt|].
  change 256 with (2 ^ 8). rewrite <- Z.pow_mul_r by lia. apply Z.pow_le_mono_r; [lia|].
  pose proof (Z.div_mod (bits n + 7) 8 ltac:(lia)). pose proof (Z.mod_pos_bound (bits n + 7) 8 ltac:(lia)). lia.
Qed.

(** A number in a field with room for it. *)
Lemma resize_spec size n :
  0 <= n → len (to_bytes_le n) <= size →
  len (resize size (to_bytes_le n)) = size ∧ le_val (resize size (to_bytes_le n)) = n.
Proof.
  intros Hn Hl. pose proof (len_nonneg (to_bytes_le n)). unfold resize. rewrite ztake_all by done. split.
  - rewrite len_app. unfold len at 2. rewrite length_replicate. lia.
  - rewrite le_val_app, le_val_zeros, le_val_to_bytes_le by done. lia.
Qed.

Lemma bits_le n k : 0 <= k → 0 <= n < 2 ^ k → bits n <= k.
Proof.
  intros Hk Hn. unfold bits. destruct (Z.eqb_spec n 0); [done|].
  assert (Z.log2 n < k); [|lia]. apply Z.log2_lt_pow2; lia.
Qed.

Lemma to_bytes_le_fits n w : 0 < w → 0 <= n < 256 ^ w → len (to_bytes_le n) <= w.
Proof.
  intros Hw Hn. rewrite len_to_bytes_le. change 256 with (2 ^ 8) in Hn. rewrite <- Z.pow_mul_r in Hn by lia.
  pose proof (bits_le n (8 * w) ltac:(lia) Hn). apply Z.max_lub; [lia|].
  apply Z.lt_succ_r, Z.div_lt_upper_bound; lia.
Qed.

(** More bytes than a field has. *)
Lemma to_bytes_le_over n w : 0 < w → 256 ^ w <= n → w < len (to_bytes_le n).
Proof.
  intros Hw Hn. pose proof (le_val_to_bytes_le n) as Hv. pose proof (le_val_bound (to_bytes_le n)) as Hb.
  rewrite Hv in Hb by lia. destruct (Z.ltb_spec w (len (to_bytes_le n))); [done|].
  assert (256 ^ len (to_bytes_le n) <= 256 ^ w) by (apply Z.pow_le_mono_r; lia). lia.
Qed.

Lemma bits_2048 n : bits n = 2048 ↔ 2 ^ 2047 <= n < 2 ^ 2048.
Proof.
  unfold bits. destruct (Z.eqb_spec n 0) as [->|H0]; [split; lia|]. destruct (Z.ltb_spec 0 n).
  - split.
    + intros Hb. assert (Z.log2 n = 2047) as Hl by lia. pose proof (Z.log2_spec n ltac:(lia)) as Hs.
      by rewrite Hl in Hs.
    + intros Hn. rewrite (Z.log2_unique n 2047); lia.
  - split; [|lia]. rewrite Z.log2_nonpos by lia. lia.
Qed.

(** The low word of a number. *)
Lemma low_word l : 4 <= len l → ∃ q, le_val l = le_val (ztake 4 l) + 2 ^ 32 * q.
Proof.
  intros Hl. exists (le_val (zdrop 4 l)). rewrite <- (ztake_zdrop 4 l) at 1. rewrite le_val_app.
  rewrite len_ztake, Z.min_l by lia. done.
Qed.

Lemma mod_2_low a q : (a + 2 ^ 32 * q) mod 2 = a mod 2.
Proof. replace (2 ^ 32 * q) with (2 ^ 31 * q * 2) by lia. apply Z_mod_plus_full. Qed.

(** The keys the struct can express. *)
Definition expressible (key : RsaPublicKey) : Prop :=
  2 ^ 2047 <= key_n key < 2 ^ 2048 ∧ key_n key mod 2 ≠ 0 ∧ 3 <= key_e key < 2 ^ 32 ∧ key_e key mod 2 ≠ 0.

(** What a struct says, field by field. *)
Definition describes (out : bytes) (key : RsaPublicKey) : Prop :=
  len out = ENCODED_SIZE ∧ u32_at 0 out = MODULUS_WORDS ∧ (2 ^ 32 | key_n key * u32_at 4 out + 1) ∧
  le_val (zslice 8 264 out) = key_n key ∧ le_val (zslice 264 520 out) = 2 ^ 4096 mod key_n key ∧
  u32_at 520 out = key_e key.

Lemma fields_of a b (n r e : bytes) :
  is_u32 a → is_u32 b → len n = 256 → len r = 256 → len e = 4 →
  let out := u32_le a ++ u32_le b ++ n ++ r ++ e in
  len out = ENCODED_SIZE ∧ u32_at 0 out = a ∧ u32_at 4 out = b ∧ zslice 8 264 out = n ∧
  zslice 264 520 out = r ∧ u32_at 520 out = le_val e.
Proof.
  intros Ha Hb Hn Hr He out. unfold out. split_and!.
  - rewrite !len_app, !len_u32_le, Hn, Hr, He. done.
  - by apply u32_at_head.
  - rewrite u32_at_skip by lia. by apply u32_at_head.
  - unfold zslice. rewrite !zdrop_app_ge by zlen. rewrite !len_u32_le. rewrite zdrop_nonpos by lia.
    apply ztake_app_len. lia.
  - unfold zslice. rewrite !zdrop_app_ge by (rewrite ?len_u32_le; lia). rewrite !len_u32_le, Hn.
    rewrite zdrop_nonpos by lia. apply ztake_app_len. lia.
  - rewrite !u32_at_app_r by (rewrite ?len_u32_le; lia). rewrite !len_u32_le, Hn, Hr. unfold u32_at, zslice.
    rewrite zdrop_nonpos by lia. by rewrite ztake_all by lia.
Qed.

Lemma modulus_fields n :
  2 ^ 2047 <= n < 2 ^ 2048 →
  let n_le := resize MODULUS_SIZE (to_bytes_le n) in
  let rr_le := resize MODULUS_SIZE (to_bytes_le (Z.shiftl 1 (MODULUS_SIZE * 16) mod n)) in
  len n_le = 256 ∧ le_val n_le = n ∧ len rr_le = 256 ∧ le_val rr_le = 2 ^ 4096 mod n ∧
  ∃ q, n = le_val (ztake 4 n_le) + 2 ^ 32 * q.
Proof.
  intros Hn. cbv zeta. assert (Z.shiftl 1 (MODULUS_SIZE * 16) = 2 ^ 4096) as -> by (by vm_compute).
  assert (0 < n) as Hpos by lia. pose proof (Z.mod_pos_bound (2 ^ 4096) n Hpos) as Hr.
  set (rr := 2 ^ 4096 mod n) in *. change (2 ^ 2048) with (256 ^ 256) in Hn. unfold MODULUS_SIZE.
  destruct (resize_spec 256 n) as [Hl Hv]; [lia|apply to_bytes_le_fits; lia|].
  destruct (resize_spec 256 rr) as [Hlr Hvr]; [lia|apply to_bytes_le_fits; lia|].
  split_and!; try done. destruct (low_word (resize 256 (to_bytes_le n)) ltac:(lia)) as [q Hq].
  exists q. by rewrite <- Hq.
Qed.

Lemma public_key_struct_fields key :
  0 <= key_n key → 0 <= key_e key →
  match mincrypt_struct key with
  | Ok out => expressible key ∧ describes out key
  | Err (KeyError.UnsupportedModulus b) => b = bits (key_n key) ∧ ¬ 2 ^ 2047 <= key_n key < 2 ^ 2048
  | Err KeyError.EvenModulus => key_n key mod 2 = 0
  | Err KeyError.UnsupportedExponent => ¬ (3 <= key_e key < 2 ^ 32 ∧ key_e key mod 2 ≠ 0)
  | Err _ => False
  end.
Proof.
  intros Hn He. unfold mincrypt_struct. change (MODULUS_SIZE * 8) with 2048.
  destruct (Z.eqb_spec (bits (key_n key)) 2048) as [Hb|Hb].
  2: { simpl. split; [done|]. by rewrite <- bits_2048. }
  apply bits_2048 in Hb. cbn [negb].
  pose proof (modulus_fields _ Hb) as (Hl & Hv & Hlr & Hvr & q & Hq). cbv zeta in *.
  set (n_le := resize MODULUS_SIZE (to_bytes_le (key_n key))) in *.
  set (rr_le := resize MODULUS_SIZE (to_bytes_le (Z.shiftl 1 (MODULUS_SIZE * 16) mod key_n key))) in *.
  set (n0 := le_val (ztake 4 n_le)) in *. assert (key_n key mod 2 = n0 mod 2) as Hodd by (rewrite Hq; apply mod_2_low).
  destruct (Z.eqb_spec (n0 mod 2) 0); [congruence|]. destruct (neg_inverse_spec n0 ltac:(done)) as [Hu [m Hm]].
  destruct (Z.ltb_spec 4 (len (to_bytes_le (key_e key)))) as [H4|H4].
  { intros [[_ Hlt] _]. pose proof (to_bytes_le_fits (key_e key) 4 ltac:(lia) ltac:(lia)). lia. }
  destruct (resize_spec 4 (key_e key) He H4) as [Hle Hve]. rewrite Hve.
  destruct (Z.ltb_spec (key_e key) 3); cbn [orb]; [lia|].
  destruct (Z.eqb_spec (key_e key mod 2) 0) as [H2|]; [intros [_ Hne]; exact (Hne H2)|].
  assert (is_u32 MODULUS_WORDS) as Hw by (vm_compute; intuition congruence).
  destruct (fields_of _ _ _ _ _ Hw Hu Hl Hlr Hle) as (F1 & F2 & F3 & F4 & F5 & F6). split.
  - split; [done|]. split; [congruence|]. split; [|done]. split; [done|].
    destruct (Z.ltb_spec (key_e key) (2 ^ 32)); [done|].
    pose proof (to_bytes_le_over (key_e key) 4 ltac:(lia) ltac:(lia)). lia.
  - split_and!; [done|done| |by rewrite F4|by rewrite F5|by rewrite F6].
    rewrite F3, Hq. exists (m + q * neg_inverse_mod_2_32 n0). nia.
Qed.

(** The struct is made for exactly the keys it can express, RSA-2048 with an
    odd exponent of 32 bits, and its fields are the key's: the modulus and the
    exponent whole, with the two constants of Montgomery multiplication, the
    negated inverse of the modulus to the word and the square of the radix,
    2^4096, reduced. *)
Theorem public_key_struct key :
  0 <= key_n key → 0 <= key_e key →
  match mincrypt_struct key with
  | Ok out => expressible key ∧ describes out key
  | Err (KeyError.UnsupportedModulus b) => b = bits (key_n key) ∧ ¬ 2 ^ 2047 <= key_n key < 2 ^ 2048
  | Err KeyError.EvenModulus => key_n key mod 2 = 0
  | Err KeyError.UnsupportedExponent => ¬ (3 <= key_e key < 2 ^ 32 ∧ key_e key mod 2 ≠ 0)
  | Err _ => False
  end.
Proof. apply public_key_struct_fields. Qed.

(** ** The public-key line *)

(** The characters of base64, padding included (RFC 4648). *)
Definition BASE64_CHARS : bytes :=
  bs "ABCDEFGHIJKLMNOPQRSTUVWXYZabcdefghijklmnopqrstuvwxyz0123456789+/=".

(** What RFC 4648 says of an encoding: its characters and its length. *)
Class Base64Laws (encode_string : bytes → bytes) : Prop := {
  b64_chars b : Forall (λ c, c ∈ BASE64_CHARS) (encode_string b);
  b64_len b : len (encode_string b) = (len b + 2) / 3 * 4;
}.

Section Line.
Context (encode_string : bytes → bytes) `{Base64Laws encode_string}.

Definition breaks_line (c : byte) : bool := contains c [x00; x0d; x0a].

Lemma base64_unbroken c : c ∈ BASE64_CHARS → breaks_line c = false ∧ c ≠ " "%byte.
Proof.
  intros Hc. assert (forallb (λ c, negb (breaks_line c) && negb (eqb c " ")) BASE64_CHARS = true) as Hall
    by (by vm_compute).
  rewrite forallb_forall in Hall. apply list_elem_of_In, Hall in Hc. bool_facts. split; [done|].
  intros ->. done.
Qed.

Lemma unbroken_text b : Forall (λ c, breaks_line c = false) (encode_string b).
Proof. eapply Forall_impl; [apply b64_chars|]. intros c Hc. by apply base64_unbroken. Qed.

Lemma no_space_text b : Forall (λ c, c ≠ " "%byte) (encode_string b).
Proof. eapply Forall_impl; [apply b64_chars|]. intros c Hc. by apply base64_unbroken. Qed.

(** The line of a key with a checked name, whatever the key. *)
Lemma key_line_parts key given name wire :
  key_name_new given = Ok name → from_private_key encode_string key name = Ok wire →
  name = given ∧ len given <= MAX_PAYLOAD - PREFIX_LEN - 1 ∧
  ∃ line blob, wire = line ++ [x00] ∧ public_key_line wire = line ∧
    Forall (λ c, breaks_line c = false) line ∧ mincrypt_struct key = Ok blob ∧
    line = encode_string blob ++ (if bool_decide (name = []) then [] else bs " " ++ name).
Proof.
  intros Hname Hw. unfold key_name_new in Hname.
  destruct (existsb _ given) eqn:Hbad; [done|]. destruct (Z.ltb_spec (MAX_PAYLOAD - PREFIX_LEN - 1) (len given)) as [|Hl];
    [done|]. injection Hname as <-. unfold from_private_key, encode_public_key in Hw.
  destruct (mincrypt_struct key) as [blob|]; [|done]. bind_simpl. injection Hw as <-.
  split; [done|]. split; [lia|]. set (tail := if bool_decide (given = []) then [] else bs " " ++ given).
  assert (match given with [] => encode_string blob | _ => encode_string blob ++ " "%byte :: given end
    = encode_string blob ++ tail) as -> by (unfold tail; destruct given; by rewrite ?app_nil_r).
  exists (encode_string blob ++ tail), blob. split_and!; try done.
  - unfold public_key_line. rewrite len_app. apply ztake_app_len. rewrite len_cons, len_nil. lia.
  - apply Forall_app_2; [apply unbroken_text|]. unfold tail. case_bool_decide; [done|].
    apply Forall_cons_2; [done|]. apply Forall_forall. intros c Hin.
    change (existsb breaks_line given = false) in Hbad. destruct (breaks_line c) eqn:Hb; [|done].
    assert (existsb breaks_line given = true); [|congruence].
    apply existsb_exists. exists c. split; [by apply list_elem_of_In|done].
Qed.

(** The payload of AUTH(RSAPUBLICKEY), for a key and a checked name.  It fits
    one packet whatever the name; it is one line, which ends where the NUL
    does; up to its first space that line is the base64 of a struct that
    describes the key, and past it is the name as given.  The line without the
    NUL is what a pairing sends and a key file holds. *)
Theorem key_line_reads key given name wire :
  0 <= key_n key → 0 <= key_e key → key_name_new given = Ok name →
  from_private_key encode_string key name = Ok wire →
  name = given ∧ len wire <= MAX_PAYLOAD ∧
  ∃ line blob, wire = line ++ [x00] ∧ public_key_line wire = line ∧
    Forall (λ c, breaks_line c = false) line ∧ mincrypt_struct key = Ok blob ∧ describes blob key ∧
    Forall (λ c, c ≠ " "%byte) (encode_string blob) ∧
    line = encode_string blob ++ (if bool_decide (name = []) then [] else bs " " ++ name).
Proof.
  intros Hn He Hname Hw. destruct (key_line_parts _ _ _ _ Hname Hw) as (-> & Hl & line & blob & -> & Hp & Hu & Hb & Hline).
  pose proof (public_key_struct_fields key Hn He) as Hs. rewrite Hb in Hs. destruct Hs as [_ Hd].
  split; [done|]. split; [|exists line, blob; by split_and!; try apply no_space_text].
  rewrite Hline, !len_app, b64_len, (proj1 Hd).
  assert (len (if bool_decide (given = []) then [] else bs " " ++ given) <= len given + 1).
  { case_bool_decide; [pose proof (len_nonneg given); by rewrite len_nil; lia|]. rewrite len_app. change (len (bs " ")) with 1. lia. }
  rewrite len_cons, len_nil. change (_ * 4) with 700. change (MAX_PAYLOAD - PREFIX_LEN - 1) with (MAX_PAYLOAD - 702) in Hl.
  lia.
Qed.
End Line.

(** ** The checksum *)

Definition CRC_POLY : Z := 0xEDB88320.

Lemma crc_bit_cases x : crc_bit x = Z.lxor (Z.shiftr x 1) (if Z.odd x then CRC_POLY else 0).
Proof.
  unfold crc_bit. change (Z.land x 1) with (Z.land x (Z.ones 1)). rewrite Z.land_ones by lia. change (2 ^ 1) with 2. rewrite Zmod_odd.
  by destruct (Z.odd x).
Qed.

Lemma lxor_u32 a b : is_u32 a → is_u32 b → is_u32 (Z.lxor a b).
Proof.
  intros Ha Hb. unfold is_u32 in *. split; [apply Z.lxor_nonneg; lia|].
  destruct (decide (Z.lxor a b = 0)) as [->|H0]; [lia|]. assert (0 <= Z.lxor a b) by (apply Z.lxor_nonneg; lia).
  apply Z.log2_lt_pow2; [lia|]. pose proof (Z.log2_lxor a b ltac:(lia) ltac:(lia)).
  assert (∀ c, 0 <= c < 2 ^ 32 → Z.log2 c < 32) as Hlog.
  { intros c Hc. destruct (decide (c = 0)) as [->|]; [done|]. apply Z.log2_lt_pow2; lia. }
  pose proof (Hlog a Ha). pose proof (Hlog b Hb). lia.
Qed.

Lemma crc_bit_u32 x : is_u32 x → is_u32 (crc_bit x).
Proof.
  intros Hx. rewrite crc_bit_cases. apply lxor_u32; [|by destruct (Z.odd x); vm_compute; intuition congruence].
  rewrite Z.shiftr_div_pow2 by lia. unfold is_u32 in *. change (2 ^ 1) with 2.
  split; [apply Z.div_pos; lia|apply Z.div_lt_upper_bound; lia].
Qed.

(** A step can be undone: the top bit tells which way it went. *)
Definition uncrc_bit (y : Z) : Z :=
  if Z.testbit y 31 then 2 * Z.lxor y CRC_POLY + 1 else 2 * y.

Lemma uncrc_crc_bit x : is_u32 x → uncrc_bit (crc_bit x) = x.
Proof.
  intros Hx. rewrite crc_bit_cases. unfold is_u32 in Hx. rewrite Z.shiftr_div_pow2 by lia. change (2 ^ 1) with 2.
  set (h := x / 2). assert (0 <= h < 2 ^ 31) as Hh
    by (unfold h; split; [apply Z.div_pos; lia|apply Z.div_lt_upper_bound; lia]).
  assert (Z.testbit h 31 = false) as Ht.
  { destruct (decide (h = 0)) as [->|]; [done|]. apply Z.bits_above_log2; [lia|]. apply Z.log2_lt_pow2; lia. }
  pose proof (Z.div_mod x 2 ltac:(lia)) as Hd. rewrite Zmod_odd in Hd. fold h in Hd. unfold uncrc_bit.
  destruct (Z.odd x).
  - rewrite Z.lxor_spec, Ht. change (Z.testbit CRC_POLY 31) with true. cbn [xorb].
    rewrite Z.lxor_assoc, Z.lxor_nilpotent, Z.lxor_0_r. lia.
  - rewrite Z.lxor_0_r, Ht. lia.
Qed.

Lemma crc_bits_inj k x y : is_u32 x → is_u32 y → Nat.iter k crc_bit x = Nat.iter k crc_bit y → x = y.
Proof.
  intros Hx Hy. assert (∀ z j, is_u32 z → is_u32 (Nat.iter j crc_bit z)) as Hr.
  { intros z j Hz. induction j as [|j IH]; [done|]. by apply crc_bit_u32. }
  induction k as [|k IH]; [done|]. rewrite !Nat.iter_succ. intros E. apply IH.
  rewrite <- (uncrc_crc_bit (Nat.iter k crc_bit x)), <- (uncrc_crc_bit (Nat.iter k crc_bit y)) by auto.
  by f_equal.
Qed.

Lemma crc_bits_u32 k x : is_u32 x → is_u32 (Nat.iter k crc_bit x).
Proof. intros Hx. induction k as [|k IH]; [done|]. by apply crc_bit_u32. Qed.

Lemma u8_is_u32 b : is_u32 (u8 b).
Proof. pose proof (u8_range b). unfold is_u32. lia. Qed.

Lemma crc_byte_u32 x b : is_u32 x → is_u32 (crc_byte x b).
Proof. intros Hx. apply crc_bits_u32, lxor_u32; [done|apply u8_is_u32]. Qed.

Lemma crc_fold_u32 l x : is_u32 x → is_u32 (foldl crc_byte x l).
Proof. revert x. induction l as [|b l IH]; intros x Hx; [done|]. by apply IH, crc_byte_u32. Qed.

Lemma lxor_cancel a b c : Z.lxor a c = Z.lxor b c → a = b.
Proof.
  intros E. rewrite <- (Z.lxor_0_r a), <- (Z.lxor_0_r b), <- (Z.lxor_nilpotent c), <- !Z.lxor_assoc. by f_equal.
Qed.

(** Other states and other bytes go to other states. *)
Lemma crc_byte_state_inj x y b : is_u32 x → is_u32 y → crc_byte x b = crc_byte y b → x = y.
Proof.
  intros Hx Hy. unfold crc_byte. intros E%crc_bits_inj; [by eapply lxor_cancel|apply lxor_u32..]; try done; apply u8_is_u32.
Qed.

Lemma crc_byte_byte_inj x a b : is_u32 x → crc_byte x a = crc_byte x b → a = b.
Proof.
  intros Hx. unfold crc_byte. intros E%crc_bits_inj; [|apply lxor_u32..]; try done; try apply u8_is_u32.
  apply u8_inj. rewrite !(Z.lxor_comm x) in E. by eapply lxor_cancel.
Qed.

Lemma crc_fold_inj l x y : is_u32 x → is_u32 y → foldl crc_byte x l = foldl crc_byte y l → x = y.
Proof.
  revert x y. induction l as [|b l IH]; intros x y Hx Hy E; [done|].
  apply IH in E; [|by apply crc_byte_u32..]. by eapply crc_byte_state_inj.
Qed.

Lemma u32_max_is_u32 : is_u32 U32_MAX.
Proof. vm_compute. intuition congruence. Qed.

Lemma complement_u32 x : is_u32 x → is_u32 (U32_MAX - x).
Proof. unfold is_u32, U32_MAX. lia. Qed.

Lemma crc32_u32 b : is_u32 (crc32 b).
Proof. apply complement_u32, crc_fold_u32, u32_max_is_u32. Qed.

Lemma crc32_one_byte pre a b post : crc32 (pre ++ a :: post) = crc32 (pre ++ b :: post) → a = b.
Proof.
  unfold crc32. intros E%Z.sub_cancel_l. rewrite !foldl_app in E. cbn [foldl] in E.
  pose proof (crc_fold_u32 pre _ u32_max_is_u32) as Hx.
  apply crc_fold_inj in E; [|by apply crc_byte_u32..]. by apply crc_byte_byte_inj in E.
Qed.

(** ** Key records *)

Lemma record_fields n k (der : bytes) :
  is_u32 n → is_u32 k →
  let b := RECORD_MAGIC ++ u32_le n ++ u32_le k ++ der in
  len b = RECORD_HEADER_LEN + len der ∧ ztake 8 b = RECORD_MAGIC ∧ u32_at 8 b = n ∧ u32_at 12 b = k ∧
  zdrop RECORD_HEADER_LEN b = der.
Proof.
  intros Hn Hk b. unfold b. assert (len RECORD_MAGIC = 8) as Hm by done. split_and!.
  - rewrite !len_app, !len_u32_le, Hm. unfold RECORD_HEADER_LEN. lia.
  - by apply ztake_app_len.
  - rewrite u32_at_app_r, Hm by lia. by apply u32_at_head.
  - rewrite u32_at_app_r, Hm by lia. rewrite u32_at_skip by lia. by apply u32_at_head.
  - unfold RECORD_HEADER_LEN. rewrite !zdrop_app_ge by (rewrite ?Hm, ?len_u32_le; lia).
    rewrite Hm, !len_u32_le. by apply zdrop_nonpos.
Qed.

Lemma decode_record_iff b der :
  decode_key_record b = Some der ↔ ∃ r rest, encode_key_record der = Ok r ∧ b = r ++ rest.
Proof.
  unfold encode_key_record, record_header. split.
  - unfold decode_key_record. destruct (Z.ltb_spec (len b) RECORD_HEADER_LEN) as [|Hl]; [done|].
    destruct (bool_decide (ztake 8 b = RECORD_MAGIC)) eqn:Hm; [|done]. cbn [orb negb]. apply bool_decide_eq_true in Hm.
    destruct (Z.ltb_spec (len (zdrop RECORD_HEADER_LEN b)) (u32_at 8 b)) as [|Hn]; [done|].
    destruct (Z.eqb_spec (crc32 (ztake (u32_at 8 b) (zdrop RECORD_HEADER_LEN b))) (u32_at 12 b)) as [Hc|]; [|done].
    intros [= <-]. unfold RECORD_HEADER_LEN in *.
    pose proof (u32_at_is_u32 8 b ltac:(lia) ltac:(lia)) as Hu. unfold is_u32 in Hu.
    set (der := ztake (u32_at 8 b) (zdrop (8 + 4 + 4) b)) in *.
    assert (len der = u32_at 8 b) as Hd by (unfold der; rewrite len_ztake; lia).
    rewrite Hd. destruct (Z.ltb_spec U32_MAX (u32_at 8 b)); [unfold U32_MAX in *; lia|].
    eexists _, (zdrop (u32_at 8 b) (zdrop (8 + 4 + 4) b)). split; [done|]. cbn [mbind result_bind].
    rewrite Hc, <- Hm, <- !app_assoc. unfold der. rewrite ztake_zdrop. unfold u32_at.
    rewrite !u32_le_val by (unfold zslice; zlen). change (8 + 4 + 4) with 16.
    change (12 + 4) with 16. change (8 + 4) with 12. rewrite (zdrop_zslice 12 16 b), (zdrop_zslice 8 12 b) by lia.
    symmetry. apply ztake_zdrop.
  - intros (r & rest & Hr & ->). destruct (Z.ltb_spec U32_MAX (len der)) as [|Hl]; [done|]. cbn [mbind result_bind] in Hr.
    assert ((RECORD_MAGIC ++ u32_le (len der) ++ u32_le (crc32 der)) ++ der = r) as <- by (by injection Hr).
    rewrite <- !app_assoc. pose proof (len_nonneg der). pose proof (len_nonneg rest).
    assert (is_u32 (len der)) as Hu by (unfold is_u32, U32_MAX in *; lia).
    destruct (record_fields (len der) (crc32 der) (der ++ rest) Hu (crc32_u32 der)) as (F1 & F2 & F3 & F4 & F5).
    unfold decode_key_record. rewrite F1, F2, F3, F4, F5, bool_decide_eq_true_2 by done.
    rewrite len_app in *. unfold RECORD_HEADER_LEN.
    destruct (Z.ltb_spec (8 + 4 + 4 + (len der + len rest)) (8 + 4 + 4)); [lia|]. cbn [orb negb].
    destruct (Z.ltb_spec (len der + len rest) (len der)); [lia|]. rewrite ztake_app_len by done.
    by rewrite Z.eqb_refl.
Qed.

(** Records read exactly: a medium holds a record of [der] for the decoder if
    and only if it starts with what the encoder writes for [der], whatever
    follows; and every payload whose length 32 bits can say is encoded. *)
Theorem records_read_exactly b der :
  (decode_key_record b = Some der ↔ ∃ r rest, encode_key_record der = Ok r ∧ b = r ++ rest) ∧
  (len der <= U32_MAX → is_ok (encode_key_record der) = true) ∧
  (U32_MAX < len der → encode_key_record der = Err (KeyError.PayloadTooLarge (len der))).
Proof.
  split; [apply decode_record_iff|]. unfold encode_key_record, record_header. split; intros Hl.
  - destruct (Z.ltb_spec U32_MAX (len der)); [lia|done].
  - destruct (Z.ltb_spec U32_MAX (len der)); [done|lia].
Qed.

(** A record whose fields say [n] and [k]. *)
Lemma decode_fields n k der rest :
  is_u32 k → len der = n → is_u32 n → k ≠ crc32 der →
  decode_key_record (RECORD_MAGIC ++ u32_le n ++ u32_le k ++ der ++ rest) = None.
Proof.
  intros Hk Hn Hu Hc. destruct (record_fields n k (der ++ rest) Hu Hk) as (F1 & F2 & F3 & F4 & F5).
  unfold decode_key_record. rewrite F1, F2, F3, F4, F5, bool_decide_eq_true_2 by done. pose proof (len_nonneg rest).
  destruct (_ <? RECORD_HEADER_LEN); [done|]. cbn [orb negb]. rewrite len_app.
  destruct (Z.ltb_spec (len der + len rest) n); [done|]. rewrite ztake_app_len by done.
  destruct (Z.eqb_spec (crc32 der) k); [congruence|done].
Qed.

Lemma corrupt_magic pre a b post k rest :
  RECORD_MAGIC = pre ++ a :: k → a ≠ b → post = k ++ rest → decode_key_record (pre ++ b :: post) = None.
Proof.
  intros Hm Hab ->. unfold decode_key_record. assert (ztake 8 (pre ++ b :: k ++ rest) = pre ++ b :: k) as ->.
  { change (b :: k ++ rest) with ((b :: k) ++ rest). rewrite app_assoc. apply ztake_app_len.
    change 8 with (len RECORD_MAGIC). rewrite Hm, !len_app, !len_cons. done. }
  rewrite bool_decide_eq_false_2; [by rewrite orb_true_r|]. intros E. rewrite Hm in E.
  apply app_inv_head in E. injection E as E. congruence.
Qed.

Lemma corrupt_crc pre a b k der rest :
  u32_le (crc32 der) = pre ++ a :: k → a ≠ b → is_u32 (len der) →
  decode_key_record (RECORD_MAGIC ++ u32_le (len der) ++ pre ++ b :: k ++ der ++ rest) = None.
Proof.
  intros Hc Hab Hu. assert (len (pre ++ b :: k) = 4) as H4.
  { rewrite <- (len_u32_le (crc32 der)), Hc, !len_app, !len_cons. done. }
  pose proof (u32_le_val _ H4) as Hv. set (v := le_val (pre ++ b :: k)) in *.
  assert (pre ++ b :: k ++ der ++ rest = u32_le v ++ der ++ rest) as -> by (by rewrite Hv, <- app_assoc).
  apply decode_fields; [by apply le_val_is_u32|done|done|]. intros E. rewrite E, Hc in Hv.
  apply app_inv_head in Hv. congruence.
Qed.

Lemma record_change_found der r pre a b post rest :
  encode_key_record der = Ok r → r = pre ++ a :: post → a ≠ b → ¬ 8 <= len pre < 12 →
  decode_key_record (pre ++ b :: post ++ rest) = None.
Proof.
  unfold encode_key_record, record_header. destruct (Z.ltb_spec U32_MAX (len der)) as [|Hl]; [done|].
  cbn [mbind result_bind]. intros Hr Hpre Hab Hpos. pose proof (len_nonneg der).
  assert (is_u32 (len der)) as Hu by (unfold is_u32, U32_MAX in *; lia).
  assert (RECORD_MAGIC ++ u32_le (len der) ++ u32_le (crc32 der) ++ der = pre ++ a :: post) as E
    by (rewrite <- Hpre; injection Hr as <-; by rewrite <- !app_assoc). clear Hr Hpre.
  assert (len RECORD_MAGIC = 8) as Hm by done.
  apply app_eq_inv in E as [(k & Hk & E)|(k & -> & E)].
  { destruct k as [|a' k].
    - exfalso. rewrite app_nil_r in Hk. subst pre. lia.
    - injection E as <- ->. eapply (corrupt_magic _ a); [done|done|]. by rewrite <- app_assoc. }
  rewrite len_app, Hm in Hpos. rewrite <- app_assoc. apply app_eq_inv in E as [(k2 & Hk & E)|(k2 & -> & E)].
  { destruct k2 as [|a' k2].
    - rewrite app_nil_r in Hk. subst k. cbn [app] in E.
      destruct (u32_le (crc32 der)) as [|c cs] eqn:Hcs; [exfalso; pose proof (len_u32_le (crc32 der)) as H0;
        rewrite Hcs, len_nil in H0; lia|].
      cbn [app] in E. injection E as <- ->. rewrite <- app_assoc. by apply (corrupt_crc [] a b cs).
    - exfalso. assert (len (u32_le (len der)) = len k + len (a' :: k2)) as H4 by (by rewrite Hk, len_app).
      rewrite len_u32_le, len_cons in H4. pose proof (len_nonneg k). pose proof (len_nonneg k2). lia. }
  rewrite <- app_assoc. apply app_eq_inv in E as [(k & Hk & E)|(k & -> & ->)].
  - destruct k as [|a' k].
    + rewrite app_nil_r in Hk. subst k2. cbn [app] in E. subst der.
      change (b :: post ++ rest) with ((b :: post) ++ rest).
      apply decode_fields; [apply crc32_u32|by rewrite !len_cons|done|]. intros E.
      apply (crc32_one_byte [] a b post) in E. done.
    + injection E as <- ->. rewrite <- app_assoc. by eapply corrupt_crc.
  - rewrite <- ?app_assoc. change (k ++ b :: post ++ rest) with (k ++ (b :: post) ++ rest). rewrite (app_assoc k).
    apply decode_fields; [apply crc32_u32|by rewrite !len_app, !len_cons|done|]. intros E.
    by apply crc32_one_byte in E.
Qed.

(** No change of one byte of a record's magic, checksum or payload goes
    unnoticed: the decoder finds no record there. *)
Theorem record_corruption_found der r pre a b post rest :
  encode_key_record der = Ok r → r = pre ++ a :: post → a ≠ b → ¬ 8 <= len pre < 12 →
  decode_key_record (pre ++ b :: post ++ rest) = None.
Proof. apply record_change_found. Qed.

(** ** Samples *)

(** An RSA-2048 modulus is any odd number of that size, as far as the encoding
    goes. *)
Definition sample_key : RsaPublicKey := mkPublicKey (2 ^ 2047 + 0x123456789) 65537.

Definition base64_char (v : Z) : byte := default x00 (znth v BASE64_CHARS).

(** RFC 4648's encoding. *)
Fixpoint base64 (b : bytes) : bytes :=
  match b with
  | [] => []
  | [x] => [base64_char (u8 x / 4); base64_char (u8 x mod 4 * 16); "="%byte; "="%byte]
  | [x; y] => [base64_char (u8 x / 4); base64_char (u8 x mod 4 * 16 + u8 y / 16);
               base64_char (u8 y mod 16 * 4); "="%byte]
  | x :: y :: z :: b =>
      base64_char (u8 x / 4) :: base64_char (u8 x mod 4 * 16 + u8 y / 16) ::
      base64_char (u8 y mod 16 * 4 + u8 z / 64) :: base64_char (u8 z mod 64) :: base64 b
  end.

Lemma base64_char_in v : 0 <= v < 64 → base64_char v ∈ BASE64_CHARS.
Proof.
  intros Hv. assert (forallb (λ i, contains (base64_char (Z.of_nat i)) BASE64_CHARS) (seq 0 64) = true) as Hall
    by (by vm_compute). rewrite forallb_forall in Hall.
  specialize (Hall (Z.to_nat v)). rewrite Z2Nat.id in Hall by lia. apply contains_true, Hall, in_seq. lia.
Qed.

#[local] Instance base64_laws : Base64Laws base64.
Proof.
  assert ("="%byte ∈ BASE64_CHARS) as Hpad by (apply contains_true; by vm_compute).
  assert (∀ k (b : bytes), (length b <= k)%nat →
    Forall (λ c, c ∈ BASE64_CHARS) (base64 b) ∧ len (base64 b) = (len b + 2) / 3 * 4) as Hall.
  { induction k as [|k IH]; intros b Hb; [by destruct b; [|simpl in Hb; lia]|].
    destruct b as [|x [|y [|z b]]]; [done|..]; cbn [base64].
    1, 2: split; [|done]; pose proof (u8_range x); try pose proof (u8_range y);
      repeat apply Forall_cons_2; try done; apply base64_char_in; Z.div_mod_to_equations; lia.
    destruct (IH b ltac:(simpl in Hb; lia)) as [Hc Hl].
    pose proof (u8_range x). pose proof (u8_range y). pose proof (u8_range z). split.
    - repeat apply Forall_cons_2; try done; apply base64_char_in; Z.div_mod_to_equations; lia.
    - rewrite !len_cons, Hl. replace (len b + 1 + 1 + 1 + 2) with (len b + 2 + 1 * 3) by lia.
      rewrite Z.div_add by lia. lia. }
  split; intros b; by destruct (Hall (length b) b ltac:(lia)).
Qed.

Lemma public_key_struct_witness :
  expressible sample_key ∧ ∃ out, mincrypt_struct sample_key = Ok out ∧ describes out sample_key ∧
    zslice 4 8 out = [x47; xc1; xa2; x60].
Proof.
  pose proof (public_key_struct sample_key ltac:(by vm_compute) ltac:(by vm_compute)) as Hs.
  assert (match mincrypt_struct sample_key with
          | Ok out => zslice 4 8 out = [x47; xc1; xa2; x60]
          | Err _ => False
          end) as He by (vm_compute; reflexivity).
  destruct (mincrypt_struct sample_key) as [out|e]; [|contradiction He].
  destruct Hs as [H1 H2]. split; [exact H1|]. exists out. split; [reflexivity|]. split; [exact H2|exact He].
Defined.

Lemma key_line_reads_witness :
  ∃ wire, from_private_key base64 sample_key (bs "me@host") = Ok wire ∧ len wire = 709 ∧ len wire <= MAX_PAYLOAD ∧
  ∃ blob, describes blob sample_key ∧ wire = (base64 blob ++ bs " me@host") ++ [x00].
Proof.
  assert (is_ok (from_private_key base64 sample_key (bs "me@host")) = true) as Hok by (by vm_compute).
  destruct (from_private_key base64 sample_key (bs "me@host")) as [wire|] eqn:Hw; [|discriminate Hok].
  destruct (key_line_reads base64 sample_key (bs "me@host") (bs "me@host") wire ltac:(by vm_compute)
    ltac:(by vm_compute) ltac:(by vm_compute) Hw) as (_ & Hl & line & blob & E & _ & _ & _ & Hd & _ & El).
  exists wire. split; [reflexivity|]. split.
  - assert (match from_private_key base64 sample_key (bs "me@host") with Ok w => len w | Err _ => 0 end = 709) as H
      by (vm_compute; reflexivity). rewrite Hw in H. exact H.
  - split; [exact Hl|]. exists blob. split; [exact Hd|]. rewrite E, El. reflexivity.
Defined.

Lemma records_read_exactly_witness :
  decode_key_record (match encode_key_record (bs "der") with Ok r => r ++ [xff; xff] | Err _ => [] end) = Some (bs "der").
Proof.
  apply (records_read_exactly (match encode_key_record (bs "der") with Ok r => r ++ [xff; xff] | Err _ => [] end) (bs "der")).
  destruct (encode_key_record (bs "der")) as [r|] eqn:Hr; [|vm_compute in Hr; discriminate Hr].
  exists r, [xff; xff]. split; reflexivity.
Defined.

Lemma record_corruption_found_witness :
  ∃ pre post, encode_key_record (bs "der") = Ok (pre ++ "e"%byte :: post) ∧
    decode_key_record (pre ++ "E"%byte :: post ++ [xff]) = None.
Proof.
  exists (match encode_key_record (bs "der") with Ok r => ztake 17 r | Err _ => [] end), (bs "r").
  assert (encode_key_record (bs "der") = Ok (match encode_key_record (bs "der") with Ok r => ztake 17 r | Err _ => [] end
    ++ "e"%byte :: bs "r")) as Hr by (vm_compute; reflexivity).
  split; [exact Hr|].
  apply (record_corruption_found (bs "der") _ _ "e"%byte "E"%byte (bs "r") [xff] Hr eq_refl); [discriminate|].
  vm_compute. intuition congruence.
Defined.
