(* ===== verification/Spake2.v ===== *)
(** * SPAKE2 ([pairing/spake2.rs])

    One side of the key agreement of wireless pairing.  The curve, the hash and
    the reduction of a wide number are the crates' ([curve25519-dalek], [sha2]):
    an interface with the laws their documentation states, an abelian group with
    a base point whose order is [ORDER].  The scalars are arrays of 32 bytes and
    their arithmetic is the library's own: [mul_raw_times] shows that
    double-and-add multiplies by the whole number, unreduced,
    [password_scalar_fixed] that the cofactor fix clears three bits and keeps the
    number modulo the order, with no carry lost, and [keys_agree] that two sides
    with one password derive one key. *)

From S2P Require Import Prelude Protocol Text.
From S2P Require Import Keys.

(** ** The group *)

Class Curve (P : Type) : Type := {
  identity : P;
  point_add : P → P → P;
  point_sub : P → P → P;
  (** [CompressedEdwardsY]. *)
  compress : P → bytes;
  decompress : bytes → option P;
  (** [EdwardsPoint::mul_base] of [Scalar::from_bytes_mod_order]. *)
  mul_base_mod_order : bytes → P;
  (** [Scalar::from_bytes_mod_order_wide], and its [to_bytes]. *)
  reduce_wide : bytes → bytes;
  (** [Sha512::digest]. *)
  sha512 : bytes → bytes;
}.

(** [n] times a point. *)
Definition times {P} `{Curve P} (n : nat) (p : P) : P := Nat.iter n (point_add p) identity.

Definition ORDER : bytes :=
  [xed; xd3; xf5; x5c; x1a; x63; x12; x58; xd6; x9c; xf7; xa2; xde; xf9; xde; x14;
   x00; x00; x00; x00; x00; x00; x00; x00; x00; x00; x00; x00; x00; x00; x00; x10].

(** The order of the base point, 2^252 + 27742317777372353535851937790883648493. *)
Definition order : Z := le_val ORDER.

Definition M_BYTES : bytes :=
  [x5a; xda; x7e; x4b; xf6; xdd; xd9; xad; xb6; x62; x6d; x32; x13; x1c; x6b; x5c;
   x51; xa1; xe3; x47; xa3; x47; x8f; x53; xcf; xcf; x44; x1b; x88; xee; xd1; x2e].

Definition N_BYTES : bytes :=
  [x10; xe3; xdf; x0a; xe3; x7d; x8e; x7a; x99; xb5; xfe; x74; xb4; x46; x72; x10;
   x3d; xbd; xdc; xbd; x06; xaf; x68; x0d; x71; x32; x9a; x11; x69; x3b; xc7; x78].

(** What the crates document.  [M_BYTES] and [N_BYTES] are points, as a test of
    the library checks. *)
Class CurveLaws (P : Type) `{Curve P} : Prop := {
  add_assoc p q r : point_add p (point_add q r) = point_add (point_add p q) r;
  add_comm p q : point_add p q = point_add q p;
  add_identity p : point_add identity p = p;
  add_sub p q : point_sub (point_add p q) q = p;
  decompress_compress p : decompress (compress p) = Some p;
  len_compress p : len (compress p) = 32;
  mask_points : is_Some (decompress M_BYTES) ∧ is_Some (decompress N_BYTES);
  mul_base_order : ∃ base, times (Z.to_nat order) base = identity ∧
    ∀ s, mul_base_mod_order s = times (Z.to_nat (le_val s mod order)) base;
  reduce_wide_value w : reduce_wide w = le_bytes 32 (le_val w mod order);
  len_sha512 b : len (sha512 b) = 64;
}.

(** ** Scalars *)

(** [add_assign] and its carry, a [u16]. *)
Fixpoint add_loop (carry : Z) (a b : bytes) : bytes :=
  match a, b with
  | x :: a, y :: b =>
      let sum := u8 x + u8 y + carry in
      b8 sum :: add_loop (Z.shiftr sum 8) a b
  | _, _ => a
  end.

Definition add_assign (a b : bytes) : bytes := add_loop 0 a b.
Definition double_assign (a : bytes) : bytes := add_assign a a.

(** [left_shift_3]. *)
Fixpoint shift_loop (carry : Z) (n : bytes) : bytes :=
  match n with
  | [] => []
  | x :: n =>
      let next := Z.shiftr (u8 x) 5 in
      b8 (Z.lor (Z.land (Z.shiftl (u8 x) 3) 255) carry) :: shift_loop next n
  end.

Definition left_shift_3 (n : bytes) : bytes := shift_loop 0 n.

(** A round of [password_scalar]: the scalar and the order. *)
Definition clear_bit (bit : Z) (x : bytes * bytes) : bytes * bytes :=
  let '(scalar, order) := x in
  let mask := Z.shiftl 1 bit in
  let set := Z.land (u8 (default x00 (head scalar))) mask =? mask in
  let addend := (λ src, if set then src else x00) <$> order in
  (add_assign scalar addend, double_assign order).

Module Role.
Inductive Role : Type := Alice | Bob.
End Role.
Abbreviation Role := Role.Role.

Module Spake2Error.
Inductive Spake2Error : Type := MessageLength (n : Z) | NotAPoint.
End Spake2Error.
Abbreviation Spake2Error := Spake2Error.Spake2Error.

(** ** [Spake2] *)

Record Spake2 : Type := mkSpake2 {
  sp_role : Role;
  my_name : bytes;
  their_name : bytes;
  private_key : bytes;
  sp_password_hash : bytes;
  sp_password_scalar : bytes;
  my_msg : bytes;
}.

Section Spake2.
Context {P : Type} `{Curve P}.

(** [mul_raw], from the top bit down. *)
Definition mul_bit (point : P) (byte : byte) (acc : P) (bit : Z) : P :=
  let acc := point_add acc acc in
  let sum := point_add acc point in
  if Z.testbit (u8 byte) bit then sum else acc.

Definition mul_byte (point acc : P) (byte : byte) : P :=
  foldl (mul_bit point byte) acc [7; 6; 5; 4; 3; 2; 1; 0].

Definition mul_raw (point : P) (scalar : bytes) : P := foldl (mul_byte point) identity (rev scalar).

(** What [absorb] adds to a hash. *)
Definition absorb (data : bytes) : bytes := u64_le (len data) ++ data.

(** [password_scalar]: [None] is its assertion. *)
Definition password_scalar (password_hash : bytes) : option bytes :=
  let '(scalar, _) := foldl (λ x bit, clear_bit bit x) (reduce_wide password_hash, ORDER) [0; 1; 2] in
  if Z.land (u8 (default x00 (head scalar))) 7 =? 0 then Some scalar else None.

(** [Spake2::point]: [None] is its [expect]. *)
Definition mask_point (role : Role) : option P :=
  decompress (match role with Role.Alice => M_BYTES | Role.Bob => N_BYTES end).

(** [Spake2::new], on the 64 bytes [wide] the generator filled in. *)
Definition spake2_new (role : Role) (my_name their_name password wide : bytes) : option Spake2 :=
  let private_key := left_shift_3 (reduce_wide wide) in
  let password_hash := sha512 password in
  password_scalar ← password_scalar password_hash;
  mask ← mask_point role;
  let base := mul_base_mod_order private_key in
  let my_msg := compress (point_add base (mul_raw mask password_scalar)) in
  Some (mkSpake2 role my_name their_name private_key password_hash password_scalar my_msg).

Definition spake2_message (s : Spake2) : bytes := my_msg s.

(** [Spake2::spake2_finish]: [None] is the panic of a mask that is no point. *)
Definition spake2_finish (s : Spake2) (their_msg : bytes) : option (result Spake2Error bytes) :=
  match decompress their_msg with
  | None => Some (Err Spake2Error.NotAPoint)
  | Some masked =>
      peer_mask ← mask_point (match sp_role s with Role.Alice => Role.Bob | Role.Bob => Role.Alice end);
      let unmasked := point_sub masked (mul_raw peer_mask (sp_password_scalar s)) in
      let shared := compress (mul_raw unmasked (private_key s)) in
      let '(alice_name, bob_name, alice_msg, bob_msg) :=
        match sp_role s with
        | Role.Alice => (my_name s, their_name s, my_msg s, their_msg)
        | Role.Bob => (their_name s, my_name s, their_msg, my_msg s)
        end in
      Some (Ok (sha512 (absorb alice_name ++ absorb bob_name ++ absorb alice_msg ++ absorb bob_msg ++
                        absorb shared ++ absorb (sp_password_hash s))))
  end.
End Spake2.

(** ** Arithmetic on arrays *)

Lemma len_add_loop carry a b : len (add_loop carry a b) = len a.
Proof.
  revert carry b. induction a as [|x a IH]; intros carry [|y b]; try done. cbn [add_loop].
  by rewrite !len_cons, IH.
Qed.

Lemma add_loop_value carry a b :
  len a = len b → 0 <= carry <= 1 →
  le_val (add_loop carry a b) = (le_val a + le_val b + carry) mod 256 ^ len a.
Proof.
  revert carry b. induction a as [|x a IH]; intros carry [|y b] Hl Hc; try (by rewrite ?len_cons, ?len_nil in Hl; zlen).
  { change (256 ^ len []) with 1. by rewrite Z.mod_1_r. }
  rewrite !len_cons in Hl. cbn [add_loop le_val]. pose proof (u8_range x). pose proof (u8_range y).
  rewrite Z.shiftr_div_pow2 by lia. change (2 ^ 8) with 256. set (sum := u8 x + u8 y + carry).
  assert (0 <= sum / 256 <= 1) as Hq
    by (split; [apply Z.div_pos; lia|apply Z.lt_succ_r, Z.div_lt_upper_bound; lia]).
  rewrite IH, u8_b8 by lia. rewrite len_cons, Z.pow_add_r by (pose proof (len_nonneg a); lia). change (256 ^ 1) with 256.
  pose proof (Z.pow_pos_nonneg 256 (len a) ltac:(lia) (len_nonneg a)).
  rewrite (Z.mul_comm (256 ^ len a)), Z.rem_mul_r by lia.
  replace (u8 x + 256 * le_val a + (u8 y + 256 * le_val b) + carry) with (sum + (le_val a + le_val b) * 256)
    by (unfold sum; lia).
  rewrite Z_mod_plus_full, Z.div_add by lia. do 3 f_equal. lia.
Qed.

Lemma add_assign_value a b :
  len a = len b → le_val a + le_val b < 256 ^ len a → le_val (add_assign a b) = le_val a + le_val b.
Proof.
  intros Hl Hb. unfold add_assign. rewrite add_loop_value by (done || lia). rewrite Z.add_0_r.
  apply Z.mod_small. pose proof (le_val_bound a). pose proof (le_val_bound b). lia.
Qed.

Lemma len_shift_loop carry n : len (shift_loop carry n) = len n.
Proof. revert carry. induction n as [|x n IH]; intros carry; [done|]. cbn [shift_loop]. by rewrite !len_cons, IH. Qed.

Lemma shifted_byte x c :
  0 <= c < 8 → u8 (b8 (Z.lor (Z.land (Z.shiftl (u8 x) 3) 255) c)) = (8 * u8 x + c) mod 256.
Proof.
  intros Hc. pose proof (u8_range x) as Hx.
  assert (forallb (λ i, forallb (λ j, u8 (b8 (Z.lor (Z.land (Z.shiftl (Z.of_nat i) 3) 255) (Z.of_nat j)))
    =? (8 * Z.of_nat i + Z.of_nat j) mod 256) (seq 0 8)) (seq 0 256) = true) as Hall by (by vm_compute).
  rewrite forallb_forall in Hall. specialize (Hall (Z.to_nat (u8 x)) ltac:(apply in_seq; lia)).
  rewrite forallb_forall in Hall. specialize (Hall (Z.to_nat c) ltac:(apply in_seq; lia)).
  rewrite !Z2Nat.id in Hall by lia. by apply Z.eqb_eq.
Qed.

Lemma shift_loop_value c n : 0 <= c < 8 → le_val (shift_loop c n) = (8 * le_val n + c) mod 256 ^ len n.
Proof.
  revert c. induction n as [|x n IH]; intros c Hc; [change (256 ^ len []) with 1; by rewrite Z.mod_1_r|].
  cbn [shift_loop le_val]. pose proof (u8_range x). rewrite Z.shiftr_div_pow2 by lia. change (2 ^ 5) with 32.
  assert (0 <= u8 x / 32 < 8) as Hq by (split; [apply Z.div_pos; lia|apply Z.div_lt_upper_bound; lia]).
  rewrite IH, shifted_byte by done. rewrite len_cons, Z.pow_add_r by (pose proof (len_nonneg n); lia).
  change (256 ^ 1) with 256. pose proof (Z.pow_pos_nonneg 256 (len n) ltac:(lia) (len_nonneg n)).
  rewrite (Z.mul_comm (256 ^ len n)), Z.rem_mul_r by lia.
  replace (8 * (u8 x + 256 * le_val n) + c) with (8 * u8 x + c + 8 * le_val n * 256) by lia.
  rewrite Z_mod_plus_full, Z.div_add by lia. do 3 f_equal. Z.div_mod_to_equations. lia.
Qed.

Lemma order_bounds : 2 ^ 252 < order < 2 ^ 253 ∧ order mod 8 = 5.
Proof. by vm_compute. Qed.

(** ** The cofactor fix *)

Lemma le_val_zeros_like (l : bytes) : le_val ((λ _, x00) <$> l) = 0.
Proof. induction l as [|b l IH]; [done|]. rewrite fmap_cons. cbn [le_val]. by rewrite IH. Qed.

Lemma len_fmap {A B} (f : A → B) (l : list A) : len (f <$> l) = len l.
Proof. unfold len. by rewrite length_fmap. Qed.

(** The low bits of a number are its first byte's. *)
Lemma low_byte l k : 0 <= k < 8 → Z.land (u8 (default x00 (head l))) (Z.shiftl 1 k) =? Z.shiftl 1 k = Z.testbit (le_val l) k.
Proof.
  intros Hk. assert (Z.testbit (le_val l) k = Z.testbit (u8 (default x00 (head l))) k) as ->.
  { destruct l as [|x l]; [done|]. cbn [le_val head default]. pose proof (u8_range x).
    rewrite <- (Z.mod_pow2_bits_low (u8 x + 256 * le_val l) 8 k) by lia. change (2 ^ 8) with 256.
    rewrite (Z.mul_comm 256), Z_mod_plus_full, Z.mod_small by lia. done. }
  set (x := default x00 (head l)). rewrite Z.shiftl_1_l. destruct (Z.testbit (u8 x) k) eqn:Ht.
  - apply Z.eqb_eq. apply Z.bits_inj'. intros j Hj. rewrite Z.land_spec. destruct (Z.eqb_spec j k) as [->|Hne].
    + by rewrite Ht.
    + rewrite Z.pow2_bits_false by lia. apply andb_false_r.
  - apply Z.eqb_neq. intros E. assert (Z.testbit (Z.land (u8 x) (2 ^ k)) k = true) as Hb
      by (rewrite E; apply Z.pow2_bits_true; lia). rewrite Z.land_spec, Ht in Hb. done.
Qed.

(** After [k] rounds: the number modulo the order, a multiple of [2^k]. *)
Record fixing (k h : Z) (x : bytes * bytes) : Prop := {
  fx_len : len (fst x) = 32 ∧ len (snd x) = 32;
  fx_order : le_val (snd x) = 2 ^ k * order;
  fx_value : ∃ c, le_val (fst x) = h mod order + c * order ∧ 0 <= c < 2 ^ k;
  fx_bits : le_val (fst x) mod 2 ^ k = 0;
}.

Lemma testbit_mod a k : 0 <= k → a mod 2 ^ k = 0 → a mod 2 ^ (k + 1) = if Z.testbit a k then 2 ^ k else 0.
Proof.
  intros Hk Ha. pose proof (Z.pow_pos_nonneg 2 k ltac:(lia) Hk) as Hp. rewrite Z.pow_add_r by lia. change (2 ^ 1) with 2.
  rewrite Z.rem_mul_r, Ha by lia. rewrite Z.testbit_eqb by done.
  pose proof (Z.mod_pos_bound (a / 2 ^ k) 2 ltac:(lia)). destruct (Z.eqb_spec ((a / 2 ^ k) mod 2) 1); [lia|].
  assert ((a / 2 ^ k) mod 2 = 0) as -> by lia. lia.
Qed.

Lemma clear_bit_fixing k h x : 0 <= k <= 2 → fixing k h x → fixing (k + 1) h (clear_bit k x).
Proof.
  intros Hk [[Hl Hlo] Ho (c & Hv & Hc) Hb]. destruct x as [scalar ord]. cbn [fst snd] in *. unfold clear_bit.
  rewrite low_byte by lia. set (set := Z.testbit (le_val scalar) k).
  set (addend := (λ src, if set then src else x00) <$> ord).
  assert (le_val addend = if set then 2 ^ k * order else 0) as Hadd.
  { unfold addend. destruct set; [by rewrite list_fmap_id|apply le_val_zeros_like]. }
  destruct order_bounds as [Hob Ho8]. pose proof (Z.mod_pos_bound h order ltac:(lia)) as Hh.
  assert (2 ^ (k + 1) = 2 * 2 ^ k) as Hpow by (rewrite Z.pow_add_r by lia; lia).
  assert (1 <= 2 ^ k <= 4) as Hp by (assert (k = 0 ∨ k = 1 ∨ k = 2) as [->|[->| ->]] by lia; lia).
  assert (256 ^ 32 = 2 ^ 256) as H256 by done.
  assert (le_val (add_assign scalar addend) = le_val scalar + le_val addend) as Hsum.
  { apply add_assign_value; [unfold addend; rewrite len_fmap; congruence|]. rewrite Hl, Hadd, Hv, H256.
    destruct set; nia. }
  assert (le_val (double_assign ord) = 2 * le_val ord) as Hdbl.
  { unfold double_assign. rewrite add_assign_value; [lia|done|]. rewrite Hlo, Ho, H256. nia. }
  split; cbn [fst snd].
  - unfold double_assign, add_assign. by rewrite !len_add_loop, Hl, Hlo.
  - rewrite Hdbl, Ho, Hpow. lia.
  - exists (if set then c + 2 ^ k else c). rewrite Hsum, Hadd, Hv, Hpow. destruct set; split; lia.
  - pose proof (testbit_mod (le_val scalar) k ltac:(lia) Hb) as Hm. fold set in Hm.
    rewrite Hsum, Hadd, Zplus_mod, Hm. destruct set.
    + assert ((2 ^ k * order) mod 2 ^ (k + 1) = 2 ^ k) as ->.
      { rewrite Hpow, (Z.mul_comm 2), Z.mul_mod_distr_l by lia.
        assert (order mod 2 = 1) as -> by (by vm_compute). lia. }
      rewrite Hpow. replace (2 ^ k + 2 ^ k) with (2 * 2 ^ k) by lia. by rewrite Z_mod_same_full.
    + by rewrite Z.add_0_l, !Z.mod_0_l by lia.
Qed.

(** ** The two scalars *)

Lemma u8_bits x :
  u8 x = Z.b2z (Z.testbit (u8 x) 0) + 2 * Z.b2z (Z.testbit (u8 x) 1) + 4 * Z.b2z (Z.testbit (u8 x) 2) +
         8 * Z.b2z (Z.testbit (u8 x) 3) + 16 * Z.b2z (Z.testbit (u8 x) 4) + 32 * Z.b2z (Z.testbit (u8 x) 5) +
         64 * Z.b2z (Z.testbit (u8 x) 6) + 128 * Z.b2z (Z.testbit (u8 x) 7).
Proof. by destruct x; vm_compute. Qed.

Section Laws.
Context {P : Type} `{Curve P} `{!CurveLaws P}.

Lemma reduced_value w : le_val (reduce_wide w) = le_val w mod order.
Proof.
  rewrite reduce_wide_value. destruct order_bounds as [Hob _]. pose proof (Z.mod_pos_bound (le_val w) order ltac:(lia)).
  rewrite le_val_le_bytes. apply Z.mod_small. change (256 ^ Z.of_nat 32) with (2 ^ 256). lia.
Qed.

Lemma len_reduced w : len (reduce_wide w) = 32.
Proof. by rewrite reduce_wide_value, len_le_bytes. Qed.

Lemma password_fixing hash :
  fixing 3 (le_val hash) (foldl (λ x bit, clear_bit bit x) (reduce_wide hash, ORDER) [0; 1; 2]).
Proof.
  cbn [foldl]. apply (clear_bit_fixing 2), (clear_bit_fixing 1), (clear_bit_fixing 0); [lia..|].
  split; cbn [fst snd].
  - by rewrite len_reduced.
  - by rewrite Z.mul_1_l.
  - exists 0. rewrite reduced_value. lia.
  - by rewrite Z.mod_1_r.
Qed.

Lemma low_bits l : Z.land (u8 (default x00 (head l))) 7 = le_val l mod 8.
Proof.
  change 7 with (Z.ones 3). rewrite Z.land_ones by lia. change (2 ^ 3) with 8. destruct l as [|x l]; [done|].
  cbn [le_val head default]. replace (u8 x + 256 * le_val l) with (u8 x + 32 * le_val l * 8) by lia.
  by rewrite Z_mod_plus_full.
Qed.

Lemma password_scalar_some hash :
  ∃ s, password_scalar hash = Some s ∧ len s = 32 ∧ le_val s mod 8 = 0 ∧
    ∃ c, le_val s = le_val hash mod order + c * order ∧ 0 <= c < 8.
Proof.
  pose proof (password_fixing hash) as Hf. unfold password_scalar.
  destruct (foldl _ _ _) as [s o]. destruct Hf as [[Hl _] _ Hv Hb]. cbn [fst snd] in *. exists s.
  change (2 ^ 3) with 8 in *. by rewrite low_bits, Hb.
Qed.

(** ** Multiplication *)

Lemma times_O (p : P) : times 0 p = identity.
Proof. done. Qed.

Lemma times_S n (p : P) : times (S n) p = point_add p (times n p).
Proof. done. Qed.

Lemma times_add n m (p : P) : times (n + m) p = point_add (times n p) (times m p).
Proof.
  induction n as [|n IH]; [by rewrite times_O, add_identity|]. cbn [Nat.add].
  by rewrite !times_S, IH, add_assoc.
Qed.

Lemma times_identity n : times n identity = (identity : P).
Proof. induction n as [|n IH]; [done|]. by rewrite times_S, add_identity. Qed.

Lemma times_point_add n (p q : P) : times n (point_add p q) = point_add (times n p) (times n q).
Proof.
  induction n as [|n IH]; [by rewrite !times_O, add_identity|]. rewrite !times_S, IH, !add_assoc. f_equal.
  rewrite <- !add_assoc. f_equal. apply add_comm.
Qed.

Lemma times_mul n m (p : P) : times (n * m) p = times n (times m p).
Proof. induction n as [|n IH]; [done|]. cbn [Nat.mul]. by rewrite times_add, IH, times_S. Qed.

Lemma mul_bits point byte acc k :
  acc = times k point →
  mul_byte point acc byte = times (256 * k + Z.to_nat (u8 byte)) point.
Proof.
  intros ->. unfold mul_byte. cbn [foldl].
  assert (∀ j b, mul_bit point byte (times j point) b =
                 times (2 * j + Nat.b2n (Z.testbit (u8 byte) b)) point) as Hb.
  { intros j b. unfold mul_bit. rewrite <- times_add. destruct (Z.testbit _ _); cbn [Nat.b2n].
    - rewrite add_comm, <- times_S. f_equal. lia.
    - f_equal. lia. }
  rewrite !Hb. f_equal. pose proof (u8_bits byte) as Hx. pose proof (u8_range byte).
  assert (∀ b, Z.b2z b = Z.of_nat (Nat.b2n b)) as Hz by (by intros []). rewrite !Hz in Hx. lia.
Qed.

Lemma mul_raw_times (p : P) s : mul_raw p s = times (Z.to_nat (le_val s)) p.
Proof.
  unfold mul_raw. induction s as [|x s IH]; [done|]. cbn [rev le_val]. rewrite foldl_app. cbn [foldl].
  rewrite (mul_bits _ _ _ _ IH). f_equal. pose proof (u8_range x). pose proof (le_val_bound s). lia.
Qed.

(** ** The exchange *)

Definition scalar_of (wide : bytes) : Z := 8 * (le_val wide mod order).

Lemma private_value w : le_val (left_shift_3 (reduce_wide w)) = scalar_of w.
Proof.
  unfold left_shift_3, scalar_of. rewrite shift_loop_value, reduced_value, len_reduced by lia.
  destruct order_bounds as [Hob _]. pose proof (Z.mod_pos_bound (le_val w) order ltac:(lia)).
  rewrite Z.add_0_r. apply Z.mod_small. change (256 ^ 32) with (2 ^ 256). lia.
Qed.

Lemma mask_point_some role : is_Some (mask_point (P := P) role).
Proof. destruct mask_points as [HM HN]. by destruct role. Qed.

(** Multiplying the base by a number or by what it leaves modulo the order. *)
Lemma times_mod_order (base : P) n :
  times (Z.to_nat order) base = identity → 0 <= n →
  times (Z.to_nat (n mod order)) base = times (Z.to_nat n) base.
Proof.
  intros Hord Hn. destruct order_bounds as [Hob _].
  pose proof (Z.mod_pos_bound n order ltac:(lia)). pose proof (Z.div_pos n order Hn ltac:(lia)).
  rewrite (Z.div_mod n order) at 2 by lia. rewrite Z2Nat.inj_add by lia.
  rewrite (Z.mul_comm order), Z2Nat.inj_mul by lia.
  by rewrite times_add, times_mul, Hord, times_identity, add_identity.
Qed.

(** The state and the spake2_message of a side. *)
Definition side (base : P) (role : Role) (mine theirs password w s : bytes) (mask : P) : Spake2 :=
  mkSpake2 role mine theirs (left_shift_3 (reduce_wide w)) (sha512 password) s
    (compress (point_add (times (Z.to_nat (scalar_of w)) base) (mul_raw mask s))).

Lemma new_side (base : P) role mine theirs password w s mask :
  times (Z.to_nat order) base = identity →
  (∀ k, mul_base_mod_order k = times (Z.to_nat (le_val k mod order)) base) →
  password_scalar (sha512 password) = Some s → mask_point role = Some mask →
  spake2_new role mine theirs password w = Some (side base role mine theirs password w s mask).
Proof.
  intros Hord Hbase Hs Hm. unfold spake2_new. rewrite Hs. cbn [mbind option_bind]. rewrite Hm. cbn [mbind option_bind].
  rewrite Hbase, private_value, times_mod_order; [done|done|].
  unfold scalar_of. destruct order_bounds as [Hob _]. pose proof (Z.mod_pos_bound (le_val w) order ltac:(lia)). lia.
Qed.

Lemma times_swap (p : P) n m : times n (times m p) = times m (times n p).
Proof. by rewrite <- !times_mul, Nat.mul_comm. Qed.

(** two sides that start from one password, each naming itself first,
    and each spake2_finish on the other's spake2_message, come to the same 64 bytes, whatever
    the numbers their generators gave; neither can panic or be refused. *)
Theorem keys_agree (alice bob password wa wb : bytes) :
  ∃ a b key,
    spake2_new Role.Alice alice bob password wa = Some a ∧ spake2_new Role.Bob bob alice password wb = Some b ∧
    spake2_finish a (spake2_message b) = Some (Ok key) ∧ spake2_finish b (spake2_message a) = Some (Ok key) ∧ len key = 64.
Proof.
  destruct mul_base_order as (base & Hord & Hbase).
  destruct (password_scalar_some (sha512 password)) as (s & Hs & _).
  destruct (mask_point_some Role.Alice) as [ma Hma], (mask_point_some Role.Bob) as [mb Hmb].
  eexists _, _, _. split_and!; [by eapply new_side|by eapply new_side|..].
  - unfold spake2_finish, side, spake2_message. cbn [my_msg sp_role]. rewrite decompress_compress, Hmb.
    cbn [mbind option_bind my_name their_name my_msg sp_password_hash sp_password_scalar private_key].
    rewrite add_sub. reflexivity.
  - unfold spake2_finish, side, spake2_message. cbn [my_msg sp_role]. rewrite decompress_compress, Hma.
    cbn [mbind option_bind my_name their_name my_msg sp_password_hash sp_password_scalar private_key].
    by rewrite add_sub, !mul_raw_times, !private_value, times_swap.
  - apply len_sha512.
Qed.

(** the scalar the password becomes is a whole number of 32 bytes, a
    multiple of the cofactor that is the password's hash modulo the order of the
    base point: the fix adds a multiple of the order below eight, no carry is
    lost, and the assertion on the low bits holds for every password. *)
Theorem password_scalar_fixed (hash : bytes) :
  ∃ s, password_scalar hash = Some s ∧ len s = 32 ∧ le_val s mod 8 = 0 ∧
    le_val s mod order = le_val hash mod order ∧ 0 <= le_val s < 8 * order.
Proof.
  destruct (password_scalar_some hash) as (s & Hs & Hl & Hb & c & Hv & Hc). exists s.
  destruct order_bounds as [Hob _]. pose proof (Z.mod_pos_bound (le_val hash) order ltac:(lia)).
  split_and!; try done; [|rewrite Hv; nia..].
  by rewrite Hv, Z_mod_plus_full, Z.mod_mod by lia.
Qed.

End Laws.

(** ** A group the laws hold of

    The integers modulo fifteen times the order, where 15 has that order; points
    are written as 32 bytes. *)

Definition modulus : Z := 15 * order.

Lemma modulus_pos : 0 < modulus.
Proof. by vm_compute. Qed.

Definition residue : Type := dsig (λ z, 0 <= z < modulus).

Definition norm (z : Z) : residue := dexist (z mod modulus) (Z.mod_pos_bound z modulus modulus_pos).

Lemma norm_eq a b : a mod modulus = b mod modulus → norm a = norm b.
Proof. intros E. by apply dsig_eq. Qed.

Lemma norm_proj (x : residue) : norm (`x) = x.
Proof. apply dsig_eq. cbn. apply Z.mod_small. exact (proj2_dsig x). Qed.

#[local] Instance residue_curve : Curve residue := {
  identity := norm 0;
  point_add x y := norm (`x + `y);
  point_sub x y := norm (`x - `y);
  compress x := le_bytes 32 (`x);
  decompress b := if bool_decide (le_val b < modulus) then Some (norm (le_val b)) else None;
  mul_base_mod_order s := norm (15 * (le_val s mod order));
  reduce_wide w := le_bytes 32 (le_val w mod order);
  sha512 b := le_bytes 64 (le_val b);
}.

Lemma times_residue n z : times n (norm z) = norm (Z.of_nat n * z).
Proof.
  induction n as [|n IH]; [done|]. unfold times in *. cbn [Nat.iter nat_rect] in *. unfold Nat.iter in IH. rewrite IH. cbn.
  apply norm_eq. rewrite Zplus_mod_idemp_l, Zplus_mod_idemp_r. f_equal. lia.
Qed.

#[local] Instance residue_laws : CurveLaws residue.
Proof.
  pose proof modulus_pos. assert (256 ^ 32 > modulus) as Hbig by (by vm_compute). split; cbn -[le_bytes le_val M_BYTES N_BYTES].
  - intros p q r. apply norm_eq. rewrite Zplus_mod_idemp_l, Zplus_mod_idemp_r. f_equal. lia.
  - intros p q. f_equal. lia.
  - intros p. rewrite Z.mod_0_l by lia. apply norm_proj.
  - intros p q. rewrite <- (norm_proj p) at 2. apply norm_eq. rewrite Zminus_mod_idemp_l. f_equal. lia.
  - intros p. pose proof (proj2_dsig p) as Hp. cbn in Hp. rewrite le_val_le_bytes, Z.mod_small by (simpl; lia).
    rewrite bool_decide_true by lia. by rewrite norm_proj.
  - intros p. apply len_le_bytes.
  - split; by eexists.
  - exists (norm 15). split.
    + rewrite times_residue, Z2Nat.id by (by vm_compute). apply norm_eq. unfold modulus.
      by rewrite Z.mul_comm, Z_mod_same_full.
    + intros s. rewrite times_residue, Z2Nat.id by (apply Z.mod_pos_bound; by vm_compute). f_equal. lia.
  - done.
  - intros b. apply len_le_bytes.
Qed.

Lemma keys_agree_witness :
  ∃ a b key,
    spake2_new (P := residue) Role.Alice (bs "host") (bs "device") (bs "592781") (replicate 64 x35) = Some a ∧
    spake2_new (P := residue) Role.Bob (bs "device") (bs "host") (bs "592781") (replicate 64 x07) = Some b ∧
    spake2_finish (P := residue) a (spake2_message b) = Some (Ok key) ∧ spake2_finish (P := residue) b (spake2_message a) = Some (Ok key) ∧ len key = 64.
Proof. apply (keys_agree (bs "host") (bs "device") (bs "592781")). Defined.

Lemma password_scalar_fixed_witness :
  ∃ s, password_scalar (P := residue) (bs "592781") = Some s ∧ len s = 32 ∧ le_val s mod 8 = 0 ∧
    le_val s mod order = le_val (bs "592781") mod order ∧ 0 <= le_val s < 8 * order.
Proof. apply (password_scalar_fixed (P := residue) (bs "592781")). Defined.
