(* ===== verification/Pairing.v ===== *)
(** * Pairing ([pairing/frame.rs], [pairing/peer_info.rs], [pairing/aead.rs],
      [pairing/client.rs])

    [pair] over the TLS session it starts.  The session is an interface with
    [embedded_io_async]'s [read_exact], [write_all] and [flush] and rustls's
    exporter; HKDF and AES-GCM are an interface with the laws of a deterministic
    authenticated cipher.  [pairing_completes] is that a device that runs the
    other side with the same code is paired with: the host learns its GUID, and
    the device reads exactly the host's key.  [pairing_conversation] says of
    every way a call can end, failures and drops included, what was said and
    what was heard: the key leaves only sealed under the key agreed with the
    peer, and a GUID is one that the peer sealed under it. *)

From S2P Require Import Prelude Errors Protocol Text Wire Keys Spake2.

(** ** [frame.rs] *)

Definition FRAME_HEADER_LEN : Z := 6.
Definition FRAME_VERSION : Z := 1.
Definition FRAME_MAX_PAYLOAD : Z := 16384.

Module PacketType.
Inductive PacketType : Type := Spake2Msg | PeerInfo.
End PacketType.
Abbreviation PacketType := PacketType.PacketType.

#[global] Instance packet_type_eq_decision : EqDecision PacketType.
Proof. solve_decision. Defined.

Definition packet_type_code (t : PacketType) : Z :=
  match t with PacketType.Spake2Msg => 0 | PacketType.PeerInfo => 1 end.

Definition packet_type_from_code (code : Z) : option PacketType :=
  match code with 0 => Some PacketType.Spake2Msg | 1 => Some PacketType.PeerInfo | _ => None end.

Module FrameError.
Inductive FrameError : Type :=
| Version (v : Z)
| Kind (k : Z)
| Length (n : Z)
| Unexpected (got expected : PacketType).
End FrameError.
Abbreviation FrameError := FrameError.FrameError.

(** [header[i]], of an array that has an [i]th byte. *)
Definition byte_at (i : nat) (header : bytes) : Z := u8 (default x00 (header !! i)).

Definition frame_encode (kind : PacketType) (payload : bytes) : bytes :=
  [b8 FRAME_VERSION; b8 (packet_type_code kind)] ++ u32_be (wrap_u32 (len payload)) ++ payload.

Definition frame_decode (header : bytes) : result FrameError (PacketType * Z) :=
  if negb (byte_at 0 header =? FRAME_VERSION) then Err (FrameError.Version (byte_at 0 header))
  else
    kind ← ok_or (FrameError.Kind (byte_at 1 header)) (packet_type_from_code (byte_at 1 header));
    let n := be_val (zdrop 2 header) in
    if (n =? 0) || (FRAME_MAX_PAYLOAD <? n) then Err (FrameError.Length n) else Ok (kind, n).

(** ** [peer_info.rs] *)

Definition PEER_INFO_SIZE : Z := 8192.

Module PeerInfoType.
Inductive PeerInfoType : Type := RsaPublicKey | DeviceGuid.
End PeerInfoType.
Abbreviation PeerInfoType := PeerInfoType.PeerInfoType.

#[global] Instance peer_info_type_eq_decision : EqDecision PeerInfoType.
Proof. solve_decision. Defined.

Definition peer_info_code (t : PeerInfoType) : Z :=
  match t with PeerInfoType.RsaPublicKey => 0 | PeerInfoType.DeviceGuid => 1 end.

Definition peer_info_from_code (code : Z) : option PeerInfoType :=
  match code with 0 => Some PeerInfoType.RsaPublicKey | 1 => Some PeerInfoType.DeviceGuid | _ => None end.

Module PeerInfoError.
Inductive PeerInfoError : Type :=
| Size (n : Z)
| Kind (k : Z)
| Unexpected (t : PeerInfoType)
| NotUtf8
| Unterminated
| TooLong (n : Z).
End PeerInfoError.
Abbreviation PeerInfoError := PeerInfoError.PeerInfoError.

Definition peer_info_encode (kind : PeerInfoType) (payload : bytes) : result PeerInfoError bytes :=
  if PEER_INFO_SIZE - 2 <? len payload then Err (PeerInfoError.TooLong (len payload))
  else Ok (b8 (peer_info_code kind) :: payload ++ replicate (Z.to_nat (PEER_INFO_SIZE - 1 - len payload)) x00).

(** The bytes of [data] before the first NUL are what [split_once] gives. *)
Definition peer_info_decode (block : bytes) : result PeerInfoError (PeerInfoType * bytes) :=
  if negb (len block =? PEER_INFO_SIZE) then Err (PeerInfoError.Size (len block))
  else
    kind ← ok_or (PeerInfoError.Kind (byte_at 0 block)) (peer_info_from_code (byte_at 0 block));
    '(text, _) ← ok_or PeerInfoError.Unterminated (split_once x00 (zdrop 1 block));
    if from_utf8 text then Ok (kind, text) else Err PeerInfoError.NotUtf8.

(** ** [aead.rs] *)

Definition HKDF_INFO : bytes := bs "adb pairing_auth aes-128-gcm key".
Definition KEY_LEN : Z := 16.
Definition TAG_LEN : Z := 16.

Class Aead : Type := {
  (** [Hkdf::<Sha256>::new(None, material)] and [expand(info, key)]. *)
  hkdf_expand : bytes → bytes → Z → bytes;
  (** [Aes128Gcm], of a key, a nonce and a message, with no further data. *)
  gcm_encrypt : bytes → bytes → bytes → bytes;
  gcm_decrypt : bytes → bytes → bytes → option bytes;
}.

(** The cipher is deterministic and checks a tag of its own making, so that a
    message opens exactly when it is what sealing would have given. *)
Class AeadLaws `{Aead} : Prop := {
  len_gcm key nonce m : len (gcm_encrypt key nonce m) = len m + TAG_LEN;
  gcm_exact key nonce c m : gcm_decrypt key nonce c = Some m ↔ c = gcm_encrypt key nonce m;
}.

(** The counters are [u64]s, and the nonce takes 64 bits of one. *)
Record Cipher : Type := mkCipher {
  cipher_key : bytes;
  encrypt_counter : Z;
  decrypt_counter : Z;
}.

Section Cipher.
Context `{Aead}.

Definition cipher_new (key_material : bytes) : Cipher :=
  mkCipher (hkdf_expand key_material HKDF_INFO KEY_LEN) 0 0.

Definition nonce (counter : Z) : bytes := u64_le counter ++ replicate 4 x00.

Definition seal (plaintext : bytes) (c : Cipher) : bytes * Cipher :=
  (gcm_encrypt (cipher_key c) (nonce (encrypt_counter c)) plaintext,
   mkCipher (cipher_key c) (encrypt_counter c + 1) (decrypt_counter c)).

Definition open_sealed (ciphertext : bytes) (c : Cipher) : option (bytes * Cipher) :=
  opened ← gcm_decrypt (cipher_key c) (nonce (decrypt_counter c)) ciphertext;
  Some (opened, mkCipher (cipher_key c) (encrypt_counter c) (decrypt_counter c + 1)).
End Cipher.

(** ** [client.rs] *)

Definition EXPORTER_LABEL : bytes := bs "adb-label" ++ [x00].
Definition EXPORTER_LEN : Z := 64.
Definition CLIENT_NAME : bytes := bs "adb pair client" ++ [x00].
Definition SERVER_NAME : bytes := bs "adb pair server" ++ [x00].

Module PairingError.
Inductive PairingError (E : Type) : Type :=
| Transport (e : E)
| Closed
| Frame (e : FrameError)
| Spake2 (e : Spake2Error)
| WrongCode
| PeerInfo (e : PeerInfoError).
Arguments Transport {E} e.
Arguments Closed {E}.
Arguments Frame {E} e.
Arguments Spake2 {E} e.
Arguments WrongCode {E}.
Arguments PeerInfo {E} e.
End PairingError.
Abbreviation PairingError := PairingError.PairingError.

Inductive ReadExactError (E : Type) : Type := UnexpectedEof | Other (e : E).
Arguments UnexpectedEof {E}.
Arguments Other {E} e.

(** A [MaybeTls], as far as [pair] uses it. *)
Class PairStream (T E : Type) : Type := {
  ps_start_tls : T → io E unit * T;
  (** [export_keying_material] of a label, as many bytes as asked. *)
  ps_export : bytes → Z → T → result E bytes;
  ps_write_all : bytes → T → io E unit * T;
  ps_flush : T → io E unit * T;
  ps_read_exact : Z → T → io (ReadExactError E) bytes * T;
}.

Section Pair.
Context {T E : Type} `{PairStream T E} `{Aead} {P : Type} `{Curve P}.

Abbreviation pprog := (prog T (PairingError E)).

(** [From<ReadExactError>]. *)
Definition read_exact_error (e : ReadExactError E) : PairingError E :=
  match e with UnexpectedEof => PairingError.Closed | Other e => PairingError.Transport e end.

(** [.await], with the error converted. *)
Definition awaiting {F A} (convert : F → PairingError E) (call : T → io F A * T) : pprog A := λ t,
  match call t with
  | (IoOk a, t) => (Ret a, t)
  | (IoErr e, t) => (Fail (convert e), t)
  | (IoDropped, t) => (Dropped, t)
  end.

Definition pair_send (kind : PacketType) (payload : bytes) : pprog unit :=
  awaiting PairingError.Transport (ps_write_all (frame_encode kind payload)) ≫= λ _,
  awaiting PairingError.Transport ps_flush.

Definition pair_recv (expected : PacketType) : pprog bytes :=
  header ← awaiting read_exact_error (ps_read_exact FRAME_HEADER_LEN);
  '(kind, n) ← lift (map_err PairingError.Frame (frame_decode header));
  if bool_decide (kind = expected) then awaiting read_exact_error (ps_read_exact n)
  else fail (PairingError.Frame (FrameError.Unexpected kind expected)).

(** The end of [pair]: the answer, opened and read. *)
Definition read_answer (cipher : Cipher) (answer : bytes) : result (PairingError E) bytes :=
  if negb (len answer =? PEER_INFO_SIZE + TAG_LEN) then
    Err (PairingError.PeerInfo (PeerInfoError.Size (saturating_sub (len answer) TAG_LEN)))
  else
    '(opened, _) ← ok_or PairingError.WrongCode (open_sealed answer cipher);
    '(kind, guid) ← map_err PairingError.PeerInfo (peer_info_decode opened);
    if bool_decide (kind = PeerInfoType.DeviceGuid) then Ok guid
    else Err (PairingError.PeerInfo (PeerInfoError.Unexpected kind)).

(** [pair] from the key agreement on: it returns the GUID. *)
Definition exchange_keys (spake2 : Spake2) (key_line : bytes) : pprog bytes :=
  pair_send PacketType.Spake2Msg (spake2_message spake2) ≫= λ _,
  theirs ← pair_recv PacketType.Spake2Msg;
  if negb (len theirs =? 32) then fail (PairingError.Spake2 (Spake2Error.MessageLength (len theirs)))
  else
    match spake2_finish spake2 theirs with
    | None => panic
    | Some agreed =>
        key_material ← lift (map_err PairingError.Spake2 agreed);
        let cipher := cipher_new key_material in
        mine ← lift (map_err PairingError.PeerInfo (peer_info_encode PeerInfoType.RsaPublicKey key_line));
        let '(sealed, cipher) := seal mine cipher in
        pair_send PacketType.PeerInfo sealed ≫= λ _,
        answer ← pair_recv PacketType.PeerInfo;
        lift (read_answer cipher answer)
    end.

(** [pair], with the line of the key and the bytes the generator gave. *)
Definition pair (key_line code wide : bytes) : pprog bytes :=
  awaiting PairingError.Transport ps_start_tls ≫= λ _,
  exported ← (λ t, lift (map_err PairingError.Transport (ps_export EXPORTER_LABEL EXPORTER_LEN t)) t);
  let password := code ++ exported in
  match spake2_new Role.Alice CLIENT_NAME SERVER_NAME password wide with
  | None => panic
  | Some spake2 => exchange_keys spake2 key_line
  end.
End Pair.

(** ** Formats *)

Lemma len_header kind payload : len (frame_encode kind payload) = FRAME_HEADER_LEN + len payload.
Proof. unfold frame_encode, FRAME_HEADER_LEN. rewrite !len_app, len_u32_be. zlen. Qed.

Definition payload_ok (payload : bytes) : Prop := 0 < len payload <= FRAME_MAX_PAYLOAD.

(** The header of a frame, read on its own. *)
Lemma frame_reads kind payload :
  payload_ok payload →
  ∃ header, frame_encode kind payload = header ++ payload ∧ len header = FRAME_HEADER_LEN ∧
    frame_decode header = Ok (kind, len payload).
Proof.
  intros [Hlo Hhi]. unfold FRAME_MAX_PAYLOAD in Hhi.
  assert (is_u32 (len payload)) as Hu by (unfold is_u32; lia).
  assert (wrap_u32 (len payload) = len payload) as Hw by (by apply Z.mod_small).
  exists ([b8 FRAME_VERSION; b8 (packet_type_code kind)] ++ u32_be (len payload)). split_and!.
  - unfold frame_encode. by rewrite Hw, <- app_assoc.
  - rewrite len_app, len_u32_be. done.
  - unfold frame_decode. change (byte_at 0 _) with (u8 (b8 FRAME_VERSION)).
    change (byte_at 1 _) with (u8 (b8 (packet_type_code kind))). change (zdrop 2 _) with (u32_be (len payload)).
    rewrite be_val_u32_be by done. replace (packet_type_from_code _) with (Some kind) by (by destruct kind).
    change (u8 (b8 FRAME_VERSION) =? FRAME_VERSION) with true. cbn [negb ok_or mbind result_bind]. unfold FRAME_MAX_PAYLOAD.
    by destruct (Z.eqb_spec (len payload) 0), (Z.ltb_spec 16384 (len payload)); try lia.
Qed.

Lemma bytes_6 (l : bytes) : len l = 6 → ∃ a b c d e f, l = [a; b; c; d; e; f].
Proof.
  unfold len. intros Hl. do 6 (destruct l as [|? l]; [done|]). destruct l; [|simpl in Hl; lia]. by eauto 7.
Qed.

Lemma u32_be_val a b c d : u32_be (be_val [a; b; c; d]) = [a; b; c; d].
Proof.
  Transparent u32_be. unfold u32_be, be_val. Opaque u32_be.
  change 4%nat with (length (rev [a; b; c; d])). by rewrite le_bytes_le_val, rev_involutive.
Qed.

(** A header that is accepted is the header of the frame that follows it. *)
Lemma frame_exact header kind n payload :
  len header = FRAME_HEADER_LEN → frame_decode header = Ok (kind, n) → len payload = n →
  payload_ok payload ∧ header ++ payload = frame_encode kind payload.
Proof.
  intros Hl Hd Hn. apply bytes_6 in Hl as (v & k & a & b & c & d & ->). unfold frame_decode in Hd.
  change (byte_at 0 _) with (u8 v) in Hd. change (byte_at 1 _) with (u8 k) in Hd.
  change (zdrop 2 _) with [a; b; c; d] in Hd. destruct (Z.eqb_spec (u8 v) FRAME_VERSION) as [Hv|]; [|done].
  destruct (packet_type_from_code (u8 k)) as [kind'|] eqn:Hk; [|done]. cbn [negb ok_or mbind result_bind] in Hd.
  destruct (Z.eqb_spec (be_val [a; b; c; d]) 0) as [|H0]; [done|].
  destruct (Z.ltb_spec FRAME_MAX_PAYLOAD (be_val [a; b; c; d])) as [|Hm]; [done|]. injection Hd as -> Hd.
  assert (v = b8 FRAME_VERSION) as -> by (rewrite <- Hv; by rewrite b8_u8).
  assert (k = b8 (packet_type_code kind)) as ->.
  { rewrite <- (b8_u8 k). f_equal. unfold packet_type_from_code in Hk. by repeat case_match; simplify_eq. }
  pose proof (len_nonneg payload). split; [unfold payload_ok; lia|]. unfold frame_encode. rewrite Hn, <- Hd. unfold wrap_u32.
  rewrite Z.mod_small by (unfold FRAME_MAX_PAYLOAD in Hm; lia). by rewrite u32_be_val.
Qed.

Lemma frame_decode_len header kind n : frame_decode header = Ok (kind, n) → 0 <= n.
Proof.
  unfold frame_decode, be_val. pose proof (le_val_bound (rev (zdrop 2 header))). destruct (negb _); [done|].
  destruct (packet_type_from_code _); [|done]. cbn [ok_or mbind result_bind]. destruct (_ || _); [done|]. intros [= _ <-]. lia.
Qed.

(** What a block can carry, and that it carries it. *)
Definition info_ok (payload : bytes) : Prop :=
  len payload <= PEER_INFO_SIZE - 2 ∧ x00 ∉ payload ∧ from_utf8 payload = true.

Lemma len_replicate {A} n (x : A) : len (replicate n x) = Z.of_nat n.
Proof. unfold len. by rewrite length_replicate. Qed.

Lemma peer_info_len kind payload block :
  peer_info_encode kind payload = Ok block → len block = PEER_INFO_SIZE.
Proof.
  unfold peer_info_encode. destruct (Z.ltb_spec (PEER_INFO_SIZE - 2) (len payload)); [done|]. intros [= <-].
  rewrite len_cons, len_app, len_replicate. unfold PEER_INFO_SIZE in *. lia.
Qed.

Lemma peer_info_reads kind payload :
  info_ok payload → ∃ block, peer_info_encode kind payload = Ok block ∧ peer_info_decode block = Ok (kind, payload).
Proof.
  intros (Hl & Hn & Hu). eexists. assert (∀ b, peer_info_encode kind payload = Ok b → len b = PEER_INFO_SIZE) as Hlen
    by (intros b; apply peer_info_len). revert Hlen. unfold peer_info_encode.
  destruct (Z.ltb_spec (PEER_INFO_SIZE - 2) (len payload)); [lia|]. intros Hlen. split; [done|].
  unfold peer_info_decode. rewrite (Hlen _ eq_refl). change (byte_at 0 _) with (u8 (b8 (peer_info_code kind))).
  change (b8 ?x :: ?l) with ([b8 x] ++ l). rewrite zdrop_app_len by done. replace (peer_info_from_code _) with (Some kind) by (by destruct kind).
  replace (Z.to_nat (PEER_INFO_SIZE - 1 - len payload)) with (S (Z.to_nat (PEER_INFO_SIZE - 2 - len payload))) by lia.
  cbn [replicate]. rewrite (proj2 (split_once_some x00 _ _ _) (conj eq_refl Hn)).
  cbn [negb ok_or mbind result_bind Z.eqb PEER_INFO_SIZE Pos.eqb]. by rewrite Hu.
Qed.

(** ** What the session promises

    [arriving] is what the peer has still to be read, [said] what it was sent.
    A call that fails or is dropped may have done part of its work.  On a
    session that is [healthy] nothing fails while there is enough to read. *)
Class PairLaws (T E : Type) `{PairStream T E} : Type := {
  arriving : T → bytes;
  said : T → bytes;
  healthy : T → Prop;
  ps_write_law b t r t' : ps_write_all b t = (r, t') →
    arriving t' = arriving t ∧ (∃ n, said t' = said t ++ ztake n b) ∧
    (r = IoOk tt → said t' = said t ++ b) ∧ (healthy t → r = IoOk tt ∧ healthy t');
  ps_flush_law t r t' : ps_flush t = (r, t') →
    arriving t' = arriving t ∧ said t' = said t ∧ (healthy t → r = IoOk tt ∧ healthy t');
  ps_read_law n t r t' : 0 <= n → ps_read_exact n t = (r, t') →
    said t' = said t ∧ (∃ b, arriving t = b ++ arriving t') ∧
    (∀ b, r = IoOk b → len b = n ∧ arriving t = b ++ arriving t') ∧
    (healthy t → n <= len (arriving t) → (∃ b, r = IoOk b) ∧ healthy t');
}.

Section Conversation.
Context {T E : Type} `{PairLaws T E} `{AeadLaws} {P : Type} `{Curve P} `{!CurveLaws P}.
Abbreviation pprog := (prog T (PairingError E)).

(** The call was dropped, or failed for another reason than the code. *)
Definition cut_short {A} (o : outcome (PairingError E) A) : Prop :=
  match o with
  | Ret _ | Panicked | NoFuel | Fail PairingError.WrongCode => False
  | Fail _ | Dropped => True
  end.

Lemma wp_awaiting {F A} (convert : F → PairingError E) (call : T → io F A * T) (Q : outcome _ A → T → Prop) t :
  (∀ r t', call t = (r, t') →
    match r with IoOk a => Q (Ret a) t' | IoErr e => Q (Fail (convert e)) t' | IoDropped => Q Dropped t' end) →
  wp (awaiting convert call) Q t.
Proof. intros Hc. unfold wp, awaiting. destruct (call t) as [[a|e|] t'] eqn:Ec; apply (Hc _ _ eq_refl). Qed.

Lemma pair_send_spec kind payload t :
  wp (pair_send kind payload : pprog unit) (λ o t',
    arriving t' = arriving t ∧ (∃ n, said t' = said t ++ ztake n (frame_encode kind payload)) ∧
    (o = Ret tt → said t' = said t ++ frame_encode kind payload) ∧ (o = Ret tt ∨ cut_short o) ∧
    (healthy t → o = Ret tt ∧ healthy t')) t.
Proof.
  unfold pair_send. apply wp_bind, wp_awaiting. intros r t1 Hw. apply ps_write_law in Hw as (Ha & Hn & Ho & Hh).
  destruct r as [[]|e|]; [|split_and!; try done; [by right|by intros [? _]%Hh]..].
  apply wp_awaiting. intros r t2 Hf. apply ps_flush_law in Hf as (Ha2 & Hs2 & Hh2). rewrite Ha2, Hs2, Ha.
  specialize (Ho eq_refl). destruct r as [[]|e|]; (split_and!; [done|done|done|by (left + right)|]).
  all: intros Hg; apply Hh in Hg as [_ Hg]; by apply Hh2 in Hg as [? ?].
Qed.

Lemma pair_recv_spec expected t :
  wp (pair_recv expected : pprog bytes) (λ o t', said t' = said t ∧
    match o with
    | Ret p => payload_ok p ∧ arriving t = frame_encode expected p ++ arriving t'
    | _ => cut_short o ∧ ∃ b, arriving t = b ++ arriving t'
    end) t.
Proof.
  unfold pair_recv. apply wp_bind, wp_awaiting. intros r t1 Hr. apply ps_read_law in Hr as (Hs & Hb & Ho & _); [|done].
  destruct r as [header|e|]; [|by destruct e|done]. destruct (Ho header eq_refl) as [Hl Ha].
  apply wp_bind, wp_lift. destruct (frame_decode header) as [[kind n]|e] eqn:Hd; [|done]. cbn [map_err].
  case_bool_decide as Hk; [subst kind|done]. apply wp_awaiting. intros r t2 Hr.
  pose proof (ps_read_law _ _ _ _ (frame_decode_len _ _ _ Hd) Hr) as (Hs2 & [b2 Hb2] & Ho2 & _). rewrite Hs in Hs2.
  destruct r as [p|e|]; (split; [done|]); [|split; [by try destruct e|exists (header ++ b2); by rewrite Ha, Hb2, app_assoc]..].
  destruct (Ho2 p eq_refl) as [Hlp Ha2]. destruct (frame_exact _ _ _ _ Hl Hd Hlp) as [Hp Hf].
  by rewrite Ha, Ha2, <- Hf, app_assoc.
Qed.

Lemma pair_recv_healthy kind p rest t :
  healthy t → payload_ok p → arriving t = frame_encode kind p ++ rest →
  ∃ t', pair_recv kind t = (Ret p, t') ∧ healthy t' ∧ arriving t' = rest ∧ said t' = said t.
Proof.
  intros Hg Hp Ha. destruct (frame_reads kind p Hp) as (header & Hf & Hl & Hd). rewrite Hf, <- app_assoc in Ha.
  assert (0 <= FRAME_HEADER_LEN) as Hpos by done. unfold pair_recv, mbind, prog_bind, awaiting.
  destruct (ps_read_exact FRAME_HEADER_LEN t) as [r t1] eqn:Hr.
  apply (ps_read_law _ _ _ _ Hpos) in Hr as (Hs & _ & Ho & Hh).
  destruct (Hh Hg) as [[h ->] Hg1]; [rewrite Ha, !len_app; pose proof (len_nonneg p); pose proof (len_nonneg rest); lia|].
  destruct (Ho h eq_refl) as [Hlh Hah]. rewrite Ha in Hah. apply app_inj_1 in Hah as [<- Ha1]; [|unfold len in *; lia].
  rewrite Hd. cbn [map_err lift]. rewrite bool_decide_true by done.
  destruct (ps_read_exact (len p) t1) as [r t2] eqn:Hr.
  apply (ps_read_law _ _ _ _ (len_nonneg p)) in Hr as (Hs2 & _ & Ho2 & Hh2).
  destruct (Hh2 Hg1) as [[q ->] Hg2]; [rewrite <- Ha1, len_app; pose proof (len_nonneg rest); lia|].
  destruct (Ho2 q eq_refl) as [Hlq Haq]. rewrite <- Ha1 in Haq. apply app_inj_1 in Haq as [<- Ha2]; [|unfold len in *; lia].
  exists t2. split_and!; [done|done|done|congruence].
Qed.

(** What was said and heard by the end of the exchange, from a session [t] on:
    our message and part of it, or, once the peer's was heard and a key agreed,
    all of it and then the key, sealed. *)
Definition conversed (a : Spake2) (line : bytes) (t : T) (o : outcome (PairingError E) bytes) (t' : T) : Prop :=
  let mine := frame_encode PacketType.Spake2Msg (spake2_message a) in
  (cut_short o ∧ (∃ n, said t' = said t ++ ztake n mine) ∧ ∃ b, arriving t = b ++ arriving t') ∨
  ∃ theirs key block sealed b,
    spake2_finish a theirs = Some (Ok key) ∧ peer_info_encode PeerInfoType.RsaPublicKey line = Ok block ∧
    sealed = frame_encode PacketType.PeerInfo (fst (seal block (cipher_new key))) ∧
    (∃ n, said t' = said t ++ mine ++ ztake n sealed) ∧
    arriving t = frame_encode PacketType.Spake2Msg theirs ++ b ++ arriving t' ∧
    match o with
    | Ret guid =>
        said t' = said t ++ mine ++ sealed ∧
        ∃ info, b = frame_encode PacketType.PeerInfo (gcm_encrypt (cipher_key (cipher_new key)) (nonce 0) info) ∧
          peer_info_decode info = Ok (PeerInfoType.DeviceGuid, guid)
    | Fail PairingError.WrongCode =>
        said t' = said t ++ mine ++ sealed ∧
        ∃ c, b = frame_encode PacketType.PeerInfo c ∧ ∀ info, c ≠ gcm_encrypt (cipher_key (cipher_new key)) (nonce 0) info
    | o => cut_short o
    end.

(** What the answer comes to. *)
Lemma read_answer_spec key block c :
  match read_answer (E := E) (snd (seal block (cipher_new key))) c with
  | Ok guid => ∃ info, c = gcm_encrypt (cipher_key (cipher_new key)) (nonce 0) info ∧
      peer_info_decode info = Ok (PeerInfoType.DeviceGuid, guid)
  | Err PairingError.WrongCode => ∀ info, c ≠ gcm_encrypt (cipher_key (cipher_new key)) (nonce 0) info
  | Err _ => True
  end.
Proof.
  unfold read_answer, open_sealed. cbn [seal snd cipher_key decrypt_counter cipher_new]. destruct (negb _); [done|].
  destruct (gcm_decrypt _ _ _) as [info|] eqn:Hd; cbn [mbind option_bind ok_or result_bind].
  - apply gcm_exact in Hd. destruct (peer_info_decode info) as [[kind guid]|e] eqn:Hi; [|done].
    cbn [map_err mbind result_bind]. case_bool_decide as Hk; [|done]. subst. eauto.
  - intros info ->. by rewrite (proj2 (gcm_exact _ _ _ _) eq_refl) in Hd.
Qed.

(** Cut short once a key was agreed. *)
Lemma conversed_cut a line t t' o theirs key block b n :
  spake2_finish a theirs = Some (Ok key) → peer_info_encode PeerInfoType.RsaPublicKey line = Ok block →
  said t' = said t ++ frame_encode PacketType.Spake2Msg (spake2_message a) ++
    ztake n (frame_encode PacketType.PeerInfo (fst (seal block (cipher_new key)))) →
  arriving t = frame_encode PacketType.Spake2Msg theirs ++ b ++ arriving t' →
  cut_short o → conversed a line t o t'.
Proof.
  intros Hf He Hs Ha Hc. right. exists theirs, key, block. eexists _, b. split_and!; [done..|by eexists|done|].
  by destruct o as [|[]| | |].
Qed.

Lemma sealed_conversed a line t t2 theirs key block :
  said t2 = said t ++ frame_encode PacketType.Spake2Msg (spake2_message a) →
  arriving t = frame_encode PacketType.Spake2Msg theirs ++ arriving t2 →
  spake2_finish a theirs = Some (Ok key) → peer_info_encode PeerInfoType.RsaPublicKey line = Ok block →
  wp (pair_send PacketType.PeerInfo (fst (seal block (cipher_new key))) ≫= λ _,
      answer ← pair_recv PacketType.PeerInfo; lift (read_answer (snd (seal block (cipher_new key))) answer) : pprog bytes)
    (conversed a line t) t2.
Proof.
  intros Hs2 Ha2 Hf He. apply wp_bind. eapply wp_mono; [apply pair_send_spec|]. intros o t3 (Ha3 & [n Hn] & Ho3 & Hc3 & _).
  rewrite Hs2, <- app_assoc in Hn, Ho3. rewrite <- Ha3 in Ha2.
  destruct o as [[]|e| | |]; [|destruct Hc3 as [|Hc3]; try done; by eapply (conversed_cut _ _ _ _ _ _ _ _ [])..].
  specialize (Ho3 eq_refl). apply wp_bind. eapply wp_mono; [apply pair_recv_spec|]. intros o t4 [Hs4 Hr4].
  set (sealed := frame_encode PacketType.PeerInfo (fst (seal block (cipher_new key)))) in *.
  assert (said t4 = said t ++ frame_encode PacketType.Spake2Msg (spake2_message a) ++ ztake (len sealed) sealed) as Hn4
    by (rewrite ztake_all by lia; congruence).
  destruct o as [c|e| | |]; [|destruct Hr4 as [Hc4 [b Hb]]; try done; rewrite Hb in Ha2; by eapply conversed_cut..].
  destruct Hr4 as [_ Ha4]. rewrite Ha4 in Ha2. apply wp_lift. pose proof (read_answer_spec key block c) as Hans.
  rewrite <- Hs4 in Ho3. destruct (read_answer _ c) as [guid|e].
  - right. destruct Hans as (info & -> & Hi). exists theirs, key, block, sealed. eexists. split_and!; eauto.
  - destruct e; try by eapply conversed_cut.
    right. exists theirs, key, block, sealed. eexists. split_and!; eauto.
Qed.

Lemma finish_some a theirs : sp_role a = Role.Alice → is_Some (spake2_finish (P := P) a theirs).
Proof.
  intros Hr. unfold spake2_finish. destruct (decompress theirs); [|done]. rewrite Hr.
  destruct (mask_point_some Role.Bob) as [m ->]. by eexists.
Qed.

Lemma exchange_conversed a line t :
  sp_role a = Role.Alice →
  wp (exchange_keys a line : pprog bytes) (conversed a line t) t.
Proof.
  intros Hrole. unfold exchange_keys. apply wp_bind. eapply wp_mono; [apply pair_send_spec|].
  intros o t1 (Ha1 & Hn1 & Ho1 & Hc1 & _).
  destruct o as [[]|e| | |]; [|destruct Hc1 as [|Hc1]; [done|]; try done; (left; split_and!; [done|done|by exists []])..].
  specialize (Ho1 eq_refl). apply wp_bind. eapply wp_mono; [apply pair_recv_spec|]. intros o t2 [Hs2 Hr2].
  assert (∃ n, said t2 = said t ++ ztake n (frame_encode PacketType.Spake2Msg (spake2_message a))) as Hn2 by (by rewrite Hs2).
  destruct o as [theirs|e| | |]; [|destruct Hr2 as [Hc2 Hb2]; try done; (rewrite Ha1 in Hb2; by left)..].
  destruct Hr2 as [_ Ha2]. rewrite Ha1 in Ha2. rewrite Ho1 in Hs2.
  assert (∃ b, arriving t = b ++ arriving t2) as Hb2 by eauto. destruct (negb _); [by left|].
  destruct (finish_some a theirs Hrole) as [agreed Hf]. rewrite Hf. apply wp_bind, wp_lift.
  destruct agreed as [key|e]; [|by left]. cbn [map_err]. apply wp_bind, wp_lift.
  destruct (peer_info_encode _ line) as [block|e] eqn:He; [|by left]. by eapply sealed_conversed.
Qed.

Lemma new_some role mine theirs password wide :
  ∃ a, spake2_new role mine theirs password wide = Some a ∧ sp_role a = role.
Proof.
  unfold spake2_new. destruct (password_scalar_some (sha512 password)) as (s & -> & _). cbn [mbind option_bind].
  destruct (mask_point_some role) as [m ->]. by eexists.
Qed.

(** C29: however [pair] ends, refused, failed, dropped or done, it does not panic,
    and what it said and heard is the conversation: our message, in the clear;
    and only when the peer's message was heard, and under the key that the code
    and the session give with it, our public key, sealed.  A GUID it returns came
    in a block sealed under that key, and [WrongCode] means that no block was. *)
Theorem pairing_conversation (line code wide : bytes) (t t' : T) o :
  pair line code wide t = (o, t') →
  match ps_start_tls t with
  | (IoErr e, t1) => o = Fail (PairingError.Transport e) ∧ t' = t1
  | (IoDropped, t1) => o = Dropped ∧ t' = t1
  | (IoOk _, t1) =>
      match ps_export EXPORTER_LABEL EXPORTER_LEN t1 with
      | Err e => o = Fail (PairingError.Transport e) ∧ t' = t1
      | Ok exported => ∃ a, spake2_new Role.Alice CLIENT_NAME SERVER_NAME (code ++ exported) wide = Some a ∧
          conversed a line t1 o t'
      end
  end.
Proof.
  unfold pair, mbind, prog_bind, awaiting. destruct (ps_start_tls t) as [[[]|e|] t1]; [|by intros [= <- <-]..].
  destruct (ps_export _ _ t1) as [exported|e]; cbn [map_err lift]; [|by intros [= <- <-]].
  destruct (new_some Role.Alice CLIENT_NAME SERVER_NAME (code ++ exported) wide) as (a & Ha & Hr). rewrite Ha.
  intros Hrun. exists a. split; [done|]. pose proof (exchange_conversed a line t1 Hr) as Hw. unfold wp in Hw.
  by rewrite Hrun in Hw.
Qed.

(** ** A device

    The other side, as a device runs it on the host's message: what it sends, and
    the key it reads in what it is sent. *)
Definition device_says (b : Spake2) (host_message guid : bytes) : option bytes :=
  match spake2_finish b host_message, peer_info_encode PeerInfoType.DeviceGuid guid with
  | Some (Ok key), Ok block =>
      Some (frame_encode PacketType.Spake2Msg (spake2_message b) ++
            frame_encode PacketType.PeerInfo (fst (seal block (cipher_new key))))
  | _, _ => None
  end.

Definition device_accepts (b : Spake2) (host_message sealed : bytes) : option bytes :=
  match spake2_finish b host_message with
  | Some (Ok key) =>
      '(opened, _) ← open_sealed sealed (cipher_new key);
      match peer_info_decode opened with Ok (PeerInfoType.RsaPublicKey, line) => Some line | _ => None end
  | _ => None
  end.

Lemma open_fresh_seal block key c :
  cipher_key c = cipher_key (cipher_new key) → decrypt_counter c = 0 →
  fst <$> open_sealed (fst (seal block (cipher_new key))) c = Some block.
Proof.
  intros Hk Hc. unfold open_sealed. rewrite Hk, Hc. cbn [seal fst encrypt_counter cipher_new].
  by rewrite (proj2 (gcm_exact _ _ _ _) eq_refl).
Qed.

Lemma sealed_payload kind payload block key :
  peer_info_encode kind payload = Ok block →
  payload_ok (fst (seal block (cipher_new key))) ∧ len (fst (seal block (cipher_new key))) = PEER_INFO_SIZE + TAG_LEN.
Proof.
  intros He. cbn [seal fst]. unfold payload_ok. rewrite len_gcm, (peer_info_len _ _ _ He). done.
Qed.

Lemma send_healthy kind payload t :
  healthy t → ∃ t', pair_send kind payload t = (Ret tt, t') ∧ healthy t' ∧ arriving t' = arriving t ∧
    said t' = said t ++ frame_encode kind payload.
Proof.
  intros Hg. pose proof (pair_send_spec kind payload t) as (Ha & _ & Ho & _ & Hh). destruct (Hh Hg) as [E1 Hg'].
  destruct (pair_send kind payload t) as [o t']. cbn [fst snd] in *. subst o. exists t'. auto.
Qed.

(** The exchange of two sides that agreed on a key. *)
Lemma exchange_healthy a line guid theirs key mine block rest t :
  healthy t → len (spake2_message a) = 32 → len theirs = 32 → spake2_finish a theirs = Some (Ok key) →
  peer_info_encode PeerInfoType.RsaPublicKey line = Ok mine →
  peer_info_encode PeerInfoType.DeviceGuid guid = Ok block → peer_info_decode block = Ok (PeerInfoType.DeviceGuid, guid) →
  arriving t = (frame_encode PacketType.Spake2Msg theirs ++
    frame_encode PacketType.PeerInfo (fst (seal block (cipher_new key)))) ++ rest →
  ∃ t', exchange_keys a line t = (Ret guid, t') ∧ healthy t' ∧ arriving t' = rest ∧
    said t' = said t ++ frame_encode PacketType.Spake2Msg (spake2_message a) ++
      frame_encode PacketType.PeerInfo (fst (seal mine (cipher_new key))).
Proof.
  intros Hg Hla Hlt Hf Hm Hb Hd Ha. rewrite <- app_assoc in Ha. unfold exchange_keys.
  destruct (send_healthy PacketType.Spake2Msg (spake2_message a) t Hg) as (t1 & E1 & Hg1 & Ha1 & Hs1).
  rewrite Ha in Ha1. apply (pair_recv_healthy _ _ _ _ Hg1) in Ha1 as (t2 & E2 & Hg2 & Ha2 & Hs2);
    [|unfold payload_ok; rewrite Hlt; done].
  destruct (send_healthy PacketType.PeerInfo (fst (seal mine (cipher_new key))) t2 Hg2) as (t3 & E3 & Hg3 & Ha3 & Hs3).
  destruct (sealed_payload _ _ _ key Hb) as [Hp Hlen].
  rewrite Ha2 in Ha3. apply (pair_recv_healthy _ _ _ _ Hg3 Hp) in Ha3 as (t4 & E4 & Hg4 & Ha4 & Hs4).
  exists t4. split_and!; [|done|done|rewrite Hs4, Hs3, Hs2, Hs1; by rewrite <- app_assoc].
  unfold mbind, prog_bind. rewrite E1, E2, Hlt. cbn [Z.eqb Pos.eqb negb]. rewrite Hf, Hm. cbn [map_err lift].
  cbn [seal fst] in *. rewrite E3, E4. unfold read_answer. rewrite Hlen, Z.eqb_refl. cbn [negb].
  pose proof (open_fresh_seal block key (snd (seal mine (cipher_new key))) eq_refl eq_refl) as Ho. cbn [seal snd fst] in Ho.
  destruct (open_sealed _ _) as [[opened c]|]; [|done]. injection Ho as ->. cbn [ok_or mbind result_bind].
  by rewrite Hd.
Qed.
Lemma message_len role mine theirs password wide a :
  spake2_new role mine theirs password wide = Some a → len (spake2_message a) = 32.
Proof.
  unfold spake2_new. destruct (password_scalar _); [|done]. cbn [mbind option_bind]. destruct (mask_point role); [|done].
  intros [= <-]. apply len_compress.
Qed.

(** C28: over a session that works, a host and a device that were given one code
    pair, whatever the numbers their generators gave: with what the device says
    in answer to the host's message still to arrive, [pair] returns the device's
    GUID, leaves whatever follows unread, and has said what the device opens and
    reads as exactly the host's key. *)
Theorem pairing_completes (line code guid wide wb exported : bytes) (t t1 : T) :
  ps_start_tls t = (IoOk tt, t1) → ps_export EXPORTER_LABEL EXPORTER_LEN t1 = Ok exported → healthy t1 →
  info_ok line → info_ok guid →
  ∃ a b reply,
    spake2_new Role.Alice CLIENT_NAME SERVER_NAME (code ++ exported) wide = Some a ∧
    spake2_new Role.Bob SERVER_NAME CLIENT_NAME (code ++ exported) wb = Some b ∧
    device_says b (spake2_message a) guid = Some reply ∧
    ∀ rest, arriving t1 = reply ++ rest →
      ∃ t' sealed, pair line code wide t = (Ret guid, t') ∧ arriving t' = rest ∧
        said t' = said t1 ++ frame_encode PacketType.Spake2Msg (spake2_message a) ++ frame_encode PacketType.PeerInfo sealed ∧
        device_accepts b (spake2_message a) sealed = Some line.
Proof.
  intros Htls Hexp Hg Hline Hguid.
  destruct (keys_agree CLIENT_NAME SERVER_NAME (code ++ exported) wide wb) as (a & b & key & Ha & Hb & Hfa & Hfb & _).
  destruct (peer_info_reads PeerInfoType.RsaPublicKey line Hline) as (mine & Hm & Hdm).
  destruct (peer_info_reads PeerInfoType.DeviceGuid guid Hguid) as (block & Hbl & Hdb).
  exists a, b. eexists. split_and!; [done|done|unfold device_says; by rewrite Hfb, Hbl|]. intros rest Harr.
  destruct (exchange_healthy a line guid (spake2_message b) key mine block rest t1) as (t' & He & _ & Hr & Hs);
    [done|by eapply message_len..|done|done|done|done|done|].
  exists t'. eexists. split_and!; [|done|exact Hs|].
  - unfold pair, mbind, prog_bind, awaiting. rewrite Htls, Hexp. cbn [map_err lift]. by rewrite Ha.
  - unfold device_accepts. rewrite Hfb.
    pose proof (open_fresh_seal mine key (cipher_new key) eq_refl eq_refl) as Ho.
    destruct (open_sealed _ _) as [[opened c]|]; [|done]. injection Ho as ->. cbn [mbind option_bind]. by rewrite Hdm.
Qed.
End Conversation.

(** ** Witnesses

    A cipher that only checks the key, a session over two lists of bytes, and the
    group of Spake2. *)

#[local] Existing Instances residue_curve residue_laws.

Definition toy_tag (key : bytes) : bytes := resize TAG_LEN key.

Lemma len_toy_tag key : len (toy_tag key) = TAG_LEN.
Proof. unfold toy_tag, resize. rewrite len_app, len_replicate, len_ztake. unfold TAG_LEN. pose proof (len_nonneg key). lia. Qed.

#[local] Instance toy_aead : Aead := {
  hkdf_expand material _ n := resize n material;
  gcm_encrypt key _ m := m ++ toy_tag key;
  gcm_decrypt key _ c :=
    let n := len c - TAG_LEN in
    if bool_decide (0 <= n ∧ zdrop n c = toy_tag key) then Some (ztake n c) else None;
}.

#[local] Instance toy_aead_laws : AeadLaws.
Proof.
  split; cbn.
  - intros key _ m. by rewrite len_app, len_toy_tag.
  - intros key _ c m. case_bool_decide as Hc.
    + destruct Hc as [_ Hc]. pose proof (ztake_zdrop (len c - TAG_LEN) c) as Hcut. rewrite Hc in Hcut.
      split; [by intros [= <-]|]. intros Hm. f_equal. apply (app_inv_tail (toy_tag key)). congruence.
    + split; [done|]. intros ->. destruct Hc. rewrite len_app, len_toy_tag, Z.add_simpl_r.
      split; [apply len_nonneg|by apply zdrop_app_len].
Qed.

Record session : Type := mkSession { to_read : bytes; written : bytes }.

#[local] Instance toy_stream : PairStream session unit := {
  ps_start_tls t := (IoOk tt, t);
  ps_export _ n t := Ok (replicate (Z.to_nat n) x2a);
  ps_write_all b t := (IoOk tt, mkSession (to_read t) (written t ++ b));
  ps_flush t := (IoOk tt, t);
  ps_read_exact n t :=
    if len (to_read t) <? n then (IoErr UnexpectedEof, mkSession [] (written t))
    else (IoOk (ztake n (to_read t)), mkSession (zdrop n (to_read t)) (written t));
}.

#[local] Instance toy_laws : PairLaws session unit.
Proof.
  refine {| arriving := to_read; said := written; healthy _ := True |}; cbn.
  - intros b t r t' [= <- <-]. cbn. split_and!; [done|exists (len b); by rewrite ztake_all by lia|done|done].
  - by intros t r t' [= <- <-].
  - intros n t r t' Hn. destruct (Z.ltb_spec (len (to_read t)) n); intros [= <- <-]; cbn.
    + split_and!; [done|exists (to_read t); by rewrite app_nil_r|done|lia].
    + split_and!; [done|by exists (ztake n (to_read t)); rewrite ztake_zdrop| |by eauto].
      intros b [= <-]. rewrite ztake_zdrop, len_ztake. split; [lia|done].
Defined.

Definition sample_line : bytes := bs "QAAAAJE= user@host".
Definition sample_guid : bytes := bs "adb-1234-abcdef".
Definition sample_password : bytes := bs "592781" ++ replicate 64 x2a.

(** What the device says to the host of the witness. *)
Definition sample_reply : bytes :=
  match spake2_new (P := residue) Role.Alice CLIENT_NAME SERVER_NAME sample_password (replicate 64 x35),
        spake2_new (P := residue) Role.Bob SERVER_NAME CLIENT_NAME sample_password (replicate 64 x07) with
  | Some a, Some b => default [] (device_says (P := residue) b (spake2_message a) sample_guid)
  | _, _ => []
  end.

Lemma sample_ok : info_ok sample_line ∧ info_ok sample_guid.
Proof. split; (split_and!; [by vm_compute|by apply (bool_decide_unpack _)|done]). Qed.

Lemma pairing_completes_witness :
  ∃ t', pair (P := residue) sample_line (bs "592781") (replicate 64 x35) (mkSession sample_reply []) = (Ret sample_guid, t') ∧
    to_read t' = [].
Proof.
  destruct sample_ok as [Hline Hguid].
  destruct (pairing_completes (T := session) (E := unit) (P := residue) sample_line (bs "592781") sample_guid (replicate 64 x35) (replicate 64 x07)
    (replicate 64 x2a) (mkSession sample_reply []) (mkSession sample_reply [])) as (a & b & reply & Ha & Hb & Hr & Hall);
    [done..|].
  destruct (Hall []) as (t' & sealed & Hp & Ht & _); [|by eauto].
  cbn [arriving toy_laws to_read]. unfold sample_reply. unfold sample_password. by rewrite Ha, Hb, Hr, app_nil_r.
Defined.

(** A device that says what no side with a key would. *)
Definition wrong_reply : bytes :=
  frame_encode PacketType.Spake2Msg (le_bytes 32 7) ++ frame_encode PacketType.PeerInfo (replicate 8208 x00).

Lemma pairing_conversation_witness :
  ∃ o t', pair (P := residue) sample_line (bs "000000") (replicate 64 x35) (mkSession wrong_reply []) = (o, t') ∧
    ∃ a, spake2_new (P := residue) Role.Alice CLIENT_NAME SERVER_NAME (bs "000000" ++ replicate 64 x2a) (replicate 64 x35) = Some a ∧
      conversed (P := residue) a sample_line (mkSession wrong_reply []) o t'.
Proof.
  destruct (pair (P := residue) sample_line (bs "000000") (replicate 64 x35) (mkSession wrong_reply [])) as [o t'] eqn:Hp.
  exists o, t'. split; [reflexivity|].
  exact (pairing_conversation (T := session) (E := unit) (P := residue) sample_line (bs "000000") (replicate 64 x35) _ t' o Hp).
Defined.
