(* ===== verification/Tls.v ===== *)
(** * TLS over a transport ([transport/tls/session.rs],
      [transport/tls/maybe_tls.rs], [transport/tls/error.rs])

    The TLS engine is rustls's: an interface with its calls, and laws in terms
    of the plaintext it takes and yields and the records it makes.  What is the
    library's own is how the engine is driven over a transport: a session keeps
    the ciphertext it has read and not fed ([rx]) and the records it has made and
    not sent ([tx]).

    [tls_stream] shows that a session is again a transport: an ordered stream of
    plaintext in both directions, through partial reads, failures and dropped
    calls; the instance [maybe_tls_laws] makes every theorem about a connection
    one about a connection over TLS.  [tls_records_once] is about the socket:
    the records leave it whole, once and in order, whatever calls were dropped.
    [start_tls_contract] is the upgrade: a finished handshake or a transport
    that refuses everything from then on, and no byte in the clear. *)

From S2P Require Import Prelude Errors Protocol Config SendQueue Slot Wire.
From S2P Require Import Handshake.

(** [Plain]: what the engine's reader gave. *)
Inductive Plain : Type := Got (b : bytes) | Eof | Blocked.

(** [read_tls]: how much it took; an error of kind [Other], which is how a full
    buffer is reported; another error. *)
Inductive took (R : Type) : Type := Took (n : Z) | Backlogged | Refused (e : R).
Arguments Took {R} n.
Arguments Backlogged {R}.
Arguments Refused {R} e.

(** rustls's [AlertDescription]: the alerts told apart, and the others. *)
Inductive Alert : Type :=
| BadCertificate | UnsupportedCertificate | CertificateRevoked | CertificateExpired
| CertificateUnknown | UnknownCA | AccessDenied | OtherAlert (code : Z).

(** rustls's [ClientConnection], [C], and [Error], [R]. *)
Class Engine (C R : Type) : Type := {
  (** [ClientConnection::new] on a configuration. *)
  engine_new : result R C;
  is_handshaking : C → bool;
  wants_write : C → bool;
  (** [write_tls] into a sink that takes everything: the bytes, or an error. *)
  write_tls : C → option bytes * C;
  read_tls : bytes → C → took R * C;
  process_new_packets : C → result R unit * C;
  (** [reader().read]: no bytes, or an error other than [WouldBlock], is the
      end. *)
  reader_read : Z → C → Plain * C;
  (** [writer().write]. *)
  writer_write : bytes → C → option Z * C;
  send_close_notify : C → C;
  export_keying : bytes → Z → C → result R bytes;
  (** [Error::General("tls writer closed")]. *)
  writer_closed : R;
  (** The alert of an [AlertReceived]. *)
  alert_received : R → option Alert;
  (** The records [write_tls] has still to hand over. *)
  records : C → nat;
}.

(** What rustls documents.  [plain_in c s] is the plaintext that [c] yields when
    [s] is the ciphertext that follows what it has taken; [plain_out c] the
    plaintext it took and [sealed c] the records it handed over. *)
Class EngineLaws (C R : Type) `{Engine C R} : Type := {
  plain_in : C → bytes → bytes;
  plain_out : C → bytes;
  sealed : C → bytes;
  write_tls_law c o c' : write_tls c = (o, c') →
    (∀ s, plain_in c' s = plain_in c s) ∧ plain_out c' = plain_out c ∧
    is_handshaking c' = is_handshaking c ∧
    match o with
    | Some b => sealed c' = sealed c ++ b ∧ (wants_write c = true → (records c' < records c)%nat)
    | None => sealed c' = sealed c
    end;
  read_tls_law s c r c' : read_tls s c = (r, c') →
    plain_out c' = plain_out c ∧ sealed c' = sealed c ∧
    match r with
    | Took n => 0 <= n <= len s ∧ ∀ rest, plain_in c (ztake n s ++ rest) = plain_in c' rest
    | _ => ∀ rest, plain_in c' rest = plain_in c rest
    end;
  process_law c r c' : process_new_packets c = (r, c') →
    (∀ s, plain_in c' s = plain_in c s) ∧ plain_out c' = plain_out c ∧ sealed c' = sealed c;
  reader_law n c r c' : reader_read n c = (r, c') →
    plain_out c' = plain_out c ∧ sealed c' = sealed c ∧
    match r with
    | Got b => 0 < len b <= n ∧ ∀ s, plain_in c s = b ++ plain_in c' s
    | Eof | Blocked => ∀ s, plain_in c' s = plain_in c s
    end;
  writer_law b c o c' : writer_write b c = (o, c') →
    (∀ s, plain_in c' s = plain_in c s) ∧ sealed c' = sealed c ∧
    match o with
    | Some n => 0 <= n <= len b ∧ plain_out c' = plain_out c ++ ztake n b
    | None => plain_out c' = plain_out c
    end;
  close_law c : (∀ s, plain_in (send_close_notify c) s = plain_in c s) ∧
    plain_out (send_close_notify c) = plain_out c ∧ sealed (send_close_notify c) = sealed c;
}.

(** ** [error.rs] *)

Module TlsError.
Inductive TlsError (E R : Type) : Type :=
| Io (e : E)
| Tls (e : R)
| HandshakeClosed
| WriteZero
| NotAvailable
| Closed.
Arguments Io {E R} e.
Arguments Tls {E R} e.
Arguments HandshakeClosed {E R}.
Arguments WriteZero {E R}.
Arguments NotAvailable {E R}.
Arguments Closed {E R}.
End TlsError.
Abbreviation TlsError := TlsError.TlsError.

(** ** [session.rs] *)

Definition CHUNK : Z := 16 * 1024 + 512.
Definition QUEUE_LIMIT : Z := 64 * 1024.

(** [TlsSession], with [Inbound]'s fields in it. *)
Record TlsSession (T C R : Type) : Type := mkTls {
  s_inner : T;
  s_conn : C;
  s_rx : bytes;
  s_eof : bool;
  s_tx : bytes;
  s_failed : option R;
  s_closed : bool;
}.
Arguments mkTls {T C R}.
Arguments s_inner {T C R}.
Arguments s_conn {T C R}.
Arguments s_rx {T C R}.
Arguments s_eof {T C R}.
Arguments s_tx {T C R}.
Arguments s_failed {T C R}.
Arguments s_closed {T C R}.

Section Engine.
Context {C R : Type} `{Engine C R}.

(** [harvest]: what is appended to the queue. *)
Fixpoint harvest_loop (fuel : nat) (c : C) (out : bytes) : C * bytes :=
  match fuel with
  | O => (c, out)
  | S fuel =>
      if wants_write c then
        match write_tls c with
        | (Some b, c) => harvest_loop fuel c (out ++ b)
        | (None, c) => (c, out)
        end
      else (c, out)
  end.

Definition harvest (c : C) (out : bytes) : C * bytes := harvest_loop (S (records c)) c out.

(** [feed]: [None] is out of fuel. *)
Fixpoint feed_loop (fuel : nat) (start : Z) (c : C) (rx : bytes) : option (result R Z * C * bytes) :=
  match fuel with
  | O => None
  | S fuel =>
      match rx with
      | [] => Some (Ok (start - len rx), c, rx)
      | _ =>
          match read_tls rx c with
          | (Refused e, c) => Some (Err e, c, rx)
          | (Backlogged, c) => Some (Ok (start - len rx), c, rx)
          | (Took n, c) =>
              if n =? 0 then Some (Ok (start - len rx), c, rx)
              else
                let rx := zdrop n rx in
                match process_new_packets c with
                | (Err e, c) => Some (Err e, c, rx)
                | (Ok _, c) => feed_loop fuel start c rx
                end
          end
      end
  end.

Definition feed (c : C) (rx : bytes) : option (result R Z * C * bytes) :=
  feed_loop (S (length rx)) (len rx) c rx.
End Engine.

Section Session.
Context {T E C R : Type} `{Transport T E} `{Engine C R}.

Abbreviation session := (TlsSession T C R).
Abbreviation sprog := (prog session (TlsError E R)).

Definition set_inner (t : T) (s : session) : session :=
  mkTls t (s_conn s) (s_rx s) (s_eof s) (s_tx s) (s_failed s) (s_closed s).
Definition set_conn (c : C) (s : session) : session :=
  mkTls (s_inner s) c (s_rx s) (s_eof s) (s_tx s) (s_failed s) (s_closed s).
Definition set_rx (rx : bytes) (s : session) : session :=
  mkTls (s_inner s) (s_conn s) rx (s_eof s) (s_tx s) (s_failed s) (s_closed s).
Definition set_eof (s : session) : session :=
  mkTls (s_inner s) (s_conn s) (s_rx s) true (s_tx s) (s_failed s) (s_closed s).
Definition set_tx (tx : bytes) (s : session) : session :=
  mkTls (s_inner s) (s_conn s) (s_rx s) (s_eof s) tx (s_failed s) (s_closed s).
Definition set_failed (e : R) (s : session) : session :=
  mkTls (s_inner s) (s_conn s) (s_rx s) (s_eof s) (s_tx s) (Some e) (s_closed s).
Definition set_closed (s : session) : session :=
  mkTls (s_inner s) (s_conn s) (s_rx s) (s_eof s) (s_tx s) (s_failed s) true.

(** [.await] on the transport underneath. *)
Definition on_inner {A} (call : T → io E A * T) : sprog A := λ s,
  match call (s_inner s) with
  | (IoOk a, t) => (Ret a, set_inner t s)
  | (IoErr e, t) => (Fail (TlsError.Io e), set_inner t s)
  | (IoDropped, t) => (Dropped, set_inner t s)
  end.

(** [TlsSession::new], on a transport. *)
Definition session_new (inner : T) : result (TlsError E R) session :=
  c ← map_err TlsError.Tls engine_new;
  Ok (mkTls inner c [] false [] None false).

(** [Inbound::fill], with a read of the transport. *)
Definition fill_with (read : T → io E bytes * T) : sprog unit :=
  b ← on_inner read;
  if bool_decide (b = []) then modify set_eof else modify (λ s, set_rx (s_rx s ++ b) s).

(** [send_queue]: a round, and the loop. *)
Definition send_one : sprog unit :=
  tx ← gets s_tx;
  n ← on_inner (t_write tx);
  if n =? 0 then fail TlsError.WriteZero
  else modify (λ s, set_tx (zdrop n (s_tx s)) s).

Fixpoint send_rounds (fuel : nat) : sprog unit :=
  match fuel with
  | O => out_of_fuel
  | S fuel =>
      tx ← gets s_tx;
      if bool_decide (tx = []) then mret tt else send_one ≫= λ _, send_rounds fuel
  end.

Definition send_queue : sprog unit := λ s, send_rounds (S (length (s_tx s))) s.

Definition flush_tx : sprog unit := send_queue ≫= λ _, on_inner t_flush.

(** [harvest] into the session's queue. *)
Definition harvest_tx : sprog unit := modify (λ s,
  let '(c, tx) := harvest (s_conn s) (s_tx s) in set_tx tx (set_conn c s)).

(** [TlsSession::advance]: an error is recorded. *)
Definition advance : sprog (result R Z) := λ s,
  match feed (s_conn s) (s_rx s) with
  | None => (NoFuel, s)
  | Some (Ok n, c, rx) => (Ret (Ok n), set_rx rx (set_conn c s))
  | Some (Err e, c, rx) => (Ret (Err e), set_failed e (set_rx rx (set_conn c s)))
  end.

(** [TlsSession::failure]: what the flush of the alert comes to is ignored. *)
Definition failure : sprog unit :=
  failed ← gets s_failed;
  match failed with
  | None => mret tt
  | Some e =>
      harvest_tx ≫= λ _,
      _ ← catch flush_tx;
      fail (TlsError.Tls e)
  end.

(** [TlsSession::handshake]; [fuel] bounds its rounds. *)
Fixpoint handshake_rounds (fuel : nat) : sprog unit :=
  match fuel with
  | O => out_of_fuel
  | S fuel =>
      c ← gets s_conn;
      if is_handshaking c then
        harvest_tx ≫= λ _,
        flush_tx ≫= λ _,
        rx ← gets s_rx;
        if negb (bool_decide (rx = [])) then
          fed ← advance;
          match fed with
          | Ok n => if n =? 0 then fail TlsError.HandshakeClosed else handshake_rounds fuel
          | Err _ => failure
          end
        else
          eof ← gets s_eof;
          if (eof : bool) then fail TlsError.HandshakeClosed
          else fill_with (t_read CHUNK) ≫= λ _, handshake_rounds fuel
      else
        harvest_tx ≫= λ _, flush_tx
  end.

(** [shutdown]. *)
Definition session_shutdown : sprog unit :=
  modify set_closed ≫= λ _,
  failure ≫= λ _,
  modify (λ s, set_conn (send_close_notify (s_conn s)) s) ≫= λ _,
  harvest_tx ≫= λ _, flush_tx.

(** [Read::read], for a buffer of [n] bytes; [fill] is the read of the
    transport. *)
Fixpoint read_rounds (fill : sprog unit) (fuel : nat) (n : Z) : sprog bytes :=
  match fuel with
  | O => out_of_fuel
  | S fuel =>
      plain ← state (λ s, let '(p, c) := reader_read n (s_conn s) in (p, set_conn c s));
      match plain with
      | Got b => mret b
      | Eof => mret []
      | Blocked =>
          failed ← gets s_failed;
          match failed with
          | Some e => fail (TlsError.Tls e)
          | None =>
              rx ← gets s_rx;
              if negb (bool_decide (rx = [])) then
                fed ← advance;
                match fed with
                | Ok n' => if n' =? 0 then mret [] else read_rounds fill fuel n
                | Err _ => read_rounds fill fuel n
                end
              else
                eof ← gets s_eof;
                if (eof : bool) then mret []
                else fill ≫= λ _, read_rounds fill fuel n
          end
      end
  end.

Definition session_read (fuel : nat) (n : Z) : sprog bytes :=
  if n <=? 0 then mret [] else read_rounds (fill_with (t_read CHUNK)) fuel n.

(** [Write::write]. *)
Definition session_write (buf : bytes) : sprog Z :=
  match buf with
  | [] => mret 0
  | _ =>
      closed ← gets s_closed;
      if (closed : bool) then fail TlsError.Closed
      else
        failure ≫= λ _,
        tx ← gets s_tx;
        (if QUEUE_LIMIT <=? len tx then send_queue else mret tt) ≫= λ _,
        n ← (λ s, match writer_write buf (s_conn s) with
                  | (Some n, c) => (Ret n, set_conn c s)
                  | (None, c) => (Fail (TlsError.Tls writer_closed), set_conn c s)
                  end);
        harvest_tx ≫= λ _, mret n
  end.

(** [Write::flush]. *)
Definition session_flush : sprog unit :=
  failure ≫= λ _, harvest_tx ≫= λ _, flush_tx.

(** A read that was polled, was waiting on the transport, and is dropped. *)
Definition session_cancel (fuel : nat) (s : session) : session :=
  match read_rounds (λ s, (Dropped, set_inner (t_cancel (s_inner s)) s)) fuel 1 s with
  | (Dropped, s') => s'
  | _ => s
  end.
End Session.

(** ** [maybe_tls.rs] *)

Inductive MaybeTls (T C R : Type) : Type :=
| MPlain (t : T)
| MTls (s : TlsSession T C R)
| MBroken.
Arguments MPlain {T C R} t.
Arguments MTls {T C R} s.
Arguments MBroken {T C R}.

Section MaybeTls.
Context {T E C R : Type} `{Transport T E} `{Engine C R}.
Abbreviation maybe := (MaybeTls T C R).

(** A call of the plain transport, and one of the session.  A session's calls
    neither panic nor run out of fuel. *)
Definition plain_call {A} (call : T → io E A * T) (t : T) : io (TlsError E R) A * maybe :=
  match call t with
  | (IoOk a, t) => (IoOk a, MPlain t)
  | (IoErr e, t) => (IoErr (TlsError.Io e), MPlain t)
  | (IoDropped, t) => (IoDropped, MPlain t)
  end.

Definition session_call {A} (call : prog (TlsSession T C R) (TlsError E R) A) (s : TlsSession T C R) :
    io (TlsError E R) A * maybe :=
  match call s with
  | (Ret a, s) => (IoOk a, MTls s)
  | (Fail e, s) => (IoErr e, MTls s)
  | (_, s) => (IoDropped, MTls s)
  end.

Definition maybe_read (fuel : TlsSession T C R → nat) (n : Z) (m : maybe) : io (TlsError E R) bytes * maybe :=
  match m with
  | MPlain t => plain_call (t_read n) t
  | MTls s => session_call (session_read (fuel s) n) s
  | MBroken => (IoErr TlsError.NotAvailable, MBroken)
  end.

Definition maybe_write (buf : bytes) (m : maybe) : io (TlsError E R) Z * maybe :=
  match m with
  | MPlain t => plain_call (t_write buf) t
  | MTls s => session_call (session_write buf) s
  | MBroken => (IoErr TlsError.NotAvailable, MBroken)
  end.

Definition maybe_flush (m : maybe) : io (TlsError E R) unit * maybe :=
  match m with
  | MPlain t => plain_call t_flush t
  | MTls s => session_call session_flush s
  | MBroken => (IoErr TlsError.NotAvailable, MBroken)
  end.

Definition maybe_cancel (fuel : TlsSession T C R → nat) (m : maybe) : maybe :=
  match m with
  | MPlain t => MPlain (t_cancel t)
  | MTls s => MTls (session_cancel (fuel s) s)
  | MBroken => MBroken
  end.

Definition is_tls (m : maybe) : bool := match m with MTls _ => true | _ => false end.
Definition is_plain (m : maybe) : bool := match m with MPlain _ => true | _ => false end.

Definition maybe_export (label : bytes) (n : Z) (m : maybe) : result (TlsError E R) bytes :=
  match m with
  | MTls s => map_err TlsError.Tls (export_keying label n (s_conn s))
  | _ => Err TlsError.NotAvailable
  end.

Definition maybe_shutdown (m : maybe) : io (TlsError E R) unit * maybe :=
  match m with
  | MTls s => session_call session_shutdown s
  | m => (IoOk tt, m)
  end.

(** [StartTls::start_tls]: the state is broken until the handshake is over. *)
Definition maybe_start_tls (fuel : TlsSession T C R → nat) (m : maybe) : io (TlsError E R) unit * maybe :=
  match m with
  | MPlain inner =>
      match session_new inner with
      | Err e => (IoErr e, MBroken)
      | Ok s =>
          match handshake_rounds (fuel s) s with
          | (Ret _, s) => (IoOk tt, MTls s)
          | (Fail e, _) => (IoErr e, MBroken)
          | (_, _) => (IoDropped, MBroken)
          end
      end
  | m => (IoErr TlsError.NotAvailable, m)
  end.

(** [TlsError::kind] and [TlsError::is_key_rejected]. *)
Definition tls_kind (e : TlsError E R) : option GoneKind :=
  match e with
  | TlsError.Io e => t_kind e
  | TlsError.Tls _ => Some ConnectionAborted
  | TlsError.Closed => Some BrokenPipe
  | TlsError.HandshakeClosed | TlsError.WriteZero | TlsError.NotAvailable => None
  end.

Definition alert_means_rejection (alert : Alert) : bool :=
  match alert with
  | BadCertificate | UnsupportedCertificate | CertificateRevoked | CertificateExpired
  | CertificateUnknown | UnknownCA | AccessDenied => true
  | OtherAlert _ => false
  end.

Definition tls_key_rejected (e : TlsError E R) : bool :=
  match e with
  | TlsError.Tls e => match alert_received e with Some a => alert_means_rejection a | None => false end
  | _ => false
  end.
End MaybeTls.

(** ** The engine, driven *)

Section EngineLaws.
Context {C R : Type} `{EngineLaws C R}.

Lemma harvest_loop_spec fuel c out c' out' :
  harvest_loop fuel c out = (c', out') →
  (∀ s, plain_in c' s = plain_in c s) ∧ plain_out c' = plain_out c ∧ is_handshaking c' = is_handshaking c ∧
  (∃ b, out' = out ++ b ∧ sealed c' = sealed c ++ b) ∧
  ((records c < fuel)%nat → wants_write c' = false ∨ ∃ c0, write_tls c0 = (None, c')).
Proof.
  revert c out. induction fuel as [|fuel IH]; intros c out; cbn [harvest_loop].
  { intros [= <- <-]. split_and!; [done..| |lia]. exists []. by rewrite !app_nil_r. }
  destruct (wants_write c) eqn:Hw.
  2: { intros [= <- <-]. split_and!; [done..| |by left]. exists []. by rewrite !app_nil_r. }
  destruct (write_tls c) as [[b|] c1] eqn:E1; apply write_tls_law in E1 as HL; destruct HL as (Hin & Hout & Hh & Hs).
  - intros Hr. apply IH in Hr as (Hin2 & Hout2 & Hh2 & (b2 & -> & Hs2) & Hdone). destruct Hs as [Hs Hrec].
    split_and!; [intros s; by rewrite Hin2|congruence|congruence| |intros; apply Hdone; specialize (Hrec Hw); lia].
    exists (b ++ b2). by rewrite Hs2, Hs, !app_assoc.
  - intros [= <- <-]. split_and!; [done..| |by right; eexists]. exists []. by rewrite !app_nil_r.
Qed.

Lemma feed_loop_spec fuel start c rx :
  (length rx < fuel)%nat →
  ∃ r c' rx' taken, feed_loop fuel start c rx = Some (r, c', rx') ∧ rx = taken ++ rx' ∧
    (∀ rest, plain_in c (taken ++ rest) = plain_in c' rest) ∧ plain_out c' = plain_out c ∧ sealed c' = sealed c ∧
    match r with Ok n => n = start - len rx + len taken | Err _ => True end.
Proof.
  revert c rx. induction fuel as [|fuel IH]; intros c rx Hf; [lia|]. cbn [feed_loop].
  destruct rx as [|x rx0]; [eexists _, _, _, []; split_and!; try done; rewrite !len_nil; lia|].
  set (rx := x :: rx0) in *. destruct (read_tls rx c) as [r c1] eqn:E1.
  apply read_tls_law in E1 as (Hout & Hs & Hr).
  destruct r as [n| |e]; [|eexists _, _, _, []; split_and!; try done; intros; rewrite ?len_nil; try lia; by rewrite Hr..].
  destruct Hr as [Hn Hin]. destruct (Z.eqb_spec n 0) as [->|Hn0].
  { eexists _, _, _, []. split_and!; try done. rewrite len_nil. lia. }
  destruct (process_new_packets c1) as [r c2] eqn:E2. apply process_law in E2 as (Hin2 & Hout2 & Hs2).
  assert (∀ rest, plain_in c (ztake n rx ++ rest) = plain_in c2 rest) as Hstep by (intros; by rewrite Hin, Hin2).
  destruct r as [[]|e].
  - destruct (IH c2 (zdrop n rx)) as (r & c3 & rx3 & taken & E3 & Hrx & Hin3 & Hout3 & Hs3 & Hr).
    { rewrite zdrop_drop, length_drop. unfold rx in *. simpl in *. lia. }
    exists r, c3, rx3, (ztake n rx ++ taken). split_and!; try congruence.
    + by rewrite <- app_assoc, <- Hrx, ztake_zdrop.
    + intros rest. by rewrite <- app_assoc, Hstep.
    + destruct r; [|done]. rewrite Hr, len_app, len_zdrop, len_ztake. lia.
  - exists (Err e), c2, (zdrop n rx), (ztake n rx). split_and!; [done|by rewrite ztake_zdrop|done|congruence|congruence|done].
Qed.
End EngineLaws.

(** ** Calls that do not read *)

Section SessionLaws.
Context {T E C R : Type} `{TransportLaws T E} `{EngineLaws C R}.
Abbreviation session := (TlsSession T C R).
Abbreviation sprog := (prog session (TlsError E R)).
Implicit Types s : session.

(** Relations along which what sends steps, and the parts of every call. *)
Class SendRel (Rel : session → session → Prop) : Prop := {
  tr_pre :: PreOrder Rel;
  tr_send : steps Rel send_one;
  tr_flush : steps Rel (on_inner t_flush);
  tr_harvest : steps (E := TlsError E R) Rel harvest_tx;
}.

Class TlsRel (Rel : session → session → Prop) : Prop := {
  tr_sends :: SendRel Rel;
  tr_advance : steps (E := TlsError E R) Rel advance;
  tr_closed s : Rel s (set_closed s);
  tr_notify s : Rel s (set_conn (send_close_notify (s_conn s)) s);
}.

Section Rel.
Context (Rel : session → session → Prop) `{!SendRel Rel}.

#[local] Hint Resolve tr_send tr_flush tr_harvest : steps.

Lemma steps_send_rounds fuel : steps Rel (send_rounds fuel).
Proof.
  induction fuel as [|fuel IH]; cbn [send_rounds]; [by steps_auto|]. sbind; [by steps_auto|]. intros tx.
  case_bool_decide; steps_auto.
Qed.

Lemma steps_send_queue : steps Rel send_queue.
Proof. intros s. apply steps_send_rounds. Qed.

#[local] Hint Resolve steps_send_queue : steps.

Lemma steps_flush_tx : steps Rel flush_tx.
Proof. unfold flush_tx. steps_auto. Qed.

#[local] Hint Resolve steps_flush_tx : steps.

Lemma steps_failure : steps Rel failure.
Proof.
  unfold failure. sbind; [by steps_auto|]. intros [e|]; [|by steps_auto]. sbind; [apply tr_harvest|]. intros _.
  sbind; [apply steps_catch, steps_flush_tx|]. steps_auto.
Qed.

#[local] Hint Resolve steps_failure : steps.

Lemma steps_session_flush : steps Rel session_flush.
Proof. unfold session_flush. steps_auto. Qed.

Lemma steps_session_shutdown `{!TlsRel Rel} : steps Rel session_shutdown.
Proof.
  unfold session_shutdown. sbind; [apply steps_modify, tr_closed|]. intros _. sbind; [by steps_auto|]. intros _.
  sbind; [apply steps_modify, tr_notify|]. intros _. steps_auto.
Qed.
End Rel.

(** ** Calls end *)

Definition settles {A} (m : sprog A) : Prop := ∀ s, fst (m s) ≠ NoFuel ∧ fst (m s) ≠ Panicked.

Lemma settles_bind {A B} (m : sprog A) (k : A → sprog B) : settles m → (∀ a, settles (k a)) → settles (m ≫= k).
Proof.
  intros Hm Hk s. specialize (Hm s). unfold mbind, prog_bind. destruct (m s) as [[a| | | |] s1]; [apply Hk|naive_solver..].
Qed.

Lemma settles_on_inner {A} (call : T → io E A * T) : settles (on_inner call).
Proof. intros s. unfold on_inner. by destruct (call _) as [[] ?]. Qed.

Lemma settles_catch {A} (m : sprog A) : settles m → settles (catch m).
Proof. intros Hm s. specialize (Hm s). unfold catch. destruct (m s) as [[] ?]; naive_solver. Qed.

Lemma settles_gets {A} (f : session → A) : settles (gets f).
Proof. done. Qed.

Lemma settles_modify (f : session → session) : settles (modify f).
Proof. done. Qed.

Lemma settles_advance : settles advance.
Proof.
  intros s. unfold advance, feed.
  destruct (feed_loop_spec (S (length (s_rx s))) (len (s_rx s)) (s_conn s) (s_rx s)) as (r & c & rx & tk & -> & _); [lia|].
  by destruct r.
Qed.

Lemma send_rounds_settles fuel s :
  (length (s_tx s) < fuel)%nat → fst (send_rounds fuel s) ≠ NoFuel ∧ fst (send_rounds fuel s) ≠ Panicked.
Proof.
  revert s. induction fuel as [|fuel IH]; intros s Hf; [lia|]. cbn [send_rounds]. unfold mbind, prog_bind. cbn [gets].
  case_bool_decide as Htx; [done|]. unfold send_one, mbind, prog_bind, on_inner. cbn [gets].
  destruct (t_write (s_tx s) (s_inner s)) as [[n|e|] t] eqn:Hw; [|done..].
  destruct (Z.eqb_spec n 0); [done|]. cbn [modify]. apply IH. cbn [set_tx set_inner s_tx].
  apply t_write_ok in Hw as [Hn _]. rewrite zdrop_drop, length_drop. destruct (s_tx s); [done|]. simpl in *. lia.
Qed.

Lemma settles_send_queue : settles send_queue.
Proof. intros s. apply send_rounds_settles. lia. Qed.

Lemma settles_flush_tx : settles flush_tx.
Proof. apply settles_bind; [apply settles_send_queue|]. intros _. apply settles_on_inner. Qed.

Lemma settles_failure : settles failure.
Proof.
  apply settles_bind; [done|]. intros [e|]; [|done]. apply settles_bind; [done|]. intros _.
  apply settles_bind; [apply settles_catch, settles_flush_tx|]. done.
Qed.

Lemma settles_session_flush : settles session_flush.
Proof.
  apply settles_bind; [apply settles_failure|]. intros _. apply settles_bind; [done|]. intros _. apply settles_flush_tx.
Qed.

Lemma settles_session_shutdown : settles session_shutdown.
Proof.
  apply settles_bind; [done|]. intros _. apply settles_bind; [apply settles_failure|]. intros _.
  apply settles_bind; [done|]. intros _. apply settles_bind; [done|]. intros _. apply settles_flush_tx.
Qed.

Lemma settles_session_write buf : settles (session_write buf).
Proof.
  unfold session_write. destruct buf as [|b buf]; [done|]. apply settles_bind; [done|]. intros [|]; [done|].
  apply settles_bind; [apply settles_failure|]. intros _. apply settles_bind; [done|]. intros tx.
  apply settles_bind; [destruct (_ <=? _); [apply settles_send_queue|done]|]. intros _.
  apply settles_bind; [|intros n; by apply settles_bind]. intros s. by destruct (writer_write _ _) as [[] ?].
Qed.

(** ** Plaintext *)

Definition plain_arriving s : bytes := plain_in (s_conn s) (s_rx s ++ incoming (s_inner s)).
Definition plain_said s : bytes := plain_out (s_conn s).

(** What passes neither takes nor gives plaintext. *)
Definition quiet s s' : Prop := plain_arriving s' = plain_arriving s ∧ plain_said s' = plain_said s.

Lemma steps_harvest_tx_of (Rel : session → session → Prop) :
  (∀ s c b, (∀ x, plain_in c x = plain_in (s_conn s) x) → plain_out c = plain_out (s_conn s) →
    is_handshaking c = is_handshaking (s_conn s) → sealed c = sealed (s_conn s) ++ b → Rel s (set_tx (s_tx s ++ b) (set_conn c s))) →
  steps (E := TlsError E R) Rel harvest_tx.
Proof.
  intros Hr s. unfold harvest_tx, modify. cbn [snd]. destruct (harvest (s_conn s) (s_tx s)) as [c tx] eqn:Hv.
  apply harvest_loop_spec in Hv as (Hin & Hout & Hh & (b & -> & Hs) & _). by apply Hr.
Qed.

Lemma steps_advance_of (Rel : session → session → Prop) :
  (∀ s c taken rx, s_rx s = taken ++ rx → (∀ x, plain_in (s_conn s) (taken ++ x) = plain_in c x) →
    plain_out c = plain_out (s_conn s) → sealed c = sealed (s_conn s) →
    Rel s (set_rx rx (set_conn c s)) ∧ ∀ e, Rel s (set_failed e (set_rx rx (set_conn c s)))) →
  steps (E := TlsError E R) Rel advance.
Proof.
  intros Hr s. unfold advance, feed.
  destruct (feed_loop_spec (S (length (s_rx s))) (len (s_rx s)) (s_conn s) (s_rx s))
    as (r & c & rx & taken & -> & Hrx & Hin & Hout & Hs & _); [lia|].
  destruct (Hr s c taken rx Hrx Hin Hout Hs) as [H1' H2']. destruct r; [exact H1'|apply H2'].
Qed.

#[export] Instance quiet_rel : TlsRel quiet.
Proof.
  split; [split|..].
  - split; [done|]. intros s1 s2 s3 [A1 B1] [A2 B2]. split; congruence.
  - intros s. unfold send_one, mbind, prog_bind, on_inner. cbn [gets].
    destruct (t_write (s_tx s) (s_inner s)) as [r t] eqn:Hw.
    assert (incoming t = incoming (s_inner s)) as Ht.
    { destruct r as [n|e|]; [by apply t_write_ok in Hw as (_ & _ & ?)|apply t_write_other in Hw as [? _]; done..]. }
    destruct r as [n|e|]; [destruct (n =? 0)|..]; split; try done; unfold plain_arriving; cbn; by rewrite Ht.
  - intros s. unfold on_inner. destruct (t_flush (s_inner s)) as [r t] eqn:Hf. apply t_flush_any in Hf as [Hi _].
    destruct r; (split; [unfold plain_arriving; cbn; by rewrite Hi|done]).
  - apply steps_harvest_tx_of. intros s c b Hin Hout _ _. split; [apply Hin|exact Hout].
  - apply steps_advance_of. intros s c taken rx Hrx Hin Hout _.
    split; [|intros e]; (split; [|exact Hout]); unfold plain_arriving; cbn; by rewrite Hrx, <- app_assoc, Hin.
  - done.
  - intros s. destruct (close_law (s_conn s)) as (Hin & Hout & _). split; [apply Hin|exact Hout].
Qed.

(** ** Reads *)

(** The rounds a read has before it: bytes to arrive are read and then fed. *)
Definition due s : nat :=
  2 * length (incoming (s_inner s)) + length (s_rx s) + (if s_eof s then 0 else 1) +
  (match s_failed s with Some _ => 0 | None => 1 end).

(** How a step of a read ends: it passes nothing, unless a dropped read of a
    transport whose reads cannot be dropped lost something. *)
Definition passes {A} (P : session → Prop) s (o : outcome (TlsError E R) A) s' : Prop :=
  plain_said s' = plain_said s ∧
  match o with
  | Ret _ => plain_arriving s' = plain_arriving s ∧ P s'
  | Fail _ => plain_arriving s' = plain_arriving s
  | Dropped => read_cancel_safe = true → plain_arriving s' = plain_arriving s
  | Panicked | NoFuel => False
  end.

(** How a read ends. *)
Definition read_gives (n : Z) s (o : outcome (TlsError E R) bytes) s' : Prop :=
  plain_said s' = plain_said s ∧
  match o with
  | Ret b => len b <= n ∧ plain_arriving s = b ++ plain_arriving s'
  | Fail _ => plain_arriving s' = plain_arriving s
  | Dropped => read_cancel_safe = true → plain_arriving s' = plain_arriving s
  | Panicked | NoFuel => False
  end.

Lemma fill_passes s :
  s_eof s = false → wp (fill_with (t_read CHUNK)) (passes (λ s', (due s' < due s)%nat) s) s.
Proof.
  intros He. unfold fill_with. apply wp_bind. unfold wp at 1, on_inner.
  destruct (t_read CHUNK (s_inner s)) as [[b|e|] t] eqn:Hr; cbn [fst snd].
  - apply t_read_ok in Hr as (_ & Hin & _). case_bool_decide as Hb; apply wp_modify; (split; [done|]);
      unfold plain_arriving, due; cbn [set_eof set_rx set_inner s_inner s_rx s_conn s_eof s_failed]; rewrite He, Hin.
    + subst b. cbn. split; [done|lia].
    + rewrite !length_app. split; [by rewrite <- app_assoc|]. destruct b; [done|]. cbn. lia.
  - apply t_read_err in Hr as [Hin _]. split; [done|]. unfold plain_arriving. cbn. by rewrite Hin.
  - apply t_read_dropped in Hr as [Hin _]. split; [done|]. intros Hs. unfold plain_arriving. cbn. by rewrite Hin.
Qed.

Lemma session_advance_spec s :
  s_failed s = None →
  ∃ r s', advance (E := E) s = (Ret r, s') ∧ quiet s s' ∧
    match r with
    | Ok n => s_failed s' = None ∧ (n ≠ 0 → (due s' < due s)%nat)
    | Err e => s_failed s' = Some e ∧ (due s' < due s)%nat
    end.
Proof.
  intros Hf. pose proof (tr_advance (Rel := quiet) s) as Hq. unfold advance, feed in *.
  destruct (feed_loop_spec (S (length (s_rx s))) (len (s_rx s)) (s_conn s) (s_rx s))
    as (r & c & rx & taken & E1 & Hrx & _ & _ & _ & Hr); [lia|]. rewrite E1 in *.
  destruct r as [n|e]; cbn [snd] in Hq; eexists _, _; (split; [reflexivity|]); (split; [done|]); unfold due; cbn;
    rewrite Hf, Hrx, length_app; (split; [done|]); [|lia].
  assert (n = len taken) as -> by lia. pose proof (len_nonneg taken). unfold len in *. lia.
Qed.

Lemma read_rounds_spec (fill : sprog unit) fuel n s :
  (∀ s, s_eof s = false → wp fill (passes (λ s', (due s' < due s)%nat) s) s) →
  0 < n → (due s < fuel)%nat → wp (read_rounds fill fuel n) (read_gives n s) s.
Proof.
  intros Hfill Hn. revert s. induction fuel as [|fuel IH]; intros s Hf; [lia|]. cbn [read_rounds].
  apply wp_bind, wp_state. destruct (reader_read n (s_conn s)) as [p c] eqn:Hp. cbn [fst snd].
  apply reader_law in Hp as (Hout & _ & Hin).
  destruct p as [b| |]; [destruct Hin as [Hl Hin]; split; [done|]; split; [lia|apply Hin]| |];
    [split; [done|]; split; [rewrite len_nil; lia|symmetry; apply Hin]|].
  set (s1 := set_conn c s). assert (quiet s s1) as [Qa Qs] by (split; [apply Hin|done]).
  assert (∀ o s', read_gives n s1 o s' → read_gives n s o s') as Hq
    by (intros o s'; unfold read_gives; by rewrite Qa, Qs).
  assert (due s1 = due s) as Hd1 by done.
  assert (∀ s2, quiet s1 s2 → (due s2 < due s1)%nat → wp (read_rounds fill fuel n) (read_gives n s) s2) as Hrec.
  { intros s2 [Qa2 Qs2] Hd2. eapply wp_mono; [apply IH; lia|]. intros o s'. unfold read_gives. by rewrite Qa2, Qs2, Qa, Qs. }
  apply wp_bind, wp_gets. destruct (s_failed s1) as [e|] eqn:Hfl; [apply Hq; by split|].
  apply wp_bind, wp_gets. case_bool_decide as Hrx; cbn [negb].
  - apply wp_bind, wp_gets. destruct (s_eof s1) eqn:He; [apply Hq; split; [done|]; split; [rewrite len_nil; lia|done]|].
    apply wp_bind. eapply wp_mono; [by apply Hfill|]. intros o s2 [Hs2 Ho].
    destruct o; try done; [by apply Hrec; [split|]; destruct Ho|apply Hq; by split..].
  - destruct (session_advance_spec s1 Hfl) as (r & s2 & Ha & Hq2 & Hr). apply wp_bind. eapply wp_eq; [exact Ha|].
    destruct r as [k|e]; destruct Hr as [_ Hr]; [|by apply Hrec].
    destruct (Z.eqb_spec k 0); [|by apply Hrec; auto]. apply Hq. destruct Hq2 as [Qa2 Qs2].
    split; [done|]. split; [rewrite len_nil; lia|done].
Qed.

Lemma session_read_spec fuel n s :
  (due s < fuel)%nat → wp (session_read fuel n) (read_gives (Z.max 0 n) s) s.
Proof.
  intros Hf. unfold session_read. destruct (Z.leb_spec n 0); [split; [done|]; split; [rewrite len_nil; lia|done]|].
  rewrite Z.max_r by lia. apply read_rounds_spec; [apply fill_passes|done|done].
Qed.

Lemma session_cancel_spec fuel s :
  (due s < fuel)%nat →
  plain_said (session_cancel fuel s) = plain_said s ∧
  (read_cancel_safe = true → plain_arriving (session_cancel fuel s) = plain_arriving s).
Proof.
  intros Hf. unfold session_cancel.
  pose proof (read_rounds_spec (λ s, (Dropped, set_inner (t_cancel (s_inner s)) s)) fuel 1 s) as Hr.
  unfold wp in Hr. destruct (read_rounds _ fuel 1 s) as [[] s']; try done. cbn in Hr. apply Hr; [|done|done].
  intros s1 _. destruct (t_cancel_any (s_inner s1)) as [Hc _]. split; [done|]. intros Hs.
  unfold plain_arriving. cbn. by rewrite Hc.
Qed.

(** How a write ends: it took what it says, and nothing otherwise. *)
Definition write_takes (buf : bytes) s (o : outcome (TlsError E R) Z) s' : Prop :=
  plain_arriving s' = plain_arriving s ∧
  match o with
  | Ret n => 0 <= n <= len buf ∧ plain_said s' = plain_said s ++ ztake n buf
  | Fail _ | Dropped => plain_said s' = plain_said s
  | Panicked | NoFuel => False
  end.

(** A step of a write that passes nothing. *)
Lemma wp_quiet {A B} (m : sprog A) (k : A → sprog B) (Q : outcome _ B → session → Prop) s :
  steps quiet m → settles m →
  (∀ a s', quiet s s' → wp (k a) Q s') →
  (∀ s', quiet s s' → Q Dropped s' ∧ ∀ e, Q (Fail e) s') →
  wp (m ≫= k) Q s.
Proof.
  intros Hm Hn Hk Hq. apply wp_bind. specialize (Hm s). specialize (Hn s). unfold wp.
  destruct (m s) as [[] s1]; cbn [fst snd] in *; [by apply Hk|by apply Hq|by apply Hq|by destruct Hn..].
Qed.

Lemma session_write_spec buf s : wp (session_write buf) (write_takes buf s) s.
Proof.
  unfold session_write. destruct buf as [|b0 buf0]; [split; [done|]; split; [done|by rewrite app_nil_r]|].
  set (buf := b0 :: buf0). apply wp_bind, wp_gets. destruct (s_closed s); [by split|].
  assert (∀ s', quiet s s' → write_takes buf s Dropped s' ∧ ∀ e, write_takes buf s (Fail e) s') as Hq
    by (by intros s' []; split; [|intros e]; split).
  apply wp_quiet; [apply (steps_failure quiet)|apply settles_failure| |done]. intros _ s1 Hq1. apply wp_bind, wp_gets.
  apply wp_quiet; [destruct (_ <=? _); [apply (steps_send_queue quiet)|by apply steps_ret; typeclasses eauto]
                  |destruct (_ <=? _); [apply settles_send_queue|done]| |intros s2 Hq2; apply Hq; by etrans].
  intros _ s2 Hq2. assert (quiet s s2) as [Qa Qs] by (by etrans). apply wp_bind. unfold wp at 1.
  destruct (writer_write buf (s_conn s2)) as [[n|] c] eqn:Hw; apply writer_law in Hw as (Hin & _ & Ho); cbn [fst snd].
  - destruct Ho as [Hn Hout]. pose proof (tr_harvest (Rel := quiet) (set_conn c s2)) as [Qa3 Qs3].
    apply wp_bind, wp_modify, wp_ret. split; [|split; [done|]].
    + etrans; [exact Qa3|]. rewrite <- Qa. apply Hin.
    + etrans; [exact Qs3|]. rewrite <- Qs. exact Hout.
  - apply Hq. split; [rewrite <- Qa; apply Hin|rewrite <- Qs; exact Ho].
Qed.

(** ** Records *)

(** What the engine handed over meanwhile has left or is queued, behind what was
    queued before. *)
Definition ledger s s' : Prop :=
  ∃ made, outgoing (s_inner s') ++ s_tx s' = outgoing (s_inner s) ++ s_tx s ++ made ∧
    sealed (s_conn s') = sealed (s_conn s) ++ made.

(** A write of the transport that does not return has sent nothing. *)
Definition write_clean : Prop :=
  ∀ b t r t', t_write b t = (r, t') → (∀ n, r ≠ IoOk n) → outgoing t' = outgoing t.

Lemma ledger_same s s' :
  outgoing (s_inner s') = outgoing (s_inner s) → s_tx s' = s_tx s → sealed (s_conn s') = sealed (s_conn s) → ledger s s'.
Proof. intros E1 E2 E3. exists []. by rewrite E1, E2, E3, !app_nil_r. Qed.

Lemma ledger_rel : write_clean → TlsRel ledger.
Proof.
  intros Hclean. split; [split|..].
  - split; [intros s; by apply ledger_same|]. intros s1 s2 s3 (m1 & A1 & B1) (m2 & A2 & B2).
    exists (m1 ++ m2). rewrite B2, B1, A2, !app_assoc, A1. by rewrite !app_assoc.
  - intros s. unfold send_one, mbind, prog_bind, on_inner. cbn [gets].
    destruct (t_write (s_tx s) (s_inner s)) as [r t] eqn:Hw. destruct r as [n|e|].
    2,3: apply ledger_same; try done; by eapply Hclean; [exact Hw|].
    apply t_write_ok in Hw as (Hn & Ho & _). destruct (Z.eqb_spec n 0) as [->|].
    + apply ledger_same; try done. cbn. by rewrite Ho, ztake_nonpos, app_nil_r.
    + exists []. cbn. by rewrite Ho, <- app_assoc, ztake_zdrop, !app_nil_r.
  - intros s. unfold on_inner. destruct (t_flush (s_inner s)) as [r t] eqn:Hf. apply t_flush_any in Hf as [_ Ho].
    by destruct r; apply ledger_same.
  - apply steps_harvest_tx_of. intros s c b _ _ _ Hs. exists b. cbn. by rewrite Hs.
  - apply steps_advance_of. intros s c taken rx _ _ _ Hs. split; [|intros e]; by apply ledger_same.
  - intros s. by apply ledger_same.
  - intros s. destruct (close_law (s_conn s)) as (_ & _ & Hs). by apply ledger_same.
Qed.

Section Records.
Context (Hclean : write_clean).
#[local] Instance ledger_tls : TlsRel ledger := ledger_rel Hclean.

Lemma steps_fill : steps ledger (fill_with (t_read CHUNK)).
Proof.
  sbind; [|intros b; case_bool_decide; apply steps_modify; intros s; by apply ledger_same].
  intros s. unfold on_inner. destruct (t_read CHUNK (s_inner s)) as [[b|e|] t] eqn:Hr; apply ledger_same; try done.
  - by apply t_read_ok in Hr as (_ & _ & ?).
  - by apply t_read_err in Hr as [_ ?].
  - by apply t_read_dropped in Hr as [_ ?].
Qed.

Lemma steps_reader n : steps (E := TlsError E R) ledger
  (state (λ s, let '(p, c) := reader_read n (s_conn s) in (p, set_conn c s))).
Proof.
  apply steps_state. intros s. destruct (reader_read n (s_conn s)) as [p c] eqn:Hp.
  apply reader_law in Hp as (_ & Hs & _). by apply ledger_same.
Qed.

Lemma steps_read_rounds fuel n : steps ledger (read_rounds (fill_with (t_read CHUNK)) fuel n).
Proof.
  induction fuel as [|fuel IH]; cbn [read_rounds]; [by steps_auto|]. sbind; [apply steps_reader|].
  intros [b| |]; [by steps_auto..|]. sbind; [by steps_auto|]. intros [e|]; [by steps_auto|].
  sbind; [by steps_auto|]. intros rx. case_bool_decide; cbn [negb].
  - sbind; [by steps_auto|]. intros [|]; [by steps_auto|]. sbind; [apply steps_fill|]. intros _. apply IH.
  - sbind; [apply tr_advance|]. intros [k|e]; [|apply IH]. destruct (k =? 0); [by steps_auto|apply IH].
Qed.

Lemma steps_session_read fuel n : steps ledger (session_read fuel n).
Proof. unfold session_read. destruct (n <=? 0); [by steps_auto|apply steps_read_rounds]. Qed.

Lemma steps_session_write buf : steps ledger (session_write buf).
Proof.
  unfold session_write. destruct buf as [|b buf]; [by steps_auto|]. sbind; [by steps_auto|]. intros [|]; [by steps_auto|].
  sbind; [apply (steps_failure ledger)|]. intros _. sbind; [by steps_auto|]. intros tx.
  sbind; [destruct (_ <=? _); [apply (steps_send_queue ledger)|by steps_auto]|]. intros _.
  sbind; [|intros n; sbind; [apply tr_harvest|by steps_auto]]. intros s.
  destruct (writer_write (b :: buf) (s_conn s)) as [[n|] c] eqn:Hw; apply writer_law in Hw as (_ & Hs & _); by apply ledger_same.
Qed.

Lemma steps_handshake fuel : steps ledger (handshake_rounds fuel).
Proof.
  induction fuel as [|fuel IH]; cbn [handshake_rounds]; [by steps_auto|]. sbind; [by steps_auto|]. intros c.
  destruct (is_handshaking c); [|sbind; [apply tr_harvest|intros _; apply (steps_flush_tx ledger)]].
  sbind; [apply tr_harvest|]. intros _. sbind; [apply (steps_flush_tx ledger)|]. intros _. sbind; [by steps_auto|]. intros rx.
  case_bool_decide; cbn [negb].
  - sbind; [by steps_auto|]. intros [|]; [by steps_auto|]. sbind; [apply steps_fill|]. intros _. apply IH.
  - sbind; [apply tr_advance|]. intros [k|e]; [|apply (steps_failure ledger)]. destruct (k =? 0); [by steps_auto|apply IH].
Qed.
End Records.

(** ** The handshake ends *)

(** What sends does not touch what was received. *)
Definition inbound_kept s s' : Prop :=
  s_rx s' = s_rx s ∧ s_eof s' = s_eof s ∧ s_failed s' = s_failed s ∧ incoming (s_inner s') = incoming (s_inner s) ∧
  is_handshaking (s_conn s') = is_handshaking (s_conn s).

#[export] Instance inbound_kept_rel : SendRel inbound_kept.
Proof.
  split.
  - split; [done|]. intros s1 s2 s3 (A1 & B1 & C1 & D1 & F1) (A2 & B2 & C2 & D2 & F2). split_and!; congruence.
  - intros s. unfold send_one, mbind, prog_bind, on_inner. cbn [gets].
    destruct (t_write (s_tx s) (s_inner s)) as [r t] eqn:Hw.
    assert (incoming t = incoming (s_inner s)) as Ht.
    { destruct r as [n|e|]; [by apply t_write_ok in Hw as (_ & _ & ?)|apply t_write_other in Hw as [? _]; done..]. }
    by destruct r as [n|e|]; [destruct (n =? 0)|..].
  - intros s. unfold on_inner. destruct (t_flush (s_inner s)) as [r t] eqn:Hf. apply t_flush_any in Hf as [Hi _].
    by destruct r.
  - by apply steps_harvest_tx_of.
Qed.

Lemma inbound_kept_due s s' : inbound_kept s s' → due s' = due s ∧ s_failed s' = s_failed s.
Proof. intros (A & B & D & I & _). unfold due. by rewrite A, B, D, I. Qed.

Lemma fill_failed s : s_failed (snd (fill_with (t_read CHUNK) s)) = s_failed s.
Proof.
  unfold fill_with, mbind, prog_bind, on_inner. destruct (t_read CHUNK (s_inner s)) as [[b|e|] t]; [|done..].
  by case_bool_decide.
Qed.

Lemma send_rounds_ret fuel s s' : send_rounds fuel s = (Ret tt, s') → s_tx s' = [].
Proof.
  revert s. induction fuel as [|fuel IH]; intros s; [done|]. cbn [send_rounds]. unfold mbind at 1, prog_bind at 1. cbn [gets].
  case_bool_decide as Htx; [by intros [= <-]|]. unfold mbind, prog_bind. destruct (send_one s) as [[[]| | | |] s1]; try done.
  apply IH.
Qed.

Lemma flush_tx_ret s s' : flush_tx s = (Ret tt, s') → s_tx s' = [].
Proof.
  unfold flush_tx, mbind, prog_bind, send_queue. destruct (send_rounds _ s) as [[[]| | | |] s1] eqn:Hs; try done.
  apply send_rounds_ret in Hs. unfold on_inner. destruct (t_flush (s_inner s1)) as [[] t]; try done. by intros [= _ <-].
Qed.

(** How a handshake ends: it is over, and everything is sent; or it failed or was
    dropped.  No plaintext was passed. *)
Definition shaken s (o : outcome (TlsError E R) unit) s' : Prop :=
  plain_said s' = plain_said s ∧
  match o with
  | Ret _ => is_handshaking (s_conn s') = false ∧ s_tx s' = [] ∧ plain_arriving s' = plain_arriving s
  | Fail _ | Dropped => True
  | Panicked | NoFuel => False
  end.

Lemma shaken_quiet s s1 o s' : quiet s s1 → shaken s1 o s' → shaken s o s'.
Proof. intros [Qa Qs]. unfold shaken. by rewrite Qa, Qs. Qed.

(** [harvest] and a flush: how a round begins, and how the handshake ends. *)
Lemma session_push_spec s :
  wp (harvest_tx ≫= λ _, flush_tx) (λ o s', quiet s s' ∧ inbound_kept s s' ∧
    match o with Ret _ => s_tx s' = [] | Fail _ | Dropped => True | Panicked | NoFuel => False end) s.
Proof.
  pose proof (tr_harvest (Rel := quiet) s) as Q1. pose proof (tr_harvest (Rel := inbound_kept) s) as K1.
  set (s1 := snd (harvest_tx (E := E) s)) in *. assert (harvest_tx (E := E) s = (Ret tt, s1)) as E1 by done.
  apply wp_bind. eapply wp_eq; [exact E1|]. unfold wp.
  pose proof (steps_flush_tx quiet s1) as Q2. pose proof (steps_flush_tx inbound_kept s1) as K2.
  pose proof (settles_flush_tx s1) as Hset. pose proof (flush_tx_ret s1) as Hret.
  destruct (flush_tx s1) as [o s2]. cbn [fst snd] in *. split; [by etrans|]. split; [by etrans|].
  destruct o as [[]|e| | |]; [by apply Hret|done|done|by destruct Hset..].
Qed.

Lemma failure_fails e s :
  s_failed s = Some e → wp failure (λ o s', quiet s s' ∧ match o with Fail _ | Dropped => True | _ => False end) s.
Proof.
  intros Hf. unfold failure. apply wp_bind, wp_gets. rewrite Hf. apply wp_quiet; [apply tr_harvest|done| |by intros].
  intros _ s1 Q1. apply wp_quiet; [apply steps_catch, (steps_flush_tx quiet)|apply settles_catch, settles_flush_tx| |].
  - intros _ s2 Q2. split; [by etrans|done].
  - intros s2 Q2. split; [|intros e']; (split; [by etrans|done]).
Qed.

Lemma handshake_spec fuel s :
  s_failed s = None → (due s < fuel)%nat → wp (handshake_rounds fuel) (shaken s) s.
Proof.
  revert s. induction fuel as [|fuel IH]; intros s Hf Hd; [lia|]. cbn [handshake_rounds].
  assert (∀ o s', quiet s s' → match o with Fail _ | Dropped => True | _ => False end → shaken s o s') as Hcut
    by (intros [] s' [_ Hs]; try done; by split).
  apply wp_bind, wp_gets. destruct (is_handshaking (s_conn s)) eqn:Hh.
  2: { eapply wp_mono; [apply session_push_spec|]. intros o s2 (Qs & (_ & _ & _ & _ & Hh2) & Ho).
       destruct o as [[]|e| | |]; [|by apply Hcut|by apply Hcut|done..].
       destruct Qs. split; [done|]. split_and!; [congruence|done|done]. }
  apply wp_assoc, wp_bind. eapply wp_mono; [apply session_push_spec|]. intros o s2 (Qs & Hk & Ho).
  destruct o as [[]|e| | |]; [|by apply Hcut|by apply Hcut|done..]. apply inbound_kept_due in Hk as [Hd2 Hf2].
  rewrite Hf in Hf2.
  assert (∀ s3, quiet s2 s3 → s_failed s3 = None → (due s3 < due s2)%nat → wp (handshake_rounds fuel) (shaken s) s3) as Hrec.
  { intros s3 Q3 F3 D3. eapply wp_mono; [apply IH; [done|lia]|]. intros o s4. apply shaken_quiet. by etrans. }
  apply wp_bind, wp_gets. case_bool_decide; cbn [negb].
  - apply wp_bind, wp_gets. destruct (s_eof s2) eqn:He; [by apply Hcut|].
    apply wp_bind. pose proof (fill_failed s2) as Hff. pose proof (fill_passes s2 He) as Hp. unfold wp in *.
    destruct (fill_with (t_read CHUNK) s2) as [o s3]. cbn [fst snd] in *. destruct Hp as [Hs3 Ho3].
    destruct o as [[]|e| | |]; [|destruct Qs; split; [congruence|done]..|done|done].
    destruct Ho3 as [Ha3 Hd3]. apply Hrec; [by split|congruence|done].
  - destruct (session_advance_spec s2 Hf2) as (r & s3 & Ha & Hq3 & Hr). apply wp_bind. eapply wp_eq; [exact Ha|].
    assert (quiet s s3) as Qs3 by (by etrans). destruct r as [k|e]; destruct Hr as [F3 D3].
    + destruct (Z.eqb_spec k 0); [by apply Hcut|by apply Hrec; auto].
    + eapply wp_mono; [by apply (failure_fails e)|]. intros o s4 [Q4 Ho4]. assert (quiet s s4) by (by etrans).
      destruct o; try done; by apply Hcut.
Qed.

(** ** Sessions are streams *)


(** over a transport whose unfinished writes send nothing, the records the
    engine makes leave the socket whole, once and in the order they were made,
    behind what was queued, through every call and however it ends: what a
    dropped or failed flush leaves stays queued.  A flush that returns has sent
    them all. *)
Theorem tls_records_once s (n : Z) (buf : bytes) (fuel : nat) :
  write_clean →
  ledger s (snd (session_read fuel n s)) ∧ ledger s (snd (session_write buf s)) ∧
  ledger s (snd (session_flush s)) ∧ ledger s (snd (session_shutdown s)) ∧
  ledger s (snd (handshake_rounds fuel s)) ∧
  ∀ s', session_flush s = (Ret tt, s') → s_tx s' = [].
Proof.
  intros Hclean. pose proof (ledger_rel Hclean) as HR. split_and!.
  - by apply steps_session_read.
  - by apply steps_session_write.
  - apply (steps_session_flush ledger).
  - apply (steps_session_shutdown ledger).
  - by apply steps_handshake.
  - unfold session_flush, mbind at 1, prog_bind at 1. destruct (failure s) as [[[]| | | |] s1]; try done.
    unfold mbind, prog_bind, harvest_tx, modify. intros s'. apply flush_tx_ret.
Qed.

(** ** [MaybeTls] is a transport *)

Abbreviation maybe := (MaybeTls T C R).

(** Rounds enough for a read of a session. *)
Definition read_fuel s : nat := S (due s).

(** A transport with no socket left waits for nothing: reads of it fail at once,
    and whether one may be dropped is never asked. *)
#[export] Instance maybe_tls_transport : Transport maybe (TlsError E R) := {
  t_read := maybe_read read_fuel;
  t_write := maybe_write;
  t_flush := maybe_flush;
  t_cancel := maybe_cancel read_fuel;
  read_cancel_safe := read_cancel_safe;
  t_kind := tls_kind;
}.

#[export] Instance maybe_tls_start : StartTls maybe (TlsError E R) := {
  start_tls := maybe_start_tls read_fuel;
  is_key_rejected := tls_key_rejected;
}.

Definition maybe_incoming (m : maybe) : bytes :=
  match m with MPlain t => incoming t | MTls s => plain_arriving s | MBroken => [] end.
Definition maybe_outgoing (m : maybe) : bytes :=
  match m with MPlain t => outgoing t | MTls s => plain_said s | MBroken => [] end.

Lemma session_read_io n s :
  wp (session_read (read_fuel s) n) (read_gives (Z.max 0 n) s) s.
Proof. apply session_read_spec. unfold read_fuel. lia. Qed.

#[export] Instance maybe_tls_laws : TransportLaws maybe (TlsError E R).
Proof.
  refine (Build_TransportLaws _ _ _ maybe_incoming maybe_outgoing _ _ _ _ _ _ _); cbn.
  - intros n m b m'. destruct m as [t|s|]; cbn; [|pose proof (session_read_io n s) as Hr; unfold wp, session_call in *|done].
    + unfold plain_call. destruct (t_read n t) as [[a|e|] t1] eqn:Hr; [|done..]. intros [= <- <-]. by apply t_read_ok.
    + destruct (session_read _ n s) as [[a|e| | |] s1]; try done. intros [= <- <-]. destruct Hr as (Hs & Hl & Ha).
      by split_and!.
  - intros n m e m'. destruct m as [t|s|]; cbn; [|pose proof (session_read_io n s) as Hr; unfold wp, session_call in *|by intros [= _ <-]].
    + unfold plain_call. destruct (t_read n t) as [[a|e'|] t1] eqn:Hr; [done| |done]. intros [= _ <-].
      by apply t_read_err in Hr.
    + destruct (session_read _ n s) as [[a|e'| | |] s1]; try done. intros [= _ <-]. destruct Hr. by split.
  - intros n m m'. destruct m as [t|s|]; cbn; [|pose proof (session_read_io n s) as Hr; unfold wp, session_call in *|done].
    + unfold plain_call. destruct (t_read n t) as [[a|e'|] t1] eqn:Hr; [done..|]. intros [= <-]. by apply t_read_dropped in Hr.
    + destruct (session_read _ n s) as [[a|e'| | |] s1]; cbn in Hr; destruct Hr as [Hs Hr]; try done. intros [= <-]. by split.
  - intros b m n m'. destruct m as [t|s|]; cbn; [|pose proof (session_write_spec b s) as Hw; unfold wp, session_call in *|done].
    + unfold plain_call. destruct (t_write b t) as [[a|e|] t1] eqn:Hw; [|done..]. intros [= <- <-]. by apply t_write_ok.
    + destruct (session_write b s) as [[a|e| | |] s1]; try done. intros [= <- <-]. destruct Hw as (Ha & Hn & Hs). split; [done|by split].
  - intros b m r m'. destruct m as [t|s|]; cbn; [|pose proof (session_write_spec b s) as Hw; unfold wp, session_call in *|].
    + unfold plain_call. destruct (t_write b t) as [r1 t1] eqn:Hw. intros Hc Hne.
      assert (incoming t1 = incoming t ∧ ∃ n, outgoing t1 = outgoing t ++ ztake n b) as Hl.
      { apply (t_write_other _ _ _ _ Hw). intros n ->. simplify_eq. by destruct (Hne n). }
      by destruct r1; simplify_eq/=.
    + intros Hc Hne. destruct (session_write b s) as [[a|e| | |] s1]; cbn in Hw; destruct Hw as [Ha Hs];
        simplify_eq; [by destruct (Hne a)|..]; (split; [done|]); try done; exists 0; by rewrite ztake_nonpos, app_nil_r.
    + intros [= <- <-] _. split; [done|]. exists 0. by rewrite ztake_nonpos.
  - intros m r m'. destruct m as [t|s|]; cbn; [|pose proof (steps_session_flush quiet s) as [Qa Qs]; unfold session_call|by intros [= _ <-]].
    + unfold plain_call. destruct (t_flush t) as [r1 t1] eqn:Hf. apply t_flush_any in Hf. destruct r1; by intros [= _ <-].
    + destruct (session_flush s) as [[] s1]; by intros [= _ <-].
  - intros m. destruct m as [t|s|]; cbn; [apply t_cancel_any| |done].
    destruct (session_cancel_spec (read_fuel s) s) as [H1' H2']; [unfold read_fuel; lia|by split].
Defined.

End SessionLaws.

(** ** Witnesses

    An engine whose records are the plaintext under a mask, after a greeting of a
    byte from each side, over a transport that reads five bytes at a time and
    takes seven. *)
Module Toy.
Record engine : Type := mkEngine {
  shaking : bool;
  raw : bytes;
  clear : bytes;
  queued : bytes;
  taken : bytes;
  out : bytes;
}.

Definition mask (b : bytes) : bytes := (λ x, b8 (Z.lxor (u8 x) 0x55)) <$> b.

Definition yields (c : engine) (s : bytes) : bytes :=
  clear c ++ (if shaking c then match raw c ++ s with x4b :: rest => mask rest | _ => [] end else mask (raw c ++ s)).

Definition process (c : engine) : result unit unit * engine :=
  if shaking c then
    match raw c with
    | [] => (Ok tt, c)
    | x4b :: rest => (Ok tt, mkEngine false [] (clear c ++ mask rest) (queued c) (taken c) (out c))
    | _ => (Err tt, c)
    end
  else (Ok tt, mkEngine false [] (clear c ++ mask (raw c)) (queued c) (taken c) (out c)).

#[global] Instance toy_engine : Engine engine unit := {
  engine_new := Ok (mkEngine true [] [] [x48] [] []);
  is_handshaking := shaking;
  wants_write c := negb (bool_decide (queued c = []));
  write_tls c := (Some (queued c), mkEngine (shaking c) (raw c) (clear c) [] (taken c) (out c ++ queued c));
  read_tls s c := (Took (len s), mkEngine (shaking c) (raw c ++ s) (clear c) (queued c) (taken c) (out c));
  process_new_packets := process;
  reader_read n c :=
    if (n <=? 0) || bool_decide (clear c = []) then (Blocked, c)
    else (Got (ztake n (clear c)), mkEngine (shaking c) (raw c) (zdrop n (clear c)) (queued c) (taken c) (out c));
  writer_write b c := (Some (len b), mkEngine (shaking c) (raw c) (clear c) (queued c ++ mask b) (taken c ++ b) (out c));
  send_close_notify c := mkEngine (shaking c) (raw c) (clear c) (queued c ++ [x00]) (taken c) (out c);
  export_keying _ n _ := Ok (replicate (Z.to_nat n) x2a);
  writer_closed := tt;
  alert_received _ := None;
  records c := if bool_decide (queued c = []) then 0%nat else 1%nat;
}.

Lemma mask_app a b : mask (a ++ b) = mask a ++ mask b.
Proof. apply fmap_app. Qed.

Lemma process_yields c r c' s : process c = (r, c') → yields c' s = yields c s ∧ taken c' = taken c ∧ out c' = out c.
Proof.
  unfold process, yields. destruct (shaking c) eqn:Hs.
  - destruct (raw c) as [|x rest] eqn:Hr; [intros [= <- <-]; by rewrite Hs, Hr|].
    destruct x; intros [= <- <-]; rewrite ?Hs, ?Hr; cbn; try done. by rewrite mask_app, app_assoc.
  - intros [= <- <-]. cbn. by rewrite mask_app, app_assoc.
Qed.

#[global] Instance toy_engine_laws : EngineLaws engine unit.
Proof.
  refine {| plain_in := yields; plain_out := taken; sealed := out |}; cbn.
  - intros c o c' [= <- <-]. split_and!; try done. intros Hw. cbn [queued]. rewrite (bool_decide_true ([] = [])) by done.
    destruct (bool_decide (queued c = [])); [done|lia].
  - intros s c r c' [= <- <-]. split_and!; try done; [apply len_nonneg|]. intros rest. unfold yields. cbn.
    by rewrite ztake_all, app_assoc by done.
  - intros c r c' Hp. split; [intros s; exact (proj1 (process_yields c r c' s Hp))|].
    exact (proj2 (process_yields c r c' [] Hp)).
  - intros n c r c'. destruct (_ || _) eqn:Hb; intros [= <- <-]; [done|]. apply orb_false_elim in Hb as [Hn%Z.leb_gt Hc%bool_decide_eq_false].
    split_and!; try done; cbn.
    + rewrite len_ztake. destruct (clear c); [done|]. rewrite len_cons. pose proof (len_nonneg l). lia.
    + rewrite len_ztake. lia.
    + intros s. unfold yields. cbn. by rewrite app_assoc, ztake_zdrop.
  - intros b c o c' [= <- <-]. split_and!; try done; [apply len_nonneg|]. cbn. by rewrite ztake_all.
  - done.
Defined.

Record pipe : Type := mkPipe { p_in : bytes; p_out : bytes }.

#[global] Instance pipe_transport : Transport pipe unit := {
  t_read n t := let k := Z.min n 5 in (IoOk (ztake k (p_in t)), mkPipe (zdrop k (p_in t)) (p_out t));
  t_write b t := let k := Z.min (len b) 7 in (IoOk k, mkPipe (p_in t) (p_out t ++ ztake k b));
  t_flush t := (IoOk tt, t);
  t_cancel t := t;
  read_cancel_safe := true;
  t_kind _ := None;
}.

#[global] Instance pipe_laws : TransportLaws pipe unit.
Proof.
  refine (Build_TransportLaws _ _ _ p_in p_out _ _ _ _ _ _ _); cbn; try done.
  - intros n t b t' [= <- <-]. cbn. rewrite ztake_zdrop, len_ztake. split; [lia|done].
  - intros b t n t' [= <- <-]. cbn. pose proof (len_nonneg b). split; [lia|done].
  - intros b t r t' [= <- <-] Hne. by destruct (Hne (Z.min (len b) 7)).
  - by intros t r t' [= <- <-].
Defined.

Lemma pipe_clean : write_clean (T := pipe) (E := unit).
Proof. intros b t r t' [= <- <-] Hne. by destruct (Hne (Z.min (len b) 7)). Qed.

(** A session past its handshake, with a message on its way in. *)
Definition sample : TlsSession pipe engine unit :=
  mkTls (mkPipe (mask (bs "hello, host")) []) (mkEngine false [] [] [] [] []) [] false [] None false.
End Toy.


Lemma tls_records_once_witness :
  ledger Toy.sample (snd (session_write (bs "hello, device") Toy.sample)) ∧
  s_tx (snd (session_write (bs "hello, device") Toy.sample)) = Toy.mask (bs "hello, device").
Proof.
  destruct (tls_records_once Toy.sample 4 (bs "hello, device") 30 Toy.pipe_clean) as (_ & Hw & _).
  split; [exact Hw|by vm_compute].
Defined.

