(* ===== verification/Usb.v ===== *)
(** * USB and TCP transports ([transport/usb.rs], [transport/nusb.rs],
      [transport/rusb.rs], [transport/common.rs], [transport/any.rs])

    Choosing a device among those on the bus, and reading and writing its bulk
    endpoints.  The USB libraries are interfaces: what they list ([Libusb],
    [NusbDevices]), their transfers ([Nusb], [Rusb]) and the runtime's blocking
    tasks ([Blocking]).  [Enumerated] is the library's own trait.

    [scan_selects] says which device a selector gets and which error explains
    that it got none.  [writes_are_transfers] is about the zero-length packet a
    write ends in on a packet boundary: a device that cuts the packets into
    transfers finds exactly the writes.  The instance [common_transport_laws]
    makes the union of TCP and USB a transport of Wire wherever both are. *)

From S2P Require Import Prelude Errors Protocol Config SendQueue Slot Wire Uri.
From S2P Require Import Handshake Tls.

(** ** [usb.rs] *)

Definition ADB_CLASS : Z := 0xFF.
Definition ADB_SUBCLASS : Z := 0x42.
Definition ADB_PROTOCOL : Z := 0x01.

Definition speaks_adb (class subclass protocol : Z) : bool :=
  (class =? ADB_CLASS) && (subclass =? ADB_SUBCLASS) && (protocol =? ADB_PROTOCOL).

(** [len.checked_rem(max_packet)] is nothing for no packet size. *)
Definition ends_on_packet_boundary (n max_packet : Z) : bool :=
  negb (n =? 0) && negb (max_packet =? 0) && (n mod max_packet =? 0).

(** [Enumerated] and [ScanError]: devices [D], their ADB interfaces [I] and
    errors [E]. *)
Class Enumerated (D I E : Type) : Type := {
  dev_vid : D → Z;
  dev_pid : D → Z;
  adb_interface : D → result E (option I);
  (** [serial] may open the device to ask. *)
  dev_serial : D → result E (option bytes) * D;
  not_found : E;
  no_adb_interface : E;
}.

Section Scan.
Context {D I E T : Type} `{Enumerated D I E}.

(** [admit]: the device as asking for its serial left it. *)
Definition admit_device (device : D) (selector : UsbSelector) : result E (option I) * D :=
  let named := match selector with
               | UsbSelector.VidPid vid pid => negb ((dev_vid device =? vid) && (dev_pid device =? pid))
               | _ => false
               end in
  if named then (Ok None, device)
  else
    match adb_interface device with
    | Err e => (Err e, device)
    | Ok None => (match selector with UsbSelector.VidPid _ _ => Err no_adb_interface | _ => Ok None end, device)
    | Ok (Some iface) =>
        match selector with
        | UsbSelector.Serial wanted =>
            match dev_serial device with
            | (Err e, device) => (Err e, device)
            | (Ok serial, device) =>
                (if bool_decide (serial = Some wanted) then Ok (Some iface) else Ok None, device)
            end
        | _ => (Ok (Some iface), device)
        end
    end.

Definition names_one (selector : UsbSelector) : bool :=
  match selector with UsbSelector.VidPid _ _ => true | _ => false end.

(** [get_or_insert]. *)
Definition keep_first (first_err : option E) (e : E) : option E :=
  match first_err with Some e => Some e | None => Some e end.

(** [scan] over what enumeration yields, with [open]. *)
Fixpoint scan_loop (open : D → I → result E T) (selector : UsbSelector) (first_err : option E)
    (devices : list (result E D)) : result E T :=
  match devices with
  | [] => Err (default not_found first_err)
  | Err e :: devices => scan_loop open selector (keep_first first_err e) devices
  | Ok device :: devices =>
      let attempt := match admit_device device selector with
                     | (Ok (Some iface), device) => Some (open device iface)
                     | (Ok None, _) => None
                     | (Err e, _) => Some (Err e)
                     end in
      match attempt with
      | None => scan_loop open selector first_err devices
      | Some (Ok transport) => Ok transport
      | Some (Err e) =>
          if names_one selector then Err e
          else scan_loop open selector (keep_first first_err e) devices
      end
  end.

Definition scan (open : D → I → result E T) (selector : UsbSelector) (devices : list (result E D)) : result E T :=
  scan_loop open selector None devices.
End Scan.

(** ** Bulk endpoints ([rusb.rs], [nusb.rs]) *)

Inductive TransferType : Type := Control | Isochronous | BulkTransfer | Interrupt.
Inductive Direction : Type := DirIn | DirOut.

Definition PACKET_SIZE_MASK : Z := 0x07ff.

Record BulkEndpoints : Type := mkEndpoints { ep_in : Z; ep_out : Z; out_packet_size : Z }.

(** An endpoint descriptor: its type, direction, address and packet size. *)
Abbreviation endpoint := (TransferType * Direction * Z * Z)%type.

(** The loops of [pick_bulk_endpoints] and [nusb]'s [UsbTransport::new]: the last
    bulk endpoint of each direction. *)
Definition pick_step (found : option Z * option (Z * Z)) (ep : endpoint) : option Z * option (Z * Z) :=
  let '(kind, direction, address, size) := ep in
  match kind, direction with
  | BulkTransfer, DirIn => (Some address, snd found)
  | BulkTransfer, DirOut => (fst found, Some (address, size))
  | _, _ => found
  end.

(** [rusb]: the packet size without the bits that count transactions. *)
Definition pick_bulk_endpoints (endpoints : list endpoint) : option BulkEndpoints :=
  let '(found_in, found_out) := foldl pick_step (None, None) endpoints in
  '(ep_out, size) ← found_out;
  ep_in ← found_in;
  Some (mkEndpoints ep_in ep_out (Z.land size PACKET_SIZE_MASK)).

(** [nusb]: its [max_packet_size] has no such bits. *)
Definition nusb_endpoints (endpoints : list endpoint) : option BulkEndpoints :=
  let '(found_in, found_out) := foldl pick_step (None, None) endpoints in
  '(ep_out, size) ← found_out;
  ep_in ← found_in;
  Some (mkEndpoints ep_in ep_out size).

Module UsbConnectError.
Inductive UsbConnectError (L : Type) : Type :=
| Context (e : L) | Enumerate (e : L) | NotFound | NoAdbInterface | Open (e : L)
| Descriptor (e : L) | SerialRead (e : L) | Claim (e : L) | NoBulkEndpoints.
Arguments Context {L} e.
Arguments Enumerate {L} e.
Arguments NotFound {L}.
Arguments NoAdbInterface {L}.
Arguments Open {L} e.
Arguments Descriptor {L} e.
Arguments SerialRead {L} e.
Arguments Claim {L} e.
Arguments NoBulkEndpoints {L}.
End UsbConnectError.
Abbreviation UsbConnectError := UsbConnectError.UsbConnectError.

(** [AdbInterface]: a number and its endpoints. *)
Definition first_with_bulk_endpoints {L} (settings : list (Z * option BulkEndpoints)) :
    result (UsbConnectError L) (option (Z * BulkEndpoints)) :=
  match settings with
  | [] => Ok None
  | _ =>
      match omap (λ '(number, endpoints), (λ e, (number, e)) <$> endpoints) settings with
      | found :: _ => Ok (Some found)
      | [] => Err UsbConnectError.NoBulkEndpoints
      end
  end.

(** ** Transfers *)

(** nusb: asynchronous transfers on an endpoint, with errors [L]. *)
Class Nusb (H L : Type) : Type := {
  nusb_bulk_in : Z → Z → H → io L bytes * H;
  nusb_bulk_out : Z → bytes → H → io L unit * H;
  (** A transfer in that was waited for and is dropped. *)
  nusb_cancel : H → H;
  nusb_disconnected : L → bool;
}.

(** libusb: blocking transfers. *)
Class Rusb (H L : Type) : Type := {
  read_bulk : Z → Z → H → result L bytes * H;
  write_bulk : Z → bytes → H → result L Z * H;
  rusb_no_device : L → bool;
}.

(** [Runtime::run_blocking], on what the closure shares with its caller: its
    result, or that the task failed. *)
Class Blocking (H : Type) : Type := {
  run_blocking {A} : (H → A * H) → H → io unit A * H;
  (** A task that was waited for, and no longer is. *)
  abandon : H → H;
}.

(** [UsbError], of either backend. *)
Module UsbError.
Inductive UsbError (L : Type) : Type := Transfer (e : L) | BlockingTaskFailed.
Arguments Transfer {L} e.
Arguments BlockingTaskFailed {L}.
End UsbError.
Abbreviation UsbError := UsbError.UsbError.

(** [nusb]'s [UsbTransport]. *)
Record NusbTransport (H : Type) : Type := mkNusb { nusb_iface : H; nusb_eps : BulkEndpoints }.
Arguments mkNusb {H}.
Arguments nusb_iface {H}.
Arguments nusb_eps {H}.

Section NusbTransport.
Context {H L : Type} `{Nusb H L}.
Abbreviation usb := (NusbTransport H).

Definition on_iface {A} (call : H → io L A * H) (u : usb) : io (UsbError L) A * usb :=
  match call (nusb_iface u) with
  | (IoOk a, h) => (IoOk a, mkNusb h (nusb_eps u))
  | (IoErr e, h) => (IoErr (UsbError.Transfer e), mkNusb h (nusb_eps u))
  | (IoDropped, h) => (IoDropped, mkNusb h (nusb_eps u))
  end.

Definition nusb_read (n : Z) (u : usb) : io (UsbError L) bytes * usb :=
  match on_iface (nusb_bulk_in (ep_in (nusb_eps u)) n) u with
  | (IoOk data, u) => (IoOk (ztake (Z.min (len data) n) data), u)
  | (r, u) => (r, u)
  end.

Definition nusb_write (buf : bytes) (u : usb) : io (UsbError L) Z * usb :=
  match buf with
  | [] => (IoOk 0, u)
  | _ =>
      match on_iface (nusb_bulk_out (ep_out (nusb_eps u)) buf) u with
      | (IoOk _, u) =>
          if ends_on_packet_boundary (len buf) (out_packet_size (nusb_eps u)) then
            match on_iface (nusb_bulk_out (ep_out (nusb_eps u)) []) u with
            | (IoOk _, u) => (IoOk (len buf), u)
            | (IoErr e, u) => (IoErr e, u)
            | (IoDropped, u) => (IoDropped, u)
            end
          else (IoOk (len buf), u)
      | (IoErr e, u) => (IoErr e, u)
      | (IoDropped, u) => (IoDropped, u)
      end
  end.

(** [UsbError::kind]. *)
Definition nusb_kind (e : UsbError L) : option GoneKind :=
  match e with
  | UsbError.Transfer e => if nusb_disconnected e then Some NotConnected else None
  | UsbError.BlockingTaskFailed => None
  end.

#[export] Instance nusb_transport : Transport usb (UsbError L) := {
  t_read := nusb_read;
  t_write := nusb_write;
  t_flush u := (IoOk tt, u);
  t_cancel u := mkNusb (nusb_cancel (nusb_iface u)) (nusb_eps u);
  read_cancel_safe := false;
  t_kind := nusb_kind;
}.
End NusbTransport.

(** [rusb]'s [UsbTransport]: [buffer] is what it lends its blocking calls. *)
Record RusbTransport (H : Type) : Type := mkRusb { rusb_handle : H; rusb_eps : BulkEndpoints; rusb_buffer : bytes }.
Arguments mkRusb {H}.
Arguments rusb_handle {H}.
Arguments rusb_eps {H}.
Arguments rusb_buffer {H}.

Section RusbTransport.
Context {H L : Type} `{Rusb H L} `{Blocking H}.
Abbreviation usb := (RusbTransport H).

Definition bulk_read (ep n : Z) (h : H) : result L bytes * H :=
  if n =? 0 then (Ok [], h) else read_bulk ep n h.

Definition bulk_write (eps : BulkEndpoints) (buf : bytes) (h : H) : result L Z * H :=
  match buf with
  | [] => (Ok 0, h)
  | _ =>
      match write_bulk (ep_out eps) buf h with
      | (Err e, h) => (Err e, h)
      | (Ok n, h) =>
          if (n =? len buf) && ends_on_packet_boundary n (out_packet_size eps) then
            match write_bulk (ep_out eps) [] h with
            | (Err e, h) => (Err e, h)
            | (Ok _, h) => (Ok n, h)
            end
          else (Ok n, h)
      end
  end.

(** A blocking call with the buffer, which comes back filled by [lent] when it
    succeeds and is lost otherwise. *)
Definition on_task {A} (call : H → result L A * H) (lent : A → bytes) (u : usb) : io (UsbError L) A * usb :=
  match run_blocking call (rusb_handle u) with
  | (IoOk (Ok a), h) => (IoOk a, mkRusb h (rusb_eps u) (lent a))
  | (IoOk (Err e), h) => (IoErr (UsbError.Transfer e), mkRusb h (rusb_eps u) [])
  | (IoErr _, h) => (IoErr UsbError.BlockingTaskFailed, mkRusb h (rusb_eps u) [])
  | (IoDropped, h) => (IoDropped, mkRusb h (rusb_eps u) [])
  end.

(** The buffer is cut or filled up to [n] bytes before the call, and the bytes
    read come first in it. *)
Definition rusb_read (n : Z) (u : usb) : io (UsbError L) bytes * usb :=
  on_task (bulk_read (ep_in (rusb_eps u)) n)
    (λ b, b ++ zdrop (len b) (ztake n (rusb_buffer u ++ replicate (Z.to_nat n) x00))) u.

Definition rusb_write (buf : bytes) (u : usb) : io (UsbError L) Z * usb :=
  on_task (bulk_write (rusb_eps u) buf) (λ _, buf) u.

Definition rusb_kind (e : UsbError L) : option GoneKind :=
  match e with
  | UsbError.Transfer e => if rusb_no_device e then Some NotConnected else None
  | UsbError.BlockingTaskFailed => None
  end.

#[export] Instance rusb_transport : Transport usb (UsbError L) := {
  t_read := rusb_read;
  t_write := rusb_write;
  t_flush u := (IoOk tt, u);
  t_cancel u := mkRusb (abandon (rusb_handle u)) (rusb_eps u) [];
  read_cancel_safe := false;
  t_kind := rusb_kind;
}.
End RusbTransport.

(** ** [common.rs] *)

(** [Transport]: which of the two it is never changes, and is an index here. *)
Inductive Medium : Type := Tcp | Usb.

Definition Common (m : Medium) (T U : Type) : Type := match m with Tcp => T | Usb => U end.

Module TransportError.
Inductive TransportError (E F : Type) : Type := Tcp (e : E) | Usb (e : F).
Arguments Tcp {E F} e.
Arguments Usb {E F} e.
End TransportError.
Abbreviation TransportError := TransportError.TransportError.

Definition io_map_err {E F A} (f : E → F) (r : io E A) : io F A :=
  match r with IoOk a => IoOk a | IoErr e => IoErr (f e) | IoDropped => IoDropped end.

Section Common.
Context {T E U F : Type} `{Transport T E} `{Transport U F}.

Definition common_call {A} (m : Medium) (tcp : T → io E A * T) (usb : U → io F A * U) :
    Common m T U → io (TransportError E F) A * Common m T U :=
  match m with
  | Tcp => λ t, let '(r, t) := tcp t in (io_map_err TransportError.Tcp r, t)
  | Usb => λ u, let '(r, u) := usb u in (io_map_err TransportError.Usb r, u)
  end.

Definition common_kind (e : TransportError E F) : option GoneKind :=
  match e with TransportError.Tcp e => t_kind e | TransportError.Usb e => t_kind e end.

#[export] Instance common_transport (m : Medium) : Transport (Common m T U) (TransportError E F) := {
  t_read n := common_call m (t_read n) (t_read n);
  t_write b := common_call m (t_write b) (t_write b);
  t_flush := common_call m t_flush t_flush;
  t_cancel := match m with Tcp => t_cancel (T := T) | Usb => t_cancel (T := U) end;
  read_cancel_safe := match m with Tcp => read_cancel_safe (T := T) | Usb => read_cancel_safe (T := U) end;
  t_kind := common_kind;
}.
End Common.

(** [Splittable]: two handles of one device; the union splits what it holds. *)
Definition nusb_split {H E} (u : NusbTransport H) : result E (NusbTransport H * NusbTransport H) := Ok (u, u).

Definition rusb_clone {H} (u : RusbTransport H) : RusbTransport H := mkRusb (rusb_handle u) (rusb_eps u) [].
Definition rusb_split {H E} (u : RusbTransport H) : result E (RusbTransport H * RusbTransport H) := Ok (u, rusb_clone u).

Definition common_split {T E U F TR TW UR UW} (split_tcp : T → result E (TR * TW)) (split_usb : U → result F (UR * UW))
    (m : Medium) : Common m T U → result (TransportError E F) (Common m TR UR * Common m TW UW) :=
  match m with
  | Tcp => λ t, map_err TransportError.Tcp (split_tcp t)
  | Usb => λ u, map_err TransportError.Usb (split_usb u)
  end.

(** TLS on the union: over TCP, and never over USB. *)
Section CommonTls.
Context {T E U F C R : Type} `{TransportLaws T E} `{EngineLaws C R}.
Abbreviation maybe := (MaybeTls T C R).

Definition tls_ready (m : Medium) : Common m T U → Common m maybe U :=
  match m with Tcp => MPlain | Usb => id end.

Definition common_start_tls (m : Medium) : Common m maybe U → io (TransportError (TlsError E R) F) unit * Common m maybe U :=
  match m with
  | Tcp => λ t, let '(r, t) := start_tls t in (io_map_err TransportError.Tcp r, t)
  | Usb => λ u, (IoErr (TransportError.Tcp TlsError.NotAvailable), u)
  end.

Definition common_key_rejected (e : TransportError (TlsError E R) F) : bool :=
  match e with TransportError.Tcp e => tls_key_rejected e | TransportError.Usb _ => false end.

#[export] Instance common_tls_start (m : Medium) : StartTls (Common m maybe U) (TransportError (TlsError E R) F) := {
  start_tls := common_start_tls m;
  is_key_rejected := common_key_rejected;
}.
End CommonTls.

(** ** Connecting *)

(** A setting of an interface: its class, subclass, protocol, number and
    endpoints. *)
Record setting : Type := mkSetting {
  set_class : Z; set_subclass : Z; set_protocol : Z; set_number : Z; set_endpoints : list endpoint;
}.

Definition setting_speaks_adb (s : setting) : bool :=
  speaks_adb (set_class s) (set_subclass s) (set_protocol s).

(** libusb, on devices [Dev] with descriptors [Desc] and handles [Hd]. *)
Class Libusb (Dev Desc Hd L : Type) : Type := {
  device_descriptor : Dev → result L Desc;
  vendor_id : Desc → Z;
  product_id : Desc → Z;
  (** [serial_number_string_index().is_some()]. *)
  has_serial_index : Desc → bool;
  (** The settings of the interfaces of the active configuration, in order. *)
  active_config : Dev → result L (list setting);
  open_device : Dev → result L Hd;
  read_languages : Hd → result L (list Z);
  read_serial_number : Z → Desc → Hd → result L bytes;
  claim_interface : Z → Hd → result L Hd;
}.

(** [Candidate]. *)
Record Candidate (Dev Desc Hd : Type) : Type := mkCandidate {
  cand_device : Dev; cand_descriptor : Desc; cand_handle : option Hd;
}.
Arguments mkCandidate {Dev Desc Hd}.
Arguments cand_device {Dev Desc Hd}.
Arguments cand_descriptor {Dev Desc Hd}.
Arguments cand_handle {Dev Desc Hd}.

Section RusbConnect.
Context {Dev Desc Hd L : Type} `{Libusb Dev Desc Hd L}.
Abbreviation candidate := (Candidate Dev Desc Hd).
Abbreviation error := (UsbConnectError L).

Definition candidate_open (c : candidate) : result error Hd :=
  match cand_handle c with
  | Some h => Ok h
  | None => map_err UsbConnectError.Open (open_device (cand_device c))
  end.

Definition candidate_interface (c : candidate) : result error (option (Z * BulkEndpoints)) :=
  config ← map_err UsbConnectError.Descriptor (active_config (cand_device c));
  first_with_bulk_endpoints
    ((λ s, (set_number s, pick_bulk_endpoints (set_endpoints s))) <$> filter setting_speaks_adb config).

(** The handle it opened stays with the candidate. *)
Definition candidate_serial (c : candidate) : result error (option bytes) * candidate :=
  if negb (has_serial_index (cand_descriptor c)) then (Ok None, c)
  else
    match candidate_open c with
    | Err e => (Err e, mkCandidate (cand_device c) (cand_descriptor c) None)
    | Ok h =>
        let c := mkCandidate (cand_device c) (cand_descriptor c) (Some h) in
        (langs ← map_err UsbConnectError.SerialRead (read_languages h);
         match langs with
         | [] => Ok None
         | lang :: _ =>
             serial ← map_err UsbConnectError.SerialRead (read_serial_number lang (cand_descriptor c) h);
             Ok (Some serial)
         end, c)
    end.

#[export] Instance candidate_enumerated : Enumerated candidate (Z * BulkEndpoints) error := {
  dev_vid c := vendor_id (cand_descriptor c);
  dev_pid c := product_id (cand_descriptor c);
  adb_interface := candidate_interface;
  dev_serial := candidate_serial;
  not_found := UsbConnectError.NotFound;
  no_adb_interface := UsbConnectError.NoAdbInterface;
}.

Definition candidate_of (device : Dev) : result error candidate :=
  descriptor ← map_err UsbConnectError.Descriptor (device_descriptor device);
  Ok (mkCandidate device descriptor None).

Definition open_candidate (c : candidate) (iface : Z * BulkEndpoints) : result error (RusbTransport Hd) :=
  handle ← candidate_open c;
  handle ← map_err UsbConnectError.Claim (claim_interface (fst iface) handle);
  Ok (mkRusb handle (snd iface) []).

(** [UsbTransport::new]: the first setting of the interface with endpoints; all
    settings of an interface have its number. *)
Definition rusb_new (device : Dev) (handle : Hd) (iface : Z) : result error (RusbTransport Hd) :=
  config ← map_err UsbConnectError.Descriptor (active_config device);
  endpoints ← ok_or UsbConnectError.NoBulkEndpoints
    (head (omap (λ s, pick_bulk_endpoints (set_endpoints s)) (filter (λ s, set_number s = iface) config)));
  Ok (mkRusb handle endpoints []).

(** [connect_by_selector], on what [Context::new] and [devices] gave. *)
Definition rusb_connect (context : result L unit) (devices : result L (list Dev)) (selector : UsbSelector) :
    result error (RusbTransport Hd) :=
  _ ← map_err UsbConnectError.Context context;
  devices ← map_err UsbConnectError.Enumerate devices;
  scan open_candidate selector (candidate_of <$> devices).
End RusbConnect.

(** nusb, on devices [Dev] and claimed interfaces [Hd]. *)
Class NusbDevices (Dev Hd L : Type) : Type := {
  nusb_vendor_id : Dev → Z;
  nusb_product_id : Dev → Z;
  (** The interfaces, as settings without endpoints. *)
  nusb_interfaces : Dev → list setting;
  nusb_serial_number : Dev → option bytes;
  nusb_open : Dev → result L Dev;
  nusb_claim : Z → Dev → result L Hd;
  (** The endpoints of the first setting of a claimed interface. *)
  nusb_descriptors : Hd → option (list endpoint);
}.

Section NusbConnect.
Context {Dev Hd L : Type} `{NusbDevices Dev Hd L}.
Abbreviation error := (UsbConnectError L).

Definition nusb_interface (d : Dev) : option Z :=
  set_number <$> head (filter setting_speaks_adb (nusb_interfaces d)).

#[export] Instance nusb_enumerated : Enumerated Dev Z error := {
  dev_vid := nusb_vendor_id;
  dev_pid := nusb_product_id;
  adb_interface d := Ok (nusb_interface d);
  dev_serial d := (Ok (nusb_serial_number d), d);
  not_found := UsbConnectError.NotFound;
  no_adb_interface := UsbConnectError.NoAdbInterface;
}.

(** [UsbTransport::new]. *)
Definition nusb_new (iface : Hd) : option (NusbTransport Hd) :=
  endpoints ← nusb_descriptors iface;
  mkNusb iface <$> nusb_endpoints endpoints.

Definition nusb_open_at (d : Dev) (number : Z) : result error (NusbTransport Hd) :=
  device ← map_err UsbConnectError.Open (nusb_open d);
  interface ← map_err UsbConnectError.Claim (nusb_claim number device);
  ok_or UsbConnectError.NoBulkEndpoints (nusb_new interface).

Definition nusb_connect (devices : result L (list Dev)) (selector : UsbSelector) : result error (NusbTransport Hd) :=
  devices ← map_err UsbConnectError.Enumerate devices;
  scan nusb_open_at selector (Ok <$> devices).
End NusbConnect.

(** ** [any.rs] *)

Module ConnectError.
Inductive ConnectError (E F : Type) : Type :=
| Uri (e : UriError) | Tcp (e : E) | Usb (e : F) | UsbBlockingTaskFailed.
Arguments Uri {E F} e.
Arguments Tcp {E F} e.
Arguments Usb {E F} e.
Arguments UsbBlockingTaskFailed {E F}.
End ConnectError.
Abbreviation ConnectError := ConnectError.ConnectError.

(** [connect], with [Runtime::connect_tcp] and the backend's
    [connect_by_selector] as [run_blocking] runs it. *)
Definition any_connect {T E U F} (connect_tcp : bytes → Z → io E T) (connect_usb : UsbSelector → io unit (result F U))
    (uri : bytes) : io (ConnectError E F) { m : Medium & Common m T U } :=
  match parse uri with
  | Err e => IoErr (ConnectError.Uri e)
  | Ok (Uri.Tcp host port) =>
      match connect_tcp host port with
      | IoOk t => IoOk (existT Tcp t)
      | IoErr e => IoErr (ConnectError.Tcp e)
      | IoDropped => IoDropped
      end
  | Ok (Uri.Usb selector) =>
      match connect_usb selector with
      | IoOk (Ok u) => IoOk (existT Usb u)
      | IoOk (Err e) => IoErr (ConnectError.Usb e)
      | IoErr _ => IoErr ConnectError.UsbBlockingTaskFailed
      | IoDropped => IoDropped
      end
  end.

(** ** Which device *)

Section Selects.
Context {D I E T : Type} `{Enumerated D I E} (open : D → I → result E T) (selector : UsbSelector).

(** What becomes of a device: nothing if the selector does not mean it. *)
Definition tried (device : D) : option (result E T) :=
  match admit_device device selector with
  | (Ok (Some iface), device) => Some (open device iface)
  | (Ok None, _) => None
  | (Err e, _) => Some (Err e)
  end.

(** What every entry of the bus comes to, in order: failures to list it too. *)
Definition entry_outcome (d : result E D) : option (result E T) :=
  match d with Ok d => tried d | Err e => Some (Err e) end.

Definition ok_of {X Y} (r : result X Y) : option Y := match r with Ok t => Some t | Err _ => None end.
Definition err_of {X Y} (r : result X Y) : option X := match r with Ok _ => None | Err e => Some e end.

Definition first_some {X} (a b : option X) : option X := match a with Some x => Some x | None => b end.

(** A selector of a vendor and product names one device: the first that has
    them decides, whatever it comes to.  Any other is satisfied by the first
    device that opens.  What explains a failure is the first error. *)
Definition selects (devices : list (result E D)) : result E T :=
  let outcomes := omap entry_outcome devices in
  let unlisted := omap err_of devices in
  if names_one selector then
    match omap (λ d, ok_of d ≫= tried) devices with
    | decided :: _ => decided
    | [] => Err (default not_found (head unlisted))
    end
  else
    match omap ok_of outcomes with
    | transport :: _ => Ok transport
    | [] => Err (default not_found (head (omap err_of outcomes)))
    end.

Lemma scan_loop_named first devices :
  names_one selector = true →
  scan_loop open selector first devices =
    match omap (λ d, ok_of d ≫= tried) devices with
    | decided :: _ => decided
    | [] => Err (default not_found (first_some first (head (omap err_of devices))))
    end.
Proof.
  intros Hn. revert first. induction devices as [|[d|e] devices IH]; intros first; cbn [scan_loop omap list_omap].
  - by destruct first.
  - fold (tried d). cbn [ok_of err_of option_bind mbind]. destruct (tried d) as [[t|e]|]; [done| |apply IH]. by rewrite Hn.
  - rewrite IH. cbn [ok_of err_of option_bind mbind]. case_match; [|done]. by destruct first.
Qed.

Lemma scan_loop_other first devices :
  names_one selector = false →
  scan_loop open selector first devices =
    match omap ok_of (omap entry_outcome devices) with
    | transport :: _ => Ok transport
    | [] => Err (default not_found (first_some first (head (omap err_of (omap entry_outcome devices)))))
    end.
Proof.
  intros Hn. revert first. induction devices as [|[d|e] devices IH]; intros first; cbn [scan_loop omap list_omap].
  - by destruct first.
  - fold (tried d). cbn [entry_outcome]. destruct (tried d) as [[t|e]|]; cbn [omap list_omap ok_of err_of].
    + done.
    + rewrite Hn, IH. case_match; [|done]. by destruct first.
    + apply IH.
  - rewrite IH. cbn [entry_outcome omap list_omap ok_of err_of]. case_match; [|done]. by destruct first.
Qed.

(** [scan] gets the device the selector means.  Of those with the vendor and
    product it names, the first decides, whatever becomes of it; for any device,
    or one with a serial number, the first that admits and opens does, and
    devices that cannot be listed, asked or opened do not stand in its way.  With
    no device, the error is the first that was met, and not-found if none was. *)
Theorem scan_selects devices : scan open selector devices = selects devices.
Proof.
  unfold scan, selects. destruct (names_one selector) eqn:Hn; [by apply scan_loop_named|by apply scan_loop_other].
Qed.
End Selects.

(** ** Packets *)

(** The packets of a transfer: full ones and, for nothing, an empty one. *)
Fixpoint full_packets (fuel : nat) (size : Z) (b : bytes) : list bytes :=
  match fuel with
  | O => []
  | S fuel => if len b <=? size then [b] else ztake size b :: full_packets fuel size (zdrop size b)
  end.

Definition packets_of (size : Z) (b : bytes) : list bytes := full_packets (S (length b)) size b.

(** A device cuts packets into transfers after each that is not full: those it
    has, and what it has of the next. *)
Definition transfer_step (size : Z) (x : list bytes * bytes) (packet : bytes) : list bytes * bytes :=
  let b := snd x ++ packet in
  if len packet <? size then (fst x ++ [b], []) else (fst x, b).

Definition transfers (size : Z) (packets : list bytes) : list bytes * bytes :=
  foldl (transfer_step size) ([], []) packets.

Section Packets.
Context (size : Z) (Hsize : 0 < size).

Lemma full_packets_concat fuel b : (length b < fuel)%nat → concat (full_packets fuel size b) = b.
Proof.
  revert b. induction fuel as [|fuel IH]; intros b Hf; [lia|]. cbn [full_packets].
  destruct (Z.leb_spec (len b) size); cbn [concat]; [apply app_nil_r|].
  rewrite IH; [apply ztake_zdrop|]. rewrite zdrop_drop, length_drop. unfold len in *. lia.
Qed.

Lemma packets_of_concat b : concat (packets_of size b) = b.
Proof. apply full_packets_concat. lia. Qed.

(** A transfer is seen as one unless its last packet is full. *)
Lemma full_packets_transfer fuel b done acc :
  (length b < fuel)%nat →
  foldl (transfer_step size) (done, acc) (full_packets fuel size b) =
    if ends_on_packet_boundary (len b) size then (done, acc ++ b) else (done ++ [acc ++ b], []).
Proof.
  revert b acc. induction fuel as [|fuel IH]; intros b acc Hf; [lia|]. cbn [full_packets].
  pose proof (len_nonneg b). unfold ends_on_packet_boundary. rewrite (proj2 (Z.eqb_neq size 0)) by lia.
  cbn [negb]. rewrite andb_true_r. destruct (Z.leb_spec (len b) size) as [Hle|Hgt]; cbn [foldl].
  - unfold transfer_step. cbn [fst snd]. destruct (Z.ltb_spec (len b) size) as [Hlt|].
    + rewrite (Z.mod_small (len b) size) by lia. by destruct (len b =? 0).
    + assert (len b = size) as -> by lia. rewrite Z_mod_same_full. by rewrite (proj2 (Z.eqb_neq size 0)) by lia.
  - assert (len (ztake size b) = size) as Hl by (rewrite len_ztake; lia).
    unfold transfer_step at 2. cbn [fst snd]. rewrite Hl, Z.ltb_irrefl.
    rewrite IH by (rewrite zdrop_drop, length_drop; unfold len in *; lia).
    unfold ends_on_packet_boundary. rewrite (proj2 (Z.eqb_neq size 0)) by lia. cbn [negb]. rewrite andb_true_r.
    rewrite <- app_assoc, ztake_zdrop, len_zdrop by lia. rewrite (proj2 (Z.eqb_neq (len b) 0)) by lia.
    replace (Z.max 0 (len b - Z.max 0 size)) with (len b - size) by lia.
    rewrite (proj2 (Z.eqb_neq (len b - size) 0)) by lia. cbn [negb andb].
    rewrite Zminus_mod, Z_mod_same_full, Z.sub_0_r, Z.mod_mod by lia. done.
Qed.

(** The packets of a write: the transfer, and an empty one on a boundary. *)
Definition write_packets (b : bytes) : list bytes :=
  packets_of size b ++ (if ends_on_packet_boundary (len b) size then packets_of size [] else []).

Lemma write_packets_transfer b done :
  foldl (transfer_step size) (done, []) (write_packets b) = (done ++ [b], []).
Proof.
  unfold write_packets. rewrite foldl_app. unfold packets_of at 1. rewrite full_packets_transfer by lia.
  destruct (ends_on_packet_boundary (len b) size); [|done]. unfold packets_of. rewrite full_packets_transfer by (cbn; lia).
  cbn [app]. by rewrite app_nil_r.
Qed.

Lemma writes_transfer bufs done :
  foldl (transfer_step size) (done, []) (concat (write_packets <$> bufs)) = (done ++ bufs, []).
Proof.
  revert done. induction bufs as [|b bufs IH]; intros done; [by rewrite app_nil_r|]. rewrite fmap_cons. cbn [concat].
  rewrite foldl_app, write_packets_transfer, IH. by rewrite <- app_assoc.
Qed.
End Packets.

(** Buffers written one after the other, each of them whole. *)
Fixpoint write_each {T E} `{Transport T E} (bufs : list bytes) (t : T) : option T :=
  match bufs with
  | [] => Some t
  | b :: bufs =>
      match t_write b t with
      | (IoOk n, t) => if n =? len b then write_each bufs t else None
      | _ => None
      end
  end.

(** What a write that took all of its buffer puts on the bus, if it is the same
    for all of them, is what a sequence of writes does. *)
Lemma write_each_packets {T E} `{Transport T E} (sent : T → list bytes) (good : T → Prop) size bufs t t' :
  0 < size →
  (∀ b t t', good t → t_write b t = (IoOk (len b), t') →
     good t' ∧ sent t' = sent t ++ (if bool_decide (b = []) then [] else write_packets size b)) →
  good t → sent t = [] → write_each bufs t = Some t' →
  transfers size (sent t') = (filter (λ b, b ≠ []) bufs, []).
Proof.
  intros Hsize Hw Hg Hs Hb.
  assert (sent t' = sent t ++ concat (write_packets size <$> filter (λ b, b ≠ []) bufs)) as ->.
  { clear Hs. revert t Hg Hb. induction bufs as [|b bufs IH]; intros t Hg; cbn [write_each].
    - intros [= <-]. cbn. by rewrite app_nil_r.
    - destruct (t_write b t) as [[n| |] t1] eqn:Ht; [|done..]. destruct (Z.eqb_spec n (len b)) as [->|]; [|done].
      intros Hb. destruct (Hw _ _ _ Hg Ht) as [Hg1 Hs1]. rewrite (IH t1 Hg1 Hb), Hs1, <- app_assoc. f_equal.
      rewrite filter_cons. case_bool_decide; case_decide; done || by rewrite fmap_cons. }
  rewrite Hs. cbn [app]. by apply (writes_transfer size Hsize _ []).
Qed.

(** What the libraries do on the bus: [sent] are the packets an endpoint has
    sent, and a transfer that succeeds is cut into packets of the endpoint's
    size, with an empty one if it is empty. *)
Class NusbLaws (H L : Type) `{Nusb H L} (size : Z) : Type := {
  nusb_sent : Z → H → list bytes;
  nusb_out_ok ep b h h' : nusb_bulk_out ep b h = (IoOk tt, h') →
    nusb_sent ep h' = nusb_sent ep h ++ packets_of size b;
}.

Class RusbLaws (H L : Type) `{Rusb H L} `{Blocking H} (size : Z) : Type := {
  rusb_sent : Z → H → list bytes;
  (** [n] bytes were transferred. *)
  rusb_out_ok ep b h n h' : write_bulk ep b h = (Ok n, h') →
    0 <= n <= len b ∧ rusb_sent ep h' = rusb_sent ep h ++ packets_of size (ztake n b);
  (** A task that finishes is the closure having run. *)
  blocking_ok {A} (f : H → A * H) h a h' : run_blocking f h = (IoOk a, h') → f h = (a, h');
}.

Section Writes.
Context {H L H' L' : Type} (size : Z) `{NusbLaws H L size} `{RusbLaws H' L' size}.

Definition nusb_packets (u : NusbTransport H) : list bytes := nusb_sent (ep_out (nusb_eps u)) (nusb_iface u).
Definition rusb_packets (u : RusbTransport H') : list bytes := rusb_sent (ep_out (rusb_eps u)) (rusb_handle u).

Lemma nusb_write_packets b u u' :
  out_packet_size (nusb_eps u) = size → nusb_write b u = (IoOk (len b), u') →
  out_packet_size (nusb_eps u') = size ∧
  nusb_packets u' = nusb_packets u ++ (if bool_decide (b = []) then [] else write_packets size b).
Proof.
  intros Hu. unfold nusb_write. destruct b as [|x b].
  - intros [= <-]. by rewrite bool_decide_eq_true_2, app_nil_r.
  - rewrite bool_decide_eq_false_2 by done. unfold on_iface at 1.
    destruct (nusb_bulk_out _ _ _) as [[[]|e|] h1] eqn:Ho1; [|done..]. apply nusb_out_ok in Ho1.
    cbn [nusb_eps nusb_iface]. rewrite Hu. unfold write_packets, nusb_packets.
    destruct (ends_on_packet_boundary _ _); [unfold on_iface; cbn [nusb_eps nusb_iface]|].
    + destruct (nusb_bulk_out _ [] _) as [[[]|e|] h2] eqn:Ho2; [|done..]. apply nusb_out_ok in Ho2.
      intros [= <-]. cbn [nusb_eps nusb_iface]. by rewrite Ho2, Ho1, <- app_assoc.
    + intros [= <-]. cbn [nusb_eps nusb_iface]. by rewrite Ho1, app_nil_r.
Qed.

Lemma rusb_write_packets b u u' :
  out_packet_size (rusb_eps u) = size → rusb_write b u = (IoOk (len b), u') →
  out_packet_size (rusb_eps u') = size ∧
  rusb_packets u' = rusb_packets u ++ (if bool_decide (b = []) then [] else write_packets size b).
Proof.
  intros Hu. unfold rusb_write, on_task.
  destruct (run_blocking _ _) as [[[n|e]|e|] h1] eqn:Hb; [|done..]. apply blocking_ok in Hb.
  intros [= -> <-]. cbn [rusb_eps rusb_handle]. split; [done|]. unfold rusb_packets. cbn [rusb_eps rusb_handle].
  unfold bulk_write in Hb. destruct b as [|x b].
  { simplify_eq. by rewrite bool_decide_eq_true_2, app_nil_r. }
  rewrite bool_decide_eq_false_2 by done.
  destruct (write_bulk _ (x :: b) _) as [[n|e] h2] eqn:Ho2; [|done]. apply rusb_out_ok in Ho2 as [_ Ho2].
  unfold write_packets. destruct (Z.eqb_spec n (len (x :: b))) as [->|Hne]; cbn [andb] in Hb.
  - rewrite ztake_all in Ho2 by lia. rewrite Hu in Hb. destruct (ends_on_packet_boundary _ _).
    + destruct (write_bulk _ [] _) as [[n|e] h3] eqn:Ho3; [|done]. apply rusb_out_ok in Ho3 as [Hn Ho3]. rewrite ztake_all in Ho3 by apply Hn.
      simplify_eq. by rewrite Ho3, Ho2, <- app_assoc.
    + simplify_eq. by rewrite Ho2, app_nil_r.
  - by destruct Hne; simplify_eq.
Qed.

(** C34: what a device receives over USB are the writes.  It cuts the packets of
    the endpoint into transfers after each that is not full, so that a write of
    a whole number of packets would be joined with the next: the empty packet
    that both backends end such a write in makes the transfers exactly the
    buffers written, the empty ones apart, with nothing left waiting. *)
Theorem writes_are_transfers bufs :
  0 < size →
  (∀ u u' : NusbTransport H, out_packet_size (nusb_eps u) = size → nusb_packets u = [] →
     write_each bufs u = Some u' → transfers size (nusb_packets u') = (filter (λ b, b ≠ []) bufs, [])) ∧
  (∀ u u' : RusbTransport H', out_packet_size (rusb_eps u) = size → rusb_packets u = [] →
     write_each bufs u = Some u' → transfers size (rusb_packets u') = (filter (λ b, b ≠ []) bufs, [])).
Proof.
  intros Hsize. split; intros u u'.
  - apply (write_each_packets nusb_packets (λ u, out_packet_size (nusb_eps u) = size)); [done|]. apply nusb_write_packets.
  - apply (write_each_packets rusb_packets (λ u, out_packet_size (rusb_eps u) = size)); [done|]. apply rusb_write_packets.
Qed.
End Writes.

(** ** Laws of [common.rs] *)

Section CommonLaws.
Context {T E U F : Type} `{TransportLaws T E} `{TransportLaws U F}.

(** Wrapping errors is all the union does, so it keeps the promises of either. *)
Lemma common_tcp_call {A} (tcp : T → io E A * T) (usb : U → io F A * U) t r t' :
  common_call Tcp tcp usb t = (r, t') → ∃ r0, tcp t = (r0, t') ∧ r = io_map_err TransportError.Tcp r0.
Proof. cbn. destruct (tcp t) as [r0 t0]. intros [= <- <-]. by exists r0. Qed.

Lemma common_usb_call {A} (tcp : T → io E A * T) (usb : U → io F A * U) u r u' :
  common_call Usb tcp usb u = (r, u') → ∃ r0, usb u = (r0, u') ∧ r = io_map_err TransportError.Usb r0.
Proof. cbn. destruct (usb u) as [r0 u0]. intros [= <- <-]. by exists r0. Qed.

Ltac common_law law :=
  intros;
  match goal with
  | Hc : common_call Tcp _ _ _ = _ |- _ => apply common_tcp_call in Hc as ([| |] & Hc & Hr); simplify_eq/=; try (by eapply law); exfalso; naive_solver
  | Hc : common_call Usb _ _ _ = _ |- _ => apply common_usb_call in Hc as ([| |] & Hc & Hr); simplify_eq/=; try (by eapply law); exfalso; naive_solver
  end.

#[export] Instance common_transport_laws (m : Medium) : TransportLaws (Common m T U) (TransportError E F).
Proof.
  destruct m.
  - refine (Build_TransportLaws _ _ (common_transport Tcp) (incoming (T := T)) (outgoing (T := T)) _ _ _ _ _ _ _); cbn [t_read t_write t_flush t_cancel read_cancel_safe common_transport].
    + common_law (t_read_ok (T := T)).
    + common_law (t_read_err (T := T)).
    + common_law (t_read_dropped (T := T)).
    + common_law (t_write_ok (T := T)).
    + common_law (t_write_other (T := T)).
    + common_law (t_flush_any (T := T)).
    + apply t_cancel_any.
  - refine (Build_TransportLaws _ _ (common_transport Usb) (incoming (T := U)) (outgoing (T := U)) _ _ _ _ _ _ _); cbn [t_read t_write t_flush t_cancel read_cancel_safe common_transport].
    + common_law (t_read_ok (T := U)).
    + common_law (t_read_err (T := U)).
    + common_law (t_read_dropped (T := U)).
    + common_law (t_write_ok (T := U)).
    + common_law (t_write_other (T := U)).
    + common_law (t_flush_any (T := U)).
    + apply t_cancel_any.
Qed.
End CommonLaws.

(** ** Witness: endpoints of packets of four bytes *)

Module UsbWitness.
Definition bus : Type := list bytes.

#[local] Instance bus_nusb : Nusb bus unit := {
  nusb_bulk_in _ _ h := (IoOk [], h);
  nusb_bulk_out _ b h := (IoOk tt, h ++ packets_of 4 b);
  nusb_cancel h := h;
  nusb_disconnected _ := false;
}.

#[local] Instance bus_rusb : Rusb bus unit := {
  read_bulk _ _ h := (Ok [], h);
  write_bulk _ b h := (Ok (len b), h ++ packets_of 4 b);
  rusb_no_device _ := false;
}.

#[local] Instance bus_blocking : Blocking bus := {
  run_blocking A f h := let '(a, h) := f h in (IoOk a, h);
  abandon h := h;
}.

#[local] Instance bus_nusb_laws : NusbLaws bus unit 4.
Proof. refine (Build_NusbLaws _ _ _ _ (λ _ h, h) _). by intros ep b h h' [= <-]. Defined.

#[local] Instance bus_rusb_laws : RusbLaws bus unit 4.
Proof.
  refine (Build_RusbLaws _ _ _ _ _ (λ _ h, h) _ _).
  - intros ep b h n h' [= <- <-]. pose proof (len_nonneg b). rewrite ztake_all by lia. split; [lia|done].
  - intros A f h a h'. cbn. destruct (f h) as [a0 h0]. by intros [= <- <-].
Defined.

Definition eps : BulkEndpoints := mkEndpoints 0x81 0x02 4.
Definition bufs : list bytes := [bs "OKAY"; []; bs "WRTE"; bs "payload"].
Definition sent : list bytes := [bs "OKAY"; []; bs "WRTE"; []; bs "payl"; bs "oad"].

(** Two headers of a packet each, an empty buffer and a payload. *)
Lemma writes_are_transfers_witness :
  write_each bufs (mkNusb [] eps) = Some (mkNusb sent eps) ∧
  transfers 4 sent = ([bs "OKAY"; bs "WRTE"; bs "payload"], []).
Proof.
  split; [reflexivity|].
  exact (proj1 (writes_are_transfers (H := bus) (L := unit) (H' := bus) (L' := unit) 4 bufs eq_refl)
    (mkNusb [] eps) (mkNusb sent eps) eq_refl eq_refl eq_refl).
Defined.
End UsbWitness.
