(* ===== verification/KeyStore.v ===== *)
(** * The key directory ([keys/store.rs])

    [adbkey] and [adbkey.pub] in a directory that threads and processes share.
    Every call to the file system is a step of a task (Task), before which the
    process may die ([Dropped]) and which may fail.  Files are inodes with names,
    so that a hard link is a second name and a write goes on into the file
    whatever became of its name.

    [identity_kept] is what the temporary files, links and renames are for: the
    private key is written once, whole, and is the same for everybody. *)

From stdpp Require Import countable gmap relations.
From S2P Require Import Prelude Errors Protocol Text Keys Task.

(** The files of the directory.  [write_temp] names its files
    [.{name}.{pid}.{seq}.tmp], which is never one of the other two names and says
    the three it is made of. *)
Inductive FileName : Type :=
| PRIVATE_KEY_FILE
| PUBLIC_KEY_FILE
| TempFile (public : bool) (pid seq : Z).

#[export] Instance FileName_eq_dec : EqDecision FileName.
Proof. solve_decision. Defined.

#[export] Instance FileName_countable : Countable FileName.
Proof.
  refine (inj_countable'
    (λ n, match n with PRIVATE_KEY_FILE => inl false | PUBLIC_KEY_FILE => inl true | TempFile b p q => inr (b, p, q) end)
    (λ x, match x with inl false => PRIVATE_KEY_FILE | inl true => PUBLIC_KEY_FILE | inr (b, p, q) => TempFile b p q end) _).
  by intros [].
Defined.

#[export] Instance byte_countable : Countable byte := inj_countable Byte.to_N Byte.of_N Byte.of_to_N.

(** [io::ErrorKind], where the code looks at it. *)
Inductive IoError : Type := NotFound | AlreadyExists | OtherIo.

Record file : Type := mkFile { content : bytes; mode : Z }.

Record fs : Type := mkFs {
  f_names : gmap FileName nat;
  f_inodes : gmap nat file;
  (** An inode nobody uses. *)
  f_next : nat;
  (** Directories, by their components, and their modes. *)
  f_dirs : gmap (list bytes) Z;
  (** What [NEXT] of a process has counted. *)
  f_seq : gmap Z Z;
}.

Module StoreError.
Inductive StoreError (L : Type) : Type :=
| Io (path : FileName + list bytes) (source : IoError)
| Malformed (path : FileName) (source : KeyError + L)
| NotAKeyFile (path : FileName)
| Key (e : KeyError + L).
Arguments Io {L} path source.
Arguments Malformed {L} path source.
Arguments NotAKeyFile {L} path.
Arguments Key {L} e.
End StoreError.
Abbreviation StoreError := StoreError.StoreError.

(** The rsa crate, on private keys [K] with errors [L]. *)
Class Rsa (K L : Type) : Type := {
  rsa_public : K → RsaPublicKey;
  (** [RsaPrivateKey::new], from what the generator gives. *)
  rsa_new : nat → result L K;
  rsa_from_pkcs8_pem : bytes → result L K;
  rsa_from_pkcs1_pem : bytes → result L K;
  rsa_to_pkcs8_pem : K → result L bytes;
  rsa_from_pkcs8_der : bytes → result L K;
  rsa_to_pkcs8_der : K → result L bytes;
}.

(** [AdbKey]: the private key and the public line with its NUL. *)
Record AdbKey (K : Type) : Type := mkAdbKey { ak_key : K; ak_wire : bytes }.
Arguments mkAdbKey {K}.
Arguments ak_key {K}.
Arguments ak_wire {K}.

(** ** The file system *)

Section Fs.
Context (umask : Z).

Definition set_names (m : gmap FileName nat) (s : fs) : fs :=
  mkFs m (f_inodes s) (f_next s) (f_dirs s) (f_seq s).
Definition set_inodes (m : gmap nat file) (s : fs) : fs :=
  mkFs (f_names s) m (f_next s) (f_dirs s) (f_seq s).
Definition set_dirs (m : gmap (list bytes) Z) (s : fs) : fs :=
  mkFs (f_names s) (f_inodes s) (f_next s) m (f_seq s).

(** Each call takes what the environment decides: 0 is a failure that says
    nothing. *)
Definition fs_open (p : FileName) (n : nat) (s : fs) : result IoError unit * fs :=
  match n with
  | O => (Err OtherIo, s)
  | S _ => (if decide (is_Some (f_names s !! p)) then Ok tt else Err NotFound, s)
  end.

Definition fs_exists (p : FileName) (n : nat) (s : fs) : bool * fs :=
  match n with
  | O => (false, s)
  | S _ => (bool_decide (is_Some (f_names s !! p)), s)
  end.

Definition fs_read (p : FileName) (n : nat) (s : fs) : result IoError bytes * fs :=
  match n with
  | O => (Err OtherIo, s)
  | S _ => (match f_names s !! p ≫= (f_inodes s !!.) with Some f => Ok (content f) | None => Err NotFound end, s)
  end.

(** [create_new], with a mode the umask cuts. *)
Definition fs_create_new (p : FileName) (m : Z) (n : nat) (s : fs) : result IoError nat * fs :=
  match n with
  | O => (Err OtherIo, s)
  | S _ =>
      if decide (is_Some (f_names s !! p)) then (Err AlreadyExists, s)
      else (Ok (f_next s),
            mkFs (<[p := f_next s]> (f_names s)) (<[f_next s := mkFile [] (Z.land m (Z.lnot umask))]> (f_inodes s))
              (S (f_next s)) (f_dirs s) (f_seq s))
  end.

Definition fs_set_mode (i : nat) (m : Z) (n : nat) (s : fs) : result IoError unit * fs :=
  match n with
  | O => (Err OtherIo, s)
  | S _ => (Ok tt, set_inodes (alter (λ f, mkFile (content f) m) i (f_inodes s)) s)
  end.

(** [File::write]: how much it took, which is something. *)
Definition fs_write (i : nat) (b : bytes) (n : nat) (s : fs) : result IoError nat * fs :=
  match n with
  | O => (Err OtherIo, s)
  | S k =>
      let took := Nat.min (S k) (length b) in
      (Ok took, set_inodes (alter (λ f, mkFile (content f ++ take took b) (mode f)) i (f_inodes s)) s)
  end.

Definition fs_sync (n : nat) (s : fs) : result IoError unit * fs :=
  (match n with O => Err OtherIo | S _ => Ok tt end, s).

Definition fs_hard_link (p q : FileName) (n : nat) (s : fs) : result IoError unit * fs :=
  match n with
  | O => (Err OtherIo, s)
  | S _ =>
      if decide (is_Some (f_names s !! q)) then (Err AlreadyExists, s)
      else match f_names s !! p with
           | Some i => (Ok tt, set_names (<[q := i]> (f_names s)) s)
           | None => (Err NotFound, s)
           end
  end.

Definition fs_rename (p q : FileName) (n : nat) (s : fs) : result IoError unit * fs :=
  match n with
  | O => (Err OtherIo, s)
  | S _ =>
      match f_names s !! p with
      | Some i => (Ok tt, set_names (<[q := i]> (delete p (f_names s))) s)
      | None => (Err NotFound, s)
      end
  end.

Definition fs_remove (p : FileName) (n : nat) (s : fs) : result IoError unit * fs :=
  match n with
  | O => (Err OtherIo, s)
  | S _ =>
      match f_names s !! p with
      | Some _ => (Ok tt, set_names (delete p (f_names s)) s)
      | None => (Err NotFound, s)
      end
  end.

Definition fs_create_dir (p : list bytes) (m : Z) (n : nat) (s : fs) : result IoError unit * fs :=
  match n with
  | O => (Err OtherIo, s)
  | S _ =>
      if decide (is_Some (f_dirs s !! p)) then (Err AlreadyExists, s)
      else (Ok tt, set_dirs (<[p := Z.land m (Z.lnot umask)]> (f_dirs s)) s)
  end.

Definition fs_dir_mode (p : list bytes) (n : nat) (s : fs) : result IoError Z * fs :=
  match n with
  | O => (Err OtherIo, s)
  | S _ => (match f_dirs s !! p with Some m => Ok m | None => Err NotFound end, s)
  end.

Definition fs_set_dir_mode (p : list bytes) (m : Z) (n : nat) (s : fs) : result IoError unit * fs :=
  match n with
  | O => (Err OtherIo, s)
  | S _ => (Ok tt, set_dirs (alter (λ _, m) p (f_dirs s)) s)
  end.

(** [NEXT.fetch_add(1)] of a process. *)
Definition next_seq (pid : Z) (n : nat) (s : fs) : Z * fs :=
  let seq := default 0 (f_seq s !! pid) in
  (wrap_u32 seq, mkFs (f_names s) (f_inodes s) (f_next s) (f_dirs s) (<[pid := seq + 1]> (f_seq s))).
End Fs.

(** ** [store.rs] *)

Section Store.
Context {K L : Type} `{Rsa K L} (encode_string : bytes → bytes) (umask : Z).
Abbreviation call := (task fs (StoreError L)).

(** A call to the system; the process may die before it. *)
Definition sys {A} (f : nat → fs → A * fs) : call A :=
  TStep (Some (TDone Dropped)) (λ n s, let '(a, s') := f n s in Some (TDone (Ret a), s')).

(** [AdbKey::from_private_key]. *)
Definition adb_key (key : K) (name : bytes) : result (KeyError + L) (AdbKey K) :=
  wire ← map_err inl (from_private_key encode_string (rsa_public key) name);
  Ok (mkAdbKey key wire).

(** The keys that are brought, and taken out again. *)
Definition from_pkcs8_pem (pem name : bytes) : result (KeyError + L) (AdbKey K) :=
  key ← map_err inr (rsa_from_pkcs8_pem pem); adb_key key name.

Definition from_pkcs1_pem (pem name : bytes) : result (KeyError + L) (AdbKey K) :=
  key ← map_err inr (rsa_from_pkcs1_pem pem); adb_key key name.

Definition from_pkcs8_der (der name : bytes) : result (KeyError + L) (AdbKey K) :=
  key ← map_err inr (rsa_from_pkcs8_der der); adb_key key name.

Definition to_pkcs8_pem (key : AdbKey K) : result (KeyError + L) bytes := map_err inr (rsa_to_pkcs8_pem (ak_key key)).
Definition to_pkcs8_der (key : AdbKey K) : result (KeyError + L) bytes := map_err inr (rsa_to_pkcs8_der (ak_key key)).

(** [parse]. *)
Definition parse_private (pem : bytes) : result (KeyError + L) K :=
  map_err inr (match split_once_str (bs "BEGIN RSA PRIVATE KEY") pem with
               | Some _ => rsa_from_pkcs1_pem pem
               | None => rsa_from_pkcs8_pem pem
               end).

Definition parse_key (pem name : bytes) : result (KeyError + L) (AdbKey K) :=
  key ← parse_private pem; adb_key key name.

(** Modes are 0600, 0644, 0750, 0777 and 0700. *)
Definition mode_for (private : bool) : Z := if private then 0x180 else 0x1A4.

(** [write_all]. *)
Fixpoint write_rest (fuel i : nat) (b : bytes) : call (result IoError unit) :=
  match b, fuel with
  | [], _ => mret (Ok tt)
  | _, O => no_fuel
  | _, S fuel =>
      wrote ← sys (fs_write i b);
      match wrote with
      | Ok n => write_rest fuel i (drop n b)
      | Err e => mret (Err e)
      end
  end.

(** [create], and the bytes: the errors of both come out alike. *)
Definition create (p : FileName) (private : bool) : call (result IoError nat) :=
  opened ← sys (fs_create_new umask p (mode_for private));
  match opened with
  | Err e => mret (Err e)
  | Ok i =>
      set ← sys (fs_set_mode i (mode_for private));
      mret (match set with Ok _ => Ok i | Err e => Err e end)
  end.

Definition create_filled (p : FileName) (b : bytes) (private : bool) : call (result IoError unit) :=
  created ← create p private;
  match created with
  | Err e => mret (Err e)
  | Ok i =>
      written ← write_rest (length b) i b;
      match written with
      | Err e => mret (Err e)
      | Ok _ => sys fs_sync
      end
  end.

(** [write_temp], with the rounds of its loop. *)
Fixpoint temp_rounds (rounds : nat) (pid : Z) (public : bool) (b : bytes) (private : bool) (last : option IoError) :
    call FileName :=
  match rounds with
  | O => tfail (StoreError.Io (inl (if public then PUBLIC_KEY_FILE else PRIVATE_KEY_FILE)) (default OtherIo last))
  | S rounds =>
      seq ← sys (next_seq pid);
      let tmp := TempFile public pid seq in
      made ← create_filled tmp b private;
      match made with
      | Ok _ => mret tmp
      | Err AlreadyExists => temp_rounds rounds pid public b private (Some AlreadyExists)
      | Err e => sys (fs_remove tmp) ≫= λ _, tfail (StoreError.Io (inl tmp) e)
      end
  end.

Definition write_temp (pid : Z) (public : bool) (b : bytes) (private : bool) : call FileName :=
  temp_rounds 16 pid public b private None.

(** [publish_new]: whether this call's key is the one. *)
Definition publish_new (pid : Z) (b : bytes) : call bool :=
  tmp ← write_temp pid false b true;
  linked ← sys (fs_hard_link tmp PRIVATE_KEY_FILE);
  match linked with
  | Ok _ => sys (fs_remove tmp) ≫= λ _, mret true
  | Err AlreadyExists => sys (fs_remove tmp) ≫= λ _, mret false
  | Err e => sys (fs_remove tmp) ≫= λ _, tfail (StoreError.Io (inl PRIVATE_KEY_FILE) e)
  end.

(** [install], which only ever writes the public key. *)
Definition install (pid : Z) (b : bytes) (private : bool) : call unit :=
  tmp ← write_temp pid true b private;
  renamed ← sys (fs_rename tmp PUBLIC_KEY_FILE);
  match renamed with
  | Ok _ => mret tt
  | Err e => sys (fs_remove tmp) ≫= λ _, tfail (StoreError.Io (inl PUBLIC_KEY_FILE) e)
  end.

Definition write_public_key (pid : Z) (key : AdbKey K) : call unit :=
  install pid (public_key_line (ak_wire key)) false.

Definition ensure_public_key (pid : Z) (key : AdbKey K) : call unit :=
  there ← sys (fs_exists PUBLIC_KEY_FILE);
  if (there : bool) then mret tt else write_public_key pid key.

Definition load (name : bytes) : call (AdbKey K) :=
  r ← sys (fs_read PRIVATE_KEY_FILE);
  match r with
  | Err e => tfail (StoreError.Io (inl PRIVATE_KEY_FILE) e)
  | Ok b =>
      if negb (from_utf8 b) then tfail (StoreError.NotAKeyFile PRIVATE_KEY_FILE)
      else match parse_key b name with
           | Ok key => mret key
           | Err e => tfail (StoreError.Malformed PRIVATE_KEY_FILE e)
           end
  end.

Definition adopt (pid : Z) (name : bytes) : call (AdbKey K) :=
  key ← load name;
  ensure_public_key pid key ≫= λ _, mret key.

(** [create_one] and [create_dir]. *)
Definition create_one (p : list bytes) : call (result IoError unit) :=
  made ← sys (fs_create_dir umask p 0x1E8);
  match made with
  | Err e => mret (Err e)
  | Ok _ =>
      m ← sys (fs_dir_mode p);
      match m with
      | Err e => mret (Err e)
      | Ok m =>
          let m := Z.land m 0x1FF in
          if negb (Z.land m 0x1C0 =? 0x1C0) then sys (fs_set_dir_mode p (Z.lor m 0x1C0)) else mret (Ok tt)
      end
  end.

Fixpoint create_dir (path components : list bytes) : call unit :=
  match components with
  | [] => mret tt
  | component :: components =>
      let path := path ++ [component] in
      made ← create_one path;
      match made with
      | Ok _ | Err AlreadyExists => create_dir path components
      | Err e => tfail (StoreError.Io (inr path) e)
      end
  end.

Definition store_error {A} (r : result (KeyError + L) A) : call A :=
  match r with Ok a => mret a | Err e => tfail (StoreError.Key e) end.

(** [AdbKey::generate] with what the generator gives, and [to_pkcs8_pem]. *)
Definition generate (random : nat) (name : bytes) : result (KeyError + L) (AdbKey K) :=
  key ← map_err inr (rsa_new random); adb_key key name.

Definition generate_into (pid : Z) (dir : list bytes) (random : nat) (name : bytes) : call (AdbKey K) :=
  create_dir [] dir ≫= λ _,
  key ← store_error (generate random name);
  pem ← store_error (map_err inr (rsa_to_pkcs8_pem (ak_key key)));
  published ← publish_new pid pem;
  if (published : bool) then write_public_key pid key ≫= λ _, mret key
  else adopt pid name.

Definition load_or_generate (pid : Z) (dir : list bytes) (random : nat) (name : bytes) : call (AdbKey K) :=
  opened ← sys (fs_open PRIVATE_KEY_FILE);
  match opened with
  | Ok _ => adopt pid name
  | Err NotFound => generate_into pid dir random name
  | Err e => tfail (StoreError.Io (inl PRIVATE_KEY_FILE) e)
  end.
End Store.

(** ** Who may touch what *)

(** PKCS#8 is read back as it was written, and is ASCII of another label than
    PKCS#1. *)
Class RsaLaws (K L : Type) `{Rsa K L} : Prop := {
  pkcs8_reads k pem : rsa_to_pkcs8_pem k = Ok pem →
    rsa_from_pkcs8_pem pem = Ok k ∧ from_utf8 pem = true ∧ split_once_str (bs "BEGIN RSA PRIVATE KEY") pem = None;
  der_reads k der : rsa_to_pkcs8_der k = Ok der → rsa_from_pkcs8_der der = Ok k;
}.

Section Identity.
Context {K L : Type} `{RsaLaws K L} (encode_string : bytes → bytes) (umask : Z).
Abbreviation call := (task fs (StoreError L)).
Implicit Types s : fs.

(** The files as they were at the start. *)
Context (key0 pub0 : option file).

Definition file_at (p : FileName) s : option file := f_names s !! p ≫= (f_inodes s !!.).
Definition key_content s : option bytes := content <$> file_at PRIVATE_KEY_FILE s.

(** The temporary names of a process, and those it has given out. *)
Definition given (n : FileName) s : Prop :=
  match n with TempFile _ pid seq => seq < default 0 (f_seq s !! pid) | _ => False end.

(** An inode with one name. *)
Definition sole (n : FileName) (i : nat) s : Prop :=
  f_names s !! n = Some i ∧ ∀ n', f_names s !! n' = Some i → n' = n.

(** What a call owns: a temporary name; the file it has under one, which it may
    write; that the private key is [pem]. *)
Inductive token : Type :=
| Name (n : FileName)
| Owns (n : FileName) (i : nat) (f : file)
| Knows (pem : bytes).

Definition token_name (t : token) : list FileName :=
  match t with Name n | Owns n _ _ => [n] | Knows _ => [] end.

Definition token_ok s (t : token) : Prop :=
  match t with
  | Name n => given n s
  | Owns n i f => given n s ∧ sole n i s ∧ f_inodes s !! i = Some f
  | Knows pem => key_content s = Some pem
  end.

(** A private key file of this library: whole, and its owner's alone. *)
Definition key_made (f : file) : Prop :=
  mode f = mode_for true ∧ ∃ k, rsa_to_pkcs8_pem k = Ok (content f).

(** A public key file made for the private key [pem]. *)
Definition pub_made (pem : bytes) (f : file) : Prop :=
  ∃ k name wire, parse_private pem = Ok k ∧ from_private_key encode_string (rsa_public k) name = Ok wire ∧
    content f = public_key_line wire.

Record core s : Prop := mkCore {
  co_fresh n i : f_names s !! n = Some i → (i < f_next s)%nat;
  co_inode n i : f_names s !! n = Some i → is_Some (f_inodes s !! i);
  co_key0 f : key0 = Some f → file_at PRIVATE_KEY_FILE s = Some f;
  co_key f : key0 = None → file_at PRIVATE_KEY_FILE s = Some f → key_made f;
  co_pub f : file_at PUBLIC_KEY_FILE s = Some f →
    pub0 = Some f ∨ ∃ pem, key_content s = Some pem ∧ pub_made pem f;
}.

Definition Inv s (toks : list token) : Prop :=
  core s ∧ NoDup (toks ≫= token_name) ∧ Forall (token_ok s) toks.

#[export] Instance store_inv_proper : Proper ((=) ==> (≡ₚ) ==> iff) Inv.
Proof. intros s _ <- l l' Hl. unfold Inv. by rewrite Hl. Qed.

(** A step that has only [n0] of the temporary names, and its file. *)
Record within (n0 : FileName) s s' : Prop := mkWithin {
  wi_given n : given n s → given n s';
  wi_next : (f_next s <= f_next s')%nat;
  wi_names n i : f_names s' !! n = Some i → f_names s !! n = Some i ∨ f_names s !! n0 = Some i ∨ (f_next s <= i)%nat;
  wi_temps n : given n s → n ≠ n0 → f_names s' !! n = f_names s !! n;
  wi_inodes i : (i < f_next s)%nat → f_inodes s' !! i = f_inodes s !! i ∨ sole n0 i s;
  wi_key pem : key_content s = Some pem → key_content s' = Some pem;
}.

Lemma token_within n0 s s' t :
  core s → within n0 s s' → n0 ∉ token_name t → token_ok s t → token_ok s' t.
Proof.
  intros Hc Hw Hn. destruct t as [n|n i f|pem]; cbn [token_ok].
  - apply (wi_given _ _ _ Hw).
  - intros (Hg & [Hni Hsole] & Hi). cbn in Hn. assert (n ≠ n0) as Hne by set_solver. split_and!.
    + by apply (wi_given _ _ _ Hw).
    + split; [by rewrite (wi_temps _ _ _ Hw)|]. intros n' Hn'.
      destruct (wi_names _ _ _ Hw _ _ Hn') as [H1|[H1|H1]]; [by apply Hsole|by apply Hsole in H1|].
      apply (co_fresh _ Hc) in Hni. lia.
    + destruct (wi_inodes _ _ _ Hw i) as [->|[H1 _]]; [by apply (co_fresh _ Hc) in Hni|done|]. by apply Hsole in H1.
  - apply (wi_key _ _ _ Hw).
Qed.

(** A step with the tokens [toks], which become [toks'] and leave all else. *)
Lemma store_inv_step n0 s s' toks toks' fr :
  Inv s (toks ++ fr) → n0 ∈ (toks ≫= token_name) →
  within n0 s s' → core s' → Forall (token_ok s') toks' →
  NoDup (toks' ≫= token_name) → (∀ n, n ∈ (toks' ≫= token_name) → n ∈ (toks ≫= token_name)) →
  Inv s' (toks' ++ fr).
Proof.
  intros (Hc & Hn & Ht) Hn0 Hw Hc' Ht' Hnd Hsub. rewrite bind_app in Hn. apply NoDup_app in Hn as (Hn1 & Hd & Hn2).
  apply Forall_app in Ht as [_ Htf]. split_and!; [done| |].
  - rewrite bind_app. apply NoDup_app. split_and!; [done| |done]. intros n Hin. by apply Hd, Hsub.
  - apply Forall_app. split; [done|]. apply Forall_forall. intros t Hin. apply (token_within n0 s); [done|done| |].
    + intros Hbad. apply (Hd _ Hn0). apply list_elem_of_bind. eauto.
    + rewrite Forall_forall in Htf. by apply Htf.
Qed.

(** Fewer than 2^32 temporary names of a process. *)
Definition few s : Prop := ∀ pid seq, f_seq s !! pid = Some seq → 0 <= seq <= U32_MAX.

Abbreviation safely := (safe (E := StoreError L) Inv few (λ (_ : fs) (_ _ : list token), False)).

Lemma safe_sys {A} (f : nat → fs → A * fs) (Q : outcome (StoreError L) A → list token → Prop) toks :
  Q Dropped toks →
  (∀ n s fr, few s → Inv s (toks ++ fr) → ∃ toks', Inv (snd (f n s)) (toks' ++ fr) ∧ Q (Ret (fst (f n s))) toks') →
  safely (sys f) Q toks.
Proof.
  intros HD Hf. split_and!; [done| |].
  - intros n s fr Hb Hi. specialize (Hf n s fr Hb Hi). destruct (f n s) as [a s']. by intros _.
  - intros s fr _ _. left. exists 0%nat. by destruct (f 0%nat s).
Qed.

(** A system call that reads, or is about directories. *)
Lemma quiet_safe {A} (f : nat → fs → A * fs) (Q : outcome (StoreError L) A → list token → Prop) toks :
  (∀ n s, let s' := snd (f n s) in
    f_names s' = f_names s ∧ f_inodes s' = f_inodes s ∧ f_next s' = f_next s ∧ f_seq s' = f_seq s) →
  Q Dropped toks → (∀ n s, Q (Ret (fst (f n s))) toks) → safely (sys f) Q toks.
Proof.
  intros Hf HD HQ. apply safe_sys; [done|]. intros n s fr _ Hi. exists toks. split; [|apply HQ].
  specialize (Hf n s). destruct (f n s) as [a [nm ino nx dr sq]]. cbn in *. destruct Hf as (-> & -> & -> & ->).
  destruct s, Hi as ([Hc1 Hc2 Hc3 Hc4 Hc5] & Hn & Ht). split_and!; [by split|done|done].
Qed.

Lemma read_safe (Q : outcome (StoreError L) (result IoError bytes) → list token → Prop) :
  Q Dropped [] → (∀ e, Q (Ret (Err e)) []) → (∀ b, Q (Ret (Ok b)) [Knows b]) →
  safely (sys (fs_read PRIVATE_KEY_FILE)) Q [].
Proof.
  intros HD HE HQ. apply safe_sys; [done|]. intros n s fr _ Hi. unfold fs_read. destruct n; [exists []; split; [done|apply HE]|].
  cbn [fst snd]. destruct (f_names s !! PRIVATE_KEY_FILE ≫= (f_inodes s !!.)) as [f|] eqn:Hf; [|exists []; split; [done|apply HE]].
  exists [Knows (content f)]. split; [|apply HQ]. destruct Hi as (Hc & Hn & Ht). split_and!; [done|done|].
  constructor; [|done]. cbn. unfold key_content, file_at. by rewrite Hf.
Qed.

Lemma next_seq_safe public pid (Q : outcome (StoreError L) Z → list token → Prop) :
  Q Dropped [] → (∀ seq, Q (Ret seq) [Name (TempFile public pid seq)]) → safely (sys (next_seq pid)) Q [].
Proof.
  intros HD HQ. apply safe_sys; [done|]. intros n s fr Hb (Hc & Hn & Ht). eexists. split; [|apply HQ].
  unfold next_seq. cbn [fst snd]. set (seq := default 0 (f_seq s !! pid)). set (s' := mkFs _ _ _ _ _).
  assert (wrap_u32 seq = seq) as ->.
  { unfold seq. destruct (f_seq s !! pid) as [q|] eqn:Hq; [|done]. cbn. pose proof (Hb _ _ Hq). unfold U32_MAX in *. apply Z.mod_small. lia. }
  assert (∀ n, given n s → given n s') as Hg.
  { intros [| |b p q]; [done..|]. cbn. rewrite lookup_insert. case_decide; subst; cbn; fold seq; lia. }
  split_and!.
  - destruct s, Hc. by split.
  - cbn. constructor; [|done]. intros Hin. apply list_elem_of_bind in Hin as (t & Hin & Htin).
    rewrite Forall_forall in Ht. specialize (Ht t Htin).
    assert (given (TempFile public pid seq) s) as Hbad.
    { destruct t as [m|m i f|pem]; cbn in *; [..|by apply elem_of_nil in Hin]; apply list_elem_of_singleton in Hin; subst m;
        [done|by destruct Ht]. }
    cbn in Hbad. fold seq in Hbad. lia.
  - constructor; [cbn; rewrite lookup_insert_eq; cbn; lia|]. eapply Forall_impl; [exact Ht|].
    intros [m|m i f|pem]; cbn [token_ok]; [apply Hg| |done]. intros (Hgv & Hs & Hi). split_and!; [by apply Hg|done|done].
Qed.
(** ** Steps on a temporary file *)

Lemma core_same s s' :
  core s → (∀ n i, f_names s' !! n = Some i → (i < f_next s')%nat ∧ is_Some (f_inodes s' !! i)) →
  file_at PRIVATE_KEY_FILE s' = file_at PRIVATE_KEY_FILE s → file_at PUBLIC_KEY_FILE s' = file_at PUBLIC_KEY_FILE s →
  core s'.
Proof.
  intros [Hc1 Hc2 Hc3 Hc4 Hc5] Hn Hk Hp. split.
  - intros n i Hi. by apply Hn in Hi as [? _].
  - intros n i Hi. by apply Hn in Hi as [_ ?].
  - intros f. rewrite Hk. apply Hc3.
  - intros f. rewrite Hk. apply Hc4.
  - intros f. unfold key_content. rewrite Hp, Hk. apply Hc5.
Qed.

Lemma given_temp n s : given n s → n ≠ PRIVATE_KEY_FILE ∧ n ≠ PUBLIC_KEY_FILE.
Proof. by destruct n. Qed.

Lemma own_head s t fr : Inv s (t :: fr) → core s ∧ token_ok s t.
Proof. intros (Hc & _ & Ht). by inversion Ht. Qed.

Lemma inv_forget s t fr : Inv s (t :: fr) → Inv s fr.
Proof.
  intros (Hc & Hn & Ht). split_and!; [done| |by inversion Ht]. cbn in Hn. by apply NoDup_app in Hn as (_ & _ & ?).
Qed.

Lemma create_new_safe n m (Q : outcome (StoreError L) (result IoError nat) → list token → Prop) :
  Q Dropped [Name n] → Q (Ret (Err OtherIo)) [Name n] → Q (Ret (Err AlreadyExists)) [] →
  (∀ i, Q (Ret (Ok i)) [Owns n i (mkFile [] (Z.land m (Z.lnot umask)))]) →
  safely (sys (fs_create_new umask n m)) Q [Name n].
Proof.
  intros HD HE HA HQ. apply safe_sys; [done|]. intros k s fr _ Hi. unfold fs_create_new.
  destruct k; [by exists [Name n]|].
  destruct (decide _) as [|Hno%eq_None_not_Some]; [exists []; split; [by eapply inv_forget|done]|].
  cbn [fst snd]. eexists. split; [|apply HQ]. destruct (own_head _ _ _ Hi) as [Hc Hg]. cbn in Hg.
  set (s' := mkFs _ _ _ _ _). destruct (given_temp _ _ Hg) as [Hk Hp].
  assert (∀ p, p ≠ n → file_at p s' = file_at p s) as Hfile.
  { intros p Hpn. unfold file_at, s'. cbn. rewrite lookup_insert_ne by done. destruct (f_names s !! p) as [i|] eqn:Hi'; [|done].
    cbn. apply (co_fresh _ Hc) in Hi'. by rewrite lookup_insert_ne by lia. }
  assert (∀ p i, f_names s' !! p = Some i → p = n ∧ i = f_next s ∨ f_names s !! p = Some i) as Hnames.
  { intros p i. cbn. rewrite lookup_insert. case_decide as E; [intros [= <-]; by left|by right]. }
  eapply (store_inv_step n s s' [Name n]); [exact Hi|by left| | | | |].
  - split; [done|cbn; lia| |by intros p _ Hpn; cbn; rewrite lookup_insert_ne| |].
    + intros p i Hpi. destruct (Hnames _ _ Hpi) as [[_ ->]|]; [right; right; lia|by left].
    + intros i Hi'. left. cbn. by rewrite lookup_insert_ne by lia.
    + intros pem. unfold key_content. by rewrite Hfile.
  - eapply core_same; [done| |by apply Hfile..]. intros p i Hpi. destruct (Hnames _ _ Hpi) as [[_ ->]|Hpi'].
    + cbn. split; [lia|]. by rewrite lookup_insert_eq.
    + cbn. pose proof (co_fresh _ Hc _ _ Hpi'). split; [lia|]. rewrite lookup_insert_ne by lia. by apply (co_inode _ Hc) in Hpi'.
  - constructor; [|done]. cbn. split_and!; [done| |by rewrite lookup_insert_eq]. split; [apply lookup_insert_eq|].
    intros p Hpi. destruct (Hnames _ _ Hpi) as [[-> _]|Hpi']; [done|]. apply (co_fresh _ Hc) in Hpi'. lia.
  - apply NoDup_singleton.
  - done.
Qed.

(** The owner of a file changes it. *)
Lemma alter_inv n i f g s fr :
  Inv s ([Owns n i f] ++ fr) → Inv (set_inodes (alter g i (f_inodes s)) s) ([Owns n i (g f)] ++ fr).
Proof.
  intros Hi. destruct (own_head _ _ _ Hi) as [Hc (Hg & [Hni Hsole] & Hf)]. destruct (given_temp _ _ Hg) as [Hk Hp].
  set (s' := set_inodes _ s).
  assert (∀ p, p ≠ n → file_at p s' = file_at p s) as Hfile.
  { intros p Hpn. unfold file_at, s'. cbn. destruct (f_names s !! p) as [j|] eqn:Hj; [|done]. cbn.
    rewrite lookup_alter_ne; [done|]. intros <-. by apply Hpn, Hsole. }
  eapply (store_inv_step n s s' [Owns n i f]); [exact Hi|by left| | | | |].
  - split; [done|done|by left|done| |].
    + intros j _. cbn. destruct (decide (j = i)) as [->|Hne]; [by right|left]. by rewrite lookup_alter_ne.
    + intros pem. unfold key_content. by rewrite Hfile.
  - eapply core_same; [done| |by apply Hfile..]. intros p j Hpj. split; [by apply (co_fresh _ Hc) in Hpj|].
    apply (co_inode _ Hc) in Hpj. cbn. destruct (decide (j = i)) as [->|Hne]; [rewrite lookup_alter_eq|by rewrite lookup_alter_ne].
    by rewrite fmap_is_Some.
  - constructor; [|done]. cbn. split_and!; [done|by split|]. by rewrite lookup_alter_eq, Hf.
  - apply NoDup_singleton.
  - done.
Qed.

Lemma set_mode_safe n i f m (Q : outcome (StoreError L) (result IoError unit) → list token → Prop) :
  Q Dropped [Owns n i f] → Q (Ret (Err OtherIo)) [Owns n i f] → Q (Ret (Ok tt)) [Owns n i (mkFile (content f) m)] →
  safely (sys (fs_set_mode i m)) Q [Owns n i f].
Proof.
  intros HD HE HQ. apply safe_sys; [done|]. intros k s fr _ Hi. unfold fs_set_mode.
  destruct k; [exists [Owns n i f]; by split|]. eexists. split; [|exact HQ]. cbn [snd].
  exact (alter_inv n i f (λ f, mkFile (content f) m) s fr Hi).
Qed.

Lemma write_safe n i f b (Q : outcome (StoreError L) (result IoError nat) → list token → Prop) :
  b ≠ [] → Q Dropped [Owns n i f] → Q (Ret (Err OtherIo)) [Owns n i f] →
  (∀ took, (0 < took <= length b)%nat → Q (Ret (Ok took)) [Owns n i (mkFile (content f ++ take took b) (mode f))]) →
  safely (sys (fs_write i b)) Q [Owns n i f].
Proof.
  intros Hb HD HE HQ. apply safe_sys; [done|]. intros k s fr _ Hi. unfold fs_write.
  destruct k; [exists [Owns n i f]; by split|]. cbn [fst snd]. eexists. split; [|apply HQ].
  - exact (alter_inv n i f (λ f, mkFile (content f ++ take (Nat.min (S k) (length b)) b) (mode f)) s fr Hi).
  - destruct b; [done|]. simpl. lia.
Qed.

(** Removing a name it owns, whatever is under it. *)
Lemma remove_safe n t (Q : outcome (StoreError L) (result IoError unit) → list token → Prop) :
  token_name t = [n] → Q Dropped [t] → (∀ r, Q (Ret r) []) → safely (sys (fs_remove n)) Q [t].
Proof.
  intros Ht HD HQ. apply safe_sys; [done|]. intros k s fr _ Hi. exists []. split; [|apply HQ].
  destruct (own_head _ _ _ Hi) as [Hc Hok].
  assert (given n s) as Hg by (destruct t; simplify_eq/=; [done|by destruct Hok]).
  destruct (given_temp _ _ Hg) as [Hk Hp].
  assert (∀ s', s' = s ∨ s' = set_names (delete n (f_names s)) s → Inv s' ([] ++ fr)) as Hs'.
  { intros s' Hs'. assert (∀ p, p ≠ n → file_at p s' = file_at p s) as Hfile.
    { intros p Hpn. destruct Hs' as [->| ->]; [done|]. unfold file_at. cbn. by rewrite lookup_delete_ne. }
    assert (∀ p i, f_names s' !! p = Some i → f_names s !! p = Some i) as Hnames.
    { intros p i. destruct Hs' as [->| ->]; [done|]. cbn. intros [_ ?]%lookup_delete_Some. done. }
    eapply (store_inv_step n s s' [t]); [exact Hi|cbn; rewrite Ht; by left| | | | |].
    - split; [by destruct Hs' as [->| ->]|by destruct Hs' as [->| ->]|by left; apply Hnames| | |].
      + intros p _ Hpn. destruct Hs' as [->| ->]; [done|]. cbn. by rewrite lookup_delete_ne.
      + intros i _. left. by destruct Hs' as [->| ->].
      + intros pem. unfold key_content. by rewrite Hfile.
    - eapply core_same; [done| |by apply Hfile..]. intros p i Hpi%Hnames.
      split; [apply (co_fresh _ Hc) in Hpi|apply (co_inode _ Hc) in Hpi]; by destruct Hs' as [->| ->].
    - done.
    - constructor.
    - intros p Hbad. by apply elem_of_nil in Hbad. }
  apply Hs'. unfold fs_remove. destruct k; [by left|]. destruct (f_names s !! n); [by right|by left].
Qed.
(** ** Publishing *)

Lemma hard_link_safe n i f (Q : outcome (StoreError L) (result IoError unit) → list token → Prop) :
  key_made f → Q Dropped [Owns n i f] → (∀ e, Q (Ret (Err e)) [Owns n i f]) →
  Q (Ret (Ok tt)) [Name n; Knows (content f)] →
  safely (sys (fs_hard_link n PRIVATE_KEY_FILE)) Q [Owns n i f].
Proof.
  intros Hmade HD HE HQ. apply safe_sys; [done|]. intros k s fr _ Hi. unfold fs_hard_link.
  destruct k; [exists [Owns n i f]; split; [done|apply HE]|].
  destruct (decide _) as [|Hno%eq_None_not_Some]; [exists [Owns n i f]; split; [done|apply HE]|].
  destruct (own_head _ _ _ Hi) as [Hc (Hg & [Hni Hsole] & Hf)]. rewrite Hni. eexists. split; [|exact HQ]. cbn [snd].
  destruct (given_temp _ _ Hg) as [Hk Hp]. set (s' := set_names _ s).
  assert (file_at PRIVATE_KEY_FILE s = None) as Hk0 by (unfold file_at; by rewrite Hno).
  assert (file_at PRIVATE_KEY_FILE s' = Some f) as Hk1 by (unfold file_at, s'; cbn; by rewrite lookup_insert_eq).
  assert (file_at PUBLIC_KEY_FILE s' = file_at PUBLIC_KEY_FILE s) as Hp1
    by (unfold file_at, s'; cbn; by rewrite lookup_insert_ne).
  eapply (store_inv_step n s s' [Owns n i f]); [exact Hi|by left| | | | |].
  - split; [done|done| | |by left|].
    + intros p j. cbn. rewrite lookup_insert. case_decide; [intros [= <-]; by right; left|by left].
    + intros p Hgp _. cbn. apply given_temp in Hgp as [? _]. by rewrite lookup_insert_ne.
    + intros pem. unfold key_content. by rewrite Hk0.
  - destruct Hc as [Hc1 Hc2 Hc3 Hc4 Hc5]. split.
    + intros p j. cbn. rewrite lookup_insert. case_decide; [intros [= <-]; by eapply Hc1|apply Hc1].
    + intros p j. cbn. rewrite lookup_insert. case_decide; [intros [= <-]; by eapply Hc2|apply Hc2].
    + intros f0 Hf0. apply Hc3 in Hf0. congruence.
    + intros f0 _. rewrite Hk1. by intros [= <-].
    + intros f0. rewrite Hp1. intros [|(pem & Hpem & _)]%Hc5; [by left|]. unfold key_content in Hpem. by rewrite Hk0 in Hpem.
  - constructor; [done|]. constructor; [|done]. cbn. unfold key_content. by rewrite Hk1.
  - apply NoDup_singleton.
  - done.
Qed.

Lemma rename_safe n i f pem (Q : outcome (StoreError L) (result IoError unit) → list token → Prop) :
  pub_made pem f → Q Dropped [Owns n i f; Knows pem] → (∀ e, Q (Ret (Err e)) [Owns n i f; Knows pem]) →
  Q (Ret (Ok tt)) [Knows pem] →
  safely (sys (fs_rename n PUBLIC_KEY_FILE)) Q [Owns n i f; Knows pem].
Proof.
  intros Hmade HD HE HQ. apply safe_sys; [done|]. intros k s fr _ Hi. unfold fs_rename.
  destruct k; [exists [Owns n i f; Knows pem]; split; [done|apply HE]|].
  destruct (own_head _ _ _ Hi) as [Hc (Hg & [Hni Hsole] & Hf)]. rewrite Hni. eexists. split; [|exact HQ]. cbn [snd].
  assert (key_content s = Some pem) as Hpem by (destruct Hi as (_ & _ & Ht); by inversion Ht as [|?? _ Ht']; inversion Ht').
  destruct (given_temp _ _ Hg) as [Hk Hp]. set (s' := set_names _ s).
  assert (file_at PRIVATE_KEY_FILE s' = file_at PRIVATE_KEY_FILE s) as Hk1
    by (unfold file_at, s'; cbn; by rewrite lookup_insert_ne, lookup_delete_ne).
  assert (file_at PUBLIC_KEY_FILE s' = Some f) as Hp1 by (unfold file_at, s'; cbn; by rewrite lookup_insert_eq).
  assert (key_content s' = Some pem) as Hpem' by (unfold key_content in *; by rewrite Hk1).
  assert (∀ p j, f_names s' !! p = Some j → j = i ∨ f_names s !! p = Some j) as Hnames.
  { intros p j. cbn. rewrite lookup_insert. case_decide; [intros [= <-]; by left|]. intros [_ ?]%lookup_delete_Some. by right. }
  eapply (store_inv_step n s s' [Owns n i f; Knows pem]); [exact Hi|by left| | | | |].
  - split; [done|done| | |by left|].
    + intros p j Hj. destruct (Hnames _ _ Hj) as [->|]; [by right; left|by left].
    + intros p Hgp Hpn. cbn. apply given_temp in Hgp as [_ ?]. by rewrite lookup_insert_ne, lookup_delete_ne.
    + intros pem'. unfold key_content. by rewrite Hk1.
  - destruct Hc as [Hc1 Hc2 Hc3 Hc4 Hc5]. split.
    + intros p j Hj. destruct (Hnames _ _ Hj) as [->|Hj']; [by eapply Hc1|by eapply Hc1].
    + intros p j Hj. destruct (Hnames _ _ Hj) as [->|Hj']; [by eapply Hc2|by eapply Hc2].
    + intros f0. rewrite Hk1. apply Hc3.
    + intros f0. rewrite Hk1. apply Hc4.
    + intros f0. rewrite Hp1. intros [= <-]. right. by exists pem.
  - by constructor.
  - constructor.
  - intros p Hbad. by apply elem_of_nil in Hbad.
Qed.

(** ** The calls *)

(** How a call that writes a temporary file ends: with the file it owns. *)
Definition temp_ends (f : file) (o : outcome (StoreError L) FileName) (toks : list token) : Prop :=
  match o with
  | Ret n => ∃ i, toks = [Owns n i f]
  | Fail _ | Dropped => True
  | Panicked | NoFuel => False
  end.

Lemma write_rest_safe fuel n i f b (Q : outcome (StoreError L) (result IoError unit) → list token → Prop) :
  (length b <= fuel)%nat → (∀ f, Q Dropped [Owns n i f]) → (∀ f, Q (Ret (Err OtherIo)) [Owns n i f]) →
  Q (Ret (Ok tt)) [Owns n i (mkFile (content f ++ b) (mode f))] →
  safely (write_rest fuel i b) Q [Owns n i f].
Proof.
  intros Hf HD HE. revert f b Hf. induction fuel as [|fuel IH]; intros f b Hf HQ.
  { destruct b; [|simpl in Hf; lia]. cbn. rewrite app_nil_r in HQ. by destruct f. }
  destruct b as [|x b0]; [cbn; rewrite app_nil_r in HQ; by destruct f|]. set (b := x :: b0) in *.
  change (write_rest (S fuel) i b) with (wrote ← sys (L := L) (fs_write i b);
    match wrote with Ok n => write_rest (L := L) fuel i (drop n b) | Err e => mret (Err e) end).
  apply safe_bind, write_safe; [done|apply HD|apply HE|]. intros took Ht. apply IH.
  - rewrite length_drop. lia.
  - cbn [content mode]. by rewrite <- app_assoc, take_drop.
Qed.

(** A file made, or a name it may clear up, or nothing. *)
Lemma create_filled_safe n b private (Q : outcome (StoreError L) (result IoError unit) → list token → Prop) :
  (∀ toks, Q Dropped toks) → Q (Ret (Err AlreadyExists)) [] →
  (∀ t, token_name t = [n] → Q (Ret (Err OtherIo)) [t]) →
  (∀ i, Q (Ret (Ok tt)) [Owns n i (mkFile b (mode_for private))]) →
  safely (create_filled umask n b private) Q [Name n].
Proof.
  intros HD HA HE HQ. unfold create_filled, create. apply safe_bind, safe_bind.
  apply create_new_safe; [apply HD|by apply HE|done|]. intros i.
  apply safe_bind, set_mode_safe; [apply HD|by apply HE|]. cbn [content].
  apply safe_bind, write_rest_safe; [done|intros; apply HD|intros; by apply HE|]. cbn [content mode app].
  apply quiet_safe; [done|apply HD|]. intros [|k] s; [by apply HE|apply HQ].
Qed.

Lemma temp_rounds_safe rounds pid public b private last :
  safely (temp_rounds umask rounds pid public b private last) (temp_ends (mkFile b (mode_for private))) [].
Proof.
  revert last. induction rounds as [|rounds IH]; intros last; [done|]. cbn [temp_rounds].
  apply safe_bind, (next_seq_safe public); [done|]. intros seq.
  apply safe_bind, create_filled_safe; [done|apply IH| |intros i; by exists i].
  intros t Ht. apply safe_bind, remove_safe; done.
Qed.

(** What is under way with a private key in hand keeps it. *)
Definition with_key {A} (P : A → Prop) (pem : bytes) (o : outcome (StoreError L) A) (toks : list token) : Prop :=
  match o with
  | Ret a => P a ∧ Knows pem ∈ toks
  | Fail _ | Dropped => True
  | Panicked | NoFuel => False
  end.

(** Beside what a call is given, another token stays. *)
Lemma framed {A} (t : call A) Q toks extra :
  safely t Q toks → safely t (λ o x, ∃ y, x = y ++ extra ∧ Q o y) (toks ++ extra).
Proof. by apply safe_frame. Qed.

(** Clearing up before a failure. *)
Lemma clear_up_safe {A} n t extra (e : StoreError L) (Q : outcome (StoreError L) A → list token → Prop) :
  token_name t = [n] → (∀ toks, Q Dropped toks) → (∀ toks, Q (Fail e) toks) →
  safely (sys (fs_remove n) ≫= λ _, tfail e) Q (t :: extra).
Proof.
  intros Ht HD HE. apply safe_bind. eapply safe_mono.
  - apply (framed _ (λ o _, match o with Ret _ | Dropped => True | _ => False end) [t] extra), (remove_safe n); done.
  - intros [] x (y & _ & Hy); done || apply HE || apply HD.
Qed.

Lemma install_safe pid b pem :
  (∀ m, pub_made pem (mkFile b m)) → safely (install umask pid b false) (with_key (λ _, True) pem) [Knows pem].
Proof.
  intros Hmade. apply safe_bind. eapply safe_mono; [apply (framed _ (temp_ends (mkFile b (mode_for false))) [] [Knows pem]), temp_rounds_safe|].
  intros [n| | | |] x (y & -> & Hy); try done. destruct Hy as [i ->]. cbn [app].
  apply safe_bind, rename_safe; [apply Hmade|done|intros e; by apply clear_up_safe|].
  split; [done|by left].
Qed.

(** The key a call returns is the one in the file. *)
Definition is_key (pem : bytes) (key : AdbKey K) : Prop :=
  parse_private pem = Ok (ak_key key) ∧
  ∃ name, from_private_key encode_string (rsa_public (ak_key key)) name = Ok (ak_wire key).

Definition key_ends (o : outcome (StoreError L) (AdbKey K)) (toks : list token) : Prop :=
  match o with
  | Ret key => ∃ pem, is_key pem key ∧ Knows pem ∈ toks
  | Fail _ | Dropped => True
  | Panicked | NoFuel => False
  end.

Lemma write_public_key_safe pid pem key :
  is_key pem key → safely (write_public_key umask pid key) (with_key (λ _, True) pem) [Knows pem].
Proof.
  intros [Hk [name Hw]]. apply install_safe. intros m. by exists (ak_key key), name, (ak_wire key).
Qed.

Lemma load_safe name : safely (load encode_string name) (λ o toks, key_ends o toks ∧
  match o with Ret key => ∃ pem, is_key pem key ∧ toks = [Knows pem] | _ => True end) [].
Proof.
  apply safe_bind, read_safe; [done|done|]. intros b. destruct (from_utf8 b); cbn [negb]; [|done].
  unfold parse_key, adb_key. destruct (parse_private b) as [k|e] eqn:Hp; [|done]. bind_simpl.
  destruct (from_private_key encode_string (rsa_public k) name) as [wire|e] eqn:Hw; [|done]. bind_simpl.
  assert (is_key b (mkAdbKey k wire)) by (split; [done|by exists name]).
  split; [exists b; split; [done|by left]|by exists b].
Qed.

Lemma adopt_safe pid name : safely (adopt encode_string umask pid name) key_ends [].
Proof.
  apply safe_bind. eapply safe_mono; [apply load_safe|]. intros [key| | | |] x [Hx Hy]; try done.
  destruct Hy as (pem & Hk & ->). apply safe_bind.
  assert (safely (ensure_public_key umask pid key) (with_key (λ _, True) pem) [Knows pem]) as He.
  { apply safe_bind, quiet_safe; [by intros [|n] s|done|]. intros n s.
    destruct (fst (fs_exists PUBLIC_KEY_FILE n s)); [split; [done|by left]|by apply write_public_key_safe]. }
  eapply safe_mono; [exact He|]. intros [] y Hy; try done. destruct Hy as [_ Hy]. by exists pem.
Qed.

Lemma create_dir_safe path components (Q : outcome (StoreError L) unit → list token → Prop) :
  Q Dropped [] → (∀ e, Q (Fail e) []) → Q (Ret tt) [] → safely (create_dir umask path components) Q [].
Proof.
  intros HD HE HQ. revert path. induction components as [|c components IH]; intros path; [done|]. cbn [create_dir].
  assert (safely (create_one umask (path ++ [c])) (λ o x, x = [] ∧
    match o with Ret _ | Dropped => True | _ => False end) []) as Hone.
  { apply safe_bind, quiet_safe; [|done|].
    - intros [|n] s; [done|]. cbn. by destruct (decide _).
    - intros n s. destruct (fst (fs_create_dir _ _ _ n s)); [|done]. apply safe_bind, quiet_safe; [by intros [|?] ?|done|].
      intros n' s'. destruct (fst (fs_dir_mode _ n' s')) as [a0|]; [|done]. cbv zeta. destruct (_ =? _); cbn [negb]; [done|].
      apply quiet_safe; [by intros [|?] ?|done|done]. }
  apply safe_bind. eapply safe_mono; [exact Hone|]. intros [r| | | |] x [-> Hx]; try done.
  destruct r as [[]|[]]; [apply IH|apply HE|apply IH|apply HE].
Qed.

Lemma publish_new_safe pid k pem :
  rsa_to_pkcs8_pem k = Ok pem →
  safely (publish_new umask pid pem) (λ o x, match o with
                                             | Ret true => x = [Knows pem]
                                             | Ret false => x = []
                                             | Fail _ | Dropped => True
                                             | _ => False
                                             end) [].
Proof.
  intros Hk. apply safe_bind. eapply safe_mono; [apply temp_rounds_safe|]. intros [n| | | |] x Hx; try done.
  destruct Hx as [i ->]. assert (key_made (mkFile pem (mode_for true))) as Hm by (split; [done|by exists k]).
  apply safe_bind, hard_link_safe; [done|done| |].
  - intros []; [by apply clear_up_safe| |by apply clear_up_safe]. by apply safe_bind, remove_safe.
  - apply safe_bind. eapply safe_mono.
    + apply (framed _ (λ o y, match o with Ret _ => y = [] | Dropped => True | _ => False end) [Name n] [Knows pem]),
        (remove_safe n); done.
    + intros [] y (z & -> & Hz); try done. by subst z.
Qed.

Lemma generate_named random name key :
  generate encode_string random name = Ok key →
  from_private_key encode_string (rsa_public (ak_key key)) name = Ok (ak_wire key).
Proof.
  unfold generate, adb_key. destruct (rsa_new random) as [k|e]; [|done]. cbn [map_err mbind result_bind].
  destruct (from_private_key encode_string (rsa_public k) name) as [wire|e] eqn:Hw; [|done]. by intros [= <-].
Qed.

Lemma adb_key_named k name key :
  adb_key (L := L) encode_string k name = Ok key ↔
  ak_key key = k ∧ from_private_key encode_string (rsa_public (ak_key key)) name = Ok (ak_wire key).
Proof.
  unfold adb_key. destruct key as [k' wire]. cbn. split.
  - intros Hk. step_ok Hk w Hw. by simplify_eq.
  - intros [-> ->]. done.
Qed.

(** A key survives its keeping: from the PEM it is exported as, or from a record
    with its DER among whatever else the flash holds, the same key comes back,
    with the same public line under the same name. *)
Theorem exports_read_back name key pem der r rest :
  from_private_key encode_string (rsa_public (ak_key key)) name = Ok (ak_wire key) →
  to_pkcs8_pem key = Ok pem → to_pkcs8_der key = Ok der → encode_key_record der = Ok r →
  from_pkcs8_pem encode_string pem name = Ok key ∧
  ∃ d, decode_key_record (r ++ rest) = Some d ∧ from_pkcs8_der encode_string d name = Ok key.
Proof.
  intros Hn Hp Hd Hr. apply map_err_ok in Hp, Hd.
  assert (adb_key (L := L) encode_string (ak_key key) name = Ok key) as Hk by (by apply adb_key_named).
  split.
  - unfold from_pkcs8_pem. destruct (pkcs8_reads _ _ Hp) as [-> _]. exact Hk.
  - exists der. split; [by apply decode_record_iff; eauto|]. unfold from_pkcs8_der. by rewrite (der_reads _ _ Hd).
Qed.

Lemma pem_is_key name key pem :
  from_private_key encode_string (rsa_public (ak_key key)) name = Ok (ak_wire key) →
  rsa_to_pkcs8_pem (ak_key key) = Ok pem → is_key pem key.
Proof.
  intros Hn Hk. split; [|by exists name]. destruct (pkcs8_reads _ _ Hk) as (Hr & _ & Hl). unfold parse_private. by rewrite Hl, Hr.
Qed.

Lemma generate_into_safe pid dir random name :
  safely (generate_into encode_string umask pid dir random name) key_ends [].
Proof.
  apply safe_bind, create_dir_safe; [done|done|].
  apply safe_bind. destruct (generate encode_string random name) as [key|e] eqn:Hg; [|done]. apply generate_named in Hg.
  apply safe_bind. destruct (rsa_to_pkcs8_pem (ak_key key)) as [pem|e] eqn:Hk; [|done].
  pose proof (pem_is_key _ _ _ Hg Hk) as Hkey.
  apply safe_bind. eapply safe_mono; [by eapply publish_new_safe|]. intros [[]| | | |] x Hx; try done.
  - subst x. apply safe_bind. eapply safe_mono; [by apply write_public_key_safe|]. intros [] y Hy; try done.
    destruct Hy as [_ Hy]. by exists pem.
  - subst x. apply adopt_safe.
Qed.

Lemma load_or_generate_safe pid dir random name :
  safely (load_or_generate encode_string umask pid dir random name) key_ends [].
Proof.
  apply safe_bind, quiet_safe; [by intros [|n] s|done|]. intros n s.
  destruct (fst (fs_open PRIVATE_KEY_FILE n s)) as [[]|[]]; [apply adopt_safe|apply generate_into_safe|done|done].
Qed.
End Identity.

(** ** Threads and processes *)

Section Shared.
Context {K L : Type} `{RsaLaws K L} (encode_string : bytes → bytes) (umask : Z).
Abbreviation call := (task fs (StoreError L)).
Abbreviation pool := (list (call (AdbKey K)) * fs)%type.

Inductive StoreCall : Type :=
| LoadOrGenerate (pid : Z) (dir : list bytes) (random : nat) (name : bytes)
| Load (name : bytes).

Definition store_task (c : StoreCall) : call (AdbKey K) :=
  match c with
  | LoadOrGenerate pid dir random name => load_or_generate encode_string umask pid dir random name
  | Load name => load encode_string name
  end.

(** Any of the calls takes a step or dies, in whatever order, as long as no
    process has used up its temporary names. *)
Definition store_run (p p' : pool) : Prop := moves p p' ∧ few (snd p').

(** The same along a schedule. *)
Fixpoint store_follow (ms : list (nat * option nat)) (p : pool) : option pool :=
  match ms with
  | [] => Some p
  | m :: ms =>
      p' ← move_with m p;
      if decide (map_Forall (λ _ seq, 0 <= seq <= U32_MAX) (f_seq (snd p'))) then store_follow ms p' else None
  end.

Lemma store_follow_run ms p p' : store_follow ms p = Some p' → rtc store_run p p'.
Proof.
  revert p. induction ms as [|m ms IH]; intros p; cbn [store_follow]; [by intros [= <-]|].
  destruct (move_with m p) as [p1|] eqn:Hm; [|done]. cbn. destruct (decide _) as [Hf|]; [|done].
  intros Hr. eapply rtc_l; [|by apply IH]. split; [by eapply move_with_moves|]. intros pid seq Hq. by apply (Hf pid seq).
Qed.

(** A directory whose names are of files. *)
Definition consistent (s : fs) : Prop :=
  (∀ n i, f_names s !! n = Some i → (i < f_next s)%nat ∧ is_Some (f_inodes s !! i)) ∧ few s.

Section From.
Context (s0 : fs).
Abbreviation inv := (Inv encode_string (file_at PRIVATE_KEY_FILE s0) (file_at PUBLIC_KEY_FILE s0)).
Abbreviation ok := (pool_ok inv few (λ (_ : fs) (_ _ : list token), False) (key_ends encode_string)).

Lemma store_task_safe c : safe inv few (λ _ _ _, False) (store_task c) (key_ends encode_string) [].
Proof.
  destruct c; [apply load_or_generate_safe|]. eapply safe_mono; [apply load_safe|]. by intros o x [Hx _].
Qed.

Lemma start_ok calls : consistent s0 → ok [] (store_task <$> calls, s0).
Proof.
  intros [Hn _]. exists (replicate (length calls) []). split.
  - cbn. induction calls as [|c calls IH]; [constructor|]. constructor; [apply store_task_safe|apply IH].
  - cbn. assert (concat (replicate (length calls) []) ++ [] = ([] : list token)) as ->.
    { induction (length calls) as [|n IH]; [done|exact IH]. }
    split_and!; [|constructor|constructor]. split.
    + intros n i Hi. by apply Hn in Hi as [? _].
    + intros n i Hi. by apply Hn in Hi as [_ ?].
    + done.
    + congruence.
    + by left.
Qed.

Lemma run_ok rest p p' : few (snd p) → ok rest p → rtc store_run p p' → ok rest p' ∧ few (snd p').
Proof.
  intros Hf Hp Hr. induction Hr as [p|p p1 p2 [Hm Hf1] _ IH]; [done|]. apply IH; [done|].
  eapply pool_moves; [apply store_inv_proper|exact Hf|exact Hf1|exact Hp|exact Hm].
Qed.

Lemma ok_returned rest p i key :
  ok rest p → fst p !! i = Some (TDone (Ret key)) →
  ∃ pem, key_content (snd p) = Some pem ∧ is_key encode_string pem key.
Proof.
  intros (tokss & Hf & (_ & _ & Ht)) Hi. destruct (Forall2_lookup_l _ _ _ _ _ Hf Hi) as (toks & Htoks & pem & Hk & Hin).
  exists pem. split; [|done]. rewrite Forall_forall in Ht. apply (Ht (Knows pem)). apply elem_of_app. left.
  apply list_elem_of_In, in_concat. exists toks. split; apply list_elem_of_In; [by eapply list_elem_of_lookup_2|done].
Qed.

Lemma ok_knows rest p pem : ok rest p → key_content (snd p) = Some pem → ok (Knows pem :: rest) p.
Proof.
  intros (tokss & Hf & (Hc & Hn & Ht)) Hk. exists tokss. split; [done|]. split_and!; [done| |].
  - rewrite bind_app in *. by cbn.
  - apply Forall_app in Ht as [Ht1 Ht2]. apply Forall_app. split; [done|]. by constructor.
Qed.
End From.

(** C35: the identity in a key directory is made once and kept.  Any number of
    threads and processes may load or generate there at once, each call to the
    file system may fail and each process may die at any of them: what [adbkey]
    holds never changes once it is there, a key that was there is never touched,
    and one that this library put there is whole and its owner's alone.  Every
    call that returns a key returns the one in the file, so that all agree; and
    [adbkey.pub] is what it was or the public line of that key.  No call panics. *)
Theorem identity_kept s0 calls p p' :
  consistent s0 →
  rtc store_run (store_task <$> calls, s0) p → rtc store_run p p' →
  (∀ pem, key_content (snd p) = Some pem → key_content (snd p') = Some pem) ∧
  (∀ f, file_at PRIVATE_KEY_FILE s0 = Some f → file_at PRIVATE_KEY_FILE (snd p) = Some f) ∧
  (∀ f, file_at PRIVATE_KEY_FILE s0 = None → file_at PRIVATE_KEY_FILE (snd p) = Some f → key_made f) ∧
  (∀ i key, fst p !! i = Some (TDone (Ret key)) →
    ∃ pem, key_content (snd p) = Some pem ∧ parse_private pem = Ok (ak_key key)) ∧
  (∀ i j k1 k2, fst p !! i = Some (TDone (Ret k1)) → fst p' !! j = Some (TDone (Ret k2)) → ak_key k1 = ak_key k2) ∧
  (∀ f, file_at PUBLIC_KEY_FILE (snd p) = Some f → file_at PUBLIC_KEY_FILE s0 = Some f ∨
    ∃ pem, key_content (snd p) = Some pem ∧ pub_made encode_string pem f) ∧
  (∀ i, fst p !! i ≠ Some (TDone Panicked) ∧ fst p !! i ≠ Some (TDone NoFuel)).
Proof.
  intros Hs0 Hp Hp'. destruct (run_ok s0 [] (store_task <$> calls, s0) p (proj2 Hs0) (start_ok s0 calls Hs0) Hp) as [Hok Hf].
  destruct (run_ok s0 [] _ _ Hf Hok Hp') as [Hok' _].
  assert (∀ pem, key_content (snd p) = Some pem → key_content (snd p') = Some pem) as Hkeep.
  { intros pem Hk. destruct (run_ok s0 _ _ _ Hf (ok_knows s0 _ _ _ Hok Hk) Hp') as [(tokss & _ & (_ & _ & Ht)) _].
    apply Forall_app in Ht as [_ Ht]. by inversion Ht. }
  assert (core encode_string (file_at PRIVATE_KEY_FILE s0) (file_at PUBLIC_KEY_FILE s0) (snd p)) as Hc
    by (by destruct Hok as (? & _ & (? & _))).
  split_and!; [exact Hkeep|apply (co_key0 _ _ _ _ Hc)|intros f Hn; by apply (co_key _ _ _ _ Hc)| | |apply (co_pub _ _ _ _ Hc)|].
  - intros i key Hi. destruct (ok_returned s0 _ _ _ _ Hok Hi) as (pem & Hk & [Hr _]). by exists pem.
  - intros i j k1 k2 Hi Hj. destruct (ok_returned s0 _ _ _ _ Hok Hi) as (pem & Hk & [Hr _]).
    destruct (ok_returned s0 _ _ _ _ Hok' Hj) as (pem' & Hk' & [Hr' _]). apply Hkeep in Hk. congruence.
  - intros i. destruct Hok as (tokss & Hfa & _).
    split; intros Hi; by destruct (Forall2_lookup_l _ _ _ _ _ Hfa Hi) as (toks & _ & []).
Qed.
End Shared.

(** ** Witness: two processes in an empty directory *)

Module TwoProcesses.
#[global] Instance two_keys : Rsa bool unit := {
  rsa_public _ := sample_key;
  rsa_new n := Ok (bool_decide (n = 1%nat));
  rsa_from_pkcs8_pem pem :=
    if bool_decide (pem = bs "key one") then Ok true else if bool_decide (pem = bs "key two") then Ok false else Err tt;
  rsa_from_pkcs1_pem _ := Err tt;
  rsa_to_pkcs8_pem k := Ok (if k : bool then bs "key one" else bs "key two");
  rsa_from_pkcs8_der der := if bool_decide (der = [x01]) then Ok true else if bool_decide (der = [x02]) then Ok false else Err tt;
  rsa_to_pkcs8_der k := Ok (if k : bool then [x01] else [x02]);
}.

#[global] Instance two_keys_laws : RsaLaws bool unit.
Proof. split; intros [] b [= <-]; by vm_compute. Qed.

Definition empty : fs := mkFs ∅ ∅ 0 ∅ ∅.

Lemma empty_consistent : consistent empty.
Proof. by split. Qed.

(** Both find no key and write one; the first links it, and dies before it has
    written its public key; the second finds it and returns it. *)
Definition calls : list StoreCall :=
  [LoadOrGenerate 10 [bs ".android"] 1 (bs "me@host"); LoadOrGenerate 11 [bs ".android"] 2 (bs "me@host")].

Definition steps_of (i n : nat) : list (nat * option nat) := replicate n (i, Some 40%nat).

Definition schedule : list (nat * option nat) :=
  steps_of 0 1 ++ steps_of 1 8 ++ steps_of 0 7 ++ [(0%nat, None)] ++ steps_of 1 10.
End TwoProcesses.

Lemma identity_kept_witness :
  ∃ (p : list (task fs (StoreError unit) (AdbKey bool)) * fs) key,
    fst p !! 1%nat = Some (TDone (Ret key)) ∧ ak_key key = true ∧ key_content (snd p) = Some (bs "key one") ∧
    (∃ pem, key_content (snd p) = Some pem ∧ parse_private pem = Ok (ak_key key)) ∧
    ∀ f, file_at PRIVATE_KEY_FILE (snd p) = Some f → key_made f.
Proof.
  assert ((λ p, (match fst p !! 1%nat with Some (TDone (Ret key)) => Some (ak_key key) | _ => None end, key_content (snd p)))
    <$> store_follow TwoProcesses.schedule (store_task (λ _, []) 0 <$> TwoProcesses.calls, TwoProcesses.empty)
    = Some (Some true, Some (bs "key one"))) as Hx by (vm_compute; reflexivity).
  destruct (store_follow TwoProcesses.schedule _) as [p|] eqn:Hp; [|discriminate Hx]. cbn [fmap option_fmap option_map] in Hx.
  injection Hx as Hkey Hpem. destruct (fst p !! 1%nat) as [[[key| | | |]|]|] eqn:Hi; try discriminate Hkey.
  injection Hkey as Hkey.
  destruct (identity_kept (λ _, []) 0 TwoProcesses.empty TwoProcesses.calls p p TwoProcesses.empty_consistent
    (store_follow_run TwoProcesses.schedule _ _ Hp) (rtc_refl _ _)) as (_ & _ & Hmade & Hret & _).
  exists p, key. split; [exact Hi|]. split; [exact Hkey|]. split; [exact Hpem|]. split; [exact (Hret _ _ Hi)|].
  intros f. exact (Hmade f eq_refl).
Defined.
