(* ===== verification/Ffi.v ===== *)
(** * The C interface ([libadb-ffi])

    What crosses the boundary: status codes ([error.rs]), channel handles as
    64-bit numbers ([channel.rs]), features as constants ([feature.rs]), results
    copied into the caller's memory ([slice.rs]), and the frames of a shell
    session that several threads share ([shell.rs]).

    [channel_ids_cross] is that a handle comes back from C as the handle it was and
    that no other number does; [frames_arrive_whole] that threads which write to a
    session at once do not mix their frames; [c_frames] that reading frames from C
    is reading them from Rust. *)

From stdpp Require Import relations.
From S2P Require Import Prelude Errors Protocol Config Banner ChannelTable Session RecvBuf ShellV2.
From S2P Require Import Text Destination ShellFrames Reverse Uri Pairing Usb Task.

(** ** [error.rs] *)

Module AdbStatus.
Inductive AdbStatus : Type :=
| Ok | InvalidArg | InvalidUri | Connect | Io | Auth | Protocol | ChannelClosed | NoFreeChannels
| Desynchronized | Reverse | TlsRequired | Pairing | Disconnected | Internal.
End AdbStatus.
Abbreviation AdbStatus := AdbStatus.AdbStatus.

Definition status_code (s : AdbStatus) : Z :=
  match s with
  | AdbStatus.Ok => 0 | AdbStatus.InvalidArg => 1 | AdbStatus.InvalidUri => 2 | AdbStatus.Connect => 3
  | AdbStatus.Io => 4 | AdbStatus.Auth => 5 | AdbStatus.Protocol => 6 | AdbStatus.ChannelClosed => 7
  | AdbStatus.NoFreeChannels => 8 | AdbStatus.Desynchronized => 9 | AdbStatus.Reverse => 10
  | AdbStatus.TlsRequired => 11 | AdbStatus.Pairing => 12 | AdbStatus.Disconnected => 13
  | AdbStatus.Internal => 255
  end.

(** [fail_error], [fail_pairing] and [fail_ffi_connect], without the text they
    record. *)
Definition fail_error {E} (e : Error E) : AdbStatus :=
  match e with
  | Error.Protocol ProtocolError.TlsRequired => AdbStatus.TlsRequired
  | Error.Io _ | Error.UnexpectedEof => AdbStatus.Io
  | Error.Auth _ => AdbStatus.Auth
  | Error.Protocol _ => AdbStatus.Protocol
  | Error.ChannelClosed => AdbStatus.ChannelClosed
  | Error.NoFreeChannels => AdbStatus.NoFreeChannels
  | Error.Desynchronized => AdbStatus.Desynchronized
  | Error.Disconnected => AdbStatus.Disconnected
  | Error.Reverse (ReverseError.Failed _) => AdbStatus.Reverse
  | Error.Reverse ReverseError.UnexpectedReply => AdbStatus.Protocol
  | _ => AdbStatus.Internal
  end.

Definition fail_pairing {E} (e : PairingError E) : AdbStatus :=
  match e with
  | PairingError.WrongCode | PairingError.Closed => AdbStatus.Pairing
  | PairingError.Transport _ => AdbStatus.Io
  | PairingError.Frame _ | PairingError.Spake2 _ | PairingError.PeerInfo _ => AdbStatus.Protocol
  end.

Definition fail_ffi_connect {E F} (e : ConnectError E F) : AdbStatus :=
  match e with ConnectError.Uri _ => AdbStatus.InvalidUri | _ => AdbStatus.Connect end.

(** ** [channel.rs] *)

Definition encode_channel_id (ch : ChannelId) : Z :=
  Z.lor (Z.shiftl (ch_local ch) 32) (wrap_u32 (Z.of_nat (ch_slot ch))).

Definition decode_channel_id (max_channels : Z) (id : Z) : result AdbStatus ChannelId :=
  let slot := Z.land id 0xFFFFFFFF in
  if slot <? max_channels then Ok (mkChannelId (Z.to_nat slot) (wrap_u32 (Z.shiftr id 32)))
  else Err AdbStatus.InvalidArg.

(** ** [feature.rs] *)

(** [FfiFeature] has the constants in the order of [Feature]'s: a raw value is
    its place. *)
Definition from_raw (value : Z) : option Feature :=
  if value <? 0 then None else all_features !! Z.to_nat value.

Fixpoint place_of (f : Feature) (fs : list Feature) : Z :=
  match fs with
  | [] => 0
  | g :: fs => if bool_decide (g = f) then 0 else 1 + place_of f fs
  end.

Definition from_feature (f : Feature) : Z := place_of f all_features.

Definition adb_connection_has_feature (banner : DeviceBanner) (value : Z) : bool :=
  match from_raw value with Some f => banner_has_feature banner f | None => false end.

(** Into an array of C's, or none: the array it leaves, and the count. *)
Definition adb_connection_features (banner : DeviceBanner) (buf : option (list Z)) : option (list Z) * Z :=
  ((λ slots, firstn (length slots) (from_feature <$> b_features banner) ++ skipn (length (b_features banner)) slots) <$> buf,
   len (b_features banner)).

Definition adb_feature_name (value : Z) : option bytes := wire_name <$> from_raw value.

(** ** [slice.rs] *)

(** A pointer and a length from C: no memory, or memory and what it holds. *)
Inductive c_slice : Type := CNull (n : Z) | CBytes (b : bytes).

Definition slice_len (p : c_slice) : Z := match p with CNull n => n | CBytes b => len b end.

(** [from_ptr], and what callers refuse before it. *)
Definition from_ptr (p : c_slice) : bytes := match p with CNull _ => [] | CBytes b => b end.
Definition null_data (p : c_slice) : bool := match p with CNull n => 0 <? n | CBytes _ => false end.

(** [copy_out]: the memory as it leaves it, and the length it reports. *)
Definition copy_out (src : bytes) (p : c_slice) : c_slice * Z :=
  (match p with
   | CNull n => CNull n
   | CBytes b => CBytes (firstn (Nat.min (length src) (length b)) src ++ skipn (length src) b)
   end, len src).

(** ** The calls of [channel.rs] and [reverse.rs] *)

(** A C function on a connection: it fails with a status, or it is [Ok] with what
    it wrote through its pointers. *)
Section Calls.
Context {Ses IoE : Type} `{Session Ses IoE} (max_channels : Z).
Abbreviation ccall := (prog Ses AdbStatus).

(** [ffi_try!]. *)
Definition ffi_try {A} (m : prog Ses (Error IoE) A) : ccall A := λ s,
  let '(o, s') := m s in (outcome_map id fail_error o, s').

Definition adb_open_channel (destination : c_slice) : ccall Z :=
  if null_data destination then fail AdbStatus.InvalidArg
  else ch ← ffi_try (s_open_channel (from_ptr destination)); mret (encode_channel_id ch).

Definition adb_read_channel (id : Z) (buf : c_slice) : ccall bytes :=
  if null_data buf then fail AdbStatus.InvalidArg
  else if slice_len buf =? 0 then fail AdbStatus.InvalidArg
  else
    ch ← lift (decode_channel_id max_channels id);
    ffi_try (s_read_channel ch (slice_len buf)).

Definition adb_write_channel (id : Z) (buf : c_slice) : ccall unit :=
  if null_data buf then fail AdbStatus.InvalidArg
  else
    ch ← lift (decode_channel_id max_channels id);
    ffi_try (s_write_channel ch (from_ptr buf)).

Definition adb_close_channel (id : Z) : ccall unit :=
  ch ← lift (decode_channel_id max_channels id);
  ffi_try (s_close_channel ch).

(** The strings are C's, up to their NUL.  The port is written in decimal. *)
Definition port_text (port : option Z) : bytes :=
  match port with Some n => default [] (format_u32 n (replicate 10 x00)) | None => [] end.

Definition adb_reverse_forward (fuel : nat) (device host : bytes) (data : c_slice) : ccall (c_slice * Z) :=
  if from_utf8 device && from_utf8 host then
    bound ← ffi_try (Reverse.establish fuel device host);
    mret (copy_out (port_text bound) data)
  else fail AdbStatus.InvalidArg.

Definition adb_reverse_remove (fuel : nat) (device : bytes) : ccall unit :=
  if from_utf8 device then ffi_try (Reverse.remove fuel device) else fail AdbStatus.InvalidArg.

Definition adb_reverse_remove_all (fuel : nat) : ccall unit := ffi_try (Reverse.remove_all fuel).

Definition adb_reverse_list (fuel : nat) (buf : c_slice) : ccall (c_slice * Z) :=
  listing ← ffi_try (Reverse.list_raw fuel);
  mret (copy_out listing buf).
End Calls.

(** ** [shell.rs] *)

Definition SHELL_V2_RX_BUF : Z := 64 * 1024.

(** [ParseState]: the buffer and the decoder of a [Shell]. *)
Definition parse_state_new : Shell := mkShell (replicate (Z.to_nat SHELL_V2_RX_BUF) x00) decoder_new.

Definition frame_header (id : FrameId) (payload : bytes) : bytes := frame_id_byte id :: u32_le (len payload).

Section Shell.
Context {Ses IoE : Type} `{Session Ses IoE}.
Abbreviation shprog := (prog (Shell * Ses) (Error IoE)).

(** [ParseState::try_next_frame]. *)
Definition ffi_try_next_frame : shprog (option (result byte FrameId * bytes)) := on_decoder try_next_raw_ref.

(** The loop of [read_frame], which gives the id as a byte at its end. *)
Fixpoint ffi_read_raw (fuel : nat) (ch : ChannelId) : shprog (result byte FrameId * bytes) :=
  match fuel with
  | O => out_of_fuel
  | S fuel =>
      o ← ffi_try_next_frame;
      match o with
      | Some frame => mret frame
      | None =>
          ensure_writable ≫= λ _,
          want ← gets (λ p, len (sh_rx (fst p)) - d_tail (sh_decoder (fst p)));
          b ← on_session (s_read_channel ch want);
          modify (λ p, (shell_fill b (fst p), snd p)) ≫= λ _,
          ffi_read_raw fuel ch
      end
  end.

Definition ffi_read_frame (fuel : nat) (ch : ChannelId) : shprog (byte * bytes) :=
  f ← ffi_read_raw fuel ch; mret (byte_of (fst f), snd f).

(** [adb_shell_read_frame]: the id, the memory and the length it gives C. *)
Definition adb_shell_read_frame (fuel : nat) (ch : ChannelId) (closed : bool) (buf : c_slice) :
    prog (Shell * Ses) AdbStatus (byte * (c_slice * Z)) :=
  if null_data buf then fail AdbStatus.InvalidArg
  else if closed then fail AdbStatus.ChannelClosed
  else λ p,
    let '(o, p') := ffi_read_frame fuel ch p in
    (outcome_map (λ f, (fst f, copy_out (snd f) buf)) fail_error o, p').

(** [send_frame_async] of a session that nobody else has yet. *)
Definition send_first (ch : ChannelId) (id : FrameId) (payload : bytes) : prog Ses (Error IoE) unit :=
  if U32_MAX <? len payload then fail (Error.Protocol ProtocolError.PayloadTooLarge)
  else
    s_write_channel ch (frame_header id payload) ≫= λ _,
    match payload with [] => mret tt | _ => s_write_channel ch payload end.

Definition first_window (ch : ChannelId) (size : WindowSize) : prog Ses (Error IoE) unit :=
  match window_size_encode size with
  | Some e => send_first ch FrameId.WindowSizeChange (as_bytes e)
  | None => panic
  end.

(** [adb_shell_open]: where the window size cannot be sent, the channel is closed. *)
Definition adb_shell_open (command : c_slice) (pty : bool) (term : option bytes) (size : WindowSize) :
    prog Ses AdbStatus (ChannelId * Shell) :=
  if null_data command then fail AdbStatus.InvalidArg
  else if negb (from_utf8 (from_ptr command)) then fail AdbStatus.InvalidArg
  else if negb (from_utf8 (default [] term)) then fail AdbStatus.InvalidArg
  else
    let mode := if pty then ShellMode.Pty term else ShellMode.Raw in
    dest ← lift (map_err (λ e, fail_error (Error.Protocol (E := IoE) e)) (shell_destination mode (from_ptr command)));
    ch ← ffi_try (s_open_channel dest);
    if pty && (negb (rows size =? 0) || negb (cols size =? 0)) then
      r ← ffi_try (catch (first_window ch size));
      match r with
      | Ok _ => mret (ch, parse_state_new)
      | Err e => ffi_try (catch (s_close_channel ch)) ≫= λ _, fail (fail_error e)
      end
    else mret (ch, parse_state_new).
End Shell.

(** A session threads share: who has the turn to send, what was sent on its
    channel, and whether it was closed. *)
Record shared_shell : Type := mkShared { st_turn : bool; st_sent : bytes; st_closed : bool }.

Section Sending.
Context {E : Type} (failure : nat → Error E).
Abbreviation call := (task shared_shell (Error E)).

(** [Writer::write_channel] run by [block_on_write]: the bytes go out in order, and
    it may fail (choice above 0) before any of them or behind the last. *)
Fixpoint write_part (b : bytes) : call unit :=
  match b with
  | [] => TStep None (λ n s, Some (TDone (match n with O => Ret tt | S n => Fail (failure n) end), s))
  | x :: b =>
      TStep None (λ n s,
        match n with
        | O => Some (write_part b, mkShared (st_turn s) (st_sent s ++ [x]) (st_closed s))
        | S n => Some (TDone (Fail (failure n)), s)
        end)
  end.

(** The guard of [send_lock]: a thread that waits for it is not dropped. *)
Definition take_turn : call unit :=
  TStep None (λ _ s, if st_turn s then None else Some (TDone (Ret tt), mkShared true (st_sent s) (st_closed s))).
Definition leave_turn : call unit := act (modify (λ s, mkShared false (st_sent s) (st_closed s))).

(** [send_frame_async]. *)
Definition send_frame_async (id : FrameId) (payload : bytes) : call unit :=
  if U32_MAX <? len payload then tfail (Error.Protocol ProtocolError.PayloadTooLarge)
  else
    take_turn ≫= λ _,
    finally (λ _, leave_turn)
      (write_part (frame_header id payload) ≫= λ _,
       match payload with [] => mret tt | _ => write_part payload end).

Definition ffi_send_frame (id : FrameId) (payload : bytes) : call unit :=
  closed ← load st_closed;
  if (closed : bool) then tfail Error.ChannelClosed else send_frame_async id payload.

(** [adb_shell_close]: the first one closes the channel. *)
Definition ffi_close : call unit :=
  was ← act (λ s, (Ret (st_closed s), mkShared (st_turn s) (st_sent s) true));
  if (was : bool) then mret tt
  else TStep None (λ n s, Some (TDone (match n with O => Ret tt | S n => Fail (failure n) end), s)).

(** What a call's result is to C. *)
Definition status_of {A} (r : result (Error E) A) : AdbStatus :=
  match r with Ok _ => AdbStatus.Ok | Err e => fail_error e end.

Definition adb_shell_write_stdin (data : c_slice) : call AdbStatus :=
  if null_data data then mret AdbStatus.InvalidArg
  else r ← attempt (ffi_send_frame FrameId.Stdin (from_ptr data)); mret (status_of r).

(** A channel the device closed is no failure; one closed by [adb_shell_close] is. *)
Definition adb_shell_close_stdin : call AdbStatus :=
  r ← attempt (ffi_send_frame FrameId.CloseStdin []);
  match r with
  | Err Error.ChannelClosed =>
      closed ← load st_closed;
      mret (if (closed : bool) then AdbStatus.ChannelClosed else AdbStatus.Ok)
  | r => mret (status_of r)
  end.

Definition adb_shell_set_window_size (size : WindowSize) : call AdbStatus :=
  match window_size_encode size with
  | Some e => r ← attempt (ffi_send_frame FrameId.WindowSizeChange (as_bytes e)); mret (status_of r)
  | None => TDone Panicked
  end.

Definition adb_shell_close : call AdbStatus := r ← attempt ffi_close; mret (status_of r).
End Sending.

(** ** Handles *)

Lemma id_parts id : 0 <= id < 2 ^ 64 →
  Z.land id 0xFFFFFFFF = id mod 2 ^ 32 ∧ wrap_u32 (Z.shiftr id 32) = id / 2 ^ 32.
Proof.
  intros Hid. split.
  - change 0xFFFFFFFF with (Z.ones 32). by apply Z.land_ones.
  - rewrite Z.shiftr_div_pow2 by done. unfold wrap_u32. apply Z.mod_small.
    split; [apply Z.div_pos; lia|apply Z.div_lt_upper_bound; lia].
Qed.

Lemma encode_value ch :
  Z.of_nat (ch_slot ch) < 2 ^ 32 → 0 <= ch_local ch →
  encode_channel_id ch = ch_local ch * 2 ^ 32 + Z.of_nat (ch_slot ch).
Proof.
  intros Hs Hl. unfold encode_channel_id, wrap_u32. rewrite Z.mod_small by lia.
  rewrite <- Z.shiftl_mul_pow2 by done. rewrite <- Z.add_lor_land.
  assert (Z.land (Z.shiftl (ch_local ch) 32) (Z.of_nat (ch_slot ch)) = 0) as ->; [|lia].
  apply Z.bits_inj'. intros n Hn. rewrite Z.land_spec, Z.testbit_0_l, Z.shiftl_spec by done.
  destruct (Z.lt_ge_cases n 32); [by rewrite Z.testbit_neg_r by lia|]. apply andb_false_intro2.
  rewrite Z.testbit_false by lia. rewrite Z.div_small; [done|].
  split; [lia|]. eapply Z.lt_le_trans; [exact Hs|]. by apply Z.pow_le_mono_r.
Qed.

(** The handles of a connection: their slot is in its table and their id a
    32-bit number. *)
Definition of_connection (max_channels : Z) (ch : ChannelId) : Prop :=
  Z.of_nat (ch_slot ch) < max_channels ∧ 0 <= ch_local ch <= U32_MAX.

Lemma id_round max_channels ch :
  0 < max_channels <= MAX_CHANNELS → of_connection max_channels ch →
  0 <= encode_channel_id ch < 2 ^ 64 ∧ decode_channel_id max_channels (encode_channel_id ch) = Ok ch.
Proof.
  intros Hmax. assert (MAX_CHANNELS = 2 ^ 16) as Hm by done. rewrite Hm in Hmax. clear Hm.
  destruct ch as [slot loc]. intros [Hs Hl]. cbn in Hs, Hl. unfold U32_MAX in Hl.
  pose proof (encode_value (mkChannelId slot loc)) as He. cbn in He. specialize (He ltac:(lia) ltac:(lia)).
  assert (0 <= encode_channel_id (mkChannelId slot loc) < 2 ^ 64) as Hb by lia. split; [done|].
  destruct (id_parts _ Hb) as [Hlo Hhi]. unfold decode_channel_id. rewrite Hlo, Hhi, He.
  rewrite Z.add_comm, Z_mod_plus_full, Z.mod_small, Z.div_add, Z.div_small by lia.
  rewrite (proj2 (Z.ltb_lt _ _)) by lia. rewrite Nat2Z.id. f_equal.
Qed.

(** Channel handles cross the C boundary.  For a connection's table, which
    holds at most 2^16 channels, a handle given out comes back as itself, no two
    are given the same number, a 64-bit number that is taken is one a handle has,
    and any other is an invalid argument. *)
Theorem channel_ids_cross max_channels :
  0 < max_channels <= MAX_CHANNELS →
  (∀ ch, of_connection max_channels ch →
    0 <= encode_channel_id ch < 2 ^ 64 ∧ decode_channel_id max_channels (encode_channel_id ch) = Ok ch) ∧
  (∀ id, 0 <= id < 2 ^ 64 →
    match decode_channel_id max_channels id with
    | Ok ch => of_connection max_channels ch ∧ encode_channel_id ch = id
    | Err e => e = AdbStatus.InvalidArg ∧ ∀ ch, of_connection max_channels ch → encode_channel_id ch ≠ id
    end).
Proof.
  intros Hmax. split; [intros ch; by apply id_round|]. intros id Hid. destruct (id_parts _ Hid) as [Hlo Hhi].
  destruct (decode_channel_id max_channels id) as [ch|e] eqn:Hd.
  - unfold decode_channel_id in Hd. rewrite Hlo, Hhi in Hd. destruct (Z.ltb_spec (id mod 2 ^ 32) max_channels); [|done].
    injection Hd as <-. pose proof (Z.mod_pos_bound id (2 ^ 32)). pose proof (Z.div_mod id (2 ^ 32)).
    assert (0 <= id / 2 ^ 32 <= U32_MAX) as Hq.
    { unfold U32_MAX. split; [apply Z.div_pos; lia|]. apply Z.lt_le_pred, Z.div_lt_upper_bound; lia. }
    split; [split; cbn; [lia|done]|]. rewrite encode_value; cbn; lia.
  - split.
    + unfold decode_channel_id in Hd. destruct (_ <? _); by simplify_eq.
    + intros ch Hch <-. destruct (id_round _ _ Hmax Hch) as [_ Hok]. congruence.
Qed.

Lemma channel_ids_cross_witness :
  decode_channel_id 16 (encode_channel_id (mkChannelId 3 77)) = Ok (mkChannelId 3 77) ∧
  match decode_channel_id 16 16 with
  | Ok ch => of_connection 16 ch ∧ encode_channel_id ch = 16
  | Err e => e = AdbStatus.InvalidArg ∧ ∀ ch, of_connection 16 ch → encode_channel_id ch ≠ 16
  end.
Proof.
  destruct (channel_ids_cross 16 ltac:(split; [lia|by vm_compute])) as [H1 H2].
  split; [apply H1; split; cbn; [lia|unfold U32_MAX; lia]|apply H2; lia].
Defined.

Section ChannelCalls.
Context {Ses IoE : Type} `{Session Ses IoE} (max_channels : Z) (Hmax : 0 < max_channels <= MAX_CHANNELS).
Abbreviation fails := (λ s : Ses, (Fail AdbStatus.InvalidArg, s)).

(** Through its number a channel is read, written and closed as through its
    handle; a number that is no handle, a read of nothing and a length without
    memory touch no session. *)
Lemma c_channel_calls ch (b : bytes) n id (s : Ses) :
  of_connection max_channels ch → b ≠ [] → 0 < n → max_channels <= Z.land id 0xFFFFFFFF →
  adb_read_channel max_channels (encode_channel_id ch) (CBytes b) s = ffi_try (s_read_channel ch (len b)) s ∧
  adb_write_channel max_channels (encode_channel_id ch) (CBytes b) s = ffi_try (s_write_channel ch b) s ∧
  adb_close_channel max_channels (encode_channel_id ch) s = ffi_try (s_close_channel ch) s ∧
  adb_read_channel max_channels id (CBytes b) s = fails s ∧
  adb_write_channel max_channels id (CBytes b) s = fails s ∧
  adb_close_channel max_channels id s = fails s ∧
  adb_read_channel max_channels id (CBytes []) s = fails s ∧
  adb_read_channel max_channels id (CNull n) s = fails s ∧ adb_write_channel max_channels id (CNull n) s = fails s.
Proof.
  intros Hch Hb Hn Hid. destruct (id_round _ _ Hmax Hch) as [_ Hd].
  assert ((len b =? 0) = false) as Hl by (destruct b; [done|]; apply Z.eqb_neq; zlen).
  unfold adb_read_channel, adb_write_channel, adb_close_channel. cbn [null_data slice_len from_ptr].
  rewrite Hd, Hl, (proj2 (Z.ltb_lt 0 n) Hn). unfold decode_channel_id. rewrite (proj2 (Z.ltb_ge _ _) Hid).
  by split_and!.
Qed.
End ChannelCalls.

(** Features cross it too. *)
Lemma features_cross f value :
  (from_raw (from_feature f) = Some f) ∧ (from_raw value = Some f → from_feature f = value) ∧
  (from_raw value = None ↔ ¬ 0 <= value <= 20).
Proof.
  split; [by destruct f|]. unfold from_raw. destruct (Z.ltb_spec value 0) as [|Hv]; [split; [done|]; split; [lia|done]|].
  split.
  - intros Hf. assert (∃ n : nat, (n < 21)%nat ∧ value = Z.of_nat n) as (n & Hn & ->).
    { exists (Z.to_nat value). apply lookup_lt_Some in Hf. change (length all_features) with 21%nat in Hf. lia. }
    rewrite Nat2Z.id in Hf. do 21 (destruct n as [|n]; [cbn in Hf; simplify_eq; done|]). lia.
  - rewrite lookup_ge_None. change (length all_features) with 21%nat. lia.
Qed.

(** The constants an array takes are those the connection has: room for all of
    them lists exactly the features that [adb_connection_has_feature] affirms. *)
Lemma listed_features banner slots value :
  (length (b_features banner) <= length slots)%nat →
  ∃ listed, fst (adb_connection_features banner (Some slots)) = Some (listed ++ skipn (length listed) slots) ∧
    len listed = snd (adb_connection_features banner (Some slots)) ∧
    (adb_connection_has_feature banner value = true ↔ value ∈ listed).
Proof.
  intros Hl. exists (from_feature <$> b_features banner). split_and!.
  - cbn. rewrite length_fmap, firstn_all2; [done|]. by rewrite length_fmap.
  - unfold len. cbn. by rewrite length_fmap.
  - unfold adb_connection_has_feature, banner_has_feature. rewrite list_elem_of_fmap. split.
    + destruct (from_raw value) as [f|] eqn:Hf; [|done]. rewrite existsb_exists. intros (g & Hg & ->%bool_decide_eq_true).
      exists f. split; [symmetry; by apply features_cross|by apply list_elem_of_In].
    + intros (f & -> & Hf). rewrite (proj1 (features_cross f 0)), existsb_exists. exists f.
      split; [by apply list_elem_of_In|by apply bool_decide_eq_true].
Qed.

(** ** Reading frames *)

Section Reading.
Context {Ses IoE : Type} `{Session Ses IoE}.

(** Reading frames from C is reading them from Rust, where a frame is typed. *)
Theorem c_frames fuel ch (p : Shell * Ses) :
  read_frame (IoE := IoE) fuel ch p =
    (f ← ffi_read_raw fuel ch; lift (map_err Error.Protocol (make_frame (fst f) (snd f)))) p.
Proof.
  revert p. induction fuel as [|fuel IH]; intros p; [done|]. cbn [read_frame ffi_read_raw].
  unfold mbind, prog_bind. unfold shell_try_next_frame, ffi_try_next_frame, on_decoder, decoder_try_next_frame, mbind, prog_bind.
  destruct (try_next_raw_ref (sh_rx (fst p)) (sh_decoder (fst p))) as [[[[id payload]|]|e| | |] d]; cbn [outcome_map mret prog_ret]; try done.
  - destruct (make_frame id payload) eqn:Em; cbn; by rewrite Em.
  - cbv beta iota delta [id]. set (q := (mkShell (sh_rx (fst p)) d, snd p)).
    destruct (ensure_writable (IoE := IoE) q) as [[[]|e| | |] p1]; try done. cbn [gets].
    destruct (on_session _ p1) as [[b|e| | |] p2]; try done. cbn [modify]. apply IH.
Qed.
End Reading.

(** ** Opening a session *)

(** The bytes of a frame. *)
Definition frame_bytes (f : FrameId * bytes) : bytes := frame_header (fst f) (snd f) ++ snd f.

Section Opening.
Context {Ses IoE : Type} `{SessionLaws Ses IoE}.

Lemma send_first_puts ch id payload (s : Ses) : s_ok s →
  wp (send_first (IoE := IoE) ch id payload) (λ o s',
    match o with
    | Ret _ => s_ok s' ∧ puts s ch (frame_bytes (id, payload)) s'
    | Panicked | NoFuel => False
    | _ => True
    end) s.
Proof.
  intros Hs. unfold send_first. destruct (_ <? _); [done|]. apply wp_bind.
  eapply wp_mono; [by apply s_write_spec|]. intros [[]|e| | |] s1; try done. intros (Hs1 & Hp & _).
  unfold frame_bytes. cbn [fst snd]. destruct payload as [|b payload]; [rewrite app_nil_r; by apply wp_ret|].
  eapply wp_mono; [by apply s_write_spec|]. intros [[]|e| | |] s2; try done. intros (Hs2 & Hp2 & _).
  split; [done|]. by eapply puts_app.
Qed.

(** The window size that [adb_shell_open] sends is one whole frame, in decimal,
    for every size that C can pass. *)
Theorem first_window_sent ch size (s : Ses) :
  0 <= rows size < 2 ^ 16 → 0 <= cols size < 2 ^ 16 → s_ok s →
  wp (first_window (IoE := IoE) ch size) (λ o s',
    match o with
    | Ret _ => s_ok s' ∧ ∃ rs cs,
        puts s ch (frame_bytes (FrameId.WindowSizeChange, window_text rs cs)) s' ∧
        decimal_val rs = rows size ∧ decimal_val cs = cols size
    | Panicked | NoFuel => False
    | _ => True
    end) s.
Proof.
  destruct size as [r c]. cbn [rows cols]. intros Hr Hc Hs. unfold first_window.
  destruct (window_size_fits r c Hr Hc) as (e & rs & cs & -> & He & Hrs & _ & Hcs & _). rewrite He.
  eapply wp_mono; [by apply send_first_puts|]. intros [[]|x| | |] s'; try done. intros [Hs' Hp].
  split; [done|]. by exists rs, cs.
Qed.
End Opening.

(** ** Threads that write to one session *)

(** What a call owns: a frame to send, one it has sent [part] of while it has the
    turn, one it has sent; or it broke one off. *)
Inductive turn_token : Type :=
| Mine (f : FrameId * bytes)
| Half (f : FrameId * bytes) (part : bytes)
| Sent (f : FrameId * bytes)
| Broken.

Definition owned_frame (t : turn_token) : option (FrameId * bytes) :=
  match t with Mine f | Half f _ | Sent f => Some f | Broken => None end.
Definition half_of (t : turn_token) : option bytes := match t with Half _ part => Some part | _ => None end.
Definition sent_of (t : turn_token) : option bytes := match t with Sent f => Some (frame_bytes f) | _ => None end.

Section Frames.
Context {E : Type} (failure : nat → Error E) (frames : list (FrameId * bytes)).
Abbreviation call := (task shared_shell (Error E)).

(** Unless one was broken off, every frame is somewhere, and the stream is those
    that were sent and what the holder of the turn has sent of its own. *)
Definition stream_ok (s : shared_shell) (toks : list turn_token) : Prop :=
  omap owned_frame toks ≡ₚ frames ∧
  (∃ order, order ≡ₚ omap sent_of toks ∧ st_sent s = concat order ++ concat (omap half_of toks)) ∧
  length (omap half_of toks) = (if st_turn s then 1 else 0)%nat.

Definition ShellInv (s : shared_shell) (toks : list turn_token) : Prop := Broken ∈ toks ∨ stream_ok s toks.

Lemma omap_perm {A B} (f : A → option B) l l' : l ≡ₚ l' → omap f l ≡ₚ omap f l'.
Proof. intros Hl. by rewrite Hl. Qed.

#[export] Instance shell_inv_proper : Proper ((=) ==> (≡ₚ) ==> iff) ShellInv.
Proof.
  assert (∀ s l l', l ≡ₚ l' → stream_ok s l → stream_ok s l') as Hok.
  { intros s l l' Hl (Hf & (order & Ho & Hs) & Hh).
    assert (omap half_of l ≡ₚ omap half_of l') as Hp by (by apply omap_perm).
    assert (omap half_of l = omap half_of l') as He.
    { destruct (omap half_of l) as [|a [|b r]] eqn:E1; [by apply Permutation_nil_l in Hp|by apply Permutation_length_1_inv in Hp|].
      cbn in Hh. by destruct (st_turn s). }
    split_and!; [etrans; [symmetry; by apply omap_perm|exact Hf]|exists order; split; [etrans; [exact Ho|by apply omap_perm]|by rewrite <- He]|by rewrite <- He]. }
  intros s _ <- l l' Hl. unfold ShellInv. split; intros [Hb|Hs]; [left; by rewrite <- Hl|right; by eapply Hok|
    left; by rewrite Hl|right; by eapply Hok].
Qed.

Abbreviation safely := (safe (E := Error E) ShellInv (λ _ : shared_shell, True) (λ _ _ _, True)).

Definition frame_ends (o : outcome (Error E) unit) (toks : list turn_token) : Prop :=
  match o with
  | Ret _ => toks = [] ∨ ∃ f, toks = [Sent f]
  | Fail _ | Dropped => True
  | Panicked | NoFuel => False
  end.

Lemma broken_or_not (toks : list turn_token) : Broken ∈ toks ∨ Broken ∉ toks.
Proof.
  induction toks as [|t toks [IH|IH]]; [right; by apply not_elem_of_nil|left; by right|].
  destruct t; try (right; apply not_elem_of_cons; done). left. by left.
Qed.

(** A step from [t] to [t'] keeps the frames where they are. *)
Lemma turn_step t t' s s' fr :
  ShellInv s (t :: fr) → t ≠ Broken →
  (Broken ∉ fr → stream_ok s (t :: fr) → stream_ok s' (t' :: fr)) → ShellInv s' ([t'] ++ fr).
Proof.
  intros [Hb|Hs] Ht Hok.
  - left. apply elem_of_cons in Hb as [Hb|Hb]; [by destruct Ht|]. cbn. by right.
  - destruct (broken_or_not fr) as [Hb|Hb]; [left; by right|right; by apply Hok].
Qed.

(** The holder of the turn is the only one that is half way. *)
Lemma only_half f part s fr : stream_ok s (Half f part :: fr) → omap half_of fr = [].
Proof. intros (_ & _ & Hh). cbn in Hh. destruct (omap half_of fr); [done|]. cbn in Hh. by destruct (st_turn s). Qed.

Lemma write_part_safe f part b (Q : outcome (Error E) unit → list turn_token → Prop) :
  Q (Ret tt) [Half f (part ++ b)] → (∀ e, Q (Fail e) [Broken]) →
  safely (write_part failure b) Q [Half f part].
Proof.
  intros HQ HE. revert part HQ. induction b as [|x b IH]; intros part HQ.
  { split_and!; [done| |intros; by right]. rewrite app_nil_r in HQ.
    intros [|n] s fr _ Hi _; [by exists [Half f part]|exists [Broken]; split; [left; by left|apply HE]]. }
  split_and!; [done| |intros; by right].
  intros [|n] s fr _ Hi _; [exists [Half f (part ++ [x])]|exists [Broken]; split; [left; by left|apply HE]].
  split; [|apply IH; by rewrite <- app_assoc]. eapply turn_step; [exact Hi|done|].
  intros _ Hs. pose proof (only_half _ _ _ _ Hs) as Hn.
  destruct Hs as (Hf & (order & Ho & Hs) & Hh). split_and!; [done| |done]. exists order. split; [done|].
  cbn in *. rewrite Hs, Hn. cbn. by rewrite !app_nil_r, <- app_assoc.
Qed.

Lemma take_turn_safe f (Q : outcome (Error E) unit → list turn_token → Prop) :
  Q (Ret tt) [Half f []] → safely take_turn Q [Mine f].
Proof.
  intros HQ. split_and!; [done| |intros; by right]. intros n s fr _ Hi. destruct (st_turn s) eqn:Ht; [done|].
  intros _. exists [Half f []]. split; [|done]. eapply turn_step; [exact Hi|done|].
  intros _ (Hf & (order & Ho & Hs) & Hh). rewrite Ht in Hh. cbn in Hh.
  split_and!; [done|exists order; split; [done|by cbn in *]|by cbn; rewrite Hh].
Qed.

(** Who sent all of its frame leaves the turn; so does who broke one off. *)
Lemma leave_turn_safe f part (Q : outcome (Error E) unit → list turn_token → Prop) :
  part = frame_bytes f → Q (Ret tt) [Sent f] → safely leave_turn Q [Half f part].
Proof.
  intros -> HQ. apply safe_act. intros s fr _ Hi. intros _. exists [Sent f]. split; [|done].
  eapply turn_step; [exact Hi|done|]. intros _ Hs. pose proof (only_half _ _ _ _ Hs) as Hn.
  destruct Hs as (Hf & (order & Ho & Hs) & Hh). split_and!; [done| |cbn; by rewrite Hn].
  exists (order ++ [frame_bytes f]). split.
  - cbn in *. rewrite Ho. by rewrite <- Permutation_cons_append.
  - cbn in *. rewrite Hs, Hn, concat_app. cbn. by rewrite !app_nil_r.
Qed.

Lemma leave_broken (Q : outcome (Error E) unit → list turn_token → Prop) :
  Q (Ret tt) [Broken] → safely leave_turn Q [Broken].
Proof. intros HQ. apply safe_act. intros s fr _ _ _. exists [Broken]. split; [left; by left|done]. Qed.

Lemma ffi_send_frame_safe f : safely (ffi_send_frame failure (fst f) (snd f)) frame_ends [Mine f].
Proof.
  apply safe_bind, safe_load. intros s fr _. destruct (st_closed s); [done|].
  unfold send_frame_async. destruct (_ <? _); [done|]. apply safe_bind, take_turn_safe, safe_finally, safe_bind.
  apply write_part_safe; [|intros e; by apply leave_broken].
  destruct (snd f) as [|b r] eqn:Hf.
  - apply (leave_turn_safe f); [by unfold frame_bytes; rewrite Hf, app_nil_r|split; [done|right; by exists f]].
  - apply write_part_safe; [|intros e; by apply leave_broken].
    apply (leave_turn_safe f); [by unfold frame_bytes; rewrite Hf|split; [done|right; by exists f]].
Qed.

Abbreviation ok := (pool_ok ShellInv (λ _, True) (λ _ _ _, True) frame_ends []).

Lemma calls_ok p p' : rtc moves p p' → ok p → ok p'.
Proof.
  induction 1 as [|x y z Hm _ IH]; [done|]. intros Hp. apply IH.
  by eapply pool_moves; [apply shell_inv_proper| | |exact Hp|exact Hm].
Qed.

Lemma ffi_close_safe : safely (ffi_close failure) frame_ends [].
Proof.
  apply safe_bind, safe_act. intros s fr _ Hi _. exists []. split; [exact Hi|]. destruct (st_closed s); [by left|].
  split_and!; [done| |intros; by right]. intros [|n] s' fr' _ Hi' _; exists []; (split; [done|]); [by left|done].
Qed.

(** The calls that threads make: a frame each, and [closers] that close it. *)
Definition shell_calls (closers : nat) : list (call unit) :=
  ((λ f, ffi_send_frame failure (fst f) (snd f)) <$> frames) ++ replicate closers (ffi_close failure).

Lemma calls_start closers : ok (shell_calls closers, mkShared false [] false).
Proof.
  exists (((λ f, [Mine f]) <$> frames) ++ replicate closers []). split.
  - cbn [fst]. apply Forall2_app.
    + induction frames as [|f fs IH]; constructor; [apply ffi_send_frame_safe|exact IH].
    + induction closers as [|n IH]; constructor; [apply ffi_close_safe|exact IH].
  - cbn [snd]. right. assert (concat (((λ f, [Mine f]) <$> frames) ++ replicate closers []) = Mine <$> frames) as ->.
    { rewrite concat_app. assert (concat (replicate closers ([] : list turn_token)) = []) as ->
        by (by induction closers). rewrite app_nil_r. induction frames as [|f fs IH]; [done|by cbn; rewrite IH]. }
    rewrite app_nil_r. assert (omap owned_frame (Mine <$> frames) = frames ∧
      omap sent_of (Mine <$> frames) = [] ∧ omap half_of (Mine <$> frames) = []) as (H1 & H2 & H3).
    { clear. induction frames as [|f fs (H1 & H2 & H3)]; [done|]. cbn. by rewrite H1, H2, H3. }
    unfold stream_ok. rewrite H1, H2, H3. split_and!; [done|by exists []|done].
Qed.

(** C40: threads may write to one shell session at once, and close it.  However
    their calls are interleaved, byte by byte, when each has returned without an
    error, what went out on the channel is their frames, each whole and each
    once, in some order. *)
Theorem frames_arrive_whole closers ts s :
  rtc moves (shell_calls closers, mkShared false [] false) (ts, s) →
  Forall (λ t, t = TDone (Ret tt)) ts →
  ∃ order, order ≡ₚ frames ∧ st_sent s = concat (frame_bytes <$> order).
Proof.
  intros Hr Hd. destruct (calls_ok _ _ Hr (calls_start closers)) as (tokss & Hf & Hi). cbn [fst snd] in Hf, Hi.
  rewrite app_nil_r in Hi. assert (∃ sent, concat tokss = Sent <$> sent) as [sent Hs].
  { clear -Hf Hd. induction Hf as [|t toks ts tokss Ht _ IH]; [by exists []|].
    apply Forall_cons in Hd as [-> Hd]. destruct (IH Hd) as [sent Hs]. destruct Ht as [->|[f ->]]; [by exists sent|].
    exists (f :: sent). cbn. by rewrite Hs. }
  rewrite Hs in Hi. assert (omap owned_frame (Sent <$> sent) = sent ∧ omap half_of (Sent <$> sent) = [] ∧
    omap sent_of (Sent <$> sent) = frame_bytes <$> sent) as (H1 & H2 & H3).
  { clear. induction sent as [|f fs (H1 & H2 & H3)]; [done|]. cbn. by rewrite H1, H2, H3. }
  destruct Hi as [Hb|(Hp & (order & Ho & Hst) & _)]; [by apply list_elem_of_fmap in Hb as (f & ? & _)|].
  rewrite H1 in Hp. rewrite H2, app_nil_r in Hst. rewrite H3 in Ho.
  destruct (Permutation_map_inv _ _ Ho) as (order' & -> & Hp'). exists order'. split; [by rewrite <- Hp'|done].
Qed.

(** Behind [adb_shell_close], a call sends nothing and fails. *)
Lemma closed_sends_nothing id payload s : st_closed s = true →
  solo (ffi_send_frame failure id payload) s (Fail Error.ChannelClosed) s.
Proof.
  intros Hc. eapply (solo_step _ _ 0%nat); [reflexivity|]. cbn. rewrite Hc. apply solo_done.
Qed.
End Frames.

(** ** Runs *)

Definition two_frames : list (FrameId * bytes) := [(FrameId.Stdin, bs "ls"); (FrameId.CloseStdin, [])].

(** Two threads and one that closes the session: the first finds it open, the
    second sends its frame, the third closes the session, the first sends its own. *)
Definition two_threads : list (nat * option nat) :=
  [(0, Some 0)]%nat ++ replicate 9 (1, Some 0)%nat ++ replicate 2 (2, Some 0)%nat ++ replicate 11 (0, Some 0)%nat.

Definition two_sent : bytes := [x04; x00; x00; x00; x00; x00; x02; x00; x00; x00] ++ bs "ls".

Lemma follow_rtc {St E A} ms (p p' : list (task St E A) * St) : follow ms p = Some p' → rtc moves p p'.
Proof.
  revert p. induction ms as [|m ms IH]; intros p Hf; cbn in Hf; [injection Hf as ->; constructor|].
  destruct (move_with m p) as [q|] eqn:Hm; [|done]. econstructor; [by apply move_with_moves in Hm|by apply IH].
Qed.

Lemma frames_arrive_whole_witness :
  ∃ order, order ≡ₚ two_frames ∧ two_sent = concat (frame_bytes <$> order).
Proof.
  apply (frames_arrive_whole (E := unit) (λ _, Error.UnexpectedEof) two_frames 1
    (replicate 3 (TDone (Ret tt))) (mkShared false two_sent true)).
  - apply (follow_rtc two_threads). vm_compute. reflexivity.
  - repeat constructor.
Defined.
