(* ===== verification/Tcp.v ===== *)
(** * Sockets and runtimes ([transport/tcp.rs], [transport/runtime.rs], [transport/split.rs])

    What the library needs of the operating system is an interface: [Socket] has
    the calls of a [TcpStream], [Dial] the ways to connect one, [Pool] the
    threads that a runtime runs blocking work on.  [BlockingTcp] makes a call
    again when a signal lands in it ([past_signals]); [blocking_tcp_laws]
    makes it a transport of Wire, so that a connection over
    it has what is shown of connections.  [signals_unseen] is that such a call
    returns, once, with the answer of the first call that no signal cut short.
    [dialled_without_delay] is what every runtime's [connect_tcp] gives. *)

From S2P Require Import Prelude Errors Protocol Wire Uri Usb.

(** ** Sockets *)

Class Socket (S E : Type) : Type := {
  sock_read : Z → S → result E bytes * S;
  sock_write : bytes → S → result E Z * S;
  sock_flush : S → result E unit * S;
  (** [ErrorKind::Interrupted]. *)
  was_interrupted : E → bool;
  sock_kind : E → option GoneKind;
  set_nodelay : bool → S → result E unit * S;
  nodelay : S → bool;
  (** A second handle to the same socket. *)
  try_clone : S → result E S;
}.

(** What [std::io] and [std::net] promise: bytes arrive and leave in order, a
    call that fails has moved none, and only so many signals land in calls. *)
Class SocketLaws (S E : Type) `{Socket S E} : Type := {
  arriving : S → bytes;
  departed : S → bytes;
  signals : S → nat;
  sock_read_ok n s b s' : sock_read n s = (Ok b, s') →
    len b <= Z.max 0 n ∧ arriving s = b ++ arriving s' ∧ departed s' = departed s;
  sock_read_err n s e s' : sock_read n s = (Err e, s') → arriving s' = arriving s ∧ departed s' = departed s;
  sock_write_ok b s n s' : sock_write b s = (Ok n, s') →
    0 <= n <= len b ∧ departed s' = departed s ++ ztake n b ∧ arriving s' = arriving s;
  sock_write_err b s e s' : sock_write b s = (Err e, s') → arriving s' = arriving s ∧ departed s' = departed s;
  sock_flush_any s r s' : sock_flush s = (r, s') → arriving s' = arriving s ∧ departed s' = departed s;
  read_signal n s e s' : sock_read n s = (Err e, s') → was_interrupted e = true → (signals s' < signals s)%nat;
  write_signal b s e s' : sock_write b s = (Err e, s') → was_interrupted e = true → (signals s' < signals s)%nat;
  nodelay_set b s s' : set_nodelay b s = (Ok tt, s') → nodelay s' = b;
}.

(** ** [BlockingTcp] *)

Record BlockingTcp (S : Type) : Type := mkTcp { tcp_stream : S }.
Arguments mkTcp {S}.
Arguments tcp_stream {S}.

Section Blocking.
Context {S E : Type} `{Socket S E}.

(** [past_signals]; [fuel] bounds the calls, [None] is that it was not enough. *)
Fixpoint past_signals {A} (fuel : nat) (call : S → result E A * S) (s : S) : option (result E A) * S :=
  match fuel with
  | O => (None, s)
  | Datatypes.S fuel =>
      match call s with
      | (Err e, s) => if was_interrupted e then past_signals fuel call s else (Some (Err e), s)
      | (Ok a, s) => (Some (Ok a), s)
      end
  end.

(** A blocking call is never pending and so never dropped; one that has not
    returned yet is as one that was dropped. *)
Definition tcp_result {A} (r : option (result E A) * S) : io E A * BlockingTcp S :=
  (match fst r with Some (Ok a) => IoOk a | Some (Err e) => IoErr e | None => IoDropped end, mkTcp (snd r)).

Definition tcp_read (fuel : nat) (n : Z) (t : BlockingTcp S) : io E bytes * BlockingTcp S :=
  tcp_result (past_signals fuel (sock_read n) (tcp_stream t)).

Definition tcp_write (fuel : nat) (b : bytes) (t : BlockingTcp S) : io E Z * BlockingTcp S :=
  tcp_result (past_signals fuel (sock_write b) (tcp_stream t)).

(** [flush] is not made again. *)
Definition tcp_flush (t : BlockingTcp S) : io E unit * BlockingTcp S :=
  let '(r, s) := sock_flush (tcp_stream t) in tcp_result (Some r, s).

(** A transport, for a bound on the calls. *)
Definition blocking_tcp (fuel : nat) : Transport (BlockingTcp S) E := {|
  t_read := tcp_read fuel;
  t_write := tcp_write fuel;
  t_flush := tcp_flush;
  t_cancel t := t;
  read_cancel_safe := false;
  t_kind := sock_kind;
|}.

(** [Splittable::split]: the halves are handles to one socket. *)
Definition tcp_split (t : BlockingTcp S) : result E (BlockingTcp S * BlockingTcp S) :=
  clone ← try_clone (tcp_stream t);
  Ok (mkTcp (tcp_stream t), mkTcp clone).
End Blocking.

(** ** Runtimes *)

(** How a runtime connects a socket, and wraps the socket in its transport. *)
Class Dial (S E T : Type) : Type := {
  dial : bytes → Z → io E S;
  wrapped : S → T;
}.

(** [spawn_blocking] and [unblock]: a thread of the runtime's own runs the
    closure, which may panic there; the result is missing where it did, or the
    runtime cancelled it. *)
Class Pool (H : Type) : Type := {
  in_runtime : H → bool;
  on_thread {A} : (H → A * H) → H → io unit A * H;
  left_behind : H → H;
}.

Section Runtimes.
Context {S E : Type} `{Socket S E}.

(** [connect_tcp], of every runtime. *)
Definition connect_tcp {T} `{Dial S E T} (host : bytes) (port : Z) : io E T :=
  match dial host port with
  | IoOk stream =>
      match set_nodelay true stream with
      | (Ok _, stream) => IoOk (wrapped stream)
      | (Err e, _) => IoErr e
      end
  | IoErr e => IoErr e
  | IoDropped => IoDropped
  end.

(** [Inline] dials on the calling thread: [TcpStream::connect] returns. *)
Definition inline_dial (connect : bytes → Z → result E S) : Dial S E (BlockingTcp S) := {|
  dial host port := match connect host port with Ok s => IoOk s | Err e => IoErr e end;
  wrapped := mkTcp;
|}.
End Runtimes.

(** [Inline::run_blocking]. *)
Definition inline_blocking (H : Type) : Blocking H := {|
  run_blocking A f h := let '(a, h) := f h in (IoOk a, h);
  abandon h := h;
|}.

(** [Tokio::run_blocking]: inline where there is no runtime. *)
Definition tokio_blocking (H : Type) `{Pool H} : Blocking H := {|
  run_blocking A f h := if in_runtime h then on_thread f h else let '(a, h) := f h in (IoOk a, h);
  abandon h := left_behind h;
|}.

(** [Smol::run_blocking]: [smol]'s threads are always there. *)
Definition smol_blocking (H : Type) `{Pool H} : Blocking H := {|
  run_blocking A f h := on_thread f h;
  abandon h := left_behind h;
|}.

(** ** Signals *)

Section Signals.
Context {S E : Type} `{SocketLaws S E}.

(** What a call comes to when it is made until no signal cuts it short. *)
Inductive answers {A} (call : S → result E A * S) : S → result E A → S → Prop :=
| answers_ok s a s' : call s = (Ok a, s') → answers call s (Ok a) s'
| answers_err s e s' : call s = (Err e, s') → was_interrupted e = false → answers call s (Err e) s'
| answers_again s e s1 r s' :
    call s = (Err e, s1) → was_interrupted e = true → answers call s1 r s' → answers call s r s'.

(** A call that signals cut short uses them up. *)
Definition signalled {A} (call : S → result E A * S) : Prop :=
  ∀ s e s', call s = (Err e, s') → was_interrupted e = true → (signals s' < signals s)%nat.

Lemma past_signals_answers {A} (call : S → result E A * S) fuel s :
  signalled call → (signals s < fuel)%nat →
  ∃ r s', past_signals fuel call s = (Some r, s') ∧ answers call s r s'.
Proof.
  intros Hc. revert s. induction fuel as [|fuel IH]; intros s Hf; [lia|]. cbn [past_signals].
  destruct (call s) as [[a|e] s1] eqn:Hs; [by eauto using answers|].
  destruct (was_interrupted e) eqn:He; [|by eauto using answers].
  specialize (Hc _ _ _ Hs He). destruct (IH s1) as (r & s' & -> & Ha); [lia|]. eauto using answers.
Qed.

(** Where the fuel is not enough, calls were made that failed. *)
Lemma past_signals_any {A} (call : S → result E A * S) fuel s o s' :
  past_signals fuel call s = (o, s') →
  (∀ s e s', call s = (Err e, s') → arriving s' = arriving s ∧ departed s' = departed s) →
  match o with
  | Some r => ∃ s1, call s1 = (r, s') ∧ arriving s1 = arriving s ∧ departed s1 = departed s
  | None => arriving s' = arriving s ∧ departed s' = departed s
  end.
Proof.
  intros Hp Hc. revert s Hp. induction fuel as [|fuel IH]; intros s; cbn [past_signals]; [by intros [= <- <-]|].
  destruct (call s) as [[a|e] s1] eqn:Hs; [intros [= <- <-]; by exists s|].
  destruct (was_interrupted e); [|intros [= <- <-]; by exists s].
  intros Hp. destruct (Hc _ _ _ Hs) as [Ha Hd]. specialize (IH s1 Hp). rewrite Ha, Hd in IH. exact IH.
Qed.

Lemma answers_uninterrupted {A} (call : S → result E A * S) s r s' :
  answers call s r s' → ∀ e, r = Err e → was_interrupted e = false.
Proof. induction 1; intros ? [=]; subst; eauto. Qed.

Lemma answers_det {A} (call : S → result E A * S) s r1 s1 r2 s2 :
  answers call s r1 s1 → answers call s r2 s2 → r1 = r2 ∧ s1 = s2.
Proof.
  intros Ha. revert r2 s2. induction Ha as [s a s1 Hc|s e s1 Hc He|s e s1 r s' Hc He _ IH]; intros r2 s2 Hb;
    inversion Hb; subst; rewrite Hc in *; simplify_eq; try done; try congruence. by apply IH.
Qed.

(** C39: Reads and writes see signals, but their callers do not: either returns,
    what it returns is what the call comes to without signals and nothing else
    could be, and it is no interruption. *)
Theorem signals_unseen fuel n b (t : BlockingTcp S) :
  (signals (tcp_stream t) < fuel)%nat →
  (∃ r s', answers (sock_read n) (tcp_stream t) r s' ∧
     t_read (Transport := blocking_tcp fuel) n t = (match r with Ok d => IoOk d | Err e => IoErr e end, mkTcp s') ∧
     (∀ e, r = Err e → was_interrupted e = false) ∧
     ∀ r1 s1, answers (sock_read n) (tcp_stream t) r1 s1 → r1 = r ∧ s1 = s') ∧
  (∃ r s', answers (sock_write b) (tcp_stream t) r s' ∧
     t_write (Transport := blocking_tcp fuel) b t = (match r with Ok d => IoOk d | Err e => IoErr e end, mkTcp s') ∧
     (∀ e, r = Err e → was_interrupted e = false) ∧
     ∀ r1 s1, answers (sock_write b) (tcp_stream t) r1 s1 → r1 = r ∧ s1 = s').
Proof.
  intros Hf. split.
  - destruct (past_signals_answers (sock_read n) fuel (tcp_stream t)) as (r & s' & Hp & Ha); [exact (read_signal n)|done|].
    exists r, s'. cbn. unfold tcp_read. rewrite Hp. split_and!; eauto using answers_uninterrupted, answers_det.
  - destruct (past_signals_answers (sock_write b) fuel (tcp_stream t)) as (r & s' & Hp & Ha); [exact (write_signal b)|done|].
    exists r, s'. cbn. unfold tcp_write. rewrite Hp. split_and!; eauto using answers_uninterrupted, answers_det.
Qed.

(** ** The transport *)

Definition blocking_tcp_laws fuel : TransportLaws (H := blocking_tcp fuel) (BlockingTcp S) E.
Proof.
  refine (Build_TransportLaws _ _ (blocking_tcp fuel) (λ t, arriving (tcp_stream t)) (λ t, departed (tcp_stream t))
    _ _ _ _ _ _ _); cbn [t_read t_write t_flush t_cancel read_cancel_safe blocking_tcp];
    unfold tcp_read, tcp_write, tcp_flush, tcp_result.
  - intros n t b t' Hr. destruct (past_signals _ _ _) as [[[d|e]|] s'] eqn:Hp; cbn in Hr; simplify_eq/=.
    destruct (past_signals_any _ _ _ _ _ Hp (sock_read_err n)) as (s1 & Hc & <- & <-). by apply sock_read_ok in Hc.
  - intros n t e t' Hr. destruct (past_signals _ _ _) as [[[d|e']|] s'] eqn:Hp; cbn in Hr; simplify_eq/=.
    destruct (past_signals_any _ _ _ _ _ Hp (sock_read_err n)) as (s1 & Hc & <- & <-). by apply sock_read_err in Hc.
  - intros n t t' Hr. destruct (past_signals _ _ _) as [[[d|e']|] s'] eqn:Hp; cbn in Hr; simplify_eq/=.
    by destruct (past_signals_any _ _ _ _ _ Hp (sock_read_err n)).
  - intros b t n t' Hr. destruct (past_signals _ _ _) as [[[d|e]|] s'] eqn:Hp; cbn in Hr; simplify_eq/=.
    destruct (past_signals_any _ _ _ _ _ Hp (sock_write_err b)) as (s1 & Hc & <- & <-). by apply sock_write_ok in Hc.
  - intros b t r t' Hr Hne. destruct (past_signals _ _ _) as [o s'] eqn:Hp; cbn in Hr; simplify_eq/=.
    pose proof (past_signals_any _ _ _ _ _ Hp (sock_write_err b)) as Ha. destruct o as [[k|e]|].
    + by destruct (Hne k).
    + destruct Ha as (s1 & Hc & <- & <-). apply sock_write_err in Hc as [-> ->]. split; [done|].
      exists 0. by rewrite ztake_nonpos, app_nil_r by lia.
    + destruct Ha as [-> ->]. split; [done|]. exists 0. by rewrite ztake_nonpos, app_nil_r by lia.
  - intros t r t' Hr. destruct (sock_flush _) as [x s'] eqn:Hp. cbn in Hr. simplify_eq/=. by apply sock_flush_any in Hp.
  - done.
Qed.

(** A socket that any runtime dials has Nagle's algorithm off; where that or the
    dial fails there is none. *)
Theorem dialled_without_delay {T} `{Dial S E T} host port :
  match connect_tcp (T := T) host port with
  | IoOk t => ∃ s0 s, dial (T := T) host port = IoOk s0 ∧ t = wrapped s ∧ nodelay s = true
  | IoErr e => dial (T := T) host port = IoErr e ∨ ∃ s0 s, dial (T := T) host port = IoOk s0 ∧ set_nodelay true s0 = (Err e, s)
  | IoDropped => dial (T := T) host port = IoDropped
  end.
Proof.
  unfold connect_tcp. destruct (dial host port) as [s0|e|]; [|by left|done].
  destruct (set_nodelay true s0) as [[[]|e] s] eqn:Hn; [|right; eauto]. exists s0, s. by apply nodelay_set in Hn.
Qed.
End Signals.

(** [blocking_ok], of the runtimes: where a pool's thread delivers a result it is
    the closure's, so is a runtime's, and [Inline] always delivers one. *)
Lemma runtimes_run {H A} `{Pool H} (f : H → A * H) h :
  (∀ a h', on_thread f h = (IoOk a, h') → f h = (a, h')) →
  run_blocking (Blocking := inline_blocking H) f h = (let '(a, h') := f h in (IoOk a, h')) ∧
  (∀ a h', run_blocking (Blocking := tokio_blocking H) f h = (IoOk a, h') → f h = (a, h')) ∧
  (∀ a h', run_blocking (Blocking := smol_blocking H) f h = (IoOk a, h') → f h = (a, h')).
Proof.
  intros Hp. split; [done|]. split; [|exact Hp]. cbn. destruct (in_runtime h); [exact Hp|].
  destruct (f h) as [a0 h0]. by intros a h' [= <- <-].
Qed.

(** ** A socket in which signals land *)

Module TcpWitness.
Record sock : Type := mkSock { k_in : bytes; k_out : bytes; k_signals : nat; k_nodelay : bool }.

(** Errors: [true] is an interruption. *)
Definition cut_short {A} (k : sock) (r : A * sock) : result bool A * sock :=
  match k_signals k with
  | O => (Ok (fst r), snd r)
  | S n => (Err true, mkSock (k_in k) (k_out k) n (k_nodelay k))
  end.

#[global] Instance sock_socket : Socket sock bool := {
  sock_read n k := cut_short k (ztake n (k_in k), mkSock (zdrop n (k_in k)) (k_out k) (k_signals k) (k_nodelay k));
  sock_write b k := cut_short k (len b, mkSock (k_in k) (k_out k ++ b) (k_signals k) (k_nodelay k));
  sock_flush k := (Ok tt, k);
  was_interrupted e := e;
  sock_kind _ := None;
  set_nodelay b k := (Ok tt, mkSock (k_in k) (k_out k) (k_signals k) b);
  nodelay := k_nodelay;
  try_clone k := Ok k;
}.

#[global] Instance sock_laws : SocketLaws sock bool.
Proof.
  refine (Build_SocketLaws _ _ _ k_in k_out k_signals _ _ _ _ _ _ _ _); cbn; unfold cut_short.
  - intros n k b k' Hr. destruct (k_signals k); simplify_eq/=. rewrite ztake_zdrop, len_ztake. split; [lia|done].
  - intros n k e k' Hr. destruct (k_signals k); by simplify_eq/=.
  - intros b k n k' Hr. destruct (k_signals k); simplify_eq/=. rewrite ztake_all by lia. pose proof (len_nonneg b). split; [lia|done].
  - intros n k e k' Hr. destruct (k_signals k); by simplify_eq/=.
  - by intros k r k' [= <- <-].
  - intros n k e k' Hr _. destruct (k_signals k) as [|m] eqn:Hk; simplify_eq/=. lia.
  - intros n k e k' Hr _. destruct (k_signals k) as [|m] eqn:Hk; simplify_eq/=. lia.
  - by intros b k k' [= <-].
Defined.

(** Three signals land in a read. *)
Definition busy : BlockingTcp sock := mkTcp (mkSock (bs "hello") [] 3 true).
End TcpWitness.

Lemma signals_unseen_witness :
  t_read (Transport := blocking_tcp 4) 3 TcpWitness.busy
    = (IoOk (bs "hel"), mkTcp (TcpWitness.mkSock (bs "lo") [] 0 true)) ∧
  ∃ r s', answers (sock_read 3) (tcp_stream TcpWitness.busy) r s' ∧ ∀ e, r = Err e → was_interrupted e = false.
Proof.
  split; [by vm_compute|].
  destruct (signals_unseen 4 3 [] TcpWitness.busy) as [(r & s' & Ha & _ & Hn & _) _]; [by cbn; lia|]. by exists r, s'.
Defined.
