(* ===== verification/BlockOn.v ===== *)
(** * The executor of the C interface ([libadb-ffi/src/block_on.rs])

    [run] polls a future on the calling thread and sleeps while it is pending;
    the future's wakers, on any thread, set [notified] and unpark the sleeper.
    [exec] is one step of such a system: of the sleeper, which polls, swaps the
    flag and parks, or of a waker, whose two stores others may come between.
    The token of [std::thread::park] is part of the state, and a park may return
    without it.

    [wakes_not_lost] is that the sleeper never sleeps through a wake; for
    [wait_at_most], which clears the flag behind its park, the same holds as it
    polls afterwards. *)

From stdpp Require Import relations.
From S2P Require Import Prelude.

(** Where the thread of [run] is. *)
Inductive sleeper : Type :=
| Polling        (** inside [poll] *)
| Swapping       (** before the [swap] of [wait] or [wait_at_most] *)
| Parking        (** inside [park] or [park_timeout] *)
| Clearing       (** before the [store] of [wait_at_most] *)
| Returned.      (** the future was ready *)

(** [ThreadWaker], the token of its thread, and how many wakes are between their
    two steps.  [wakes] and [seen] count: the wakes so far, and those before the
    last poll began. *)
Record waker_state : Type := mkWaker {
  notified : bool;
  park_token : bool;
  at_ : sleeper;
  waking : nat;
  wakes : nat;
  seen : nat;
}.

(** [run] begins with a poll. *)
Definition run_start : waker_state := mkWaker false false Polling 0 0 0.

Inductive exec_move : Type :=
| PollPending | PollReady | Swap | ParkReturns | ParkEarly | Clear
| WakeStore    (** [notified.store(true)] of [wake_by_ref] *)
| WakeUnpark.  (** and its [unpark] *)

(** The poll that [run] goes on to. *)
Definition polls (flag token : bool) (w : waker_state) : waker_state :=
  mkWaker flag token Polling (waking w) (wakes w) (wakes w).

Definition goes (flag token : bool) (p : sleeper) (w : waker_state) : waker_state :=
  mkWaker flag token p (waking w) (wakes w) (seen w).

(** One step of [run] with [wait], or with [wait_at_most] where [timed]. *)
Definition exec (timed : bool) (m : exec_move) (w : waker_state) : option waker_state :=
  match m, at_ w with
  | PollPending, Polling => Some (goes (notified w) (park_token w) Swapping w)
  | PollReady, Polling => Some (goes (notified w) (park_token w) Returned w)
  | Swap, Swapping =>
      Some (if notified w then polls false (park_token w) w else goes false (park_token w) Parking w)
  | ParkReturns, Parking =>
      if park_token w then Some (goes (notified w) false (if timed then Clearing else Swapping) w) else None
  | ParkEarly, Parking => Some (goes (notified w) (park_token w) (if timed then Clearing else Swapping) w)
  | Clear, Clearing => Some (polls false (park_token w) w)
  | WakeStore, _ => Some (mkWaker true (park_token w) (at_ w) (S (waking w)) (S (wakes w)) (seen w))
  | WakeUnpark, _ =>
      match waking w with
      | O => None
      | S n => Some (mkWaker (notified w) true (at_ w) n (wakes w) (seen w))
      end
  | _, _ => None
  end.

Inductive exec_step (timed : bool) : waker_state → waker_state → Prop :=
| exec_by m w w' : exec timed m w = Some w' → exec_step timed w w'.

(** A wake that came after the last poll began, and is not seen yet, is in the
    flag unless the flag is about to be dropped for a poll; and where the flag is
    up in front of the sleeper, the token is there or a waker is bringing it. *)
Record waker_ok (w : waker_state) : Prop := {
  wk_counts : (seen w <= wakes w)%nat;
  wk_flag : at_ w ≠ Returned → at_ w ≠ Clearing → (seen w < wakes w)%nat → notified w = true;
  wk_token : at_ w = Parking → notified w = true → park_token w = true ∨ (0 < waking w)%nat;
}.

Lemma run_start_ok : waker_ok run_start.
Proof. split; cbn; [lia|intros; lia|done]. Qed.

Lemma exec_ok timed m w w' : waker_ok w → exec timed m w = Some w' → waker_ok w'.
Proof.
  intros [Hc Hf Ht] He. destruct w as [flag token p half ws sn]. cbn in *.
  destruct m, p, timed; try discriminate He; cbn in He; repeat case_match; simplify_eq/=; split; cbn in *; intros;
    try done; try lia; try (by apply Hf); try (by right; lia); try (by left); try (by auto); naive_solver lia.
Qed.

Lemma exec_reached timed w : rtc (exec_step timed) run_start w → waker_ok w.
Proof.
  intros Hr. remember run_start as w0 eqn:H0. assert (waker_ok w0) as Hok by (subst; apply run_start_ok). clear H0.
  induction Hr as [|x y z [m x' y' He] _ IH]; [done|]. apply IH. by eapply exec_ok.
Qed.

(** Steps in a row. *)
Fixpoint execs (timed : bool) (ms : list exec_move) (w : waker_state) : option waker_state :=
  match ms with
  | [] => Some w
  | m :: ms => w' ← exec timed m w; execs timed ms w'
  end.

Lemma execs_rtc timed ms w w' : execs timed ms w = Some w' → rtc (exec_step timed) w w'.
Proof.
  revert w. induction ms as [|m ms IH]; intros w He; cbn in He; [by simplify_eq|].
  destruct (exec timed m w) as [w1|] eqn:H1; [|done]. econstructor; [by econstructor|by apply IH].
Qed.

(** What a sleeper does by itself: no timeout, no early return of a park. *)
Definition own_move (m : exec_move) : Prop :=
  match m with PollPending | Swap | ParkReturns | Clear | WakeUnpark => True | _ => False end.

(** C36: No wake is lost.  However the steps of the executor and of any number of
    wakers come between one another: where the thread is parked without a token
    and no waker is half way, no wake came after the last poll of the future
    began; and from any state where one did, unless the future has returned, the
    thread polls again within three steps of its own and of the wakers that are
    half way, with no help from a timeout or an early return of the park. *)
Theorem wakes_not_lost timed w :
  rtc (exec_step timed) run_start w →
  (at_ w = Parking → park_token w = false → waking w = 0%nat → wakes w = seen w) ∧
  ((seen w < wakes w)%nat → at_ w ≠ Returned →
    ∃ ms w', execs timed ms w = Some w' ∧ Forall own_move ms ∧ (length ms <= 3)%nat ∧
      at_ w' = Polling ∧ seen w' = wakes w').
Proof.
  intros [Hc Hf Ht]%exec_reached. split.
  - intros Hp Hn Hw. destruct (decide (wakes w = seen w)) as [|Hne]; [done|]. exfalso.
    assert (notified w = true) as Hfl by (apply Hf; [by rewrite Hp..|lia]).
    destruct (Ht Hp Hfl); [congruence|lia].
  - intros Hlt Hr. destruct w as [flag token p half ws sn]. cbn in *.
    destruct p; try done; try (rewrite Hf in * by done).
    + exists [PollPending; Swap]. eexists. by repeat constructor.
    + exists [Swap]. eexists. by repeat constructor.
    + destruct (Ht eq_refl eq_refl) as [->|Hh]; [|destruct half as [|half]; [lia|]]; destruct timed.
      * exists [ParkReturns; Clear]. eexists. by repeat constructor.
      * exists [ParkReturns; Swap]. eexists. by repeat constructor.
      * exists [WakeUnpark; ParkReturns; Clear]. eexists. by repeat constructor.
      * exists [WakeUnpark; ParkReturns; Swap]. eexists. by repeat constructor.
    + exists [Clear]. eexists. by repeat constructor.
Qed.

(** A wake that lands as the thread goes to sleep, from a stale token on. *)
Definition late_wake : list exec_move :=
  [PollPending; WakeStore; Swap; PollPending; WakeUnpark; Swap; ParkReturns; Swap; WakeStore].

Definition woken : waker_state := default run_start (execs false late_wake run_start).

Lemma wakes_not_lost_witness :
  at_ woken = Parking ∧ park_token woken = false ∧ waking woken = 1%nat ∧
  ∃ ms w', execs false ms woken = Some w' ∧ at_ w' = Polling ∧ seen w' = wakes w'.
Proof.
  split; [by vm_compute|]. split; [by vm_compute|]. split; [by vm_compute|].
  destruct (wakes_not_lost false woken) as [_ Hp]; [apply (execs_rtc _ late_wake); by vm_compute|].
  destruct Hp as (ms & w' & He & _ & _ & Hw); [vm_compute; lia|by vm_compute|]. by exists ms, w'.
Defined.
