(* ===== verification/CThreads.v ===== *)
(** * Threads of C on one connection ([libadb-ffi]: [block_on.rs], [connection.rs], [channel.rs], [incoming.rs])

    A connection handle holds a split connection, whose reader is behind a mutex,
    and the request of the device that was last reported, behind another.  C's
    threads call on it at once; every call runs to its end.

    [on_conn] runs a call of the split connection (SplitCalls) as part of a C
    call.  A read waits for bytes that another thread's call receives and for the
    reader's mutex, whichever comes first ([block_on_read]); a write that waits
    for credit receives for itself where nobody else does ([block_on_write]).

    [c_threads] is what holds of a handle whatever its threads do: the theorems of
    SplitSystem carry over, since each C call keeps the invariant of the split
    connection, and no call ends with a mutex. *)

From stdpp Require Import relations.
From S2P Require Import Prelude Errors Protocol Banner Config SendQueue Slot ChannelTable Wire.
From S2P Require Import Connection Task Split SplitCalls SplitInv SplitSteps SplitParts SplitSafe SplitSystem.
From S2P Require Import Uri Pairing Usb Ffi.

(** [adb_connection_t]: the mutexes are whether they are held. *)
Record c_conn (T : Type) : Type := mkCConn {
  cc_shared : Shared T;
  cc_reading : bool;
  cc_staged : option SplitIncoming;
  cc_staging : bool;
}.
Arguments mkCConn {T}.
Arguments cc_shared {T}.
Arguments cc_reading {T}.
Arguments cc_staged {T}.
Arguments cc_staging {T}.

Section Calls.
Context {T IoE : Type} `{Transport T IoE}.
Abbreviation scall := (task (Shared T) (Error IoE)).
Abbreviation ccall := (task (c_conn T) (Error IoE)).

Definition put_shared (s : Shared T) (c : c_conn T) : c_conn T :=
  mkCConn s (cc_reading c) (cc_staged c) (cc_staging c).
Definition put_reading (b : bool) (c : c_conn T) : c_conn T :=
  mkCConn (cc_shared c) b (cc_staged c) (cc_staging c).
Definition put_staging (b : bool) (c : c_conn T) : c_conn T :=
  mkCConn (cc_shared c) (cc_reading c) (cc_staged c) b.
Definition put_held (i : option SplitIncoming) (c : c_conn T) : c_conn T :=
  mkCConn (cc_shared c) (cc_reading c) i (cc_staging c).

(** [block_on] of a call: nobody drops it.  Its last step is taken where [fin]
    allows the outcome. *)
Fixpoint ending {A} (fin : outcome (Error IoE) A → c_conn T → option (c_conn T)) (t : scall A) : ccall A :=
  match t with
  | TDone o => TDone o
  | TStep _ go =>
      TStep None (λ n c,
        match go n (cc_shared c) with
        | Some (TDone o, s) =>
            match fin o (put_shared s c) with Some c => Some (TDone o, c) | None => None end
        | Some (t, s) => Some (ending fin t, put_shared s c)
        | None => None
        end)
  end.

Definition on_conn {A} (t : scall A) : ccall A := ending (λ _ c, Some c) t.

(** [lock_reader], and the drop of its guard. *)
Definition lock_reader : ccall unit :=
  TStep None (λ _ c, if cc_reading c then None else Some (TDone (Ret tt), put_reading true c)).
Definition unlock_reader : ccall unit := act (modify (put_reading false)).

Definition with_reader {A} (body : ccall A) : ccall A := finally (λ _, unlock_reader) body.

(** [lock_free]: [try_lock] makes the interruption, and its guard is the reader. *)
Definition lock_free {I} (o : outcome (Error IoE) (SelectResult I)) (c : c_conn T) : option (c_conn T) :=
  match o with
  | Ret (SInterrupted _) => if cc_reading c then None else Some (put_reading true c)
  | _ => Some c
  end.

Definition block_on_read (fuel : nat) (ch : ChannelId) (want : Z) : ccall bytes :=
  waited ← ending lock_free (writer_select_channel (I := unit) fuel (λ _, Some tt) ch want);
  match waited with
  | SData b => mret b
  | SInterrupted _ => with_reader (on_conn (reader_read_channel fuel ch want))
  end.

(** The polls of [block_on_write]: where the write is pending, on credit, and the
    reader is free, one packet is received; if that fails the write is dropped.
    A write may be found pending at each of its waiting points.  [rounds] bounds
    the packets. *)
Fixpoint driven {A} (rounds fuel : nat) (ch : ChannelId) : scall A → ccall A :=
  match rounds with
  | O => λ _, no_fuel
  | S rounds =>
      fix drive (w : scall A) : ccall A :=
        match w with
        | TDone o => TDone o
        | TStep dr go =>
            TStep None (λ n c,
              match n with
              | O =>
                  match dr with
                  | Some d =>
                      if negb (cc_reading c) && waits_for_credit ch (cc_shared c) then
                        Some (r ← attempt (with_reader (on_conn (dispatch_one fuel)));
                              match r with
                              | Ok _ => driven rounds fuel ch (TStep (Some d) go)
                              | Err e => on_conn (cut tt d) ≫= λ _, tfail e
                              end, put_reading true c)
                      else None
                  | None => None
                  end
              | S n =>
                  match go n (cc_shared c) with
                  | Some (w, s) => Some (drive w, put_shared s c)
                  | None => None
                  end
              end)
        end
  end.

Definition block_on_write {A} (rounds fuel : nat) (ch : ChannelId) (w : scall A) : ccall A := driven rounds fuel ch w.

(** The mutex of [staged_incoming]: held over a call, or for one step. *)
Definition lock_staged : ccall unit :=
  TStep None (λ _ c, if cc_staging c then None else Some (TDone (Ret tt), put_staging true c)).
Definition unlock_staged : ccall unit := act (modify (put_staging false)).

(** [lock_poisoned(&conn.staged_incoming).take()]. *)
Definition take_staged : ccall (option SplitIncoming) :=
  TStep None (λ _ c, if cc_staging c then None else Some (TDone (Ret (cc_staged c)), put_held None c)).

(** ** The calls of C *)

Inductive c_request : Type :=
| COpen (destination : bytes)
| CRead (id : Z) (want : Z)
| CWrite (id : Z) (data : bytes)
| CClose (id : Z)
| CAccept
| CIncomingAccept
| CIncomingReject.

Inductive c_reply : Type :=
| CUnit
| CChannel (id : Z)
| CBytes (b : bytes)
| CDestination (b : bytes).

(** A failure is a status. *)
Definition c_call {A} (f : A → c_reply) (t : ccall A) : ccall (result AdbStatus c_reply) :=
  r ← attempt t; mret (match r with Ok a => Ok (f a) | Err e => Err (fail_error e) end).

(** The ids of channels that are not the handle's. *)
Definition with_channel (id : Z) (k : ChannelId → ccall (result AdbStatus c_reply)) :
    ccall (result AdbStatus c_reply) :=
  max ← load (λ c, max_channels (n_config (sh_negotiated (cc_shared c))));
  match decode_channel_id max id with
  | Ok ch => k ch
  | Err status => mret (Err status)
  end.

(** [adb_accept_channel]: the staged request, or the next to arrive, which is
    staged then; its destination is copied out. *)
Definition c_accept (fuel : nat) : ccall bytes :=
  lock_staged ≫= λ _,
  finally (λ _, unlock_staged)
    (staged ← load cc_staged;
     match staged with
     | Some i => mret (po_destination (si_pending i))
     | None =>
         lock_reader ≫= λ _,
         i ← with_reader (on_conn (reader_accept_incoming fuel));
         act (modify (put_held (Some i))) ≫= λ _,
         mret (po_destination (si_pending i))
     end).

(** [adb_incoming_accept] and [adb_incoming_reject]. *)
Definition c_verdict {A} (f : A → c_reply) (verdict : SplitIncoming → scall A) : ccall (result AdbStatus c_reply) :=
  staged ← take_staged;
  match staged with
  | Some i => c_call f (on_conn (verdict i))
  | None => mret (Err AdbStatus.InvalidArg)
  end.

Definition start_c (fuel : nat) (r : c_request) : ccall (result AdbStatus c_reply) :=
  match r with
  | COpen destination =>
      c_call (λ ch, CChannel (encode_channel_id ch))
        (lock_reader ≫= λ _, with_reader (on_conn (reader_open_channel fuel destination)))
  | CRead id want =>
      if want =? 0 then mret (Err AdbStatus.InvalidArg)
      else with_channel id (λ ch, c_call CBytes (block_on_read fuel ch want))
  | CWrite id data =>
      with_channel id (λ ch, c_call (λ _, CUnit) (block_on_write fuel fuel ch (writer_write_channel fuel ch data)))
  | CClose id => with_channel id (λ ch, c_call (λ _, CUnit) (on_conn (close_channel_via fuel ch)))
  | CAccept => c_call CDestination (c_accept fuel)
  | CIncomingAccept => c_verdict (λ ch, CChannel (encode_channel_id ch)) split_accept
  | CIncomingReject => c_verdict (λ _, CUnit) split_reject
  end.

(** ** The handle and its threads *)

Record c_system : Type := mkCSystem {
  cs_conn : c_conn T;
  cs_calls : list (ccall (result AdbStatus c_reply));
}.

Inductive c_step : c_system → c_system → Prop :=
| c_start fuel r c ts : c_step (mkCSystem c ts) (mkCSystem c (ts ++ [start_c fuel r]))
| c_move c ts c' ts' : moves (ts, c) (ts', c') → c_step (mkCSystem c ts) (mkCSystem c' ts')
| c_return c ts i r : ts !! i = Some (TDone (Ret r)) → c_step (mkCSystem c ts) (mkCSystem c (take i ts ++ drop (S i) ts)).

(** [handshake]'s handle, in executions that hand out fewer than [2^32] ids. *)
Inductive c_reached (read_half write_half : T) (c : conn T) : c_system → Prop :=
| c_reached_handle :
    c_reached read_half write_half c (mkCSystem (mkCConn (shared_new read_half write_half c) false None false) [])
| c_reached_step sys sys' :
    c_reached read_half write_half c sys → c_step sys sys' →
    bounded (t_next_local_id (c_table c)) (cc_shared (cs_conn sys')) → c_reached read_half write_half c sys'.
End Calls.

(** ** The invariant *)

(** What a C call owns: what its calls of the split connection do, and mutexes.
    [Staging true] is held where nothing is staged. *)
Inductive c_token : Type := OfSplit (k : token) | Reading | Staging (empty : bool).

Definition split_of (k : c_token) : option token := match k with OfSplit k => Some k | _ => None end.
Definition reading_of (k : c_token) : option unit := match k with Reading => Some tt | _ => None end.
Definition staging_of (k : c_token) : option bool := match k with Staging b => Some b | _ => None end.

Lemma split_of_split (toks : list token) : omap split_of (OfSplit <$> toks) = toks.
Proof. induction toks as [|k toks IH]; [done|]. cbn. by f_equal. Qed.
Lemma reading_of_split (toks : list token) : omap reading_of (OfSplit <$> toks) = [].
Proof. by induction toks. Qed.
Lemma staging_of_split (toks : list token) : omap staging_of (OfSplit <$> toks) = [].
Proof. by induction toks. Qed.

Section Safe.
Context {T IoE : Type} `{TransportLaws T IoE}.
Context (start : Z) (Hstart : 0 <= start) (width : nat) (inc0 : list PendingOpen) (out0 : bytes).
Abbreviation sinv := (sinv (T := T) start width inc0 out0).
Abbreviation bounded := (bounded (T := T) start).
Abbreviation scall := (task (Shared T) (Error IoE)).
Abbreviation ccall := (task (c_conn T) (Error IoE)).
Implicit Types c : c_conn T.

(** The staged request is the handle's own. *)
Definition staged_tokens c : list token := from_option held_by [] (cc_staged c).

Record CInv c (toks : list c_token) : Prop := {
  ci_split : sinv (cc_shared c) (omap split_of toks ++ staged_tokens c);
  ci_reading : length (omap reading_of toks) = Nat.b2n (cc_reading c);
  ci_staging : length (omap staging_of toks) = Nat.b2n (cc_staging c);
  ci_empty : true ∈ omap staging_of toks → cc_staged c = None;
}.

#[export] Instance cinv_perm : Proper ((=) ==> (≡ₚ) ==> iff) CInv.
Proof.
  assert (∀ c toks toks', toks ≡ₚ toks' → CInv c toks → CInv c toks') as Hone.
  { intros c toks toks' Hp [Hs Hr Hg He].
    pose proof (omap_perm split_of _ _ Hp) as H1'. pose proof (omap_perm reading_of _ _ Hp) as H2'.
    pose proof (omap_perm staging_of _ _ Hp) as H3'. split.
    - eapply sinv_perm; [done| |exact Hs]. by rewrite H1'.
    - rewrite <- Hr. apply Permutation_length. by symmetry.
    - rewrite <- Hg. apply Permutation_length. by symmetry.
    - intros Hin. apply He. by rewrite H3'. }
  intros c _ <- l l' Hl. split; by apply Hone.
Qed.

Definition cbounded c : Prop := bounded (cc_shared c).
Abbreviation anywhere := (λ (_ : Shared T) (_ _ : list token), True).
Abbreviation csafe := (safe (E := Error IoE) CInv cbounded (λ _ _ _, True)).

(** A C call that ends with what it started with, and [own] if it returns. *)
Definition creturns {A} (own : A → list c_token) (toks : list c_token) (t : ccall A) : Prop :=
  csafe t (λ o x, match o with
                  | Ret a => x = own a ++ toks
                  | Panicked => False
                  | _ => x = toks
                  end) toks.
Abbreviation ckeeps := (creturns (λ _, [])).

(** What the split connection's calls do to the handle. *)
Lemma cinv_split c s (own own' : list token) fr :
  CInv c ((OfSplit <$> own) ++ fr) → sinv s (own' ++ omap split_of fr ++ staged_tokens c) →
  CInv (put_shared s c) ((OfSplit <$> own') ++ fr).
Proof.
  intros [Hs Hr Hg He] Hs'. rewrite !omap_app, ?reading_of_split, ?staging_of_split in *.
  split; rewrite ?omap_app, ?split_of_split, ?reading_of_split, ?staging_of_split; try done. by rewrite <- app_assoc.
Qed.

Lemma cinv_shared c own fr :
  CInv c ((OfSplit <$> own) ++ fr) → sinv (cc_shared c) (own ++ omap split_of fr ++ staged_tokens c).
Proof. intros [Hs _ _ _]. by rewrite omap_app, split_of_split, <- app_assoc in Hs. Qed.

Lemma ending_safe {A} fin (t : scall A) (Q : outcome (Error IoE) A → list token → Prop)
    (Q' : outcome (Error IoE) A → list c_token → Prop) toks :
  safe (E := Error IoE) sinv bounded anywhere t Q toks →
  (∀ o, t = TDone o → ∀ y, Q o y → Q' o (OfSplit <$> y)) →
  (∀ o c c', fin o c = Some c' → cc_shared c' = cc_shared c) →
  (∀ o y c c' fr, Q o y → fin o c = Some c' → CInv c ((OfSplit <$> y) ++ fr) →
    ∃ x, CInv c' (x ++ fr) ∧ Q' o x) →
  csafe (ending fin t) Q' (OfSplit <$> toks).
Proof.
  intros Ht Hd Hsh Hf. revert toks Ht Hd. induction t as [o|dr go _ IH] using task_induction; intros toks Ht Hd.
  { by apply (Hd o). }
  destruct Ht as (_ & Hg & _). split_and!; [done| |intros; by right].
  intros n c fr Hb Hi. specialize (Hg n (cc_shared c) (omap split_of fr ++ staged_tokens c) Hb (cinv_shared _ _ _ Hi)).
  destruct (go n (cc_shared c)) as [[t' s']|] eqn:Hn; [|done]. destruct t' as [o|dr' go'].
  - destruct (fin o (put_shared s' c)) as [c'|] eqn:Hfin; [|done]. unfold cbounded. rewrite (Hsh _ _ _ Hfin).
    intros Hb'. destruct (Hg Hb') as (own' & Hi' & Ho). eapply Hf; [exact Ho|exact Hfin|by eapply cinv_split].
  - intros Hb'. destruct (Hg Hb') as (own' & Hi' & Ho). exists (OfSplit <$> own').
    split; [by eapply cinv_split|]. by eapply IH.
Qed.

Lemma on_conn_safe {A} (t : scall A) (Q : outcome (Error IoE) A → list token → Prop) toks :
  safe (E := Error IoE) sinv bounded anywhere t Q toks →
  csafe (on_conn t) (λ o x, ∃ y, x = OfSplit <$> y ∧ Q o y) (OfSplit <$> toks).
Proof.
  intros Ht. eapply ending_safe; [exact Ht|eauto|by intros o c c' [= <-]|].
  intros o y c c' fr HQ [= <-] Hi. eauto.
Qed.

Lemma ckeeps_frame {A} own (t : ccall A) toks : creturns own [] t → creturns own toks t.
Proof.
  intros Hk. pose proof (safe_frame CInv cbounded (λ _ _ _, True) ltac:(done) t _ [] toks Hk) as Hf.
  eapply safe_mono; [exact Hf|]. intros o x (y & -> & Ho). destruct o; cbn in *; subst; rewrite ?app_nil_r; done.
Qed.

Lemma on_conn_returns {A} own (t : scall A) toks :
  returns start width inc0 out0 own [] t → creturns (λ a, OfSplit <$> own a) toks (on_conn t).
Proof.
  intros Ht. apply ckeeps_frame. eapply safe_mono; [exact (on_conn_safe _ _ _ Ht)|].
  intros o x (y & -> & Ho). destruct o; cbn in *; subst; rewrite ?app_nil_r; done.
Qed.

(** ** Mutexes *)

Lemma lock_reader_safe toks : creturns (λ _, [Reading]) toks lock_reader.
Proof.
  split_and!; [done| |intros; by right]. intros n c fr _ [Hs Hr Hg He]. destruct (cc_reading c) eqn:Hc; [done|].
  intros _. exists (Reading :: toks). split; [|done]. split; cbn; [done| |done|done]. cbn in Hr. by rewrite Hr.
Qed.

(** A step that gives up the token [k], wherever it is. *)
Lemma leave_off {A} (m : prog (c_conn T) (Error IoE) A) k l r (Q : outcome (Error IoE) A → list c_token → Prop) :
  (∀ c fr, CInv c (k :: fr) → wp m (λ o c', CInv c' fr ∧ Q o (l ++ r)) c) →
  csafe (act m) Q (l ++ k :: r).
Proof.
  intros Hm. apply safe_act. intros c fr _ Hi. eapply wp_mono; [apply (Hm c ((l ++ r) ++ fr))|].
  - eapply cinv_perm; [done| |exact Hi]. by rewrite <- Permutation_middle.
  - intros o c' [Hc HQ] _. eauto.
Qed.

Lemma unlock_reader_safe l r : csafe unlock_reader (λ o x, o = Ret tt ∧ x = l ++ r) (l ++ Reading :: r).
Proof.
  apply leave_off. intros c fr [Hs Hr Hg He]. split; [|done]. split; cbn in *; [done| |done|done].
  destruct (cc_reading c); cbn in Hr; [by injection Hr|done].
Qed.

Lemma with_reader_safe {A} own toks (t : ccall A) :
  creturns own (Reading :: toks) t → csafe (with_reader t) (λ o x, match o with
    | Ret a => x = own a ++ toks | Panicked => False | _ => x = toks end) (Reading :: toks).
Proof.
  intros Ht. apply safe_finally. eapply safe_mono; [exact Ht|]. intros o x Ho.
  destruct o as [a|e| | |]; [subst; apply (safe_mono _ _ _ _ _ _ _ (unlock_reader_safe (own a) toks))|..];
    try done; try (subst; apply (safe_mono _ _ _ _ _ _ _ (unlock_reader_safe [] toks))); by intros o' y [-> ->].
Qed.

(** A call under the reader's mutex, once that is held. *)
Lemma reader_call {A} own toks (t : scall A) :
  returns start width inc0 out0 own [] t →
  csafe (with_reader (on_conn t)) (λ o x, match o with
    | Ret a => x = (OfSplit <$> own a) ++ toks | Panicked => False | _ => x = toks end) (Reading :: toks).
Proof. intros Ht. by apply with_reader_safe, on_conn_returns. Qed.

Lemma locked_call {A} own toks (t : scall A) :
  returns start width inc0 out0 own [] t →
  creturns (λ a, OfSplit <$> own a) toks (lock_reader ≫= λ _, with_reader (on_conn t)).
Proof.
  intros Ht. apply safe_bind. eapply safe_mono; [apply lock_reader_safe|].
  intros o x Ho. destruct o as [[]| | | |]; try done. subst. by apply reader_call.
Qed.

(** ** Reads *)

Lemma block_on_read_keeps fuel ch want toks : ckeeps toks (block_on_read fuel ch want).
Proof.
  apply ckeeps_frame, safe_bind. eapply (ending_safe _ _ _ _ []); [by apply keeps_writer_select_channel|..].
  - intros o Ho. exfalso. revert Ho. unfold writer_select_channel, has_signal. by cbn.
  - intros o c c' Hf. unfold lock_free in Hf. repeat case_match; by simplify_eq.
  - intros o y c c' fr Ho Hf Hi. destruct o as [[b|[]]|e| | |]; cbn in Ho; subst; try done; cbn in Hf; simplify_eq.
    + exists []. split; [exact Hi|]. by apply safe_ret.
    + destruct (cc_reading c) eqn:Hc; [done|]. simplify_eq. exists [Reading]. split.
      * destruct Hi as [Hs Hr Hg He]. split; cbn in *; [done| |done|done]. by rewrite Hr, Hc.
      * eapply safe_mono; [apply (reader_call (λ _, []) []); by apply keeps_reader_read_channel|].
        by intros [] x.
    + exists []. by split.
    + exists []. by split.
    + exists []. by split.
Qed.
(** ** Writes *)

(** A call that ends with nothing; of one that C is not told the end of, nothing is
    said. *)
Definition spent {A K} (o : outcome (Error IoE) A) (x : list K) : Prop :=
  match o with Panicked => False | _ => x = [] end.
Definition over {A} (o : outcome (Error IoE) A) (x : list c_token) : Prop :=
  match o with Ret _ | Fail _ => x = [] | Panicked => False | _ => True end.

Lemma cut_spent {A} (d : scall A) own :
  safe sinv bounded anywhere d spent own →
  csafe (on_conn (cut tt d)) (λ o x, o = Ret tt ∧ x = []) (OfSplit <$> own).
Proof.
  intros Hd. eapply safe_mono.
  - apply on_conn_safe, safe_cut. eapply safe_mono; [exact Hd|].
    instantiate (1 := λ o y, o = Ret tt ∧ y = []). by intros [] x Hx; cbn in *.
  - by intros o x (y & -> & -> & ->).
Qed.

Lemma driven_safe {A} rounds fuel ch (w : scall A) own :
  safe sinv bounded anywhere w spent own → csafe (driven rounds fuel ch w) over (OfSplit <$> own).
Proof.
  revert w own. induction rounds as [|rounds IHr]; intros w own Hw; [done|].
  revert own Hw. induction w as [o|dr go _ IH] using task_induction; intros own Hw.
  { cbn in *. destruct o; cbn in *; by subst. }
  pose proof Hw as (Hd & Hg & _). split_and!; [done| |intros; by right].
  intros [|n] c fr Hb Hi.
  - destruct dr as [d|]; [|done]. destruct (cc_reading c) eqn:Hc; [done|]. destruct (waits_for_credit _ _); [|done].
    cbn [negb andb]. intros _. exists (Reading :: (OfSplit <$> own)). split.
    { destruct Hi as [Hs Hr Hg' He]. split; cbn in *; [done| |done|done]. by rewrite Hr, Hc. }
    apply safe_bind, safe_attempt.
    eapply safe_mono; [apply (reader_call (λ _, [])); by apply keeps_dispatch_one|].
    intros [[]|e| | |] x Hx; cbn [fmap list_fmap app] in Hx; subst; try done.
    + by apply IHr.
    + apply safe_bind. eapply safe_mono; [by apply cut_spent|]. by intros o x [-> ->].
  - specialize (Hg n (cc_shared c) (omap split_of fr ++ staged_tokens c) Hb (cinv_shared _ _ _ Hi)).
    destruct (go n (cc_shared c)) as [[w' s']|] eqn:Hn; [|done]. intros Hb'.
    destruct (Hg Hb') as (own' & Hi' & Ho). exists (OfSplit <$> own'). split; [by eapply cinv_split|by eapply IH].
Qed.

(** ** Requests *)

Lemma unlock_staged_safe l r b : csafe unlock_staged (λ o x, o = Ret tt ∧ x = l ++ r) (l ++ Staging b :: r).
Proof.
  apply leave_off. intros c fr [Hs Hr Hg He]. split; [|done]. split; cbn in *; [done|done| |].
  - destruct (cc_staging c); cbn in Hg; [by injection Hg|done].
  - intros Hin. apply He. by right.
Qed.
Lemma lock_staged_safe : csafe lock_staged (λ o x, o = Ret tt ∧ x = [Staging false]) [].
Proof.
  split_and!; [done| |intros; by right]. intros n c fr _ [Hs Hr Hg He]. destruct (cc_staging c) eqn:Hc; [done|].
  intros _. exists [Staging false]. split; [|done]. split; cbn in *; [done|done|by rewrite Hg|].
  intros Hin. apply elem_of_cons in Hin as [|Hin]; [done|]. by apply He.
Qed.

(** Whoever finds nothing staged knows that nothing will be while it holds the
    mutex. *)
Lemma load_staged_safe :
  csafe (load cc_staged) (λ o x, match o with
    | Ret (Some _) => x = [Staging false] | Ret None => x = [Staging true] | _ => False end) [Staging false].
Proof.
  apply safe_act. intros c fr _ Hc. apply wp_gets. intros _.
  destruct (cc_staged c) as [i|] eqn:Hi; [by exists [Staging false]|]. exists [Staging true].
  split; [|done]. destruct Hc as [Hs Hr Hg _]. by split.
Qed.

Lemma stage_safe i :
  csafe (act (modify (put_held (Some i)))) (λ o x, o = Ret tt ∧ x = [Staging false]) ((OfSplit <$> held_by i) ++ [Staging true]).
Proof.
  apply safe_act. intros c fr _ [Hs Hr Hg He] _. exists [Staging false]. split; [|done]. cbn in *.
  assert (cc_staged c = None) as Hn by (apply He; by left). unfold staged_tokens in Hs. rewrite Hn in Hs. split; cbn.
  - eapply sinv_perm; [done| |exact Hs]. unfold staged_tokens. cbn. rewrite app_nil_r. symmetry. apply Permutation_cons_append.
  - exact Hr.
  - exact Hg.
  - intros Hin. apply elem_of_cons in Hin as [|Hin]; [done|]. exfalso.
    assert (Nat.b2n (cc_staging c) <= 1)%nat by (destruct (cc_staging c); cbn; lia).
    destruct (omap staging_of fr); [by apply not_elem_of_nil in Hin|cbn in Hg; lia].
Qed.

Lemma c_accept_safe fuel : ckeeps [] (c_accept (IoE := IoE) fuel).
Proof.
  apply safe_bind. eapply safe_mono; [apply lock_staged_safe|]. intros o x [-> ->]. apply safe_finally.
  eapply (safe_mono _ _ _ _ (λ o x, o ≠ Panicked ∧ ∃ b, x = [Staging b])).
  - apply safe_bind. eapply safe_mono; [apply load_staged_safe|]. intros [[i|]| | | |] x; try done; intros ->.
    { split; [done|eauto]. }
    apply safe_bind. eapply safe_mono; [apply lock_reader_safe|].
    intros [[]| | | |] x Hx; cbn in Hx; subst; try done; try (by split; [done|eauto]).
    apply safe_bind. eapply safe_mono; [apply (reader_call held_by); by apply returns_reader_accept_incoming|].
    intros [i|e| | |] x Hx; cbn in Hx; subst; try done; try (by split; [done|eauto]).
    apply safe_bind. eapply safe_mono; [apply stage_safe|]. intros o x [-> ->]. split; [done|eauto].
  - intros o x [Hp [b ->]]. eapply safe_mono; [apply (unlock_staged_safe [] [])|]. intros o' y [-> ->].
    split; [done|]. by destruct o.
Qed.

Lemma take_staged_safe :
  csafe take_staged (λ o x, match o with Ret i => x = OfSplit <$> from_option held_by [] i | _ => False end) [].
Proof.
  split_and!; [done| |intros; by right]. intros n c fr _ [Hs Hr Hg He]. destruct (cc_staging c) eqn:Hc; [done|].
  intros _. exists (OfSplit <$> from_option held_by [] (cc_staged c)). split; [|done]. cbn in *. split; cbn.
  - rewrite omap_app, split_of_split, app_nil_r. eapply sinv_perm; [done| |exact Hs]. unfold staged_tokens. by rewrite Permutation_app_comm.
  - by rewrite omap_app, reading_of_split.
  - by rewrite omap_app, staging_of_split, Hc.
  - done.
Qed.

(** ** Every call *)

Lemma c_call_over {A} (f : A → c_reply) (t : ccall A) toks : csafe t over toks → csafe (c_call f t) over toks.
Proof.
  intros Ht. apply safe_bind, safe_attempt. eapply safe_mono; [exact Ht|]. intros [] x Hx; cbn in *; by subst.
Qed.

Lemma keeps_over {A} (t : ccall A) : ckeeps [] t → csafe t over [].
Proof. intros Ht. eapply safe_mono; [exact Ht|]. by intros [] x Hx; cbn in *. Qed.

Lemma on_conn_over {A} (t : scall A) : returns start width inc0 out0 (λ _, []) [] t → csafe (on_conn t) over [].
Proof. intros Ht. apply keeps_over. by apply (on_conn_returns (λ _, [])). Qed.

Lemma with_channel_over id k : (∀ ch, csafe (k ch) over []) → csafe (with_channel id k) over [].
Proof.
  intros Hk. apply safe_bind, safe_load. intros c fr _. destruct (decode_channel_id _ _); [apply Hk|done].
Qed.

Lemma verdict_over {A} (f : A → c_reply) (verdict : SplitIncoming → scall A) :
  (∀ i, safe sinv bounded anywhere (verdict i) (verdict_done []) (held_by i ++ [])) →
  csafe (c_verdict f verdict) over [].
Proof.
  intros Hv. apply safe_bind. eapply safe_mono; [apply take_staged_safe|].
  intros [[i|]| | | |] x Hx; cbn [from_option fmap list_fmap] in Hx; subst; try done.
  apply c_call_over. eapply safe_mono; [apply (on_conn_safe _ _ _ (Hv i))|].
  intros o x (y & -> & Ho). by destruct o; cbn in *; subst.
Qed.

Lemma start_c_over fuel r : csafe (start_c fuel r) over [].
Proof.
  pose proof Hstart. destruct r as [d|id want|id data|id| | |]; cbn [start_c].
  - apply c_call_over, keeps_over. apply (locked_call (λ _, [])). by apply keeps_reader_open_channel.
  - destruct (want =? 0); [done|]. apply with_channel_over. intros ch. by apply c_call_over, keeps_over, block_on_read_keeps.
  - apply with_channel_over. intros ch. apply c_call_over.
    apply (driven_safe _ _ _ _ []). eapply safe_mono; [by apply keeps_writer_write_channel|].
    by intros [] x Hx; cbn in *.
  - apply with_channel_over. intros ch. apply c_call_over, on_conn_over. by apply keeps_close_channel_via.
  - by apply c_call_over, keeps_over, c_accept_safe.
  - apply verdict_over. intros i. by apply safe_split_accept.
  - apply verdict_over. intros i. by apply safe_split_reject.
Qed.
End Safe.

(** ** Every handle *)

Section Reached.
Context {T IoE : Type} `{TransportLaws T IoE}.
Context (c : conn T) (rh wh : T) (Hready : split_ready c).
Abbreviation start := (t_next_local_id (c_table c)).
Abbreviation CInv := (CInv start (length (t_slots (c_table c))) (c_incoming c) (outgoing wh)).
Implicit Types sys : @c_system T IoE.

Lemma c_reached_pool sys :
  c_reached rh wh c sys →
  cbounded start (cs_conn sys) ∧
  pool_ok CInv (cbounded start) (λ _ _ _, True) over [] (cs_calls sys, cs_conn sys).
Proof.
  assert (0 <= start) as Hstart by apply Hready. induction 1 as [|sys sys' Hr [Hb IH] Hs Hb'].
  - split.
    + unfold cbounded, bounded, allocs. cbn [cs_conn cc_shared shared_new sh_log].
      rewrite history_omap by (intros ? ? ?; set_solver). rewrite (@len_nil ChannelId).
      destruct Hready as [Hn _ _]. lia.
    + exists []. split; [constructor|]. split; [by apply split_inv|done..|by intros ?%not_elem_of_nil].
  - split; [exact Hb'|]. destruct Hs as [fuel r h ts|h ts h' ts' Hm|h ts i r Hi]; cbn [cs_conn cs_calls] in *.
    + apply (pool_spawn _ _ _ _ _ []); [by apply start_c_over|done].
    + by apply (pool_moves _ _ _ _ _ (ts, h)).
    + apply (pool_reap _ (Hperm := ltac:(apply cinv_perm)) _ _ _ _ _ _ i (Ret r)) in IH as (toks & -> & Hok); done.
Qed.

(** The tokens of the calls under way. *)
Lemma c_reached_inv sys :
  c_reached rh wh c sys →
  ∃ toks, CInv (cs_conn sys) toks ∧ (cs_calls sys = [] → toks = []).
Proof.
  intros Hr. destruct (c_reached_pool sys Hr) as (_ & tokss & Hf & Hi). exists (concat tokss).
  rewrite app_nil_r in Hi. split; [exact Hi|]. intros Hn. cbn [fst] in Hf. rewrite Hn in Hf.
  by apply Forall2_nil_inv_l in Hf as ->.
Qed.


(** C13: C loses no request of the device and no mutex.  Every request is in exactly
    one place: queued, staged on the handle, inside a call under way, or
    resolved; a mutex is held by a call under way only, so when none is, both and
    the write half are free. *)
Theorem c_requests_kept sys :
  c_reached rh wh c sys →
  let h := cs_conn sys in let s := cc_shared h in
  (∃ inside,
    c_incoming c ++ omap request_of (sh_log s)
    ≡ₚ sh_incoming s ++ inside ++ (si_pending <$> option_list (cc_staged h)) ++ omap resolved_of (sh_log s) ∧
    (cs_calls sys = [] → inside = [])) ∧
  (cs_calls sys = [] → cc_reading h = false ∧ cc_staging h = false ∧ sh_locked s = false).
Proof.
  intros Hr h s. destruct (c_reached_inv sys Hr) as (toks & [Hi Hg Hst _] & Hn). fold h in Hi, Hg, Hst. fold s in Hi.
  split.
  - exists (omap pending_of (omap split_of toks)). split; [|by intros ->%Hn].
    pose proof (rq_requests _ _ _ _ _ _ (i_requests _ _ _ _ _ _ Hi)) as Hp.
    rewrite Hp, omap_app. unfold staged_tokens. destruct (cc_staged h) as [i|]; cbn; solve_Permutation.
  - intros Hc. rewrite (Hn Hc) in *. cbn in Hg, Hst. split; [by destruct (cc_reading h)|].
    split; [by destruct (cc_staging h)|]. pose proof (i_lock _ _ _ _ _ _ Hi) as Hl. unfold lock_inv in Hl.
    rewrite omap_app in Hl. unfold staged_tokens in Hl. by destruct (sh_locked s), (cc_staged h).
Qed.
End Reached.

(** ** A sample run *)

Section Play.
Context {T IoE : Type} `{Transport T IoE}.

Inductive c_command : Type := CStart (fuel : nat) (r : c_request) | CMove (i choice : nat) | CReturn (i : nat).

Definition c_play_one (m : c_command) (sys : @c_system T IoE) : option (@c_system T IoE) :=
  match m with
  | CStart fuel r => Some (mkCSystem (cs_conn sys) (cs_calls sys ++ [start_c fuel r]))
  | CMove i n =>
      '(ts, c) ← move_with (i, Some n) (cs_calls sys, cs_conn sys);
      Some (mkCSystem c ts)
  | CReturn i =>
      match cs_calls sys !! i with
      | Some (TDone (Ret _)) => Some (mkCSystem (cs_conn sys) (take i (cs_calls sys) ++ drop (S i) (cs_calls sys)))
      | _ => None
      end
  end.

Fixpoint c_play (start : Z) (ms : list c_command) (sys : @c_system T IoE) : option (@c_system T IoE) :=
  match ms with
  | [] => Some sys
  | m :: ms =>
      sys' ← c_play_one m sys;
      if start + allocs (sh_log (cc_shared (cs_conn sys'))) <? 2 ^ 32 then c_play start ms sys' else None
  end.

Lemma c_play_step m sys sys' : c_play_one m sys = Some sys' → c_step sys sys'.
Proof.
  destruct sys as [c ts]. destruct m as [fuel r|i n|i]; cbn [c_play_one cs_conn cs_calls].
  - intros [= <-]. constructor.
  - destruct (move_with _ _) as [[ts' c']|] eqn:Hm; [|done]. intros [= <-]. constructor. by apply move_with_moves in Hm.
  - destruct (ts !! i) as [[[r| | | |]|]|] eqn:Hi; [|done..]. intros [= <-]. by econstructor.
Qed.

Lemma c_play_reached rh wh c ms sys sys' :
  c_reached rh wh c sys → c_play (t_next_local_id (c_table c)) ms sys = Some sys' → c_reached rh wh c sys'.
Proof.
  revert sys. induction ms as [|m ms IH]; intros sys Hr; [by intros [= <-]|]. cbn [c_play].
  destruct (c_play_one m sys) as [sys1|] eqn:Hp; [|done]. cbn [mbind option_bind].
  destruct (Z.ltb_spec (t_next_local_id (c_table c) + allocs (sh_log (cc_shared (cs_conn sys1)))) (2 ^ 32)); [|done].
  apply IH. eapply c_reached_step; [exact Hr|by apply c_play_step with m|done].
Qed.
End Play.

Definition c_initial : @c_system Script.script Script.error :=
  mkCSystem (mkCConn (shared_new sample_reads sample_writes sample_split) false None false) [].

Definition c_moved (i n : nat) : list c_command := replicate n (CMove i 2).

(** One thread waits for a request of the device, with the mutex of the staged one;
    another reads, and holds the reader. *)
Definition c_busy : list c_command :=
  [CStart 50 (CRead (encode_channel_id (mkChannelId 0 1)) 5); CStart 50 CAccept] ++ c_moved 1 2 ++ c_moved 0 44.

(** Both return. *)
Definition c_calm : list c_command := c_busy ++ c_moved 0 1 ++ c_moved 1 21 ++ [CReturn 1; CReturn 0].

Definition c_after (ms : list c_command) : @c_system Script.script Script.error :=
  default c_initial (c_play 2 ms c_initial).

Lemma c_after_reached ms :
  match c_play 2 ms c_initial with Some _ => true | None => false end = true →
  c_reached sample_reads sample_writes sample_split (c_after ms).
Proof.
  unfold c_after. destruct (c_play 2 ms c_initial) as [sys|] eqn:Hs; [intros _|done].
  eapply c_play_reached; [apply c_reached_handle|exact Hs].
Qed.

Lemma c_busy_reached : c_reached sample_reads sample_writes sample_split (c_after c_busy).
Proof. apply c_after_reached. by vm_compute. Qed.

Lemma c_calm_reached : c_reached sample_reads sample_writes sample_split (c_after c_calm).
Proof. apply c_after_reached. by vm_compute. Qed.


Lemma c_requests_kept_witness :
  let h := cs_conn (c_after c_calm) in
  (si_pending <$> cc_staged h) = Some (mkPending 9 0 (bs "tcp:1")) ∧
  (∃ inside, c_incoming sample_split ++ omap request_of (sh_log (cc_shared h))
     ≡ₚ sh_incoming (cc_shared h) ++ inside ++ (si_pending <$> option_list (cc_staged h)) ++ omap resolved_of (sh_log (cc_shared h)) ∧
     (cs_calls (c_after c_calm) = [] → inside = [])) ∧
  cc_reading h = false ∧ cc_staging h = false ∧ sh_locked (cc_shared h) = false.
Proof.
  pose proof (c_requests_kept sample_split sample_reads sample_writes sample_ready _ c_calm_reached) as [Hi Hf].
  split; [by vm_compute|]. split; [exact Hi|]. apply Hf. by vm_compute.
Defined.
