(* ===== verification/Cert.v ===== *)
(** * The host's certificate and TLS profile ([keys/cert.rs], [tls/identity.rs], [tls/config.rs])

    [build_at] puts together the self-signed certificate that carries a host's key
    through a TLS handshake; [from_key_at] keeps it with the key, and [tls_adb] is
    the client profile that presents it.  RSA, the hashes, DER and the calendar
    are the crates' and an interface here ([X509]); rustls's side of a profile is
    [Rustls].

    [certificate_profile] says what the certificate is, [certificate_dates] for
    which start times there is one and in which form its dates are,
    [profile_presents] what a handshake under the profile shows and accepts. *)

From S2P Require Import Prelude Errors Protocol Text Uri Keys KeyStore.

(** ** X.509 *)

(** Nanoseconds since the epoch. *)
Definition SystemTime : Type := Z.
Definition SECOND : Z := 1000000000.

(** [SystemTime::checked_add]: the seconds have 64 bits. *)
Definition I64_MAX : Z := 2 ^ 63 - 1.
Definition checked_add (t d : Z) : option SystemTime :=
  if (t + d) / SECOND <=? I64_MAX then Some (t + d) else None.

Definition LIFETIME : Z := 60 * 60 * 24 * 365 * 10 * SECOND.
Definition DISTINGUISHED_NAME : bytes := bs "CN=Adb,O=Android,C=US".
Definition SHA256_WITH_RSA : bytes := bs "1.2.840.113549.1.1.11".
(** [UtcTime::MAX_YEAR]. *)
Definition MAX_YEAR : Z := 2049.

(** [x509_cert::time::Time], of a date. *)
Inductive Time (D : Type) : Type := UtcTime (d : D) | GeneralTime (d : D).
Arguments UtcTime {D} d.
Arguments GeneralTime {D} d.

Inductive KeyUsages : Type := DigitalSignature | KeyCertSign | CRLSign.

Inductive Version : Type := V1 | V2 | V3.

(** [TbsCertificate] and [Certificate], without the ids that are [None]; an
    algorithm is its identifier, with the parameters [NULL]. *)
Record TbsCertificate (N P D X : Type) : Type := mkTbs {
  tbs_version : Version;
  tbs_serial : bytes;
  tbs_signature : bytes;
  tbs_issuer : N;
  tbs_not_before : Time D;
  tbs_not_after : Time D;
  tbs_subject : N;
  tbs_spki : P;
  tbs_extensions : list X;
}.
Arguments mkTbs {N P D X}.
Arguments tbs_version {N P D X}.
Arguments tbs_serial {N P D X}.
Arguments tbs_signature {N P D X}.
Arguments tbs_issuer {N P D X}.
Arguments tbs_not_before {N P D X}.
Arguments tbs_not_after {N P D X}.
Arguments tbs_subject {N P D X}.
Arguments tbs_spki {N P D X}.
Arguments tbs_extensions {N P D X}.

Record Certificate (N P D X : Type) : Type := mkCertificate {
  cert_tbs : TbsCertificate N P D X;
  cert_algorithm : bytes;
  cert_signature : bytes;
}.
Arguments mkCertificate {N P D X}.
Arguments cert_tbs {N P D X}.
Arguments cert_algorithm {N P D X}.
Arguments cert_signature {N P D X}.

(** Keys [K], subject public keys [P], names [N], dates [D], extensions [X] and
    errors [L] of the crates. *)
Class X509 (K P N D X L : Type) : Type := {
  parse_name : bytes → result L N;
  to_public_key_der : K → result L bytes;
  spki_from_der : bytes → result L P;
  spki_bits : P → bytes;
  (** [Time::try_from] of a system time, and the year of a date. *)
  time_try_from : SystemTime → option (Time D);
  year : D → Z;
  (** [UtcTime::from_date_time]. *)
  utc_from_date : D → result L unit;
  basic_constraints : bool → option Z → N → list X → result L X;
  key_usage : list KeyUsages → N → list X → result L X;
  subject_key_identifier : bytes → N → list X → result L X;
  (** [SerialNumber::new], [OctetString::new] and [BitString::from_bytes]. *)
  serial_new : bytes → result L unit;
  octets_new : bytes → result L unit;
  bits_from : bytes → result L unit;
  sha1 : bytes → bytes;
  sha256 : bytes → bytes;
  tbs_to_der : TbsCertificate N P D X → result L bytes;
  cert_to_der : Certificate N P D X → result L bytes;
  (** [sign_with_rng] over a digest, which the blinding does not change. *)
  sign_digest : K → bytes → result L bytes;
}.

Module CertError.
Inductive CertError (L : Type) : Type := Der (e : L) | Spki (e : L) | Rsa (e : L) | Clock.
Arguments Der {L} e.
Arguments Spki {L} e.
Arguments Rsa {L} e.
Arguments Clock {L}.
End CertError.
Abbreviation CertError := CertError.CertError.

Section Build.
Context {K P N D X L : Type} `{X509 K P N D X L}.
Abbreviation res := (result (CertError L)).

Definition der {A} (r : result L A) : res A := map_err CertError.Der r.

Definition rfc5280_time (at_ : SystemTime) : res (Time D) :=
  time ← ok_or CertError.Clock (time_try_from at_);
  match time with
  | GeneralTime d =>
      if year d <=? MAX_YEAR then _ ← der (utc_from_date d); Ok (UtcTime d) else Ok time
  | UtcTime _ => Ok time
  end.

Definition extensions (name : N) (spki : P) : res (list X) :=
  basic ← der (basic_constraints true None name []);
  usage ← der (key_usage [DigitalSignature; KeyCertSign; CRLSign] name [basic]);
  let key_id := sha1 (spki_bits spki) in
  _ ← der (octets_new key_id);
  skid ← der (subject_key_identifier key_id name [basic; usage]);
  Ok [basic; usage; skid].

Definition build_at (key : K) (not_before : SystemTime) : res bytes :=
  name ← der (parse_name DISTINGUISHED_NAME);
  spki_der ← map_err CertError.Spki (to_public_key_der key);
  spki ← map_err CertError.Spki (spki_from_der spki_der);
  not_after ← ok_or CertError.Clock (checked_add not_before LIFETIME);
  starts ← rfc5280_time not_before;
  ends ← rfc5280_time not_after;
  exts ← extensions name spki;
  _ ← der (serial_new [x01]);
  let tbs := mkTbs V3 [x01] SHA256_WITH_RSA name starts ends name spki exts in
  tbs_der ← der (tbs_to_der tbs);
  signature ← map_err CertError.Rsa (sign_digest key (sha256 tbs_der));
  _ ← der (bits_from signature);
  der (cert_to_der (mkCertificate tbs SHA256_WITH_RSA signature)).
End Build.

(** ** [tls/identity.rs] *)

Module TlsIdentityError.
Inductive TlsIdentityError (L : Type) : Type := Certificate (e : CertError L) | PrivateKey (e : L).
Arguments Certificate {L} e.
Arguments PrivateKey {L} e.
End TlsIdentityError.
Abbreviation TlsIdentityError := TlsIdentityError.TlsIdentityError.

(** The certificate and the key in DER. *)
Record TlsIdentity : Type := mkIdentity { id_certificate : bytes; id_private_key : bytes }.

Section Identity.
Context {K P N D X L : Type} `{X509 K P N D X L} (pkcs8_der : K → result L bytes).

Definition from_key_at (key : K) (not_before : SystemTime) : result (TlsIdentityError L) TlsIdentity :=
  certificate ← map_err TlsIdentityError.Certificate (build_at key not_before);
  pkcs8 ← map_err TlsIdentityError.PrivateKey (pkcs8_der key);
  Ok (mkIdentity certificate pkcs8).
End Identity.

Definition rustls_parts (i : TlsIdentity) : list bytes * bytes := ([id_certificate i], id_private_key i).

(** [Drop]: [zeroize] leaves the memory and makes every byte of it zero. *)
Definition identity_drop (i : TlsIdentity) : TlsIdentity :=
  mkIdentity (id_certificate i) (replicate (length (id_private_key i)) x00).

(** ** [tls/config.rs] *)

Inductive ProtocolVersion : Type := TLS12 | TLS13.
Inductive Resumption : Type := ResumptionDisabled | ResumptionEnabled.

(** What rustls asks of a verifier: about a certificate under a name, and about a
    signature over the handshake by a certificate's key. *)
Record ServerCertVerifier (S R : Type) : Type := mkVerifier {
  verify_server_cert : bytes → list bytes → bytes → result R unit;
  verify_tls12_signature : bytes → bytes → S → result R unit;
  verify_tls13_signature : bytes → bytes → S → result R unit;
}.
Arguments mkVerifier {S R}.
Arguments verify_server_cert {S R}.
Arguments verify_tls12_signature {S R}.
Arguments verify_tls13_signature {S R}.

(** [ClientConfig], of what the library sets. *)
Record ClientConfig (S R : Type) : Type := mkClientConfig {
  versions : list ProtocolVersion;
  verifier : ServerCertVerifier S R;
  client_auth : list bytes * bytes;
  enable_sni : bool;
  resumption : Resumption;
}.
Arguments mkClientConfig {S R}.
Arguments versions {S R}.
Arguments verifier {S R}.
Arguments client_auth {S R}.
Arguments enable_sni {S R}.
Arguments resumption {S R}.

(** rustls and its provider: signed structures [S] and errors [R]. *)
Class Rustls (S R : Type) : Type := {
  (** [with_protocol_versions]. *)
  versions_supported : list ProtocolVersion → result R unit;
  (** [with_client_auth_cert], which may refuse the key. *)
  takes_key : list bytes → bytes → result R unit;
  provider_verify : bytes → bytes → S → result R unit;
  tls12_not_offered : R;
}.

(** [TlsClientConfig], with the name its handshakes run under. *)
Record TlsClientConfig (S R : Type) : Type := mkTlsConfig { tc_inner : ClientConfig S R; tc_server_name : bytes }.
Arguments mkTlsConfig {S R}.
Arguments tc_inner {S R}.
Arguments tc_server_name {S R}.

Definition PLACEHOLDER_SERVER_NAME : bytes := bs "adb".

Section Config.
Context {S R : Type} `{Rustls S R}.

Definition AcceptAnyDevice : ServerCertVerifier S R :=
  mkVerifier (λ _ _ _, Ok tt) (λ _ _ _, Err tls12_not_offered) provider_verify.

(** [TlsClientConfig::adb]; [TlsConfigError] is rustls's error. *)
Definition tls_adb (identity : TlsIdentity) : result R (TlsClientConfig S R) :=
  let '(chain, key) := rustls_parts identity in
  _ ← versions_supported [TLS13];
  _ ← takes_key chain key;
  Ok (mkTlsConfig (mkClientConfig [TLS13] AcceptAnyDevice (chain, key) false ResumptionDisabled)
        PLACEHOLDER_SERVER_NAME).

Definition from_rustls (config : ClientConfig S R) (server_name : bytes) : TlsClientConfig S R :=
  mkTlsConfig config server_name.
End Config.

(** ** What a certificate says *)

Definition YEAR_2050 : Z := 2524608000 * SECOND.
Definition YEAR_10000 : Z := 253402300800 * SECOND.

Definition date {D} (t : Time D) : D := match t with UtcTime d | GeneralTime d => d end.
Definition is_utc {D} (t : Time D) : bool := match t with UtcTime _ => true | GeneralTime _ => false end.

(** What the crates promise: signatures verify under the key they were made with;
    dates run from the epoch to the end of the year 9999 in the Gregorian
    calendar, and a [UtcTime] has two digits of the year, up to 2049. *)
Class X509Laws (K P N D X L : Type) `{X509 K P N D X L} : Type := {
  verifies : P → bytes → bytes → bool;
  sign_verifies k pd p digest s : to_public_key_der k = Ok pd → spki_from_der pd = Ok p →
    sign_digest k digest = Ok s → verifies p digest s = true;
  time_range t : time_try_from t = None ↔ ¬ 0 <= t < YEAR_10000;
  time_year t tm : time_try_from t = Some tm → 1970 <= year (date tm) ∧
    (year (date tm) <= MAX_YEAR ↔ t < YEAR_2050) ∧ (is_utc tm = true → year (date tm) <= MAX_YEAR);
  utc_years d : 1970 <= year d <= MAX_YEAR → utc_from_date d = Ok tt;
}.

Section Certificates.
Context {K P N D X L : Type} `{X509Laws K P N D X L}.
Abbreviation certificate := (Certificate N P D X).

(** The date of [t], in the form RFC 5280 asks for: [UtcTime] through 2049. *)
Definition dated (t : SystemTime) (tm : Time D) : Prop :=
  (∃ tm0, time_try_from t = Some tm0 ∧ date tm0 = date tm) ∧ is_utc tm = (t <? YEAR_2050).

Lemma rfc5280_time_spec t :
  match rfc5280_time t with
  | Ok tm => 0 <= t < YEAR_10000 ∧ dated t tm
  | Err e => e = CertError.Clock ∧ ¬ 0 <= t < YEAR_10000
  end.
Proof.
  unfold rfc5280_time. destruct (time_try_from t) as [tm|] eqn:Ht.
  2:{ cbn. split; [done|]. by apply time_range. }
  assert (0 <= t < YEAR_10000) as Hr.
  { destruct (decide (0 <= t < YEAR_10000)) as [|Hn]; [done|]. apply time_range in Hn. congruence. }
  destruct (time_year t tm Ht) as (H1970 & Hy & Hu). cbn [ok_or mbind result_bind].
  destruct tm as [d|d]; cbn [date is_utc] in *.
  - split; [done|]. split; [by exists (UtcTime d)|]. symmetry. apply Z.ltb_lt, Hy. by apply Hu.
  - destruct (Z.leb_spec (year d) MAX_YEAR) as [Hle|Hgt].
    + rewrite (utc_years d) by lia. cbn. split; [done|]. split; [by exists (GeneralTime d)|]. symmetry. by apply Z.ltb_lt, Hy.
    + cbn. split; [done|]. split; [by exists (GeneralTime d)|]. symmetry. apply Z.ltb_ge. cbn.
      destruct (Z.le_gt_cases YEAR_2050 t); [done|]. assert (year d <= MAX_YEAR) by (by apply Hy). lia.
Qed.

(** The certificate that a host's key has from [t] on. *)
Record host_certificate (k : K) (t : SystemTime) (c : certificate) : Prop := {
  hc_version : tbs_version (cert_tbs c) = V3;
  hc_names : parse_name DISTINGUISHED_NAME = Ok (tbs_issuer (cert_tbs c)) ∧
    tbs_subject (cert_tbs c) = tbs_issuer (cert_tbs c);
  hc_key : ∃ pd, to_public_key_der k = Ok pd ∧ spki_from_der pd = Ok (tbs_spki (cert_tbs c));
  hc_from : dated t (tbs_not_before (cert_tbs c));
  hc_until : dated (t + LIFETIME) (tbs_not_after (cert_tbs c));
  hc_extensions : ∃ basic usage skid, tbs_extensions (cert_tbs c) = [basic; usage; skid] ∧
    basic_constraints true None (tbs_issuer (cert_tbs c)) [] = Ok basic ∧
    key_usage [DigitalSignature; KeyCertSign; CRLSign] (tbs_issuer (cert_tbs c)) [basic] = Ok usage ∧
    subject_key_identifier (sha1 (spki_bits (tbs_spki (cert_tbs c)))) (tbs_issuer (cert_tbs c)) [basic; usage] = Ok skid;
  hc_algorithms : tbs_signature (cert_tbs c) = SHA256_WITH_RSA ∧ cert_algorithm c = SHA256_WITH_RSA;
  hc_signed : ∃ body, tbs_to_der (cert_tbs c) = Ok body ∧
    verifies (tbs_spki (cert_tbs c)) (sha256 body) (cert_signature c) = true;
}.

Lemma extensions_ok name spki exts :
  extensions name spki = Ok exts →
  ∃ basic usage skid, exts = [basic; usage; skid] ∧ basic_constraints true None name [] = Ok basic ∧
    key_usage [DigitalSignature; KeyCertSign; CRLSign] name [basic] = Ok usage ∧
    subject_key_identifier (sha1 (spki_bits spki)) name [basic; usage] = Ok skid.
Proof.
  unfold extensions, der. intros Hx. step_ok Hx basic Hb. step_ok Hx usage Hu. step_ok Hx u Ho. step_ok Hx skid Hs.
  injection Hx as <-. by exists basic, usage, skid.
Qed.

Lemma certificate_profile_of k t d :
  build_at k t = Ok d → ∃ c, cert_to_der c = Ok d ∧ host_certificate k t c.
Proof.
  unfold build_at, der. intros Hd. step_ok Hd name Hn. step_ok Hd pd Hpd. step_ok Hd spki Hp. step_ok Hd until Hc.
  step_ok Hd starts Hs. step_ok Hd ends He. step_ok Hd exts Hx. step_ok Hd u Hser. step_ok Hd body Hb.
  step_ok Hd sgn Hsig. step_ok Hd u' Hbits. apply map_err_ok in Hd.
  assert (until = t + LIFETIME) as -> by (unfold checked_add in Hc; case_match; by simplify_eq).
  pose proof (rfc5280_time_spec t) as Hts. pose proof (rfc5280_time_spec (t + LIFETIME)) as Hte.
  rewrite Hs in Hts. rewrite He in Hte. eexists. split; [exact Hd|].
  split; cbn; [done|done|by exists pd|apply Hts|apply Hte|by apply extensions_ok|done|].
  exists body. split; [done|]. by eapply sign_verifies.
Qed.


(** What can fail but not for the clock. *)
Definition off_clock {A} (r : result (CertError L) A) : Prop := r ≠ Err CertError.Clock.

Lemma off_clock_der {A} (r : result L A) : off_clock (der r).
Proof. by destruct r. Qed.

Lemma off_clock_bind {A B} (r : result (CertError L) A) (f : A → result (CertError L) B) :
  off_clock r → (∀ a, off_clock (f a)) → off_clock (r ≫= f).
Proof. intros Hr Hf. destruct r as [a|e]; [apply Hf|]. intros [= ->]. by apply Hr. Qed.

Lemma off_clock_extensions name spki : off_clock (extensions name spki).
Proof. by repeat (apply off_clock_bind; [apply off_clock_der|]; intros ?). Qed.

(** Where the name and the key can be encoded at all, the clock is why there is no
    certificate exactly for the start times that have no ten years within what
    a certificate can carry: before the epoch, or past the year 9999 with them. *)
Theorem certificate_dates k t name pd spki :
  parse_name DISTINGUISHED_NAME = Ok name → to_public_key_der k = Ok pd → spki_from_der pd = Ok spki →
  build_at k t = Err CertError.Clock ↔ ¬ (0 <= t ∧ t + LIFETIME < YEAR_10000).
Proof.
  intros Hn Hpd Hp. unfold build_at. rewrite Hn, Hpd. cbn [der map_err mbind result_bind]. rewrite Hp.
  cbn [der map_err mbind result_bind]. assert (0 < LIFETIME) as Hl by done.
  pose proof (rfc5280_time_spec t) as Hs. pose proof (rfc5280_time_spec (t + LIFETIME)) as He.
  unfold checked_add. destruct (Z.leb_spec ((t + LIFETIME) / SECOND) I64_MAX) as [Hc|Hc].
  2:{ cbn. split; [|done]. intros _ [_ Ht]. assert ((t + LIFETIME) / SECOND < 253402300800).
      { apply Z.div_lt_upper_bound; [done|]. unfold YEAR_10000 in Ht. lia. } unfold I64_MAX in Hc. lia. }
  cbn [ok_or mbind result_bind]. destruct (rfc5280_time t) as [starts|e]; cbn [mbind result_bind].
  2:{ destruct Hs as [-> Hs]. split; [|done]. intros _ []. apply Hs. lia. }
  destruct (rfc5280_time (t + LIFETIME)) as [ends|e]; cbn [mbind result_bind].
  2:{ destruct He as [-> He]. split; [|done]. intros _ []. apply He. lia. }
  split; [|lia]. intros Hb. exfalso. revert Hb. apply off_clock_bind; [apply off_clock_extensions|]. intros exts.
  repeat (apply off_clock_bind; [apply off_clock_der|]; intros ?).
  apply off_clock_bind; [by destruct (sign_digest _ _)|]. intros sig.
  apply off_clock_bind; [apply off_clock_der|]. intros _. apply off_clock_der.
Qed.
End Certificates.

Section Profile.
Context {K P N D X L S R : Type} `{X509Laws K P N D X L} `{Rustls S R} (pkcs8_der : K → result L bytes).

(** What a handshake under the profile of a key is.  It presents one
    certificate, the host's for that key, and signs with that key; it is TLS 1.3
    without a server name and is not resumed; and it takes any device, whatever
    certificate that offers under whatever name, whose signature over the
    handshake the provider finds valid for that certificate, and no other. *)
Theorem profile_presents k t i (cfg : TlsClientConfig S R) :
  from_key_at pkcs8_der k t = Ok i → tls_adb i = Ok cfg →
  (∃ d c key, client_auth (tc_inner cfg) = ([d], key) ∧ cert_to_der c = Ok d ∧ host_certificate k t c ∧
    pkcs8_der k = Ok key ∧ takes_key [d] key = Ok tt) ∧
  versions (tc_inner cfg) = [TLS13] ∧ enable_sni (tc_inner cfg) = false ∧
  resumption (tc_inner cfg) = ResumptionDisabled ∧
  ∀ cert chain name message signed,
    verify_server_cert (verifier (tc_inner cfg)) cert chain name = Ok tt ∧
    verify_tls13_signature (verifier (tc_inner cfg)) message cert signed = provider_verify message cert signed ∧
    is_ok (verify_tls12_signature (verifier (tc_inner cfg)) message cert signed) = false.
Proof.
  unfold from_key_at, tls_adb. intros Hi Hc. step_ok Hi d Hd. step_ok Hi key Hk. injection Hi as <-.
  cbn [rustls_parts id_certificate id_private_key] in Hc. step_ok Hc u Hv. step_ok Hc u' Ht. injection Hc as <-.
  destruct u'. destruct (certificate_profile_of k t d Hd) as (c & Hcd & Hh). cbn. split_and!; try done.
  by exists d, c, key.
Qed.
End Profile.

(** ** A certificate *)

Module CertWitness.
(** Keys are their public halves; a signature is the digest under the key; dates
    are system times. *)
#[global] Instance toy_x509 : X509 bytes bytes bytes Z bytes unit := {
  parse_name n := Ok n;
  to_public_key_der k := Ok k;
  spki_from_der pd := Ok pd;
  spki_bits p := p;
  time_try_from t := if (0 <=? t) && (t <? YEAR_10000) then Some (GeneralTime t) else None;
  year d := if d <? YEAR_2050 then 2024 else 2050;
  utc_from_date d := Ok tt;
  basic_constraints ca path n x := Ok (bs "ca");
  key_usage u n x := Ok (bs "usage");
  subject_key_identifier h n x := Ok h;
  serial_new b := Ok tt;
  octets_new b := Ok tt;
  bits_from b := Ok tt;
  sha1 b := b;
  sha256 b := b;
  tbs_to_der c := Ok (tbs_serial c ++ tbs_signature c ++ tbs_issuer c ++ tbs_spki c);
  cert_to_der c := Ok (cert_signature c ++ cert_algorithm c);
  sign_digest k d := Ok (k ++ d);
}.

#[global] Instance toy_laws : X509Laws bytes bytes bytes Z bytes unit.
Proof.
  refine (Build_X509Laws _ _ _ _ _ _ _ (λ p d s, bool_decide (s = p ++ d)) _ _ _ _); cbn.
  - intros k pd p digest s [= <-] [= <-] [= <-]. by apply bool_decide_eq_true.
  - intros t. destruct (Z.leb_spec 0 t), (Z.ltb_spec t YEAR_10000); cbn; split; try done; lia.
  - intros t tm Ht. destruct ((0 <=? t) && (t <? YEAR_10000)); simplify_eq/=. unfold MAX_YEAR.
    destruct (Z.ltb_spec t YEAR_2050); split_and!; lia || done.
  - done.
Defined.

#[global] Instance toy_rustls : Rustls bool unit := {
  versions_supported _ := Ok tt;
  takes_key _ _ := Ok tt;
  provider_verify _ _ good := if good then Ok tt else Err tt;
  tls12_not_offered := tt;
}.

Definition key : bytes := bs "rsa".
(** In 2045: the certificate ends past 2049. *)
Definition now : SystemTime := 2366841600 * SECOND.
End CertWitness.

Definition toy_certificate : bytes := default [] (match build_at CertWitness.key CertWitness.now with Ok d => Some d | Err _ => None end).


Lemma certificate_dates_witness :
  build_at CertWitness.key (-1) = Err CertError.Clock ∧
  build_at CertWitness.key YEAR_10000 = Err CertError.Clock.
Proof.
  split; eapply (certificate_dates CertWitness.key _ DISTINGUISHED_NAME); try reflexivity; [lia|].
  unfold YEAR_10000, LIFETIME, SECOND. lia.
Defined.

Lemma profile_presents_witness :
  ∃ cfg : TlsClientConfig bool unit, tls_adb (mkIdentity toy_certificate CertWitness.key) = Ok cfg ∧
    versions (tc_inner cfg) = [TLS13] ∧ verify_server_cert (verifier (tc_inner cfg)) [] [] [] = Ok tt.
Proof.
  eexists. split; [reflexivity|]. match goal with |- versions (tc_inner ?cfg) = _ ∧ _ =>
    destruct (profile_presents (P := bytes) (N := bytes) (D := Z) (X := bytes) (L := unit) (λ k, Ok k)
      CertWitness.key CertWitness.now (mkIdentity toy_certificate CertWitness.key) cfg) as (_ & Hv & _ & _ & Ha) end.
  - by vm_compute.
  - reflexivity.
  - split; [exact Hv|]. by apply (Ha [] [] [] [] true).
Defined.
