(* ===== verification/FfiConnect.v ===== *)
(** * Keys, authenticators and connecting in the C interface ([libadb-ffi]: [auth.rs], [keys.rs], [pairing.rs], [transport.rs], [connection.rs])

    Strings come from C up to their NUL ([c_string]).  A call that fails returns a
    status; one that returns [Ok] has written what it promises.

    [key_handle_accepted] is that the strings of a key handle are what
    [adb_connect] and [adb_pair] take: the same key comes out of them, with the
    public line it went in with.  [callback_signature] is which signatures of a
    callback are used. *)

From stdpp Require Import relations.
From S2P Require Import Prelude Errors Protocol Text Banner Config SendQueue Slot ChannelTable Wire Connection.
From S2P Require Import Handshake Uri Keys Task KeyStore Tls Spake2 Pairing Usb Tcp Cert Ffi.

(** [CStr::from_ptr]. *)
Fixpoint c_string (memory : bytes) : bytes :=
  match memory with
  | [] => []
  | b :: memory => if eqb b x00 then [] else b :: c_string memory
  end.

(** [to_str]. *)
Definition c_str (memory : bytes) : result AdbStatus bytes :=
  if from_utf8 (c_string memory) then Ok (c_string memory) else Err AdbStatus.InvalidArg.

(** What may not be null. *)
Definition non_null {A} (p : option A) : result AdbStatus A := ok_or AdbStatus.InvalidArg p.

(** ** [auth.rs] *)

Definition normalize_public_key (pub_key : bytes) : bytes :=
  if bool_decide (last pub_key = Some x00) then pub_key else pub_key ++ [x00].

Definition MAX_SIGNATURE_LEN : Z := 1024.
Definition ADB_AUTH_TOKEN_LEN : Z := 20.

Section Auth.
Context {K L : Type} `{Rsa K L} (encode_string : bytes → bytes).
(** The signature of a key, and the text of an error. *)
Context (rsa_sign : K → bytes → result L bytes) (show : KeyError + L → bytes).

Record FfiAuthenticator : Type := mkFfiAuth { fa_key : AdbKey K; fa_public_key : bytes }.

(** [FfiAuthenticator::from_pkcs8_pem], with the default name. *)
Definition ffi_authenticator (priv_pem pub_key : bytes) : result (KeyError + L) FfiAuthenticator :=
  key ← from_pkcs8_pem encode_string priv_pem [];
  Ok (mkFfiAuth key (normalize_public_key pub_key)).

#[export] Instance ffi_authenticates : Authenticator FfiAuthenticator := {
  sign token a :=
    (match key_sign (rsa_sign (ak_key (fa_key a))) token with
     | Ok s => IoOk s
     | Err e => IoErr (bs "sign: " ++ show e)
     end, a);
  public_key := fa_public_key;
  offer_public_key _ := true;
}.

(** [adb_authenticator_t]: a callback takes the token and the room for a
    signature, and gives a status, what it left in the room and a length. *)
Record CallbackAuthenticator (U : Type) : Type := mkCallback {
  cb_public_key : bytes;
  cb_sign : bytes → bytes → U → AdbStatus * bytes * Z * U;
  cb_user_data : U;
}.
#[global] Arguments mkCallback {U}.
#[global] Arguments cb_public_key {U}.
#[global] Arguments cb_sign {U}.
#[global] Arguments cb_user_data {U}.

(** [CallbackAuthenticator::from_ffi]. *)
Definition from_ffi {U} (key : c_slice) (callback : option (bytes → bytes → U → AdbStatus * bytes * Z * U)) (user_data : U) :
    result AdbStatus (CallbackAuthenticator U) :=
  match callback with
  | None => Err AdbStatus.InvalidArg
  | Some f =>
      if null_data key then Err AdbStatus.InvalidArg
      else Ok (mkCallback (normalize_public_key (from_ptr key)) f user_data)
  end.

(** Its [sign]; the texts are those of the errors, without their numbers. *)
Definition callback_sign {U} (token : bytes) (a : CallbackAuthenticator U) : io bytes bytes * CallbackAuthenticator U :=
  if negb (len token =? ADB_AUTH_TOKEN_LEN) then (IoErr (bs "expected 20-byte SHA-1 prehash token"), a)
  else
    let room := replicate (Z.to_nat MAX_SIGNATURE_LEN) x00 in
    let '(status, buf, out_len, u) := cb_sign a token room (cb_user_data a) in
    let a := mkCallback (cb_public_key a) (cb_sign a) u in
    (match status with
     | AdbStatus.Ok =>
         if out_len =? 0 then IoErr (bs "sign callback returned empty signature")
         else if out_len <=? len room then IoOk (ztake out_len buf)
         else IoErr (bs "sign callback wrote more bytes than its capacity")
     | _ => IoErr (bs "sign callback returned a status")
     end, a).

#[export] Instance callback_authenticates {U} : Authenticator (CallbackAuthenticator U) := {
  sign := callback_sign;
  public_key := cb_public_key;
  offer_public_key _ := true;
}.

(** ** [keys.rs] *)

Definition DEFAULT_NAME : bytes := bs "libadb@host".

(** [adb_key_t]: two C strings. *)
Record adb_key_t : Type := mkKeyHandle { kh_private_key_pem : bytes; kh_public_key : bytes }.

(** The status of a failure of [load_or_generate]. *)
Definition store_status (e : StoreError L) : AdbStatus :=
  match e with
  | StoreError.Malformed _ _ | StoreError.NotAKeyFile _ => AdbStatus.Auth
  | StoreError.Key _ => AdbStatus.Internal
  | StoreError.Io _ _ => AdbStatus.Io
  end.

(** The strings of a key: neither may hold a NUL before its own. *)
Definition key_handle (key : AdbKey K) : result AdbStatus adb_key_t :=
  pem ← map_err (λ _, AdbStatus.Internal) (to_pkcs8_pem key);
  let line := public_key_line (ak_wire key) in
  if contains x00 line then Err AdbStatus.Internal
  else if contains x00 pem then Err AdbStatus.Internal
  else Ok (mkKeyHandle (pem ++ [x00]) (line ++ [x00])).

Definition checked_name (name : option bytes) : result AdbStatus bytes :=
  name ← match name with None => Ok DEFAULT_NAME | Some memory => c_str memory end;
  map_err (λ _, AdbStatus.InvalidArg) (key_name_new name).

(** [adb_key_load_or_generate], in a process that shares the directory with
    others; what is null is [None], and [out] is whether there is room for the
    handle. *)
Definition adb_key_load_or_generate (umask pid : Z) (dir : option (list bytes)) (random : nat) (name : option bytes)
    (out : bool) : task fs (StoreError L) (result AdbStatus adb_key_t) :=
  match (dir ← non_null dir; _ ← non_null (if out then Some tt else None); name ← checked_name name; Ok (dir, name)) with
  | Err status => mret (Err status)
  | Ok (dir, name) =>
      stored ← attempt (load_or_generate encode_string umask pid dir random name);
      mret (key ← map_err store_status stored; key_handle key)
  end.
End Auth.

(** [tls_config_for], at the time the clock gives; the texts of the errors are
    parameters. *)
Section TlsConfig.
Context {K P N D X L S R : Type} `{X509 K P N D X L} `{Rustls S R} (pkcs8_der : K → result L bytes).
Context (show_identity : TlsIdentityError L → bytes) (show_config : R → bytes).

Definition tls_config_for (now : SystemTime) (key : AdbKey K) : result bytes (TlsClientConfig S R) :=
  identity ← map_err (λ e, bs "tls: " ++ show_identity e) (from_key_at pkcs8_der (ak_key key) now);
  map_err (λ e, bs "tls: " ++ show_config e) (tls_adb identity).
End TlsConfig.

(** ** [pairing.rs] *)

(** [trim_end_matches(['\r', '\n'])]. *)
Fixpoint trim_end_breaks (line : bytes) : bytes :=
  match line with
  | [] => []
  | b :: line =>
      match trim_end_breaks line with
      | [] => if eqb b x0d || eqb b x0a then [] else [b]
      | rest => b :: rest
      end
  end.

Section Pairing.
Context {K L : Type} `{Rsa K L} (encode_string : bytes → bytes).

(** The blob of a public key line, and its name. *)
Definition line_parts (line : bytes) : bytes * bytes := default (line, []) (split_once " "%byte line).

(** What [adb_pair] makes of its arguments before it dials. *)
Definition pair_arguments (uri priv_key_pem pub_key code : bytes) : result AdbStatus (bytes * Z * AdbKey K * bytes) :=
  uri ← c_str uri;
  priv_pem ← c_str priv_key_pem;
  pub_key ← c_str pub_key;
  code ← c_str code;
  '(host, port) ← match parse uri with
                  | Ok (Uri.Tcp host port) => Ok (host, port)
                  | Ok (Uri.Usb _) => Err AdbStatus.InvalidUri
                  | Err e => Err (fail_ffi_connect (ConnectError.Uri (E := unit) (F := unit) e))
                  end;
  if bool_decide (code = []) then Err AdbStatus.InvalidArg
  else
    let '(blob, name) := line_parts (trim_end_breaks pub_key) in
    name ← map_err (λ _, AdbStatus.InvalidArg) (key_name_new name);
    key ← map_err (λ _, AdbStatus.Auth) (from_pkcs8_pem encode_string priv_pem name);
    let derived := fst (line_parts (public_key_line (ak_wire key))) in
    if bool_decide (derived = blob) then Ok (host, port, key, code) else Err AdbStatus.InvalidArg.
End Pairing.

(** [adb_pair]: the exchange, the device's GUID into C's memory, and the
    transport as it was left.  A null string is [None]. *)
Section Pair.
Context {K L : Type} `{Rsa K L} (encode_string : bytes → bytes).
Context {S E T F P : Type} `{Socket S E} `{!Dial S E (BlockingTcp S)} `{PairStream T F} `{Aead} `{Curve P}.
(** [tls_config_for], [MaybeTls::plain] with the profile it gives, and [shutdown],
    whose result is not looked at. *)
Context {Profile : Type} (tls_config : AdbKey K → result bytes Profile).
Context (plain : Profile → BlockingTcp S → T) (shutdown : T → T).

Definition adb_pair (uri priv_key_pem pub_key code : option bytes) (random : bytes) (guid : c_slice) :
    outcome AdbStatus (c_slice * Z * T) :=
  match (uri ← non_null uri; priv_key_pem ← non_null priv_key_pem; pub_key ← non_null pub_key; code ← non_null code;
         pair_arguments encode_string uri priv_key_pem pub_key code) with
  | Err status => Fail status
  | Ok (host, port, key, code) =>
      match tls_config key with
      | Err _ => Fail AdbStatus.Internal
      | Ok tls =>
          match connect_tcp (T := BlockingTcp S) host port with
          | IoOk socket =>
              let '(paired, t) := pair (P := P) (public_key_line (ak_wire key)) code random (plain tls socket) in
              outcome_map (λ device, (copy_out device guid, shutdown t)) fail_pairing paired
          | IoErr e => Fail (fail_ffi_connect (ConnectError.Tcp (F := unit) e))
          | IoDropped => Dropped
          end
      end
  end.
End Pair.

(** ** [transport.rs] and [connection.rs] *)

Section Connect.
Context {S E U F C R : Type} `{SocketLaws S E} `{Dial S E (BlockingTcp S)} `{Transport U F} `{EngineLaws C R} (calls : nat).
Abbreviation tcp := (BlockingTcp S).
#[local] Instance tcp_transport : Transport tcp E := blocking_tcp calls.
#[local] Instance tcp_transport_laws : TransportLaws tcp E := blocking_tcp_laws calls.
Abbreviation maybe := (MaybeTls tcp C R).
Abbreviation medium m := (Common m maybe U).
Abbreviation error := (TransportError (TlsError E R) F).

(** [transport::connect]: the transport, and a second handle of its socket. *)
Definition ffi_connect (connect_usb : UsbSelector → io unit (result F U)) (uri : bytes) :
    io (ConnectError E F) ({ m : Medium & medium m } * option S) :=
  match any_connect connect_tcp connect_usb uri with
  | IoOk (existT Tcp plain) =>
      match try_clone (tcp_stream plain) with
      | Ok socket => IoOk (existT Tcp (MPlain plain), Some socket)
      | Err e => IoErr (ConnectError.Tcp e)
      end
  | IoOk (existT Usb usb) => IoOk (existT Usb usb, None)
  | IoErr e => IoErr e
  | IoDropped => IoDropped
  end.

Definition connect_plain {A} `{Authenticator A} (fuel : nat) (m : Medium) (t : medium m) (auth : A) (banner : bytes) :
    outcome AdbStatus (conn (medium m)) :=
  outcome_map id fail_error (connect (IoE := error) fuel t auth (HostBanner.Raw banner) config_new).

(** [connect_with_key]: TLS is there for TCP alone, and there it needs the key's
    profile. *)
Definition connect_with_key {A Profile} `{Authenticator A} (fuel : nat) (tls_config : A → result bytes Profile) (m : Medium) :
    medium m → A → bytes → outcome AdbStatus (conn (medium m)) :=
  match m with
  | Tcp => λ t auth banner,
      match tls_config auth with
      | Ok _ => outcome_map id fail_error (connect_tls (IoE := error) fuel t auth (HostBanner.Raw banner) config_new)
      | Err _ => Fail AdbStatus.Internal
      end
  | Usb => λ t auth banner, connect_plain fuel Usb t auth banner
  end.

(** [adb_connection_t], before it is shared: the connection, the transports of
    its halves and the socket to set timeouts on. *)
Record opened (TR TW UR UW : Type) : Type := mkOpened {
  op_medium : Medium;
  op_conn : conn (medium op_medium);
  op_halves : Common op_medium TR UR * Common op_medium TW UW;
  op_tcp_socket : option S;
}.
#[global] Arguments mkOpened {TR TW UR UW}.
#[global] Arguments op_tcp_socket {TR TW UR UW}.

Section Calls.
Context {TR TW UR UW : Type} (connect_usb : UsbSelector → io unit (result F U)).
Context (split_usb : U → result F (UR * UW)) (split_tcp : maybe → result (TlsError E R) (TR * TW)).

(** [handshake]. *)
Definition ffi_handshake (uri : bytes) (connect : ∀ m, medium m → outcome AdbStatus (conn (medium m))) :
    outcome AdbStatus (opened TR TW UR UW) :=
  match ffi_connect connect_usb uri with
  | IoErr e => Fail (fail_ffi_connect e)
  | IoDropped => Dropped
  | IoOk (existT m t, socket) =>
      outcome_bind (connect m t) (λ c,
        match common_split split_tcp split_usb m (w_transport (c_wire c)) with
        | Ok halves => Ret (mkOpened m c halves socket)
        | Err e => Fail (fail_error (Error.Io e))
        end)
  end.

(** What a call refuses before it begins, or the call. *)
Definition checked {A B} (arguments : result AdbStatus A) (call : A → outcome AdbStatus B) : outcome AdbStatus B :=
  match arguments with Ok a => call a | Err status => Fail status end.

(** [adb_connect]; [out] is whether there is room for the handle. *)
Definition adb_connect {K L Profile} `{Rsa K L} (encode_string : bytes → bytes)
    (rsa_sign : K → bytes → result L bytes) (show : KeyError + L → bytes)
    (tls_config : AdbKey K → result bytes Profile) (fuel : nat)
    (uri priv_key_pem pub_key banner : option bytes) (out : bool) : outcome AdbStatus (opened TR TW UR UW) :=
  checked (uri ← non_null uri; priv_key_pem ← non_null priv_key_pem; pub_key ← non_null pub_key;
           banner ← non_null banner; _ ← non_null (if out then Some tt else None);
           uri ← c_str uri; priv_pem ← c_str priv_key_pem;
           auth ← map_err (λ _, AdbStatus.Auth) (ffi_authenticator encode_string priv_pem (c_string pub_key));
           Ok (uri, auth, c_string banner))
    (λ '(uri, auth, banner),
      ffi_handshake uri (λ m t, connect_with_key (H5 := ffi_authenticates rsa_sign show) fuel
                                  (λ a, tls_config (fa_key a)) m t auth banner)).

(** [adb_connect_with_authenticator]: never over TLS. *)
Definition adb_connect_with_authenticator {V} (fuel : nat)
    (uri : option bytes) (authenticator : option (c_slice * option (bytes → bytes → V → AdbStatus * bytes * Z * V) * V))
    (banner : option bytes) (out : bool) : outcome AdbStatus (opened TR TW UR UW) :=
  checked (uri ← non_null uri; authenticator ← non_null authenticator; banner ← non_null banner;
           _ ← non_null (if out then Some tt else None); uri ← c_str uri;
           let '(key, callback, user_data) := authenticator in
           auth ← from_ffi key callback user_data;
           Ok (uri, auth, c_string banner))
    (λ '(uri, auth, banner), ffi_handshake uri (λ m t, connect_plain fuel m t auth banner)).
End Calls.

(** [adb_connection_set_io_timeout_ms], with the two setters of a socket. *)
Definition as_duration (ms : Z) : option Z := if 0 <? ms then Some ms else None.

Definition adb_connection_set_io_timeout_ms (set_read set_write : option Z → S → result E unit * S)
    (read_ms write_ms : Z) (socket : option S) : AdbStatus * option S :=
  match socket with
  | None => (AdbStatus.InvalidArg, None)
  | Some s =>
      match set_read (as_duration read_ms) s with
      | (Err _, s) => (AdbStatus.Io, Some s)
      | (Ok _, s) =>
          match set_write (as_duration write_ms) s with
          | (Err _, s) => (AdbStatus.Io, Some s)
          | (Ok _, s) => (AdbStatus.Ok, Some s)
          end
      end
  end.
End Connect.

(** What a handle reports, and what a null one does. *)
Definition adb_connection_max_payload (conn : option Negotiated) : Z :=
  match conn with Some n => n_max_payload n | None => 0 end.

Definition adb_connection_delayed_ack (conn : option Negotiated) : bool :=
  match conn with Some n => n_delayed_ack n | None => false end.

Definition adb_connection_device_banner (conn : option Negotiated) (buf : c_slice) : result AdbStatus (c_slice * Z) :=
  n ← non_null conn; Ok (copy_out (b_raw (n_device_banner n)) buf).

Definition adb_key_private_key_pem (key : option adb_key_t) : option bytes := kh_private_key_pem <$> key.
Definition adb_key_public_key (key : option adb_key_t) : option bytes := kh_public_key <$> key.

(** ** Callbacks *)

(** A callback's signature is used where the token is a SHA-1 hash and the
    callback says that it wrote one, not empty and within the room it had; it is
    then what the callback left there, up to the length it gave.  The key that
    the device is offered stays as it was copied. *)
Lemma callback_signature {U} token (a : CallbackAuthenticator U) s :
  fst (callback_sign token a) = IoOk s ↔
  len token = ADB_AUTH_TOKEN_LEN ∧ ∃ buf n u,
    cb_sign a token (replicate (Z.to_nat MAX_SIGNATURE_LEN) x00) (cb_user_data a) = (AdbStatus.Ok, buf, n, u) ∧
    n ≠ 0 ∧ n <= MAX_SIGNATURE_LEN ∧ s = ztake n buf.
Proof.
  unfold callback_sign. destruct (Z.eqb_spec (len token) ADB_AUTH_TOKEN_LEN) as [Ht|Ht]; cbn [negb fst]; [|split; [done|by intros [? _]]].
  replace (len (replicate (Z.to_nat MAX_SIGNATURE_LEN) x00)) with MAX_SIGNATURE_LEN by (by vm_compute).
  destruct (cb_sign a token _ _) as [[[status buf] n] u]. cbn [fst]. split.
  - destruct status; try done. destruct (Z.eqb_spec n 0); [done|]. destruct (Z.leb_spec n MAX_SIGNATURE_LEN); [|done].
    intros [= <-]. split; [done|]. by exists buf, n, u.
  - intros (_ & buf' & n' & u' & [= -> -> -> ->] & Hn & Hl & ->).
    by rewrite (proj2 (Z.eqb_neq _ _) Hn), (proj2 (Z.leb_le _ _) Hl).
Qed.

Lemma callback_key_kept {U} token (a : CallbackAuthenticator U) :
  public_key (snd (callback_sign token a)) = public_key a.
Proof.
  unfold callback_sign. destruct (negb _); [done|]. by destruct (cb_sign a token _ _) as [[[status buf] n] u].
Qed.

(** ** The strings of a key handle *)

Lemma c_string_ends line : x00 ∉ line → c_string (line ++ [x00]) = line.
Proof.
  induction line as [|b line IH]; intros Hn; [done|]. apply not_elem_of_cons in Hn as [Hb Hn]. cbn.
  destruct (eqb b x00) eqn:He; [by apply eqb_true in He|]. by rewrite IH.
Qed.

Lemma trim_end_unbroken line : Forall (λ c, breaks_line c = false) line → trim_end_breaks line = line.
Proof.
  induction 1 as [|b line Hb _ IH]; [done|]. cbn [trim_end_breaks]. rewrite IH. destruct line; [|done].
  destruct (eqb b x0d) eqn:H1; [apply eqb_true in H1; by subst|]. destruct (eqb b x0a) eqn:H2; [apply eqb_true in H2; by subst|done].
Qed.

Lemma utf8_after_ascii l m : Forall (λ c, u8 c < 0x80) l → from_utf8 (l ++ m) = from_utf8 m.
Proof. induction 1 as [|c l Hc _ IH]; [done|]. cbn [app from_utf8]. by rewrite (proj2 (Z.ltb_lt _ _) Hc). Qed.

Section Handles.
Context {K L : Type} `{RsaLaws K L} (encode_string : bytes → bytes) `{Base64Laws encode_string} (umask : Z).

(** A key under a name. *)
Definition named (name : bytes) (key : AdbKey K) : Prop :=
  from_private_key encode_string (rsa_public (ak_key key)) name = Ok (ak_wire key).

Lemma stored_named pid dir random name :
  ends (named name) (load_or_generate (L := L) encode_string umask pid dir random name).
Proof.
  assert (∀ pid, ends (named name) (adopt (L := L) encode_string umask pid name)) as Hadopt.
  { intros p. eapply (ends_bind (named name)); [|intros key Hk; by apply ends_then].
    apply ends_then. intros [b|e]; [|done]. destruct (negb (from_utf8 b)); [done|].
    destruct (parse_key encode_string b name) as [key|e] eqn:Hk; [|done].
    unfold parse_key in Hk. step_ok Hk k Hp. by apply adb_key_named in Hk as [_ ?]. }
  apply ends_then. intros [|[]]; try done. apply ends_then. intros [].
  eapply (ends_bind (named name)).
  { destruct (generate encode_string random name) as [key|e] eqn:Hg; [|done]. by apply generate_named in Hg. }
  intros key Hk. apply ends_then. intros pem. apply ends_then. intros []; [by apply ends_then|apply Hadopt].
Qed.

Lemma line_utf8 blob name :
  from_utf8 name = true → from_utf8 (encode_string blob ++ (if bool_decide (name = []) then [] else bs " " ++ name)) = true.
Proof.
  intros Hn. rewrite utf8_after_ascii.
  - case_bool_decide; [done|]. by rewrite utf8_after_ascii by (by repeat constructor).
  - eapply Forall_impl; [apply b64_chars|]. intros c Hc.
    assert (forallb (λ c, u8 c <? 0x80) BASE64_CHARS = true) as Hall by (by vm_compute).
    rewrite forallb_forall in Hall. apply list_elem_of_In, Hall in Hc. by apply Z.ltb_lt.
Qed.

Lemma line_parts_of blob name :
  line_parts (encode_string blob ++ (if bool_decide (name = []) then [] else bs " " ++ name)) = (encode_string blob, name).
Proof.
  assert (" "%byte ∉ encode_string blob) as Hs.
  { intros Hin. pose proof (no_space_text encode_string blob) as Hall. rewrite Forall_forall in Hall. by apply (Hall _ Hin). }
  unfold line_parts. case_bool_decide as Hn.
  - subst. rewrite app_nil_r. by rewrite (proj2 (split_once_none _ _) Hs).
  - by rewrite (proj2 (split_once_some " "%byte _ (encode_string blob) name)).
Qed.

Lemma key_handle_strings key h :
  key_handle key = Ok h → ∃ pem, rsa_to_pkcs8_pem (ak_key key) = Ok pem ∧
    c_string (kh_private_key_pem h) = pem ∧ c_string (kh_public_key h) = public_key_line (ak_wire key).
Proof.
  unfold key_handle. intros Hh. step_ok Hh pem Hp. apply map_err_ok in Hp. exists pem. split; [done|].
  destruct (contains x00 (public_key_line _)) eqn:Hl; [done|]. destruct (contains x00 pem) eqn:Hn; [done|].
  injection Hh as <-. cbn. apply contains_false in Hl, Hn. by rewrite !c_string_ends.
Qed.
Lemma checked_name_ok given name :
  checked_name given = Ok name → key_name_new name = Ok name ∧ from_utf8 name = true.
Proof.
  unfold checked_name. intros Hn. apply bind_ok in Hn as (n & Hg & Hn). apply map_err_ok in Hn.
  assert (name = n) as -> by (unfold key_name_new in Hn; repeat case_match; by simplify_eq). split; [done|].
  destruct given as [memory|]; [|by injection Hg as <-]. unfold c_str in Hg.
  destruct (from_utf8 (c_string memory)) eqn:Hu; by simplify_eq.
Qed.

(** The strings of a key's handle, taken up by either call. *)
Lemma handle_taken key name h :
  key_name_new name = Ok name → from_utf8 name = true → named name key → key_handle key = Ok h →
  (∃ auth, ffi_authenticator encode_string (c_string (kh_private_key_pem h)) (c_string (kh_public_key h)) = Ok auth ∧
     c_str (kh_private_key_pem h) = Ok (c_string (kh_private_key_pem h)) ∧
     ak_key (fa_key auth) = ak_key key ∧ fa_public_key auth = ak_wire key) ∧
  ∀ uri code host port, c_str uri = Ok (c_string uri) → parse (c_string uri) = Ok (Uri.Tcp host port) →
    c_str code = Ok (c_string code) → c_string code ≠ [] →
    pair_arguments encode_string uri (kh_private_key_pem h) (kh_public_key h) code = Ok (host, port, key, c_string code).
Proof.
  intros Hn Hu Hk Hh. destruct (key_handle_strings _ _ Hh) as (pem & Hp & Hpem & Hpub).
  destruct (pkcs8_reads _ _ Hp) as (Hread & Hutf & _).
  destruct (key_line_parts encode_string _ _ _ _ Hn Hk) as (_ & _ & line & blob & Hw & Hl & Hunb & Hb & Hline).
  assert (c_str (kh_private_key_pem h) = Ok pem) as Hcp by (unfold c_str; by rewrite Hpem, Hutf).
  assert (c_str (kh_public_key h) = Ok line) as Hcl.
  { unfold c_str. rewrite Hpub, Hl, Hline. by rewrite line_utf8. }
  rewrite Hpem, Hpub, Hl. split.
  - assert (∃ k0, from_pkcs8_pem (L := L) encode_string pem [] = Ok k0 ∧ ak_key k0 = ak_key key) as (k0 & Hk0 & He).
    { unfold from_pkcs8_pem, adb_key, from_private_key, encode_public_key. rewrite Hread. cbn. rewrite Hb. cbn. by eexists. }
    exists (mkFfiAuth k0 (normalize_public_key line)). unfold ffi_authenticator. rewrite Hk0. split_and!; [done|done|done|].
    cbn [fa_public_key]. unfold normalize_public_key. rewrite Hw, bool_decide_false; [done|]. intros Hz. apply last_Some in Hz as (l & ->). apply Forall_app in Hunb as [_ Hz]. by inversion Hz.
  - intros uri code host port Hcu Hpu Hcc Hne. unfold pair_arguments. rewrite Hcu, Hcp, Hcl, Hcc. cbn [mbind result_bind].
    rewrite Hpu. cbn [mbind result_bind]. rewrite bool_decide_false by done. rewrite trim_end_unbroken by done.
    rewrite Hline, line_parts_of, Hn. cbn [map_err mbind result_bind]. unfold from_pkcs8_pem. rewrite Hread. cbn [map_err mbind result_bind].
    rewrite (proj2 (adb_key_named encode_string (ak_key key) name key) (conj eq_refl Hk)). cbn [map_err mbind result_bind].
    rewrite Hl, Hline, line_parts_of. cbn [fst]. by rewrite bool_decide_true.
Qed.

End Handles.

(** ** A key generated, and the calls that take it *)

Module KeyWitness.
#[global] Existing Instance base64_laws.

Definition calls : list (task fs (StoreError unit) (result AdbStatus adb_key_t)) :=
  [adb_key_load_or_generate base64 0 10 (Some [bs ".android"]) 1 (Some (bs "me@host" ++ [x00])) true;
   adb_key_load_or_generate base64 0 11 (Some [bs ".android"]) 2 None true].

(** The first gets through, while the second has begun. *)
Definition schedule : list (nat * option nat) :=
  [(0%nat, Some 800%nat); (1%nat, Some 800%nat)] ++ replicate 15 (0%nat, Some 800%nat).
End KeyWitness.

